(* ===== verification/_CoqProject ===== *)
-Q . S2P
Prelude.v
Kernels.v
Laws.v
MergeOps.v
ZSets.v
Progress.v
ArrowZSets.v
Keys.v
KeyCapsules.v
Store.v
ShardDb.v
ShardRaces.v
Paging.v
Reader.v
Migration.v
Distinct.v
DistinctStore.v
Joins.v
JoinStore.v
FrontierAgg.v
LeaseStore.v
PhysicalCommit.v
CommitDurability.v
FlowControl.v
FlowWaiters.v
Raft.v
ShardLeases.v
ControlLeases.v
WorkerBudget.v
Checkpoints.v
Handoff.v
HandoffSafety.v
HandoffCopy.v
HandoffDrive.v
