(* ===== verification/Prelude.v ===== *)
(** * RockStream verification: root file

    RockStream is an incremental view engine.  Sources feed batches of weighted
    rows (Z-sets) to operators; operators keep arrangements in a shard database on
    top of SlateDB; epochs of changes are committed in groups; workers exchange
    batches under credit; a replicated control plane elects a leader, leases
    shards to workers and publishes how far the cluster has progressed.  This
    library is a shallow embedding of the parts of that path whose behaviour is
    their own: each Rust function is a Rocq function, each guarded state a record,
    each fallible call a [result], each panic an [outcome].  Machine integers are
    [Z] with their range checks written out; release builds keep overflow checks
    on, so arithmetic that overflows is a [Panic].  All paths below are under
    src/crates.

    ** Files, sources and what is proved

    - Prelude: results, outcomes, machine integers, byte strings, ordered maps,
      sums over lists and maps, the tactics and the hint database [rs].
    - Kernels (rockstream-verified): one Module per source file of pure kernels,
      with codec and wire-framing round trips.
    - Laws (rockstream-types laws, merge_law.rs): merge laws as a record of
      operations, [AdditiveLaw] as their interface, both built-in laws as
      instances; regrouping is sound within the admitted budget.
    - MergeOps (rockstream-storage merge_registry.rs): the store's merge operator
      refines a partial join; where grouping can matter.
    - ZSets (rockstream-types batch.rs) and ArrowZSets (rockstream-ops zset.rs):
      Z-sets of byte rows and of Arrow batches; merging adds weights, consolidation
      is canonical.  Arrow is a class with laws and a concrete instance.
    - Progress (rockstream-types frontier.rs): progress semilattices, frontier
      reports, membership filters.
    - Keys (rockstream-storage keys.rs): key layouts; order preservation, disjoint
      namespaces, exact decoders, consistency of the Bloom prefix.
    - KeyCapsules (rockstream-types key_capsule.rs): typed join keys; equal bytes
      exactly for equal values, no key begins another, exact null test.
    - Store, ShardDb, Paging, Migration (rockstream-storage shard_db.rs and
      format_migration.rs): SlateDB as a class with laws and a concrete map
      instance; the shard database implements a map on logical keys; paged scans equal full scans; format migration keeps the
      data, and what an interrupted one shows to readers.
    - ShardRaces (rockstream-storage shard_db.rs): calls that overlap on one shard
      handle; epochs handed out are fresh under every interleaving, the committed
      epoch is monotone when callers take turns on the frontier key, and two
      schedules in which it goes back when they do not.
    - Reader (rockstream-storage reader.rs): a read-only reader shows what its
      shard shows, in whole, bounded and paged scans; the engine's reader and
      checkpoints are a class with laws and a concrete instance.
    - Distinct, DistinctStore (rockstream-ops distinct.rs): DISTINCT, INTERSECT and
      EXCEPT maintain the batch query; a restart recovers the arrangement of the
      last committed batch.
    - Joins, JoinStore (rockstream-ops join.rs): the incremental inner join emits the
      change of the join of its accumulated inputs; what a restart recovers from the
      stored arrangements, and two ways in which rows are lost or left behind.
    - PhysicalCommit, CommitDurability (rockstream-ops group_commit/physical.rs):
      bounds and accounting of staged epochs, durability of what was acknowledged
      composed with ShardDb, termination of shutdown.
    - FrontierAgg, LeaseStore (rockstream-control frontier.rs): the published
      frontier is the least durable epoch of the members; publisher leases fence
      under interleavings, errors and restarts; published frontiers do not go back,
      that of a membership generation between restarts only.
    - FlowControl, FlowWaiters (rockstream-runtime exchange/flow_control.rs): exact
      accounting of permits and credit under interleaving; waiters of batch permits
      are woken, and the calls that leave a waiter asleep.
    - Raft (rockstream-control raft.rs, rockstream-types raft.rs): leader election
      with durable writes, lost messages, crashes and restarts; one leader per
      term; two schedules in which leadership overlaps or is taken over wrongly.
    - ShardLeases (rockstream-control shard.rs, rockstream-types lease.rs): the
      lease table and its fencing tokens under any sequence of calls, restores of
      snapshots that are not behind included, and a run in which an older snapshot
      breaks the fence.
    - ControlLeases (lease handlers of rockstream-control service.rs): leaders in
      succession refine one lease manager that never changes hands, provided that
      [Deregister] is handled by a synced leader; the run in which one that has not
      synced revives a revoked token; composed with Raft, schedules in which two
      nodes certify two writers of a shard and in which a follower erases a lease;
      the width of lease epochs.
    - WorkerBudget (rockstream-types state_budget.rs, [WorkerBudgetLedger]): the
      memory ledger stays within its budget and accounts for every permit, with
      one atomic operation per step.
    - Checkpoints (rockstream-control checkpoint.rs, rockstream-types checkpoint.rs):
      every manifest is a complete cut of its own round under any interleaving, and
      the schedule in which a late timeout handler cancels the next round.
    - Handoff (migration.rs of rockstream-control, rockstream-types and
      rockstream-runtime): online moves of buckets between shards as programs of a
      state, error and panic monad over Reader, ShardDb, Checkpoints and a record
      store; HandoffSafety has a weakest-precondition calculus for them and shows
      that reclamation keeps every verified row, that start-up recovery reclaims
      only what is safe, and two runs that lose rows; HandoffCopy shows that the
      copy resumes correctly after any failures, completes once, and can overwrite
      the recipient's metadata; HandoffDrive composes it with the snapshot phase.

    ** How state and concurrency are modelled

    A method that runs under one lock is a function on the guarded record.  A
    method that releases its lock or awaits is cut at those points into segments,
    and a step relation interleaves the segments of all callers (LeaseStore,
    FlowControl, Raft, WorkerBudget, Checkpoints, ShardRaces).  The functions of
    ShardDb are the runs that no other call of the handle interrupts, which is how
    the components that own a handle use them here; ShardRaces ties them to the
    segments that it interleaves.  The driver's flights and the handlers of
    ControlLeases are single steps; races inside a lease handler are not covered by
    the positive theorem of ControlLeases.  Its step relation lets any process handle
    [Deregister]; the theorem is about the runs in which one that frees a shard is
    handled by the leader after it has synced ([orderly]), and it assumes that
    leaders do not overlap.  Neither is provided by the code, and the schedules of
    ControlLeases show both to be needed.  A bucket handoff is driven by one
    caller: its methods run without other writers, every call of the storage
    engine and of the record store may fail, whether or not it took effect, and a
    restart continues from the stored record, on shard handles that stay open.
    Theorems that report a defect execute a concrete schedule of the model.

    ** Bounds and fuel

    [acquire_lease] has four segments and [try_publish] three, so the fuel of their
    uninterrupted runs is four and three.  [shutdown] loops while work is retained;
    two flushes are proved enough.  Decimal printing of a 64-bit number uses fuel
    20, its largest number of digits.  A page loop is proved to
    end with any fuel above the number of rows of the scan, and a filter scan with
    any above its length in bytes.  Terms are taken below 2^48
    where their packing with a 16-bit node id is stated.

    ** Not modelled

    - Aggregates, outer joins, windows, expressions and the operator pipeline: they
      work on typed Arrow columns, floating point included, through arrow-rs kernels.
      Their key layouts, merge laws and recovery loop are modelled.  The inner join
      is modelled for integer columns, the only ones it accepts.
    - SQL front end, gateway and connectors: sqlparser, DataFusion, pgwire, Kafka
      and PostgreSQL clients.
    - Exchange transport, TLS, secrets, audit, metrics, configuration: I/O and
      third-party protocols.
    - Storage catalog, stores and exports of checkpoints, placement, the hot-split
      driver, and the drain, deploy and disconnect paths of the control service.
      Readers opened with cache and filter options.
    - The budgets per workload and operator, the distributed quota ledger and the
      waiter counter of rockstream-types state_budget.rs.
    - Error texts, logging, gauges and test-only hooks of the modelled files; JSON
      forms that serde derives. *)
From stdpp Require Import base tactics gmap list strings numbers option fin_maps sorting.
From Stdlib Require Import ZArith Lia ZifyBool.

(* ------------------------------------------------------------------ *)
(** ** Rust results *)

Inductive result (E A : Type) : Type :=
| Ok (a : A)
| Err (e : E).
Arguments Ok {E A} _.
Arguments Err {E A} _.

#[global] Instance result_ret E : MRet (result E) := fun _ a => Ok a.
#[global] Instance result_bind E : MBind (result E) :=
  fun _ _ f r => match r with Ok a => f a | Err e => Err e end.
#[global] Instance result_fmap E : FMap (result E) :=
  fun _ _ f r => match r with Ok a => Ok (f a) | Err e => Err e end.

(** [Option::ok_or] *)
Definition ok_or {E A} (o : option A) (e : E) : result E A :=
  match o with Some a => Ok a | None => Err e end.

(** [Result::ok] *)
Definition ok {E A} (r : result E A) : option A :=
  match r with Ok a => Some a | Err _ => None end.

(** A call that can panic ([expect], [assert!], checked overflow) either
    returns or aborts. *)
Inductive outcome (A : Type) : Type :=
| Done (a : A)
| Panic.
Arguments Done {A} _.
Arguments Panic {A}.

#[global] Instance outcome_ret : MRet outcome := fun _ a => Done a.
#[global] Instance outcome_bind : MBind outcome :=
  fun _ _ f r => match r with Done a => f a | Panic => Panic end.

#[global] Instance Done_inj {A} : Inj eq eq (@Done A).
Proof. by intros ?? [= ->]. Qed.

Definition expect {A} (o : option A) : outcome A :=
  match o with Some a => Done a | None => Panic end.

(* ------------------------------------------------------------------ *)
(** ** Machine integers

    A w-bit integer is a [Z]; its range is a predicate and every Rust
    operation writes out what it does at the edge of the range.  [usize] is
    64 bits wide. *)

Declare Scope rust_scope.
Delimit Scope rust_scope with rust.
Local Open Scope Z_scope.

Definition i64_min : Z := - 2 ^ 63.
Definition i64_max : Z := 2 ^ 63 - 1.
Definition i128_min : Z := - 2 ^ 127.
Definition i128_max : Z := 2 ^ 127 - 1.
Definition u8_max : Z := 2 ^ 8 - 1.
Definition u16_max : Z := 2 ^ 16 - 1.
Definition u32_max : Z := 2 ^ 32 - 1.
Definition u64_max : Z := 2 ^ 64 - 1.
Definition u128_max : Z := 2 ^ 128 - 1.
Definition usize_max : Z := u64_max.

Abbreviation in_i64 z := (i64_min <= z <= i64_max).
Abbreviation in_i128 z := (i128_min <= z <= i128_max).
Abbreviation in_u8 z := (0 <= z <= u8_max).
Abbreviation in_u16 z := (0 <= z <= u16_max).
Abbreviation in_u32 z := (0 <= z <= u32_max).
Abbreviation in_u64 z := (0 <= z <= u64_max).
Abbreviation in_u128 z := (0 <= z <= u128_max).

(** [checked_*]: [Some] of the mathematical result when it is representable. *)
Definition checked (lo hi z : Z) : option Z :=
  if (lo <=? z) && (z <=? hi) then Some z else None.

Abbreviation checked_i64 := (checked i64_min i64_max).
Abbreviation checked_i128 := (checked i128_min i128_max).
Abbreviation checked_u16 := (checked 0 u16_max).
Abbreviation checked_u32 := (checked 0 u32_max).
Abbreviation checked_u64 := (checked 0 u64_max).
Abbreviation checked_usize := (checked 0 usize_max).

Definition saturating_sub (a b : Z) : Z := Z.max 0 (a - b).
Definition saturating_add (hi a b : Z) : Z := Z.min hi (a + b).

(** [as] casts: reinterpretation modulo the width. *)
Definition as_u8 (z : Z) : Z := z mod 2 ^ 8.
Definition as_u16 (z : Z) : Z := z mod 2 ^ 16.
Definition as_u64 (z : Z) : Z := z mod 2 ^ 64.
Definition as_i64 (z : Z) : Z := (z + 2 ^ 63) mod 2 ^ 64 - 2 ^ 63.
Definition as_i32 (z : Z) : Z := (z + 2 ^ 31) mod 2 ^ 32 - 2 ^ 31.

(** Bitwise complement of a [u64]. *)
Definition not_u64 (z : Z) : Z := u64_max - z.

Ltac unfold_bounds :=
  unfold i64_min, i64_max, i128_min, i128_max, u8_max, u16_max, u32_max,
    usize_max, u64_max, u128_max, saturating_sub, saturating_add in *.

(** Arithmetic side conditions over the machine ranges. *)
Ltac rlia := unfold_bounds; lia.

Lemma checked_Some lo hi z r :
  checked lo hi z = Some r <-> r = z /\ lo <= z <= hi.
Proof.
  unfold checked. destruct (Z.leb_spec lo z), (Z.leb_spec z hi); simpl;
    (split; [intros; simplify_eq; lia|intros [-> ?]; done || lia]).
Qed.

Lemma checked_in lo hi z : lo <= z <= hi -> checked lo hi z = Some z.
Proof. intros. by apply checked_Some. Qed.

Lemma checked_None lo hi z : checked lo hi z = None <-> ~ (lo <= z <= hi).
Proof.
  unfold checked. destruct (Z.leb_spec lo z), (Z.leb_spec z hi); simpl;
    (split; [done || lia|intros; done || lia]).
Qed.

Lemma as_i64_id z : in_i64 z -> as_i64 z = z.
Proof.
  intros. unfold as_i64. rewrite Z.mod_small; unfold i64_min, i64_max in *; lia.
Qed.

Lemma as_i64_as_u64 z : in_i64 z -> as_i64 (as_u64 z) = z.
Proof.
  intros H. unfold as_i64, as_u64.
  rewrite Zplus_mod_idemp_l. by apply as_i64_id.
Qed.

Lemma as_i64_range z : in_i64 (as_i64 z).
Proof.
  unfold as_i64, i64_min, i64_max.
  pose proof (Z.mod_pos_bound (z + 2 ^ 63) (2 ^ 64)). lia.
Qed.

Lemma as_u64_range z : in_u64 (as_u64 z).
Proof. unfold as_u64, u64_max. pose proof (Z.mod_pos_bound z (2 ^ 64)). lia. Qed.

Lemma as_u64_id z : in_u64 z -> as_u64 z = z.
Proof. unfold as_u64, u64_max. intros. apply Z.mod_small. lia. Qed.

Lemma as_u64_as_i64 z : in_u64 z -> as_u64 (as_i64 z) = z.
Proof.
  intros H. unfold as_i64, as_u64. unfold u64_max in H.
  rewrite Zminus_mod_idemp_l, Z.add_simpl_r. apply Z.mod_small. lia.
Qed.

(** An [i64] seen as a [u64] is shifted up by 2^64 when negative. *)
Lemma as_u64_signed z :
  in_i64 z -> as_u64 z = if z <? 0 then z + 2 ^ 64 else z.
Proof.
  intros H. unfold as_u64, i64_min, i64_max in *.
  destruct (Z.ltb_spec z 0).
  - symmetry. apply (Z.mod_unique _ _ (-1)); lia.
  - apply Z.mod_small. lia.
Qed.

Create HintDb rs.
Create Rewrite HintDb rs.
#[export] Hint Resolve checked_in as_i64_range as_u64_range : rs.
#[export] Hint Rewrite as_i64_as_u64 as_i64_id using (solve [auto with rs | rlia]) : rs.
#[export] Hint Extern 4 (_ <= _)%Z => rlia : rs.
#[export] Hint Extern 4 (_ < _)%Z => rlia : rs.

(* ------------------------------------------------------------------ *)
(** ** Bytes

    A byte string is a [list Z] of values in [0, 255]. *)

Abbreviation bytes := (list Z).
Definition byte_ok (b : Z) : Prop := 0 <= b < 256.
Abbreviation bytes_ok l := (Forall byte_ok l).

(** [to_be_bytes] of an [8*n]-bit integer and its inverse [from_be_bytes]. *)
Fixpoint be_bytes (n : nat) (z : Z) : bytes :=
  match n with
  | O => []
  | S n' => (Z.shiftr z (8 * Z.of_nat n')) mod 256 :: be_bytes n' z
  end.

Fixpoint of_be (l : bytes) : Z :=
  match l with
  | [] => 0
  | b :: l' => b * 256 ^ Z.of_nat (length l') + of_be l'
  end.

Lemma pow256 n : 256 ^ Z.of_nat n = 2 ^ (8 * Z.of_nat n).
Proof. rewrite Z.pow_mul_r by lia. done. Qed.

Lemma pow256_pos n : 0 < 256 ^ Z.of_nat n.
Proof. apply Z.pow_pos_nonneg; lia. Qed.

Lemma pow256_S n : 256 ^ Z.of_nat (S n) = 256 * 256 ^ Z.of_nat n.
Proof. rewrite Nat2Z.inj_succ, Z.pow_succ_r; lia. Qed.

Lemma length_be_bytes n z : length (be_bytes n z) = n.
Proof. induction n; simpl; congruence. Qed.

Lemma be_bytes_ok n z : bytes_ok (be_bytes n z).
Proof.
  induction n; simpl; constructor; [|done].
  unfold byte_ok. apply Z.mod_pos_bound. lia.
Qed.

Lemma of_be_range l : bytes_ok l -> 0 <= of_be l < 256 ^ Z.of_nat (length l).
Proof.
  induction 1 as [|b l Hb Hl IH]; [simpl; lia|].
  cbn [of_be length]. rewrite pow256_S. unfold byte_ok in Hb. nia.
Qed.

(** Decoding an encoding gives the value modulo the width. *)
Lemma of_be_be_bytes n z : of_be (be_bytes n z) = z mod 256 ^ Z.of_nat n.
Proof.
  induction n as [|n IH]; cbn [be_bytes of_be].
  { by rewrite Z.mod_1_r. }
  rewrite IH, length_be_bytes, pow256_S, Z.shiftr_div_pow2, <-pow256 by lia.
  pose proof (pow256_pos n) as Hp. rewrite (Z.mul_comm 256).
  rewrite Z.rem_mul_r by lia. lia.
Qed.

Lemma of_be_be_bytes_id n z : 0 <= z < 256 ^ Z.of_nat n -> of_be (be_bytes n z) = z.
Proof. intros. rewrite of_be_be_bytes. by apply Z.mod_small. Qed.

Lemma be_bytes_mod n z : be_bytes n z = be_bytes n (z mod 256 ^ Z.of_nat n).
Proof.
  cut (forall m, (n <= m)%nat -> be_bytes n z = be_bytes n (z mod 256 ^ Z.of_nat m)).
  { intros H. by apply H. }
  induction n as [|n IH]; intros m Hm; simpl; [done|]. f_equal; [|apply IH; lia].
  rewrite !Z.shiftr_div_pow2, <-!pow256 by lia.
  pose proof (pow256_pos n) as Hn.
  replace (Z.of_nat m) with (Z.of_nat n + Z.of_nat (m - n)) by lia.
  rewrite Z.pow_add_r, Z.rem_mul_r by (try apply Z.pow_nonzero; lia).
  rewrite (Z.mul_comm (256 ^ _)), Z.div_add by lia.
  rewrite (Z.div_small (z mod _)), Z.add_0_l by (apply Z.mod_pos_bound; lia).
  destruct (m - n)%nat as [|d] eqn:Ed; [lia|].
  rewrite pow256_S. pose proof (pow256_pos d).
  rewrite Z.rem_mul_r by lia.
  rewrite (Z.mul_comm 256), Z.mod_add, Z.mod_mod by lia. done.
Qed.

(** Encoding a decoded string of the right length gives it back. *)
Lemma be_bytes_of_be l : bytes_ok l -> be_bytes (length l) (of_be l) = l.
Proof.
  induction 1 as [|b l Hb Hl IH]; [done|]. cbn [length be_bytes of_be].
  pose proof (of_be_range l Hl). pose proof (pow256_pos (length l)).
  rewrite Z.shiftr_div_pow2, <-pow256 by lia. unfold byte_ok in Hb. f_equal.
  - rewrite Z.add_comm, Z.div_add, Z.div_small, Z.add_0_l by lia.
    apply Z.mod_small. lia.
  - rewrite be_bytes_mod, Z.add_comm, Z.mod_add, Z.mod_small by lia. done.
Qed.

Lemma be_bytes_inj n a b :
  0 <= a < 256 ^ Z.of_nat n -> 0 <= b < 256 ^ Z.of_nat n ->
  be_bytes n a = be_bytes n b -> a = b.
Proof.
  intros Ha Hb E. rewrite <-(of_be_be_bytes_id n a), <-(of_be_be_bytes_id n b) by done.
  by rewrite E.
Qed.

(** Lexicographic comparison of byte strings, the order of storage keys. *)
Fixpoint lex_cmp (l1 l2 : bytes) : comparison :=
  match l1, l2 with
  | [], [] => Eq
  | [], _ :: _ => Lt
  | _ :: _, [] => Gt
  | a :: l1', b :: l2' =>
      match Z.compare a b with Eq => lex_cmp l1' l2' | c => c end
  end.

Lemma lex_cmp_refl l : lex_cmp l l = Eq.
Proof. induction l; simpl; [done|]. by rewrite Z.compare_refl. Qed.

Lemma lex_cmp_app p l1 l2 : lex_cmp (p ++ l1) (p ++ l2) = lex_cmp l1 l2.
Proof. induction p; simpl; [done|]. by rewrite Z.compare_refl. Qed.

Lemma lex_cmp_opp l1 l2 : lex_cmp l1 l2 = CompOpp (lex_cmp l2 l1).
Proof.
  revert l2. induction l1 as [|a l1 IH]; intros [|b l2]; try done. cbn [lex_cmp].
  rewrite (Z.compare_antisym b a). destruct (b ?= a); simpl; [apply IH|done|done].
Qed.

Lemma lex_cmp_Gt l1 l2 : lex_cmp l1 l2 = Gt <-> lex_cmp l2 l1 = Lt.
Proof. rewrite lex_cmp_opp. by destruct (lex_cmp l2 l1). Qed.

Lemma lex_cmp_Eq l1 l2 : lex_cmp l1 l2 = Eq <-> l1 = l2.
Proof.
  split; [|intros ->; apply lex_cmp_refl].
  revert l2. induction l1 as [|a l1 IH]; intros [|b l2]; try done. cbn [lex_cmp].
  destruct (Z.compare_spec a b) as [->| |]; [|done|done]. intros H. f_equal. by apply IH.
Qed.

(** The order is transitive, strictly when one of the steps is strict. *)
Lemma lex_cmp_le_trans l1 l2 l3 :
  lex_cmp l1 l2 <> Gt -> lex_cmp l2 l3 <> Gt -> lex_cmp l1 l3 <> Gt.
Proof.
  revert l2 l3. induction l1 as [|a l1 IH]; intros [|b l2] [|c l3]; try done. cbn [lex_cmp].
  destruct (Z.compare_spec a b), (Z.compare_spec b c), (Z.compare_spec a c); try lia; try done.
  apply IH.
Qed.

(** On strings of equal length, lexicographic order is numeric order. *)
Lemma lex_cmp_of_be l1 l2 :
  length l1 = length l2 -> bytes_ok l1 -> bytes_ok l2 ->
  lex_cmp l1 l2 = Z.compare (of_be l1) (of_be l2).
Proof.
  revert l2. induction l1 as [|a l1 IH]; intros [|b l2]; try done.
  intros [= Hlen] H1 H2. inversion_clear H1; inversion_clear H2.
  cbn [lex_cmp of_be]. rewrite Hlen.
  pose proof (of_be_range l1 ltac:(done)) as R1.
  pose proof (of_be_range l2 ltac:(done)) as R2. rewrite Hlen in R1.
  destruct (Z.compare_spec a b) as [->|?|?].
  - rewrite IH by done. by rewrite Z.add_compare_mono_l.
  - symmetry. apply Z.compare_lt_iff. nia.
  - symmetry. apply Z.compare_gt_iff. nia.
Qed.

Lemma lex_cmp_be_bytes n a b :
  0 <= a < 256 ^ Z.of_nat n -> 0 <= b < 256 ^ Z.of_nat n ->
  lex_cmp (be_bytes n a) (be_bytes n b) = Z.compare a b.
Proof.
  intros. rewrite lex_cmp_of_be; rewrite ?length_be_bytes; auto using be_bytes_ok.
  by rewrite !of_be_be_bytes_id.
Qed.

(** [starts_with] *)
Fixpoint starts_with (l p : bytes) {struct p} : bool :=
  match p, l with
  | [], _ => true
  | b :: p', a :: l' => (a =? b) && starts_with l' p'
  | _ :: _, [] => false
  end.

Lemma starts_with_app p l : starts_with (p ++ l) p = true.
Proof. induction p; simpl; [done|]. by rewrite Z.eqb_refl. Qed.

Lemma starts_with_spec l p : starts_with l p = true <-> exists s, l = p ++ s.
Proof.
  revert l. induction p as [|b p IH]; intros l; simpl.
  { split; [intros _; by exists l|done]. }
  destruct l as [|a l]; [by split; [|intros [? [=]]]|].
  rewrite andb_true_iff, IH. split.
  - intros [->%Z.eqb_eq [s ->]]. by exists s.
  - intros [s [= -> ->]]. rewrite Z.eqb_refl. eauto.
Qed.

#[export] Hint Resolve be_bytes_ok : rs.
#[export] Hint Rewrite length_be_bytes lex_cmp_refl lex_cmp_app : rs.

(* ------------------------------------------------------------------ *)
(** ** Lists *)

Lemma list_filter_all {A} (P : A -> Prop) `{!forall x, Decision (P x)} (l : list A) :
  (forall x, x ∈ l -> P x) -> base.filter P l = l.
Proof.
  induction l as [|x l IH]; intros Hl; [done|].
  rewrite filter_cons_True by (apply Hl; by left). f_equal. apply IH. intros. apply Hl. by right.
Qed.

Lemma NoDup_fmap_filter {A B} (f : A -> B) (P : A -> Prop) `{!forall x, Decision (P x)} (l : list A) :
  NoDup (f <$> l) -> NoDup (f <$> base.filter P l).
Proof.
  induction l as [|x l IH]; [done|]. rewrite fmap_cons. intros [Hn Hd]%NoDup_cons.
  rewrite filter_cons. case_decide; [|by apply IH]. rewrite fmap_cons. apply NoDup_cons.
  split; [|by apply IH]. intros (y & E & [_ Hy]%list_elem_of_filter)%list_elem_of_fmap.
  apply Hn. rewrite E. apply list_elem_of_fmap. eauto.
Qed.

Lemma elem_of_delete {A} (l : list A) i x : x ∈ delete i l -> x ∈ l.
Proof.
  revert i. induction l as [|a l IH]; intros [|i] Hx; [done..|by right|].
  change (x ∈ a :: delete i l) in Hx. apply elem_of_cons in Hx as [->|Hx]; [by left|].
  right. by eapply IH.
Qed.

(* ------------------------------------------------------------------ *)
(** ** Sums over lists *)

Definition zsum {A} (f : A -> Z) (l : list A) : Z := foldr (fun a acc => f a + acc) 0 l.

Section zsum.
Context {A : Type} (f : A -> Z).
Implicit Types l : list A.

Lemma zsum_app l1 l2 : zsum f (l1 ++ l2) = zsum f l1 + zsum f l2.
Proof. induction l1 as [|a l1 IH]; simpl; lia. Qed.

Lemma zsum_perm l1 l2 : l1 ≡ₚ l2 -> zsum f l1 = zsum f l2.
Proof. induction 1; simpl; lia. Qed.

Lemma zsum_delete l i a : l !! i = Some a -> zsum f (delete i l) = zsum f l - f a.
Proof.
  intros Hi. rewrite (zsum_perm l (a :: delete i l)) by (by apply delete_Permutation).
  simpl. lia.
Qed.

Lemma zsum_nonneg l : Forall (fun a => 0 <= f a) l -> 0 <= zsum f l.
Proof. induction 1; simpl; lia. Qed.

Lemma zsum_zero l : Forall (fun a => f a = 0) l -> zsum f l = 0.
Proof. induction 1; simpl; lia. Qed.

Lemma zsum_le (g : A -> Z) l : Forall (fun a => f a <= g a) l -> zsum f l <= zsum g l.
Proof. induction 1; simpl; lia. Qed.

Lemma zsum_cons a l : zsum f (a :: l) = f a + zsum f l.
Proof. done. Qed.

Lemma zsum_snoc l a : zsum f (l ++ [a]) = zsum f l + f a.
Proof. rewrite zsum_app, zsum_cons. unfold zsum at 2. simpl. lia. Qed.
End zsum.
#[global] Arguments zsum : simpl never.

(* ------------------------------------------------------------------ *)
(** ** Sums over finite maps *)

Section map_sum.
Context {K V : Type} `{Countable K}.
Implicit Types (f : K -> V -> Z) (m : gmap K V).

Definition map_sum f m : Z := map_fold (fun k v acc => f k v + acc) 0 m.

Lemma map_sum_empty f : map_sum f ∅ = 0.
Proof. unfold map_sum. by rewrite map_fold_empty. Qed.

Lemma map_sum_insert f m k v :
  m !! k = None -> map_sum f (<[k:=v]> m) = f k v + map_sum f m.
Proof.
  intros Hk. unfold map_sum. apply (map_fold_insert_L (fun k v acc => f k v + acc)); [|done].
  intros. lia.
Qed.

Lemma map_sum_delete f m k v :
  m !! k = Some v -> map_sum f m = f k v + map_sum f (delete k m).
Proof.
  intros Hk. rewrite <-(insert_delete_id m k v) at 1 by done.
  apply map_sum_insert, lookup_delete_eq.
Qed.

Lemma map_sum_update f m k v w :
  m !! k = Some v -> map_sum f (<[k:=w]> m) = f k w - f k v + map_sum f m.
Proof.
  intros Hk. rewrite (map_sum_delete f m k v Hk).
  rewrite <-insert_delete_eq, map_sum_insert by apply lookup_delete_eq. lia.
Qed.

Lemma map_sum_union f m1 m2 :
  m1 ##ₘ m2 -> map_sum f (m1 ∪ m2) = map_sum f m1 + map_sum f m2.
Proof.
  induction m1 as [|k v m1 Hk IH] using map_ind; intros Hd.
  { rewrite map_empty_union, map_sum_empty. lia. }
  apply map_disjoint_insert_l in Hd as [Hk2 Hd].
  rewrite <-insert_union_l, !map_sum_insert; [|done|by apply lookup_union_None].
  rewrite IH by done. lia.
Qed.

Lemma map_sum_nonneg f m :
  (forall k v, m !! k = Some v -> 0 <= f k v) -> 0 <= map_sum f m.
Proof.
  induction m as [|k v m Hk IH] using map_ind; intros Hp.
  { by rewrite map_sum_empty. }
  rewrite map_sum_insert by done.
  assert (0 <= f k v) by (apply Hp; by simplify_map_eq).
  enough (0 <= map_sum f m) by lia.
  apply IH. intros k' v' Hl. apply Hp. rewrite lookup_insert_ne; [done|congruence].
Qed.

Lemma map_sum_ext f g m :
  (forall k v, m !! k = Some v -> f k v = g k v) -> map_sum f m = map_sum g m.
Proof.
  induction m as [|k v m Hk IH] using map_ind; intros Hp.
  { by rewrite !map_sum_empty. }
  rewrite !map_sum_insert by done. rewrite (Hp k v) by (by simplify_map_eq). f_equal.
  apply IH. intros k' v' Hl. apply Hp. rewrite lookup_insert_ne; [done|congruence].
Qed.

Lemma map_sum_zero f m : (forall k v, m !! k = Some v -> f k v = 0) -> map_sum f m = 0.
Proof.
  intros Hz. rewrite (map_sum_ext f (fun _ _ => 0)) by done. clear Hz.
  induction m as [|k v m Hk IH] using map_ind; [apply map_sum_empty|].
  by rewrite map_sum_insert, IH.
Qed.

Lemma map_sum_const m : map_sum (fun _ _ => 1) m = Z.of_nat (size m).
Proof.
  induction m as [|k v m Hk IH] using map_ind; [done|].
  rewrite map_sum_insert, map_size_insert_None, IH by done. lia.
Qed.
End map_sum.

Lemma map_sum_fmap {K V W} `{Countable K} (h : V -> W) (f : K -> W -> Z) (m : gmap K V) :
  map_sum f (h <$> m) = map_sum (fun k v => f k (h v)) m.
Proof.
  induction m as [|k v m Hk IH] using map_ind; [by rewrite fmap_empty, !map_sum_empty|].
  rewrite fmap_insert, !map_sum_insert, IH by (by rewrite ?lookup_fmap, ?Hk). done.
Qed.

(* ------------------------------------------------------------------ *)
(** ** Ordered maps

    A [BTreeMap] with integer keys is a [gmap]; iterating over it visits the
    entries in increasing key order. *)

Definition entry_key_le {A} (e e' : Z * A) : Prop := e.1 <= e'.1.

#[global] Instance entry_key_le_dec {A} (e e' : Z * A) : Decision (entry_key_le e e').
Proof. unfold entry_key_le. apply _. Defined.
#[global] Instance entry_key_le_total {A} : Total (@entry_key_le A).
Proof. intros e e'. unfold entry_key_le. lia. Qed.
#[global] Instance entry_key_le_trans {A} : Transitive (@entry_key_le A).
Proof. intros e1 e2 e3. unfold entry_key_le. lia. Qed.

Definition btree_entries {A} (m : gmap Z A) : list (Z * A) := merge_sort entry_key_le (map_to_list m).
Definition btree_keys {A} (m : gmap Z A) : list Z := (btree_entries m).*1.

Lemma elem_of_btree_entries {A} (m : gmap Z A) k v : (k, v) ∈ btree_entries m <-> m !! k = Some v.
Proof. unfold btree_entries. by rewrite merge_sort_Permutation, elem_of_map_to_list. Qed.

Lemma elem_of_btree_keys {A} (m : gmap Z A) k : k ∈ btree_keys m <-> is_Some (m !! k).
Proof.
  unfold btree_keys. rewrite list_elem_of_fmap. split.
  - intros ([k' v] & -> & Hin%elem_of_btree_entries). by eexists.
  - intros [v Hv]. exists (k, v). by rewrite elem_of_btree_entries.
Qed.

Lemma btree_entries_empty {A} : btree_entries (∅ : gmap Z A) = [].
Proof. unfold btree_entries. by rewrite map_to_list_empty. Qed.

Lemma btree_entries_nil {A} (m : gmap Z A) : btree_entries m = [] <-> m = ∅.
Proof.
  split; [|intros ->; apply btree_entries_empty]. intros E. apply map_empty. intros k.
  destruct (m !! k) as [v|] eqn:Ek; [|done]. apply elem_of_btree_entries in Ek.
  rewrite E in Ek. by apply not_elem_of_nil in Ek.
Qed.

Lemma length_btree_entries {A} (m : gmap Z A) : length (btree_entries m) = size m.
Proof.
  unfold btree_entries. rewrite (Permutation_length (merge_sort_Permutation _ _)).
  apply length_map_to_list.
Qed.

Lemma sorted_keys_strict {A} (l : list (Z * A)) :
  NoDup l.*1 -> StronglySorted entry_key_le l -> StronglySorted Z.lt l.*1.
Proof.
  induction l as [|[k v] l IH]; intros Hd Hs; [constructor|]. rewrite fmap_cons in *. cbn [fst] in *.
  apply NoDup_cons in Hd as [Hn Hd]. apply StronglySorted_inv in Hs as [Hs Hall].
  constructor; [by apply IH|]. apply Forall_fmap, Forall_forall. intros [k' v'] Hin.
  rewrite Forall_forall in Hall. specialize (Hall _ Hin). unfold entry_key_le in Hall. cbn [fst compose] in *.
  assert (k <> k'); [|lia]. intros ->. apply Hn, list_elem_of_fmap. by exists (k', v').
Qed.

Lemma btree_keys_sorted {A} (m : gmap Z A) : StronglySorted Z.lt (btree_keys m).
Proof.
  apply sorted_keys_strict; [|apply StronglySorted_merge_sort; apply _].
  unfold btree_entries. rewrite merge_sort_Permutation. apply NoDup_fst_map_to_list.
Qed.

(** Two strictly sorted lists with the same entries are equal. *)
Lemma sorted_keys_unique {A} (l1 l2 : list (Z * A)) :
  StronglySorted Z.lt l1.*1 -> StronglySorted Z.lt l2.*1 -> (forall e, e ∈ l1 <-> e ∈ l2) -> l1 = l2.
Proof.
  revert l2. induction l1 as [|e1 l1 IH]; intros [|e2 l2] H1 H2 Hin; [done| | |].
  { destruct (not_elem_of_nil e2). apply Hin. by left. }
  { destruct (not_elem_of_nil e1). apply Hin. by left. }
  rewrite !fmap_cons in *. apply StronglySorted_inv in H1 as [H1 F1], H2 as [H2 F2].
  rewrite Forall_fmap, Forall_forall in F1, F2.
  assert (forall (e : Z * A) (l : list (Z * A)), (forall x, x ∈ l -> e.1 < x.1) -> forall x, x ∈ l -> x <> e) as Hne
    by (intros e l Hl x Hx ->; specialize (Hl e Hx); lia).
  assert (e1 = e2) as <-.
  { pose proof (proj1 (Hin e1) ltac:(by left)) as [|Hi1]%elem_of_cons; [done|].
    pose proof (proj2 (Hin e2) ltac:(by left)) as [|Hi2]%elem_of_cons; [done|].
    specialize (F1 _ Hi2). specialize (F2 _ Hi1). cbn in *. lia. }
  f_equal. apply IH; [done|done|]. intros e. split; intros He.
  - pose proof (proj1 (Hin e) ltac:(by right)) as [->|]%elem_of_cons; [|done]. by destruct (Hne _ _ F1 _ He).
  - pose proof (proj2 (Hin e) ltac:(by right)) as [->|]%elem_of_cons; [|done]. by destruct (Hne _ _ F2 _ He).
Qed.

Lemma btree_entries_fmap {A B} (f : A -> B) (m : gmap Z A) :
  btree_entries (f <$> m) = prod_map id f <$> btree_entries m.
Proof.
  apply sorted_keys_unique; [apply btree_keys_sorted| |].
  - rewrite <-list_fmap_compose. erewrite list_fmap_ext; [apply (btree_keys_sorted m)|]. by intros ? [].
  - intros [k b]. rewrite elem_of_btree_entries, lookup_fmap, fmap_Some, list_elem_of_fmap. split.
    + intros (a & Ha & ->). exists (k, a). split; [done|]. by apply elem_of_btree_entries.
    + intros ([k' a] & [= -> ->] & Ha%elem_of_btree_entries). by exists a.
Qed.

(** The last key is the greatest. *)
Lemma sorted_last (l : list Z) x : StronglySorted Z.lt l -> last l = Some x -> Forall (fun y => y <= x) l.
Proof.
  induction 1 as [|y l Hs IH Hall]; [done|]. destruct l as [|z l].
  { intros [= ->]. repeat constructor. lia. }
  rewrite last_cons_cons. intros Hx. constructor; [|by apply IH].
  apply Forall_cons in Hall as [? _]. specialize (IH Hx). apply Forall_cons in IH as [? _]. lia.
Qed.

Lemma sorted_app (l1 l2 : list Z) : StronglySorted Z.lt l1 -> StronglySorted Z.lt l2 ->
  (forall x y, x ∈ l1 -> y ∈ l2 -> x < y) -> StronglySorted Z.lt (l1 ++ l2).
Proof.
  induction 1 as [|x l1 Hs IH Hall]; intros H2 Hlt; [done|]. cbn. constructor.
  - apply IH; [done|]. intros y z Hy. apply Hlt. by right.
  - apply Forall_app. split; [done|]. apply Forall_forall. intros y Hy. apply Hlt; [by left|done].
Qed.
