(* ===== verification/Kernels.v ===== *)
(** * Verified kernels ([crates/rockstream-verified])

    The small pure functions that production code calls for arithmetic,
    codecs, routing, frontier admission, exchange ownership, persistence
    decisions, wire framing and the physical-commit transition, one Module per
    source file, with their functional specifications. *)
From stdpp Require Import base tactics list numbers option.
From Stdlib Require Import ZArith Lia ZifyBool.
From S2P Require Import Prelude.
Local Open Scope Z_scope.

(* ------------------------------------------------------------------ *)
(** ** codecs.rs *)
Module Codecs.

Definition encode_u64_be (value : Z) : bytes :=
  [ as_u8 (Z.shiftr value 56); as_u8 (Z.shiftr value 48);
    as_u8 (Z.shiftr value 40); as_u8 (Z.shiftr value 32);
    as_u8 (Z.shiftr value 24); as_u8 (Z.shiftr value 16);
    as_u8 (Z.shiftr value 8); as_u8 value ].

Definition decode_u64_be (b : bytes) : option Z :=
  if negb (Z.of_nat (length b) =? 8) then None
  else Some
    (Z.lor (Z.lor (Z.lor (Z.lor (Z.lor (Z.lor (Z.lor
      (Z.shiftl (nth 0 b 0) 56) (Z.shiftl (nth 1 b 0) 48))
      (Z.shiftl (nth 2 b 0) 40)) (Z.shiftl (nth 3 b 0) 32))
      (Z.shiftl (nth 4 b 0) 24)) (Z.shiftl (nth 5 b 0) 16))
      (Z.shiftl (nth 6 b 0) 8)) (nth 7 b 0)).

Definition encode_u128_be (value : Z) : bytes :=
  [ as_u8 (Z.shiftr value 120); as_u8 (Z.shiftr value 112);
    as_u8 (Z.shiftr value 104); as_u8 (Z.shiftr value 96);
    as_u8 (Z.shiftr value 88); as_u8 (Z.shiftr value 80);
    as_u8 (Z.shiftr value 72); as_u8 (Z.shiftr value 64);
    as_u8 (Z.shiftr value 56); as_u8 (Z.shiftr value 48);
    as_u8 (Z.shiftr value 40); as_u8 (Z.shiftr value 32);
    as_u8 (Z.shiftr value 24); as_u8 (Z.shiftr value 16);
    as_u8 (Z.shiftr value 8); as_u8 value ].

Definition decode_u128_be (b : bytes) : option Z :=
  if negb (Z.of_nat (length b) =? 16) then None
  else Some
    (Z.lor (Z.lor (Z.lor (Z.lor (Z.lor (Z.lor (Z.lor (Z.lor
     (Z.lor (Z.lor (Z.lor (Z.lor (Z.lor (Z.lor (Z.lor
      (Z.shiftl (nth 0 b 0) 120) (Z.shiftl (nth 1 b 0) 112))
      (Z.shiftl (nth 2 b 0) 104)) (Z.shiftl (nth 3 b 0) 96))
      (Z.shiftl (nth 4 b 0) 88)) (Z.shiftl (nth 5 b 0) 80))
      (Z.shiftl (nth 6 b 0) 72)) (Z.shiftl (nth 7 b 0) 64))
      (Z.shiftl (nth 8 b 0) 56)) (Z.shiftl (nth 9 b 0) 48))
      (Z.shiftl (nth 10 b 0) 40)) (Z.shiftl (nth 11 b 0) 32))
      (Z.shiftl (nth 12 b 0) 24)) (Z.shiftl (nth 13 b 0) 16))
      (Z.shiftl (nth 14 b 0) 8)) (nth 15 b 0)).

Definition checked_usize_to_u32 (value : Z) : option Z := checked_u32 value.

(** Shift-and-or assembly is positional arithmetic: the next byte lands in
    bits that are still zero. *)
Lemma lor_step A b k k' :
  k' = k + 8 -> 0 <= k -> byte_ok b ->
  Z.lor (A * 2 ^ k') (Z.shiftl b k) = (A * 256 + b) * 2 ^ k.
Proof.
  intros -> Hk Hb. unfold byte_ok in Hb.
  rewrite Z.shiftl_mul_pow2, Z.pow_add_r by lia.
  assert (Z.land (A * (2 ^ k * 2 ^ 8)) (b * 2 ^ k) = 0) as Hz.
  { replace (A * (2 ^ k * 2 ^ 8)) with ((A * 2 ^ 8) * 2 ^ k) by lia.
    rewrite <-!Z.shiftl_mul_pow2, <-Z.shiftl_land by lia.
    enough (Z.land (Z.shiftl A 8) b = 0) as -> by apply Z.shiftl_0_l.
    rewrite <-(Z.mod_small b (2 ^ 8)) by lia. rewrite <-Z.land_ones by lia.
    rewrite (Z.land_comm b), Z.land_assoc, Z.land_ones by lia.
    by rewrite Z.shiftl_mul_pow2, Z.mod_mul, Z.land_0_l by lia. }
  pose proof (Z.add_lor_land (A * (2 ^ k * 2 ^ 8)) (b * 2 ^ k)). lia.
Qed.

Lemma encode_u64_be_spec v : encode_u64_be v = be_bytes 8 v.
Proof. reflexivity. Qed.

Lemma encode_u128_be_spec v : encode_u128_be v = be_bytes 16 v.
Proof. reflexivity. Qed.

Ltac lor_chain :=
  repeat match goal with
  | |- context [Z.lor (?A * 2 ^ ?k') (Z.shiftl ?b ?k)] =>
      rewrite (lor_step A b k k') by (done || lia)
  end.

Lemma decode_u64_be_spec b :
  bytes_ok b -> decode_u64_be b = if (length b =? 8)%nat then Some (of_be b) else None.
Proof.
  intros Hb. unfold decode_u64_be.
  destruct (Nat.eqb_spec (length b) 8) as [Hl|Hl];
    [replace (Z.of_nat (length b) =? 8) with true by lia
    |by replace (Z.of_nat (length b) =? 8) with false by lia].
  do 8 (destruct b as [|? b]; [done|]). destruct b; [|done]. clear Hl.
  rewrite !List.Forall_cons_iff in Hb. destruct_and!.
  cbn [nth negb length]. f_equal.
  match goal with |- Z.lor ?a ?c = ?r => change (Z.lor a (Z.shiftl c 0) = r) end.
  rewrite (Z.shiftl_mul_pow2 _ 56) by lia. lor_chain.
  cbn [of_be length]. rewrite !pow256_S, !Z.pow_0_r. lia.
Qed.

Lemma decode_u128_be_spec b :
  bytes_ok b -> decode_u128_be b = if (length b =? 16)%nat then Some (of_be b) else None.
Proof.
  intros Hb. unfold decode_u128_be.
  destruct (Nat.eqb_spec (length b) 16) as [Hl|Hl];
    [replace (Z.of_nat (length b) =? 16) with true by lia
    |by replace (Z.of_nat (length b) =? 16) with false by lia].
  do 16 (destruct b as [|? b]; [done|]). destruct b; [|done]. clear Hl.
  rewrite !List.Forall_cons_iff in Hb. destruct_and!.
  cbn [nth negb length]. f_equal.
  match goal with |- Z.lor ?a ?c = ?r => change (Z.lor a (Z.shiftl c 0) = r) end.
  rewrite (Z.shiftl_mul_pow2 _ 120) by lia. lor_chain.
  cbn [of_be length]. rewrite !pow256_S, !Z.pow_0_r. lia.
Qed.

Lemma decode_iff n v b :
  0 <= v < 256 ^ Z.of_nat n -> bytes_ok b ->
  (if (length b =? n)%nat then Some (of_be b) else None) = Some v <-> b = be_bytes n v.
Proof.
  intros Hv Hb. destruct (Nat.eqb_spec (length b) n) as [<-|Hn].
  - split; [intros [= <-]; by rewrite be_bytes_of_be|].
    intros ->. by rewrite of_be_be_bytes_id.
  - split; [done|]. intros ->. by rewrite length_be_bytes in Hn.
Qed.

(** The fixed-width big-endian codecs are exact inverses: decoding an
    encoding gives the integer back, and a byte string decodes to [v] only
    when it is the encoding of [v], so every other width is refused and no two
    strings stand for the same integer. *)
Theorem fixed_width_codecs_bijective v w b :
  in_u64 v -> in_u128 w -> bytes_ok b ->
  (decode_u64_be b = Some v <-> b = encode_u64_be v) /\
  (decode_u128_be b = Some w <-> b = encode_u128_be w).
Proof.
  intros Hv Hw Hb. rewrite decode_u64_be_spec, decode_u128_be_spec by done.
  rewrite encode_u64_be_spec, encode_u128_be_spec. split.
  - apply (decode_iff 8); [rlia|done].
  - apply (decode_iff 16); [rlia|done].
Qed.

End Codecs.

(* ------------------------------------------------------------------ *)
(** ** arithmetic.rs *)
Module Arithmetic.

Definition checked_i64_add (left right : Z) : option Z := checked_i64 (left + right).
Definition checked_i64_mul (left right : Z) : option Z := checked_i64 (left * right).
Definition checked_u64_add (left right : Z) : option Z := checked_u64 (left + right).
Definition checked_i64_neg (value : Z) : option Z := checked_i64 (value * -1).
Definition checked_i128_to_i64 (value : Z) : option Z := checked_i64 value.

Definition decode_i64 (b : bytes) : option Z :=
  match Codecs.decode_u64_be b with
  | Some bits => Some (as_i64 bits)
  | None => None
  end.

Lemma decode_i64_length b :
  bytes_ok b -> decode_i64 b = if (length b =? 8)%nat then Some (as_i64 (of_be b)) else None.
Proof.
  intros Hb. unfold decode_i64. rewrite Codecs.decode_u64_be_spec by done.
  by destruct (length b =? 8)%nat.
Qed.

(** An [i64] written with [to_be_bytes] is read back exactly. *)
Lemma decode_i64_be_bytes z : in_i64 z -> decode_i64 (be_bytes 8 z) = Some z.
Proof.
  intros Hz. rewrite decode_i64_length, length_be_bytes by apply be_bytes_ok.
  cbn [Nat.eqb]. rewrite of_be_be_bytes. f_equal. by apply as_i64_as_u64.
Qed.
End Arithmetic.

(* ------------------------------------------------------------------ *)
(** ** routing.rs and the bucket normalisation of lib.rs *)
Module Routing.

Definition clamp_prefix_len (requested key_len : Z) : Z := Z.min requested key_len.

Definition route_power_of_two_hash (hash bucket_count : Z) : option Z :=
  if (bucket_count =? 0) || negb (Z.land bucket_count (bucket_count - 1) =? 0)
  then None
  else Some (as_u16 (hash mod bucket_count)).

Definition normalize_power_of_two_bucket_count (bucket_count : Z) : Z :=
  if bucket_count <=? 1 then 1
  else if bucket_count <=? 2 then 2
  else if bucket_count <=? 4 then 4
  else if bucket_count <=? 8 then 8
  else if bucket_count <=? 16 then 16
  else if bucket_count <=? 32 then 32
  else if bucket_count <=? 64 then 64
  else if bucket_count <=? 128 then 128
  else if bucket_count <=? 256 then 256
  else if bucket_count <=? 512 then 512
  else if bucket_count <=? 1024 then 1024
  else if bucket_count <=? 2048 then 2048
  else if bucket_count <=? 4096 then 4096
  else if bucket_count <=? 8192 then 8192
  else if bucket_count <=? 16384 then 16384
  else 32768.

(** The bit trick [n & (n-1) == 0] decides powers of two. *)
Lemma land_pred_pow2 n :
  0 < n -> (Z.land n (n - 1) = 0 <-> exists k, 0 <= k /\ n = 2 ^ k).
Proof.
  intros Hn. split.
  - intros Hl. exists (Z.log2 n). split; [apply Z.log2_nonneg|].
    pose proof (Z.log2_spec n Hn) as [H1 H2].
    destruct (Z.eq_dec n (2 ^ Z.log2 n)) as [|Hne]; [done|]. exfalso.
    assert (Z.log2 (n - 1) = Z.log2 n) as Hlog
      by (apply Z.log2_unique; [apply Z.log2_nonneg|split; [apply Z.lt_le_pred|]; lia]).
    assert (0 < n - 1) by (pose proof (Z.pow_pos_nonneg 2 (Z.log2 n) ltac:(done) (Z.log2_nonneg n)); lia).
    apply (f_equal (fun z => Z.testbit z (Z.log2 n))) in Hl.
    rewrite Z.land_spec, Z.bit_log2, Z.bits_0 in Hl by done.
    rewrite <-Hlog, Z.bit_log2 in Hl by done. done.
  - intros [k [Hk ->]]. replace (2 ^ k - 1) with (Z.ones k) by (rewrite Z.ones_equiv; lia).
    rewrite Z.land_ones by done. apply Z.mod_same. lia.
Qed.

Lemma normalize_pow2 n :
  exists k, 0 <= k <= 15 /\ normalize_power_of_two_bucket_count n = 2 ^ k.
Proof.
  unfold normalize_power_of_two_bucket_count.
  repeat case_match;
    [exists 0|exists 1|exists 2|exists 3|exists 4|exists 5|exists 6|exists 7|exists 8
    |exists 9|exists 10|exists 11|exists 12|exists 13|exists 14|exists 15]; lia.
Qed.

(** It is the least power of two that is at least the requested count. *)
Lemma normalize_least n k :
  n <= 32768 -> 0 <= k -> n <= 2 ^ k ->
  n <= normalize_power_of_two_bucket_count n <= 2 ^ k.
Proof.
  intros Hn Hk Hle.
  assert (forall j, 0 < j -> 2 ^ (j - 1) < n -> 2 ^ j <= 2 ^ k) as Hj.
  { intros j Hj Hlt. apply Z.pow_le_mono_r; [lia|].
    assert (2 ^ (j - 1) < 2 ^ k) as ?%Z.pow_lt_mono_r_iff by lia; lia. }
  pose proof (Z.pow_pos_nonneg 2 k). unfold normalize_power_of_two_bucket_count.
  repeat case_match;
    [|specialize (Hj 1)|specialize (Hj 2)|specialize (Hj 3)|specialize (Hj 4)
    |specialize (Hj 5)|specialize (Hj 6)|specialize (Hj 7)|specialize (Hj 8)
    |specialize (Hj 9)|specialize (Hj 10)|specialize (Hj 11)|specialize (Hj 12)
    |specialize (Hj 13)|specialize (Hj 14)|specialize (Hj 15)];
    simpl in Hj; lia.
Qed.

Lemma route_pow2 h k :
  0 <= h -> 0 <= k <= 15 -> route_power_of_two_hash h (2 ^ k) = Some (h mod 2 ^ k).
Proof.
  intros Hh Hk. unfold route_power_of_two_hash.
  pose proof (Z.pow_pos_nonneg 2 k ltac:(done) ltac:(lia)) as Hp.
  assert (2 ^ k <= 2 ^ 15) by (apply Z.pow_le_mono_r; lia).
  rewrite (proj2 (land_pred_pow2 (2 ^ k) Hp)) by (exists k; lia).
  replace (2 ^ k =? 0) with false by lia. simpl. f_equal. unfold as_u16.
  apply Z.mod_small. pose proof (Z.mod_pos_bound h (2 ^ k) Hp). lia.
Qed.

(** Bucket routing is total after normalisation: whatever 16-bit bucket
    count a configuration asks for (zero and non-powers of two included),
    normalising it and routing a 64-bit hash always yields a bucket, namely the
    hash modulo the normalised count; normalisation is idempotent, and up to
    32768 it is the least power of two that is not below the request. *)
Theorem normalized_routing_total h n :
  in_u64 h -> in_u16 n ->
  let c := normalize_power_of_two_bucket_count n in
  route_power_of_two_hash h c = Some (h mod c) /\ 0 <= h mod c < c /\
  normalize_power_of_two_bucket_count c = c /\
  (n <= 32768 -> n <= c /\ forall k, 0 <= k -> n <= 2 ^ k -> c <= 2 ^ k).
Proof.
  intros Hh Hn c. destruct (normalize_pow2 n) as (k & Hk & Hc). fold c in Hc.
  pose proof (Z.pow_pos_nonneg 2 k ltac:(done) ltac:(lia)) as Hp.
  assert (2 ^ k <= 2 ^ 15) by (apply Z.pow_le_mono_r; lia).
  split_and!.
  - rewrite Hc. apply route_pow2; lia.
  - apply Z.mod_pos_bound. lia.
  - apply Z.mod_pos_bound. lia.
  - pose proof (normalize_least c k) as Hl. lia.
  - intros Hle. split; [|intros; by apply normalize_least].
    pose proof (normalize_least n 15 Hle). lia.
Qed.

End Routing.

(* ------------------------------------------------------------------ *)
(** ** keys.rs *)
Module OrderKeys.

Definition SIGN_BIT : Z := 0x8000000000000000.

Definition signed_order_key (value : Z) (invert : bool) : Z :=
  let ascending := Z.lxor (as_u64 value) SIGN_BIT in
  if invert then not_u64 ascending else ascending.

Definition signed_order_key_decode (value : Z) (invert : bool) : Z :=
  let ascending := if invert then not_u64 value else value in
  as_i64 (Z.lxor ascending SIGN_BIT).

(** Flipping the top bit of a 64-bit word adds 2^63 modulo 2^64. *)
Lemma lxor_sign_bit x :
  in_u64 x -> Z.lxor x SIGN_BIT = if x <? 2 ^ 63 then x + 2 ^ 63 else x - 2 ^ 63.
Proof.
  intros Hx. change SIGN_BIT with (1 * 2 ^ 63). unfold u64_max in Hx.
  assert (forall y, 0 <= y < 2 ^ 63 -> Z.lxor (1 * 2 ^ 63) y = 2 ^ 63 + y) as Hadd.
  { intros y Hy. rewrite <-(Z.mod_small y (2 ^ 63)), <-Z.land_ones by lia.
    rewrite <-Z.add_nocarry_lxor; [lia|].
    rewrite (Z.land_comm y), Z.land_assoc, Z.land_ones, Z.mod_mul by lia.
    apply Z.land_0_l. }
  rewrite Z.lxor_comm. destruct (Z.ltb_spec x (2 ^ 63)).
  - rewrite Hadd by lia. lia.
  - replace x with (2 ^ 63 + (x - 2 ^ 63)) at 1 by lia.
    rewrite <-Hadd, <-Z.lxor_assoc, Z.lxor_nilpotent, Z.lxor_0_l by lia. lia.
Qed.

Lemma signed_order_key_eq v invert :
  in_i64 v ->
  signed_order_key v invert = if invert then 2 ^ 63 - 1 - v else v + 2 ^ 63.
Proof.
  intros Hv. unfold signed_order_key. rewrite lxor_sign_bit by apply as_u64_range.
  rewrite as_u64_signed by done. unfold not_u64. unfold_bounds.
  repeat case_match; lia.
Qed.

Lemma signed_order_key_range v invert : in_i64 v -> in_u64 (signed_order_key v invert).
Proof. intros Hv. rewrite signed_order_key_eq by done. destruct invert; rlia. Qed.

Lemma signed_order_key_round_trip v invert :
  in_i64 v -> signed_order_key_decode (signed_order_key v invert) invert = v.
Proof.
  intros Hv. unfold signed_order_key_decode. rewrite signed_order_key_eq by done.
  assert (forall x, x = v + 2 ^ 63 -> as_i64 (Z.lxor x SIGN_BIT) = v) as Hx.
  { intros x ->. rewrite lxor_sign_bit by rlia. unfold as_i64. unfold_bounds.
    destruct (Z.ltb_spec (v + 2 ^ 63) (2 ^ 63)).
    - rewrite <-(Z.mod_unique (v + 2 ^ 63 + 2 ^ 63 + 2 ^ 63) (2 ^ 64) 1 (v + 2 ^ 63)); lia.
    - rewrite Z.mod_small; lia. }
  apply Hx. destruct invert; unfold not_u64; rlia.
Qed.
End OrderKeys.

(* ------------------------------------------------------------------ *)
(** ** zset.rs *)
Module ZsetK.

Definition validate_aligned_lengths (row_count weight_count : Z) : bool :=
  row_count =? weight_count.
Definition validate_index (index row_count : Z) : bool := index <? row_count.
Definition checked_weight_add (current delta : Z) : option Z := checked_i64 (current + delta).
Definition consolidate_weight (current delta : Z) : option Z := checked_i64 (current + delta).
Definition weight_cancels (weight : Z) : bool := weight =? 0.
End ZsetK.

(* ------------------------------------------------------------------ *)
(** ** aggregate.rs *)
Module AggregateK.

Definition transition (old_sum old_count delta_sum delta_count : Z) : option (Z * Z) :=
  if (old_count <? 0) || ((old_count =? 0) && negb (old_sum =? 0)) then None
  else
    new_count ← checked_i64 (old_count + delta_count);
    if new_count <? 0 then None
    else
      total_sum ← checked_i128 (old_sum + delta_sum);
      if new_count =? 0 then (if total_sum =? 0 then Some (0, 0) else None)
      else
        new_sum ← checked_i64 total_sum;
        Some (new_sum, new_count).

(** A group state is well formed: the count is not negative, and an empty
    group has no residual sum. *)
Definition group_ok (s : Z * Z) : Prop :=
  in_i64 (fst s) /\ 0 <= snd s <= i64_max /\ (snd s = 0 -> fst s = 0).

#[local] Ltac refuted := split; [done|intros (?&?&?); exfalso; rlia].

Lemma transition_Some os oc ds dc s :
  in_i64 os -> in_i64 oc -> in_i128 ds ->
  transition os oc ds dc = Some s <->
  group_ok (os, oc) /\ s = (os + ds, oc + dc) /\ group_ok (os + ds, oc + dc).
Proof.
  intros Hos Hoc Hds. unfold transition, group_ok. simpl.
  destruct ((oc <? 0) || ((oc =? 0) && negb (os =? 0))) eqn:E1; [refuted|].
  destruct (checked i64_min i64_max (oc + dc)) as [nc|] eqn:E2; simpl.
  2: { apply checked_None in E2. refuted. }
  apply checked_Some in E2 as [-> Hnc].
  destruct (Z.ltb_spec (oc + dc) 0); [refuted|].
  destruct (checked i128_min i128_max (os + ds)) as [t|] eqn:E3; simpl.
  2: { apply checked_None in E3. refuted. }
  apply checked_Some in E3 as [-> Ht].
  destruct (Z.eqb_spec (oc + dc) 0) as [Hz|Hz].
  - destruct (Z.eqb_spec (os + ds) 0) as [Hs|Hs].
    + rewrite Hz, Hs. split; [intros [= <-]|intros (?&->&?); done].
      split_and!; done || rlia.
    + refuted.
  - destruct (checked i64_min i64_max (os + ds)) as [ns|] eqn:E4; simpl.
    + apply checked_Some in E4 as [-> ?].
      split; [intros [= <-]|intros (?&->&?); done].
      split_and!; done || rlia.
    + apply checked_None in E4. refuted.
Qed.
End AggregateK.

(* ------------------------------------------------------------------ *)
(** ** frontier.rs *)
Module FrontierK.

Definition admit_frontier_report (version : Z)
    (active generation_matches incarnation_matches : bool)
    (current_epoch reported_epoch : Z) : option Z :=
  if negb (version =? 1) || negb active || negb generation_matches
     || negb incarnation_matches then None
  else if current_epoch <? reported_epoch then Some reported_epoch
  else Some current_epoch.

Definition fixed_membership_meet (left right : Z) : Z :=
  if left <=? right then left else right.

Definition advance_publication (published : option Z) (meet : Z) : Z :=
  match published with
  | None => meet
  | Some p => if p <? meet then meet else p
  end.

Definition fixed_membership_transition (current_epoch reported_epoch : Z) : Z :=
  if current_epoch <? reported_epoch then reported_epoch else current_epoch.

Definition activation_preserves_publication (published_epoch : option Z)
    (bootstrap_epoch : Z) : bool :=
  match published_epoch with
  | None => true
  | Some published => published <=? bootstrap_epoch
  end.

Definition completes_before (frontier epoch : Z) : bool := epoch <? frontier.

Definition stale_incarnation_is_rejected (report_incarnation active_incarnation : Z) : bool :=
  negb (report_incarnation =? active_incarnation).

Lemma admit_frontier_report_Some v a g i cur rep e :
  admit_frontier_report v a g i cur rep = Some e <->
  v = 1 /\ a = true /\ g = true /\ i = true /\ e = Z.max cur rep.
Proof.
  unfold admit_frontier_report.
  destruct (Z.eqb_spec v 1), a, g, i, (Z.ltb_spec cur rep); simpl;
    (split; [intros; simplify_eq; repeat split; done || lia
            |intros (?&?&?&?&->); done || (f_equal; lia)]).
Qed.

Lemma fixed_membership_meet_min l r : fixed_membership_meet l r = Z.min l r.
Proof. unfold fixed_membership_meet. case_match; lia. Qed.

Lemma advance_publication_ge p m : m <= advance_publication p m.
Proof. destruct p; simpl; [case_match|]; lia. Qed.
End FrontierK.

(* ------------------------------------------------------------------ *)
(** ** ownership.rs *)
Module Ownership.

Definition same_owner (reservation channel : Z) : bool := reservation =? channel.

Definition release_accounting (owner_matches : bool)
    (rows batches nbytes total_bytes total_requests released_rows released_bytes : Z)
    : Z * Z * Z * Z * Z :=
  let '(next_rows, next_batches, next_bytes) :=
    if owner_matches then
      (saturating_sub rows released_rows, saturating_sub batches 1,
       saturating_sub nbytes released_bytes)
    else (rows, batches, nbytes) in
  (next_rows, next_batches, next_bytes,
   saturating_sub total_bytes released_bytes, saturating_sub total_requests 1).
End Ownership.

(* ------------------------------------------------------------------ *)
(** ** persistence.rs *)
Module Persistence.

Definition COMMIT_FAILED : Z := 0.
Definition COMMIT_COMMITTED : Z := 1.
Definition COMMIT_UNKNOWN : Z := 2.
Definition REPLAY_REJECT : Z := 0.
Definition REPLAY_APPLY : Z := 1.
Definition REPLAY_NOOP : Z := 2.
Definition REPLAY_UNKNOWN : Z := 3.
Definition SCAN_COMPLETE : Z := 0.
Definition SCAN_MORE : Z := 1.
Definition SCAN_QUOTA : Z := 2.
Definition SCAN_CANCELLED : Z := 3.
Definition SCAN_CORRUPT : Z := 4.

Definition next_epoch (current_epoch : Z) : option Z := checked_u64 (current_epoch + 1).

Definition commit_outcome (write_succeeded flush_succeeded : bool) : Z :=
  if negb write_succeeded then COMMIT_FAILED
  else if flush_succeeded then COMMIT_COMMITTED
  else COMMIT_UNKNOWN.

Definition epoch_is_admissible (current_epoch candidate_epoch : Z)
    (require_consecutive authority_valid duplicate : bool) : bool :=
  if negb authority_valid || duplicate || (candidate_epoch <=? current_epoch) then false
  else if require_consecutive
  then bool_decide (checked_u64 (current_epoch + 1) = Some candidate_epoch)
  else true.

Definition coupled_commit_is_durable (state_written outputs_written source_marker_written
    frontier_written write_succeeded flush_succeeded : bool) : bool :=
  state_written && outputs_written && source_marker_written && frontier_written
  && write_succeeded && flush_succeeded.

Definition replay_decision (state : Z) (identity_matches scope_matches duplicate : bool) : Z :=
  if state =? COMMIT_UNKNOWN then REPLAY_UNKNOWN
  else if negb (state =? COMMIT_COMMITTED) || negb identity_matches || negb scope_matches
  then REPLAY_REJECT
  else if duplicate then REPLAY_NOOP
  else REPLAY_APPLY.

Definition recovery_scan_status (cursor total_rows requested_page_size max_page_size : Z)
    (cancelled corrupt : bool) : Z :=
  if cancelled then SCAN_CANCELLED
  else if corrupt || (total_rows <? cursor) then SCAN_CORRUPT
  else if (requested_page_size =? 0) || (max_page_size =? 0) then SCAN_QUOTA
  else
    let page_size :=
      if requested_page_size <? max_page_size then requested_page_size else max_page_size in
    let end_ := saturating_add u64_max cursor page_size in
    if total_rows <=? end_ then SCAN_COMPLETE else SCAN_MORE.

Definition compaction_is_eligible (compaction_frontier reader_horizon replay_horizon : Z)
    (retained_snapshot in_flight_delta : bool) : bool :=
  negb retained_snapshot && negb in_flight_delta
  && (reader_horizon <=? compaction_frontier) && (replay_horizon <=? compaction_frontier).

Definition recovery_is_ready (scan_complete metadata_valid fence_matches all_state_restored : bool)
    : bool :=
  scan_complete && metadata_valid && fence_matches && all_state_restored.
End Persistence.

(* ------------------------------------------------------------------ *)
(** ** pgwire_framing.rs *)
Module PgwireFraming.

Definition INVALID : Z := 0.
Definition INCOMPLETE : Z := 1.
Definition COMPLETE : Z := 2.
Definition MAX_PACKET_BYTES : Z := 64 * 1024 * 1024.

Definition read_length (b : bytes) (offset : Z) : option Z :=
  end_ ← checked_usize (offset + 4);
  if Z.of_nat (length b) <? end_ then None
  else
    let at_ i := nth (Z.to_nat (offset + i)) b 0 in
    let raw := Z.lor (Z.lor (Z.lor (Z.shiftl (at_ 0) 24) (Z.shiftl (at_ 1) 16))
                       (Z.shiftl (at_ 2) 8)) (at_ 3) in
    Some (as_i32 raw).

Definition frame_span (available offset : Z) (raw_length : option Z) : Z * Z * Z :=
  match raw_length with
  | None => (INCOMPLETE, 0, 0)
  | Some raw_length =>
      if (raw_length <? 4) || (MAX_PACKET_BYTES <? raw_length) then (INVALID, 0, 0)
      else
        match checked_usize (offset + 4) with
        | None => (INVALID, 0, 0)
        | Some body_start =>
            match checked_usize (offset + raw_length) with
            | None => (INVALID, 0, 0)
            | Some end_ =>
                if available <? end_ then (INCOMPLETE, 0, 0)
                else (COMPLETE, body_start, end_)
            end
        end
  end.

(** A wire frame: its 32-bit length, counting itself, then the body. *)
Definition frame (body : bytes) : bytes := be_bytes 4 (Z.of_nat (length body) + 4) ++ body.

Lemma read_length_be (pre : bytes) a b c d (rest : bytes) :
  byte_ok a -> byte_ok b -> byte_ok c -> byte_ok d ->
  Z.of_nat (length (pre ++ [a; b; c; d] ++ rest)) <= usize_max ->
  read_length (pre ++ [a; b; c; d] ++ rest) (Z.of_nat (length pre))
  = Some (as_i32 (of_be [a; b; c; d])).
Proof.
  intros Ha Hb Hc Hd Hlen. unfold read_length.
  rewrite !length_app in *. cbn [length] in *.
  rewrite checked_in by rlia. cbn [mbind option_bind].
  replace (_ <? _) with false by lia. f_equal. f_equal.
  replace (Z.to_nat (Z.of_nat (length pre) + 0)) with (length pre + 0)%nat by lia.
  replace (Z.to_nat (Z.of_nat (length pre) + 1)) with (length pre + 1)%nat by lia.
  replace (Z.to_nat (Z.of_nat (length pre) + 2)) with (length pre + 2)%nat by lia.
  replace (Z.to_nat (Z.of_nat (length pre) + 3)) with (length pre + 3)%nat by lia.
  rewrite !app_nth2_plus. cbn [nth app].
  match goal with |- Z.lor ?x ?y = ?r => change (Z.lor x (Z.shiftl y 0) = r) end.
  rewrite (Z.shiftl_mul_pow2 _ 24) by lia. Codecs.lor_chain.
  cbn [of_be length]. rewrite !pow256_S, !Z.pow_0_r. lia.
Qed.

Lemma read_length_frame (pre body rest : bytes) :
  Z.of_nat (length body) + 4 <= MAX_PACKET_BYTES ->
  Z.of_nat (length (pre ++ be_bytes 4 (Z.of_nat (length body) + 4) ++ rest)) <= usize_max ->
  read_length (pre ++ be_bytes 4 (Z.of_nat (length body) + 4) ++ rest)
    (Z.of_nat (length pre)) = Some (Z.of_nat (length body) + 4).
Proof.
  intros Hb Hlen. set (n := Z.of_nat (length body) + 4) in *.
  pose proof (be_bytes_ok 4 n) as Hok. cbn [be_bytes] in *.
  rewrite !List.Forall_cons_iff in Hok. destruct_and!.
  rewrite read_length_be by done. f_equal.
  change (of_be _) with (of_be (be_bytes 4 n)). unfold MAX_PACKET_BYTES in Hb.
  rewrite of_be_be_bytes_id by lia. unfold as_i32. rewrite Z.mod_small; lia.
Qed.

Lemma frame_span_complete (pre body rest : bytes) :
  let off := Z.of_nat (length pre) in
  let full := pre ++ frame body ++ rest in
  Z.of_nat (length body) + 4 <= MAX_PACKET_BYTES ->
  Z.of_nat (length full) <= usize_max ->
  let e := off + (Z.of_nat (length body) + 4) in
  frame_span (Z.of_nat (length full)) off (read_length full off) = (COMPLETE, off + 4, e) /\
  take (Z.to_nat e - Z.to_nat (off + 4)) (drop (Z.to_nat (off + 4)) full) = body.
Proof.
  intros off full Hb Hlen e. unfold full, frame in *. rewrite <-app_assoc in *. split.
  - unfold off. rewrite read_length_frame by done. fold off. unfold frame_span.
    replace (_ || _) with false by lia.
    rewrite !length_app, length_be_bytes in *.
    rewrite !checked_in by (unfold off; rlia).
    replace (_ <? _) with false by (unfold off; lia). done.
  - replace (Z.to_nat e - Z.to_nat (off + 4))%nat with (length body) by lia.
    rewrite app_assoc.
    rewrite drop_app_length' by (rewrite length_app, length_be_bytes; lia).
    by rewrite take_app_length.
Qed.

Lemma frame_span_cut (pre body : bytes) (n : nat) :
  let off := Z.of_nat (length pre) in
  let cut := pre ++ take n (frame body) in
  Z.of_nat (length body) + 4 <= MAX_PACKET_BYTES ->
  Z.of_nat (length pre + length (frame body)) <= usize_max ->
  (n < length (frame body))%nat ->
  frame_span (Z.of_nat (length cut)) off (read_length cut off) = (INCOMPLETE, 0, 0).
Proof.
  intros off cut Hb Hlen Hn. unfold cut, frame in *.
  rewrite length_app, length_be_bytes in *.
  destruct (decide (n < 4)%nat) as [H4|H4].
  - unfold read_length. rewrite checked_in by (unfold off; rlia). cbn [mbind option_bind].
    rewrite length_app, length_take, length_app, length_be_bytes.
    by replace (_ <? _) with true by (unfold off; lia).
  - rewrite take_app, length_be_bytes, (take_ge (be_bytes _ _)) by (rewrite length_be_bytes; lia).
    unfold off. rewrite read_length_frame; [|done|].
    2: { rewrite !length_app, length_be_bytes, length_take. rlia. }
    unfold frame_span. replace (_ || _) with false by lia.
    rewrite !checked_in by rlia.
    rewrite !length_app, length_be_bytes, length_take.
    by replace (_ <? _) with true by lia.
Qed.

(** Wire framing finds exactly the frame that was written: with any bytes
    before and after it, the frame of a body within the packet limit is
    reported complete and the reported span of the buffer is the body; and as
    long as some of its bytes are still missing, also when the length word
    itself is cut, it is reported incomplete and never invalid. *)
Theorem frame_span_finds_frame (pre body rest : bytes) (n : nat) :
  Z.of_nat (length body) + 4 <= MAX_PACKET_BYTES ->
  Z.of_nat (length (pre ++ frame body ++ rest)) <= usize_max ->
  (n < length (frame body))%nat ->
  let off := Z.of_nat (length pre) in
  let full := pre ++ frame body ++ rest in
  let cut := pre ++ take n (frame body) in
  (exists s e, frame_span (Z.of_nat (length full)) off (read_length full off) = (COMPLETE, s, e) /\
     take (Z.to_nat e - Z.to_nat s) (drop (Z.to_nat s) full) = body) /\
  frame_span (Z.of_nat (length cut)) off (read_length cut off) = (INCOMPLETE, 0, 0).
Proof.
  intros Hb Hlen Hn off full cut. split.
  - exists (off + 4), (off + (Z.of_nat (length body) + 4)).
    apply frame_span_complete; done.
  - apply frame_span_cut; try done. unfold frame in *.
    rewrite !length_app in *. lia.
Qed.

End PgwireFraming.

(* ------------------------------------------------------------------ *)
(** ** physical_commit.rs *)
Module PhysicalCommitK.

Definition PENDING : Z := 0.
Definition FLIGHT_PENDING : Z := 1.
Definition FLIGHT_UNCERTAIN : Z := 2.
Definition UNCERTAIN : Z := 3.
Definition COMMITTED : Z := 4.
Definition DURABLE : Z := 0.
Definition WRITE_FAILED : Z := 1.
Definition OUTCOME_UNKNOWN : Z := 2.

Definition begin_owner (has_pending has_uncertain outcome_unknown : bool) : option Z :=
  if outcome_unknown || (negb has_pending && negb has_uncertain) then None
  else if has_uncertain then Some FLIGHT_UNCERTAIN
  else Some FLIGHT_PENDING.

Definition finish_transition (source outcome retained_epochs flight_epochs retained_bytes
    flight_bytes retained_operations flight_operations : Z) (current_frontier : option Z)
    (flight_last : Z) : option (Z * Z * Z * Z * option Z * bool) :=
  if (negb (source =? FLIGHT_PENDING) && negb (source =? FLIGHT_UNCERTAIN))
     || (negb (outcome =? DURABLE) && negb (outcome =? WRITE_FAILED)
         && negb (outcome =? OUTCOME_UNKNOWN))
     || ((source =? FLIGHT_UNCERTAIN) && (outcome =? WRITE_FAILED))
     || (flight_epochs =? 0)
     || (retained_epochs <? flight_epochs)
     || (retained_bytes <? flight_bytes)
     || (retained_operations <? flight_operations)
  then None
  else if outcome =? DURABLE then
    if match current_frontier with Some f => flight_last <? f | None => false end
    then None
    else Some (COMMITTED, retained_epochs - flight_epochs, retained_bytes - flight_bytes,
               retained_operations - flight_operations, Some flight_last, true)
  else
    Some (if outcome =? WRITE_FAILED then PENDING else UNCERTAIN,
          retained_epochs, retained_bytes, retained_operations, current_frontier, false).
End PhysicalCommitK.
