(* ===== verification/Laws.v ===== *)
(** * Merge laws ([rockstream-types/src/laws], [merge_law.rs])

    The checked i64 arithmetic of the laws, the [LawBundle] interface as a
    record of operations, its two built-in implementations [WeightAddV1] and
    [SumCountV1], the law registry and the arrangement header.  [AdditiveLaw] is
    what a law promises to its clients; the algebra (commutativity, identity,
    inverse, free regrouping within the admitted budget) is proved once against
    it and both built-ins discharge it. *)
From stdpp Require Import base tactics list gmap strings numbers option.
From Stdlib Require Import ZArith Lia ZifyBool SpecFloat.
From S2P Require Import Prelude Kernels.
Local Open Scope Z_scope.

(* ------------------------------------------------------------------ *)
(** ** laws/arithmetic.rs *)

Inductive ArithmeticError : Type :=
| Overflow
| InvalidLength (expected actual : Z).

Definition checked_add_i64 (left right : Z) : result ArithmeticError Z :=
  ok_or (Arithmetic.checked_i64_add left right) Overflow.
Definition checked_mul_i64 (left right : Z) : result ArithmeticError Z :=
  ok_or (Arithmetic.checked_i64_mul left right) Overflow.
Definition checked_add_u64 (left right : Z) : result ArithmeticError Z :=
  ok_or (Arithmetic.checked_u64_add left right) Overflow.
Definition checked_neg_i64 (value : Z) : result ArithmeticError Z :=
  ok_or (Arithmetic.checked_i64_neg value) Overflow.
Definition checked_i128_to_i64 (value : Z) : result ArithmeticError Z :=
  ok_or (Arithmetic.checked_i128_to_i64 value) Overflow.

Definition encode_i64 (value : Z) : bytes := be_bytes 8 value.
Definition encode_u64 (value : Z) : bytes := be_bytes 8 value.

Definition decode_i64 (b : bytes) : result ArithmeticError Z :=
  ok_or (Arithmetic.decode_i64 b) (InvalidLength 8 (Z.of_nat (length b))).
Definition decode_u64 (b : bytes) : result ArithmeticError Z :=
  ok_or (Codecs.decode_u64_be b) (InvalidLength 8 (Z.of_nat (length b))).

(** [try_fold] with a [u128] accumulator; [Option]'s order puts [None] first,
    so an overflowing accumulator would compare below the budget. *)
Definition admit_i64_reassociation (values : list Z) : bool :=
  match foldl (fun total value => t ← total; checked 0 u128_max (t + Z.abs value))
          (Some 0) values with
  | None => true
  | Some total => total <=? i64_max
  end.

(* ------------------------------------------------------------------ *)
(** ** merge_law.rs *)

Abbreviation MergeLawId := Z (only parsing).
Abbreviation MergeLawVersion := Z (only parsing).

Inductive MergeLawClass : Type := CommutativeMonoid | Semilattice | AbelianGroup.

Record LawProperties : Type := {
  associative : bool;
  commutative : bool;
  idempotent : bool;
  has_inverse : bool;
  has_identity : bool;
  composable : bool
}.

Inductive DuplicatePolicy : Type := Merge | Reject | LastWriterWins.
Inductive CompactionPolicy : Type := MergeOnCompact | TombstoneGc | RetainAll.
Inductive FrontierPolicy : Type := AnyAdvancement | ExactOnly | Stateless.

Record GatewayAggCombinerDesc : Type := {
  comb_law_id : MergeLawId;
  comb_law_name : string;
  is_associative : bool;
  is_commutative : bool
}.

(** explain.rs *)
Inductive NotMergeSafeReason : Type :=
| ExtremumRequiresRmw | ClampNotALaw | UnknownUdafProperties | StatelessOperator
| PartitionRecomputation | RecursionDredRequired.

(** The messages a law operation fails with. *)
Inductive law_error : Type :=
| WrongWireSize (expected actual : Z)
| MalformedField (e : ArithmeticError)
| SumOverflow
| CountOverflow
| NoInverse.

Record LawBundle : Type := {
  id : MergeLawId;
  version : MergeLawVersion;
  name : string;
  properties : LawProperties;
  class : MergeLawClass;
  duplicate_policy : DuplicatePolicy;
  compaction_policy : CompactionPolicy;
  frontier_policy : FrontierPolicy;
  identity : option bytes;
  merge : bytes -> bytes -> result law_error bytes;
  is_identity : bytes -> bool;
  inverse : bytes -> result law_error bytes;
  admits_reassociation : list Z -> bool;
  reassociation_admitted : bool;
  domain : string;
  evidence_ref : string;
  not_merge_safe_reason : option NotMergeSafeReason;
  gateway_combiner : option GatewayAggCombinerDesc
}.

Record LawDescriptor : Type := {
  desc_id : MergeLawId;
  desc_version : MergeLawVersion;
  desc_name : string;
  desc_class : MergeLawClass;
  desc_properties : LawProperties;
  desc_duplicate_policy : DuplicatePolicy;
  desc_compaction_policy : CompactionPolicy;
  desc_frontier_policy : FrontierPolicy;
  desc_idempotent : bool;
  desc_composable : bool;
  desc_domain : string;
  desc_evidence_ref : string;
  desc_reassociation_admitted : bool
}.

Definition from_bundle (bundle : LawBundle) : LawDescriptor := {|
  desc_id := id bundle;
  desc_version := version bundle;
  desc_name := name bundle;
  desc_class := class bundle;
  desc_properties := properties bundle;
  desc_duplicate_policy := duplicate_policy bundle;
  desc_compaction_policy := compaction_policy bundle;
  desc_frontier_policy := frontier_policy bundle;
  desc_idempotent := idempotent (properties bundle);
  desc_composable := composable (properties bundle);
  desc_domain := domain bundle;
  desc_evidence_ref := evidence_ref bundle;
  desc_reassociation_admitted := reassociation_admitted bundle
|}.

Definition can_reassociate (d : LawDescriptor) : bool :=
  desc_composable d && desc_reassociation_admitted d.

Record ArrangementHeader : Type := {
  law_id : MergeLawId;
  law_version : MergeLawVersion
}.

Definition WIRE_SIZE : Z := 4.

Definition header_encode (h : ArrangementHeader) : bytes :=
  be_bytes 2 (law_id h) ++ be_bytes 2 (law_version h).

(** The argument is a [[u8; 4]]. *)
Definition header_decode (buf : bytes) : ArrangementHeader := {|
  law_id := of_be [nth 0 buf 0; nth 1 buf 0];
  law_version := of_be [nth 2 buf 0; nth 3 buf 0]
|}.

(* ------------------------------------------------------------------ *)
(** ** laws/weight_add.rs *)

Definition WEIGHT_ADD_ID : MergeLawId := 0x0001.
Definition WEIGHT_ADD_VERSION : MergeLawVersion := 1.

Definition map_err {E F A} (f : E -> F) (r : result E A) : result F A :=
  match r with Ok a => Ok a | Err e => Err (f e) end.

Definition parse_weight (b : bytes) : result law_error Z :=
  if negb (Z.of_nat (length b) =? 8) then Err (WrongWireSize 8 (Z.of_nat (length b)))
  else map_err MalformedField (decode_i64 b).

Definition encode_weight (w : Z) : bytes := encode_i64 w.
Definition decode_weight (b : bytes) : result law_error Z := parse_weight b.

Definition weight_merge (left right : bytes) : result law_error bytes :=
  l ← parse_weight left;
  r ← parse_weight right;
  sum ← map_err (fun _ => SumOverflow) (checked_add_i64 l r);
  Ok (encode_i64 sum).

Definition weight_is_identity (value : bytes) : bool :=
  match parse_weight value with Ok w => w =? 0 | Err _ => false end.

Definition weight_inverse (value : bytes) : result law_error bytes :=
  weight ← parse_weight value;
  map_err (fun _ => SumOverflow) (encode_i64 <$> checked_neg_i64 weight).

Definition WeightAddV1 : LawBundle := {|
  id := WEIGHT_ADD_ID;
  version := WEIGHT_ADD_VERSION;
  name := "WeightAdd";
  properties := {| associative := true; commutative := true; idempotent := false;
                   has_inverse := true; has_identity := true; composable := false |};
  class := AbelianGroup;
  duplicate_policy := Merge;
  compaction_policy := TombstoneGc;
  frontier_policy := AnyAdvancement;
  identity := Some (encode_i64 0);
  merge := weight_merge;
  is_identity := weight_is_identity;
  inverse := weight_inverse;
  admits_reassociation := admit_i64_reassociation;
  reassociation_admitted := false;
  domain := "checked i64 weights; regrouping requires absolute operand sum <= i64::MAX";
  evidence_ref := "VS1-02/VS1-03: arithmetic kernel, law tests, and VS1 ADR";
  not_merge_safe_reason := None;
  gateway_combiner := Some {| comb_law_id := WEIGHT_ADD_ID; comb_law_name := "WeightAdd";
                              is_associative := true; is_commutative := true |}
|}.

(* ------------------------------------------------------------------ *)
(** ** laws/sum_count.rs *)

Definition SUM_COUNT_ID : MergeLawId := 0x0002.
Definition SUM_COUNT_VERSION : MergeLawVersion := 1.
Definition SUM_COUNT_WIRE_SIZE : Z := 16.

Definition encode_sum_count (sum count : Z) : bytes := encode_i64 sum ++ encode_i64 count.

Definition parse_sum_count (b : bytes) : result law_error (Z * Z) :=
  if negb (Z.of_nat (length b) =? SUM_COUNT_WIRE_SIZE)
  then Err (WrongWireSize SUM_COUNT_WIRE_SIZE (Z.of_nat (length b)))
  else
    sum ← map_err MalformedField (decode_i64 (take 8 b));
    count ← map_err MalformedField (decode_i64 (take 8 (drop 8 b)));
    Ok (sum, count).

Definition decode_sum_count (b : bytes) : result law_error (Z * Z) := parse_sum_count b.

Definition sum_count_merge (left right : bytes) : result law_error bytes :=
  '(ls, lc) ← parse_sum_count left;
  '(rs, rc) ← parse_sum_count right;
  sum ← map_err (fun _ => SumOverflow) (checked_add_i64 ls rs);
  count ← map_err (fun _ => CountOverflow) (checked_add_i64 lc rc);
  Ok (encode_sum_count sum count).

Definition sum_count_is_identity (value : bytes) : bool :=
  match parse_sum_count value with
  | Ok (s, c) => (s =? 0) && (c =? 0)
  | Err _ => false
  end.

Definition sum_count_inverse (value : bytes) : result law_error bytes :=
  '(sum, count) ← parse_sum_count value;
  inverse_sum ← map_err (fun _ => SumOverflow) (checked_neg_i64 sum);
  inverse_count ← map_err (fun _ => CountOverflow) (checked_neg_i64 count);
  Ok (encode_sum_count inverse_sum inverse_count).

(** [i64 as f64]: round to nearest, ties to even, in binary64. *)
Definition f64_of_i64 (z : Z) : spec_float := binary_normalize 53 1024 z 0 false.

Definition avg_from_sum_count (sum count : Z) : option spec_float :=
  if count =? 0 then None
  else Some (SFdiv 53 1024 (f64_of_i64 sum) (f64_of_i64 count)).

Definition aggregate_avg (b : bytes) : option spec_float :=
  '(sum, count) ← ok (parse_sum_count b);
  avg_from_sum_count sum count.

Definition SumCountV1 : LawBundle := {|
  id := SUM_COUNT_ID;
  version := SUM_COUNT_VERSION;
  name := "SumCount";
  properties := {| associative := true; commutative := true; idempotent := false;
                   has_inverse := true; has_identity := true; composable := true |};
  class := AbelianGroup;
  duplicate_policy := Merge;
  compaction_policy := TombstoneGc;
  frontier_policy := ExactOnly;
  identity := Some (encode_sum_count 0 0);
  merge := sum_count_merge;
  is_identity := sum_count_is_identity;
  inverse := sum_count_inverse;
  admits_reassociation := admit_i64_reassociation;
  reassociation_admitted := false;
  domain := "checked i64 sum/count partials; materialized count > 0; regrouping requires an absolute-sum budget";
  evidence_ref := "VS1-02/VS1-03/VS1-06: arithmetic kernel, law tests, and VS1 ADR";
  not_merge_safe_reason := None;
  gateway_combiner := Some {| comb_law_id := SUM_COUNT_ID; comb_law_name := "SumCount";
                              is_associative := true; is_commutative := true |}
|}.

(* ------------------------------------------------------------------ *)
(** ** laws/registry.rs *)

Abbreviation LawRegistry := (gmap Z LawBundle) (only parsing).

Definition registry_new : LawRegistry := ∅.

(** Panics on a duplicate id. *)
Definition register (reg : LawRegistry) (law : LawBundle) : outcome LawRegistry :=
  if bool_decide (is_Some (reg !! id law)) then Panic else Done (<[id law := law]> reg).

Definition with_builtins : outcome LawRegistry :=
  reg ← register registry_new WeightAddV1;
  register reg SumCountV1.

Definition registry_get (reg : LawRegistry) (i : MergeLawId) : option LawBundle := reg !! i.
Definition registry_contains (reg : LawRegistry) (i : MergeLawId) : bool :=
  bool_decide (is_Some (reg !! i)).
Definition registry_len (reg : LawRegistry) : nat := size reg.
Definition descriptors (reg : LawRegistry) : list LawDescriptor :=
  from_bundle ∘ snd <$> map_to_list reg.

(* ------------------------------------------------------------------ *)
(** ** Arithmetic lemmas *)

Definition i64s (v : list Z) : Prop := Forall (fun z => in_i64 z) v.
Definition abs_sum (v : list Z) : Z := foldr (fun z acc => Z.abs z + acc) 0 v.

Lemma abs_sum_nonneg v : 0 <= abs_sum v.
Proof. induction v; simpl; lia. Qed.

Lemma abs_sum_app u v : abs_sum (u ++ v) = abs_sum u + abs_sum v.
Proof. induction u; simpl; lia. Qed.

Lemma abs_sum_perm u v : u ≡ₚ v -> abs_sum u = abs_sum v.
Proof. induction 1; simpl; lia. Qed.

(** A slice of [i64]s cannot be long enough to overflow the [u128]
    accumulator, so the admission test is exactly the absolute-sum budget. *)
Lemma admit_spec v :
  i64s v -> Z.of_nat (length v) <= usize_max ->
  admit_i64_reassociation v = (abs_sum v <=? i64_max).
Proof.
  intros Hv Hlen. unfold admit_i64_reassociation.
  assert (forall w a, i64s w -> 0 <= a -> a + 2 ^ 63 * Z.of_nat (length w) <= u128_max ->
    foldl (fun total value => t ← total; checked 0 u128_max (t + Z.abs value)) (Some a) w
    = Some (a + abs_sum w)) as Hfold.
  { induction w as [|z w IH]; intros a Hw Ha Hb; simpl; [f_equal; lia|].
    inversion_clear Hw as [|? ? Hz Hw']. cbn [length] in Hb.
    rewrite checked_in by rlia. rewrite IH by (done || rlia). f_equal. lia. }
  rewrite Hfold by (done || rlia). done.
Qed.

Lemma decode_i64_ok b :
  bytes_ok b -> length b = 8%nat ->
  exists z, decode_i64 b = Ok z /\ in_i64 z /\ b = encode_i64 z.
Proof.
  intros Hb Hl. unfold decode_i64. rewrite Arithmetic.decode_i64_length, Hl by done.
  simpl. eexists; split_and!; [done|apply as_i64_range|apply as_i64_range|].
  unfold encode_i64. rewrite be_bytes_mod. change (256 ^ Z.of_nat 8) with (2 ^ 64).
  pose proof (of_be_range b Hb) as Hr. rewrite Hl in Hr.
  change (_ mod 2 ^ 64) with (as_u64 (as_i64 (of_be b))).
  rewrite as_u64_as_i64 by rlia. rewrite <-Hl. by rewrite be_bytes_of_be.
Qed.

Lemma decode_encode_i64 z : in_i64 z -> decode_i64 (encode_i64 z) = Ok z.
Proof. intros. unfold decode_i64, encode_i64. by rewrite Arithmetic.decode_i64_be_bytes. Qed.

Lemma decode_encode_u64 z : in_u64 z -> decode_u64 (encode_u64 z) = Ok z.
Proof.
  intros. unfold decode_u64, encode_u64.
  rewrite Codecs.decode_u64_be_spec, length_be_bytes by auto with rs.
  cbn [ok_or Nat.eqb]. by rewrite of_be_be_bytes_id by rlia.
Qed.

Lemma length_encode_i64 z : length (encode_i64 z) = 8%nat.
Proof. apply length_be_bytes. Qed.

Lemma encode_i64_ok z : bytes_ok (encode_i64 z).
Proof. apply be_bytes_ok. Qed.

#[export] Hint Resolve encode_i64_ok : rs.
#[export] Hint Rewrite length_encode_i64 : rs.

(* ------------------------------------------------------------------ *)
(** ** What an additive law promises

    The values of the law are the encodings of [width]-long vectors of [i64]s,
    and the operations act on the vectors: merging adds them componentwise and
    fails exactly when a component leaves the [i64] range. *)

Definition vadd (u v : list Z) : list Z := zip_with Z.add u v.
Definition in_range (v : list Z) : bool := forallb (fun z => (i64_min <=? z) && (z <=? i64_max)) v.

Class AdditiveLaw (law : LawBundle) : Type := {
  width : nat;
  enc : list Z -> bytes;
  dec : bytes -> option (list Z);
  enc_ok : forall v, bytes_ok (enc v);
  dec_enc : forall v, length v = width -> i64s v -> dec (enc v) = Some v;
  dec_Some : forall b v, bytes_ok b -> dec b = Some v ->
    length v = width /\ i64s v /\ b = enc v;
  merge_dec : forall a b, bytes_ok a -> bytes_ok b ->
    ok (merge law a b) =
    (u ← dec a; v ← dec b; if in_range (vadd u v) then Some (enc (vadd u v)) else None);
  identity_enc : identity law = Some (enc (replicate width 0));
  is_identity_dec : forall a, bytes_ok a ->
    is_identity law a = bool_decide (dec a = Some (replicate width 0));
  inverse_dec : forall a, bytes_ok a ->
    ok (inverse law a) =
    (u ← dec a; if in_range (Z.opp <$> u) then Some (enc (Z.opp <$> u)) else None);
  admits_dec : forall v, admits_reassociation law v = admit_i64_reassociation v
}.
Arguments width law {_}.
Arguments enc law {_} _.
Arguments dec law {_} _.

Lemma in_range_spec v : in_range v = true <-> i64s v.
Proof.
  unfold in_range, i64s. rewrite forallb_forall, Forall_forall.
  split; intros H z Hz; specialize (H z); rewrite <-list_elem_of_In in *; [apply H in Hz; lia|].
  apply H in Hz. lia.
Qed.

Lemma i64s_cons z v : in_i64 z -> i64s v -> i64s (z :: v).
Proof. by constructor. Qed.

Lemma i64s_nil : i64s [].
Proof. constructor. Qed.

Lemma checked_i64_in z : checked_i64 z = if in_range [z] then Some z else None.
Proof. unfold checked, in_range. simpl. by rewrite andb_true_r. Qed.

Lemma parse_weight_ok b :
  bytes_ok b ->
  (exists z, parse_weight b = Ok z /\ in_i64 z /\ b = encode_i64 z) \/
  (exists e, parse_weight b = Err e /\ length b <> 8%nat).
Proof.
  intros Hb. unfold parse_weight. destruct (Z.eqb_spec (Z.of_nat (length b)) 8) as [Hl|Hl].
  - left. destruct (decode_i64_ok b) as (z & -> & ?); [done|lia|]. exists z. done.
  - right. eexists. split; [done|lia].
Qed.

Lemma parse_sum_count_ok b :
  bytes_ok b ->
  (exists s c, parse_sum_count b = Ok (s, c) /\ in_i64 s /\ in_i64 c /\ b = encode_sum_count s c) \/
  (exists e, parse_sum_count b = Err e /\ length b <> 16%nat).
Proof.
  intros Hb. unfold parse_sum_count, SUM_COUNT_WIRE_SIZE.
  destruct (Z.eqb_spec (Z.of_nat (length b)) 16) as [Hl|Hl].
  - left. destruct (decode_i64_ok (take 8 b)) as (s & Hs & ? & Es);
      [by apply Forall_take|rewrite length_take; lia|].
    destruct (decode_i64_ok (take 8 (drop 8 b))) as (c & Hc & ? & Ec);
      [by apply Forall_take, Forall_drop|rewrite length_take, length_drop; lia|].
    exists s, c. rewrite Hs, Hc. split_and!; try done; try lia.
    unfold encode_sum_count. rewrite <-Es, <-Ec.
    rewrite (take_ge (drop 8 b)) by (rewrite length_drop; lia).
    by rewrite take_drop.
  - right. eexists. split; [done|lia].
Qed.

Lemma parse_encode_weight z : in_i64 z -> parse_weight (encode_i64 z) = Ok z.
Proof.
  intros. unfold parse_weight. rewrite length_encode_i64.
  change (negb _) with false. by rewrite decode_encode_i64.
Qed.

Lemma parse_encode_sum_count s c :
  in_i64 s -> in_i64 c -> parse_sum_count (encode_sum_count s c) = Ok (s, c).
Proof.
  intros. unfold parse_sum_count, encode_sum_count.
  rewrite length_app, !length_encode_i64. change (negb _) with false. cbv iota.
  rewrite take_app_length' by (by rewrite length_encode_i64).
  rewrite drop_app_length' by (by rewrite length_encode_i64).
  rewrite (take_ge (encode_i64 c)) by (rewrite length_encode_i64; lia).
  by rewrite !decode_encode_i64.
Qed.

(* ------------------------------------------------------------------ *)
(** ** The built-ins discharge the interface *)

Definition weight_dec (b : bytes) : option (list Z) := (fun w => [w]) <$> ok (parse_weight b).
Definition weight_enc (v : list Z) : bytes := encode_i64 (nth 0 v 0).
Definition sum_count_dec (b : bytes) : option (list Z) :=
  (fun '(s, c) => [s; c]) <$> ok (parse_sum_count b).
Definition sum_count_enc (v : list Z) : bytes := encode_sum_count (nth 0 v 0) (nth 1 v 0).

#[export] Program Instance WeightAddV1_additive : AdditiveLaw WeightAddV1 := {
  width := 1;
  enc := weight_enc;
  dec := weight_dec
}.
Next Obligation. intros v. apply be_bytes_ok. Qed.
Next Obligation.
  intros [|z [|]] Hl Hv; try done. inversion_clear Hv.
  unfold weight_dec, weight_enc. simpl nth. by rewrite parse_encode_weight.
Qed.
Next Obligation.
  intros b v Hb. unfold weight_dec, weight_enc.
  destruct (parse_weight_ok b Hb) as [(z & -> & Hz & E)|(e & -> & _)]; simpl; [|done].
  intros [= <-]. split_and!; [done|auto using i64s_cons, i64s_nil|exact E].
Qed.
Next Obligation.
  intros a b Ha Hb. cbn [merge WeightAddV1]. unfold weight_merge, weight_dec, weight_enc.
  destruct (parse_weight_ok a Ha) as [(u & -> & _)|(e & -> & _)]; [|done].
  destruct (parse_weight_ok b Hb) as [(v & -> & _)|(e & -> & _)]; [|done].
  cbn -[encode_i64 in_range]. unfold checked_add_i64, Arithmetic.checked_i64_add.
  rewrite checked_i64_in. by destruct (in_range _).
Qed.
Next Obligation. reflexivity. Qed.
Next Obligation.
  intros a Ha. cbn [is_identity WeightAddV1]. unfold weight_is_identity, weight_dec.
  destruct (parse_weight_ok a Ha) as [(u & -> & _)|(e & -> & _)]; cbn [ok fmap option_fmap option_map];
    [|by rewrite bool_decide_eq_false_2].
  destruct (Z.eqb_spec u 0); [by subst; rewrite bool_decide_eq_true_2|].
  rewrite bool_decide_eq_false_2; [done|by intros [=]].
Qed.
Next Obligation.
  intros a Ha. cbn [inverse WeightAddV1]. unfold weight_inverse, weight_dec, weight_enc.
  destruct (parse_weight_ok a Ha) as [(u & -> & _)|(e & -> & _)]; [|done].
  cbn -[encode_i64 in_range]. unfold checked_neg_i64, Arithmetic.checked_i64_neg.
  replace (u * -1) with (- u) by lia. rewrite checked_i64_in. by destruct (in_range _).
Qed.
Next Obligation. reflexivity. Qed.

#[export] Program Instance SumCountV1_additive : AdditiveLaw SumCountV1 := {
  width := 2;
  enc := sum_count_enc;
  dec := sum_count_dec
}.
Next Obligation. intros v. apply Forall_app_2; apply be_bytes_ok. Qed.
Next Obligation.
  intros [|s [|c [|]]] Hl Hv; try done. unfold i64s in Hv.
  rewrite !List.Forall_cons_iff in Hv. destruct Hv as (Hs & Hc & _).
  unfold sum_count_dec, sum_count_enc. simpl nth. by rewrite parse_encode_sum_count.
Qed.
Next Obligation.
  intros b v Hb. unfold sum_count_dec, sum_count_enc.
  destruct (parse_sum_count_ok b Hb) as [(s & c & -> & Hs & Hc & E)|(e & -> & _)]; simpl; [|done].
  intros [= <-]. split_and!; [done|auto using i64s_cons, i64s_nil|exact E].
Qed.
Next Obligation.
  intros a b Ha Hb. cbn [merge SumCountV1]. unfold sum_count_merge, sum_count_dec, sum_count_enc.
  destruct (parse_sum_count_ok a Ha) as [(u & u' & -> & _)|(e & -> & _)]; [|done].
  destruct (parse_sum_count_ok b Hb) as [(v & v' & -> & _)|(e & -> & _)]; [|done].
  cbn -[encode_sum_count in_range]. unfold checked_add_i64, Arithmetic.checked_i64_add.
  rewrite !checked_i64_in. cbn -[encode_sum_count]. rewrite !andb_true_r.
  by destruct ((_ <=? u + v) && _), ((_ <=? u' + v') && _).
Qed.
Next Obligation. reflexivity. Qed.
Next Obligation.
  intros a Ha. cbn [is_identity SumCountV1]. unfold sum_count_is_identity, sum_count_dec.
  destruct (parse_sum_count_ok a Ha) as [(s & c & -> & _)|(e & -> & _)]; cbn [ok fmap option_fmap option_map];
    [|by rewrite bool_decide_eq_false_2].
  destruct (Z.eqb_spec s 0), (Z.eqb_spec c 0); subst; cbn [andb];
    (by rewrite bool_decide_eq_true_2) || (rewrite bool_decide_eq_false_2; [done|by intros [=]]).
Qed.
Next Obligation.
  intros a Ha. cbn [inverse SumCountV1]. unfold sum_count_inverse, sum_count_dec, sum_count_enc.
  destruct (parse_sum_count_ok a Ha) as [(s & c & -> & _)|(e & -> & _)]; [|done].
  cbn -[encode_sum_count in_range]. unfold checked_neg_i64, Arithmetic.checked_i64_neg.
  replace (s * -1) with (- s) by lia. replace (c * -1) with (- c) by lia.
  rewrite !checked_i64_in. cbn -[encode_sum_count]. rewrite !andb_true_r.
  by destruct ((_ <=? - s) && _), ((_ <=? - c) && _).
Qed.
Next Obligation. reflexivity. Qed.

(* ------------------------------------------------------------------ *)
(** ** Registry and header *)

(** The built-in registry never panics, holds exactly the two laws under their
    ids, and refuses to register either of them again. *)
Lemma with_builtins_spec :
  exists reg, with_builtins = Done reg /\
    (forall i, registry_get reg i =
       if i =? 1 then Some WeightAddV1 else if i =? 2 then Some SumCountV1 else None) /\
    register reg WeightAddV1 = Panic /\ register reg SumCountV1 = Panic.
Proof.
  eexists. split; [reflexivity|]. split; [|by split].
  intros i. unfold registry_get. simpl id.
  destruct (Z.eqb_spec i 1) as [->|]; [done|]. destruct (Z.eqb_spec i 2) as [->|]; [done|].
  rewrite !lookup_insert_ne by done. apply lookup_empty.
Qed.

Lemma header_round_trip h :
  in_u16 (law_id h) -> in_u16 (law_version h) ->
  header_decode (header_encode h) = h /\ Z.of_nat (length (header_encode h)) = WIRE_SIZE.
Proof.
  intros Hi Hv. split; [|unfold header_encode; by rewrite length_app, !length_be_bytes].
  destruct h as [i v]. unfold header_decode, header_encode. cbn [law_id law_version] in *.
  f_equal.
  - change (of_be (be_bytes 2 i) = i). apply of_be_be_bytes_id. rlia.
  - change (of_be (be_bytes 2 v) = v). apply of_be_be_bytes_id. rlia.
Qed.

(* ------------------------------------------------------------------ *)
(** ** The algebra of an additive law *)

(** A grouping of operands: which pairs are merged, in which order. *)
Inductive mtree : Type :=
| Leaf (b : bytes)
| Node (l r : mtree).

Fixpoint leaves (t : mtree) : list bytes :=
  match t with Leaf b => [b] | Node l r => leaves l ++ leaves r end.

Fixpoint run_merges (law : LawBundle) (t : mtree) : result law_error bytes :=
  match t with
  | Leaf b => Ok b
  | Node l r => a ← run_merges law l; b ← run_merges law r; merge law a b
  end.

Lemma ok_Some {E A} (r : result E A) a : ok r = Some a <-> r = Ok a.
Proof. destruct r; simpl; split; congruence. Qed.

Section additive.
Context (law : LawBundle) {A : AdditiveLaw law}.

(** Component [i] of each operand, the slice a caller submits for admission. *)
Definition coords (i : nat) (bs : list bytes) : list Z :=
  (fun b => nth i (default [] (dec law b)) 0) <$> bs.

Definition vsum (vs : list (list Z)) : list Z := foldr vadd (replicate (width law) 0) vs.

Definition operands (bs : list bytes) (vs : list (list Z)) : Prop :=
  Forall2 (fun b v => bytes_ok b /\ dec law b = Some v) bs vs.

Lemma vadd_comm u v : vadd u v = vadd v u.
Proof.
  revert v. induction u as [|x u IH]; intros [|y v]; try done.
  unfold vadd in *. simpl. rewrite IH. f_equal. lia.
Qed.

Lemma vadd_assoc u v w : vadd u (vadd v w) = vadd (vadd u v) w.
Proof.
  revert v w. induction u as [|x u IH]; intros [|y v] [|z w]; try done.
  unfold vadd in *. simpl. rewrite IH. f_equal. lia.
Qed.

Lemma vadd_zero_l n v : length v = n -> vadd (replicate n 0) v = v.
Proof. intros <-. induction v as [|z v IH]; [done|]. unfold vadd in *. simpl. by rewrite IH. Qed.

Lemma vadd_opp v : vadd v (Z.opp <$> v) = replicate (length v) 0.
Proof.
  induction v as [|z v IH]; [done|]. unfold vadd in *. rewrite fmap_cons.
  cbn [zip_with length replicate]. rewrite IH. f_equal. lia.
Qed.

Lemma nth_vadd i u v : length u = length v -> nth i (vadd u v) 0 = nth i u 0 + nth i v 0.
Proof.
  revert i v. induction u as [|x u IH]; intros i [|y v]; try done; [by destruct i|].
  intros [= Hl]. destruct i; simpl; [done|]. by apply IH.
Qed.

Lemma nth_zeros i n : nth i (replicate n 0) 0 = 0.
Proof. revert i. induction n; intros [|i]; simpl; auto. Qed.

Lemma length_vadd u v : length u = length v -> length (vadd u v) = length u.
Proof. intros H. unfold vadd. rewrite length_zip_with. lia. Qed.

Lemma operands_width bs vs : operands bs vs -> Forall (fun v => length v = width law) vs.
Proof.
  induction 1 as [|b v bs vs [Hb Hd]]; constructor; [|done].
  by apply (dec_Some b v).
Qed.

Lemma length_vsum vs : Forall (fun v => length v = width law) vs -> length (vsum vs) = width law.
Proof.
  induction 1 as [|v vs Hv _ IH]; simpl; [apply length_replicate|].
  rewrite length_vadd; lia.
Qed.

Lemma vsum_app us vs :
  Forall (fun v => length v = width law) vs -> vsum (us ++ vs) = vadd (vsum us) (vsum vs).
Proof.
  intros Hv. induction us as [|u us IH]; simpl.
  - by rewrite vadd_zero_l by (by apply length_vsum).
  - by rewrite IH, vadd_assoc.
Qed.

Lemma vsum_perm us vs : us ≡ₚ vs -> vsum us = vsum vs.
Proof.
  induction 1; simpl; [done|congruence| |congruence].
  by rewrite !vadd_assoc, (vadd_comm x y).
Qed.

(** Each component of the total is bounded by the absolute sum of that
    component of the operands. *)
Lemma nth_vsum_bound i bs vs :
  operands bs vs -> Z.abs (nth i (vsum vs) 0) <= abs_sum (coords i bs).
Proof.
  intros H. pose proof (operands_width _ _ H) as Hw.
  induction H as [|b v bs vs [Hb Hd] H IH]; simpl.
  - rewrite nth_zeros. done.
  - inversion_clear Hw as [|? ? Hv Hvs]. rewrite nth_vadd by (rewrite length_vsum; done).
    rewrite Hd. simpl. specialize (IH Hvs). lia.
Qed.

Lemma vsum_i64s bs vs :
  operands bs vs -> (forall i, (i < width law)%nat -> abs_sum (coords i bs) <= i64_max) ->
  i64s (vsum vs).
Proof.
  intros H Hb. apply Forall_lookup. intros i z Hz.
  pose proof (length_vsum vs (operands_width _ _ H)) as Hl.
  pose proof (lookup_lt_Some _ _ _ Hz) as Hi. rewrite Hl in Hi.
  apply (nth_lookup_Some _ _ 0) in Hz. subst z.
  pose proof (nth_vsum_bound i bs vs H). specialize (Hb i Hi). rlia.
Qed.

(** Any grouping of operands whose components are within the budget succeeds
    with the componentwise sum. *)
Lemma run_merges_sum t vs :
  operands (leaves t) vs ->
  (forall i, (i < width law)%nat -> abs_sum (coords i (leaves t)) <= i64_max) ->
  run_merges law t = Ok (enc law (vsum vs)).
Proof.
  revert vs. induction t as [b|l IHl r IHr]; intros vs H Hb; cbn [leaves run_merges] in *.
  - apply Forall2_cons_inv_l in H as (v & ? & [Hok Hd] & ->%Forall2_nil_inv_l & ->).
    destruct (dec_Some b v Hok Hd) as (Hw & _ & ->). simpl.
    rewrite vadd_comm, vadd_zero_l by done. done.
  - apply Forall2_app_inv_l in H as (us & ws & Hl & Hr & ->).
    assert (forall i, (i < width law)%nat ->
      abs_sum (coords i (leaves l)) <= i64_max /\ abs_sum (coords i (leaves r)) <= i64_max) as Hs.
    { intros i Hi. specialize (Hb i Hi). unfold coords in *.
      rewrite fmap_app, abs_sum_app in Hb.
      pose proof (abs_sum_nonneg (coords i (leaves l))).
      pose proof (abs_sum_nonneg (coords i (leaves r))). unfold coords in *. lia. }
    rewrite (IHl us Hl), (IHr ws Hr) by (intros; by apply Hs).
    cbn [mbind result_bind]. apply ok_Some. rewrite merge_dec by apply enc_ok.
    rewrite !dec_enc; [|by eapply length_vsum, operands_width
      |by eapply vsum_i64s; [done|intros; by apply Hs]
      |by eapply length_vsum, operands_width
      |by eapply vsum_i64s; [done|intros; by apply Hs]].
    cbn [mbind option_bind]. rewrite <-vsum_app by (by eapply operands_width).
    rewrite (proj2 (in_range_spec (vsum (us ++ ws)))); [done|].
    apply (vsum_i64s (leaves l ++ leaves r)); [by apply Forall2_app|done].
Qed.

Lemma coords_i64s i bs vs : operands bs vs -> i64s (coords i bs).
Proof.
  induction 1 as [|b v bs vs [Hb Hd] H IH]; [constructor|]. constructor; [|done].
  rewrite Hd. simpl. destruct (dec_Some b v Hb Hd) as (_ & Hv & _).
  destruct (nth_in_or_default i v 0) as [Hin| ->]; [|rlia].
  unfold i64s in Hv. rewrite List.Forall_forall in Hv. by apply Hv.
Qed.

Definition values (bs : list bytes) : list (list Z) := default [] ∘ dec law <$> bs.

Definition operand_ok (b : bytes) : Prop := bytes_ok b /\ is_Some (dec law b).

Lemma operands_values bs : Forall operand_ok bs -> operands bs (values bs).
Proof.
  induction 1 as [|b bs [Hb [v Hv]] _ IH]; constructor; [|done].
  simpl. by rewrite Hv.
Qed.

(** Free regrouping is sound inside the admitted budget: if every operand
    is a value of the law and the law admits each component's operands for
    reassociation, then any two groupings of these operands, in any order,
    both succeed and give the same bytes, the encoding of the componentwise
    sum.  So shards and compaction may combine partial states as they like. *)
Theorem regrouping_sound (t1 t2 : mtree) :
  leaves t1 ≡ₚ leaves t2 ->
  Forall operand_ok (leaves t1) ->
  Z.of_nat (length (leaves t1)) <= usize_max ->
  (forall i, (i < width law)%nat -> admits_reassociation law (coords i (leaves t1)) = true) ->
  run_merges law t1 = Ok (enc law (vsum (values (leaves t1)))) /\
  run_merges law t2 = run_merges law t1.
Proof.
  intros Hp Hok Hlen Hadm. pose proof (operands_values _ Hok) as Ho.
  assert (forall i, (i < width law)%nat -> abs_sum (coords i (leaves t1)) <= i64_max) as Hb.
  { intros i Hi. specialize (Hadm i Hi). rewrite admits_dec, admit_spec in Hadm; [lia| |].
    - by eapply coords_i64s.
    - unfold coords. by rewrite length_fmap. }
  assert (forall i, coords i (leaves t1) ≡ₚ coords i (leaves t2)) as Hc
    by (intros; by apply fmap_Permutation).
  rewrite (run_merges_sum t1 _ Ho Hb). split; [done|].
  rewrite (run_merges_sum t2 (values (leaves t2))).
  - f_equal. f_equal. symmetry. by apply vsum_perm, fmap_Permutation.
  - apply operands_values. by rewrite <-Hp.
  - intros i Hi. rewrite <-(abs_sum_perm _ _ (Hc i)). by apply Hb.
Qed.

Lemma inverse_merges a a' :
  bytes_ok a -> (u ← dec law a; if in_range (Z.opp <$> u) then Some (enc law (Z.opp <$> u)) else None) = Some a' ->
  merge law a a' = Ok (enc law (replicate (width law) 0)).
Proof.
  intros Ha. destruct (dec law a) as [v|] eqn:Hv; [|done]. cbn [mbind option_bind].
  destruct (in_range (Z.opp <$> v)) eqn:Hr; [|done]. intros [= <-].
  destruct (dec_Some a v Ha Hv) as (Hl & Hi & He). apply in_range_spec in Hr.
  apply ok_Some. rewrite merge_dec, Hv, dec_enc by (done || apply enc_ok || by rewrite length_fmap).
  cbn [mbind option_bind]. rewrite vadd_opp, Hl.
  by rewrite (proj2 (in_range_spec _)) by (apply Forall_replicate; rlia).
Qed.

Lemma in_range_opp v : i64s v -> in_range (Z.opp <$> v) = true <-> ~ i64_min ∈ v.
Proof.
  intros Hv. rewrite in_range_spec, list_elem_of_In. unfold i64s in *. rewrite Forall_fmap, !Forall_forall in *.
  split.
  - intros H Hin. specialize (H _ Hin). simpl in H. rlia.
  - intros H z Hz. specialize (Hv z Hz). simpl.
    assert (z <> i64_min) by (intros ->; done). rlia.
Qed.

(** An additive law is an abelian group on its values, executed on bytes:
    merging commutes (also in whether it fails), the identity element is
    neutral and is the only value [is_identity] accepts, and the inverse of a
    value, when it exists, merges with it to the identity; it fails to exist
    exactly when some component is [i64::MIN]. *)
Theorem additive_law_group (a b : bytes) :
  bytes_ok a -> bytes_ok b ->
  ok (merge law a b) = ok (merge law b a) /\
  exists e, identity law = Some e /\
    (is_identity law a = true <-> a = e) /\
    (operand_ok a -> merge law a e = Ok a) /\
    (forall a', inverse law a = Ok a' -> merge law a a' = Ok e) /\
    (forall v, dec law a = Some v ->
       (is_Some (ok (inverse law a)) <-> ~ i64_min ∈ v)).
Proof.
  intros Ha Hb. split.
  { rewrite !merge_dec by done. destruct (dec law a), (dec law b); simpl; try done.
    by rewrite vadd_comm. }
  exists (enc law (replicate (width law) 0)). split; [apply identity_enc|].
  assert (i64s (replicate (width law) 0)) as Hz by (apply Forall_replicate; rlia).
  assert (dec law (enc law (replicate (width law) 0)) = Some (replicate (width law) 0)) as Hdz
    by (apply dec_enc; [apply length_replicate|done]).
  split_and!.
  - rewrite is_identity_dec, bool_decide_eq_true by done. split; [|by intros ->].
    intros Hd. by apply dec_Some in Hd as (_ & _ & ->).
  - intros [_ [v Hv]]. destruct (dec_Some a v Ha Hv) as (Hl & Hi & He).
    apply ok_Some. rewrite merge_dec, Hv, Hdz by (done || apply enc_ok). simpl.
    rewrite vadd_comm, vadd_zero_l by done.
    by rewrite (proj2 (in_range_spec v) Hi), <-He.
  - intros a' Hinv%ok_Some. apply inverse_merges; [done..|].
    rewrite inverse_dec in Hinv; done.
  - intros v Hv. rewrite inverse_dec, Hv by done. cbn [mbind option_bind].
    rewrite <-(in_range_opp v) by (by apply (dec_Some a v)).
    destruct (in_range _); split; done.
Qed.
End additive.

Lemma regrouping_sound_witness :
  let a := encode_sum_count 5 1 in
  let b := encode_sum_count (-9) 1 in
  let c := encode_sum_count 7 (-1) in
  run_merges SumCountV1 (Node (Leaf a) (Node (Leaf b) (Leaf c))) = Ok (encode_sum_count 3 1) /\
  run_merges SumCountV1 (Node (Node (Leaf c) (Leaf a)) (Leaf b)) =
  run_merges SumCountV1 (Node (Leaf a) (Node (Leaf b) (Leaf c))).
Proof.
  split; [vm_compute; reflexivity|].
  apply (regrouping_sound SumCountV1
    (Node (Leaf (encode_sum_count 5 1))
       (Node (Leaf (encode_sum_count (-9) 1)) (Leaf (encode_sum_count 7 (-1)))))
    (Node (Node (Leaf (encode_sum_count 7 (-1))) (Leaf (encode_sum_count 5 1)))
       (Leaf (encode_sum_count (-9) 1)))).
  - cbn [leaves app]. symmetry. etrans; [apply Permutation_swap|].
    apply Permutation_skip, Permutation_swap.
  - cbn [leaves app]. repeat apply Forall_cons_2; [..|apply Forall_nil_2];
      (split; [apply Forall_app_2; apply be_bytes_ok|eexists; vm_compute; reflexivity]).
  - vm_compute. discriminate.
  - intros [|[|i]] Hi; [vm_compute; reflexivity..|]. cbn in Hi. lia.
Defined.

