(* ===== verification/MergeOps.v ===== *)
(** * Storage merge operator ([rockstream-storage/src/merge_registry.rs])

    The tagged operands that the store merges on its own during reads and
    compaction, and the resolution of a stored operand against a merge law
    ([resolve_law_operand], [is_valid_law_operand] of shard_db.rs).  The operator
    is refined to a partial join on abstract values. *)
From Stdlib Require Import Ascii String ZArith Lia ZifyBool.
From stdpp Require Import base tactics list strings numbers option.
From S2P Require Import Prelude Kernels Laws.
Local Open Scope Z_scope.

(* ------------------------------------------------------------------ *)
(** ** Tags *)

Inductive MergeTag : Type :=
| TSum | TCount | TMaxRegister | TMinRegister | TLWWRegister | TPNCounter.

#[export] Instance MergeTag_eq_dec : EqDecision MergeTag.
Proof. solve_decision. Defined.

(** [self as u8] *)
Definition tag_byte (t : MergeTag) : Z :=
  match t with
  | TSum => 0x01 | TCount => 0x02 | TMaxRegister => 0x03 | TMinRegister => 0x04
  | TLWWRegister => 0x22 | TPNCounter => 0x30
  end.

Definition from_u8 (tag : Z) : option MergeTag :=
  if tag =? 0x01 then Some TSum
  else if tag =? 0x02 then Some TCount
  else if tag =? 0x03 then Some TMaxRegister
  else if tag =? 0x04 then Some TMinRegister
  else if tag =? 0x22 then Some TLWWRegister
  else if tag =? 0x30 then Some TPNCounter
  else None.

Definition payload_len (t : MergeTag) : Z :=
  match t with TLWWRegister => 16 | _ => 8 end.

Definition tag_expected_len (t : MergeTag) : Z := 1 + payload_len t.

(** [name.split('/').next()]: the text before the first slash. *)
Fixpoint base_name (s : string) : string :=
  match s with
  | EmptyString => EmptyString
  | String c s' => if Ascii.eqb c "/" then EmptyString else String c (base_name s')
  end.

Definition to_ascii_lowercase (c : ascii) : ascii :=
  let n := nat_of_ascii c in
  if ((65 <=? n) && (n <=? 90))%nat then ascii_of_nat (n + 32) else c.

Fixpoint eq_ignore_ascii_case (s t : string) : bool :=
  match s, t with
  | EmptyString, EmptyString => true
  | String c s', String d t' =>
      Ascii.eqb (to_ascii_lowercase c) (to_ascii_lowercase d) && eq_ignore_ascii_case s' t'
  | _, _ => false
  end.

Definition is_compatible_with_law (t : MergeTag) (law : LawBundle) : bool :=
  let i := id law in
  let base := base_name (name law) in
  match t with
  | TSum =>
      (i =? 0x0001) || eq_ignore_ascii_case base "WeightAdd" || eq_ignore_ascii_case base "Sum"
  | TPNCounter =>
      (i =? 0x0001) || (i =? 10) || (i =? 0x0030)
      || eq_ignore_ascii_case base "WeightAdd" || eq_ignore_ascii_case base "Sum"
      || eq_ignore_ascii_case base "PNCounter" || eq_ignore_ascii_case base "PN-Counter"
  | TCount =>
      (i =? 0x0002) || eq_ignore_ascii_case base "Count" || eq_ignore_ascii_case base "SumCount"
  | TMaxRegister =>
      (i =? 0x0003) || (i =? 11) || (i =? 0x1001)
      || eq_ignore_ascii_case base "MaxRegister" || eq_ignore_ascii_case base "Max"
  | TMinRegister =>
      (i =? 0x0004) || eq_ignore_ascii_case base "MinRegister" || eq_ignore_ascii_case base "Min"
  | TLWWRegister =>
      (i =? 0x0022) || eq_ignore_ascii_case base "LWWRegister" || eq_ignore_ascii_case base "LWW"
  end.

(* ------------------------------------------------------------------ *)
(** ** Resolving a stored operand against a law *)

Inductive LawOperandView : Type :=
| Raw (b : bytes)
| Tagged (tag : MergeTag) (payload : bytes).

Inductive LawOperandError : Type :=
| IncompatibleTag (tag : MergeTag) (law_name : string) (law_id : Z)
| MalformedTaggedLength (tag : MergeTag) (expected actual : Z).

Definition resolve_law_operand (law : LawBundle) (b : bytes)
    : result LawOperandError LawOperandView :=
  match b with
  | [] => Ok (Raw b)
  | first :: rest =>
      match from_u8 first with
      | None => Ok (Raw b)
      | Some tag =>
          let len := Z.of_nat (length b) in
          if len =? tag_expected_len tag then
            if is_compatible_with_law tag law then Ok (Tagged tag rest)
            else Err (IncompatibleTag tag (name law) (id law))
          else if is_compatible_with_law tag law then
            if len =? payload_len tag then Ok (Raw b)
            else Err (MalformedTaggedLength tag (tag_expected_len tag) len)
          else
            let expected_raw := (fun i => Z.of_nat (length i)) <$> identity law in
            if bool_decide (expected_raw = Some len) then Ok (Raw b)
            else Err (IncompatibleTag tag (name law) (id law))
      end
  end.

(** shard_db.rs *)
Definition is_valid_law_operand (law : LawBundle) (b : bytes) : bool :=
  match resolve_law_operand law b with
  | Err _ => false
  | Ok view =>
      let payload := match view with Raw raw => raw | Tagged _ payload => payload end in
      if is_identity law payload then true
      else
        match identity law with
        | Some i => bool_decide (is_Some (ok (merge law payload i)))
        | None => bool_decide (is_Some (ok (merge law payload payload)))
        end
  end.

(* ------------------------------------------------------------------ *)
(** ** The merge operator *)

Inductive MergeOperatorError : Type :=
| EmptyOperand
| UnknownTag
| WidthMismatch (expected actual : Z)
| TagMismatch
| MalformedOperand
| ArithmeticOverflow.

Definition expected_len (tag : Z) : option Z := tag_expected_len <$> from_u8 tag.

Definition validate_operand (value : bytes) : result MergeOperatorError Z :=
  match value with
  | [] => Err EmptyOperand
  | tag :: _ =>
      match expected_len tag with
      | None => Err UnknownTag
      | Some expected =>
          if negb (Z.of_nat (length value) =? expected)
          then Err (WidthMismatch expected (Z.of_nat (length value)))
          else Ok tag
      end
  end.

Definition malformed_arithmetic (_ : ArithmeticError) : MergeOperatorError := MalformedOperand.
Definition arithmetic_overflow (_ : ArithmeticError) : MergeOperatorError := ArithmeticOverflow.

Definition operator_merge (existing_value : option bytes) (value : bytes)
    : result MergeOperatorError bytes :=
  value_tag ← validate_operand value;
  match existing_value with
  | None => Ok value
  | Some existing =>
      tag ← validate_operand existing;
      if negb (tag =? value_tag) then Err TagMismatch
      else if tag =? tag_byte TSum then
        a ← map_err malformed_arithmetic (decode_i64 (drop 1 existing));
        b ← map_err malformed_arithmetic (decode_i64 (drop 1 value));
        r ← map_err arithmetic_overflow (checked_add_i64 a b);
        Ok ([tag_byte TSum] ++ encode_i64 r)
      else if tag =? tag_byte TCount then
        a ← map_err malformed_arithmetic (decode_u64 (drop 1 existing));
        b ← map_err malformed_arithmetic (decode_u64 (drop 1 value));
        r ← map_err arithmetic_overflow (checked_add_u64 a b);
        Ok ([tag_byte TCount] ++ encode_u64 r)
      else if tag =? tag_byte TMaxRegister then
        a ← map_err malformed_arithmetic (decode_i64 (drop 1 existing));
        b ← map_err malformed_arithmetic (decode_i64 (drop 1 value));
        Ok ([tag_byte TMaxRegister] ++ encode_i64 (Z.max a b))
      else if tag =? tag_byte TMinRegister then
        a ← map_err malformed_arithmetic (decode_i64 (drop 1 existing));
        b ← map_err malformed_arithmetic (decode_i64 (drop 1 value));
        Ok ([tag_byte TMinRegister] ++ encode_i64 (Z.min a b))
      else if tag =? tag_byte TPNCounter then
        a ← map_err malformed_arithmetic (decode_i64 (drop 1 existing));
        b ← map_err malformed_arithmetic (decode_i64 (drop 1 value));
        r ← map_err arithmetic_overflow (checked_add_i64 a b);
        Ok ([tag_byte TPNCounter] ++ encode_i64 r)
      else if tag =? tag_byte TLWWRegister then
        ts_a ← map_err malformed_arithmetic (decode_u64 (take 8 (drop 1 existing)));
        val_a ← map_err malformed_arithmetic (decode_i64 (drop 9 existing));
        ts_b ← map_err malformed_arithmetic (decode_u64 (take 8 (drop 1 value)));
        val_b ← map_err malformed_arithmetic (decode_i64 (drop 9 value));
        let '(ts_res, val_res) :=
          if ts_a <? ts_b then (ts_b, val_b)
          else if ts_b <? ts_a then (ts_a, val_a)
          else (ts_a, Z.max val_a val_b) in
        Ok ([tag_byte TLWWRegister] ++ encode_u64 ts_res ++ encode_i64 val_res)
      else Err UnknownTag
  end.

Definition encode_sum (value : Z) : bytes := [tag_byte TSum] ++ encode_i64 value.
Definition encode_count (value : Z) : bytes := [tag_byte TCount] ++ encode_u64 value.
Definition encode_max (value : Z) : bytes := [tag_byte TMaxRegister] ++ encode_i64 value.
Definition encode_min (value : Z) : bytes := [tag_byte TMinRegister] ++ encode_i64 value.
Definition encode_pn_counter (value : Z) : bytes := [tag_byte TPNCounter] ++ encode_i64 value.
Definition encode_lww_register (ts value : Z) : bytes :=
  [tag_byte TLWWRegister] ++ encode_u64 ts ++ encode_i64 value.

(** The shared shape of the five 9-byte decoders. *)
Definition decode_tagged {A} (t : MergeTag) (d : bytes -> result ArithmeticError A)
    (data : bytes) : option A :=
  if negb (Z.of_nat (length data) =? 9) || negb (nth 0 data 0 =? tag_byte t) then None
  else ok (d (drop 1 data)).

Definition decode_sum : bytes -> option Z := decode_tagged TSum decode_i64.
Definition decode_count : bytes -> option Z := decode_tagged TCount decode_u64.
Definition decode_max : bytes -> option Z := decode_tagged TMaxRegister decode_i64.
Definition decode_min : bytes -> option Z := decode_tagged TMinRegister decode_i64.
Definition decode_pn_counter : bytes -> option Z := decode_tagged TPNCounter decode_i64.

Definition decode_lww_register (data : bytes) : option (Z * Z) :=
  if negb (Z.of_nat (length data) =? 17) || negb (nth 0 data 0 =? tag_byte TLWWRegister)
  then None
  else
    ts ← ok (decode_u64 (take 8 (drop 1 data)));
    val ← ok (decode_i64 (drop 9 data));
    Some (ts, val).

(* ------------------------------------------------------------------ *)
(** ** Abstract values and their join *)

Inductive value : Type :=
| VSum (z : Z) | VCount (n : Z) | VMax (z : Z) | VMin (z : Z) | VPN (z : Z)
| VLww (ts v : Z).

Definition value_ok (x : value) : Prop :=
  match x with
  | VSum z | VMax z | VMin z | VPN z => in_i64 z
  | VCount n => in_u64 n
  | VLww ts v => in_u64 ts /\ in_i64 v
  end.

Definition value_bytes (x : value) : bytes :=
  match x with
  | VSum z => encode_sum z
  | VCount n => encode_count n
  | VMax z => encode_max z
  | VMin z => encode_min z
  | VPN z => encode_pn_counter z
  | VLww ts v => encode_lww_register ts v
  end.

(** What merging means: addition within the range, maximum, minimum, and the
    lexicographic maximum of timestamp and value. *)
Definition join (x y : value) : option value :=
  match x, y with
  | VSum a, VSum b => VSum <$> checked_i64 (a + b)
  | VCount a, VCount b => VCount <$> checked_u64 (a + b)
  | VMax a, VMax b => Some (VMax (Z.max a b))
  | VMin a, VMin b => Some (VMin (Z.min a b))
  | VPN a, VPN b => VPN <$> checked_i64 (a + b)
  | VLww s a, VLww t b =>
      Some (if t <? s then VLww s a else if s <? t then VLww t b else VLww s (Z.max a b))
  | _, _ => None
  end.

Definition value_tag (x : value) : MergeTag :=
  match x with
  | VSum _ => TSum | VCount _ => TCount | VMax _ => TMaxRegister | VMin _ => TMinRegister
  | VPN _ => TPNCounter | VLww _ _ => TLWWRegister
  end.

(** The payload of an abstract value, and reading one back. *)
Definition payload (x : value) : bytes :=
  match x with
  | VSum z | VMax z | VMin z | VPN z => encode_i64 z
  | VCount n => encode_u64 n
  | VLww ts v => encode_u64 ts ++ encode_i64 v
  end.

Definition payload_value (t : MergeTag) (p : bytes) : option value :=
  match t with
  | TSum => VSum <$> ok (decode_i64 p)
  | TCount => VCount <$> ok (decode_u64 p)
  | TMaxRegister => VMax <$> ok (decode_i64 p)
  | TMinRegister => VMin <$> ok (decode_i64 p)
  | TPNCounter => VPN <$> ok (decode_i64 p)
  | TLWWRegister =>
      ts ← ok (decode_u64 (take 8 p)); v ← ok (decode_i64 (drop 8 p)); Some (VLww ts v)
  end.

Definition value_of (b : bytes) : option value :=
  match validate_operand b with
  | Ok _ => tag ← from_u8 (nth 0 b 0); payload_value tag (drop 1 b)
  | Err _ => None
  end.

Lemma decode_u64_ok b :
  bytes_ok b -> length b = 8%nat ->
  exists z, decode_u64 b = Ok z /\ in_u64 z /\ b = encode_u64 z.
Proof.
  intros Hb Hl. unfold decode_u64. rewrite Codecs.decode_u64_be_spec, Hl by done.
  cbn [Nat.eqb ok_or]. pose proof (of_be_range b Hb) as Hr. rewrite Hl in Hr.
  eexists; split_and!; [done|rlia|rlia|].
  unfold encode_u64. rewrite <-Hl. by rewrite be_bytes_of_be.
Qed.

Lemma length_encode_u64 z : length (encode_u64 z) = 8%nat.
Proof. apply length_be_bytes. Qed.

Lemma from_u8_Some t tag : from_u8 t = Some tag <-> t = tag_byte tag.
Proof.
  split; [|intros ->; by destruct tag].
  unfold from_u8. repeat case_match; intros [= <-]; simpl; lia.
Qed.

Lemma value_bytes_payload x : value_bytes x = tag_byte (value_tag x) :: payload x.
Proof. by destruct x. Qed.

Lemma length_payload x : Z.of_nat (length (payload x)) = payload_len (value_tag x).
Proof.
  destruct x; cbn [payload value_tag payload_len];
    rewrite ?length_app, ?length_encode_i64, ?length_encode_u64; done.
Qed.

Lemma validate_value x : validate_operand (value_bytes x) = Ok (tag_byte (value_tag x)).
Proof.
  rewrite value_bytes_payload. unfold validate_operand, expected_len.
  rewrite (proj2 (from_u8_Some _ (value_tag x)) eq_refl). cbn [fmap option_fmap option_map].
  cbn [length]. unfold tag_expected_len. rewrite Nat2Z.inj_succ, length_payload.
  replace (_ =? _) with true by lia. done.
Qed.

Lemma split_lww ts v :
  take 8 (encode_u64 ts ++ encode_i64 v) = encode_u64 ts /\
  drop 8 (encode_u64 ts ++ encode_i64 v) = encode_i64 v.
Proof. by rewrite take_app_length', drop_app_length' by (by rewrite length_encode_u64). Qed.

Lemma payload_value_payload x : value_ok x -> payload_value (value_tag x) (payload x) = Some x.
Proof.
  destruct x as [z|n|z|z|z|ts v]; intros Hx; cbn [payload value_tag payload_value];
    try (by rewrite ?decode_encode_i64, ?decode_encode_u64).
  destruct (split_lww ts v) as [-> ->], Hx.
  by rewrite decode_encode_u64, decode_encode_i64.
Qed.

Lemma value_of_bytes x : value_ok x -> value_of (value_bytes x) = Some x.
Proof.
  intros Hx. unfold value_of. rewrite validate_value, value_bytes_payload. cbn [nth drop].
  rewrite (proj2 (from_u8_Some _ (value_tag x)) eq_refl). by apply payload_value_payload.
Qed.

(** A well-formed operand is one of the abstract values. *)
Lemma value_of_cases b :
  bytes_ok b ->
  (exists x, value_ok x /\ b = value_bytes x) \/
  (value_of b = None /\ exists e, validate_operand b = Err e).
Proof.
  intros Hb. unfold value_of, validate_operand, expected_len.
  destruct b as [|t p]; [right; eauto|].
  destruct (from_u8 t) as [tag|] eqn:Ht; cbn [fmap option_fmap option_map]; [|right; eauto].
  destruct (Z.eqb_spec (Z.of_nat (length (t :: p))) (tag_expected_len tag)) as [Hl|Hl];
    cbn [negb]; [|right; eauto].
  apply from_u8_Some in Ht as ->. left. cbn [length] in Hl.
  inversion_clear Hb as [|? ? _ Hp]. unfold tag_expected_len, payload_len in Hl.
  pose proof (decode_i64_ok p Hp) as Di. pose proof (decode_u64_ok p Hp) as Du.
  destruct tag.
  - destruct Di as (z & _ & ? & ->); [lia|]. by exists (VSum z).
  - destruct Du as (z & _ & ? & ->); [lia|]. by exists (VCount z).
  - destruct Di as (z & _ & ? & ->); [lia|]. by exists (VMax z).
  - destruct Di as (z & _ & ? & ->); [lia|]. by exists (VMin z).
  - destruct (decode_u64_ok (take 8 p)) as (ts & _ & ? & Ets);
      [by apply Forall_take|rewrite length_take; lia|].
    destruct (decode_i64_ok (drop 8 p)) as (v & _ & ? & Ev);
      [by apply Forall_drop|rewrite length_drop; lia|].
    exists (VLww ts v). split; [done|].
    cbn [value_bytes]. unfold encode_lww_register. by rewrite <-Ets, <-Ev, take_drop.
  - destruct Di as (z & _ & ? & ->); [lia|]. by exists (VPN z).
Qed.

(** On the encodings of abstract values the operator is the join. *)
Lemma operator_merge_values x y :
  value_ok x -> value_ok y ->
  ok (operator_merge (Some (value_bytes x)) (value_bytes y)) = value_bytes <$> join x y.
Proof.
  intros Hx Hy. unfold operator_merge. rewrite validate_value. cbn [mbind result_bind].
  rewrite validate_value. cbn [mbind result_bind]. rewrite !value_bytes_payload.
  destruct x as [a|a|a|a|a|s a], y as [b|b|b|b|b|t b]; try reflexivity;
    cbn [value_tag tag_byte negb Z.eqb Pos.eqb drop payload value_ok] in *;
    rewrite ?drop_0.
  1-5: rewrite ?decode_encode_i64, ?decode_encode_u64 by done;
       cbn [map_err mbind result_bind join];
       unfold checked_add_i64, checked_add_u64, Arithmetic.checked_i64_add,
         Arithmetic.checked_u64_add; try (by destruct (checked _ _ _)); done.
  destruct (split_lww s a) as [-> ->], (split_lww t b) as [-> ->], Hx, Hy.
  rewrite !decode_encode_i64, !decode_encode_u64 by done. cbn [map_err mbind result_bind join].
  destruct (Z.ltb_spec t s), (Z.ltb_spec s t); done || lia.
Qed.

Lemma operator_merge_spec e v :
  bytes_ok e -> bytes_ok v ->
  ok (operator_merge (Some e) v) =
  (x ← value_of e; y ← value_of v; value_bytes <$> join x y).
Proof.
  intros He Hv.
  destruct (value_of_cases v Hv) as [(y & Hy & ->)|[Nv [er Ev]]].
  - destruct (value_of_cases e He) as [(x & Hx & ->)|[Ne [er Ee]]].
    + rewrite !value_of_bytes, operator_merge_values by done. done.
    + rewrite Ne. unfold operator_merge. rewrite validate_value. cbn [mbind result_bind].
      by rewrite Ee.
  - unfold operator_merge. rewrite Ev, Nv. by destruct (value_of e).
Qed.

Lemma value_bytes_ok x : bytes_ok (value_bytes x).
Proof.
  rewrite value_bytes_payload. constructor; [destruct x; by split|].
  destruct x; try apply be_bytes_ok. apply Forall_app_2; apply be_bytes_ok.
Qed.

Lemma join_ok x y z : value_ok x -> value_ok y -> join x y = Some z -> value_ok z.
Proof.
  destruct x, y; cbn [join value_ok]; try done; intros ??.
  - destruct (checked _ _ _) eqn:E; [|done]. apply checked_Some in E as [-> ?]. by intros [= <-].
  - destruct (checked _ _ _) eqn:E; [|done]. apply checked_Some in E as [-> ?]. by intros [= <-].
  - intros [= <-]. simpl. lia.
  - intros [= <-]. simpl. lia.
  - destruct (checked _ _ _) eqn:E; [|done]. apply checked_Some in E as [-> ?]. by intros [= <-].
  - intros [= <-]. repeat case_match; simpl; lia.
Qed.

Lemma join_comm x y : join x y = join y x.
Proof.
  destruct x, y; cbn [join]; try done; rewrite ?(Z.add_comm z), ?(Z.add_comm n); try done.
  - f_equal. f_equal. lia.
  - f_equal. f_equal. lia.
  - f_equal. destruct (Z.ltb_spec ts0 ts), (Z.ltb_spec ts ts0); f_equal; lia.
Qed.

(** Signed counters can overflow in one grouping and not in the other. *)
Definition is_signed_counter (x : value) : bool :=
  match x with VSum _ | VPN _ => true | _ => false end.

Definition join3l (x y z : value) : option value := xy ← join x y; join xy z.
Definition join3r (x y z : value) : option value := yz ← join y z; join x yz.

Lemma checked_assoc lo hi a b c :
  (t ← checked lo hi (a + b); checked lo hi (t + c)) = None \/
  (t ← checked lo hi (b + c); checked lo hi (a + t)) = None \/
  (t ← checked lo hi (a + b); checked lo hi (t + c)) =
  (t ← checked lo hi (b + c); checked lo hi (a + t)).
Proof.
  destruct (checked lo hi (a + b)) as [ab|] eqn:E1; [|by left].
  destruct (checked lo hi (b + c)) as [bc|] eqn:E2; [|right; by left].
  apply checked_Some in E1 as [-> _], E2 as [-> _]. right; right. simpl. f_equal. lia.
Qed.

(** Two groupings of three counters agree when both stay in range. *)
Ltac counter_groupings lo hi a b c :=
  let H := fresh in
  pose proof (checked_assoc lo hi a b c) as H;
  destruct (checked lo hi (a + b)), (checked lo hi (b + c)); simpl in *; try tauto;
  destruct H as [H|[H|H]]; rewrite H; simpl; tauto.

(** The last-writer-wins register is the lexicographic maximum. *)
Definition lww_max (p q : Z * Z) : Z * Z :=
  if q.1 <? p.1 then p else if p.1 <? q.1 then q else (p.1, Z.max p.2 q.2).

Lemma lww_max_assoc p q r : lww_max (lww_max p q) r = lww_max p (lww_max q r).
Proof.
  destruct p as [s a], q as [t b], r as [u c]. unfold lww_max. cbn [fst snd].
  destruct (Z.ltb_spec t s), (Z.ltb_spec s t), (Z.ltb_spec u t), (Z.ltb_spec t u);
    try lia; cbn [fst snd];
    destruct (Z.ltb_spec u s), (Z.ltb_spec s u); try lia;
    repeat match goal with
    | |- context [?x <? ?y] => destruct (Z.ltb_spec x y); try lia
    end; f_equal; lia.
Qed.

Lemma join_lww s a t b :
  join (VLww s a) (VLww t b) = Some (uncurry VLww (lww_max (s, a) (t, b))).
Proof. unfold lww_max. simpl. by repeat case_match. Qed.

Lemma join3_agree x y z :
  join3l x y z = None \/ join3r x y z = None \/ join3l x y z = join3r x y z.
Proof.
  unfold join3l, join3r.
  destruct x as [a|a|a|a|a|s a], y as [b|b|b|b|b|t b], z as [c|c|c|c|c|u c];
    cbn [join mbind option_bind]; try tauto;
    try (destruct (checked _ _ _); simpl; tauto).
  - counter_groupings i64_min i64_max a b c.
  - counter_groupings 0 u64_max a b c.
  - do 2 right. f_equal. f_equal. lia.
  - do 2 right. f_equal. f_equal. lia.
  - counter_groupings i64_min i64_max a b c.
  - do 2 right. change (join3l (VLww s a) (VLww t b) (VLww u c)
                        = join3r (VLww s a) (VLww t b) (VLww u c)).
    unfold join3l, join3r. rewrite !join_lww. cbn [mbind option_bind].
    pose proof (lww_max_assoc (s, a) (t, b) (u, c)) as H. revert H.
    destruct (lww_max (s, a) (t, b)), (lww_max (t, b) (u, c)). cbn [uncurry].
    rewrite !join_lww. by intros ->.
Qed.

(** A sum of naturals is in range in every grouping or in none. *)
Lemma checked_add3 hi a b c :
  0 <= a -> 0 <= b -> 0 <= c ->
  (t ← checked 0 hi (a + b); checked 0 hi (t + c)) = checked 0 hi (a + b + c) /\
  (t ← checked 0 hi (b + c); checked 0 hi (a + t)) = checked 0 hi (a + b + c).
Proof.
  intros. split.
  - destruct (checked 0 hi (a + b)) eqn:E; simpl.
    + by apply checked_Some in E as [-> _].
    + apply checked_None in E. symmetry. apply checked_None. lia.
  - destruct (checked 0 hi (b + c)) eqn:E; simpl.
    + apply checked_Some in E as [-> _]. f_equal. lia.
    + apply checked_None in E. symmetry. apply checked_None. lia.
Qed.

(** Without signed counters a grouping fails only by mixing tags or by
    exceeding the total, which no grouping avoids. *)
Lemma join3_defined x y z :
  is_signed_counter x = false -> value_ok x -> value_ok y -> value_ok z ->
  is_Some (join3l x y z) <-> is_Some (join3r x y z).
Proof.
  intros Hs Hx Hy Hz. unfold join3l, join3r.
  destruct x as [a|a|a|a|a|s a], y as [b|b|b|b|b|t b], z as [c|c|c|c|c|u c]; try done;
    cbn [join mbind option_bind];
    repeat match goal with |- context [?p <? ?q] => destruct (p <? q) end;
    try (solve [split; intros [? Hq]; (discriminate Hq || (eexists; reflexivity))]);
    try (solve [destruct (checked _ _ _); split; intros [? Hq]; discriminate Hq]).
  cbn [value_ok] in *. pose proof (checked_add3 u64_max a b c) as [Hl Hr]; [lia..|].
  enough (join3l (VCount a) (VCount b) (VCount c) = join3r (VCount a) (VCount b) (VCount c)) as E.
  { unfold join3l, join3r in E. cbn [join] in E. by rewrite E. }
  transitivity (VCount <$> checked 0 u64_max (a + b + c)).
  - rewrite <-Hl. unfold join3l. simpl. by destruct (checked 0 u64_max (a + b)).
  - rewrite <-Hr. unfold join3r. simpl. by destruct (checked 0 u64_max (b + c)).
Qed.

(** C30: The store's merge operator computes the join of the abstract values:
    with an existing operand it succeeds exactly when both operands are
    well-formed encodings (known tag, exact width) of values that can be joined,
    that is of the same kind and without overflow, and its result is then the
    encoding of their join; without an existing value it accepts exactly the
    well-formed operands and stores them unchanged. *)
Theorem merge_operator_refines_join (existing incoming r : bytes) :
  bytes_ok existing -> bytes_ok incoming ->
  (operator_merge (Some existing) incoming = Ok r <->
   exists x y z, value_ok x /\ value_ok y /\ existing = value_bytes x /\
     incoming = value_bytes y /\ join x y = Some z /\ r = value_bytes z) /\
  (operator_merge None incoming = Ok r <->
   r = incoming /\ exists x, value_ok x /\ incoming = value_bytes x).
Proof.
  intros He Hi. split.
  - rewrite <-ok_Some, operator_merge_spec by done. split.
    + destruct (value_of_cases existing He) as [(x & Hx & ->)|[-> _]]; [|done].
      destruct (value_of_cases incoming Hi) as [(y & Hy & ->)|[-> _]];
        [|by destruct (value_of _)].
      rewrite !value_of_bytes by done. simpl. destruct (join x y) eqn:E; [|done].
      intros [= <-]. eauto 10.
    + intros (x & y & z & Hx & Hy & -> & -> & E & ->).
      rewrite !value_of_bytes by done. simpl. by rewrite E.
  - unfold operator_merge. destruct (value_of_cases incoming Hi) as [(x & Hx & ->)|[N [e E]]].
    + rewrite validate_value. simpl. split; [intros [= <-]; eauto|by intros [-> _]].
    + rewrite E. simpl. split; [done|]. intros (-> & x & Hx & ->).
      by rewrite value_of_bytes in N.
Qed.

Lemma merge_operator_refines_join_witness :
  operator_merge (Some (encode_max 3)) (encode_max (-5)) = Ok (encode_max 3).
Proof.
  apply (merge_operator_refines_join (encode_max 3) (encode_max (-5)) (encode_max 3)).
  - apply Forall_cons_2; [split; [discriminate|reflexivity]|apply be_bytes_ok].
  - apply Forall_cons_2; [split; [discriminate|reflexivity]|apply be_bytes_ok].
  - exists (VMax 3), (VMax (-5)), (VMax 3). split_and!; try reflexivity; cbn; rlia.
Defined.

(** Merging two operands and then a third, on the left and on the right. *)
Definition merge_left (a b c : bytes) : option bytes :=
  ab ← ok (operator_merge (Some a) b); ok (operator_merge (Some ab) c).
Definition merge_right (a b c : bytes) : option bytes :=
  bc ← ok (operator_merge (Some b) c); ok (operator_merge (Some a) bc).

Lemma merge_left_join a b c :
  bytes_ok a -> bytes_ok b -> bytes_ok c ->
  merge_left a b c =
  (x ← value_of a; y ← value_of b; z ← value_of c; value_bytes <$> join3l x y z).
Proof.
  intros Ha Hb Hc. unfold merge_left, join3l. rewrite operator_merge_spec by done.
  destruct (value_of_cases a Ha) as [(x & Hx & ->)|[-> _]]; [|done].
  destruct (value_of_cases b Hb) as [(y & Hy & ->)|[-> _]]; [|by destruct (value_of _)].
  rewrite !value_of_bytes by done. cbn [mbind option_bind].
  destruct (join x y) as [w|] eqn:E; cbn [fmap option_fmap option_map mbind option_bind];
    [|by destruct (value_of c)].
  pose proof (join_ok _ _ _ Hx Hy E) as Hw.
  rewrite operator_merge_spec, value_of_bytes by (done || by apply value_bytes_ok). done.
Qed.

Lemma merge_right_join a b c :
  bytes_ok a -> bytes_ok b -> bytes_ok c ->
  merge_right a b c =
  (x ← value_of a; y ← value_of b; z ← value_of c; value_bytes <$> join3r x y z).
Proof.
  intros Ha Hb Hc. unfold merge_right, join3r. rewrite operator_merge_spec by done.
  destruct (value_of_cases b Hb) as [(y & Hy & ->)|[-> _]]; [|by destruct (value_of a)].
  destruct (value_of_cases c Hc) as [(z & Hz & ->)|[-> _]];
    [|by destruct (value_of a), (value_of (value_bytes y))].
  rewrite !value_of_bytes by done. cbn [mbind option_bind].
  destruct (join y z) as [w|] eqn:E; cbn [fmap option_fmap option_map mbind option_bind];
    [|by destruct (value_of a)].
  pose proof (join_ok _ _ _ Hy Hz E) as Hw.
  rewrite operator_merge_spec, value_of_bytes by (done || by apply value_bytes_ok). done.
Qed.

(** The merge operator may be applied in any grouping, as the store does in
    reads and compaction: merging commutes, two groupings of three operands
    that both succeed give the same bytes, and for every kind of value but the
    signed counters one grouping succeeds exactly when the other does.  (A
    signed counter can overflow in one grouping only.) *)
Theorem merge_operator_grouping (a b c : bytes) :
  bytes_ok a -> bytes_ok b -> bytes_ok c ->
  ok (operator_merge (Some a) b) = ok (operator_merge (Some b) a) /\
  (forall r r', merge_left a b c = Some r -> merge_right a b c = Some r' -> r = r') /\
  (nth 0 a 0 <> tag_byte TSum -> nth 0 a 0 <> tag_byte TPNCounter ->
   merge_left a b c = merge_right a b c).
Proof.
  intros Ha Hb Hc. rewrite !operator_merge_spec, merge_left_join, merge_right_join by done.
  destruct (value_of_cases a Ha) as [(x & Hx & ->)|[-> _]]; [|by destruct (value_of b)].
  destruct (value_of_cases b Hb) as [(y & Hy & ->)|[-> _]];
    [|by destruct (value_of (value_bytes x))].
  rewrite !value_of_bytes by done. cbn [mbind option_bind]. rewrite (join_comm y x).
  split; [done|].
  destruct (value_of_cases c Hc) as [(z & Hz & ->)|[-> _]]; [|done].
  rewrite value_of_bytes by done. cbn [mbind option_bind].
  pose proof (join3_agree x y z) as Hag. split.
  - destruct Hag as [E|[E|E]]; rewrite E; try done. intros r r' -> [= ->]. done.
  - intros H1 H2. rewrite value_bytes_payload in H1, H2. cbn [nth] in H1, H2.
    destruct (join3_defined x y z) as [D1 D2]; [by destruct x|done..|].
    destruct Hag as [E|[E|E]]; rewrite E in *; [|destruct (join3l x y z)|]; try done.
    + destruct (join3r x y z); [|done]. by destruct D2 as [? [=]].
    + by destruct D1 as [? [=]].
Qed.


(* ------------------------------------------------------------------ *)
(** ** Law operands in the store *)

Lemma encode_i64_cons z : exists p, encode_i64 z = (Z.shiftr z 56) mod 256 :: p /\ length p = 7%nat.
Proof. by eexists. Qed.

Lemma first_byte_two z :
  in_i64 z -> (Z.shiftr z 56) mod 256 = 2 <-> 2 ^ 57 <= z < 3 * 2 ^ 56.
Proof.
  intros Hz. rewrite Z.shiftr_div_pow2 by lia.
  pose proof (Z.div_mod z (2 ^ 56)). pose proof (Z.mod_pos_bound z (2 ^ 56)).
  pose proof (Z.div_mod (z / 2 ^ 56) 256). pose proof (Z.mod_pos_bound (z / 2 ^ 56) 256).
  split; intros; rlia.
Qed.

(** Law operands whose merge with the identity succeeds once they resolve raw. *)
Lemma valid_raw law `{!AdditiveLaw law} b :
  bytes_ok b -> is_Some (dec law b) -> resolve_law_operand law b = Ok (Raw b) ->
  is_valid_law_operand law b = true.
Proof.
  intros Hb [v Hv] Hr. unfold is_valid_law_operand. rewrite Hr.
  destruct (is_identity law b); [done|]. rewrite identity_enc.
  apply bool_decide_eq_true. rewrite merge_dec, Hv, dec_enc; try done.
  - simpl. destruct (dec_Some b v Hb Hv) as (Hl & Hi & _).
    rewrite vadd_comm, vadd_zero_l by done.
    rewrite (proj2 (in_range_spec v) Hi). by eexists.
  - apply length_replicate.
  - apply Forall_replicate. rlia.
  - apply enc_ok.
Qed.

Lemma resolve_weight w :
  resolve_law_operand WeightAddV1 (encode_weight w) = Ok (Raw (encode_weight w)).
Proof.
  unfold encode_weight. destruct (encode_i64_cons w) as (p & -> & Hp).
  unfold resolve_law_operand. destruct (from_u8 _) as [t|]; [|done].
  cbn [length]. rewrite Hp. by destruct t.
Qed.

Lemma resolve_sum_count s c :
  resolve_law_operand SumCountV1 (encode_sum_count s c) =
  if (Z.shiftr s 56) mod 256 =? 2 then Err (MalformedTaggedLength TCount 9 16)
  else Ok (Raw (encode_sum_count s c)).
Proof.
  unfold encode_sum_count. destruct (encode_i64_cons s) as (p & -> & Hp).
  destruct (encode_i64_cons c) as (q & -> & Hq). cbn [app].
  unfold resolve_law_operand. destruct (Z.eqb_spec ((Z.shiftr s 56) mod 256) 2) as [->|Hne].
  - change (from_u8 2) with (Some TCount). cbn [length]. rewrite length_app. cbn [length].
    by rewrite Hp, Hq.
  - destruct (from_u8 _) as [t|] eqn:Ht; [|done]. apply from_u8_Some in Ht.
    cbn [length]. rewrite length_app. cbn [length]. rewrite Hp, Hq. by destruct t.
Qed.

(** Which stored accumulators the law-aware read path accepts.  Every
    [WeightAdd] weight is a valid operand.  A raw [SumCount] accumulator is
    refused exactly when its sum lies in [2^57, 3*2^56): the first byte of the
    sum is then the [Count] tag, which counts as compatible with the law, so
    the 16 bytes are taken for a tagged operand of the wrong width.  And a
    tagged [Count] operand resolves as compatible with [SumCount] but is never
    valid for it, since the law wants 16 bytes and the payload has 8. *)
Theorem sum_count_operand_validity (s c w n : Z) :
  in_i64 s -> in_i64 c -> in_i64 w -> in_u64 n ->
  is_valid_law_operand WeightAddV1 (encode_weight w) = true /\
  (is_valid_law_operand SumCountV1 (encode_sum_count s c) = false <-> 2 ^ 57 <= s < 3 * 2 ^ 56) /\
  resolve_law_operand SumCountV1 (encode_count n) = Ok (Tagged TCount (encode_u64 n)) /\
  is_valid_law_operand SumCountV1 (encode_count n) = false.
Proof.
  intros Hs Hc Hw Hn.
  assert (resolve_law_operand SumCountV1 (encode_count n) = Ok (Tagged TCount (encode_u64 n))) as Hr.
  { unfold encode_count, resolve_law_operand. cbn [app tag_byte].
    change (from_u8 2) with (Some TCount). cbn [length]. by rewrite length_encode_u64. }
  split_and!; try done.
  - apply (valid_raw WeightAddV1); [apply be_bytes_ok| |apply resolve_weight].
    unfold encode_weight. simpl. unfold weight_dec. rewrite parse_encode_weight by done. by eexists.
  - rewrite <-first_byte_two by done. pose proof (resolve_sum_count s c) as E.
    destruct (Z.eqb_spec ((Z.shiftr s 56) mod 256) 2) as [H2|H2].
    + unfold is_valid_law_operand. by rewrite E.
    + rewrite (valid_raw SumCountV1); try done. apply Forall_app_2; apply be_bytes_ok.
Qed.

