(* ===== verification/ZSets.v ===== *)
(** * Byte-keyed Z-sets ([rockstream-types/src/batch.rs])

    [ZSet] is the nested ordered map from key to value to weight.  A [BTreeMap]
    is a [gmap] with its entries listed in key order.  The weight function is
    its meaning; two Z-sets with the same weights are equivalent, and the
    operations respect this equivalence although the stored maps may differ in
    leftover zero-weight entries. *)
From stdpp Require Import base tactics list gmap sorting numbers option fin_maps.
From Stdlib Require Import ZArith Lia ZifyBool.
From S2P Require Import Prelude.
Local Open Scope Z_scope.

(* ------------------------------------------------------------------ *)
(** ** Ordered maps *)

Definition bytes_le (a b : bytes) : Prop := lex_cmp a b <> Gt.

#[export] Instance bytes_le_dec a b : Decision (bytes_le a b).
Proof. unfold bytes_le. destruct (lex_cmp a b); [left|left|right]; congruence. Defined.

Definition entry_le {V} (p q : bytes * V) : Prop := bytes_le p.1 q.1.

#[export] Instance entry_le_dec {V} (p q : bytes * V) : Decision (entry_le p q).
Proof. unfold entry_le. apply _. Defined.

(** The entries of a [BTreeMap] in key order. *)
Definition btree_iter {V} (m : gmap bytes V) : list (bytes * V) :=
  merge_sort entry_le (map_to_list m).

Lemma btree_iter_perm {V} (m : gmap bytes V) : btree_iter m ≡ₚ map_to_list m.
Proof. apply merge_sort_Permutation. Qed.

Lemma elem_of_btree_iter {V} (m : gmap bytes V) k v : (k, v) ∈ btree_iter m <-> m !! k = Some v.
Proof. by rewrite btree_iter_perm, elem_of_map_to_list. Qed.

(** [keys().next()] *)
Definition first_key {V} (m : gmap bytes V) : option bytes := fst <$> head (btree_iter m).

(* ------------------------------------------------------------------ *)
(** ** The Z-set *)

Abbreviation Weight := Z (only parsing).

Record ZSetRow : Type := { row_key : bytes; row_value : bytes; row_weight : Weight }.

Definition row_insert (key val : bytes) : ZSetRow :=
  {| row_key := key; row_value := val; row_weight := 1 |}.
Definition row_delete (key val : bytes) : ZSetRow :=
  {| row_key := key; row_value := val; row_weight := -1 |}.

Abbreviation ZSet := (gmap bytes (gmap bytes Z)).

Definition zset_new : ZSet := ∅.

(** [*w += weight] panics on overflow: the release profile keeps overflow
    checks on. *)
Definition zset_insert (z : ZSet) (key val : bytes) (weight : Weight) : outcome ZSet :=
  if weight =? 0 then Done z
  else
    let inner := default ∅ (z !! key) in
    w ← expect (checked_i64 (default 0 (inner !! val) + weight));
    let inner := <[val := w]> inner in
    let inner :=
      if w =? 0 then
        match first_key inner with
        | Some k => if bool_decide (inner !! k = Some 0) then delete k inner else inner
        | None => inner
        end
      else inner in
    Done (<[key := inner]> z).

Definition insert_row (z : ZSet) (row : ZSetRow) : outcome ZSet :=
  zset_insert z (row_key row) (row_value row) (row_weight row).

Definition zset_len (z : ZSet) : nat :=
  sum_list_with (fun p => size p.2) (btree_iter z).

Definition zset_is_empty (z : ZSet) : bool := (zset_len z =? 0)%nat.

Definition zset_iter (z : ZSet) : list ZSetRow :=
  mbind (fun p : bytes * gmap bytes Z =>
    (fun q : bytes * Z => {| row_key := p.1; row_value := q.1; row_weight := q.2 |})
      <$> base.filter (fun q : bytes * Z => q.2 <> 0) (btree_iter p.2)) (btree_iter z).

Fixpoint insert_all (z : ZSet) (rows : list ZSetRow) : outcome ZSet :=
  match rows with
  | [] => Done z
  | row :: rows' => z' ← insert_row z row; insert_all z' rows'
  end.

Definition zset_merge (z other : ZSet) : outcome ZSet := insert_all z (zset_iter other).

(** Unary minus overflows on [i64::MIN]. *)
Definition neg_i64 (w : Z) : outcome Z := expect (checked_i64 (- w)).

Fixpoint insert_negated (z : ZSet) (rows : list ZSetRow) : outcome ZSet :=
  match rows with
  | [] => Done z
  | row :: rows' =>
      w ← neg_i64 (row_weight row);
      z' ← zset_insert z (row_key row) (row_value row) w;
      insert_negated z' rows'
  end.

Definition zset_negate (z : ZSet) : outcome ZSet := insert_negated zset_new (zset_iter z).

(** [sum()] of [i64]s, which also panics on overflow. *)
Fixpoint sum_i64 (acc : Z) (ws : list Z) : outcome Z :=
  match ws with
  | [] => Done acc
  | w :: ws' => acc' ← expect (checked_i64 (acc + w)); sum_i64 acc' ws'
  end.

Definition weight_for_key (z : ZSet) (key : bytes) : outcome Weight :=
  match z !! key with
  | Some inner => sum_i64 0 (snd <$> btree_iter inner)
  | None => Done 0
  end.

(** [retain] on both levels. *)
Definition consolidate (z : ZSet) : ZSet :=
  omap (fun inner : gmap bytes Z =>
    let inner' := base.filter (fun q : bytes * Z => q.2 <> 0) inner in
    if bool_decide (inner' = ∅) then None else Some inner') z.

(* ------------------------------------------------------------------ *)
(** ** Meaning and equivalence *)

Definition inner_of (z : ZSet) (key : bytes) : gmap bytes Z := default ∅ (z !! key).
Definition weight_of (z : ZSet) (key val : bytes) : Z := default 0 (inner_of z key !! val).

(** Every stored weight is an [i64]. *)
Definition zset_ok (z : ZSet) : Prop := forall k v, in_i64 (weight_of z k v).

Definition zequiv (z1 z2 : ZSet) : Prop := forall k v, weight_of z1 k v = weight_of z2 k v.

#[export] Instance zequiv_equivalence : Equivalence zequiv.
Proof. split; [done|intros ??? ??; done|intros ??? H1 H2 k v; by rewrite H1]. Qed.

Definition rows_weight (rows : list ZSetRow) (k v : bytes) : Z :=
  foldr (fun row acc =>
    (if bool_decide (row_key row = k /\ row_value row = v) then row_weight row else 0) + acc) 0 rows.

Lemma weight_of_insert_ne z k m k' v : k <> k' -> weight_of (<[k:=m]> z) k' v = weight_of z k' v.
Proof. intros. unfold weight_of, inner_of. by rewrite lookup_insert_ne. Qed.

Lemma weight_of_insert_eq z k m v : weight_of (<[k:=m]> z) k v = default 0 (m !! v).
Proof. unfold weight_of, inner_of. by rewrite lookup_insert_eq. Qed.

(** Removing a zero-weight entry does not change the weights. *)
Lemma gc_weight (m : gmap bytes Z) v :
  default 0 (match first_key m with
             | Some k => if bool_decide (m !! k = Some 0) then delete k m else m
             | None => m
             end !! v) = default 0 (m !! v).
Proof.
  destruct (first_key m) as [k|]; [|done]. case_bool_decide as Hk; [|done].
  destruct (decide (k = v)) as [->|]; [by rewrite lookup_delete_eq, Hk|].
  by rewrite lookup_delete_ne.
Qed.

(** Inserting adds the weight at one pair; it panics exactly on overflow. *)
Lemma zset_insert_Done z k v w :
  zset_ok z -> in_i64 (weight_of z k v + w) ->
  exists z', zset_insert z k v w = Done z' /\
    forall k' v', weight_of z' k' v' =
      weight_of z k' v' + (if bool_decide (k = k' /\ v = v') then w else 0).
Proof.
  intros Hz Hw. unfold zset_insert. destruct (Z.eqb_spec w 0) as [->|Hne].
  { exists z. split; [done|]. intros. case_bool_decide; lia. }
  change (default 0 (default ∅ (z !! k) !! v)) with (weight_of z k v).
  rewrite checked_in by done. cbn [expect mbind outcome_bind]. eexists; split; [done|].
  intros k' v'. destruct (decide (k = k')) as [<-|Hk].
  2: { rewrite weight_of_insert_ne by done. rewrite bool_decide_eq_false_2 by (done || (intros [??]; congruence)). lia. }
  rewrite weight_of_insert_eq.
  destruct (_ =? 0); [rewrite gc_weight|].
  all: destruct (decide (v = v')) as [<-|Hv];
    [rewrite lookup_insert_eq, bool_decide_eq_true_2 by done; done
    |rewrite lookup_insert_ne, bool_decide_eq_false_2 by (done || (intros [??]; congruence));
     unfold weight_of, inner_of; lia].
Qed.

Lemma zset_insert_Panic z k v w :
  zset_ok z -> ~ in_i64 (weight_of z k v + w) -> zset_insert z k v w = Panic.
Proof.
  intros Hz Hw. unfold zset_insert. destruct (Z.eqb_spec w 0) as [->|Hne].
  { exfalso. apply Hw. rewrite Z.add_0_r. apply Hz. }
  change (default 0 (default ∅ (z !! k) !! v)) with (weight_of z k v).
  by rewrite (proj2 (checked_None _ _ _)).
Qed.

Lemma zset_insert_inv z k v w z' :
  zset_ok z -> zset_insert z k v w = Done z' ->
  zset_ok z' /\ forall k' v', weight_of z' k' v' =
    weight_of z k' v' + (if bool_decide (k = k' /\ v = v') then w else 0).
Proof.
  intros Hz Hi.
  destruct (decide (in_i64 (weight_of z k v + w))) as [Hr|Hr].
  2: { by rewrite zset_insert_Panic in Hi. }
  destruct (zset_insert_Done z k v w Hz Hr) as (z'' & E & Hw).
  rewrite E in Hi. injection Hi as <-. split; [|done]. intros k' v'. rewrite Hw.
  case_bool_decide as Hkv; [destruct Hkv as [<- <-]; done|].
  rewrite Z.add_0_r. apply Hz.
Qed.

Lemma insert_all_inv rows z z' :
  zset_ok z -> insert_all z rows = Done z' ->
  zset_ok z' /\ forall k v, weight_of z' k v = weight_of z k v + rows_weight rows k v.
Proof.
  revert z. induction rows as [|row rows IH]; intros z Hz; cbn [insert_all].
  { intros [= <-]. split; [done|]. intros. simpl. lia. }
  unfold insert_row. destruct (zset_insert z _ _ _) as [z1|] eqn:E; [|done].
  apply zset_insert_inv in E as [Hz1 Hw1]; [|done]. intros Hi.
  apply IH in Hi as [Hz' Hw']; [|done]. split; [done|].
  intros k v. rewrite Hw', Hw1. cbn [rows_weight foldr]. unfold rows_weight. lia.
Qed.

Definition row_pair (row : ZSetRow) : bytes * bytes := (row_key row, row_value row).

(** Rows at distinct pairs are inserted one per pair, so the whole insertion
    succeeds when each sum is in range. *)
Lemma insert_all_total rows z :
  NoDup (row_pair <$> rows) -> zset_ok z ->
  (forall row, row ∈ rows -> in_i64 (weight_of z (row_key row) (row_value row) + row_weight row)) ->
  exists z', insert_all z rows = Done z'.
Proof.
  revert z. induction rows as [|row rows IH]; intros z Hnd Hz Hr; [by eexists|].
  rewrite fmap_cons in Hnd. apply NoDup_cons in Hnd as [Hn Hnd].
  cbn [insert_all]. unfold insert_row.
  destruct (zset_insert_Done z (row_key row) (row_value row) (row_weight row)) as (z1 & E & Hw);
    [done|by apply Hr; left|].
  rewrite E. cbn [mbind outcome_bind]. apply IH; [done|by apply zset_insert_inv in E as []|].
  intros row' Hin. rewrite Hw. rewrite bool_decide_eq_false_2.
  - rewrite Z.add_0_r. apply Hr. by right.
  - intros [E1 E2]. apply Hn. apply list_elem_of_fmap. exists row'.
    unfold row_pair. by rewrite E1, E2.
Qed.

(* ------------------------------------------------------------------ *)
(** ** Iteration *)

Lemma elem_of_zset_iter z row :
  row ∈ zset_iter z <->
  weight_of z (row_key row) (row_value row) = row_weight row /\ row_weight row <> 0.
Proof.
  unfold zset_iter. rewrite list_elem_of_bind. split.
  - intros ([k m] & Hrow & Hk). apply elem_of_btree_iter in Hk.
    apply list_elem_of_fmap in Hrow as ([v w] & -> & Hv).
    apply list_elem_of_filter in Hv as [Hne Hv]. apply elem_of_btree_iter in Hv.
    cbn [fst snd row_key row_value row_weight] in *.
    unfold weight_of, inner_of. rewrite Hk. simpl. by rewrite Hv.
  - destruct row as [k v w]. cbn [row_key row_value row_weight]. intros [Hw Hne].
    unfold weight_of, inner_of in Hw. destruct (z !! k) as [m|] eqn:Hk; simpl in Hw.
    2: { rewrite lookup_empty in Hw. by subst. }
    destruct (m !! v) as [w'|] eqn:Hv; simpl in Hw; [subst w'|by subst].
    exists (k, m). split; [|by apply elem_of_btree_iter].
    apply list_elem_of_fmap. exists (v, w). split; [done|].
    apply list_elem_of_filter. split; [done|]. by apply elem_of_btree_iter.
Qed.

Lemma NoDup_btree_iter {V} (m : gmap bytes V) : NoDup (btree_iter m).
Proof. rewrite btree_iter_perm. apply NoDup_map_to_list. Qed.

Lemma zset_iter_NoDup z : NoDup (zset_iter z).
Proof.
  unfold zset_iter. apply NoDup_bind.
  - intros [k1 m1] [k2 m2] row H1 H2 Hr1 Hr2.
    apply list_elem_of_fmap in Hr1 as (q1 & -> & _).
    apply list_elem_of_fmap in Hr2 as (q2 & E & _). cbn [fst] in E. injection E as <- _ _.
    apply elem_of_btree_iter in H1, H2. congruence.
  - intros [k m] _. apply NoDup_fmap_2.
    + intros [v1 w1] [v2 w2]. cbn. congruence.
    + apply NoDup_filter, NoDup_btree_iter.
  - apply NoDup_btree_iter.
Qed.

Lemma zset_iter_pairs_NoDup z : NoDup (row_pair <$> zset_iter z).
Proof.
  apply NoDup_fmap_2_strong; [|apply zset_iter_NoDup].
  intros [k1 v1 w1] [k2 v2 w2] H1 H2 [= -> ->].
  apply elem_of_zset_iter in H1 as [H1 _], H2 as [H2 _]. cbn in *. congruence.
Qed.

(** With distinct pairs the weight of the rows at a pair is that of its row. *)
Lemma rows_weight_spec rows k v :
  NoDup (row_pair <$> rows) ->
  (exists row, row ∈ rows /\ row_pair row = (k, v) /\ rows_weight rows k v = row_weight row) \/
  ((forall row, row ∈ rows -> row_pair row <> (k, v)) /\ rows_weight rows k v = 0).
Proof.
  induction rows as [|row rows IH]; intros Hnd; [right; split; [set_solver|done]|].
  rewrite fmap_cons in Hnd. apply NoDup_cons in Hnd as [Hn Hnd]. cbn [rows_weight foldr].
  fold (rows_weight rows k v). destruct (IH Hnd) as [(row' & Hin & Hp & E)|[Hall E]]; rewrite E.
  - left. exists row'. split; [by right|]. split; [done|].
    rewrite bool_decide_eq_false_2; [lia|]. intros [<- <-]. apply Hn.
    apply list_elem_of_fmap. by exists row'.
  - case_bool_decide as Hp.
    + left. exists row. destruct Hp as [<- <-]. split; [by left|]. split; [done|lia].
    + right. split; [|lia]. intros row' [->|Hin]%elem_of_cons; [|by apply Hall].
      intros [= E1 E2]. by apply Hp.
Qed.

Lemma rows_weight_iter z k v : rows_weight (zset_iter z) k v = weight_of z k v.
Proof.
  destruct (rows_weight_spec (zset_iter z) k v (zset_iter_pairs_NoDup z))
    as [(row & Hin & Hp & ->)|[Hall ->]].
  - apply elem_of_zset_iter in Hin as [<- _]. unfold row_pair in Hp. by injection Hp as -> ->.
  - destruct (decide (weight_of z k v = 0)) as [->|Hne]; [done|]. exfalso.
    apply (Hall {| row_key := k; row_value := v; row_weight := weight_of z k v |}); [|done].
    by apply elem_of_zset_iter.
Qed.

Definition neg_row (row : ZSetRow) : ZSetRow :=
  {| row_key := row_key row; row_value := row_value row; row_weight := - row_weight row |}.

Lemma insert_negated_eq rows z :
  (forall row, row ∈ rows -> in_i64 (- row_weight row)) ->
  insert_negated z rows = insert_all z (neg_row <$> rows).
Proof.
  revert z. induction rows as [|row rows IH]; intros z Hr; [done|].
  rewrite fmap_cons. cbn [insert_negated insert_all]. unfold neg_i64.
  rewrite checked_in by (apply Hr; by left). cbn [expect mbind outcome_bind].
  unfold insert_row at 1. cbn [neg_row row_key row_value row_weight].
  destruct (zset_insert z _ _ _) as [z1|]; [|done]. cbn [mbind outcome_bind].
  apply IH. intros. apply Hr. by right.
Qed.

Lemma insert_negated_Panic rows z row :
  row ∈ rows -> ~ in_i64 (- row_weight row) -> insert_negated z rows = Panic.
Proof.
  intros Hin Hr. revert z. induction Hin as [row rows|row row' rows Hin IH]; intros z; cbn [insert_negated].
  - unfold neg_i64. by rewrite (proj2 (checked_None _ _ _) Hr).
  - destruct (neg_i64 _); [|done]. cbn [mbind outcome_bind].
    destruct (zset_insert _ _ _ _); [|done]. cbn [mbind outcome_bind]. by apply IH.
Qed.

Lemma rows_weight_neg rows k v : rows_weight (neg_row <$> rows) k v = - rows_weight rows k v.
Proof.
  induction rows as [|row rows IH]; [done|]. rewrite fmap_cons. cbn [rows_weight foldr].
  fold (rows_weight (neg_row <$> rows) k v) (rows_weight rows k v). rewrite IH.
  cbn [neg_row row_key row_value row_weight]. case_bool_decide; lia.
Qed.

Lemma weight_of_empty k v : weight_of ∅ k v = 0.
Proof. unfold weight_of, inner_of. by rewrite lookup_empty. Qed.

Lemma zset_ok_empty : zset_ok ∅.
Proof. intros k v. rewrite weight_of_empty. rlia. Qed.

(* ------------------------------------------------------------------ *)
(** ** Consolidation *)

Lemma lookup_consolidate z k v :
  inner_of (consolidate z) k !! v = (w ← inner_of z k !! v; if w =? 0 then None else Some w).
Proof.
  unfold inner_of, consolidate. rewrite lookup_omap.
  destruct (z !! k) as [m|]; cbn [mbind option_bind default from_option];
    [|by rewrite !lookup_empty].
  set (m' := base.filter (fun q : bytes * Z => q.2 <> 0) m).
  assert (m' !! v = (w ← m !! v; if w =? 0 then None else Some w)) as Hv.
  { unfold m'. rewrite map_lookup_filter. destruct (m !! v) as [w|]; [|done]. simpl.
    destruct (Z.eqb_spec w 0) as [->|]; [by rewrite option_guard_False by auto|].
    by rewrite option_guard_True. }
  case_bool_decide as E; simpl; [|done]. rewrite E in Hv. by rewrite <-Hv.
Qed.

Lemma weight_of_consolidate z k v : weight_of (consolidate z) k v = weight_of z k v.
Proof.
  unfold weight_of. rewrite lookup_consolidate. destruct (inner_of z k !! v) as [w|]; [|done].
  simpl. by destruct (Z.eqb_spec w 0) as [->|].
Qed.

Lemma consolidate_inner_Some z k m : consolidate z !! k = Some m -> m = inner_of (consolidate z) k.
Proof. intros E. unfold inner_of. by rewrite E. Qed.

Lemma lookup_consolidate_None z k :
  consolidate z !! k = None <-> forall v, weight_of z k v = 0.
Proof.
  split.
  - intros E v. rewrite <-weight_of_consolidate. unfold weight_of, inner_of. by rewrite E.
  - intros Hw. destruct (consolidate z !! k) as [m|] eqn:E; [|done]. exfalso.
    assert (m <> ∅) as Hne.
    { unfold consolidate in E. rewrite lookup_omap in E.
      destruct (z !! k); [|done]. cbn [mbind option_bind] in E.
      case_bool_decide; [done|]. by injection E as <-. }
    apply Hne, map_eq. intros v. rewrite lookup_empty.
    rewrite (consolidate_inner_Some _ _ _ E), lookup_consolidate.
    specialize (Hw v). unfold weight_of in Hw. destruct (inner_of z k !! v) as [w|]; [|done].
    simpl in *. by subst.
Qed.

Lemma consolidate_zequiv z1 z2 : zequiv z1 z2 -> consolidate z1 = consolidate z2.
Proof.
  intros H. apply map_eq. intros k.
  destruct (consolidate z1 !! k) as [m1|] eqn:E1, (consolidate z2 !! k) as [m2|] eqn:E2.
  - f_equal. rewrite (consolidate_inner_Some _ _ _ E1), (consolidate_inner_Some _ _ _ E2).
    apply map_eq. intros v. rewrite !lookup_consolidate. specialize (H k v). unfold weight_of in H.
    destruct (inner_of z1 k !! v), (inner_of z2 k !! v); simpl in *; subst; done.
  - rewrite lookup_consolidate_None in E2. exfalso.
    assert (consolidate z1 !! k = None) by (apply lookup_consolidate_None; intros; by rewrite H).
    congruence.
  - rewrite lookup_consolidate_None in E1. exfalso.
    assert (consolidate z2 !! k = None) by (apply lookup_consolidate_None; intros; by rewrite <-H).
    congruence.
  - done.
Qed.

#[export] Instance consolidate_proper : Proper (zequiv ==> eq) consolidate.
Proof. intros z1 z2. apply consolidate_zequiv. Qed.

Lemma length_zset_iter z :
  length (zset_iter z) =
  sum_list_with (fun p : bytes * gmap bytes Z =>
    length (base.filter (fun q : bytes * Z => q.2 <> 0) (btree_iter p.2))) (btree_iter z).
Proof.
  unfold zset_iter. induction (btree_iter z) as [|p l IH]; [done|].
  rewrite bind_cons, length_app, length_fmap, IH. done.
Qed.

Lemma zset_len_iter z :
  (forall k v, inner_of z k !! v <> Some 0) -> zset_len z = length (zset_iter z).
Proof.
  intros H. rewrite length_zset_iter. unfold zset_len.
  assert (forall p, p ∈ btree_iter z -> z !! p.1 = Some p.2) as Hin
    by (intros [k m]; apply elem_of_btree_iter).
  induction (btree_iter z) as [|[k m] l IH]; [done|]. cbn [sum_list_with].
  rewrite IH by (intros; apply Hin; by right). f_equal.
  rewrite list_filter_all.
  - cbn [snd]. by rewrite btree_iter_perm, length_map_to_list.
  - intros [v w] Hv. cbn [snd]. apply elem_of_btree_iter in Hv. intros ->.
    specialize (Hin (k, m) ltac:(left)). cbn [fst snd] in *.
    apply (H k v). unfold inner_of. rewrite Hin. done.
Qed.

Lemma negate_weights z n :
  zset_ok z -> zset_negate z = Done n ->
  zset_ok n /\ forall k v, weight_of n k v = - weight_of z k v.
Proof.
  intros Hz Hn. unfold zset_negate in Hn.
  destruct (decide (Forall (fun row => in_i64 (- row_weight row)) (zset_iter z))) as [Hall|Hnot].
  - rewrite insert_negated_eq in Hn by (by apply Forall_forall).
    apply insert_all_inv in Hn as [Hok Hw]; [|apply zset_ok_empty]. split; [done|].
    intros k v. rewrite Hw, rows_weight_neg, rows_weight_iter. by rewrite weight_of_empty.
  - apply not_Forall_Exists, Exists_exists in Hnot as (row & Hin & Hr); [|apply _].
    by rewrite (insert_negated_Panic _ _ row Hin Hr) in Hn.
Qed.

Lemma merge_inverse_total z n :
  zset_ok z -> (forall k v, weight_of n k v = - weight_of z k v) ->
  exists s, zset_merge z n = Done s /\ forall k v, weight_of s k v = 0.
Proof.
  intros Hz Hw. destruct (insert_all_total (zset_iter n) z) as [s Hs];
    [apply zset_iter_pairs_NoDup|done| |].
  - intros row [<- _]%elem_of_zset_iter. rewrite Hw. rlia.
  - exists s. split; [done|]. apply insert_all_inv in Hs as [_ Hs]; [|done].
    intros k v. rewrite Hs, rows_weight_iter, Hw. lia.
Qed.

(* ------------------------------------------------------------------ *)
(** ** Properties *)

(** Inserting into a Z-set is addition of weights: the call panics exactly
    when the new weight leaves the [i64] range, and otherwise the weight of the
    pair grows by the inserted weight, no other weight changes, and every
    stored weight is still an [i64]. *)
Theorem zset_insert_additive (z : ZSet) (k v : bytes) (w : Z) :
  zset_ok z ->
  (zset_insert z k v w = Panic <-> ~ in_i64 (weight_of z k v + w)) /\
  (forall z', zset_insert z k v w = Done z' -> zset_ok z' /\
     forall k' v', weight_of z' k' v' =
       weight_of z k' v' + (if bool_decide (k = k' /\ v = v') then w else 0)).
Proof.
  intros Hz. split; [|intros z'; by apply zset_insert_inv].
  split; [|by apply zset_insert_Panic].
  intros E Hr. destruct (zset_insert_Done z k v w Hz Hr) as (z' & E' & _). congruence.
Qed.

(** Merging Z-sets adds their weights pointwise.  It succeeds exactly when
    every sum is an [i64], whatever zero-weight entries either side still
    stores, and then the result has the sum of the weights at every pair. *)
Theorem zset_merge_adds (z other : ZSet) :
  zset_ok z ->
  ((exists z', zset_merge z other = Done z') <->
     forall k v, in_i64 (weight_of z k v + weight_of other k v)) /\
  (forall z', zset_merge z other = Done z' ->
     forall k v, weight_of z' k v = weight_of z k v + weight_of other k v).
Proof.
  intros Hz.
  assert (forall z', zset_merge z other = Done z' -> zset_ok z' /\
    forall k v, weight_of z' k v = weight_of z k v + weight_of other k v) as Hinv.
  { intros z' E. apply insert_all_inv in E as [Hz' Hw]; [|done]. split; [done|].
    intros k v. by rewrite Hw, rows_weight_iter. }
  split; [|intros z' E; by apply Hinv]. split.
  - intros [z' E] k v. apply Hinv in E as [Hz' <-]. apply Hz'.
  - intros Hr. apply insert_all_total; [apply zset_iter_pairs_NoDup|done|].
    intros row [<- _]%elem_of_zset_iter. apply Hr.
Qed.


(** Negation is the undo of a delta: it succeeds exactly when no weight is
    [i64::MIN], and merging a Z-set with its negation then always succeeds and
    leaves every weight zero, so consolidating gives the empty Z-set. *)
Lemma zset_negate_undoes (z : ZSet) :
  zset_ok z ->
  ((exists n, zset_negate z = Done n) <-> forall k v, weight_of z k v <> i64_min) /\
  (forall n, zset_negate z = Done n ->
     (forall k v, weight_of n k v = - weight_of z k v) /\
     exists s, zset_merge z n = Done s /\ consolidate s = ∅).
Proof.
  intros Hz. split; [split|].
  - intros [n Hn] k v Hmin. unfold zset_negate in Hn.
    rewrite (insert_negated_Panic _ _ {| row_key := k; row_value := v; row_weight := i64_min |}) in Hn;
      [done| |cbn; rlia].
    apply elem_of_zset_iter. by split.
  - intros Hne. unfold zset_negate. rewrite insert_negated_eq.
    + apply insert_all_total; [|apply zset_ok_empty|].
      * rewrite <-list_fmap_compose. apply zset_iter_pairs_NoDup.
      * intros row (row' & -> & [Hw _]%elem_of_zset_iter)%list_elem_of_fmap.
        rewrite weight_of_empty. cbn [neg_row row_weight]. rewrite <-Hw.
        specialize (Hz (row_key row') (row_value row')).
        specialize (Hne (row_key row') (row_value row')). rlia.
    + intros row [<- _]%elem_of_zset_iter.
      specialize (Hz (row_key row) (row_value row)). specialize (Hne (row_key row) (row_value row)). rlia.
  - intros n Hn. destruct (negate_weights z n Hz Hn) as [Hok Hw]. split; [done|].
    destruct (merge_inverse_total z n Hz Hw) as (s & Hs & Hws).
    exists s. split; [done|].
    rewrite (consolidate_zequiv s ∅); [reflexivity|]. intros k v. rewrite Hws. by rewrite weight_of_empty.
Qed.

(** Consolidation is a canonical form: it keeps every weight, two Z-sets
    consolidate to the same map exactly when they have the same weights
    everywhere, and its length is the number of rows of non-zero weight that
    iterating over the original yields. *)
Theorem consolidate_canonical (z1 z2 : ZSet) :
  zequiv (consolidate z1) z1 /\
  (consolidate z1 = consolidate z2 <-> zequiv z1 z2) /\
  zset_len (consolidate z1) = length (zset_iter z1).
Proof.
  split; [intros k v; apply weight_of_consolidate|]. split.
  - split; [|apply consolidate_zequiv]. intros E k v.
    by rewrite <-weight_of_consolidate, E, weight_of_consolidate.
  - rewrite zset_len_iter.
    + apply Permutation_length, NoDup_Permutation; [apply zset_iter_NoDup..|].
      intros row. by rewrite !elem_of_zset_iter, weight_of_consolidate.
    + intros k v. rewrite lookup_consolidate.
      destruct (inner_of z1 k !! v) as [w|]; [|done]. simpl.
      destruct (Z.eqb_spec w 0); congruence.
Qed.

(** The length and emptiness tests count cancelled rows.  Inserting two
    values under one key and deleting both again, the larger first, leaves all
    weights zero, yet the Z-set reports one entry and is not empty: the
    clean-up after an insertion looks only at the smallest value of the key. *)
Theorem cancelled_rows_are_counted :
  exists z, insert_all zset_new
      [row_insert [0] [1]; row_insert [0] [2]; row_delete [0] [2]; row_delete [0] [1]] = Done z /\
    zequiv z zset_new /\ zset_iter z = [] /\ zset_len z = 1%nat /\ zset_is_empty z = false.
Proof.
  eexists. split; [vm_compute; reflexivity|]. split_and!; try (vm_compute; reflexivity).
  intros k v. unfold zset_new. rewrite weight_of_empty.
  match goal with |- weight_of ?z _ _ = _ => change z with ({[ [0] := {[ [2] := 0 ]} ]} : ZSet) end.
  unfold weight_of, inner_of. destruct (decide ([0] = k)) as [<-|].
  - rewrite lookup_singleton_eq. simpl.
    destruct (decide ([2] = v)) as [<-|]; [by rewrite lookup_singleton_eq|by rewrite lookup_singleton_ne].
  - by rewrite lookup_singleton_ne.
Qed.
