(* ===== verification/Progress.v ===== *)
(** * Progress types ([rockstream-types/src/frontier.rs])

    Source progress and freshness tokens with their meet and join, the frontier
    report and membership records that the control plane exchanges, and the
    per-shard column statistics with the membership filters used for pruning. *)
From stdpp Require Import base tactics list gmap strings numbers option fin_maps.
From Stdlib Require Import ZArith Lia ZifyBool.
From S2P Require Import Prelude.
Local Open Scope Z_scope.

Abbreviation Epoch := Z (only parsing).
Abbreviation SourceId := Z (only parsing).
Abbreviation ShardId := Z (only parsing).
Abbreviation WorkerId := Z (only parsing).
Abbreviation LeaseToken := Z (only parsing).

(* ------------------------------------------------------------------ *)
(** ** Progress merge *)

Record SourceProgress : Type := {
  source_epoch : Epoch;
  event_time_watermark_ms : option Z
}.

Definition opt_merge (f : Z -> Z -> Z) (a b : option Z) : option Z :=
  match a, b with
  | Some w1, Some w2 => Some (f w1 w2)
  | Some w1, None => Some w1
  | None, Some w2 => Some w2
  | None, None => None
  end.

Definition progress_meet (p q : SourceProgress) : SourceProgress :=
  if source_epoch p <? source_epoch q then p
  else if source_epoch q <? source_epoch p then q
  else {| source_epoch := source_epoch p;
          event_time_watermark_ms :=
            opt_merge Z.min (event_time_watermark_ms p) (event_time_watermark_ms q) |}.

Definition progress_join (p q : SourceProgress) : SourceProgress :=
  if source_epoch q <? source_epoch p then p
  else if source_epoch p <? source_epoch q then q
  else {| source_epoch := source_epoch p;
          event_time_watermark_ms :=
            opt_merge Z.max (event_time_watermark_ms p) (event_time_watermark_ms q) |}.

Record FreshnessToken : Type := {
  source_progress : gmap Z SourceProgress;
  cluster_frontier_hash : Z
}.

(** The minimum watermark of the sources that have one. *)
Definition watermark_ms (t : FreshnessToken) : option Z :=
  foldr (fun p acc => opt_merge Z.min (event_time_watermark_ms p.2) acc) None
    (map_to_list (source_progress t)).

Definition token_meet (s t : FreshnessToken) : FreshnessToken := {|
  source_progress := intersection_with (fun p1 p2 => Some (progress_meet p1 p2))
                       (source_progress s) (source_progress t);
  cluster_frontier_hash := Z.lxor (cluster_frontier_hash s) (cluster_frontier_hash t)
|}.

Definition token_join (s t : FreshnessToken) : FreshnessToken := {|
  source_progress := union_with (fun p1 p2 => Some (progress_join p1 p2))
                       (source_progress s) (source_progress t);
  cluster_frontier_hash := Z.lxor (cluster_frontier_hash s) (cluster_frontier_hash t)
|}.

(* ------------------------------------------------------------------ *)
(** ** Reports and membership *)

Record ShardFrontierReport : Type := { sfr_shard_id : ShardId; sfr_epoch : Epoch }.

Definition FRONTIER_REPORT_VERSION : Z := 1.

Record MembershipFrontierReport : Type := {
  mfr_version : Z;
  mfr_scope : string;
  mfr_generation : Z;
  mfr_shard_id : ShardId;
  mfr_incarnation : Z;
  mfr_lease_token : LeaseToken;
  mfr_epoch : Epoch
}.

Definition membership_report_new (scope : string) (generation : Z) (shard_id : ShardId)
    (incarnation : Z) (lease_token : LeaseToken) (epoch : Epoch) : MembershipFrontierReport := {|
  mfr_version := FRONTIER_REPORT_VERSION;
  mfr_scope := scope;
  mfr_generation := generation;
  mfr_shard_id := shard_id;
  mfr_incarnation := incarnation;
  mfr_lease_token := lease_token;
  mfr_epoch := epoch
|}.

Record FrontierMembership : Type := {
  fm_scope : string;
  fm_generation : Z;
  fm_active : gmap Z Z
}.

Definition membership_new (scope : string) (generation : Z) : FrontierMembership :=
  {| fm_scope := scope; fm_generation := generation; fm_active := ∅ |}.

Definition with_active (m : FrontierMembership) (shard_id : ShardId) (incarnation : Z)
    : FrontierMembership :=
  {| fm_scope := fm_scope m; fm_generation := fm_generation m;
     fm_active := <[shard_id := incarnation]> (fm_active m) |}.

Record WorkerFrontierSummary : Type := { wfs_worker_id : WorkerId; wfs_min_epoch : option Epoch }.

Record ClusterFrontier : Type := { cf_epoch : option Epoch }.

Definition has_committed_through (f : ClusterFrontier) (epoch : Epoch) : bool :=
  match cf_epoch f with Some e => epoch <=? e | None => false end.

(* ------------------------------------------------------------------ *)
(** ** Membership filters and column statistics *)

(** [x.leading_zeros()] of a [u64]. *)
Definition leading_zeros (x : Z) : Z := if x =? 0 then 64 else 63 - Z.log2 x.

Section filters.
(** [DefaultHasher]: its algorithm is not specified, only that it is a function
    of the hashed data.  [seed_hash] hashes a seed byte and then the value,
    [value_hash] the value alone. *)
Context (seed_hash : Z -> bytes -> Z) (value_hash : bytes -> Z).

Definition bloom_hashes (val : bytes) (modulus hashes : Z) : list Z :=
  (fun seed => as_u64 (seed_hash (Z.of_nat seed) val) mod Z.max modulus 1)
    <$> seq 0 (Z.to_nat (Z.max hashes 1)).

Definition set_bit (filter : bytes) (bit : Z) : bytes :=
  alter (fun b => Z.lor b (Z.shiftl 1 (bit mod 8))) (Z.to_nat (1 + bit / 8)) filter.

Definition build_budget_capped_bloom_filter (values : list bytes) (budget_bytes : Z) : bytes :=
  let total_bytes := Z.max budget_bytes 9 in
  let bitset_bytes := saturating_sub total_bytes 1 in
  let filter := replicate (Z.to_nat total_bytes) 3 in
  if bitset_bytes =? 0 then filter
  else
    foldl (fun filter val =>
      foldl set_bit filter (bloom_hashes val (bitset_bytes * 8) (nth 0 filter 0)))
      filter values.

Definition build_exact_membership_filter (values : list bytes) : bytes :=
  foldl (fun encoded val =>
    encoded ++ be_bytes 4 (Z.of_nat (length val) mod 2 ^ 32) ++ val) [0] values.

(** The [while] loop over the length-prefixed values: [rest] is the filter from
    the current offset on.  Each round consumes at least four bytes. *)
Fixpoint exact_scan (fuel : nat) (rest val : bytes) : option bool :=
  match fuel with
  | O => None
  | S fuel' =>
      if (4 <=? length rest)%nat then
        let len := of_be (take 4 rest) in
        let rest := drop 4 rest in
        if Z.of_nat (length rest) <? len then Some true
        else if bool_decide (take (Z.to_nat len) rest = val) then Some true
        else exact_scan fuel' (drop (Z.to_nat len) rest) val
      else Some false
  end.

Definition bloom_filter_might_contain (filter val : bytes) : option bool :=
  if (length filter <=? 1)%nat then Some true
  else if nth 0 filter 0 =? 0 then exact_scan (length filter) (drop 1 filter) val
  else
    Some (forallb (fun bit =>
            match filter !! Z.to_nat (1 + bit / 8) with
            | Some byte => negb (Z.land byte (Z.shiftl 1 (bit mod 8)) =? 0)
            | None => false
            end)
          (bloom_hashes val (Z.of_nat (length filter - 1) * 8) (Z.max (nth 0 filter 0) 1))).

Definition hll_add (registers : list Z) (val : bytes) : list Z :=
  let hash := as_u64 (value_hash val) in
  let idx := Z.to_nat (Z.land hash 0x3f) in
  let rho := Z.min (leading_zeros (Z.shiftr hash 6) + 1) u8_max in
  alter (fun r => Z.max r rho) idx registers.

Record ColumnStats : Type := {
  col_idx : Z;
  min_bytes : option bytes;
  max_bytes : option bytes;
  bloom_filter : option bytes;
  null_count : Z;
  distinct_count_hll : bytes
}.

Record stats_acc : Type := {
  acc_min : option bytes;
  acc_max : option bytes;
  acc_bloom_values : list bytes;
  acc_nulls : Z;
  acc_hll : list Z
}.

Definition stats_step (a : stats_acc) (val : option bytes) : stats_acc :=
  match val with
  | Some b => {|
      acc_min := match acc_min a with
                 | Some m => if bool_decide (lex_cmp b m = Lt) then Some b else Some m
                 | None => Some b
                 end;
      acc_max := match acc_max a with
                 | Some m => if bool_decide (lex_cmp b m = Gt) then Some b else Some m
                 | None => Some b
                 end;
      acc_bloom_values := acc_bloom_values a ++ [b];
      acc_nulls := acc_nulls a;
      acc_hll := hll_add (acc_hll a) b |}
  | None => {| acc_min := acc_min a; acc_max := acc_max a;
               acc_bloom_values := acc_bloom_values a;
               acc_nulls := acc_nulls a + 1; acc_hll := acc_hll a |}
  end.

Definition stats_from_values (idx : Z) (values : list (option bytes)) (bloom_budget_bytes : Z)
    : ColumnStats :=
  let a := foldl stats_step
    {| acc_min := None; acc_max := None; acc_bloom_values := []; acc_nulls := 0;
       acc_hll := replicate 64 0 |} values in
  {| col_idx := idx; min_bytes := acc_min a; max_bytes := acc_max a;
     bloom_filter :=
       match acc_bloom_values a with
       | [] => None
       | vs => Some (build_budget_capped_bloom_filter vs bloom_budget_bytes)
       end;
     null_count := acc_nulls a; distinct_count_hll := acc_hll a |}.
End filters.

(* ------------------------------------------------------------------ *)
(** ** Meet and join are semilattices *)

Lemma opt_merge_assoc f a b c :
  (forall x y z, f x (f y z) = f (f x y) z) ->
  opt_merge f a (opt_merge f b c) = opt_merge f (opt_merge f a b) c.
Proof. intros H. destruct a, b, c; simpl; try done. by rewrite H. Qed.

Lemma opt_merge_comm f a b : (forall x y, f x y = f y x) -> opt_merge f a b = opt_merge f b a.
Proof. intros H. destruct a, b; simpl; try done. by rewrite H. Qed.

Lemma opt_merge_idemp f a : (forall x, f x x = x) -> opt_merge f a a = a.
Proof. intros H. destruct a; simpl; [by rewrite H|done]. Qed.

(** Case analysis on the epoch comparisons of the goal. *)
Ltac epoch_cases :=
  repeat match goal with
  | |- context [?a <? ?b] =>
      match a with context [if _ then _ else _] => fail 1 | _ => idtac end;
      match b with context [if _ then _ else _] => fail 1 | _ => idtac end;
      destruct (Z.ltb_spec a b); simpl; try lia
  end.

Lemma progress_meet_assoc p q r :
  progress_meet p (progress_meet q r) = progress_meet (progress_meet p q) r.
Proof.
  destruct p as [e1 w1], q as [e2 w2], r as [e3 w3]. unfold progress_meet. simpl.
  epoch_cases; try done; f_equal; (lia || (apply opt_merge_assoc; lia)).
Qed.

Lemma progress_join_assoc p q r :
  progress_join p (progress_join q r) = progress_join (progress_join p q) r.
Proof.
  destruct p as [e1 w1], q as [e2 w2], r as [e3 w3]. unfold progress_join. simpl.
  epoch_cases; try done; f_equal; (lia || (apply opt_merge_assoc; lia)).
Qed.

Lemma progress_meet_comm p q : progress_meet p q = progress_meet q p.
Proof.
  destruct p as [e1 w1], q as [e2 w2]. unfold progress_meet. simpl.
  epoch_cases; try done; f_equal; (lia || (apply opt_merge_comm; lia)).
Qed.

Lemma progress_join_comm p q : progress_join p q = progress_join q p.
Proof.
  destruct p as [e1 w1], q as [e2 w2]. unfold progress_join. simpl.
  epoch_cases; try done; f_equal; (lia || (apply opt_merge_comm; lia)).
Qed.

Lemma progress_idemp p : progress_meet p p = p /\ progress_join p p = p.
Proof.
  destruct p as [e w]. unfold progress_meet, progress_join. simpl. rewrite Z.ltb_irrefl.
  split; f_equal; apply opt_merge_idemp; lia.
Qed.

Lemma progress_meet_epoch p q :
  source_epoch (progress_meet p q) = Z.min (source_epoch p) (source_epoch q).
Proof. unfold progress_meet. epoch_cases; lia. Qed.

Lemma progress_join_epoch p q :
  source_epoch (progress_join p q) = Z.max (source_epoch p) (source_epoch q).
Proof. unfold progress_join. epoch_cases; lia. Qed.

(** The progress carried by freshness tokens forms two semilattices: meet
    and join are commutative, associative and idempotent on the per-source
    progress; the meet knows exactly the sources both tokens know, at the
    smaller epoch, and the join every source either knows, at the larger. *)
Theorem freshness_progress_semilattices (a b c : FreshnessToken) :
  let sp := source_progress in
  sp (token_meet a b) = sp (token_meet b a) /\ sp (token_join a b) = sp (token_join b a) /\
  sp (token_meet a (token_meet b c)) = sp (token_meet (token_meet a b) c) /\
  sp (token_join a (token_join b c)) = sp (token_join (token_join a b) c) /\
  sp (token_meet a a) = sp a /\ sp (token_join a a) = sp a /\
  (forall s p, sp (token_meet a b) !! s = Some p <->
     exists p1 p2, sp a !! s = Some p1 /\ sp b !! s = Some p2 /\ p = progress_meet p1 p2 /\
       source_epoch p = Z.min (source_epoch p1) (source_epoch p2)) /\
  (forall s p1, sp a !! s = Some p1 -> exists p, sp (token_join a b) !! s = Some p /\
       source_epoch p1 <= source_epoch p).
Proof.
  intros sp. split_and!; unfold sp; simpl.
  1-6: apply map_eq; intros s; rewrite ?lookup_intersection_with, ?lookup_union_with,
         ?lookup_intersection_with, ?lookup_union_with.
  - destruct (source_progress a !! s), (source_progress b !! s); simpl; try done.
    by rewrite progress_meet_comm.
  - destruct (source_progress a !! s), (source_progress b !! s); simpl; try done.
    by rewrite progress_join_comm.
  - destruct (source_progress a !! s), (source_progress b !! s), (source_progress c !! s);
      simpl; try done. by rewrite progress_meet_assoc.
  - destruct (source_progress a !! s), (source_progress b !! s), (source_progress c !! s);
      simpl; try done. by rewrite progress_join_assoc.
  - destruct (source_progress a !! s) as [p|]; simpl; [|done]. by rewrite (proj1 (progress_idemp p)).
  - destruct (source_progress a !! s) as [p|]; simpl; [|done]. by rewrite (proj2 (progress_idemp p)).
  - intros s p. rewrite lookup_intersection_with.
    destruct (source_progress a !! s) as [p1|], (source_progress b !! s) as [p2|]; simpl;
      (split; [intros E; simplify_eq|intros (?&?&?&?&->&?); simplify_eq; done]).
    exists p1, p2. by rewrite progress_meet_epoch.
  - intros s p1 E. rewrite lookup_union_with, E.
    destruct (source_progress b !! s) as [p2|]; simpl; [|eauto with lia].
    eexists; split; [done|]. rewrite progress_join_epoch. lia.
Qed.

(* ------------------------------------------------------------------ *)
(** ** Filters have no false negatives *)

Lemma land_mask_testbit byte k :
  0 <= k -> negb (Z.land byte (Z.shiftl 1 k) =? 0) = Z.testbit byte k.
Proof.
  intros Hk. rewrite Z.shiftl_1_l.
  destruct (Z.testbit byte k) eqn:E.
  - destruct (Z.eqb_spec (Z.land byte (2 ^ k)) 0) as [Hz|]; [|done].
    apply (f_equal (fun z => Z.testbit z k)) in Hz.
    by rewrite Z.land_spec, E, Z.pow2_bits_true, Z.bits_0 in Hz.
  - replace (Z.land byte (2 ^ k)) with 0; [done|]. symmetry. apply Z.bits_inj'. intros j Hj.
    rewrite Z.land_spec, Z.bits_0. destruct (decide (k = j)) as [<-|]; [by rewrite E|].
    by rewrite Z.pow2_bits_false, andb_false_r.
Qed.

Definition has_bit (filter : bytes) (bit : Z) : bool :=
  match filter !! Z.to_nat (1 + bit / 8) with
  | Some byte => Z.testbit byte (bit mod 8)
  | None => false
  end.

Lemma set_bit_length f bit : length (set_bit f bit) = length f.
Proof. apply length_alter. Qed.

Lemma set_bit_header f bit : 0 <= bit -> set_bit f bit !! 0%nat = f !! 0%nat.
Proof. intros. apply list_lookup_alter_ne. pose proof (Z.div_pos bit 8). lia. Qed.

Lemma set_bit_sets f bit :
  0 <= bit -> bit < 8 * (Z.of_nat (length f) - 1) -> has_bit (set_bit f bit) bit = true.
Proof.
  intros H0 H1. unfold has_bit, set_bit. rewrite list_lookup_alter_eq.
  destruct (lookup_lt_is_Some_2 f (Z.to_nat (1 + bit / 8))) as [byte ->].
  { pose proof (Z.div_pos bit 8). pose proof (Z.div_lt_upper_bound bit 8 (Z.of_nat (length f) - 1)). lia. }
  cbn [fmap option_fmap option_map]. pose proof (Z.mod_pos_bound bit 8).
  rewrite Z.lor_spec, Z.shiftl_1_l, Z.pow2_bits_true by lia. apply orb_true_r.
Qed.

Lemma set_bit_mono f bit bit' : has_bit f bit' = true -> has_bit (set_bit f bit) bit' = true.
Proof.
  unfold has_bit, set_bit.
  destruct (decide (Z.to_nat (1 + bit / 8) = Z.to_nat (1 + bit' / 8))) as [->|Hne].
  - rewrite list_lookup_alter_eq. destruct (f !! _) as [byte|]; cbn [fmap option_fmap option_map]; [|done].
    rewrite Z.lor_spec. by intros ->.
  - by rewrite list_lookup_alter_ne.
Qed.

Lemma set_bits bits f :
  (forall b, b ∈ bits -> 0 <= b < 8 * (Z.of_nat (length f) - 1)) ->
  length (foldl set_bit f bits) = length f /\ foldl set_bit f bits !! 0%nat = f !! 0%nat /\
  (forall b, b ∈ bits \/ has_bit f b = true -> has_bit (foldl set_bit f bits) b = true).
Proof.
  revert f. induction bits as [|b bits IH]; intros f Hb; simpl.
  { split_and!; try done. intros b [?%elem_of_nil|?]; done. }
  destruct (IH (set_bit f b)) as (Hl & Hh & Hs).
  { intros b' Hb'. rewrite set_bit_length. apply Hb. by right. }
  specialize (Hb b ltac:(left)) as Hb0. rewrite Hl, Hh, set_bit_length, set_bit_header by lia.
  split_and!; try done. intros b' [[->|Hin]%elem_of_cons|Hf]; apply Hs.
  - right. apply set_bit_sets; lia.
  - by left.
  - right. by apply set_bit_mono.
Qed.

Section filter_lemmas.
Context (seed_hash : Z -> bytes -> Z) (value_hash : bytes -> Z).

Lemma bloom_hashes_range val m h b :
  0 < m -> b ∈ bloom_hashes seed_hash val m h -> 0 <= b < m.
Proof.
  intros Hm. unfold bloom_hashes. rewrite list_elem_of_fmap. intros (s & -> & _).
  pose proof (Z.mod_pos_bound (as_u64 (seed_hash (Z.of_nat s) val)) (Z.max m 1)). lia.
Qed.

(** Adding values keeps the size and the header byte and sets all their bits. *)
Lemma bloom_insert_all values f n :
  f !! 0%nat = Some 3 -> Z.of_nat (length f) = n + 1 -> 0 < n ->
  let g := foldl (fun filter val =>
    foldl set_bit filter (bloom_hashes seed_hash val (n * 8) (nth 0 filter 0))) f values in
  length g = length f /\ g !! 0%nat = Some 3 /\
  (forall b, has_bit f b = true -> has_bit g b = true) /\
  (forall val b, val ∈ values -> b ∈ bloom_hashes seed_hash val (n * 8) 3 -> has_bit g b = true).
Proof.
  intros Hh Hl Hn. revert f Hh Hl. induction values as [|val values IH]; intros f Hh Hl; cbn [foldl].
  { split_and!; try done. by intros ?? ?%elem_of_nil. }
  rewrite (nth_lookup_Some f 0 0 3 Hh).
  destruct (set_bits (bloom_hashes seed_hash val (n * 8) 3) f) as (Hl' & Hh' & Hs').
  { intros b Hb. apply bloom_hashes_range in Hb; lia. }
  destruct (IH (foldl set_bit f (bloom_hashes seed_hash val (n * 8) 3))) as (Hl2 & Hh2 & Hm & Hs);
    [by rewrite Hh'|by rewrite Hl'|].
  split_and!; [by rewrite Hl2|done|intros b Hb; apply Hm, Hs'; by right|].
  intros val' b [->|Hin]%elem_of_cons Hb; [apply Hm, Hs'; by left|by apply (Hs val')].
Qed.

Lemma bloom_contains values budget val :
  val ∈ values ->
  bloom_filter_might_contain seed_hash
    (build_budget_capped_bloom_filter seed_hash values budget) val = Some true.
Proof.
  intros Hin. unfold build_budget_capped_bloom_filter.
  set (n := saturating_sub (Z.max budget 9) 1).
  assert (n = Z.max budget 9 - 1) as En by (unfold n; rlia).
  replace (n =? 0) with false by lia.
  destruct (bloom_insert_all values (replicate (Z.to_nat (Z.max budget 9)) 3) n)
    as (Hl & Hh & _ & Hs).
  { apply lookup_replicate. lia. }
  { rewrite length_replicate. lia. }
  { lia. }
  set (g := foldl _ _ values) in *. rewrite length_replicate in Hl.
  unfold bloom_filter_might_contain. rewrite Hl, (nth_lookup_Some g 0 0 3 Hh).
  replace (Z.to_nat (Z.max budget 9) <=? 1)%nat with false by lia. cbn [Z.eqb]. f_equal.
  apply forallb_forall. intros b Hb%list_elem_of_In.
  replace (Z.of_nat (Z.to_nat (Z.max budget 9) - 1)) with n in Hb by lia.
  pose proof (Hs val b Hin Hb) as Hbit. unfold has_bit in Hbit. cbv beta.
  destruct (g !! Z.to_nat (1 + b / 8)) as [byte|]; [|done].
  rewrite land_mask_testbit; [done|]. apply Z.mod_pos_bound. lia.
Qed.

(** *** The exact filter *)

Definition exact_entry (val : bytes) : bytes :=
  be_bytes 4 (Z.of_nat (length val) mod 2 ^ 32) ++ val.

Lemma build_exact_eq values :
  build_exact_membership_filter values = 0 :: concat (exact_entry <$> values).
Proof.
  unfold build_exact_membership_filter. change (0 :: concat _) with ([0] ++ concat (exact_entry <$> values)).
  generalize [0]. induction values as [|val values IH]; intros acc; simpl; [by rewrite app_nil_r|].
  rewrite IH, <-app_assoc. done.
Qed.

Lemma exact_scan_total fuel rest val :
  (length rest < fuel)%nat -> is_Some (exact_scan fuel rest val).
Proof.
  revert rest. induction fuel as [|fuel IH]; intros rest Hf; [lia|]. cbn [exact_scan].
  destruct (Nat.leb_spec 4 (length rest)); [|by eexists].
  destruct (_ <? _); [by eexists|]. case_bool_decide; [by eexists|].
  apply IH. rewrite !length_drop. lia.
Qed.

Lemma exact_scan_concat fuel values val :
  Forall (fun v => Z.of_nat (length v) < 2 ^ 32) values ->
  (length (concat (exact_entry <$> values)) < fuel)%nat ->
  exact_scan fuel (concat (exact_entry <$> values)) val = Some (bool_decide (val ∈ values)).
Proof.
  intros Hv. revert fuel. induction Hv as [|v values Hlen _ IH]; intros [|fuel] Hf; try (simpl in Hf; lia).
  { done. }
  rewrite fmap_cons in *. cbn [concat] in *. unfold exact_entry at 1. rewrite <-app_assoc.
  unfold exact_entry at 1 in Hf. rewrite !length_app, length_be_bytes in Hf. cbn [exact_scan].
  rewrite !length_app, length_be_bytes. cbn [Nat.leb Nat.add].
  rewrite take_app_length', drop_app_length' by (by rewrite length_be_bytes).
  rewrite of_be_be_bytes_id by (change (256 ^ Z.of_nat 4) with (2 ^ 32); apply Z.mod_pos_bound; lia).
  rewrite Z.mod_small, Nat2Z.id, length_app by lia.
  replace (_ <? _) with false by lia.
  rewrite take_app_length, drop_app_length, IH by lia. destruct (decide (v = val)) as [->|Hne].
  - rewrite !bool_decide_eq_true_2; [done|by apply elem_of_cons; left|done].
  - rewrite (bool_decide_eq_false_2 (v = val)) by done. f_equal. apply bool_decide_ext.
    rewrite elem_of_cons. split; [by right|by intros [->|]].
Qed.

(** The membership filters used for pruning never lose a value.  The query
    always terminates; a budget-capped Bloom filter, whatever its budget and
    the hash function, answers yes for every value it was built from; and an
    exact filter (of at least one value, each below 4 GiB) answers yes exactly
    for its values. *)
Theorem membership_filters_sound (values : list bytes) (budget : Z) (filter val : bytes) :
  is_Some (bloom_filter_might_contain seed_hash filter val) /\
  (val ∈ values -> bloom_filter_might_contain seed_hash
     (build_budget_capped_bloom_filter seed_hash values budget) val = Some true) /\
  (values <> [] -> Forall (fun v => Z.of_nat (length v) < 2 ^ 32) values ->
     bloom_filter_might_contain seed_hash (build_exact_membership_filter values) val
     = Some (bool_decide (val ∈ values))).
Proof.
  split; [|split; [apply bloom_contains|]].
  - unfold bloom_filter_might_contain. destruct (Nat.leb_spec (length filter) 1); [by eexists|].
    destruct (_ =? 0); [|by eexists]. apply exact_scan_total. rewrite length_drop. lia.
  - intros Hne Hlen. rewrite build_exact_eq. unfold bloom_filter_might_contain. cbn [length nth drop].
    replace (_ <=? 1)%nat with false.
    + apply exact_scan_concat; [done|lia].
    + destruct values as [|v values]; [done|]. rewrite fmap_cons. cbn [concat]. unfold exact_entry.
      rewrite !length_app, length_be_bytes. simpl. lia.
Qed.
End filter_lemmas.


(** The bit set is allocated with the hash count in every byte, not only in the
    header byte: two of eight bits are set before any value is added. *)
Lemma bloom_bits_preset seed_hash values budget bit :
  0 <= bit < 8 * (Z.max budget 9 - 1) -> bit mod 8 < 2 ->
  has_bit (build_budget_capped_bloom_filter seed_hash values budget) bit = true.
Proof.
  intros Hb Hm. unfold build_budget_capped_bloom_filter.
  set (n := saturating_sub (Z.max budget 9) 1).
  assert (n = Z.max budget 9 - 1) as En by (unfold n; rlia).
  replace (n =? 0) with false by lia.
  destruct (bloom_insert_all seed_hash values (replicate (Z.to_nat (Z.max budget 9)) 3) n)
    as (_ & _ & Hmono & _);
    [apply lookup_replicate; lia|rewrite length_replicate; lia|lia|].
  apply Hmono. unfold has_bit. rewrite lookup_replicate_2.
  - pose proof (Z.mod_pos_bound bit 8). assert (bit mod 8 = 0 \/ bit mod 8 = 1) as [-> | ->] by lia; done.
  - pose proof (Z.div_pos bit 8). pose proof (Z.div_lt_upper_bound bit 8 (Z.max budget 9 - 1)). lia.
Qed.

Section stats_lemmas.
Context (seed_hash : Z -> bytes -> Z) (value_hash : bytes -> Z).

Definition stats_inv (values : list (option bytes)) (a : stats_acc) : Prop :=
  acc_bloom_values a = omap id values /\
  acc_nulls a = Z.of_nat (length (base.filter (fun v => v = None) values)) /\
  (forall b, Some b ∈ values -> exists lo hi, acc_min a = Some lo /\ acc_max a = Some hi /\
     lex_cmp lo b <> Gt /\ lex_cmp b hi <> Gt) /\
  (forall m, acc_min a = Some m \/ acc_max a = Some m -> Some m ∈ values).

Lemma stats_step_inv values a v :
  stats_inv values a -> stats_inv (values ++ [v]) (stats_step value_hash a v).
Proof.
  intros (Hbl & Hn & Hb & Hm). unfold stats_inv. rewrite omap_app, filter_app, length_app.
  assert (length (base.filter (fun v : option bytes => v = None) [v])
          = match v with None => 1%nat | Some _ => 0%nat end) as -> by (by destruct v).
  destruct v as [b|].
  2: { split_and!; cbn [stats_step acc_nulls acc_bloom_values acc_min acc_max];
         [by rewrite Hbl, app_nil_r|lia| |].
       - intros b [Hin|Hin%list_elem_of_singleton]%elem_of_app; [by apply Hb|done].
       - intros m Hin. apply elem_of_app. left. by apply Hm. }
  split_and!; cbn [stats_step acc_nulls acc_bloom_values acc_min acc_max].
  - by rewrite Hbl.
  - lia.
  - intros c Hc. assert (exists lo hi, acc_min (stats_step value_hash a (Some b)) = Some lo /\
      acc_max (stats_step value_hash a (Some b)) = Some hi /\
      lex_cmp lo b <> Gt /\ lex_cmp b hi <> Gt /\
      (forall m, acc_min a = Some m -> lex_cmp lo m <> Gt) /\
      (forall m, acc_max a = Some m -> lex_cmp m hi <> Gt)) as (lo & hi & E1 & E2 & L1 & L2 & L3 & L4).
    { simpl. pose proof (lex_cmp_refl b) as Hr.
      assert (forall m, lex_cmp m m <> Gt) as Hrefl by (intros; by rewrite lex_cmp_refl).
      destruct (acc_min a) as [m|], (acc_max a) as [m'|]; repeat case_bool_decide;
        do 2 eexists; split_and!; try reflexivity; try (intros ? [= <-]); try done; try apply Hrefl;
        intros Hx; first [congruence|apply lex_cmp_Gt in Hx; congruence
                         |rewrite lex_cmp_Gt in *; congruence]. }
    exists lo, hi. split_and!; try done.
    + apply elem_of_app in Hc as [Hc|[= ->]%list_elem_of_singleton]; [|done].
      destruct (Hb c Hc) as (lo' & hi' & F1 & _ & G & _). eapply lex_cmp_le_trans; [by apply L3|done].
    + apply elem_of_app in Hc as [Hc|[= ->]%list_elem_of_singleton]; [|done].
      destruct (Hb c Hc) as (lo' & hi' & _ & F2 & _ & G). eapply lex_cmp_le_trans; [done|by apply L4].
  - intros m Hin. apply elem_of_app. rewrite list_elem_of_singleton.
    destruct (acc_min a), (acc_max a), Hin as [Hin|Hin]; repeat case_bool_decide; simplify_eq; auto.
Qed.

Lemma stats_fold_inv values :
  stats_inv values (foldl (stats_step value_hash)
    {| acc_min := None; acc_max := None; acc_bloom_values := []; acc_nulls := 0;
       acc_hll := replicate 64 0 |} values).
Proof.
  induction values as [|v values IH] using rev_ind.
  - split_and!; try done; [by intros b ?%elem_of_nil|by intros m [[=]|[=]]].
  - rewrite foldl_app. by apply stats_step_inv.
Qed.

(** Column statistics support pruning soundly: every non-null value of the
    column lies between the recorded minimum and maximum in byte order, both
    of which are values of the column, the recorded filter answers yes for it,
    and the null count is the number of nulls. *)
Theorem column_stats_sound (idx budget : Z) (values : list (option bytes)) (b : bytes) :
  let st := stats_from_values seed_hash value_hash idx values budget in
  null_count st = Z.of_nat (length (base.filter (fun v => v = None) values)) /\
  (forall m, min_bytes st = Some m \/ max_bytes st = Some m -> Some m ∈ values) /\
  (Some b ∈ values ->
   exists lo hi f, min_bytes st = Some lo /\ max_bytes st = Some hi /\ bloom_filter st = Some f /\
     lex_cmp lo b <> Gt /\ lex_cmp b hi <> Gt /\
     bloom_filter_might_contain seed_hash f b = Some true).
Proof.
  intros st. destruct (stats_fold_inv values) as (Hbl & Hn & Hb & Hm).
  unfold st, stats_from_values. set (a := foldl _ _ values) in *. cbn.
  split_and!; [done|done|]. intros Hin. destruct (Hb b Hin) as (lo & hi & E1 & E2 & L1 & L2).
  assert (b ∈ acc_bloom_values a) as Hbv.
  { rewrite Hbl. apply list_elem_of_omap. by exists (Some b). }
  exists lo, hi, (build_budget_capped_bloom_filter seed_hash (acc_bloom_values a) budget).
  split_and!; try done.
  - by destruct (acc_bloom_values a); [apply elem_of_nil in Hbv|].
  - by apply bloom_contains.
Qed.
End stats_lemmas.

