(* ===== verification/ArrowZSets.v ===== *)
(** * Columnar Z-sets ([rockstream-ops/src/zset.rs])

    [ArrowZSet] pairs an Arrow record batch with one weight per row.  Arrow is
    an external library: [ArrowOps] is the part of its interface the operators
    call and [ArrowLaws] its documented behaviour; [IntArrow] is a concrete
    instance with 64-bit integer columns.  The meaning of a batch is its list of
    rows with their weights. *)
From stdpp Require Import base tactics list gmap numbers option fin_maps.
From Stdlib Require Import ZArith Lia ZifyBool.
From S2P Require Import Prelude Kernels Progress.
Local Open Scope Z_scope.

(* ------------------------------------------------------------------ *)
(** ** The Arrow interface *)

Class ArrowOps : Type := {
  Array : Type;
  Schema : Type;
  RecordBatch : Type;
  ArrowError : Type;
  Cell : Type;
  (** The logical values of an array. *)
  cells : Array -> list Cell;
  batch_num_rows : RecordBatch -> nat;
  batch_columns : RecordBatch -> list Array;
  batch_schema : RecordBatch -> Schema;
  num_fields : Schema -> nat;
  (** [new_empty_array] of each field's type. *)
  empty_columns : Schema -> list Array;
  (** [RecordBatch::try_new] *)
  batch_try_new : Schema -> list Array -> result ArrowError RecordBatch;
  (** [arrow::compute::filter] and [take] *)
  array_filter : Array -> list bool -> result ArrowError Array;
  array_take : Array -> list Z -> result ArrowError Array;
  (** [Int64Array::from] and [downcast_ref::<Int64Array>] with its values *)
  int64_array : list Z -> Array;
  as_int64 : Array -> option (list Z);
  (** A column conforms to the schema's field: type and nullability agree. *)
  conforms : Schema -> list Array -> Prop;
  (** All fields are 64-bit integers. *)
  int64_schema : Schema -> Prop
}.

Fixpoint mask_filter {A} (mask : list bool) (l : list A) : list A :=
  match mask, l with
  | b :: mask', x :: l' => if b then x :: mask_filter mask' l' else mask_filter mask' l'
  | _, _ => []
  end.

Definition gather {A} (idx : list Z) (l : list A) : list A :=
  omap (fun i => l !! Z.to_nat i) idx.

Class ArrowLaws `{ArrowOps} : Prop := {
  batch_columns_len b : Forall (fun c => length (cells c) = batch_num_rows b) (batch_columns b);
  batch_conforms b : conforms (batch_schema b) (batch_columns b);
  conforms_fields s cols : conforms s cols -> length cols = num_fields s;
  (** Building a batch succeeds for conforming columns of one length; a batch
      without columns needs an explicit row count and is refused. *)
  batch_try_new_ok s cols n :
    conforms s cols -> cols <> [] -> Forall (fun c => length (cells c) = n) cols ->
    exists b, batch_try_new s cols = Ok b /\ batch_columns b = cols /\ batch_schema b = s /\
      batch_num_rows b = n;
  empty_columns_ok s : conforms s (empty_columns s) /\ Forall (fun c => cells c = []) (empty_columns s);
  array_filter_ok a mask : length mask = length (cells a) ->
    exists a', array_filter a mask = Ok a' /\ cells a' = mask_filter mask (cells a);
  array_take_ok a idx : Forall (fun i => 0 <= i < Z.of_nat (length (cells a))) idx ->
    exists a', array_take a idx = Ok a' /\ cells a' = gather idx (cells a);
  (** Filtering and gathering keep the type and introduce no nulls. *)
  filter_conforms s cols cols' mask :
    conforms s cols -> Forall2 (fun c c' => array_filter c mask = Ok c') cols cols' -> conforms s cols';
  take_conforms s cols cols' idx :
    conforms s cols -> Forall2 (fun c c' => array_take c idx = Ok c') cols cols' -> conforms s cols';
  as_int64_array l : Forall (fun v => in_i64 v) l -> as_int64 (int64_array l) = Some l;
  as_int64_range a l : as_int64 a = Some l -> Forall (fun v => in_i64 v) l;
  cells_int64_array l : length (cells (int64_array l)) = length l;
  as_int64_len a l : as_int64 a = Some l -> length l = length (cells a);
  int64_conforms s cols : int64_schema s -> length cols = num_fields s ->
    conforms s (int64_array <$> cols);
  int64_schema_columns s cols : int64_schema s -> conforms s cols ->
    Forall (fun c => is_Some (as_int64 c)) cols
}.

(* ------------------------------------------------------------------ *)
(** ** ArrowZSet *)

Section arrow_zset.
Context `{ArrowOps}.

Inductive OpError : Type :=
| OpArrow (e : ArrowError)
| InvalidLiteral
| NumericOverflow
| RowIndexOutOfBounds (i n : Z)
| OpOther.

Record ArrowZSet : Type := {
  data : RecordBatch;
  weights : list Z;
  frontier : option FreshnessToken
}.

Definition num_rows (z : ArrowZSet) : nat := batch_num_rows (data z).
Definition is_empty (z : ArrowZSet) : bool := (batch_num_rows (data z) =? 0)%nat.

Definition aligned (b : RecordBatch) (w : list Z) : bool :=
  ZsetK.validate_aligned_lengths (Z.of_nat (batch_num_rows b)) (Z.of_nat (length w)).

Definition zset_try_new (b : RecordBatch) (w : list Z) : result OpError ArrowZSet :=
  if negb (aligned b w) then Err InvalidLiteral
  else Ok {| data := b; weights := w; frontier := None |}.

(** [expect] on a [Result] *)
Definition expect_ok {E A} (r : result E A) : outcome A :=
  match r with Ok a => Done a | Err _ => Panic end.

Definition zset_new (b : RecordBatch) (w : list Z) : outcome ArrowZSet :=
  expect_ok (zset_try_new b w).

Definition validate (z : ArrowZSet) : result OpError unit :=
  if aligned (data z) (weights z) then Ok tt else Err InvalidLiteral.

Definition with_frontier (z : ArrowZSet) (f : FreshnessToken) : ArrowZSet :=
  {| data := data z; weights := weights z; frontier := Some f |}.

Definition zset_empty (s : Schema) : outcome ArrowZSet :=
  b ← expect_ok (batch_try_new s (empty_columns s));
  expect_ok (zset_try_new b []).

(** [collect] of fallible column computations. *)
Fixpoint collect {E A} (l : list (result E A)) : result E (list A) :=
  match l with
  | [] => Ok []
  | r :: l' => a ← r; rest ← collect l'; Ok (a :: rest)
  end.

Definition compact (z : ArrowZSet) : outcome ArrowZSet :=
  _ ← expect_ok (validate z);
  let mask := (fun w => negb (ZsetK.weight_cancels w)) <$> weights z in
  if forallb id mask then Done z
  else
    cols ← expect_ok (collect ((fun c => array_filter c mask) <$> batch_columns (data z)));
    new_data ← expect_ok (batch_try_new (batch_schema (data z)) cols);
    Done {| data := new_data; weights := mask_filter mask (weights z); frontier := frontier z |}.

(** The index loop of [select_rows]: every index is checked against the row
    count; [usize] to [u64] never fails on a 64-bit target. *)
Fixpoint check_indices (n : nat) (indices : list Z) : result OpError (list Z) :=
  match indices with
  | [] => Ok []
  | i :: rest =>
      if negb (ZsetK.validate_index i (Z.of_nat n)) then Err (RowIndexOutOfBounds i (Z.of_nat n))
      else rest' ← check_indices n rest; Ok (i :: rest')
  end.

Definition map_op_err {E F A} (f : E -> F) (r : result E A) : result F A :=
  match r with Ok a => Ok a | Err e => Err (f e) end.

Definition select_rows (z : ArrowZSet) (indices : list Z) : outcome (result OpError ArrowZSet) :=
  match validate z with
  | Err e => Done (Err e)
  | Ok _ =>
      match indices with
      | [] =>
          e ← zset_empty (batch_schema (data z));
          Done (Ok {| data := data e; weights := weights e; frontier := frontier z |})
      | _ =>
          Done (
            take_indices ← check_indices (num_rows z) indices;
            cols ← map_op_err OpArrow
              (collect ((fun c => array_take c take_indices) <$> batch_columns (data z)));
            new_data ← map_op_err OpArrow (batch_try_new (batch_schema (data z)) cols);
            let new_weights := (fun i => nth (Z.to_nat i) (weights z) 0) <$> indices in
            r ← zset_try_new new_data new_weights;
            Ok {| data := data r; weights := weights r; frontier := frontier z |})
      end
  end.

(** The row loop of [try_accumulate_ab] over the two integer columns.  The map
    is updated in place, so on overflow it keeps the rows added so far. *)
Fixpoint accumulate_rows (rows : list (Z * Z * Z)) (acc : gmap (Z * Z) Z)
    : gmap (Z * Z) Z * result OpError unit :=
  match rows with
  | [] => (acc, Ok tt)
  | (a, b, w) :: rest =>
      match ZsetK.consolidate_weight (default 0 (acc !! (a, b))) w with
      | None => (acc, Err NumericOverflow)
      | Some next =>
          accumulate_rows rest
            (if ZsetK.weight_cancels next then delete (a, b) acc else <[(a, b) := next]> acc)
      end
  end.

(** [column(i)] panics when the batch has fewer columns. *)
Definition try_accumulate_ab (z : ArrowZSet) (acc : gmap (Z * Z) Z)
    : outcome (gmap (Z * Z) Z * result OpError unit) :=
  match validate z with
  | Err e => Done (acc, Err e)
  | Ok _ =>
      if is_empty z then Done (acc, Ok tt)
      else
        a_col ← expect (batch_columns (data z) !! 0%nat);
        b_col ← expect (batch_columns (data z) !! 1%nat);
        match as_int64 a_col, as_int64 b_col with
        | Some a, Some b => Done (accumulate_rows (zip (zip a b) (weights z)) acc)
        | _, _ => Done (acc, Ok tt)
        end
  end.

(** The rows of a batch and the weighted rows of a Z-set. *)
Definition row (b : RecordBatch) (i : nat) : list Cell :=
  omap (fun c => cells c !! i) (batch_columns b).
Definition rows (b : RecordBatch) : list (list Cell) := row b <$> seq 0 (batch_num_rows b).
Definition entries (z : ArrowZSet) : list (list Cell * Z) := zip (rows (data z)) (weights z).
End arrow_zset.

(* ------------------------------------------------------------------ *)
(** ** Gathering *)

Definition in_bounds (n : nat) (idx : list Z) : Prop := Forall (fun i => 0 <= i < Z.of_nat n) idx.

Lemma gather_lookup {A} (idx : list Z) (l : list A) j :
  in_bounds (length l) idx -> gather idx l !! j = (i ← idx !! j; l !! Z.to_nat i).
Proof.
  intros Hb. revert j. induction Hb as [|i idx Hi Hb IH]; intros j; [done|].
  unfold gather. cbn [omap list_omap].
  destruct (lookup_lt_is_Some_2 l (Z.to_nat i)) as [x Hx]; [lia|]. rewrite Hx.
  destruct j as [|j]; [done|]. apply IH.
Qed.

Lemma length_gather {A} (idx : list Z) (l : list A) :
  in_bounds (length l) idx -> length (gather idx l) = length idx.
Proof.
  induction 1 as [|i idx Hi Hb IH]; [done|]. unfold gather in *. cbn [omap list_omap].
  destruct (lookup_lt_is_Some_2 l (Z.to_nat i)) as [x ->]; [lia|]. simpl. by rewrite IH.
Qed.

Lemma gather_zip {A B} (idx : list Z) (l : list A) (k : list B) :
  length l = length k -> in_bounds (length l) idx ->
  gather idx (zip l k) = zip (gather idx l) (gather idx k).
Proof.
  intros Hlk. induction 1 as [|i idx Hi Hb IH]; [done|]. unfold gather in *. cbn [omap list_omap].
  destruct (lookup_lt_is_Some_2 l (Z.to_nat i)) as [x Hx]; [lia|].
  destruct (lookup_lt_is_Some_2 k (Z.to_nat i)) as [y Hy]; [lia|].
  assert (zip l k !! Z.to_nat i = Some (x, y)) as Hz by (apply lookup_zip_with_Some; eauto).
  rewrite Hx, Hy, Hz. simpl. by rewrite IH.
Qed.

Lemma gather_nth (idx l : list Z) :
  in_bounds (length l) idx -> gather idx l = (fun i => nth (Z.to_nat i) l 0) <$> idx.
Proof.
  induction 1 as [|i idx Hi Hb IH]; [done|]. unfold gather in *. cbn [omap list_omap].
  destruct (lookup_lt_is_Some_2 l (Z.to_nat i)) as [x Hx]; [lia|].
  rewrite Hx, fmap_cons, IH. f_equal. symmetry. by apply nth_lookup_Some.
Qed.

(** A mask selects the indices at which it is true. *)
Definition mask_idx (mask : list bool) : list Z :=
  mask_filter mask (seqZ 0 (Z.of_nat (length mask))).

Lemma mask_filter_gather_pre {A} (mask : list bool) (pre l : list A) :
  length mask = length l ->
  mask_filter mask l =
  gather (mask_filter mask (seqZ (Z.of_nat (length pre)) (Z.of_nat (length mask)))) (pre ++ l).
Proof.
  revert pre l. induction mask as [|b mask IH]; intros pre [|x l] Hl; try done.
  injection Hl as Hl. cbn [length mask_filter]. rewrite seqZ_cons by lia. cbn [mask_filter].
  rewrite (IH (pre ++ [x]) l Hl), length_app, <-app_assoc. cbn [length app].
  replace (Z.succ (Z.of_nat (length pre))) with (Z.of_nat (length pre + 1)) by lia.
  replace (Z.pred (Z.of_nat (S (length mask)))) with (Z.of_nat (length mask)) by lia.
  destruct b; [|done]. unfold gather at 2. cbn [omap list_omap].
  rewrite Nat2Z.id, list_lookup_middle by done. done.
Qed.

Lemma mask_filter_gather {A} (mask : list bool) (l : list A) :
  length mask = length l -> mask_filter mask l = gather (mask_idx mask) l.
Proof. apply (mask_filter_gather_pre mask [] l). Qed.

Lemma mask_idx_bounds_from mask k n :
  0 <= k -> k + Z.of_nat (length mask) <= Z.of_nat n ->
  in_bounds n (mask_filter mask (seqZ k (Z.of_nat (length mask)))).
Proof.
  revert k. induction mask as [|b mask IH]; intros k Hk Hn; [constructor|].
  cbn [length] in *. rewrite seqZ_cons by lia. cbn [mask_filter].
  replace (Z.pred (Z.of_nat (S (length mask)))) with (Z.of_nat (length mask)) by lia.
  assert (in_bounds n (mask_filter mask (seqZ (Z.succ k) (Z.of_nat (length mask))))) by (apply IH; lia).
  destruct b; [|done]. constructor; [lia|done].
Qed.

Lemma mask_idx_bounds mask : in_bounds (length mask) (mask_idx mask).
Proof. apply mask_idx_bounds_from; lia. Qed.

(* ------------------------------------------------------------------ *)
(** ** Batches *)

Section batch_lemmas.
Context `{ArrowLaws}.

Lemma aligned_spec b w : aligned b w = true <-> batch_num_rows b = length w.
Proof. unfold aligned, ZsetK.validate_aligned_lengths. lia. Qed.

Lemma length_rows b : length (rows b) = batch_num_rows b.
Proof. unfold rows. by rewrite length_fmap, length_seq. Qed.

Lemma collect_Forall2 {E A B} (f : A -> result E B) l l' :
  Forall2 (fun a b => f a = Ok b) l l' -> collect (f <$> l) = Ok l'.
Proof.
  induction 1 as [|a b l l' Hab _ IH]; [done|]. rewrite fmap_cons. cbn [collect].
  by rewrite Hab, IH.
Qed.

(** Column by column, an operation that gathers rows succeeds. *)
Lemma gather_columns (f : Array -> result ArrowError Array) (cols : list Array) idx :
  Forall (fun c => exists c', f c = Ok c' /\ cells c' = gather idx (cells c)) cols ->
  exists cols', Forall2 (fun c c' => f c = Ok c') cols cols' /\
    Forall2 (fun c c' => cells c' = gather idx (cells c)) cols cols'.
Proof.
  induction 1 as [|c cols (c' & Hf & Hc) _ (cols' & H1 & H2)]; [by exists []|].
  exists (c' :: cols'). split; by constructor.
Qed.

Lemma row_gather b cols' idx j i :
  Forall2 (fun c c' => cells c' = gather idx (cells c)) (batch_columns b) cols' ->
  in_bounds (batch_num_rows b) idx -> idx !! j = Some i ->
  omap (fun c' => cells c' !! j) cols' = row b (Z.to_nat i).
Proof.
  intros Hc Hb Hj. unfold row. pose proof (batch_columns_len b) as Hl.
  induction Hc as [|c c' cols cols' Hcc _ IH]; [done|]. inversion_clear Hl as [|? ? Hlc Hlcols].
  cbn [omap list_omap]. rewrite Hcc, gather_lookup, Hj by (by rewrite Hlc).
  cbn [mbind option_bind]. destruct (cells c !! Z.to_nat i); by rewrite IH.
Qed.

Lemma rows_gather b b' idx :
  Forall2 (fun c c' => cells c' = gather idx (cells c)) (batch_columns b) (batch_columns b') ->
  in_bounds (batch_num_rows b) idx -> batch_num_rows b' = length idx ->
  rows b' = gather idx (rows b).
Proof.
  intros Hc Hb Hn. apply list_eq. intros j.
  rewrite gather_lookup by (by rewrite length_rows). unfold rows. rewrite list_lookup_fmap.
  destruct (idx !! j) as [i|] eqn:Hj; cbn [mbind option_bind].
  - pose proof (lookup_lt_Some _ _ _ Hj) as Hlt.
    rewrite lookup_seq_lt by lia. rewrite list_lookup_fmap.
    pose proof (proj1 (Forall_lookup _ idx) Hb j i Hj) as Hi. cbv beta in Hi.
    rewrite lookup_seq_lt by lia. simpl. f_equal. by apply (row_gather b _ idx).
  - apply lookup_ge_None in Hj. by rewrite lookup_seq_ge by lia.
Qed.

(** The common core of compaction and row selection. *)
Lemma gather_batch (f : Array -> result ArrowError Array) b idx :
  batch_columns b <> [] -> in_bounds (batch_num_rows b) idx ->
  (forall c, length (cells c) = batch_num_rows b ->
     exists c', f c = Ok c' /\ cells c' = gather idx (cells c)) ->
  (forall cols', Forall2 (fun c c' => f c = Ok c') (batch_columns b) cols' ->
     conforms (batch_schema b) cols') ->
  exists cols' b', collect (f <$> batch_columns b) = Ok cols' /\
    batch_try_new (batch_schema b) cols' = Ok b' /\ batch_num_rows b' = length idx /\
    batch_schema b' = batch_schema b /\ rows b' = gather idx (rows b).
Proof.
  intros Hne Hb Hf Hconf.
  destruct (gather_columns f (batch_columns b) idx) as (cols' & H1 & H2).
  { eapply Forall_impl; [apply batch_columns_len|]. intros c Hc. by apply Hf. }
  destruct (batch_try_new_ok (batch_schema b) cols' (length idx)) as (b' & Ht & Hcols & Hs & Hn).
  - by apply Hconf.
  - intros ->. by apply Forall2_nil_inv_r in H1.
  - pose proof (batch_columns_len b) as Hl. clear Hconf H1 Hne.
    induction H2 as [|c c' cols cols'' Hcc _ IH]; [constructor|].
    inversion_clear Hl. constructor; [|by apply IH].
    rewrite Hcc. apply length_gather. congruence.
  - exists cols', b'. split_and!; try done; [by apply collect_Forall2|].
    apply rows_gather; [by rewrite Hcols|done|done].
Qed.
End batch_lemmas.

(* ------------------------------------------------------------------ *)
(** ** Properties *)

Section zset_properties.
Context `{ArrowLaws}.

Lemma mask_weights (ws : list Z) {A} (l : list A) :
  length l = length ws ->
  zip (mask_filter ((fun w => negb (ZsetK.weight_cancels w)) <$> ws) l)
      (mask_filter ((fun w => negb (ZsetK.weight_cancels w)) <$> ws) ws)
  = base.filter (fun e : A * Z => e.2 <> 0) (zip l ws).
Proof.
  revert l. induction ws as [|w ws IH]; intros [|x l] Hl; try done. injection Hl as Hl.
  rewrite fmap_cons. cbn [mask_filter zip_with].
  destruct (negb (ZsetK.weight_cancels w)) eqn:E; unfold ZsetK.weight_cancels in E.
  - rewrite filter_cons_True by (simpl; lia). cbn [zip_with]. f_equal. by apply IH.
  - rewrite filter_cons_False by (simpl; lia). by apply IH.
Qed.

Lemma all_nonzero (ws : list Z) {A} (l : list A) :
  forallb id ((fun w => negb (ZsetK.weight_cancels w)) <$> ws) = true ->
  base.filter (fun e : A * Z => e.2 <> 0) (zip l ws) = zip l ws.
Proof.
  intros Hall. apply list_filter_all. intros [x w] Hin. cbn [snd].
  apply elem_of_zip_r in Hin. rewrite forallb_forall in Hall.
  specialize (Hall (negb (ZsetK.weight_cancels w))).
  intros ->. assert (negb (ZsetK.weight_cancels 0) = true); [|done]. apply Hall.
  apply list_elem_of_In, list_elem_of_fmap. by exists 0.
Qed.

(** Compaction of a columnar Z-set removes exactly the rows of weight zero
    and nothing else: on an aligned Z-set with at least one column it does not
    panic, the remaining rows keep their weights and their order, equal rows
    stay separate, and the frontier is kept. *)
Theorem compact_drops_zero_rows (z : ArrowZSet) :
  aligned (data z) (weights z) = true -> batch_columns (data z) <> [] ->
  exists z', compact z = Done z' /\ aligned (data z') (weights z') = true /\
    entries z' = base.filter (fun e => e.2 <> 0) (entries z) /\
    frontier z' = frontier z /\ batch_schema (data z') = batch_schema (data z).
Proof.
  intros Ha Hne. unfold compact, validate. rewrite Ha. cbn [expect_ok mbind outcome_bind].
  apply aligned_spec in Ha. set (mask := _ <$> weights z).
  assert (length mask = batch_num_rows (data z)) as Hm by (unfold mask; rewrite length_fmap; lia).
  destruct (forallb id mask) eqn:Hall.
  { exists z. split_and!; try done; [by apply aligned_spec|].
    symmetry. by apply all_nonzero. }
  destruct (gather_batch (fun c => array_filter c mask) (data z) (mask_idx mask))
    as (cols' & b' & -> & Hnew & Hn & Hs & Hr); try done.
  { rewrite <-Hm. apply mask_idx_bounds. }
  { intros c Hc. destruct (array_filter_ok c mask) as (c' & Hf & Hcells); [congruence|].
    exists c'. split; [done|]. rewrite Hcells. apply mask_filter_gather. congruence. }
  { intros cols' Hcols. eapply filter_conforms; [apply batch_conforms|done]. }
  cbn [expect_ok mbind outcome_bind]. rewrite Hnew. cbn [expect_ok mbind outcome_bind].
  eexists; split; [done|].
  assert (length (mask_filter mask (weights z)) = length (mask_idx mask)) as Hw.
  { rewrite mask_filter_gather by congruence. apply length_gather.
    replace (length (weights z)) with (length mask) by congruence. apply mask_idx_bounds. }
  split_and!; try done.
  - apply aligned_spec. simpl. congruence.
  - unfold entries. cbn [data weights]. rewrite Hr, <-mask_filter_gather by (by rewrite length_rows).
    apply mask_weights. by rewrite length_rows.
Qed.

Lemma check_indices_ok n idx : in_bounds n idx -> check_indices n idx = Ok idx.
Proof.
  induction 1 as [|i idx Hi _ IH]; [done|]. cbn [check_indices]. unfold ZsetK.validate_index.
  replace (i <? Z.of_nat n) with true by lia. simpl. by rewrite IH.
Qed.

Lemma check_indices_err n idx :
  Forall (fun i => 0 <= i) idx -> ~ in_bounds n idx ->
  exists i, check_indices n idx = Err (RowIndexOutOfBounds i (Z.of_nat n)) /\ i ∈ idx /\ Z.of_nat n <= i.
Proof.
  induction 1 as [|i idx Hi _ IH]; intros Hb; [exfalso; by apply Hb; constructor|].
  cbn [check_indices]. unfold ZsetK.validate_index. destruct (Z.ltb_spec i (Z.of_nat n)); simpl.
  - destruct IH as (i' & -> & Hin & Hle); [intros Hb'; apply Hb; constructor; [lia|done]|].
    exists i'. split_and!; [done|by right|done].
  - exists i. split_and!; [done|left|lia].
Qed.

(** Selecting rows gathers them: on an aligned Z-set with a column and for
    any non-empty list of row indices, repeats included, the result has the
    selected rows with their weights in the requested order and keeps the
    frontier; if any index is out of range the call fails naming one, and it
    never panics. *)
Theorem select_rows_gathers (z : ArrowZSet) (idx : list Z) :
  aligned (data z) (weights z) = true -> batch_columns (data z) <> [] ->
  idx <> [] -> Forall (fun i => 0 <= i) idx ->
  (in_bounds (num_rows z) idx ->
   exists z', select_rows z idx = Done (Ok z') /\ aligned (data z') (weights z') = true /\
     entries z' = gather idx (entries z) /\ frontier z' = frontier z) /\
  (~ in_bounds (num_rows z) idx ->
   exists i, select_rows z idx = Done (Err (RowIndexOutOfBounds i (Z.of_nat (num_rows z)))) /\
     i ∈ idx /\ Z.of_nat (num_rows z) <= i).
Proof.
  intros Ha Hne Hidx Hpos. unfold select_rows, validate. rewrite Ha.
  apply aligned_spec in Ha. destruct idx as [|i0 idx0] eqn:Eidx; [done|]. rewrite <-Eidx in *.
  split; intros Hb.
  - rewrite check_indices_ok by done. cbn [mbind result_bind].
    destruct (gather_batch (fun c => array_take c idx) (data z) idx)
      as (cols' & b' & -> & Hnew & Hn & _ & Hr); try done.
    { intros c Hc. apply array_take_ok. rewrite Hc. exact Hb. }
    { intros cols' Hcols. eapply take_conforms; [apply batch_conforms|done]. }
    cbn [map_op_err mbind result_bind]. rewrite Hnew. cbn [map_op_err mbind result_bind].
    unfold zset_try_new. rewrite (proj2 (aligned_spec b' _)) by (by rewrite length_fmap).
    cbn [negb mbind result_bind]. eexists; split; [done|]. split_and!; try done.
    + apply aligned_spec. cbn. by rewrite length_fmap.
    + unfold entries. cbn [data weights]. rewrite Hr, gather_zip by (rewrite ?length_rows; done).
      f_equal. symmetry. apply gather_nth. unfold num_rows in Hb. by rewrite <-Ha.
  - destruct (check_indices_err (num_rows z) idx) as (i & -> & Hin & Hle); try done.
    by exists i.
Qed.
End zset_properties.

(** Accumulating rows adds their weights to the map and stores no zero. *)
Lemma accumulate_rows_sum `{ArrowOps} rs acc acc' :
  accumulate_rows rs acc = (acc', Ok tt) ->
  (forall k, acc !! k <> Some 0) ->
  (forall k, acc' !! k <> Some 0) /\
  forall k, default 0 (acc' !! k) = default 0 (acc !! k)
    + foldr (fun r s => (if bool_decide (r.1 = k) then r.2 else 0) + s) 0 rs.
Proof.
  revert acc. induction rs as [|[[a b] w] rs IH]; intros acc Hacc H0; cbn [accumulate_rows] in Hacc.
  { injection Hacc as <-. split; [done|]. intros. simpl. lia. }
  unfold ZsetK.consolidate_weight, ZsetK.weight_cancels in Hacc.
  destruct (checked _ _ _) as [next|] eqn:E; [|done]. apply checked_Some in E as [-> _].
  apply IH in Hacc as [Hz Hw].
  - split; [done|]. intros k. rewrite Hw. cbn [foldr fst snd].
    destruct (decide ((a, b) = k)) as [<-|Hk].
    + rewrite bool_decide_eq_true_2 by done.
      destruct (Z.eqb_spec (default 0 (acc !! (a, b)) + w) 0) as [Hn|];
        [rewrite lookup_delete_eq|rewrite lookup_insert_eq]; simpl; lia.
    + rewrite bool_decide_eq_false_2 by done.
      destruct (_ =? 0); [rewrite lookup_delete_ne by done|rewrite lookup_insert_ne by done]; lia.
  - intros k. destruct (Z.eqb_spec (default 0 (acc !! (a, b)) + w) 0) as [|Hn];
      destruct (decide ((a, b) = k)) as [<-|Hk].
    + by rewrite lookup_delete_eq.
    + by rewrite lookup_delete_ne.
    + rewrite lookup_insert_eq. congruence.
    + by rewrite lookup_insert_ne.
Qed.

(* ------------------------------------------------------------------ *)
(** ** A concrete Arrow: integer columns without nulls *)

Module IntArrow.

Record int_batch : Type := {
  ib_rows : nat;
  ib_cols : list (list Z);
  ib_ok : forallb (fun c => (length c =? ib_rows)%nat) ib_cols = true
}.

Definition try_new (s : nat) (cols : list (list Z)) : result unit int_batch :=
  match cols with
  | [] => Err tt
  | c :: _ =>
      if (length cols =? s)%nat then
        match Bool.bool_dec (forallb (fun c' => (length c' =? length c)%nat) cols) true with
        | left H => Ok {| ib_rows := length c; ib_cols := cols; ib_ok := H |}
        | right _ => Err tt
        end
      else Err tt
  end.

#[export] Instance int_arrow : ArrowOps := {|
  Array := list Z;
  Schema := nat;
  RecordBatch := int_batch;
  ArrowError := unit;
  Cell := Z;
  cells a := a;
  batch_num_rows := ib_rows;
  batch_columns := ib_cols;
  batch_schema b := length (ib_cols b);
  num_fields s := s;
  empty_columns s := replicate s [];
  batch_try_new := try_new;
  array_filter a mask := if (length mask =? length a)%nat then Ok (mask_filter mask a) else Err tt;
  array_take a idx :=
    if forallb (fun i => (0 <=? i) && (i <? Z.of_nat (length a))) idx then Ok (gather idx a) else Err tt;
  int64_array a := a;
  as_int64 a := Some (as_i64 <$> a);
  conforms s cols := length cols = s;
  int64_schema _ := True
|}.

Lemma forallb_length n (cols : list (list Z)) :
  forallb (fun c => (length c =? n)%nat) cols = true <-> Forall (fun c => length c = n) cols.
Proof.
  rewrite forallb_forall, Forall_forall. split; intros Hl c Hc; specialize (Hl c);
    rewrite ?list_elem_of_In in *; apply Hl in Hc; lia.
Qed.

#[export] Instance int_arrow_laws : ArrowLaws.
Proof.
  split; simpl.
  - intros b. apply forallb_length, ib_ok.
  - done.
  - done.
  - intros s cols n <- Hne Hn. destruct cols as [|c cols]; [done|].
    assert (length c = n) as <- by (by inversion_clear Hn).
    unfold try_new. rewrite Nat.eqb_refl.
    destruct (Bool.bool_dec _ _) as [E|E]; [|by apply forallb_length in Hn].
    eexists; split_and!; done.
  - intros s. rewrite length_replicate. split; [done|]. by apply Forall_replicate.
  - intros a mask ->. rewrite Nat.eqb_refl. by eexists.
  - intros a idx Hi. replace (forallb _ idx) with true; [by eexists|].
    symmetry. apply forallb_forall. intros i Hin%list_elem_of_In.
    rewrite Forall_forall in Hi. apply Hi in Hin. lia.
  - intros s cols cols' mask <- Hf. symmetry. by eapply Forall2_length.
  - intros s cols cols' idx <- Hf. symmetry. by eapply Forall2_length.
  - intros l Hl. f_equal. rewrite <-(list_fmap_id l) at 2. apply list_fmap_ext.
    intros i v Hv. apply as_i64_id. by apply (Forall_lookup_1 _ _ _ _ Hl Hv).
  - intros a l [= <-]. apply Forall_fmap, Forall_true. intros v. apply as_i64_range.
  - done.
  - intros a l [= <-]. by rewrite length_fmap.
  - intros s cols _ <-. by rewrite length_fmap.
  - intros s cols _ _. apply Forall_true. by eexists.
Qed.

Definition batch1 : int_batch := {| ib_rows := 3; ib_cols := [[10; 20; 30]]; ib_ok := eq_refl |}.
Definition zset1 : ArrowZSet := {| data := batch1; weights := [1; 0; -2]; frontier := None |}.
End IntArrow.
Import IntArrow.

