(* ===== verification/Keys.v ===== *)
(** * Storage keys ([rockstream-storage/src/keys.rs])

    The byte layout of every shard-local and catalog key, the order-preserving
    value encodings, the key decoders and the prefix extractor of the join
    arrangements' Bloom filter. *)
From stdpp Require Import base tactics list numbers option.
From Stdlib Require Import ZArith Lia ZifyBool.
From S2P Require Import Prelude Kernels.
Local Open Scope Z_scope.

Inductive ShardPrefix : Type :=
| OpState | OpIndex | ViewOutput | ShuffleInbox | ShuffleOutbox | ShardMeta.

Definition as_byte (p : ShardPrefix) : Z :=
  match p with
  | OpState => 0x01 | OpIndex => 0x02 | ViewOutput => 0x03
  | ShuffleInbox => 0x04 | ShuffleOutbox => 0x05 | ShardMeta => 0x06
  end.

Definition MINMAX_DISCRIMINATOR : Z := 0x4D.
Definition DISTINCT_DISCRIMINATOR : bytes := [0x44; 0x53].
Definition WINDOW_DISCRIMINATOR : bytes := [0x57; 0x4E].
Definition TW_DISCRIMINATOR : bytes := [0x54; 0x57].
Definition WM_DISCRIMINATOR : bytes := [0x57; 0x4D].
Definition FORMAT_VERSION_DISCRIMINATOR : bytes := [0x46; 0x56].
Definition TK_DISCRIMINATOR : bytes := [0x54; 0x4B].
Definition RC_DISCRIMINATOR : bytes := [0x52; 0x43].
Definition FACTOR_PAYLOAD_DISCRIMINATOR : bytes := [0x46; 0x50].
Definition FACTOR_GOVERNOR_DISCRIMINATOR : bytes := [0x46; 0x47].

Inductive JoinSide : Type := Left | Right.

#[export] Instance JoinSide_eq_dec : EqDecision JoinSide.
Proof. solve_decision. Defined.

Definition disc_bytes (s : JoinSide) : bytes :=
  match s with Left => [0x4A; 0x4C] | Right => [0x4A; 0x52] end.

(* ------------------------------------------------------------------ *)
(** ** Order-preserving values *)

Definition minmax_sort_key (v : Z) (invert : bool) : bytes :=
  be_bytes 8 (OrderKeys.signed_order_key v invert).
Definition minmax_sort_key_decode (sort_key : bytes) (invert : bool) : Z :=
  OrderKeys.signed_order_key_decode (of_be sort_key) invert.
Definition window_sort_key (v : Z) : bytes := be_bytes 8 (OrderKeys.signed_order_key v false).
Definition window_sort_key_decode (sort_key : bytes) : Z :=
  OrderKeys.signed_order_key_decode (of_be sort_key) false.
Definition topk_value_desc_bytes (v : Z) : bytes :=
  be_bytes 8 (not_u64 (Z.lxor (as_u64 v) 0x8000000000000000)).
Definition topk_value_desc_decode (b : bytes) : Z :=
  let raw := not_u64 (of_be b) in
  as_i64 (Z.lxor raw 0x8000000000000000).

(* ------------------------------------------------------------------ *)
(** ** Shard-local keys *)

Definition encode (prefix : ShardPrefix) (operator_id : Z) (suffix : bytes) : bytes :=
  [as_byte prefix] ++ Codecs.encode_u64_be operator_id ++ suffix.

Definition decode (key : bytes) : option (Z * Z * bytes) :=
  if (length key <? 9)%nat then None
  else
    operator_id ← Codecs.decode_u64_be (take 8 (drop 1 key));
    Some (nth 0 key 0, operator_id, drop 9 key).

Definition join_arr_key (side : JoinSide) (op_id : Z) (join_key : bytes) (row_id : Z) : bytes :=
  [as_byte OpState] ++ disc_bytes side ++ Codecs.encode_u64_be op_id ++ join_key
  ++ Codecs.encode_u128_be row_id.
Definition distinct_key (op_id row_hash : Z) : bytes :=
  [as_byte OpState] ++ DISTINCT_DISCRIMINATOR ++ be_bytes 8 op_id ++ be_bytes 16 row_hash.
Definition distinct_op_prefix (op_id : Z) : bytes :=
  [as_byte OpState] ++ DISTINCT_DISCRIMINATOR ++ be_bytes 8 op_id.
Definition join_arr_op_prefix (side : JoinSide) (op_id : Z) : bytes :=
  [as_byte OpState] ++ disc_bytes side ++ be_bytes 8 op_id.
Definition join_arr_key_prefix (side : JoinSide) (op_id : Z) (join_key : bytes) : bytes :=
  [as_byte OpState] ++ disc_bytes side ++ be_bytes 8 op_id ++ join_key.

Definition try_factor_payload_key (side : JoinSide) (op_id : Z) (capsule_bytes : bytes)
    (row_id : Z) : option bytes :=
  capsule_len ← Codecs.checked_usize_to_u32 (Z.of_nat (length capsule_bytes));
  Some ([as_byte OpState] ++ FACTOR_PAYLOAD_DISCRIMINATOR ++ disc_bytes side
        ++ Codecs.encode_u64_be op_id ++ be_bytes 4 capsule_len ++ capsule_bytes
        ++ Codecs.encode_u128_be row_id).
Definition factor_payload_key (side : JoinSide) (op_id : Z) (capsule_bytes : bytes)
    (row_id : Z) : outcome bytes :=
  expect (try_factor_payload_key side op_id capsule_bytes row_id).

Definition decode_factor_payload_key (key : bytes) : option (JoinSide * Z * bytes * Z) :=
  if (length key <? 17 + 16)%nat || negb (nth 0 key 0 =? as_byte OpState)
     || negb (bool_decide (take 2 (drop 1 key) = FACTOR_PAYLOAD_DISCRIMINATOR))
  then None
  else
    side ← (if bool_decide (take 2 (drop 3 key) = [0x4A; 0x4C]) then Some Left
            else if bool_decide (take 2 (drop 3 key) = [0x4A; 0x52]) then Some Right
            else None);
    op_id ← Codecs.decode_u64_be (take 8 (drop 5 key));
    let capsule_len := of_be (take 4 (drop 13 key)) in
    capsule_end ← checked_usize (17 + capsule_len);
    row_end ← checked_usize (capsule_end + 16);
    if negb (row_end =? Z.of_nat (length key)) then None
    else
      let capsule := take (Z.to_nat capsule_len) (drop 17 key) in
      row_id ← Codecs.decode_u128_be
        (take (Z.to_nat (row_end - capsule_end)) (drop (Z.to_nat capsule_end) key));
      Some (side, op_id, capsule, row_id).

Definition factor_payload_op_prefix (side : JoinSide) (op_id : Z) : bytes :=
  [as_byte OpState] ++ FACTOR_PAYLOAD_DISCRIMINATOR ++ disc_bytes side ++ be_bytes 8 op_id.
Definition factor_governor_key (op_id : Z) : bytes :=
  [as_byte OpState] ++ FACTOR_GOVERNOR_DISCRIMINATOR ++ be_bytes 8 op_id.
Definition operator_prefix (prefix : ShardPrefix) (operator_id : Z) : bytes :=
  [as_byte prefix] ++ Codecs.encode_u64_be operator_id.
Definition namespace_prefix (prefix : ShardPrefix) : bytes := [as_byte prefix].
Definition meta_key (meta_type : bytes) : bytes := [as_byte ShardMeta] ++ meta_type.

(** ASCII "frontier", "epoch" and "IK". *)
Definition frontier_tag : bytes := [0x66; 0x72; 0x6F; 0x6E; 0x74; 0x69; 0x65; 0x72].
Definition epoch_tag : bytes := [0x65; 0x70; 0x6F; 0x63; 0x68].
Definition idempotency_tag : bytes := [0x49; 0x4B].

Definition frontier_key : bytes := meta_key frontier_tag.
Definition format_version_key : bytes := meta_key FORMAT_VERSION_DISCRIMINATOR.

Definition minmax_multiset_key (op_id group_key : Z) (sort_key : bytes) : bytes :=
  [as_byte OpState] ++ [MINMAX_DISCRIMINATOR] ++ be_bytes 8 op_id ++ be_bytes 8 group_key
  ++ sort_key.
Definition minmax_group_prefix (op_id group_key : Z) : bytes :=
  [as_byte OpState] ++ [MINMAX_DISCRIMINATOR] ++ be_bytes 8 op_id ++ be_bytes 8 group_key.
Definition minmax_operator_prefix (op_id : Z) : bytes :=
  [as_byte OpState] ++ [MINMAX_DISCRIMINATOR] ++ be_bytes 8 op_id.
Definition minmax_extremum_key (op_id group_key : Z) : bytes :=
  [as_byte OpIndex] ++ [MINMAX_DISCRIMINATOR] ++ be_bytes 8 op_id ++ be_bytes 8 group_key.
Definition minmax_extremum_op_prefix (op_id : Z) : bytes :=
  [as_byte OpIndex] ++ [MINMAX_DISCRIMINATOR] ++ be_bytes 8 op_id.
Definition epoch_key (epoch : Z) : bytes :=
  [as_byte ShardMeta] ++ epoch_tag ++ be_bytes 8 epoch.
Definition idempotency_key (shard_id : Z) (key_hash : bytes) : bytes :=
  [as_byte OpIndex] ++ idempotency_tag ++ be_bytes 4 shard_id ++ key_hash.
Definition idempotency_prefix (shard_id : Z) : bytes :=
  [as_byte OpIndex] ++ idempotency_tag ++ be_bytes 4 shard_id.

Definition window_arr_key (op_id : Z) (part_key order_key : bytes) (row_id : Z) : bytes :=
  [as_byte OpState] ++ WINDOW_DISCRIMINATOR ++ be_bytes 8 op_id ++ part_key ++ order_key
  ++ be_bytes 16 row_id.
Definition window_arr_partition_prefix (op_id : Z) (part_key : bytes) : bytes :=
  [as_byte OpState] ++ WINDOW_DISCRIMINATOR ++ be_bytes 8 op_id ++ part_key.
Definition window_arr_op_prefix (op_id : Z) : bytes :=
  [as_byte OpState] ++ WINDOW_DISCRIMINATOR ++ be_bytes 8 op_id.
Definition window_prev_output_key (op_id : Z) (part_key : bytes) (row_hash : Z) : bytes :=
  [as_byte OpIndex] ++ WINDOW_DISCRIMINATOR ++ be_bytes 8 op_id ++ part_key ++ be_bytes 16 row_hash.
Definition window_prev_output_partition_prefix (op_id : Z) (part_key : bytes) : bytes :=
  [as_byte OpIndex] ++ WINDOW_DISCRIMINATOR ++ be_bytes 8 op_id ++ part_key.
Definition tumble_window_key (op_id window_id : Z) (group_key : bytes) : bytes :=
  [as_byte OpState] ++ TW_DISCRIMINATOR ++ be_bytes 8 op_id ++ be_bytes 8 window_id ++ group_key.
Definition tumble_window_op_prefix (op_id : Z) : bytes :=
  [as_byte OpState] ++ TW_DISCRIMINATOR ++ be_bytes 8 op_id.
Definition tumble_window_window_prefix (op_id window_id : Z) : bytes :=
  [as_byte OpState] ++ TW_DISCRIMINATOR ++ be_bytes 8 op_id ++ be_bytes 8 window_id.
Definition watermark_key (op_id : Z) : bytes :=
  [as_byte ShardMeta] ++ WM_DISCRIMINATOR ++ be_bytes 8 op_id.
Definition topk_key (op_id : Z) (partition_key : bytes) (value row_id : Z) : bytes :=
  [as_byte OpState] ++ TK_DISCRIMINATOR ++ be_bytes 8 op_id ++ partition_key
  ++ topk_value_desc_bytes value ++ be_bytes 16 row_id.
Definition topk_partition_prefix (op_id : Z) (partition_key : bytes) : bytes :=
  [as_byte OpState] ++ TK_DISCRIMINATOR ++ be_bytes 8 op_id ++ partition_key.
Definition topk_op_prefix (op_id : Z) : bytes :=
  [as_byte OpState] ++ TK_DISCRIMINATOR ++ be_bytes 8 op_id.
Definition recursion_key (op_id row_hash iteration : Z) : bytes :=
  [as_byte OpState] ++ RC_DISCRIMINATOR ++ be_bytes 8 op_id ++ be_bytes 16 row_hash
  ++ be_bytes 4 iteration.
Definition recursion_op_prefix (op_id : Z) : bytes :=
  [as_byte OpState] ++ RC_DISCRIMINATOR ++ be_bytes 8 op_id.

Definition decode_idempotency_key (key : bytes) : option (Z * bytes) :=
  if negb (length key =? 23)%nat then None
  else if negb (nth 0 key 0 =? as_byte OpIndex)
          || negb (bool_decide (take 2 (drop 1 key) = idempotency_tag)) then None
  else Some (of_be (take 4 (drop 3 key)), take 16 (drop 7 key)).

(* ------------------------------------------------------------------ *)
(** ** Prefix extraction for the join arrangements' Bloom filter *)

Inductive PrefixTarget : Type := Point (key : bytes) | Prefix (key : bytes).

Definition target_key (t : PrefixTarget) : bytes := match t with Point k | Prefix k => k end.

Definition strip_prefix (p key : bytes) : option bytes :=
  if starts_with key p then Some (drop (length p) key) else None.

Definition V2_PREFIX : bytes := [0xFF; 0x56; 0x32].
Definition V3_PREFIX : bytes := [0xFF; 0x56; 0x33].

Definition prefix_len (target : PrefixTarget) : option Z :=
  let key := target_key target in
  let logical :=
    match strip_prefix V2_PREFIX key with
    | Some l => l
    | None => default key (strip_prefix V3_PREFIX key)
    end in
  let is_join_arrangement :=
    (3 <=? length logical)%nat && (nth 0 logical 0 =? as_byte OpState)
    && (bool_decide (take 2 (drop 1 logical) = disc_bytes Left)
        || bool_decide (take 2 (drop 1 logical) = disc_bytes Right)) in
  match target with
  | Point _ =>
      if is_join_arrangement && (27 <=? length logical)%nat
      then Some (Z.of_nat (length key) - 16)
      else Some (Z.of_nat (length key))
  | Prefix _ =>
      if is_join_arrangement && (11 <? length logical)%nat
      then Some (Z.of_nat (length key))
      else None
  end.

(* ------------------------------------------------------------------ *)
(** ** Catalog keys *)

Inductive CatalogType : Type :=
| Pipeline | Source | View | Table | Schema | Connector | Index | Workload.

Definition catalog_byte (t : CatalogType) : Z :=
  match t with
  | Pipeline => 0x10 | Source => 0x11 | View => 0x12 | Table => 0x13
  | Schema => 0x14 | Connector => 0x15 | Index => 0x16 | Workload => 0x17
  end.

Definition encode_with_suffix (t : CatalogType) (namespace_id object_id : Z) (suffix : bytes)
    : bytes :=
  [catalog_byte t] ++ Codecs.encode_u128_be namespace_id ++ Codecs.encode_u128_be object_id
  ++ suffix.
Definition catalog_encode (t : CatalogType) (namespace_id object_id : Z) : bytes :=
  [catalog_byte t] ++ Codecs.encode_u128_be namespace_id ++ Codecs.encode_u128_be object_id.

Definition catalog_decode (key : bytes) : option (Z * Z * Z * bytes) :=
  if (length key <? 33)%nat then None
  else
    namespace_id ← Codecs.decode_u128_be (take 16 (drop 1 key));
    object_id ← Codecs.decode_u128_be (take 16 (drop 17 key));
    Some (nth 0 key 0, namespace_id, object_id, drop 33 key).

Definition catalog_namespace_prefix (t : CatalogType) (namespace_id : Z) : bytes :=
  [catalog_byte t] ++ be_bytes 16 namespace_id.
Definition type_prefix (t : CatalogType) : bytes := [catalog_byte t].

(* ------------------------------------------------------------------ *)
(** ** Scan order *)

Lemma lex_cmp_app_len (a b l k : bytes) :
  length a = length b ->
  lex_cmp (a ++ l) (b ++ k) = match lex_cmp a b with Eq => lex_cmp l k | c => c end.
Proof.
  revert b. induction a as [|x a IH]; intros [|y b]; try done. intros [= Hl].
  cbn [app lex_cmp]. destruct (x ?= y); [by apply IH|done|done].
Qed.

Lemma topk_desc_minmax v : topk_value_desc_bytes v = minmax_sort_key v true.
Proof. reflexivity. Qed.

Lemma sort_key_cmp v v' invert :
  in_i64 v -> in_i64 v' ->
  lex_cmp (minmax_sort_key v invert) (minmax_sort_key v' invert)
  = if invert then v' ?= v else v ?= v'.
Proof.
  intros Hv Hv'. unfold minmax_sort_key.
  pose proof (OrderKeys.signed_order_key_range v invert Hv).
  pose proof (OrderKeys.signed_order_key_range v' invert Hv').
  rewrite lex_cmp_be_bytes by rlia.
  rewrite !OrderKeys.signed_order_key_eq by done.
  destruct invert.
  - destruct (Z.compare_spec v' v); [apply Z.compare_eq_iff|apply Z.compare_lt_iff|apply Z.compare_gt_iff]; lia.
  - destruct (Z.compare_spec v v'); [apply Z.compare_eq_iff|apply Z.compare_lt_iff|apply Z.compare_gt_iff]; lia.
Qed.

Lemma sort_key_round_trip v invert :
  in_i64 v -> minmax_sort_key_decode (minmax_sort_key v invert) invert = v.
Proof.
  intros Hv. unfold minmax_sort_key_decode, minmax_sort_key.
  pose proof (OrderKeys.signed_order_key_range v invert Hv).
  rewrite of_be_be_bytes_id by rlia. by apply OrderKeys.signed_order_key_round_trip.
Qed.

Lemma topk_round_trip v : in_i64 v -> topk_value_desc_decode (topk_value_desc_bytes v) = v.
Proof. intros. by apply (sort_key_round_trip v true). Qed.

(** Rows of one partition: the value decides, then the row id. *)
Lemma value_row_cmp v v' invert r r' :
  in_i64 v -> in_i64 v' -> in_u128 r -> in_u128 r' ->
  lex_cmp (minmax_sort_key v invert ++ be_bytes 16 r) (minmax_sort_key v' invert ++ be_bytes 16 r')
  = match (if invert then v' ?= v else v ?= v') with Eq => r ?= r' | c => c end.
Proof.
  intros. rewrite lex_cmp_app_len by (unfold minmax_sort_key; by rewrite !length_be_bytes).
  rewrite sort_key_cmp, lex_cmp_be_bytes by rlia. done.
Qed.

(** Byte order of keys is value order, so a prefix scan meets the rows in
    the order the operators rely on: MIN keys of a group ascend with the value
    and MAX keys descend, window rows of a partition ascend with the order
    value and Top-K rows descend, ties going by row id; and every encoded value
    is read back exactly. *)
Theorem scan_order_is_value_order (op g v v' r r' : Z) (part : bytes) :
  in_i64 v -> in_i64 v' -> in_u128 r -> in_u128 r' ->
  (forall invert,
     lex_cmp (minmax_multiset_key op g (minmax_sort_key v invert))
       (minmax_multiset_key op g (minmax_sort_key v' invert))
     = (if invert then v' ?= v else v ?= v')) /\
  lex_cmp (window_arr_key op part (window_sort_key v) r)
    (window_arr_key op part (window_sort_key v') r')
  = match v ?= v' with Eq => r ?= r' | c => c end /\
  lex_cmp (topk_key op part v r) (topk_key op part v' r')
  = match v' ?= v with Eq => r ?= r' | c => c end /\
  (forall invert, minmax_sort_key_decode (minmax_sort_key v invert) invert = v) /\
  window_sort_key_decode (window_sort_key v) = v /\
  topk_value_desc_decode (topk_value_desc_bytes v) = v.
Proof.
  intros Hv Hv' Hr Hr'. split_and!.
  - intros invert. unfold minmax_multiset_key. rewrite !lex_cmp_app. by apply sort_key_cmp.
  - unfold window_arr_key. rewrite !lex_cmp_app. by apply (value_row_cmp v v' false).
  - unfold topk_key. rewrite !lex_cmp_app. by apply (value_row_cmp v v' true).
  - intros. by apply sort_key_round_trip.
  - by apply (sort_key_round_trip v false).
  - by apply topk_round_trip.
Qed.

Lemma scan_order_is_value_order_witness :
  lex_cmp (topk_key 7 [1; 2] 5 0) (topk_key 7 [1; 2] (-3) 0) = Lt.
Proof.
  destruct (scan_order_is_value_order 7 0 5 (-3) 0 0 [1; 2]) as (_ & _ & H & _); [rlia..|].
  rewrite H. reflexivity.
Defined.

(* ------------------------------------------------------------------ *)
(** ** Decoding *)

Lemma drop_split n m (key : bytes) : drop n key = take m (drop n key) ++ drop (n + m) key.
Proof. by rewrite <-drop_drop, take_drop. Qed.

Lemma key_head (key : bytes) : (0 < length key)%nat -> key = nth 0 key 0 :: drop 1 key.
Proof. destruct key; simpl; [lia|done]. Qed.

Lemma take_be n z (l : bytes) : take n (be_bytes n z ++ l) = be_bytes n z.
Proof. apply take_app_length'. by rewrite length_be_bytes. Qed.

Lemma drop_be n z (l : bytes) : drop n (be_bytes n z ++ l) = l.
Proof. apply drop_app_length'. by rewrite length_be_bytes. Qed.

Lemma decode_u64_be_bytes z : in_u64 z -> Codecs.decode_u64_be (be_bytes 8 z) = Some z.
Proof.
  intros. rewrite Codecs.decode_u64_be_spec, length_be_bytes by apply be_bytes_ok.
  cbn [Nat.eqb]. f_equal. apply of_be_be_bytes_id. rlia.
Qed.

Lemma decode_u128_be_bytes z : in_u128 z -> Codecs.decode_u128_be (be_bytes 16 z) = Some z.
Proof.
  intros. rewrite Codecs.decode_u128_be_spec, length_be_bytes by apply be_bytes_ok.
  cbn [Nat.eqb]. f_equal. apply of_be_be_bytes_id. rlia.
Qed.

Lemma decode_u64_be_inv b z :
  bytes_ok b -> Codecs.decode_u64_be b = Some z -> in_u64 z /\ b = be_bytes 8 z.
Proof.
  intros Hb. rewrite Codecs.decode_u64_be_spec by done.
  destruct (Nat.eqb_spec (length b) 8) as [Hl|]; [|done]. intros [= <-].
  pose proof (of_be_range b Hb) as Hr. rewrite Hl in Hr.
  split; [rlia|]. rewrite <-Hl. by rewrite be_bytes_of_be.
Qed.

Lemma decode_u128_be_inv b z :
  bytes_ok b -> Codecs.decode_u128_be b = Some z -> in_u128 z /\ b = be_bytes 16 z.
Proof.
  intros Hb. rewrite Codecs.decode_u128_be_spec by done.
  destruct (Nat.eqb_spec (length b) 16) as [Hl|]; [|done]. intros [= <-].
  pose proof (of_be_range b Hb) as Hr. rewrite Hl in Hr.
  split; [rlia|]. rewrite <-Hl. by rewrite be_bytes_of_be.
Qed.

(** [decode] accepts exactly the encodings, of any prefix byte. *)
Lemma decode_spec key p op suffix :
  bytes_ok key ->
  decode key = Some (p, op, suffix) <-> in_u64 op /\ key = [p] ++ be_bytes 8 op ++ suffix.
Proof.
  intros Hk. unfold decode. split.
  - destruct (Nat.ltb_spec (length key) 9) as [|Hl]; [done|].
    destruct (Codecs.decode_u64_be _) as [o|] eqn:E; [|done]. intros [= <- <- <-].
    apply decode_u64_be_inv in E as [Ho E]; [|by apply Forall_take, Forall_drop].
    split; [done|]. rewrite <-E. rewrite (key_head key) at 1 by lia.
    cbn [app]. f_equal. apply (drop_split 1 8).
  - intros [Ho ->]. cbn [app drop nth]. rewrite drop_0, take_be, decode_u64_be_bytes by done.
    cbn [length]. rewrite length_app, length_be_bytes. cbn [mbind option_bind].
    replace (_ <? 9)%nat with false by lia. by rewrite drop_be.
Qed.

Lemma catalog_decode_spec key t ns obj suffix :
  bytes_ok key ->
  catalog_decode key = Some (t, ns, obj, suffix) <->
  in_u128 ns /\ in_u128 obj /\ key = [t] ++ be_bytes 16 ns ++ be_bytes 16 obj ++ suffix.
Proof.
  intros Hk. unfold catalog_decode. split.
  - destruct (Nat.ltb_spec (length key) 33) as [|Hl]; [done|].
    destruct (Codecs.decode_u128_be (take 16 (drop 1 key))) as [n|] eqn:E1; [|done].
    cbn [mbind option_bind].
    destruct (Codecs.decode_u128_be (take 16 (drop 17 key))) as [o|] eqn:E2; [|done].
    intros [= <- <- <- <-].
    apply decode_u128_be_inv in E1 as [Hn E1]; [|by apply Forall_take, Forall_drop].
    apply decode_u128_be_inv in E2 as [Ho E2]; [|by apply Forall_take, Forall_drop].
    split_and!; try lia. rewrite <-E1, <-E2. rewrite (key_head key) at 1 by lia.
    cbn [app]. f_equal. rewrite (drop_split 1 16) at 1. f_equal. apply (drop_split 17 16).
  - intros (Hn & Ho & ->). cbn [app drop nth length]. rewrite drop_0, take_be.
    rewrite !length_app, !length_be_bytes.
    rewrite (drop_be 16 ns), take_be, !decode_u128_be_bytes by done. cbn [mbind option_bind].
    replace (_ <? 33)%nat with false by lia.
    change 32%nat with (16 + 16)%nat. by rewrite <-drop_drop, !drop_be.
Qed.

Lemma idempotency_decode_spec key shard hash :
  bytes_ok key ->
  decode_idempotency_key key = Some (shard, hash) <->
  in_u32 shard /\ length hash = 16%nat /\ key = idempotency_key shard hash.
Proof.
  intros Hk. unfold decode_idempotency_key, idempotency_key. split.
  - destruct (Nat.eqb_spec (length key) 23) as [Hl|]; [|done]. cbn [negb].
    destruct (Z.eqb_spec (nth 0 key 0) (as_byte OpIndex)) as [Hp|]; [|done].
    case_bool_decide as Htag; [|done]. cbn [negb orb]. intros [= <- <-].
    assert (length (take 4 (drop 3 key)) = 4%nat) as Hl4 by (rewrite length_take, length_drop; lia).
    assert (bytes_ok (take 4 (drop 3 key))) as Hok by (by apply Forall_take, Forall_drop).
    pose proof (of_be_range _ Hok) as Hr. rewrite Hl4 in Hr.
    split; [rlia|]. split; [rewrite length_take, length_drop; lia|].
    rewrite <-Hl4 at 1. rewrite be_bytes_of_be by done.
    rewrite (key_head key) at 1 by lia. rewrite Hp. cbn [app]. f_equal.
    transitivity (take 2 (drop 1 key) ++ drop 3 key); [apply (drop_split 1 2)|].
    rewrite Htag. f_equal. transitivity (take 4 (drop 3 key) ++ drop 7 key); [apply (drop_split 3 4)|].
    f_equal. rewrite take_ge; [done|rewrite length_drop; lia].
  - intros (Hs & Hh & ->). cbn [app drop nth length].
    rewrite !drop_0. unfold idempotency_tag. cbn [app length drop take].
    rewrite length_app, length_be_bytes, Hh. rewrite !drop_0, take_be.
    cbn [negb Nat.eqb Nat.add orb]. rewrite bool_decide_eq_true_2 by done.
    rewrite Z.eqb_refl. cbn [negb orb]. rewrite of_be_be_bytes_id by rlia.
    rewrite drop_be, take_ge by lia. done.
Qed.

(** The fields of a factorized payload key, at their offsets. *)
Lemma factor_fields (key : bytes) (n : nat) :
  length key = (17 + n + 16)%nat ->
  key = [nth 0 key 0] ++ take 2 (drop 1 key) ++ take 2 (drop 3 key) ++ take 8 (drop 5 key)
        ++ take 4 (drop 13 key) ++ take n (drop 17 key) ++ take 16 (drop (17 + n) key).
Proof.
  intros Hl. rewrite (key_head key) at 1 by lia. cbn [app]. f_equal.
  etransitivity; [apply (drop_split 1 2)|]. f_equal.
  etransitivity; [apply (drop_split 3 2)|]. f_equal.
  etransitivity; [apply (drop_split 5 8)|]. f_equal.
  etransitivity; [apply (drop_split 13 4)|]. f_equal.
  etransitivity; [apply (drop_split 17 n)|]. f_equal.
  rewrite take_ge; [done|rewrite length_drop; lia].
Qed.

Lemma factor_decode_inv key side op cap row :
  bytes_ok key -> decode_factor_payload_key key = Some (side, op, cap, row) ->
  in_u64 op /\ in_u128 row /\ try_factor_payload_key side op cap row = Some key.
Proof.
  intros Hk. unfold decode_factor_payload_key.
  destruct (_ || _ || _) eqn:Eg; [done|].
  apply orb_false_iff in Eg as [Eg Ed]. apply orb_false_iff in Eg as [El Ep].
  apply negb_false_iff, bool_decide_eq_true in Ed.
  destruct (if bool_decide (take 2 (drop 3 key) = [74; 76]) then _ else _) as [sd|] eqn:Es; [|done].
  assert (take 2 (drop 3 key) = disc_bytes sd) as Hs.
  { repeat case_bool_decide; simplify_eq; done. }
  cbn [mbind option_bind].
  destruct (Codecs.decode_u64_be _) as [o|] eqn:Eo; [|done]. cbn [mbind option_bind].
  apply decode_u64_be_inv in Eo as [Ho Eo]; [|by apply Forall_take, Forall_drop].
  assert (length (take 4 (drop 13 key)) = 4%nat) as Hl4 by (rewrite length_take, length_drop; lia).
  assert (bytes_ok (take 4 (drop 13 key))) as Hok by (by apply Forall_take, Forall_drop).
  pose proof (of_be_range _ Hok) as Hr. rewrite Hl4 in Hr.
  pose proof (be_bytes_of_be _ Hok) as E4. rewrite Hl4 in E4.
  set (n := of_be (take 4 (drop 13 key))) in *.
  rewrite checked_in by rlia. cbn [mbind option_bind].
  rewrite checked_in by rlia. cbn [mbind option_bind].
  destruct (Z.eqb_spec (17 + n + 16) (Z.of_nat (length key))) as [Hlen|]; [|done]. cbn [negb].
  replace (17 + n + 16 - (17 + n)) with 16 by lia. change (Z.to_nat 16) with 16%nat.
  destruct (Codecs.decode_u128_be _) as [r|] eqn:Er; [|done]. intros [= <- <- <- <-].
  apply decode_u128_be_inv in Er as [Hrow Er]; [|by apply Forall_take, Forall_drop].
  split; [done|]. split; [done|]. unfold try_factor_payload_key, Codecs.checked_usize_to_u32.
  assert (Z.of_nat (length (take (Z.to_nat n) (drop 17 key))) = n) as Hcap
    by (rewrite length_take, length_drop; lia).
  rewrite checked_in by rlia. cbn [mbind option_bind]. rewrite Hcap, E4.
  rewrite Codecs.encode_u64_be_spec, <-Eo, Codecs.encode_u128_be_spec, <-Er, <-Hs, <-Ed.
  replace (Z.to_nat (17 + n)) with (17 + Z.to_nat n)%nat by lia.
  replace (as_byte OpState) with (nth 0 key 0) by lia. f_equal. symmetry. apply factor_fields. lia.
Qed.

Lemma field_at (n m : nat) (pre fld post key : bytes) :
  key = pre ++ fld ++ post -> length pre = n -> length fld = m -> take m (drop n key) = fld.
Proof. intros -> <- <-. by rewrite drop_app_length, take_app_length. Qed.

Lemma factor_decode_encode key side op cap row :
  in_u64 op -> in_u128 row -> Z.of_nat (length key) <= usize_max ->
  try_factor_payload_key side op cap row = Some key ->
  decode_factor_payload_key key = Some (side, op, cap, row).
Proof.
  intros Ho Hrow Hlen. unfold try_factor_payload_key, Codecs.checked_usize_to_u32.
  destruct (checked 0 u32_max _) as [m|] eqn:En; [|done]. apply checked_Some in En as [-> En].
  cbn [mbind option_bind]. rewrite Codecs.encode_u64_be_spec, Codecs.encode_u128_be_spec.
  set (n := length cap) in *. set (fp := FACTOR_PAYLOAD_DISCRIMINATOR). set (p := as_byte OpState).
  assert (length (disc_bytes side) = 2%nat) as Hd by (by destruct side).
  assert (length fp = 2%nat) as Hf by done. intros Hkey. apply (inj Some) in Hkey. symmetry in Hkey.
  assert (length key = (17 + n + 16)%nat) as Hl
    by (rewrite Hkey, !length_app, Hd, Hf, !length_be_bytes; cbn [length]; lia).
  assert (nth 0 key 0 = p) as E0 by (by rewrite Hkey).
  assert (take 2 (drop 1 key) = fp) as E1 by (by eapply (field_at 1 2 [p])).
  assert (take 2 (drop 3 key) = disc_bytes side) as E2
    by (eapply (field_at 3 2 ([p] ++ fp)); [rewrite Hkey; by rewrite <-!app_assoc|done|done]).
  assert (take 8 (drop 5 key) = be_bytes 8 op) as E3.
  { eapply (field_at 5 8 ([p] ++ fp ++ disc_bytes side)); [rewrite Hkey; by rewrite <-!app_assoc| |].
    - rewrite !length_app, Hd, Hf. done.
    - apply length_be_bytes. }
  assert (take 4 (drop 13 key) = be_bytes 4 (Z.of_nat n)) as E4.
  { eapply (field_at 13 4 ([p] ++ fp ++ disc_bytes side ++ be_bytes 8 op));
      [rewrite Hkey; by rewrite <-!app_assoc| |apply length_be_bytes].
    rewrite !length_app, Hd, Hf, length_be_bytes. done. }
  assert (take n (drop 17 key) = cap) as E5.
  { eapply (field_at 17 n ([p] ++ fp ++ disc_bytes side ++ be_bytes 8 op ++ be_bytes 4 (Z.of_nat n)));
      [rewrite Hkey; by rewrite <-!app_assoc| |done].
    rewrite !length_app, Hd, Hf, !length_be_bytes. done. }
  assert (take 16 (drop (17 + n) key) = be_bytes 16 row) as E6.
  { eapply (field_at (17 + n) 16
      ([p] ++ fp ++ disc_bytes side ++ be_bytes 8 op ++ be_bytes 4 (Z.of_nat n) ++ cap) _ []);
      [rewrite Hkey, app_nil_r; by rewrite <-!app_assoc| |apply length_be_bytes].
    rewrite !length_app, Hd, Hf, !length_be_bytes. cbn [length]. fold n. lia. }
  clear Hkey. unfold decode_factor_payload_key. rewrite E0, E1, E2, E3, E4, Hl.
  replace (_ <? 17 + 16)%nat with false by lia. rewrite Z.eqb_refl, bool_decide_eq_true_2 by done.
  cbn [orb negb].
  replace (if bool_decide (disc_bytes side = [74; 76]) then Some Left
           else if bool_decide (disc_bytes side = [74; 82]) then Some Right else None)
    with (Some side) by (by destruct side).
  rewrite decode_u64_be_bytes, of_be_be_bytes_id by rlia. cbn [mbind option_bind].
  rewrite checked_in by rlia. cbn [mbind option_bind]. rewrite checked_in by rlia. cbn [mbind option_bind].
  replace (_ =? _) with true by lia. cbn [negb].
  replace (17 + Z.of_nat n + 16 - (17 + Z.of_nat n)) with 16 by lia.
  replace (Z.to_nat (17 + Z.of_nat n)) with (17 + n)%nat by lia.
  change (Z.to_nat 16) with 16%nat. rewrite E6, Nat2Z.id, E5, decode_u128_be_bytes by done. done.
Qed.

(** The key decoders accept exactly the encoders' outputs: a byte string
    decodes as a shard key, a catalog key, an idempotency key or a factorized
    payload key with given fields exactly when it is the encoding of those
    fields (in particular truncated, overlong and length-mismatched payload
    keys are refused), so no two field tuples share a key. *)
Theorem key_decoders_exact (key : bytes) :
  bytes_ok key -> Z.of_nat (length key) <= usize_max ->
  (forall p op suffix, decode key = Some (as_byte p, op, suffix) <->
     in_u64 op /\ key = encode p op suffix) /\
  (forall t ns obj suffix, catalog_decode key = Some (catalog_byte t, ns, obj, suffix) <->
     in_u128 ns /\ in_u128 obj /\ key = encode_with_suffix t ns obj suffix) /\
  (forall shard hash, decode_idempotency_key key = Some (shard, hash) <->
     in_u32 shard /\ length hash = 16%nat /\ key = idempotency_key shard hash) /\
  (forall side op capsule row, decode_factor_payload_key key = Some (side, op, capsule, row) <->
     in_u64 op /\ in_u128 row /\ try_factor_payload_key side op capsule row = Some key).
Proof.
  intros Hk Hl. split_and!.
  - intros p op suffix. by apply decode_spec.
  - intros t ns obj suffix. by apply catalog_decode_spec.
  - intros shard hash. by apply idempotency_decode_spec.
  - intros side op cap row. split; [by apply factor_decode_inv|].
    intros (? & ? & ?). by apply factor_decode_encode.
Qed.


(* ------------------------------------------------------------------ *)
(** ** Operator namespaces *)

Inductive arrangement : Type :=
| AMinMax | ADistinct | AJoin (s : JoinSide) | AWindow | ATumble | ATopK | ARecursion
| AFactor (s : JoinSide) | AGovernor.

(** The scan prefix of an operator's arrangement. *)
Definition arr_op_prefix (a : arrangement) (op : Z) : bytes :=
  match a with
  | AMinMax => minmax_operator_prefix op
  | ADistinct => distinct_op_prefix op
  | AJoin s => join_arr_op_prefix s op
  | AWindow => window_arr_op_prefix op
  | ATumble => tumble_window_op_prefix op
  | ATopK => topk_op_prefix op
  | ARecursion => recursion_op_prefix op
  | AFactor s => factor_payload_op_prefix s op
  | AGovernor => factor_governor_key op
  end.

(** The keys each arrangement writes. *)
Inductive arr_key : arrangement -> Z -> bytes -> Prop :=
| K_minmax op g sk : arr_key AMinMax op (minmax_multiset_key op g sk)
| K_distinct op h : arr_key ADistinct op (distinct_key op h)
| K_join s op jk r : arr_key (AJoin s) op (join_arr_key s op jk r)
| K_window op p o r : arr_key AWindow op (window_arr_key op p o r)
| K_tumble op w g : arr_key ATumble op (tumble_window_key op w g)
| K_topk op p v r : arr_key ATopK op (topk_key op p v r)
| K_recursion op h i : arr_key ARecursion op (recursion_key op h i)
| K_factor s op c r k : try_factor_payload_key s op c r = Some k -> arr_key (AFactor s) op k
| K_governor op : arr_key AGovernor op (factor_governor_key op).

Definition arr_disc (a : arrangement) : bytes :=
  match a with
  | AMinMax => [MINMAX_DISCRIMINATOR]
  | ADistinct => DISTINCT_DISCRIMINATOR
  | AJoin s => disc_bytes s
  | AWindow => WINDOW_DISCRIMINATOR
  | ATumble => TW_DISCRIMINATOR
  | ATopK => TK_DISCRIMINATOR
  | ARecursion => RC_DISCRIMINATOR
  | AFactor s => FACTOR_PAYLOAD_DISCRIMINATOR ++ disc_bytes s
  | AGovernor => FACTOR_GOVERNOR_DISCRIMINATOR
  end.

Lemma arr_op_prefix_eq a op : arr_op_prefix a op = [1] ++ arr_disc a ++ be_bytes 8 op.
Proof. by destruct a. Qed.

Lemma arr_key_eq a op key :
  arr_key a op key -> exists rest, key = [1] ++ arr_disc a ++ be_bytes 8 op ++ rest.
Proof.
  intros [op' g sk|op' h|s op' jk r|op' p o r|op' w g|op' p v r|op' h i|s op' c r k Hk|op'];
    try (eexists; reflexivity).
  unfold try_factor_payload_key in Hk. destruct (Codecs.checked_usize_to_u32 _); [|done].
  injection Hk as <-. eexists. cbn [arr_disc]. rewrite <-app_assoc. reflexivity.
Qed.

Lemma arr_disc_inj a a' (l l' : bytes) : arr_disc a ++ l = arr_disc a' ++ l' -> a = a' /\ l = l'.
Proof.
  destruct a as [| |[]| | | | |[]|], a' as [| |[]| | | | |[]|]; cbn; intros E; by simplify_eq.
Qed.

(** A generic key whose operator id is below 2^56 has a zero after the prefix
    byte, where every arrangement has its discriminator. *)
Lemma small_op_first_byte op :
  0 <= op < 2 ^ 56 -> exists l, be_bytes 8 op = 0 :: l.
Proof.
  intros Hop. exists (be_bytes 7 op). cbn [be_bytes]. f_equal.
  rewrite Z.shiftr_div_pow2 by lia. change (8 * Z.of_nat 7) with 56.
  by rewrite Z.div_small.
Qed.

(** Operators cannot see each other's state.  Scanning the prefix of one
    operator's arrangement returns a key written by any arrangement only if it
    is the same kind of arrangement (and join side) of the same operator; and
    generic operator-state keys of operator ids below 2^56 never fall in an
    arrangement's range.  (From 0x44 << 56 on they can: the discriminators
    share the byte positions of the operator id.) *)
Theorem operator_namespaces_disjoint (a a' : arrangement) (op op' gop : Z) (key suffix : bytes) :
  in_u64 op -> in_u64 op' -> 0 <= gop < 2 ^ 56 -> arr_key a op key ->
  (starts_with key (arr_op_prefix a' op') = true <-> a' = a /\ op' = op) /\
  starts_with (encode OpState gop suffix) (arr_op_prefix a' op') = false.
Proof.
  intros Hop Hop' Hg Hk. split.
  - apply arr_key_eq in Hk as [rest ->]. rewrite arr_op_prefix_eq, starts_with_spec. split.
    + intros [s Hs]. rewrite <-!app_assoc in Hs. apply app_inv_head in Hs.
      apply arr_disc_inj in Hs as [-> Hs]. split; [done|].
      apply app_inj_1 in Hs as [Hs _]; [|by rewrite !length_be_bytes].
      apply be_bytes_inj in Hs; [done|rlia|rlia].
    + intros [-> ->]. exists rest. by rewrite <-!app_assoc.
  - apply not_true_iff_false. rewrite arr_op_prefix_eq, starts_with_spec. intros [s Hs].
    unfold encode in Hs. rewrite Codecs.encode_u64_be_spec in Hs.
    destruct (small_op_first_byte gop Hg) as [l E]. rewrite E in Hs.
    by destruct a' as [| |[]| | | | |[]|].
Qed.

Lemma operator_namespaces_disjoint_witness :
  starts_with (distinct_key 3 9) (arr_op_prefix ATopK 3) = false.
Proof.
  apply not_true_iff_false. intros H.
  apply (operator_namespaces_disjoint ADistinct ATopK 3 3 0 (distinct_key 3 9) []) in H as [H _];
    [discriminate H|rlia|rlia|lia|apply K_distinct].
Defined.

Lemma generic_key_collision :
  exists op suffix h, in_u64 op /\ encode OpState op suffix = distinct_key 0 h.
Proof. exists 0x4453000000000000, (be_bytes 2 0 ++ be_bytes 16 0), 0. split; [rlia|reflexivity]. Qed.

(* ------------------------------------------------------------------ *)
(** ** The join prefix filter *)

Inductive format_header : bytes -> Prop :=
| H_plain : format_header []
| H_v2 : format_header V2_PREFIX
| H_v3 : format_header V3_PREFIX.

Lemma strip_header h k :
  format_header h ->
  match strip_prefix V2_PREFIX (h ++ 1 :: k) with
  | Some l => l
  | None => default (h ++ 1 :: k) (strip_prefix V3_PREFIX (h ++ 1 :: k))
  end = 1 :: k.
Proof. by intros []. Qed.

Lemma join_logical s (rest : bytes) :
  let logical := 1 :: disc_bytes s ++ rest in
  (3 <=? length logical)%nat && (nth 0 logical 0 =? as_byte OpState)
  && (bool_decide (take 2 (drop 1 logical) = disc_bytes Left)
      || bool_decide (take 2 (drop 1 logical) = disc_bytes Right)) = true.
Proof. by destruct s. Qed.

(** The Bloom filter on join arrangements is probed with what was inserted:
    in every storage format, the prefix extracted from a stored row's key is
    the key prefix of its operator, side and join key, and a scan of exactly
    that prefix extracts the whole scanned prefix, so the filter can only
    answer "absent" when no row of that join key is stored.  Whole-operator
    scans are not filtered. *)
Theorem join_prefix_filter_consistent (h : bytes) (side : JoinSide) (op row : Z) (jk : bytes) :
  format_header h ->
  let key := h ++ join_arr_key side op jk row in
  let scanned := h ++ join_arr_key_prefix side op jk in
  (exists n, prefix_len (Point key) = Some n /\ take (Z.to_nat n) key = scanned) /\
  (jk <> [] -> prefix_len (Prefix scanned) = Some (Z.of_nat (length scanned))) /\
  prefix_len (Prefix (h ++ join_arr_op_prefix side op)) = None.
Proof.
  intros Hh key scanned.
  assert (key = scanned ++ be_bytes 16 row) as Hkey.
  { unfold key, scanned, join_arr_key, join_arr_key_prefix.
    rewrite Codecs.encode_u64_be_spec, Codecs.encode_u128_be_spec. by rewrite <-!app_assoc. }
  split_and!.
  - exists (Z.of_nat (length scanned)). split.
    + rewrite Hkey. unfold prefix_len, scanned, join_arr_key_prefix, target_key.
      rewrite <-!app_assoc. cbn [app as_byte]. rewrite strip_header by done.
      rewrite join_logical. cbn [andb].
      rewrite !length_app. cbn [length]. rewrite !length_app, !length_be_bytes.
      assert (length (disc_bytes side) = 2%nat) as -> by (by destruct side).
      replace (27 <=? _)%nat with true by lia. f_equal. lia.
    + rewrite Nat2Z.id, Hkey. apply take_app_length.
  - intros Hjk. unfold prefix_len, scanned, join_arr_key_prefix, target_key.
    cbn [app as_byte]. rewrite strip_header, join_logical by done. cbn [andb length].
    rewrite !length_app, length_be_bytes.
    assert (length (disc_bytes side) = 2%nat) as -> by (by destruct side).
    assert (length jk <> 0%nat) by (by destruct jk).
    replace (11 <? _)%nat with true by lia. done.
  - unfold prefix_len, join_arr_op_prefix, target_key. cbn [app as_byte].
    rewrite strip_header, join_logical by done. cbn [andb length].
    rewrite !length_app, length_be_bytes.
    by assert (length (disc_bytes side) = 2%nat) as -> by (by destruct side).
Qed.

