(* ===== verification/KeyCapsules.v ===== *)
(** Canonical typed keys (rockstream-types/src/key_capsule.rs): the byte encoding
    of key values that joins, partitioning and storage share, and its null test.

    A value is a frame of a tag, a 32-bit length and a payload; several values are
    one composite frame.  A UTF-8 string is its bytes. *)
From stdpp Require Import base tactics list numbers option.
From Stdlib Require Import ZArith Lia ZifyBool.
From S2P Require Import Prelude.
Local Open Scope Z_scope.

#[local] Arguments be_bytes : simpl never.
#[local] Arguments of_be : simpl never.

Inductive KeyValue : Type :=
| Null
| Int64 (v : Z)
| Utf8 (s : bytes).

#[global] Instance KeyValue_eq_dec : EqDecision KeyValue.
Proof. solve_decision. Defined.

Inductive KeyCapsuleError : Type := UnsupportedType | InvalidEncoding.

Definition NULL_TAG : Z := 0.
Definition INT64_TAG : Z := 1.
Definition UTF8_TAG : Z := 2.
Definition COMPOSITE_TAG : Z := 3.

(** The length is cut to 32 bits. *)
Definition frame (tag : Z) (payload : bytes) : bytes :=
  tag :: be_bytes 4 (Z.of_nat (length payload)) ++ payload.

Definition encode_value (v : KeyValue) : bytes :=
  match v with
  | Null => frame NULL_TAG []
  | Int64 v => frame INT64_TAG (be_bytes 8 v)
  | Utf8 s => frame UTF8_TAG s
  end.

(** FNV-1a over 128 bits, from a given state. *)
Definition fnv_prime : Z := 309485009821345068724781371.
Definition fnv_offset : Z := 144066263297769815596495629667062367629.
Definition fnv1a (h : Z) (l : bytes) : Z :=
  foldl (fun h b => (Z.lxor h b * fnv_prime) mod 2 ^ 128) h l.

Definition stable_hash (l : bytes) : Z := fnv1a fnv_offset l.

Record KeyCapsule : Type := { typed_bytes : bytes; capsule_hash : Z }.

Definition from_typed_bytes (l : bytes) : KeyCapsule :=
  {| typed_bytes := l; capsule_hash := stable_hash l |}.

Definition from_values (vs : list KeyValue) : result KeyCapsuleError KeyCapsule :=
  match vs with
  | [] => Err InvalidEncoding
  | [v] => Ok (from_typed_bytes (encode_value v))
  | _ => Ok (from_typed_bytes (frame COMPOSITE_TAG (concat (encode_value <$> vs))))
  end.

(** The [while] loop of [contains_null], on the bytes from the offset on; each
    turn consumes at least five. *)
Fixpoint null_frame (fuel : nat) (rest : bytes) : bool :=
  match fuel, rest with
  | S fuel, tag :: l0 :: l1 :: l2 :: l3 :: rest' =>
    if tag =? NULL_TAG then true
    else null_frame fuel (drop (Z.to_nat (of_be [l0; l1; l2; l3])) rest')
  | _, _ => false
  end.

Definition is_null (k : KeyCapsule) : bool := bool_decide (head (typed_bytes k) = Some NULL_TAG).

Definition contains_null (k : KeyCapsule) : bool :=
  let b := typed_bytes k in
  if is_null k then true
  else if negb (bool_decide (head b = Some COMPOSITE_TAG)) || (length b <? 5)%nat then false
  else null_frame (length b) (drop 5 b).

(* ------------------------------------------------------------------ *)
(** ** The encoding *)

(** Values whose frames fit: integers of 64 bits, strings below 4 GiB. *)
Definition value_ok (v : KeyValue) : Prop :=
  match v with
  | Null => True
  | Int64 v => in_i64 v
  | Utf8 s => Z.of_nat (length s) < 2 ^ 32
  end.

Definition values_ok (vs : list KeyValue) : Prop :=
  Forall value_ok vs /\ Z.of_nat (length (concat (encode_value <$> vs))) < 2 ^ 32.

Lemma length_frame tag p : length (frame tag p) = (5 + length p)%nat.
Proof. unfold frame. cbn [length]. rewrite length_app, length_be_bytes. lia. Qed.

Lemma drop_frame tag p : drop 5 (frame tag p) = p.
Proof. unfold frame. apply (drop_app_length' (be_bytes 4 (Z.of_nat (length p))) p 4). by rewrite length_be_bytes. Qed.

(** Frames are self-delimiting. *)
Lemma frame_inj tag tag' p p' x x' :
  Z.of_nat (length p) < 2 ^ 32 -> Z.of_nat (length p') < 2 ^ 32 ->
  frame tag p ++ x = frame tag' p' ++ x' -> tag = tag' /\ p = p' /\ x = x'.
Proof.
  intros Hp Hp' E. unfold frame in E. rewrite <-!app_comm_cons, <-!app_assoc in E. assert (tag = tag') as Et by congruence.
  apply (f_equal tail) in E. cbn [tail] in E. apply app_inj_1 in E as [El E]; [|by rewrite !length_be_bytes].
  apply be_bytes_inj in El; [|change (256 ^ Z.of_nat 4) with (2 ^ 32); lia..].
  apply app_inj_1 in E as [Ep Ex]; [done|lia].
Qed.

Lemma be_bytes8_i64_inj a b : in_i64 a -> in_i64 b -> be_bytes 8 a = be_bytes 8 b -> a = b.
Proof.
  intros Ha Hb E. apply (f_equal of_be) in E. rewrite !of_be_be_bytes in E.
  change (256 ^ Z.of_nat 8) with (2 ^ 64) in E.
  rewrite <-(as_i64_as_u64 a), <-(as_i64_as_u64 b) by done. unfold as_u64. by rewrite E.
Qed.

(** The frame of a value. *)
Lemma encode_value_frame v :
  value_ok v -> exists tag p, encode_value v = frame tag p /\ Z.of_nat (length p) < 2 ^ 32 /\
    0 <= tag < 3 /\ (tag = NULL_TAG <-> v = Null).
Proof.
  destruct v as [|v|s]; simpl; intros Hv; eexists _, _; (split; [done|]).
  - simpl. split_and!; done.
  - rewrite length_be_bytes. split_and!; done.
  - split_and!; done.
Qed.

Lemma encode_value_inj v v' x x' :
  value_ok v -> value_ok v' -> encode_value v ++ x = encode_value v' ++ x' -> v = v' /\ x = x'.
Proof.
  intros Hv Hv' E.
  destruct (encode_value_frame v Hv) as (t & p & Ev & Hp & _).
  destruct (encode_value_frame v' Hv') as (t' & p' & Ev' & Hp' & _).
  assert (encode_value v = encode_value v' /\ x = x') as [Ee ->].
  { rewrite Ev, Ev' in E |- *. by apply frame_inj in E as (-> & -> & ->). }
  split; [|done]. clear -Hv Hv' Ee. destruct v as [|v|s], v' as [|v'|s']; cbn [encode_value] in Ee;
    try (apply (f_equal head) in Ee; cbn [head frame] in Ee; unfold NULL_TAG, INT64_TAG, UTF8_TAG in Ee; done).
  - f_equal. apply be_bytes8_i64_inj; [done|done|]. unfold frame in Ee.
    rewrite !length_be_bytes in Ee. apply (f_equal (drop 5)) in Ee. exact Ee.
  - f_equal. apply (f_equal (drop 5)) in Ee. exact Ee.
Qed.

Lemma encode_values_inj vs vs' :
  Forall value_ok vs -> Forall value_ok vs' ->
  concat (encode_value <$> vs) = concat (encode_value <$> vs') -> vs = vs'.
Proof.
  intros Hvs. revert vs'. induction Hvs as [|v vs Hv _ IH]; intros vs' Hvs' E.
  - destruct vs' as [|v' vs']; [done|]. rewrite fmap_cons in E. simpl in E. by destruct v'.
  - destruct Hvs' as [|v' vs' Hv' Hvs']; rewrite !fmap_cons in E; simpl in E; [by destruct v|].
    apply encode_value_inj in E as [-> E]; [|done..]. f_equal. by apply IH.
Qed.

Lemma null_frame_values fuel vs :
  Forall value_ok vs -> (length (concat (encode_value <$> vs)) <= fuel)%nat ->
  null_frame fuel (concat (encode_value <$> vs)) = bool_decide (Null ∈ vs).
Proof.
  intros Hvs. revert fuel. induction Hvs as [|v vs Hv Hvs IH]; intros fuel Hf.
  { by destruct fuel. }
  destruct (encode_value_frame v Hv) as (tag & p & Ev & Hp & Ht & Hnull).
  rewrite fmap_cons in *. cbn [concat] in *. rewrite Ev, length_app, length_frame in *.
  destruct fuel as [|fuel]; [lia|].
  pose proof (of_be_be_bytes_id 4 (Z.of_nat (length p)) ltac:(change (256 ^ Z.of_nat 4) with (2 ^ 32); lia)) as Hlen.
  pose proof (length_be_bytes 4 (Z.of_nat (length p))) as Hl4. unfold frame.
  destruct (be_bytes 4 (Z.of_nat (length p))) as [|l0 [|l1 [|l2 [|l3 [|]]]]]; try done.
  cbn [app null_frame]. rewrite Hlen, Nat2Z.id, drop_app_length.
  destruct (Z.eqb_spec tag NULL_TAG) as [E|E].
  - rewrite bool_decide_eq_true_2; [done|]. rewrite (proj1 Hnull E). by left.
  - rewrite IH by lia. apply bool_decide_ext. rewrite elem_of_cons. split; [by right|].
    intros [<-|]; [|done]. by destruct E; apply Hnull.
Qed.

(** The typed bytes of a list of values. *)
Definition values_bytes (vs : list KeyValue) : bytes :=
  match vs with
  | [v] => encode_value v
  | _ => frame COMPOSITE_TAG (concat (encode_value <$> vs))
  end.

Lemma from_values_bytes vs k : from_values vs = Ok k -> typed_bytes k = values_bytes vs.
Proof. destruct vs as [|v [|v2 vs]]; [done|..]; cbn [from_values]; intros E; injection E as <-; reflexivity. Qed.

Lemma composite_not_value v vs x x' :
  value_ok v -> Z.of_nat (length (concat (encode_value <$> vs))) < 2 ^ 32 ->
  encode_value v ++ x <> frame COMPOSITE_TAG (concat (encode_value <$> vs)) ++ x'.
Proof.
  intros Hv Hl E. destruct (encode_value_frame v Hv) as (t & p & Ev & Hp & Ht & _). rewrite Ev in E.
  apply frame_inj in E as (-> & _); [|done..]. unfold COMPOSITE_TAG in Ht. lia.
Qed.

Lemma values_bytes_inj vs vs' x x' :
  values_ok vs -> values_ok vs' -> values_bytes vs ++ x = values_bytes vs' ++ x' -> vs = vs' /\ x = x'.
Proof.
  intros [Hv Hl] [Hv' Hl'] E.
  assert (forall v, Forall value_ok [v] -> value_ok v) as H1 by (intros v Hf; by inversion Hf).
  assert (forall ws ws', Forall value_ok ws -> Forall value_ok ws' ->
    Z.of_nat (length (concat (encode_value <$> ws))) < 2 ^ 32 ->
    Z.of_nat (length (concat (encode_value <$> ws'))) < 2 ^ 32 ->
    frame COMPOSITE_TAG (concat (encode_value <$> ws)) ++ x =
    frame COMPOSITE_TAG (concat (encode_value <$> ws')) ++ x' -> ws = ws' /\ x = x') as Hc.
  { intros ws ws' Hw Hw' Hlw Hlw' Ew. apply frame_inj in Ew as (_ & Ew & ->); [|done..].
    split; [|done]. by apply encode_values_inj. }
  destruct vs as [|v [|v2 vs]], vs' as [|v' [|v2' vs']]; cbn [values_bytes] in E; try (by apply Hc).
  - symmetry in E. by apply composite_not_value in E; [|apply H1|].
  - by apply composite_not_value in E; [|apply H1|].
  - apply encode_value_inj in E as [-> ->]; [done|by apply H1..].
  - by apply composite_not_value in E; [|apply H1|].
  - symmetry in E. by apply composite_not_value in E; [|apply H1|].
Qed.

Lemma values_bytes_null vs :
  vs <> [] -> values_ok vs ->
  (if bool_decide (head (values_bytes vs) = Some NULL_TAG) then true
   else if negb (bool_decide (head (values_bytes vs) = Some COMPOSITE_TAG)) ||
           (length (values_bytes vs) <? 5)%nat then false
   else null_frame (length (values_bytes vs)) (drop 5 (values_bytes vs))) = bool_decide (Null ∈ vs).
Proof.
  intros Hne [Hv Hl]. destruct vs as [|v [|v2 vs]]; [done|..]; cbn [values_bytes].
  - pose proof (proj1 (Forall_singleton _ _) Hv) as Hv1. destruct (encode_value_frame v Hv1) as (t & p & -> & Hp & Ht & Hn).
    cbn [head frame]. case_bool_decide as E.
    + symmetry. apply bool_decide_eq_true_2. rewrite (proj1 Hn) by congruence. by left.
    + rewrite (bool_decide_eq_false_2 (Some t = _)) by (unfold COMPOSITE_TAG; intros [=]; lia). cbn [negb orb].
      symmetry. apply bool_decide_eq_false_2. intros <-%list_elem_of_singleton. apply E. f_equal. by apply Hn.
  - rewrite length_frame, drop_frame. set (p := concat _) in *. cbn [head frame].
    rewrite bool_decide_eq_false_2, bool_decide_eq_true_2 by done. cbn [negb orb].
    rewrite (proj2 (Nat.ltb_ge _ 5)) by lia.
    apply (null_frame_values _ (v :: v2 :: vs)); [done|]. fold p. lia.
Qed.

(** C31: Key capsules identify keys.  For values that fit their frames, two
    non-empty lists of values have the same typed bytes exactly when they are
    equal, whether there are one or several of them; no capsule's bytes begin
    another's, so a scan by these bytes finds one key only; and [contains_null]
    holds exactly when a value is null. *)
Theorem capsules_identify_keys (vs vs' : list KeyValue) (k k' : KeyCapsule) (x x' : bytes) :
  values_ok vs -> values_ok vs' -> from_values vs = Ok k -> from_values vs' = Ok k' ->
  (typed_bytes k ++ x = typed_bytes k' ++ x' <-> vs = vs' /\ x = x') /\
  contains_null k = bool_decide (Null ∈ vs).
Proof.
  intros [Hv Hl] [Hv' Hl'] Hk Hk'.
  assert (vs <> []) as Hne by (by intros ->).
  apply from_values_bytes in Hk, Hk'. split.
  - rewrite Hk, Hk'. split; [|by intros [-> ->]]. by apply values_bytes_inj.
  - unfold contains_null, is_null. rewrite Hk. by apply values_bytes_null.
Qed.

Lemma capsules_identify_keys_witness :
  let vs := [Int64 (-5); Null] in
  exists k, from_values vs = Ok k /\ contains_null k = true /\ typed_bytes k <> encode_value (Int64 (-5)).
Proof.
  eexists. split; [reflexivity|].
  assert (values_ok [Int64 (-5); Null]) as Hok by (split; [by repeat (apply Forall_cons_2; [done|])|vm_compute; reflexivity]).
  assert (values_ok [Int64 (-5)]) as Hok1 by (split; [by repeat (apply Forall_cons_2; [done|])|vm_compute; reflexivity]).
  split.
  - apply (capsules_identify_keys [Int64 (-5); Null] [Int64 (-5)] _ _ [] [] Hok Hok1 eq_refl eq_refl).
  - intros E. apply (f_equal (fun b => b ++ [])) in E.
    apply (capsules_identify_keys [Int64 (-5); Null] [Int64 (-5)] _ _ [] [] Hok Hok1 eq_refl eq_refl) in E.
    by destruct E.
Defined.
