(* ===== verification/Store.v ===== *)
(** * Write batches and the storage engine
      ([rockstream-storage/src/shard_db.rs], [WriteBatch])

    The batch type operators fill, and the interface of SlateDB, the external
    storage engine below [ShardDb]: [SlateDb] has the calls the shard database
    makes and [SlateDbLaws] their documented behaviour.  A batch is applied
    atomically and in order, or, when the call reports an error, either applied
    or not; a scan is a snapshot in key order that may end in an error.
    [MapStore] is a concrete instance. *)
From stdpp Require Import base tactics list gmap numbers option fin_maps sorting.
From Stdlib Require Import ZArith Lia ZifyBool.
From S2P Require Import Prelude.
Local Open Scope Z_scope.

Inductive BatchOp : Type :=
| Put (key val : bytes)
| Delete (key : bytes)
| MergeOp (key val : bytes).

Definition op_key (op : BatchOp) : bytes :=
  match op with Put key _ => key | Delete key => key | MergeOp key _ => key end.

Abbreviation WriteBatch := (list BatchOp) (only parsing).

Definition batch_new : WriteBatch := [].
Definition batch_put (b : WriteBatch) (key val : bytes) : WriteBatch := b ++ [Put key val].
Definition batch_delete (b : WriteBatch) (key : bytes) : WriteBatch := b ++ [Delete key].
Definition batch_merge (b : WriteBatch) (key val : bytes) : WriteBatch := b ++ [MergeOp key val].
Definition merge_from (b other : WriteBatch) : WriteBatch := b ++ other.
Definition batch_len (b : WriteBatch) : nat := length b.
Definition batch_is_empty (b : WriteBatch) : bool := (length b =? 0)%nat.

Definition op_bytes (op : BatchOp) : Z :=
  match op with
  | Put key val => Z.of_nat (length key) + Z.of_nat (length val)
  | Delete key => Z.of_nat (length key)
  | MergeOp key val => Z.of_nat (length key) + Z.of_nat (length val)
  end.

Definition byte_size (b : WriteBatch) : Z := foldr (fun op acc => op_bytes op + acc) 0 b.

Lemma byte_size_app b b' : byte_size (b ++ b') = byte_size b + byte_size b'.
Proof. induction b; simpl; lia. Qed.

Lemma byte_size_nonneg b : 0 <= byte_size b.
Proof. induction b as [|[] b IH]; simpl; lia. Qed.

(* ------------------------------------------------------------------ *)
(** ** The store *)

(** The effect of point writes in order; merges are not used by the operators
    that rely on this interface. *)
Definition apply_op (m : gmap bytes bytes) (op : BatchOp) : gmap bytes bytes :=
  match op with
  | Put key val => <[key := val]> m
  | Delete key => delete key m
  | MergeOp _ _ => m
  end.

Definition apply_ops (m : gmap bytes bytes) (ops : WriteBatch) : gmap bytes bytes :=
  foldl apply_op m ops.

Definition point_writes (ops : WriteBatch) : Prop :=
  Forall (fun op => match op with MergeOp _ _ => False | _ => True end) ops.

(** The live entries of a key range in key order: the keys that start with [p]
    and, when [after] is given, come strictly after [p ++ after]. *)
Definition key_lt (k k' : bytes) : Prop := lex_cmp k k' = Lt.

Definition in_scan (p : bytes) (after : option bytes) (k : bytes) : bool :=
  starts_with k p &&
  match after with
  | None => true
  | Some sfx => match lex_cmp (p ++ sfx) k with Lt => true | _ => false end
  end.

Definition scan_result (m : gmap bytes bytes) (p : bytes) (after : option bytes)
    (l : list (bytes * bytes)) : Prop :=
  StronglySorted key_lt l.*1 /\
  forall k v, (k, v) ∈ l <-> m !! k = Some v /\ in_scan p after k = true.

Class SlateDb : Type := {
  Db : Type;
  SlateError : Type;
  (** [kind() == Closed(Fenced)] *)
  is_fenced : SlateError -> bool;
  contents : Db -> gmap bytes bytes;
  slate_get : Db -> bytes -> result SlateError (option bytes);
  (** [write] followed by [await_durable] *)
  slate_write : Db -> WriteBatch -> Db * result SlateError unit;
  slate_flush : Db -> Db * result SlateError unit;
  (** [scan_prefix(p, ..)] and [scan_prefix(p, (Excluded(after), Unbounded))]:
      the successive results of the iterator's [next] *)
  slate_scan : Db -> bytes -> option bytes ->
    result SlateError (list (result SlateError (bytes * bytes)))
}.

Class SlateDbLaws `{SlateDb} : Prop := {
  slate_get_spec db k v : slate_get db k = Ok v -> v = contents db !! k;
  slate_write_ok db ops db' :
    point_writes ops -> slate_write db ops = (db', Ok tt) ->
    contents db' = apply_ops (contents db) ops;
  slate_write_err db ops db' e :
    point_writes ops -> slate_write db ops = (db', Err e) ->
    contents db' = contents db \/ contents db' = apply_ops (contents db) ops;
  slate_flush_spec db db' r : slate_flush db = (db', r) -> contents db' = contents db;
  slate_scan_spec db p after items :
    slate_scan db p after = Ok items ->
    exists l, scan_result (contents db) p after l /\
      (items = Ok <$> l \/ exists n e, items = (Ok <$> take n l) ++ [Err e])
}.

(** [put] and [delete] of the engine are batches of one operation. *)
Definition slate_put `{SlateDb} (db : Db) (key val : bytes) : Db * result SlateError unit :=
  slate_write db [Put key val].
Definition slate_delete `{SlateDb} (db : Db) (key : bytes) : Db * result SlateError unit :=
  slate_write db [Delete key].
Definition slate_merge `{SlateDb} (db : Db) (key val : bytes) : Db * result SlateError unit :=
  slate_write db [MergeOp key val].

(** A storage engine that is up: no call fails. *)
Class SlateDbUp `{SlateDb} : Prop := {
  up_get db k : exists v, slate_get db k = Ok v;
  up_write db ops : exists db', slate_write db ops = (db', Ok tt);
  up_flush db : exists db', slate_flush db = (db', Ok tt);
  up_scan db p after : exists l, slate_scan db p after = Ok (Ok <$> l)
}.

(* ------------------------------------------------------------------ *)
(** ** Key order *)

Definition entry_le (e e' : bytes * bytes) : Prop := lex_cmp e.1 e'.1 <> Gt.

#[global] Instance entry_le_dec e e' : Decision (entry_le e e').
Proof. unfold entry_le. solve_decision. Defined.

#[global] Instance entry_le_total : Total entry_le.
Proof.
  intros e e'. unfold entry_le. rewrite (lex_cmp_opp e'.1). destruct (lex_cmp e.1 e'.1); simpl; auto.
Qed.

#[global] Instance entry_le_trans : Transitive entry_le.
Proof. intros x y z. apply lex_cmp_le_trans. Qed.

Lemma key_lt_irrefl k : ~ key_lt k k.
Proof. unfold key_lt. by rewrite lex_cmp_refl. Qed.

Lemma key_lt_trans k1 k2 k3 : key_lt k1 k2 -> key_lt k2 k3 -> key_lt k1 k3.
Proof.
  unfold key_lt. intros H1 H2. destruct (lex_cmp k1 k3) eqn:E; [|done|].
  - apply lex_cmp_Eq in E as ->. apply lex_cmp_Gt in H1. congruence.
  - exfalso. apply (lex_cmp_le_trans k1 k2 k3); congruence.
Qed.

Lemma sorted_NoDup (l : list bytes) : StronglySorted key_lt l -> NoDup l.
Proof.
  induction 1 as [|k l _ IH Hall]; [constructor|]. apply NoDup_cons. split; [|done].
  intros Hin. rewrite Forall_forall in Hall. by apply (key_lt_irrefl k), Hall.
Qed.

(** Sorting the entries of a map by key gives strictly increasing keys. *)
Lemma sorted_entries_strict (l : list (bytes * bytes)) :
  NoDup l.*1 -> StronglySorted entry_le l -> StronglySorted key_lt l.*1.
Proof.
  induction l as [|[k v] l IH]; intros Hd Hs; [constructor|]. rewrite fmap_cons in *. cbn [fst] in *.
  apply NoDup_cons in Hd as [Hn Hd]. apply StronglySorted_inv in Hs as [Hs Hall].
  constructor; [by apply IH|]. apply Forall_fmap, Forall_forall. intros [k' v'] Hin.
  rewrite Forall_forall in Hall. specialize (Hall _ Hin). unfold entry_le, key_lt in *. cbn [fst] in *.
  destruct (lex_cmp k k') eqn:E; [|done|done]. apply lex_cmp_Eq in E as ->.
  destruct Hn. apply list_elem_of_fmap. by exists (k', v').
Qed.

(** A sorted list is determined by its entries. *)
Lemma sorted_unique (l1 l2 : list (bytes * bytes)) :
  StronglySorted key_lt l1.*1 -> StronglySorted key_lt l2.*1 ->
  (forall e, e ∈ l1 <-> e ∈ l2) -> l1 = l2.
Proof.
  revert l2. induction l1 as [|e1 l1 IH]; intros [|e2 l2] H1 H2 Hin; [done| | |].
  { destruct (not_elem_of_nil e2). apply Hin. by left. }
  { destruct (not_elem_of_nil e1). apply Hin. by left. }
  rewrite !fmap_cons in *. apply StronglySorted_inv in H1 as [H1 F1], H2 as [H2 F2].
  rewrite Forall_fmap, Forall_forall in F1, F2.
  assert (e1 = e2) as <-.
  { destruct (decide (e1 = e2)) as [|Hne]; [done|]. exfalso.
    apply (key_lt_irrefl e1.1), (key_lt_trans _ e2.1).
    - apply F1. assert (e2 ∈ e1 :: l1) as Hi by (apply Hin; by left).
      by apply elem_of_cons in Hi as [Hi|Hi].
    - apply F2. assert (e1 ∈ e2 :: l2) as Hi by (apply Hin; by left).
      by apply elem_of_cons in Hi as [Hi|Hi]. }
  f_equal. apply IH; [done|done|]. intros e. split; intros He.
  - assert (e ∈ e1 :: l2) as Hi by (apply Hin; by right).
    apply elem_of_cons in Hi as [->|]; [|done]. destruct (key_lt_irrefl e1.1). by apply F1.
  - assert (e ∈ e1 :: l1) as Hi by (apply Hin; by right).
    apply elem_of_cons in Hi as [->|]; [|done]. destruct (key_lt_irrefl e1.1). by apply F2.
Qed.

Lemma scan_result_unique m p after l1 l2 :
  scan_result m p after l1 -> scan_result m p after l2 -> l1 = l2.
Proof.
  intros [S1 E1] [S2 E2]. apply sorted_unique; [done|done|].
  intros [k v]. by rewrite E1, E2.
Qed.

(* ------------------------------------------------------------------ *)
(** ** A concrete engine *)

Module MapStore.
Definition scan (m : gmap bytes bytes) (p : bytes) (after : option bytes) : list (bytes * bytes) :=
  merge_sort entry_le (base.filter (fun e => in_scan p after e.1 = true) (map_to_list m)).

#[export] Instance map_store : SlateDb := {|
  Db := gmap bytes bytes;
  SlateError := unit;
  is_fenced _ := false;
  contents m := m;
  slate_get m k := Ok (m !! k);
  slate_write m ops := (apply_ops m ops, Ok tt);
  slate_flush m := (m, Ok tt);
  slate_scan m p after := Ok (Ok <$> scan m p after)
|}.

Lemma scan_spec m p after : scan_result m p after (scan m p after).
Proof.
  unfold scan. set (l := base.filter _ _). split.
  - apply sorted_entries_strict; [|apply StronglySorted_merge_sort; apply _].
    rewrite merge_sort_Permutation. apply NoDup_fmap_fst.
    + intros k v1 v2 [_ H1%elem_of_map_to_list]%list_elem_of_filter
        [_ H2%elem_of_map_to_list]%list_elem_of_filter. congruence.
    + apply NoDup_filter, NoDup_map_to_list.
  - intros k v. rewrite merge_sort_Permutation. unfold l.
    rewrite list_elem_of_filter, elem_of_map_to_list. simpl. tauto.
Qed.

#[export] Instance map_store_laws : SlateDbLaws.
Proof.
  split; simpl.
  - by intros db k v [= <-].
  - by intros db ops db' _ [= <-].
  - done.
  - by intros db db' r [= <- _].
  - intros db p after items [= <-]. exists (scan db p after). split; [apply scan_spec|by left].
Qed.

#[export] Instance map_store_up : SlateDbUp.
Proof. split; simpl; eauto. Qed.
End MapStore.

(* ------------------------------------------------------------------ *)
(** ** Batches *)

Lemma apply_ops_app m ops ops' : apply_ops m (ops ++ ops') = apply_ops (apply_ops m ops) ops'.
Proof. apply foldl_app. Qed.

(** Keys a batch does not mention keep their value. *)
Lemma apply_ops_other m ops k :
  (forall op, op ∈ ops -> op_key op <> k) -> apply_ops m ops !! k = m !! k.
Proof.
  revert m. induction ops as [|op ops IH]; intros m Hk; [done|].
  cbn [apply_ops foldl]. fold (apply_ops (apply_op m op) ops).
  rewrite IH by (intros; apply Hk; by right).
  specialize (Hk op ltac:(left)). destruct op; simpl in *;
    [by rewrite lookup_insert_ne|by rewrite lookup_delete_ne|done].
Qed.

(** Deleting a list of keys. *)
Lemma apply_deletes m keys k :
  apply_ops m (Delete <$> keys) !! k = if bool_decide (k ∈ keys) then None else m !! k.
Proof.
  revert m. induction keys as [|k' keys IH]; intros m; [done|].
  rewrite fmap_cons. cbn [apply_ops foldl]. fold (apply_ops (apply_op m (Delete k')) (Delete <$> keys)).
  rewrite IH. cbn [apply_op]. destruct (decide (k' = k)) as [->|Hne].
  - rewrite lookup_delete_eq, (bool_decide_eq_true_2 (k ∈ k :: keys)) by left.
    by case_bool_decide.
  - rewrite lookup_delete_ne by done. f_equal.
    destruct (bool_decide_reflect (k ∈ keys)), (bool_decide_reflect (k ∈ k' :: keys)); set_solver.
Qed.
