(* ===== verification/ShardDb.v ===== *)
(** * The shard database ([rockstream-storage/src/shard_db.rs], [ShardDb])

    [ShardDb] wraps the storage engine: it maps logical keys to the physical
    keys of the shard's storage format, refuses writes while a format migration
    is pending, and keeps the committed epoch monotone.  A method is a
    function of the shard: its run when no other call of the same handle runs
    between its awaits and atomic operations.  ShardRaces.v cuts the methods at
    these points and interleaves them.  Error
    messages are dropped, and gauges and test hooks that need the [test-utils]
    feature are left out.  Sums of lengths of in-memory buffers do not overflow
    [usize]. *)
From Stdlib Require Import Ascii String.
From stdpp Require Import base tactics list gmap numbers option fin_maps sorting.
From Stdlib Require Import ZArith Lia ZifyBool.
From S2P Require Import Prelude Kernels Laws MergeOps Keys Store.
Local Open Scope Z_scope.

(* ------------------------------------------------------------------ *)
(** ** Storage formats *)

Abbreviation StorageFormatVersion := Z (only parsing).
Definition V1 : StorageFormatVersion := 1.
Definition V2 : StorageFormatVersion := 2.
Definition V3 : StorageFormatVersion := 3.

Record SupportedStorageFormatRange : Type := {
  range_min : StorageFormatVersion;
  range_max : StorageFormatVersion
}.

Definition v1_only : SupportedStorageFormatRange := {| range_min := V1; range_max := V1 |}.
Definition v1_through_v2 : SupportedStorageFormatRange := {| range_min := V1; range_max := V2 |}.
Definition v2_only : SupportedStorageFormatRange := {| range_min := V2; range_max := V2 |}.
Definition v2_through_v3 : SupportedStorageFormatRange := {| range_min := V2; range_max := V3 |}.
Definition v3_only : SupportedStorageFormatRange := {| range_min := V3; range_max := V3 |}.
Definition v1_through_v3 : SupportedStorageFormatRange := {| range_min := V1; range_max := V3 |}.

Definition range_contains (r : SupportedStorageFormatRange) (version : StorageFormatVersion) : bool :=
  (range_min r <=? version) && (version <=? range_max r).
Definition range_overlaps (r other : SupportedStorageFormatRange) : bool :=
  (range_min r <=? range_max other) && (range_min other <=? range_max r).

Definition V2_KEY_MAGIC : bytes := [0xFF; 0x56; 0x32].
Definition V3_KEY_MAGIC : bytes := [0xFF; 0x56; 0x33].

Definition format_v2_key (key : bytes) : bytes := V2_KEY_MAGIC ++ key.
Definition is_format_v2_key (key : bytes) : bool := starts_with key V2_KEY_MAGIC.
Definition format_v2_prefix (prefix : bytes) : bytes := format_v2_key prefix.
Definition logical_key_from_format_v2 (key : bytes) : option bytes := strip_prefix V2_KEY_MAGIC key.

Definition format_v3_key (key : bytes) : bytes :=
  let raw := match logical_key_from_format_v2 key with Some stripped => stripped | None => key end in
  V3_KEY_MAGIC ++ raw.
Definition is_format_v3_key (key : bytes) : bool := starts_with key V3_KEY_MAGIC.
Definition format_v3_prefix (prefix : bytes) : bytes := format_v3_key prefix.
Definition logical_key_from_format_v3 (key : bytes) : option bytes := strip_prefix V3_KEY_MAGIC key.

(** The bytes of an ASCII string literal. *)
Definition str_bytes (s : string) : bytes :=
  (fun c => Z.of_N (N_of_ascii c)) <$> list_ascii_of_string s.

(** [Display] of a [u8]: decimal digits. *)
Definition display_u8 (n : Z) : bytes :=
  if n <? 10 then [0x30 + n]
  else if n <? 100 then [0x30 + n / 10; 0x30 + n mod 10]
  else [0x30 + n / 100; 0x30 + n / 10 mod 10; 0x30 + n mod 10].

Definition migration_progress_key (from to : StorageFormatVersion) : bytes :=
  meta_key (str_bytes "format_migration/progress/" ++ display_u8 from ++ [0x2D] ++ display_u8 to).
Definition migration_complete_key (from to : StorageFormatVersion) : bytes :=
  meta_key (str_bytes "format_migration/complete/" ++ display_u8 from ++ [0x2D] ++ display_u8 to).

(** [key.first().copied()] compared with the metadata prefix. *)
Definition is_meta (key : bytes) : bool := bool_decide (head key = Some 0x06).
Definition is_data_key (key : bytes) : bool := negb (bool_decide (head key = Some (as_byte ShardMeta))).

(* ------------------------------------------------------------------ *)
(** ** The shard database *)

Section shard_db.
Context `{SlateDb}.

Inductive StorageError : Type :=
| Slate (e : SlateError)
| InvalidKey
| Unsupported
| PartialAggResultTooLarge (limit : Z)
| ScanBufferLimitExceeded (scan_bytes limit : Z)
| UnknownMergeLaw (law_id law_version : Z)
| MalformedArrangementHeader (length : Z)
| IncompatibleFormat (stored fmin fmax : Z)
| MalformedFormatMarker (length fmin fmax : Z)
| MigrationInterrupted (processed : Z)
| MigrationInProgress
| OperandCorruption (law_id : Z)
| Fenced
| EpochPruned (requested_epoch min_retention_epoch : Z).

(** [From<slatedb::Error>] *)
Definition storage_error (e : SlateError) : StorageError :=
  if is_fenced e then Fenced else Slate e.

Definition lift {A} (r : result SlateError A) : result StorageError A :=
  match r with Ok a => Ok a | Err e => Err (storage_error e) end.

Record ShardDb : Type := {
  db : Db;
  last_epoch : Z;
  allocated_epoch : Z;
  format_version : StorageFormatVersion;
  migration_pending : bool;
  fail_writes : bool;
  fail_flushes : bool;
  fail_scans : bool
}.

Definition set_db (d : ShardDb) (db' : Db) : ShardDb :=
  {| db := db'; last_epoch := last_epoch d; allocated_epoch := allocated_epoch d;
     format_version := format_version d; migration_pending := migration_pending d;
     fail_writes := fail_writes d; fail_flushes := fail_flushes d; fail_scans := fail_scans d |}.

Definition set_epochs (d : ShardDb) (last allocated : Z) : ShardDb :=
  {| db := db d; last_epoch := last; allocated_epoch := allocated;
     format_version := format_version d; migration_pending := migration_pending d;
     fail_writes := fail_writes d; fail_flushes := fail_flushes d; fail_scans := fail_scans d |}.

(** [fetch_max] on both epoch counters. *)
Definition advance_epoch (d : ShardDb) (epoch : Z) : ShardDb :=
  set_epochs d (Z.max (last_epoch d) epoch) (Z.max (allocated_epoch d) epoch).

Definition set_fail_writes (d : ShardDb) (fail : bool) : ShardDb :=
  {| db := db d; last_epoch := last_epoch d; allocated_epoch := allocated_epoch d;
     format_version := format_version d; migration_pending := migration_pending d;
     fail_writes := fail; fail_flushes := fail_flushes d; fail_scans := fail_scans d |}.
Definition set_fail_scans (d : ShardDb) (fail : bool) : ShardDb :=
  {| db := db d; last_epoch := last_epoch d; allocated_epoch := allocated_epoch d;
     format_version := format_version d; migration_pending := migration_pending d;
     fail_writes := fail_writes d; fail_flushes := fail_flushes d; fail_scans := fail |}.
Definition set_fail_flushes (d : ShardDb) (fail : bool) : ShardDb :=
  {| db := db d; last_epoch := last_epoch d; allocated_epoch := allocated_epoch d;
     format_version := format_version d; migration_pending := migration_pending d;
     fail_writes := fail_writes d; fail_flushes := fail; fail_scans := fail_scans d |}.

(** [u64::from_be_bytes] of an 8-byte frontier value. *)
Definition epoch_of (value : bytes) : option Z :=
  if (length value =? 8)%nat then Some (of_be value) else None.

(** Opening: the format marker is checked or written, a pending 1→2 migration
    is detected, and the committed epoch is read back. *)
Definition read_format (db : Db) (range : SupportedStorageFormatRange)
    : Db * result StorageError StorageFormatVersion :=
  match slate_get db format_version_key with
  | Err e => (db, Err (storage_error e))
  | Ok None =>
      let init_version := if range_contains range V1 then V1 else range_max range in
      match slate_put db format_version_key [init_version] with
      | (db1, Err e) => (db1, Err (storage_error e))
      | (db1, Ok _) =>
          match slate_flush db1 with
          | (db2, Err e) => (db2, Err (storage_error e))
          | (db2, Ok _) => (db2, Ok init_version)
          end
      end
  | Ok (Some [stored]) =>
      if negb (range_contains range stored)
      then (db, Err (IncompatibleFormat stored (range_min range) (range_max range)))
      else (db, Ok stored)
  | Ok (Some b) =>
      (db, Err (MalformedFormatMarker (Z.of_nat (length b)) (range_min range) (range_max range)))
  end.

Definition shard_open (db0 : Db) (range : SupportedStorageFormatRange)
    : Db * result StorageError ShardDb :=
  match read_format db0 range with
  | (db1, Err e) => (db1, Err e)
  | (db1, Ok fv) =>
      (db1,
       pending ← (if fv =? 1 then
                    v ← lift (slate_get db1 (migration_progress_key V1 V2));
                    Ok (bool_decide (is_Some v))
                  else Ok false);
       stored ← lift (slate_get db1 frontier_key);
       let initial_epoch := default 0 (b ← stored; epoch_of b) in
       Ok {| db := db1; last_epoch := initial_epoch; allocated_epoch := initial_epoch;
             format_version := fv; migration_pending := pending;
             fail_writes := false; fail_flushes := false; fail_scans := false |})
  end.

Definition physical_key (d : ShardDb) (key : bytes) : bytes :=
  if (format_version d =? 3) && negb (is_meta key) then format_v3_key key
  else if (format_version d =? 2) && negb (is_meta key) then format_v2_key key
  else key.

(* ------------------------------------------------------------------ *)
(** *** Scans *)

(** [strip_version_prefix] and the physical form of a prefix or token. *)
Definition strips (d : ShardDb) (prefix : bytes) : bool :=
  ((format_version d =? 2) || (format_version d =? 3)) && negb (is_meta prefix).

Definition versioned (d : ShardDb) (strip : bool) (key : bytes) : bytes :=
  if strip then (if format_version d =? 3 then format_v3_key key else format_v2_key key) else key.

Definition unversioned (d : ShardDb) (strip : bool) (key : bytes) : result StorageError bytes :=
  if strip then
    ok_or (if format_version d =? 3 then logical_key_from_format_v3 key
           else logical_key_from_format_v2 key) Unsupported
  else Ok key.

Fixpoint collect_entries (key_of : bytes -> result StorageError bytes)
    (items : list (result SlateError (bytes * bytes))) : result StorageError (list (bytes * bytes)) :=
  match items with
  | [] => Ok []
  | item :: rest =>
      '(k, v) ← lift item;
      k' ← key_of k;
      results ← collect_entries key_of rest;
      Ok ((k', v) :: results)
  end.

Definition scan_physical_prefix (d : ShardDb) (prefix : bytes) (strip : bool)
    : result StorageError (list (bytes * bytes)) :=
  items ← lift (slate_scan (db d) (versioned d strip prefix) None);
  collect_entries (unversioned d strip) items.

(** The byte-bounded loop: [results] are in order, the flag says truncated. *)
Fixpoint bounded_loop (key_of : bytes -> result StorageError bytes) (max_bytes : Z)
    (items : list (result SlateError (bytes * bytes))) (total : Z) (results : list (bytes * bytes))
    : result StorageError (list (bytes * bytes) * Z * bool) :=
  match items with
  | [] => Ok (results, total, false)
  | item :: rest =>
      '(k, v) ← lift item;
      k' ← key_of k;
      let total := total + (Z.of_nat (length k') + Z.of_nat (length v)) in
      if (max_bytes <? total) && negb (length results =? 0)%nat then Ok (results, total, true)
      else
        let results := results ++ [(k', v)] in
        if max_bytes <? total then Ok (results, total, true)
        else bounded_loop key_of max_bytes rest total results
  end.

Definition scan_physical_prefix_bounded (d : ShardDb) (prefix : bytes) (strip : bool) (max_bytes : Z)
    : result StorageError (list (bytes * bytes) * bool) :=
  items ← lift (slate_scan (db d) (versioned d strip prefix) None);
  '(results, _, truncated) ← bounded_loop (unversioned d strip) max_bytes items 0 [];
  Ok (results, truncated).

(** While a 1→2 migration is pending: the unmigrated entries that have no
    migrated copy. *)
Fixpoint unmigrated (d : ShardDb) (items : list (result SlateError (bytes * bytes)))
    : result StorageError (list (bytes * bytes)) :=
  match items with
  | [] => Ok []
  | item :: rest =>
      '(k, v) ← lift item;
      migrated ← lift (slate_get (db d) (format_v2_key k));
      results ← unmigrated d rest;
      Ok (match migrated with None => (k, v) :: results | Some _ => results end)
  end.

Definition v2_logical (key : bytes) : result StorageError bytes :=
  ok_or (logical_key_from_format_v2 key) Unsupported.

(** [sort_by] on keys is a stable sort. *)
Definition sort_entries (l : list (bytes * bytes)) : list (bytes * bytes) := merge_sort entry_le l.

Definition scan_pending_prefix (d : ShardDb) (prefix : bytes)
    : result StorageError (list (bytes * bytes)) :=
  old_items ← lift (slate_scan (db d) prefix None);
  old_results ← unmigrated d old_items;
  new_items ← lift (slate_scan (db d) (format_v2_prefix prefix) None);
  new_results ← collect_entries v2_logical new_items;
  Ok (sort_entries (old_results ++ new_results)).

(** The first loop of the bounded variant, which skips migrated keys. *)
Fixpoint bounded_unmigrated (d : ShardDb) (max_bytes : Z)
    (items : list (result SlateError (bytes * bytes))) (total : Z) (results : list (bytes * bytes))
    : result StorageError (list (bytes * bytes) * Z * bool) :=
  match items with
  | [] => Ok (results, total, false)
  | item :: rest =>
      '(k, v) ← lift item;
      migrated ← lift (slate_get (db d) (format_v2_key k));
      match migrated with
      | Some _ => bounded_unmigrated d max_bytes rest total results
      | None =>
          let total := total + (Z.of_nat (length k) + Z.of_nat (length v)) in
          if (max_bytes <? total) && negb (length results =? 0)%nat then Ok (results, total, true)
          else
            let results := results ++ [(k, v)] in
            if max_bytes <? total then Ok (results, total, true)
            else bounded_unmigrated d max_bytes rest total results
      end
  end.

Definition scan_pending_prefix_bounded (d : ShardDb) (prefix : bytes) (max_bytes : Z)
    : result StorageError (list (bytes * bytes) * bool) :=
  old_items ← lift (slate_scan (db d) prefix None);
  '(results, total, truncated) ← bounded_unmigrated d max_bytes old_items 0 [];
  if (truncated : bool) then Ok (results, true)
  else
    new_items ← lift (slate_scan (db d) (format_v2_prefix prefix) None);
    '(results, _, truncated) ← bounded_loop v2_logical max_bytes new_items total results;
    if (truncated : bool) then Ok (results, true) else Ok (sort_entries results, false).

Definition scan_prefix (d : ShardDb) (prefix : bytes) : result StorageError (list (bytes * bytes)) :=
  if fail_scans d then Err Unsupported
  else if strips d prefix then scan_physical_prefix d prefix true
  else if migration_pending d && negb (is_meta prefix) then scan_pending_prefix d prefix
  else scan_physical_prefix d prefix false.

Definition scan_prefix_bounded (d : ShardDb) (prefix : bytes) (max_bytes : Z)
    : result StorageError (list (bytes * bytes) * bool) :=
  if fail_scans d then Err Unsupported
  else if strips d prefix then scan_physical_prefix_bounded d prefix true max_bytes
  else if migration_pending d && negb (is_meta prefix) then scan_pending_prefix_bounded d prefix max_bytes
  else scan_physical_prefix_bounded d prefix false max_bytes.

(** One page of a resumable scan. *)
Record ScanPage : Type := {
  page_rows : list (bytes * bytes);
  next_token : option bytes;
  is_last_page : bool;
  page_bytes : Z
}.

Fixpoint page_loop (key_of : bytes -> result StorageError bytes) (resume_after : option bytes)
    (page_size : nat) (max_buffer_bytes : Z) (items : list (result SlateError (bytes * bytes)))
    (rows : list (bytes * bytes)) (page_bytes : Z)
    : result StorageError (list (bytes * bytes) * Z * bool) :=
  match items with
  | [] => Ok (rows, page_bytes, true)
  | item :: rest =>
      '(k, v) ← lift item;
      if match resume_after with
         | Some resume => match lex_cmp k resume with Gt => false | _ => true end
         | None => false
         end
      then page_loop key_of resume_after page_size max_buffer_bytes rest rows page_bytes
      else
        k' ← key_of k;
        let entry_bytes := Z.of_nat (length k') + Z.of_nat (length v) in
        if (page_size <=? length rows)%nat
           || ((max_buffer_bytes <? page_bytes + entry_bytes) && negb (length rows =? 0)%nat)
        then Ok (rows, page_bytes, false)
        else page_loop key_of resume_after page_size max_buffer_bytes rest
               (rows ++ [(k', v)]) (page_bytes + entry_bytes)
  end.

Definition scan_prefix_page (d : ShardDb) (prefix : bytes) (continuation_token : option bytes)
    (page_size : nat) (max_buffer_bytes : Z) : result StorageError ScanPage :=
  if fail_scans d then Err Unsupported
  else
    let strip := strips d prefix in
    let physical_prefix := versioned d strip prefix in
    let resume_after := versioned d strip <$> continuation_token in
    let suffix := key ← resume_after; strip_prefix physical_prefix key in
    items ← lift (slate_scan (db d) physical_prefix suffix);
    '(rows, page_bytes, is_last_page) ←
      page_loop (unversioned d strip) resume_after page_size max_buffer_bytes items [] 0;
    Ok {| page_rows := rows;
          next_token := if (is_last_page : bool) then None else fst <$> last rows;
          is_last_page := is_last_page; page_bytes := page_bytes |}.

(* ------------------------------------------------------------------ *)
(** *** Point reads and writes *)

(** Reading the frontier key refreshes the cached epoch, which must not go
    back. *)
Definition observe_frontier (d : ShardDb) (key : bytes) (val : option bytes) : outcome ShardDb :=
  if bool_decide (key = frontier_key) then
    match (b ← val; epoch_of b) with
    | Some epoch =>
        if epoch <? last_epoch d then Panic
        else Done (set_epochs d epoch (Z.max (allocated_epoch d) epoch))
    | None => Done d
    end
  else Done d.

(** [Option::or]; both operands have been read. *)
Definition opt_or {A} (a b : option A) : option A := match a with Some _ => a | None => b end.

Definition read_value (d : ShardDb) (key : bytes) : result StorageError (option bytes) :=
  if migration_pending d && negb (is_meta key) then
    if format_version d =? 3 then
      a ← lift (slate_get (db d) (format_v3_key key));
      b ← lift (slate_get (db d) (format_v2_key key));
      c ← lift (slate_get (db d) key);
      Ok (opt_or (opt_or a b) c)
    else
      a ← lift (slate_get (db d) (format_v2_key key));
      b ← lift (slate_get (db d) key);
      Ok (opt_or a b)
  else lift (slate_get (db d) (physical_key d key)).

(** The engine is awaited before the frontier value is checked and cached; other
    calls of the handle can run in between ([ShardRaces.segment]).  This is the run
    in which none does; the same holds for [put] and [write_batch]. *)
Definition get (d : ShardDb) (key : bytes) : outcome (ShardDb * result StorageError (option bytes)) :=
  match read_value d key with
  | Err e => Done (d, Err e)
  | Ok val => d' ← observe_frontier d key val; Done (d', Ok val)
  end.

(** The epoch a frontier write carries. *)
Definition frontier_write (key value : bytes) : option Z :=
  if bool_decide (key = frontier_key) then epoch_of value else None.

Definition put (d : ShardDb) (key value : bytes) : outcome (ShardDb * result StorageError unit) :=
  if migration_pending d then Done (d, Err MigrationInProgress)
  else if match frontier_write key value with Some e => e <? last_epoch d | None => false end then Panic
  else
    match slate_put (db d) (physical_key d key) value with
    | (db', Err e) => Done (set_db d db', Err (storage_error e))
    | (db', Ok _) =>
        let d' := set_db d db' in
        Done (match frontier_write key value with Some e => advance_epoch d' e | None => d' end, Ok tt)
    end.

Definition shard_delete (d : ShardDb) (key : bytes) : ShardDb * result StorageError unit :=
  if migration_pending d then (d, Err MigrationInProgress)
  else
    let '(db', r) := slate_delete (db d) (physical_key d key) in (set_db d db', lift r).

Definition shard_merge (d : ShardDb) (key value : bytes) : ShardDb * result StorageError unit :=
  if migration_pending d then (d, Err MigrationInProgress)
  else
    let '(db', r) := slate_merge (db d) (physical_key d key) value in (set_db d db', lift r).

(** The frontier check of a batch: every frontier put must not go back; the
    last one is the epoch written. *)
Fixpoint check_frontier_puts (last : Z) (ops : list BatchOp) (written : option Z) : outcome (option Z) :=
  match ops with
  | [] => Done written
  | Put key value :: rest =>
      match frontier_write key value with
      | Some new_epoch =>
          if new_epoch <? last then Panic else check_frontier_puts last rest (Some new_epoch)
      | None => check_frontier_puts last rest written
      end
  | _ :: rest => check_frontier_puts last rest written
  end.

Definition physical_op (d : ShardDb) (op : BatchOp) : BatchOp :=
  match op with
  | Put key value => Put (physical_key d key) value
  | Delete key => Delete (physical_key d key)
  | MergeOp key value => MergeOp (physical_key d key) value
  end.

Definition write_batch (d : ShardDb) (batch : list BatchOp)
    : outcome (ShardDb * result StorageError unit) :=
  if migration_pending d || fail_writes d then
    Done (d, Err (if migration_pending d then MigrationInProgress else Unsupported))
  else
    written_frontier ← check_frontier_puts (last_epoch d) batch None;
    match slate_write (db d) (physical_op d <$> batch) with
    | (db', Err e) => Done (set_db d db', Err (storage_error e))
    | (db', Ok _) =>
        let d' := set_db d db' in
        Done (match written_frontier with Some epoch => advance_epoch d' epoch | None => d' end, Ok tt)
    end.

Definition flush (d : ShardDb) : ShardDb * result StorageError unit :=
  if fail_flushes d then (d, Err Unsupported)
  else let '(db', r) := slate_flush (db d) in (set_db d db', lift r).

(** The compare-and-swap loop of an uncontended caller succeeds at once. *)
Definition try_next_epoch (d : ShardDb) : ShardDb * option Z :=
  match checked_u64 (Z.max (allocated_epoch d) (last_epoch d) + 1) with
  | None => (d, None)
  | Some next => (set_epochs d (last_epoch d) next, Some next)
  end.

(** The report returned is the committed epoch. *)
Definition commit_epoch (d : ShardDb) (epoch : Z) : outcome (ShardDb * result StorageError Z) :=
  '(d1, r) ← put d frontier_key (be_bytes 8 epoch);
  match r with
  | Err e => Done (d1, Err e)
  | Ok _ => let '(d2, r2) := flush d1 in Done (d2, match r2 with Ok _ => Ok epoch | Err e => Err e end)
  end.
End shard_db.

(* ------------------------------------------------------------------ *)
(** ** Catalog, headers and idempotency keys *)

Section shard_catalog.
Context `{SlateDb}.

(** [{:04x}] of a [u16]. *)
Definition hex_digit (n : Z) : Z := if n <? 10 then 0x30 + n else 0x61 + (n - 10).
Definition hex4 (n : Z) : bytes :=
  [hex_digit (n / 4096 mod 16); hex_digit (n / 256 mod 16); hex_digit (n / 16 mod 16); hex_digit (n mod 16)].

Definition law_catalog_prefix : bytes := meta_key (str_bytes "law_catalog/").
Definition law_catalog_key (law : Z) : bytes := meta_key (str_bytes "law_catalog/" ++ hex4 law).

Fixpoint check_law_entries (known_law_ids : gset Z) (values : list bytes) : result StorageError unit :=
  match values with
  | [] => Ok tt
  | value :: rest =>
      if negb (Z.of_nat (length value) =? WIRE_SIZE) then
        Err (MalformedArrangementHeader (Z.of_nat (length value)))
      else
        let header := header_decode (take 4 value) in
        if negb (bool_decide (law_id header ∈ known_law_ids)) then
          Err (UnknownMergeLaw (law_id header) (law_version header))
        else check_law_entries known_law_ids rest
  end.

Definition validate_law_catalog (d : ShardDb) (known_law_ids : gset Z) : result StorageError unit :=
  entries ← scan_prefix d law_catalog_prefix;
  check_law_entries known_law_ids entries.*2.

Definition record_law_usage (d : ShardDb) (header : ArrangementHeader)
    : outcome (ShardDb * result StorageError unit) :=
  put d (law_catalog_key (law_id header)) (header_encode header).

Definition put_with_arrangement_header (d : ShardDb) (key : bytes) (header : ArrangementHeader)
    (value : bytes) : outcome (ShardDb * result StorageError unit) :=
  put d key (header_encode header ++ value).

Definition get_arrangement_header (d : ShardDb) (key : bytes)
    : outcome (ShardDb * result StorageError (option ArrangementHeader)) :=
  '(d', raw) ← get d key;
  Done (d',
    match raw with
    | Err e => Err e
    | Ok None => Ok None
    | Ok (Some b) =>
        if Z.of_nat (length b) <? WIRE_SIZE then Err (MalformedArrangementHeader (Z.of_nat (length b)))
        else Ok (Some (header_decode (take 4 b)))
    end).

(** [allow_fallback] is the process-wide switch of the corrupted-operand
    fallback. *)
Definition get_merged (allow_fallback : bool) (d : ShardDb) (key : bytes) (law : LawBundle)
    : outcome (ShardDb * result StorageError (option bytes)) :=
  '(d', raw) ← get d key;
  Done (d',
    match raw with
    | Err e => Err e
    | Ok None => Ok None
    | Ok (Some b) =>
        if is_valid_law_operand law b then Ok (Some b)
        else if allow_fallback then Ok (Some b)
        else Err (OperandCorruption (id law))
    end).

Fixpoint merged_entries (allow_fallback : bool) (law : LawBundle) (entries : list (bytes * bytes))
    : result StorageError (list (bytes * bytes)) :=
  match entries with
  | [] => Ok []
  | (k, v) :: rest =>
      if is_valid_law_operand law v || allow_fallback then
        results ← merged_entries allow_fallback law rest;
        Ok ((k, v) :: results)
      else Err (OperandCorruption (id law))
  end.

Definition scan_merged (allow_fallback : bool) (d : ShardDb) (prefix : bytes) (law : LawBundle)
    : result StorageError (list (bytes * bytes)) :=
  entries ← scan_prefix d prefix;
  merged_entries allow_fallback law entries.

Definition get_idempotency_epoch (d : ShardDb) (shard_id : Z) (key_hash : bytes)
    : outcome (ShardDb * result StorageError (option Z)) :=
  '(d', raw) ← get d (idempotency_key shard_id key_hash);
  Done (d',
    match raw with
    | Err e => Err e
    | Ok (Some b) => Ok (if (8 <=? length b)%nat then Some (of_be (take 8 b)) else None)
    | Ok None => Ok None
    end).

Definition put_idempotency_key (batch : list BatchOp) (shard_id : Z) (key_hash : bytes)
    (epoch timestamp_ms : Z) : list BatchOp :=
  batch_put batch (idempotency_key shard_id key_hash) (be_bytes 8 epoch ++ be_bytes 8 timestamp_ms).

(** The keys to delete: those whose timestamp is before the cutoff. *)
Definition expired (cutoff_ms : Z) (value : bytes) : bool :=
  (16 <=? length value)%nat && (of_be (take 8 (drop 8 value)) <? cutoff_ms).

Definition expired_deletes (cutoff_ms : Z) (entries : list (bytes * bytes)) : list BatchOp :=
  (fun e => Delete e.1) <$> base.filter (fun e => expired cutoff_ms e.2 = true) entries.

(** [now_ms] is the wall clock. *)
Definition cleanup_expired_idempotency_keys (now_ms : Z) (d : ShardDb) (shard_id retention_ms : Z)
    : outcome (ShardDb * result StorageError Z) :=
  let cutoff_ms := saturating_sub now_ms retention_ms in
  match scan_prefix d (idempotency_prefix shard_id) with
  | Err e => Done (d, Err e)
  | Ok entries =>
      let batch := expired_deletes cutoff_ms entries in
      let deleted := Z.of_nat (length batch) in
      if 0 <? deleted then
        '(d', r) ← write_batch d batch;
        Done (d', match r with Ok _ => Ok deleted | Err e => Err e end)
      else Done (d, Ok deleted)
  end.
End shard_catalog.

(* ------------------------------------------------------------------ *)
(** ** The logical view of a shard *)

(** Keys the key encoders build: non-empty and outside the 0xFF range of the
    version magics. *)
Definition ordinary (k : bytes) : Prop := exists b rest, k = b :: rest /\ b <> 0xFF.

(** What a storage format puts in front of a key. *)
Definition magic (fv : Z) (meta : bool) : bytes :=
  if meta then [] else if fv =? 3 then V3_KEY_MAGIC else if fv =? 2 then V2_KEY_MAGIC else [].

Definition known_format (fv : Z) : Prop := fv = 1 \/ fv = 2 \/ fv = 3.

Lemma ordinary_not_v2 k : ordinary k -> logical_key_from_format_v2 k = None.
Proof.
  intros (b & rest & -> & Hb). unfold logical_key_from_format_v2, strip_prefix. cbn [starts_with V2_KEY_MAGIC].
  by rewrite (proj2 (Z.eqb_neq b 255)).
Qed.

Lemma format_v3_ordinary k : ordinary k -> format_v3_key k = V3_KEY_MAGIC ++ k.
Proof. intros Hk. unfold format_v3_key. by rewrite ordinary_not_v2. Qed.

Lemma strip_prefix_app p k : strip_prefix p (p ++ k) = Some k.
Proof. unfold strip_prefix. by rewrite starts_with_app, drop_app_length. Qed.

Lemma starts_with_app_same p k q : starts_with (p ++ k) (p ++ q) = starts_with k q.
Proof. induction p as [|b p IH]; [done|]. cbn. by rewrite Z.eqb_refl. Qed.

Lemma ordinary_extend p k : ordinary p -> starts_with k p = true -> ordinary k /\ is_meta k = is_meta p.
Proof.
  intros (b & rest & -> & Hb) [s ->]%starts_with_spec. split; [by exists b, (rest ++ s)|done].
Qed.

Section view.
Context `{SlateDb}.
Implicit Types d : ShardDb.

Lemma physical_magic d k : ordinary k -> physical_key d k = magic (format_version d) (is_meta k) ++ k.
Proof.
  intros Hk. unfold physical_key, magic. destruct (is_meta k); cbn [negb].
  { by rewrite !andb_false_r. }
  rewrite !andb_true_r, format_v3_ordinary by done. unfold format_v2_key. by repeat case_match.
Qed.

Lemma versioned_magic d p : ordinary p ->
  versioned d (strips d p) p = magic (format_version d) (is_meta p) ++ p.
Proof.
  intros Hp. unfold versioned, strips, magic. destruct (is_meta p); cbn [negb].
  { by rewrite andb_false_r. }
  rewrite andb_true_r, format_v3_ordinary by done. unfold format_v2_key.
  destruct (Z.eqb_spec (format_version d) 2), (Z.eqb_spec (format_version d) 3); try lia; done.
Qed.

Lemma unversioned_magic d p k :
  unversioned d (strips d p) (magic (format_version d) (is_meta p) ++ k) = Ok k.
Proof.
  unfold unversioned, strips, magic. destruct (is_meta p); cbn [negb].
  { by rewrite andb_false_r. }
  rewrite andb_true_r. unfold logical_key_from_format_v3, logical_key_from_format_v2.
  destruct (Z.eqb_spec (format_version d) 2), (Z.eqb_spec (format_version d) 3); try lia; try done;
    by rewrite strip_prefix_app.
Qed.

Lemma magic_inj fv m1 m2 k1 k2 :
  ordinary k1 -> ordinary k2 -> m1 = is_meta k1 -> m2 = is_meta k2 ->
  magic fv m1 ++ k1 = magic fv m2 ++ k2 -> k1 = k2.
Proof.
  intros (b1 & r1 & -> & Hb1) (b2 & r2 & -> & Hb2) -> ->. unfold magic.
  destruct (is_meta (b1 :: r1)), (is_meta (b2 :: r2)); repeat case_match; cbn;
    intros E; simplify_eq; try done; lia.
Qed.

(** The value a logical key has. *)
Definition view (d : ShardDb) (k : bytes) : option bytes := contents (db d) !! physical_key d k.

(** The effect of a batch on one key. *)
Definition op_effect (k : bytes) (acc : option bytes) (op : BatchOp) : option bytes :=
  if bool_decide (op_key op = k) then
    match op with Put _ v => Some v | Delete _ => None | MergeOp _ _ => acc end
  else acc.

Definition view_after (v : bytes -> option bytes) (ops : list BatchOp) (k : bytes) : option bytes :=
  foldl (op_effect k) (v k) ops.

Lemma apply_ops_view (m : gmap bytes bytes) ops k :
  apply_ops m ops !! k = view_after (fun k => m !! k) ops k.
Proof.
  unfold view_after, apply_ops. revert m. induction ops as [|op ops IH]; intros m; [done|].
  cbn [foldl]. rewrite IH. f_equal. unfold op_effect.
  destruct op; cbn [apply_op op_key]; case_bool_decide as E; subst;
    rewrite ?lookup_insert_eq, ?lookup_delete_eq, ?lookup_insert_ne, ?lookup_delete_ne by done; done.
Qed.

Lemma view_after_physical d ops k acc :
  Forall (fun op => ordinary (op_key op)) ops -> ordinary k ->
  foldl (op_effect (physical_key d k)) acc (physical_op d <$> ops) = foldl (op_effect k) acc ops.
Proof.
  intros Hops Hk. revert acc. induction Hops as [|op ops Ho _ IH]; intros acc; [done|].
  rewrite fmap_cons. cbn [foldl]. rewrite IH. f_equal. unfold op_effect.
  assert (op_key (physical_op d op) = physical_key d (op_key op)) as -> by (by destruct op).
  assert (physical_key d (op_key op) = physical_key d k <-> op_key op = k) as Hiff.
  { split; [|by intros ->]. rewrite !physical_magic by done. by apply magic_inj. }
  rewrite (bool_decide_ext _ _ Hiff). case_bool_decide; [|done]. by destruct op.
Qed.

Lemma physical_op_points d ops : point_writes ops -> point_writes (physical_op d <$> ops).
Proof. intros Hp. apply Forall_fmap. eapply Forall_impl; [exact Hp|]. by intros []. Qed.

Lemma view_set_db d db' k : view (set_db d db') k = contents db' !! physical_key d k.
Proof. done. Qed.
End view.

(** Entries whose keys all carry the same magic. *)
Section scan_lemmas.
Context `{SlateDb}.

Lemma collect_entries_all key_of (l : list (bytes * bytes)) l' :
  Forall2 (fun e e' => key_of e.1 = Ok e'.1 /\ e.2 = e'.2) l l' ->
  collect_entries key_of (Ok <$> l) = Ok l'.
Proof.
  induction 1 as [|[k v] [k' v'] l l' [Hk Hv] _ IH]; [done|]. rewrite fmap_cons. cbn [collect_entries].
  cbn [fst snd lift mbind result_bind] in *. rewrite Hk. cbn [mbind result_bind].
  rewrite IH. cbn [mbind result_bind]. by subst.
Qed.

Lemma collect_entries_app_err key_of (l : list (bytes * bytes)) e :
  exists e', collect_entries key_of ((Ok <$> l) ++ [Err e]) = Err e'.
Proof.
  induction l as [|[k v] l IH]; [by eexists|]. rewrite fmap_cons. cbn.
  destruct (key_of k) as [k'|e']; [|by eexists]. cbn. destruct IH as [e' ->]. by eexists.
Qed.
End scan_lemmas.

Section refinement.
Context `{SlateDbLaws}.
Implicit Types d : ShardDb.

(** The scan of a physical prefix, with the magic taken off. *)
Definition unmagic (mg : bytes) (e : bytes * bytes) : bytes * bytes := (drop (length mg) e.1, e.2).

Lemma in_scan_magic mg p after k : in_scan (mg ++ p) after (mg ++ k) = in_scan p after k.
Proof.
  unfold in_scan. rewrite starts_with_app_same. destruct after as [sfx|]; [|done].
  by rewrite <-app_assoc, lex_cmp_app.
Qed.

Lemma in_scan_None p k : in_scan p None k = starts_with k p.
Proof. apply andb_true_r. Qed.

Lemma in_scan_starts p after k : in_scan p after k = true -> starts_with k p = true.
Proof. by intros [? _]%andb_true_iff. Qed.

Lemma scan_result_unmagic (m : gmap bytes bytes) mg p after l0 :
  scan_result m (mg ++ p) after l0 ->
  StronglySorted key_lt (unmagic mg <$> l0).*1 /\
  (forall k v, (k, v) ∈ unmagic mg <$> l0 <-> m !! (mg ++ k) = Some v /\ in_scan p after k = true) /\
  Forall (fun e => e.1 = mg ++ drop (length mg) e.1) l0.
Proof.
  intros [Hs He].
  assert (Forall (fun e => e.1 = mg ++ drop (length mg) e.1) l0) as Hk.
  { apply Forall_forall. intros [k v] Hin. cbn. apply He in Hin as [_ Hin].
    apply in_scan_starts, starts_with_spec in Hin as [s ->].
    by rewrite <-app_assoc, drop_app_length. }
  split_and!; [| |done].
  - clear He. induction l0 as [|e l0 IH]; [constructor|]. rewrite !fmap_cons in *.
    apply StronglySorted_inv in Hs as [Hs Hall]. apply List.Forall_cons_iff in Hk as [He Hk].
    constructor; [by apply IH|]. apply Forall_fmap, Forall_fmap. rewrite Forall_fmap in Hall.
    rewrite Forall_forall in Hall, Hk |- *. intros e' He'. specialize (Hall e' He').
    cbn in *. unfold key_lt in *. rewrite He, (Hk e' He'), lex_cmp_app in Hall. done.
  - intros k v. rewrite list_elem_of_fmap. split.
    + intros ([k0 v0] & [= -> ->] & Hin). cbn. rewrite Forall_forall in Hk. specialize (Hk _ Hin). cbn in Hk.
      apply He in Hin as [Hin Hsc]. rewrite <-Hk. split; [done|].
      rewrite Hk, in_scan_magic in Hsc. done.
    + intros [Hm Hst]. exists (mg ++ k, v). split; [unfold unmagic; cbn; by rewrite drop_app_length|].
      apply He. split; [done|]. by rewrite in_scan_magic.
Qed.

Lemma scan_items_ok d p items l :
  ordinary p -> slate_scan (db d) (versioned d (strips d p) p) None = Ok items ->
  collect_entries (unversioned d (strips d p)) items = Ok l ->
  StronglySorted key_lt l.*1 /\
  forall k v, (k, v) ∈ l <-> view d k = Some v /\ starts_with k p = true.
Proof.
  intros Hp Hscan Hc. rewrite versioned_magic in Hscan by done.
  set (mg := magic (format_version d) (is_meta p)) in *.
  apply slate_scan_spec in Hscan as (l0 & Hl0 & [->|(n & e & ->)]).
  2:{ destruct (collect_entries_app_err (unversioned d (strips d p)) (take n l0) e) as [e' E]. congruence. }
  destruct (scan_result_unmagic _ _ _ _ _ Hl0) as (Hs & He & Hk).
  rewrite (collect_entries_all _ l0 (unmagic mg <$> l0)) in Hc.
  - injection Hc as <-. split; [done|]. intros k v. rewrite He, in_scan_None. unfold view.
    split; intros [Hv Hst]; (split; [|done]); destruct (ordinary_extend _ _ Hp Hst) as [Ho Hm];
      rewrite physical_magic, Hm in * by done; done.
  - apply Forall2_fmap_r, Forall_Forall2_diag. eapply Forall_impl; [exact Hk|].
    intros [k v] E. cbn in *. split; [|done]. rewrite E at 1. apply unversioned_magic.
Qed.

Lemma scan_prefix_ok d p l :
  ordinary p -> migration_pending d = false -> scan_prefix d p = Ok l ->
  StronglySorted key_lt l.*1 /\
  forall k v, (k, v) ∈ l <-> view d k = Some v /\ starts_with k p = true.
Proof.
  intros Hp Hpend Hscan. unfold scan_prefix in Hscan. rewrite Hpend in Hscan. cbn [andb] in Hscan.
  destruct (fail_scans d); [done|].
  assert (scan_physical_prefix d p (strips d p) = Ok l) as Hs by (by destruct (strips d p)).
  unfold scan_physical_prefix in Hs.
  destruct (slate_scan _ _ _) as [items|e] eqn:E; [|done]. cbn [lift mbind result_bind] in Hs.
  by eapply scan_items_ok.
Qed.

Lemma read_value_ok d k v :
  migration_pending d = false -> read_value d k = Ok v -> v = view d k.
Proof.
  intros Hp. unfold read_value. rewrite Hp. cbn [andb]. unfold view.
  destruct (slate_get _ _) as [v'|e] eqn:E; [|done]. intros [= <-]. by apply slate_get_spec in E.
Qed.

Lemma write_batch_ok d ops d' :
  migration_pending d = false -> point_writes ops -> Forall (fun op => ordinary (op_key op)) ops ->
  write_batch d ops = Done (d', Ok tt) ->
  format_version d' = format_version d /\ migration_pending d' = false /\
  forall k, ordinary k -> view d' k = view_after (view d) ops k.
Proof.
  intros Hp Hpt Ho Hw. unfold write_batch in Hw. destruct (_ || _); [done|].
  destruct (check_frontier_puts _ _ _) as [wf|]; [|done]. cbn [mbind outcome_bind] in Hw.
  destruct (slate_write _ _) as [db' [[]|e]] eqn:E; [|done]. injection Hw as Hw.
  apply slate_write_ok in E; [|by apply physical_op_points].
  assert (format_version d' = format_version d /\ migration_pending d' = false /\ db d' = db') as (Hf & Hm & Hdb).
  { subst d'. by destruct wf. }
  split_and!; [done|done|]. intros k Hk. unfold view at 1.
  assert (physical_key d' k = physical_key d k) as -> by (unfold physical_key; by rewrite Hf).
  rewrite Hdb, E, apply_ops_view. unfold view_after. rewrite view_after_physical by done. done.
Qed.
End refinement.

(* ------------------------------------------------------------------ *)
(** ** Refinement of a map *)

Section up.
Context `{SlateDbLaws, !SlateDbUp}.
Implicit Types d : ShardDb.

(** A shard open for business: no pending migration, no injected failure. *)
Definition open_shard d : Prop :=
  migration_pending d = false /\ fail_writes d = false /\ fail_scans d = false /\ fail_flushes d = false.

Lemma scan_prefix_up d p : ordinary p -> open_shard d -> exists l, scan_prefix d p = Ok l.
Proof.
  intros Hp (Hm & _ & Hf & _). unfold scan_prefix. rewrite Hm, Hf. cbn [andb].
  assert (exists l, scan_physical_prefix d p (strips d p) = Ok l) as [l Hl];
    [|exists l; by destruct (strips d p)].
  unfold scan_physical_prefix. rewrite versioned_magic by done.
  destruct (up_scan (db d) (magic (format_version d) (is_meta p) ++ p) None) as [l0 E]. rewrite E.
  cbn [lift mbind result_bind]. destruct (slate_scan_spec _ _ _ _ E) as (l1 & Hl1 & [E1|(n & e & E1)]).
  2:{ exfalso. assert (Err e ∈ (Ok <$> l0 : list (result SlateError (bytes * bytes)))) as Hin
        by (rewrite E1; apply elem_of_app; right; by left).
      by apply list_elem_of_fmap in Hin as (? & ? & ?). }
  destruct (scan_result_unmagic _ _ _ _ _ Hl1) as (_ & _ & Hk).
  eexists. rewrite E1. apply (collect_entries_all _ l1
    (unmagic (magic (format_version d) (is_meta p)) <$> l1)).
  apply Forall2_fmap_r, Forall_Forall2_diag. eapply Forall_impl; [exact Hk|].
  intros [k v] Ek. cbn in *. split; [|done]. rewrite Ek at 1. apply unversioned_magic.
Qed.

Lemma get_ordinary d k :
  migration_pending d = false -> k <> frontier_key -> get d k = Done (d, Ok (view d k)).
Proof.
  intros Hm Hf. unfold get. unfold read_value. rewrite Hm. cbn [andb].
  destruct (up_get (db d) (physical_key d k)) as [v E]. rewrite E. cbn [lift].
  unfold observe_frontier. rewrite bool_decide_eq_false_2 by done. cbn.
  by apply slate_get_spec in E as ->.
Qed.

Lemma check_frontier_none last ops w :
  Forall (fun op => op_key op <> frontier_key) ops -> check_frontier_puts last ops w = Done w.
Proof.
  induction 1 as [|[k v|k|k v] ops Hk _ IH]; [done| |done|done]. cbn [check_frontier_puts].
  unfold frontier_write. by rewrite bool_decide_eq_false_2.
Qed.

Lemma write_batch_up d ops :
  open_shard d -> Forall (fun op => op_key op <> frontier_key) ops ->
  exists d', write_batch d ops = Done (d', Ok tt) /\ open_shard d'.
Proof.
  intros (Hm & Hw & Hrest) Ho. unfold write_batch. rewrite Hm, Hw. cbn [orb].
  rewrite check_frontier_none by done. cbn [mbind outcome_bind].
  destruct (up_write (db d) (physical_op d <$> ops)) as [db' ->].
  eexists; split; [done|]. done.
Qed.

(** C14: A shard database implements a map on logical keys, in every storage
    format.  With the engine up, no migration pending and no injected failure:
    a read returns the value of the key; a prefix scan returns exactly the live
    entries under the prefix, in strictly increasing key order; and a batch of
    point writes that does not touch the frontier key succeeds and changes the
    map key by key, in batch order, leaving the format and the availability of
    the shard as they were. *)
Theorem shard_implements_map d :
  open_shard d ->
  (forall k, ordinary k -> k <> frontier_key -> get d k = Done (d, Ok (view d k))) /\
  (forall p, ordinary p -> exists l, scan_prefix d p = Ok l /\ StronglySorted key_lt l.*1 /\
     forall k v, (k, v) ∈ l <-> view d k = Some v /\ starts_with k p = true) /\
  (forall ops, point_writes ops ->
     Forall (fun op => ordinary (op_key op) /\ op_key op <> frontier_key) ops ->
     exists d', write_batch d ops = Done (d', Ok tt) /\ open_shard d' /\
       format_version d' = format_version d /\
       forall k, ordinary k -> view d' k = view_after (view d) ops k).
Proof.
  intros Hd. pose proof Hd as (Hm & _). split_and!.
  - intros k Hk Hf. by apply get_ordinary.
  - intros p Hp. destruct (scan_prefix_up d p Hp Hd) as [l Hl]. exists l. split; [done|].
    by apply scan_prefix_ok.
  - intros ops Hpt Ho. destruct (write_batch_up d ops) as (d' & E & Hd'); [done| |].
    { eapply Forall_impl; [exact Ho|]. by intros ? [? ?]. }
    exists d'. split; [done|]. split; [done|].
    destruct (write_batch_ok d ops d') as (Hf & _ & Hv); try done.
    eapply Forall_impl; [exact Ho|]. by intros ? [? ?].
Qed.
End up.

(* ------------------------------------------------------------------ *)
(** ** The committed epoch *)

Section epochs.
Context `{SlateDbLaws}.
Implicit Types d : ShardDb.

Definition stored_epoch d : option Z := b ← contents (db d) !! frontier_key; epoch_of b.

(** The cached epoch is never ahead of the stored one, and epochs are handed
    out above both. *)
Definition epoch_inv d : Prop :=
  0 <= last_epoch d <= allocated_epoch d /\ forall e, stored_epoch d = Some e -> last_epoch d <= e.

(** The steps that touch the epoch, with any engine outcome. *)
Inductive epoch_step : ShardDb -> ShardDb -> Prop :=
| step_get d k d' r : get d k = Done (d', r) -> epoch_step d d'
| step_put d k v d' r : put d k v = Done (d', r) -> epoch_step d d'
| step_delete d k d' r : shard_delete d k = (d', r) -> epoch_step d d'
| step_write d ops d' r :
    point_writes ops -> write_batch d ops = Done (d', r) -> epoch_step d d'
| step_flush d d' r : flush d = (d', r) -> epoch_step d d'
| step_next d d' r : try_next_epoch d = (d', r) -> epoch_step d d'.

Lemma physical_frontier d : physical_key d frontier_key = frontier_key.
Proof. unfold physical_key. rewrite !andb_false_r. done. Qed.

Lemma physical_is_frontier d k : physical_key d k = frontier_key -> k = frontier_key.
Proof.
  unfold physical_key, format_v3_key, format_v2_key. case_match; [discriminate|].
  case_match; [discriminate|done].
Qed.

(** A batch that passed the check leaves no stored epoch below the cached one,
    nor below the epoch it reports as written. *)
Lemma check_frontier_effect d last ops w w' acc :
  point_writes ops -> check_frontier_puts last ops w = Done w' ->
  (forall e, (b ← acc; epoch_of b) = Some e -> last <= e /\ forall x, w = Some x -> x <= e) ->
  (forall x, w = Some x -> last <= x) ->
  (forall e, (b ← foldl (op_effect frontier_key) acc (physical_op d <$> ops); epoch_of b) = Some e ->
     last <= e /\ forall x, w' = Some x -> x <= e) /\
  (forall x, w' = Some x -> last <= x).
Proof.
  intros Hpt. revert w acc. induction Hpt as [|op ops Ho _ IH]; intros w acc Hc Hacc Hw.
  { injection Hc as <-. done. }
  rewrite fmap_cons. cbn [foldl].
  assert (op_effect frontier_key acc (physical_op d op) = op_effect frontier_key acc op) as ->.
  { unfold op_effect. destruct op as [k v|k|k v]; cbn [physical_op op_key];
      (destruct (decide (k = frontier_key)) as [->|Hk]; [by rewrite physical_frontier|]);
      rewrite !bool_decide_eq_false_2; try done; intros E; by apply physical_is_frontier in E. }
  destruct op as [k v|k|k v]; [| |done]; cbn [check_frontier_puts] in Hc.
  - unfold op_effect, frontier_write in *. cbn [op_key]. case_bool_decide as Ek; [|by eapply IH].
    destruct (epoch_of v) as [e|] eqn:Ee.
    + destruct (Z.ltb_spec e last); [done|]. eapply IH; [done| |].
      * cbn. rewrite Ee. intros e' [= <-]. split; [lia|]. intros x [= <-]. lia.
      * intros x [= <-]. lia.
    + eapply IH; [done| |done]. cbn. by rewrite Ee.
  - unfold op_effect. cbn [op_key]. case_bool_decide as Ek; by eapply IH.
Qed.

Lemma epoch_inv_advance d x :
  0 <= last_epoch d <= allocated_epoch d ->
  (forall e, stored_epoch d = Some e -> last_epoch d <= e /\ x <= e) -> epoch_inv (advance_epoch d x).
Proof.
  intros Hd Hs. split; cbn; [lia|]. intros e He. specialize (Hs e He). lia.
Qed.

Lemma write_step_inv d ops d' r :
  point_writes ops -> write_batch d ops = Done (d', r) -> epoch_inv d ->
  epoch_inv d' /\ last_epoch d <= last_epoch d' /\ allocated_epoch d <= allocated_epoch d'.
Proof.
  intros Hpt Hw Hinv. pose proof Hinv as [Hr Hs]. unfold write_batch in Hw.
  destruct (_ || _); [injection Hw as <- _; split_and!; (done || lia)|].
  destruct (check_frontier_puts _ _ _) as [w|] eqn:Hc; [|done]. cbn [mbind outcome_bind] in Hw.
  destruct (check_frontier_effect d _ _ _ _ (contents (db d) !! frontier_key) Hpt Hc) as [He Hwr];
    [intros e E; split; [by apply Hs|done]|done|].
  pose proof (apply_ops_view (contents (db d)) (physical_op d <$> ops) frontier_key) as Eap.
  unfold view_after in Eap. rewrite <-Eap in He.
  assert (forall db', contents db' = contents (db d) \/
      contents db' = apply_ops (contents (db d)) (physical_op d <$> ops) ->
    forall e, stored_epoch (set_db d db') = Some e -> last_epoch d <= e) as Hany.
  { intros db' [E|E] e; unfold stored_epoch; cbn; rewrite E; intros Hst;
      [by apply Hs|by destruct (He e Hst)]. }
  destruct (slate_write _ _) as [db' [[]|err]] eqn:E; injection Hw as <- _.
  - apply slate_write_ok in E; [|by apply physical_op_points].
    destruct w as [x|]; [|split_and!; cbn; try lia; split; [done|by apply Hany; right]].
    split_and!; [|cbn; lia|cbn; lia]. apply epoch_inv_advance; [done|].
    unfold stored_epoch. cbn. rewrite E. intros e Hst. apply He in Hst as [? Hx]. split; [done|].
    by apply Hx.
  - apply slate_write_err in E; [|by apply physical_op_points].
    split_and!; cbn; try lia. split; [done|by apply Hany].
Qed.

(** Equal up to the failure switches. *)
Definition same_epochs d1 d2 : Prop :=
  db d1 = db d2 /\ last_epoch d1 = last_epoch d2 /\ allocated_epoch d1 = allocated_epoch d2.

Lemma same_epochs_inv d1 d2 : same_epochs d1 d2 -> epoch_inv d1 -> epoch_inv d2.
Proof. intros (H1 & H2 & H3). unfold epoch_inv, stored_epoch. by rewrite H1, H2, H3. Qed.

(** A put is the batch of one; unlike a batch it does not look at the injected
    write failure. *)
Lemma put_as_batch d k v d' r :
  put d k v = Done (d', r) ->
  exists d1, write_batch (set_fail_writes d false) [Put k v] = Done (d1, r) /\ same_epochs d1 d'.
Proof.
  unfold put, write_batch. cbn [migration_pending fail_writes set_fail_writes]. rewrite orb_false_r.
  destruct (migration_pending d); [intros [= <- <-]; by eexists|].
  cbn [check_frontier_puts last_epoch set_fail_writes]. unfold slate_put.
  change (physical_op (set_fail_writes d false) <$> [Put k v]) with [Put (physical_key d k) v].
  cbn [db set_fail_writes].
  destruct (frontier_write k v) as [e|]; [destruct (e <? last_epoch d); [done|]|];
    cbn [mbind outcome_bind]; destruct (slate_write _ _) as [db' [[]|err]];
    intros [= <- <-]; by eexists.
Qed.

Lemma delete_as_batch d k d' r :
  shard_delete d k = (d', r) ->
  exists d1, write_batch (set_fail_writes d false) [Delete k] = Done (d1, r) /\ same_epochs d1 d'.
Proof.
  unfold shard_delete, write_batch. cbn [migration_pending fail_writes set_fail_writes]. rewrite orb_false_r.
  destruct (migration_pending d); [intros [= <- <-]; by eexists|].
  cbn [check_frontier_puts mbind outcome_bind]. unfold slate_delete.
  change (physical_op (set_fail_writes d false) <$> [Delete k]) with [Delete (physical_key d k)].
  cbn [db set_fail_writes]. destruct (slate_write _ _) as [db' [[]|err]]; intros [= <- <-]; by eexists.
Qed.

Lemma read_frontier d v : read_value d frontier_key = Ok v -> v = contents (db d) !! frontier_key.
Proof.
  unfold read_value. rewrite andb_false_r. rewrite physical_frontier.
  destruct (slate_get _ _) as [v'|e] eqn:E; [|done]. intros [= <-]. by apply slate_get_spec in E.
Qed.

Lemma get_step_inv d k :
  epoch_inv d -> exists d' r, get d k = Done (d', r) /\ epoch_inv d' /\
    last_epoch d <= last_epoch d' /\ allocated_epoch d <= allocated_epoch d'.
Proof.
  intros Hinv. pose proof Hinv as [Hr Hs]. unfold get.
  destruct (read_value d k) as [v|e] eqn:E; [|eexists _, _; split_and!; (done || lia)].
  unfold observe_frontier. case_bool_decide as Hk; [|eexists _, _; split_and!; (done || lia)].
  subst k. apply read_frontier in E as ->. fold (stored_epoch d).
  destruct (stored_epoch d) as [e|] eqn:Es; [|eexists _, _; split_and!; (done || lia)].
  specialize (Hs e eq_refl). destruct (Z.ltb_spec e (last_epoch d)); [lia|].
  eexists _, _. split; [done|]. cbn. split_and!; try lia. split; cbn; [lia|].
  intros e0 He0. change (stored_epoch d = Some e0) in He0. rewrite Es in He0. injection He0 as <-. lia.
Qed.

Lemma epoch_step_inv d d' : epoch_step d d' -> epoch_inv d ->
  epoch_inv d' /\ last_epoch d <= last_epoch d' /\ allocated_epoch d <= allocated_epoch d'.
Proof.
  intros Hstep Hinv.
  assert (epoch_inv (set_fail_writes d false)) as Hinv' by done.
  destruct Hstep as [d k d' r E|d k v d' r E|d k d' r E|d ops d' r Hpt E|d d' r E|d d' r E].
  - destruct (get_step_inv d k Hinv) as (d1 & r1 & E1 & H1). rewrite E in E1. by simplify_eq.
  - destruct (put_as_batch _ _ _ _ _ E) as (d1 & E1 & Hsame).
    apply write_step_inv in E1 as (Hi & Hl & Ha); [|by repeat constructor|done].
    pose proof (same_epochs_inv _ _ Hsame Hi). destruct Hsame as (_ & <- & <-). done.
  - destruct (delete_as_batch _ _ _ _ E) as (d1 & E1 & Hsame).
    apply write_step_inv in E1 as (Hi & Hl & Ha); [|by repeat constructor|done].
    pose proof (same_epochs_inv _ _ Hsame Hi). destruct Hsame as (_ & <- & <-). done.
  - by eapply write_step_inv.
  - unfold flush in E. destruct (fail_flushes d); [injection E as <- _; split_and!; (done || lia)|].
    destruct (slate_flush (db d)) as [db' rf] eqn:Ef. injection E as <- _.
    apply slate_flush_spec in Ef. split_and!; cbn; try lia.
    destruct Hinv as [Hr Hs]. split; [done|]. unfold stored_epoch in *. cbn. by rewrite Ef.
  - unfold try_next_epoch in E. destruct (checked _ _ _) as [n|] eqn:Ec; injection E as <- _;
      [|split_and!; (done || lia)].
    apply checked_Some in Ec as [-> _]. destruct Hinv as [Hr Hs]. split_and!; cbn; try lia.
    split; cbn; [lia|done].
Qed.

(** Opening a shard establishes the invariant. *)
Lemma shard_open_inv db0 range db1 d :
  shard_open db0 range = (db1, Ok d) ->
  (forall v, contents db1 !! frontier_key = Some v -> bytes_ok v) -> epoch_inv d.
Proof.
  unfold shard_open. destruct (read_format db0 range) as [db2 [fv|e]]; [|done].
  intros [= <- E] Hb. destruct (if fv =? 1 then _ else _) as [pend|e]; cbn [mbind result_bind] in E; [|done].
  destruct (slate_get db2 frontier_key) as [v|e] eqn:Eg; cbn [lift mbind result_bind] in E; [|done]. injection E as <-.
  apply slate_get_spec in Eg as ->. unfold epoch_inv, stored_epoch. cbn [db last_epoch allocated_epoch].
  destruct (contents db2 !! frontier_key) as [v|] eqn:Ev; cbn [default mbind option_bind from_option];
    [|by split].
  destruct (epoch_of v) as [e|] eqn:Ee; simpl; [|by split].
  split; [|intros ? [= <-]; lia]. unfold epoch_of in Ee. case_match; [|done]. injection Ee as <-.
  pose proof (of_be_range v (Hb v eq_refl)). lia.
Qed.

Lemma epoch_of_be e : in_u64 e -> epoch_of (be_bytes 8 e) = Some e.
Proof.
  intros He. unfold epoch_of. rewrite length_be_bytes. cbn [Nat.eqb].
  rewrite of_be_be_bytes_id; [done|]. change (256 ^ Z.of_nat 8) with (2 ^ 64). rlia.
Qed.

Lemma commit_epoch_stored d e d' x :
  in_u64 e -> commit_epoch d e = Done (d', Ok x) ->
  x = e /\ stored_epoch d' = Some e /\ last_epoch d' = Z.max (last_epoch d) e /\ last_epoch d <= e.
Proof.
  intros He Hc. unfold commit_epoch, put in Hc. destruct (migration_pending d); [done|].
  unfold frontier_write in Hc. rewrite bool_decide_eq_true_2, epoch_of_be in Hc by done.
  destruct (Z.ltb_spec e (last_epoch d)) as [|Hle]; [done|].
  rewrite physical_frontier in Hc. unfold slate_put in Hc.
  destruct (slate_write _ _) as [db' [[]|err]] eqn:E; [|done].
  apply slate_write_ok in E; [|by repeat constructor].
  cbn [mbind outcome_bind] in Hc. unfold flush in Hc.
  destruct (fail_flushes _); [done|].
  destruct (slate_flush _) as [db2 [[]|err]] eqn:Ef; [|done]. apply slate_flush_spec in Ef.
  injection Hc as <- <-. split; [done|]. split; [|split; [done|lia]].
  unfold stored_epoch. cbn [db set_db]. rewrite Ef. cbn [db set_db advance_epoch set_epochs].
  rewrite E. cbn [apply_ops foldl apply_op]. rewrite lookup_insert_eq. by apply epoch_of_be.
Qed.

Lemma epoch_steps_inv d d' : rtc epoch_step d d' -> epoch_inv d ->
  epoch_inv d' /\ last_epoch d <= last_epoch d' /\ allocated_epoch d <= allocated_epoch d'.
Proof.
  induction 1 as [|d d1 d' Hs _ IH]; intros Hinv; [split_and!; (done || lia)|].
  apply epoch_step_inv in Hs as (Hi & Hl & Ha); [|done]. apply IH in Hi as (Hi & Hl' & Ha').
  split_and!; (done || lia).
Qed.

(** The committed epoch of a shard whose calls do not overlap.  From opening a shard
    on, through any sequence of reads, point writes, batches of point writes, flushes
    and epoch allocations, each finished before the next begins, whether the engine
    reports success or an error of unknown outcome: the cached committed epoch only
    grows and is never ahead of the epoch stored in the shard, reading any key never
    trips the monotonicity assertion, an allocated epoch is above every committed and
    every previously allocated epoch, and a successful commit stores exactly its
    epoch.  ShardRaces.v has overlapping calls. *)
Theorem committed_epoch_monotone db0 range db1 d d' :
  shard_open db0 range = (db1, Ok d) ->
  (forall v, contents db1 !! frontier_key = Some v -> bytes_ok v) ->
  rtc epoch_step d d' ->
  last_epoch d <= last_epoch d' /\
  (forall e, stored_epoch d' = Some e -> last_epoch d' <= e) /\
  (forall k, exists d2 r, get d' k = Done (d2, r)) /\
  (forall d2 n, try_next_epoch d' = (d2, Some n) ->
     last_epoch d' < n /\ allocated_epoch d' < n /\ allocated_epoch d2 = n) /\
  (forall e d2 x, in_u64 e -> commit_epoch d' e = Done (d2, Ok x) ->
     x = e /\ last_epoch d2 = e /\ stored_epoch d2 = Some e /\ last_epoch d' <= e).
Proof.
  intros Ho Hb Hst. apply shard_open_inv in Ho; [|done].
  destruct (epoch_steps_inv _ _ Hst Ho) as (Hinv & Hl & _). pose proof Hinv as [Hr Hs].
  split_and!; [done|done| | |].
  - intros k. destruct (get_step_inv d' k Hinv) as (d2 & r & E & _). by eexists _, _.
  - intros d2 n. unfold try_next_epoch. destruct (checked _ _ _) as [m|] eqn:E; [|done].
    apply checked_Some in E as [-> _]. intros [= <- <-]. cbn. lia.
  - intros e d2 x He Hc. destruct (commit_epoch_stored _ _ _ _ He Hc) as (-> & Hs2 & Hl2 & Hle).
    split_and!; [done|lia|done|done].
Qed.
End epochs.

(* ------------------------------------------------------------------ *)
(** ** Concrete shards *)

Import MapStore.

Definition shard_v3 : ShardDb :=
  {| db := <[format_v3_key [1; 7] := [10]]> ∅ : gmap bytes bytes;
     last_epoch := 4; allocated_epoch := 6; format_version := 3; migration_pending := false;
     fail_writes := false; fail_flushes := false; fail_scans := false |}.

Lemma shard_implements_map_witness :
  get shard_v3 [1; 7] = Done (shard_v3, Ok (Some [10])) /\
  exists d', write_batch shard_v3 [Put [1; 8] [20]; Delete [1; 7]] = Done (d', Ok tt) /\
    view d' [1; 8] = Some [20] /\ view d' [1; 7] = None.
Proof.
  destruct (shard_implements_map shard_v3) as (Hget & _ & Hw); [repeat split|].
  assert (ordinary [1; 7]) as O7 by (exists 1, [7]; split; [reflexivity|discriminate]).
  assert (ordinary [1; 8]) as O8 by (exists 1, [8]; split; [reflexivity|discriminate]).
  split; [exact (Hget [1; 7] O7 ltac:(discriminate))|].
  destruct (Hw [Put [1; 8] [20]; Delete [1; 7]]) as (d' & E & _ & _ & Hv).
  - repeat constructor.
  - constructor; [split; [exact O8|discriminate]|]. constructor; [split; [exact O7|discriminate]|constructor].
  - exists d'. split; [exact E|]. rewrite (Hv [1; 8] O8), (Hv [1; 7] O7). split; reflexivity.
Defined.

Definition empty_db : @Db map_store := (∅ : gmap bytes bytes).

Definition opened : ShardDb :=
  {| db := <[format_version_key := [1]]> ∅ : gmap bytes bytes;
     last_epoch := 0; allocated_epoch := 0; format_version := 1; migration_pending := false;
     fail_writes := false; fail_flushes := false; fail_scans := false |}.

(** The shard after epoch 9 was written. *)
Definition committed_9 : ShardDb :=
  {| db := <[frontier_key := be_bytes 8 9]> (<[format_version_key := [1]]> ∅) : gmap bytes bytes;
     last_epoch := 9; allocated_epoch := 9; format_version := 1; migration_pending := false;
     fail_writes := false; fail_flushes := false; fail_scans := false |}.

Lemma committed_epoch_monotone_witness :
  rtc epoch_step opened committed_9 /\
  exists d2 n, try_next_epoch committed_9 = (d2, Some n) /\ 9 < n.
Proof.
  assert (rtc epoch_step opened committed_9) as Hst
    by (apply rtc_once; exact (step_put opened frontier_key (be_bytes 8 9) committed_9 (Ok tt) eq_refl)).
  split; [exact Hst|].
  destruct (committed_epoch_monotone empty_db v1_through_v3 (db opened) opened committed_9)
    as (_ & _ & _ & Hnext & _); [reflexivity| |exact Hst|].
  - intros v Hv. vm_compute in Hv. discriminate Hv.
  - exists (set_epochs committed_9 9 10), 10. split; [reflexivity|].
    exact (proj1 (Hnext _ _ eq_refl)).
Defined.
