(* ===== verification/ShardRaces.v ===== *)
(** Concurrent calls on one [ShardDb] handle (rockstream-storage/src/shard_db.rs).

    [ShardDb] methods take [&self], await the engine and work on two shared atomic
    counters.  ShardDb.v gives each method as the run that no other call of the
    handle interrupts.  Here every method is cut at its awaits and at each of its
    atomic operations, and a step relation interleaves the segments of any number
    of calls.  [run_alone_sequential] ties the segments to the functions of
    ShardDb.v.

    All atomic accesses are [SeqCst], so their interleaving is their semantics.  The
    engine's effect of a write and the counter updates that follow it are different
    steps.  A call can go away at any point: dropped by its caller, or ended by a
    failed assertion; the write of a call that went away before its write step
    has no effect later.  The reads of one [get] are one step; only those of the
    frontier key, of which there is one, reach the counters.  Batches hold puts and
    deletes. *)
From Stdlib Require Import String.
From stdpp Require Import base tactics list gmap numbers option fin_maps relations.
From Stdlib Require Import ZArith Lia ZifyBool Sorted.
From S2P Require Import Prelude Kernels Laws MergeOps Keys Store ShardDb.
Local Open Scope Z_scope.

Section races.
Context `{SlateDb}.

(** Where a call is, with its local variables. *)
Inductive Call : Type :=
| GetRead (key : bytes)
| GetLoad (val : option bytes) (epoch : Z)
| GetMax (val : option bytes) (epoch : Z)
| GetStore (val : option bytes) (epoch : Z)
| WriteCheck (ops todo : list BatchOp) (written_frontier : option Z)
| WriteEngine (ops : list BatchOp) (written_frontier : option Z)
| WriteMax (epoch : Z)
| WriteLast (epoch : Z)
| NextLoad
| NextIter (current : Z)
| NextCas (current next : Z)
| FlushEngine.

Inductive Reply : Type :=
| Value (r : result StorageError (option bytes))
| Unit (r : result StorageError unit)
| Epoch (r : option Z).

Inductive Progress : Type :=
| Continue (c : Call)
| Finished (r : Reply).

Inductive Request : Type :=
| Get (key : bytes)
| PutKey (key value : bytes)
| DeleteKey (key : bytes)
| Batch (ops : list BatchOp)
| Flush
| NextEpoch.

(** Up to the first await or atomic operation. *)
Definition begin (d : ShardDb) (rq : Request) : Progress :=
  match rq with
  | Get key => Continue (GetRead key)
  | PutKey key value =>
      if migration_pending d then Finished (Unit (Err MigrationInProgress))
      else Continue (WriteCheck [Put key value] [Put key value] None)
  | DeleteKey key =>
      if migration_pending d then Finished (Unit (Err MigrationInProgress))
      else Continue (WriteEngine [Delete key] None)
  | Batch ops =>
      if migration_pending d || fail_writes d then
        Finished (Unit (Err (if migration_pending d then MigrationInProgress else Unsupported)))
      else Continue (WriteCheck ops ops None)
  | Flush => if fail_flushes d then Finished (Unit (Err Unsupported)) else Continue FlushEngine
  | NextEpoch => Continue NextLoad
  end.

(** [fetch_max] on one of the counters. *)
Definition max_allocated (d : ShardDb) (e : Z) : ShardDb := set_epochs d (last_epoch d) (Z.max (allocated_epoch d) e).
Definition max_last (d : ShardDb) (e : Z) : ShardDb := set_epochs d (Z.max (last_epoch d) e) (allocated_epoch d).

(** After the engine has answered a [get]. *)
Definition get_answered (key : bytes) (val : option bytes) : Progress :=
  if bool_decide (key = frontier_key) then
    match (b ← val; epoch_of b) with
    | Some epoch => Continue (GetLoad val epoch)
    | None => Finished (Value (Ok val))
    end
  else Finished (Value (Ok val)).

(** One iteration of the frontier check of a write: one load of [last_epoch]. *)
Definition check_one (last : Z) (op : BatchOp) (written : option Z) : outcome (option Z) :=
  match op with
  | Put key value =>
      match frontier_write key value with
      | Some new_epoch => if new_epoch <? last then Panic else Done (Some new_epoch)
      | None => Done written
      end
  | _ => Done written
  end.

(** One segment.  [spurious] makes [compare_exchange_weak] fail though the value
    is the expected one. *)
Definition segment (spurious : bool) (d : ShardDb) (c : Call) : outcome (ShardDb * Progress) :=
  match c with
  | GetRead key =>
      Done (d, match read_value d key with Err e => Finished (Value (Err e)) | Ok val => get_answered key val end)
  | GetLoad val epoch => if epoch <? last_epoch d then Panic else Done (d, Continue (GetMax val epoch))
  | GetMax val epoch => Done (max_allocated d epoch, Continue (GetStore val epoch))
  | GetStore val epoch => Done (set_epochs d epoch (allocated_epoch d), Finished (Value (Ok val)))
  | WriteCheck ops [] written => Done (d, Continue (WriteEngine ops written))
  | WriteCheck ops (op :: todo) written =>
      written ← check_one (last_epoch d) op written;
      Done (d, Continue (WriteCheck ops todo written))
  | WriteEngine ops written =>
      match slate_write (db d) (physical_op d <$> ops) with
      | (db', Err e) => Done (set_db d db', Finished (Unit (Err (storage_error e))))
      | (db', Ok _) =>
          Done (set_db d db', match written with Some epoch => Continue (WriteMax epoch) | None => Finished (Unit (Ok tt)) end)
      end
  | WriteMax epoch => Done (max_allocated d epoch, Continue (WriteLast epoch))
  | WriteLast epoch => Done (max_last d epoch, Finished (Unit (Ok tt)))
  | NextLoad => Done (d, Continue (NextIter (allocated_epoch d)))
  | NextIter current =>
      Done (d, match checked_u64 (Z.max current (last_epoch d) + 1) with
               | Some next => Continue (NextCas current next)
               | None => Finished (Epoch None)
               end)
  | NextCas current next =>
      if (allocated_epoch d =? current) && negb spurious
      then Done (set_epochs d (last_epoch d) next, Finished (Epoch (Some next)))
      else Done (d, Continue (NextIter (allocated_epoch d)))
  | FlushEngine => let '(db', r) := slate_flush (db d) in Done (set_db d db', Finished (Unit (lift r)))
  end.

(* ------------------------------------------------------------------ *)
(** ** A call that nothing interrupts *)

Fixpoint run_alone (fuel : nat) (d : ShardDb) (p : Progress) : outcome (ShardDb * option Reply) :=
  match p with
  | Finished r => Done (d, Some r)
  | Continue c =>
      match fuel with
      | O => Done (d, None)
      | S fuel => '(d', p') ← segment false d c; run_alone fuel d' p'
      end
  end.

(** The method as a function of the shard. *)
Definition sequential (d : ShardDb) (rq : Request) : outcome (ShardDb * Reply) :=
  match rq with
  | Get key => '(d', r) ← get d key; Done (d', Value r)
  | PutKey key value => '(d', r) ← put d key value; Done (d', Unit r)
  | DeleteKey key => let '(d', r) := shard_delete d key in Done (d', Unit r)
  | Batch ops => '(d', r) ← write_batch d ops; Done (d', Unit r)
  | Flush => let '(d', r) := flush d in Done (d', Unit r)
  | NextEpoch => let '(d', r) := try_next_epoch d in Done (d', Epoch r)
  end.

Definition request_length (rq : Request) : nat :=
  match rq with Batch ops => length ops | _ => 1 end.

Lemma check_frontier_cons last op ops w :
  check_frontier_puts last (op :: ops) w = (w ← check_one last op w; check_frontier_puts last ops w).
Proof. destruct op as [k v|k|k v]; simpl; [destruct (frontier_write k v); [case_match|]|..]; done. Qed.

Lemma run_check fuel d ops todo w :
  run_alone (length todo + S fuel) d (Continue (WriteCheck ops todo w)) =
  (w ← check_frontier_puts (last_epoch d) todo w; run_alone fuel d (Continue (WriteEngine ops w))).
Proof.
  revert w. induction todo as [|op todo IH]; intros w; [done|]. rewrite check_frontier_cons.
  cbn [length Nat.add run_alone segment]. destruct (check_one (last_epoch d) op w) as [w'|]; [|done]. simpl. apply IH.
Qed.

Lemma run_write fuel d ops w :
  run_alone (S (S (S fuel))) d (Continue (WriteEngine ops w)) =
  match slate_write (db d) (physical_op d <$> ops) with
  | (db', Err e) => Done (set_db d db', Some (Unit (Err (storage_error e))))
  | (db', Ok _) =>
      Done (match w with Some epoch => advance_epoch (set_db d db') epoch | None => set_db d db' end, Some (Unit (Ok tt)))
  end.
Proof. cbn [run_alone segment]. destruct (slate_write _ _) as [db' [[]|e]]; [|done]. by destruct w, fuel. Qed.

(** Run without interruption, the segments of a call are the method of ShardDb.v. *)
Lemma run_alone_sequential d rq :
  run_alone (request_length rq + 4) d (begin d rq) = ('(d', r) ← sequential d rq; Done (d', Some r)).
Proof.
  destruct rq as [key|key value|key|ops| |]; unfold begin, sequential.
  - cbn [request_length Nat.add run_alone segment]. unfold get, get_answered, observe_frontier.
    destruct (read_value d key) as [val|e]; [|done]. simpl. case_bool_decide; [|done].
    destruct (b ← val; epoch_of b) as [e|]; [|done]. simpl. by destruct (e <? last_epoch d).
  - unfold put. destruct (migration_pending d); [done|].
    change (request_length (PutKey key value) + 4)%nat with (length [Put key value] + 4)%nat.
    rewrite run_check. cbn [check_frontier_puts]. unfold slate_put.
    destruct (frontier_write key value) as [e|]; [destruct (e <? last_epoch d); [done|]|]; cbn [mbind outcome_bind];
      rewrite run_write; cbn [fmap list_fmap physical_op]; by destruct (slate_write _ _) as [db' [[]|err]].
  - unfold shard_delete, slate_delete. destruct (migration_pending d); [done|]. cbn [request_length Nat.add].
    rewrite run_write. cbn [fmap list_fmap physical_op]. by destruct (slate_write _ _) as [db' [[]|err]].
  - unfold write_batch. destruct (migration_pending d || fail_writes d) eqn:E.
    { destruct (request_length _ + 4)%nat; done. }
    cbn [request_length]. rewrite run_check. destruct (check_frontier_puts _ _ _) as [w|]; [|done].
    cbn [mbind outcome_bind]. rewrite run_write. by destruct (slate_write _ _) as [db' [[]|err]].
  - unfold flush. destruct (fail_flushes d); [done|]. cbn [request_length Nat.add run_alone segment].
    by destruct (slate_flush (db d)) as [db' r].
  - unfold try_next_epoch. cbn [request_length Nat.add run_alone segment mbind outcome_bind].
    destruct (checked_u64 _) as [n|]; [|done]. cbn [run_alone segment]. by rewrite ?Z.eqb_refl.
Qed.

(* ------------------------------------------------------------------ *)
(** ** Interleaving *)

(** [handed] are the epochs [try_next_epoch] has returned, newest first. *)
Record Shared : Type := { shard : ShardDb; calls : list Call; handed : list Z }.

Definition shared_start (d : ShardDb) : Shared := {| shard := d; calls := []; handed := [] |}.

Definition still (p : Progress) : list Call := match p with Continue c => [c] | Finished _ => [] end.
Definition note (p : Progress) (handed : list Z) : list Z :=
  match p with Finished (Epoch (Some n)) => n :: handed | _ => handed end.

Definition point_request (rq : Request) : Prop := match rq with Batch ops => point_writes ops | _ => True end.

(** Calls that read or write the frontier key. *)
Definition touches (ops : list BatchOp) : bool := existsb (fun op => bool_decide (op_key op = frontier_key)) ops.
Definition frontier_call (c : Call) : bool :=
  match c with
  | GetRead key => bool_decide (key = frontier_key)
  | GetLoad _ _ | GetMax _ _ | GetStore _ _ | WriteMax _ | WriteLast _ => true
  | WriteCheck ops todo written => touches ops || touches todo || bool_decide (is_Some written)
  | WriteEngine ops written => touches ops || bool_decide (is_Some written)
  | NextLoad | NextIter _ | NextCas _ _ | FlushEngine => false
  end.

(** With [exclusive] the callers take turns on the frontier key: a call that
    touches it starts when no other such call is in flight.  The code does not
    enforce it. *)
Inductive race_step (exclusive : bool) (x : Shared) : Shared -> Prop :=
| R_begin rq c :
    point_request rq -> begin (shard x) rq = Continue c ->
    (exclusive = true -> frontier_call c = true -> Forall (fun c => frontier_call c = false) (calls x)) ->
    race_step exclusive x {| shard := shard x; calls := c :: calls x; handed := handed x |}
| R_run l1 c l2 spurious d p :
    calls x = l1 ++ c :: l2 -> segment spurious (shard x) c = Done (d, p) ->
    race_step exclusive x {| shard := d; calls := l1 ++ still p ++ l2; handed := note p (handed x) |}
| R_gone l1 c l2 :
    calls x = l1 ++ c :: l2 ->
    race_step exclusive x {| shard := shard x; calls := l1 ++ l2; handed := handed x |}.
End races.

(* ------------------------------------------------------------------ *)
(** ** Invariant of the interleaving *)

Section invariant.
Context `{SlateDbLaws}.
Implicit Types d : ShardDb.

Definition counters_ok d : Prop := 0 <= last_epoch d <= allocated_epoch d.

(** What a suspended call knows, whatever the others do. *)
Definition call_ok d (c : Call) : Prop :=
  match c with
  | GetMax _ e => 0 <= e
  | GetStore _ e => 0 <= e <= allocated_epoch d
  | WriteCheck ops _ _ | WriteEngine ops _ => point_writes ops
  | WriteLast e => e <= allocated_epoch d
  | NextCas current next => current < next
  | _ => True
  end.

Definition never_ahead d : Prop := forall e, stored_epoch d = Some e -> last_epoch d <= e.

(** What the only call on the frontier key knows in addition. *)
Definition frontier_ok d (c : Call) : Prop :=
  match c with
  | GetLoad _ e | GetMax _ e | GetStore _ e => stored_epoch d = Some e
  | WriteCheck ops todo w => check_frontier_puts (last_epoch d) ops None = check_frontier_puts (last_epoch d) todo w
  | WriteEngine ops w => check_frontier_puts (last_epoch d) ops None = Done w
  | WriteMax e | WriteLast e => last_epoch d <= e /\ forall e', stored_epoch d = Some e' -> e <= e'
  | _ => True
  end.

Definition frontier_count (l : list Call) : nat := length (List.filter frontier_call l).

Lemma frontier_count_app l1 l2 : frontier_count (l1 ++ l2) = (frontier_count l1 + frontier_count l2)%nat.
Proof. unfold frontier_count. by rewrite List.filter_app, length_app. Qed.

Lemma frontier_count_cons c l : frontier_count (c :: l) = ((if frontier_call c then 1 else 0) + frontier_count l)%nat.
Proof. unfold frontier_count. simpl. by destruct (frontier_call c). Qed.

Lemma frontier_count_zero l : frontier_count l = 0%nat <-> Forall (fun c => frontier_call c = false) l.
Proof.
  induction l as [|c l IH]; [done|]. rewrite frontier_count_cons, Forall_cons, <-IH.
  destruct (frontier_call c); split; [done|by intros []|auto|by intros []].
Qed.

Lemma frontier_ok_same d d' c :
  last_epoch d' = last_epoch d -> stored_epoch d' = stored_epoch d -> frontier_ok d c -> frontier_ok d' c.
Proof. intros El Es. destruct c; simpl; by rewrite ?El, ?Es. Qed.

Lemma call_ok_grows d d' c : allocated_epoch d <= allocated_epoch d' -> call_ok d c -> call_ok d' c.
Proof. intros Ha. destruct c; simpl; try done; lia. Qed.

Lemma begin_ok d rq c : point_request rq -> begin d rq = Continue c -> call_ok d c /\ frontier_ok d c.
Proof.
  intros Hp. destruct rq; simpl; repeat case_match; intros [= <-]; simpl; try done; split; try done; by repeat constructor.
Qed.

(** Every segment keeps the counters in order, and an epoch is handed out above
    everything allocated before. *)
Lemma segment_counters b d c d' p :
  segment b d c = Done (d', p) -> counters_ok d -> call_ok d c ->
  counters_ok d' /\ allocated_epoch d <= allocated_epoch d' /\ Forall (call_ok d') (still p) /\
  (forall n, p = Finished (Epoch (Some n)) -> allocated_epoch d < n /\ allocated_epoch d' = n /\ last_epoch d' = last_epoch d).
Proof.
  unfold counters_ok. intros Hs Hd Hc. destruct c; simpl in Hs, Hc.
  - injection Hs as <- <-. unfold get_answered. repeat case_match; simpl; split_and!; try lia; try done; by repeat constructor.
  - destruct (Z.ltb_spec epoch (last_epoch d)); [done|]. injection Hs as <- <-. simpl.
    split_and!; try lia; try done. repeat constructor. simpl. lia.
  - injection Hs as <- <-. simpl. split_and!; try lia; try done. repeat constructor; simpl; lia.
  - injection Hs as <- <-. simpl. split_and!; try lia; try done; by repeat constructor.
  - destruct todo as [|op todo]; [|destruct (check_one _ _ _); [|done]]; injection Hs as <- <-; simpl;
      split_and!; try lia; try done; by repeat constructor.
  - destruct (slate_write _ _) as [db' [[]|e]]; injection Hs as <- <-; [destruct written_frontier|]; simpl;
      split_and!; try lia; try done; by repeat constructor.
  - injection Hs as <- <-. simpl. split_and!; try lia; try done. repeat constructor; simpl; lia.
  - injection Hs as <- <-. simpl. split_and!; try lia; try done; by repeat constructor.
  - injection Hs as <- <-. simpl. split_and!; try lia; try done; by repeat constructor.
  - injection Hs as <- <-. destruct (checked _ _ _) as [n|] eqn:E; simpl; split_and!; try lia; try done; repeat constructor.
    apply checked_Some in E as [-> _]. simpl. lia.
  - destruct (Z.eqb_spec (allocated_epoch d) current), b; simpl in Hs; injection Hs as <- <-; simpl;
      split_and!; try lia; try done; try by repeat constructor. all: intros n [= <-]; lia.
  - destruct (slate_flush (db d)) as [db' r]. injection Hs as <- <-. simpl. split_and!; try lia; try done; by repeat constructor.
Qed.

(** A write that does not touch the frontier key leaves it alone. *)
Lemma untouched_effect d ops acc :
  touches ops = false -> foldl (op_effect frontier_key) acc (physical_op d <$> ops) = acc.
Proof.
  induction ops as [|op ops IH]; [done|]. simpl. rewrite orb_false_iff. intros [Hop Hops].
  rewrite <-(IH Hops) at 2. f_equal. unfold op_effect. rewrite bool_decide_eq_false_2; [done|].
  intros E. apply bool_decide_eq_false in Hop. apply Hop.
  apply (physical_is_frontier d). rewrite <-E. by destruct op.
Qed.

(** The frontier value after a write, whose error leaves the outcome unknown. *)
Lemma write_frontier d ops db' r :
  point_writes ops -> slate_write (db d) (physical_op d <$> ops) = (db', r) ->
  let after := foldl (op_effect frontier_key) (contents (db d) !! frontier_key) (physical_op d <$> ops) in
  contents db' !! frontier_key = after \/
  (r <> Ok tt /\ contents db' !! frontier_key = contents (db d) !! frontier_key).
Proof.
  intros Hp Hw after. pose proof (apply_ops_view (contents (db d)) (physical_op d <$> ops) frontier_key) as Ea.
  unfold view_after in Ea. destruct r as [[]|e].
  - apply slate_write_ok in Hw; [|by apply physical_op_points]. left. by rewrite Hw, Ea.
  - apply slate_write_err in Hw as [E|E]; [| |by apply physical_op_points]; rewrite E; [by right|by left; rewrite Ea].
Qed.

(** A call that does not touch the frontier key changes neither epoch. *)
Lemma segment_other b d c d' p :
  segment b d c = Done (d', p) -> call_ok d c -> frontier_call c = false ->
  last_epoch d' = last_epoch d /\ stored_epoch d' = stored_epoch d /\ frontier_count (still p) = 0%nat.
Proof.
  intros Hs Hc Hf. destruct c; simpl in Hs, Hc, Hf; try done.
  - injection Hs as <- <-. unfold get_answered. rewrite Hf. by destruct (read_value d key).
  - rewrite !orb_false_iff in Hf. destruct Hf as [[Ho Ht] Hw]. destruct todo as [|op todo].
    + injection Hs as <- <-. split_and!; [done..|]. apply frontier_count_zero. repeat constructor. simpl. by rewrite Ho.
    + simpl in Ht. apply orb_false_iff in Ht as [Hop Ht].
      assert (check_one (last_epoch d) op written_frontier = Done written_frontier) as E.
      { destruct op as [k v|k|k v]; [|done..]. simpl in *. unfold frontier_write. by rewrite Hop. }
      rewrite E in Hs. injection Hs as <- <-. split_and!; [done..|]. apply frontier_count_zero.
      repeat constructor. simpl. by rewrite Ho, Ht.
  - rewrite orb_false_iff in Hf. destruct Hf as [Ho Hw]. destruct written_frontier as [w|]; [done|].
    destruct (slate_write _ _) as [db' r] eqn:E. apply write_frontier in E; [|done]. simpl in E.
    rewrite untouched_effect in E by done. assert (contents db' !! frontier_key = contents (db d) !! frontier_key) as E'
      by (by destruct E as [E|[_ E]]).
    destruct r; injection Hs as <- <-; (split_and!; [done| |done]); unfold stored_epoch; simpl; by rewrite E'.
  - by injection Hs as <- <-.
  - injection Hs as <- <-. by destruct (checked _ _ _).
  - destruct (_ && _); by injection Hs as <- <-.
  - destruct (slate_flush (db d)) as [db' r] eqn:E. injection Hs as <- <-. apply slate_flush_spec in E.
    split_and!; [done| |done]. unfold stored_epoch. simpl. by rewrite E.
Qed.

Lemma frontier_write_ok d ops w db' r :
  point_writes ops -> never_ahead d -> check_frontier_puts (last_epoch d) ops None = Done w ->
  slate_write (db d) (physical_op d <$> ops) = (db', r) ->
  never_ahead (set_db d db') /\ (forall e, w = Some e -> r = Ok tt -> frontier_ok (set_db d db') (WriteMax e)).
Proof.
  intros Hp Hn Hc Hw. apply write_frontier in Hw; [|done].
  destruct (check_frontier_effect d _ _ _ _ (contents (db d) !! frontier_key) Hp Hc) as [He Hle];
    [intros e E; split; [by apply Hn|done]|done|].
  unfold never_ahead, frontier_ok, stored_epoch. cbn [db set_db last_epoch]. destruct Hw as [->|[Hr ->]].
  - split; [intros e E; exact (proj1 (He e E))|]. intros e Hwe _. split; [exact (Hle e Hwe)|].
    intros e' E. exact (proj2 (He e' E) e Hwe).
  - split; [exact Hn|]. intros e _ Hr'. by destruct Hr.
Qed.

(** The only call on the frontier key keeps the cached epoch at or below the
    stored one and never lowers it. *)
Lemma segment_frontier b d c d' p :
  segment b d c = Done (d', p) -> call_ok d c -> frontier_ok d c -> never_ahead d ->
  never_ahead d' /\ last_epoch d <= last_epoch d' /\ Forall (frontier_ok d') (still p).
Proof.
  intros Hs Hc Hf Hn. destruct c; simpl in Hs, Hc, Hf.
  - injection Hs as <- <-. destruct (read_value d key) as [val|] eqn:E; [|by split_and!; try lia].
    unfold get_answered. case_bool_decide as Hk; [|by split_and!; try lia]. subst key. apply read_frontier in E.
    destruct (b ← val; epoch_of b) as [e|] eqn:Ee; split_and!; try done; try lia; repeat constructor. simpl.
    unfold stored_epoch. by rewrite <-E.
  - destruct (epoch <? last_epoch d); [done|]. injection Hs as <- <-. split_and!; try done; try lia. by repeat constructor.
  - injection Hs as <- <-. split_and!; simpl; try done; try lia. by repeat constructor.
  - injection Hs as <- <-. split_and!; simpl; [|by apply Hn|done].
    intros e. change (stored_epoch d = Some e -> epoch <= e). rewrite Hf. intros [= <-]. lia.
  - destruct todo as [|op todo]; [|rewrite check_frontier_cons in Hf; destruct (check_one _ _ _); [|done]];
      injection Hs as <- <-; split_and!; simpl; try done; try lia; by repeat constructor.
  - destruct (slate_write _ _) as [db' r] eqn:E.
    destruct (frontier_write_ok d ops _ db' r Hc Hn Hf E) as [Hn' Hm].
    destruct r as [[]|e]; injection Hs as <- <-; split_and!; simpl; try done; try lia.
    destruct written_frontier as [e|]; repeat constructor. all: by apply (Hm e).
  - injection Hs as <- <-. split_and!; simpl; try done; try lia. by apply Forall_singleton.
  - injection Hs as <- <-. split_and!; simpl; [|lia|done].
    intros e He. simpl. specialize (Hn e He). destruct Hf as [_ Hf]. specialize (Hf e He). lia.
  - injection Hs as <- <-. split_and!; simpl; try done; try lia; by repeat constructor.
  - injection Hs as <- <-. split_and!; simpl; try done; try lia. by destruct (checked _ _ _); repeat constructor.
  - destruct (_ && _); injection Hs as <- <-; split_and!; simpl; try done; try lia; by repeat constructor.
  - destruct (slate_flush (db d)) as [db' r] eqn:E. injection Hs as <- <-. apply slate_flush_spec in E.
    split_and!; simpl; [|lia|done]. intros e. unfold stored_epoch. simpl. rewrite E. apply Hn.
Qed.

Record exclusive_ok (x : Shared) : Prop := {
  eo_never_ahead : never_ahead (shard x);
  eo_one : (frontier_count (calls x) <= 1)%nat;
  eo_calls : Forall (fun c => frontier_call c = true -> frontier_ok (shard x) c) (calls x);
}.

Record race_ok (exclusive : bool) (x : Shared) : Prop := {
  ro_counters : counters_ok (shard x);
  ro_calls : Forall (call_ok (shard x)) (calls x);
  ro_sorted : StronglySorted Z.gt (handed x);
  ro_handed : Forall (fun n => n <= allocated_epoch (shard x)) (handed x);
  ro_exclusive : exclusive = true -> exclusive_ok x;
}.

(** What one step does to the counters. *)
Definition race_progress (exclusive : bool) (x y : Shared) : Prop :=
  allocated_epoch (shard x) <= allocated_epoch (shard y) /\
  (exclusive = true -> last_epoch (shard x) <= last_epoch (shard y)) /\
  (handed y = handed x \/
   exists n, handed y = n :: handed x /\ last_epoch (shard x) < n /\ allocated_epoch (shard x) < n /\
     allocated_epoch (shard y) = n).

Lemma run_exclusive x l1 c l2 b d p :
  calls x = l1 ++ c :: l2 -> segment b (shard x) c = Done (d, p) -> call_ok (shard x) c -> exclusive_ok x ->
  exclusive_ok {| shard := d; calls := l1 ++ still p ++ l2; handed := note p (handed x) |} /\
  last_epoch (shard x) <= last_epoch d.
Proof.
  intros Hx Hs Hc [Hn Hone Hcs]. rewrite Hx, frontier_count_app, frontier_count_cons in Hone.
  rewrite Hx in Hcs. apply Forall_app in Hcs as [F1 [Fc F2]%Forall_cons]. destruct (frontier_call c) eqn:Hf.
  - destruct (segment_frontier _ _ _ _ _ Hs Hc (Fc eq_refl) Hn) as (Hn' & Hle & Hp). split; [|done].
    assert (frontier_count l1 = 0%nat /\ frontier_count l2 = 0%nat) as [Z1 Z2] by lia.
    split; simpl; [done| |].
    + rewrite !frontier_count_app, Z1, Z2. destruct p as [c'|]; simpl; [|lia].
      rewrite frontier_count_cons. destruct (frontier_call c'); simpl; lia.
    + apply frontier_count_zero in Z1, Z2. rewrite !Forall_app. split_and!; [|by eapply Forall_impl|].
      all: eapply Forall_impl; [eassumption|]; simpl; congruence.
  - destruct (segment_other _ _ _ _ _ Hs Hc Hf) as (El & Es & Hz). split; [|lia]. split; simpl.
    + unfold never_ahead. by rewrite El, Es.
    + rewrite !frontier_count_app. lia.
    + apply frontier_count_zero in Hz. rewrite !Forall_app. split_and!.
      2: eapply Forall_impl; [exact Hz|]; simpl; congruence.
      all: eapply Forall_impl; [eassumption|]; simpl; intros c' H' Hf'; by apply (frontier_ok_same (shard x)), H'.
Qed.

Lemma race_step_ok exclusive x y :
  race_step exclusive x y -> race_ok exclusive x -> race_ok exclusive y /\ race_progress exclusive x y.
Proof.
  intros Hst [Hd Hcs Hso Hha Hex]. destruct Hst as [rq c Hrq Hb Hexc|l1 c l2 b d p Hx Hs|l1 c l2 Hx].
  - destruct (begin_ok _ _ _ Hrq Hb) as [Hc Hf]. split; [|split_and!; simpl; try lia; by left].
    split; simpl; try done; [by constructor|]. intros E. destruct (Hex E) as [Hn Hone Hall]. split; simpl; [done| |by constructor].
    rewrite frontier_count_cons. destruct (frontier_call c) eqn:Efc; [|done].
    specialize (Hexc E eq_refl). apply frontier_count_zero in Hexc. lia.
  - pose proof Hcs as Hcs'. rewrite Hx in Hcs'. apply Forall_app in Hcs' as [F1 [Fc F2]%Forall_cons].
    destruct (segment_counters _ _ _ _ _ Hs Hd Fc) as (Hd' & Ha & Hp & Hn).
    assert (forall l, Forall (call_ok (shard x)) l -> Forall (call_ok d) l) as Hmono.
    { intros l Hl. eapply Forall_impl; [exact Hl|]. intros. by eapply call_ok_grows. }
    assert (Forall (fun n => n <= allocated_epoch d) (handed x)) as Hha'
      by (eapply Forall_impl; [exact Hha|]; simpl; lia).
    split.
    + split; simpl; [done|rewrite !Forall_app; auto| | |].
      * destruct p as [|[| |[n|]]]; simpl; try done. constructor; [done|]. destruct (Hn n eq_refl).
        eapply Forall_impl; [exact Hha|]. simpl. lia.
      * destruct p as [|[| |[n|]]]; simpl; try done. constructor; [|done]. destruct (Hn n eq_refl). lia.
      * intros E. by apply (run_exclusive x l1 c l2 b d p Hx Hs Fc (Hex E)).
    + split_and!; simpl; [done|intros E; by apply (run_exclusive x l1 c l2 b d p Hx Hs Fc (Hex E))|].
      destruct p as [|[| |[n|]]]; simpl; auto. right. exists n. destruct (Hn n eq_refl) as (? & ? & ?).
      unfold counters_ok in Hd. split_and!; (done || lia).
  - rewrite Hx in Hcs. apply Forall_app in Hcs as [F1 [_ F2]%Forall_cons].
    split; [|split_and!; simpl; try lia; by left]. split; simpl; try done; [by apply Forall_app|].
    intros E. destruct (Hex E) as [Hn Hone Hall]. rewrite Hx in Hone, Hall.
    apply Forall_app in Hall as [G1 [_ G2]%Forall_cons]. rewrite frontier_count_app, frontier_count_cons in Hone.
    split; simpl; [done|rewrite frontier_count_app; lia|by apply Forall_app].
Qed.

Lemma race_steps_ok exclusive x y :
  rtc (race_step exclusive) x y -> race_ok exclusive x ->
  race_ok exclusive y /\ allocated_epoch (shard x) <= allocated_epoch (shard y) /\
  (exclusive = true -> last_epoch (shard x) <= last_epoch (shard y)).
Proof.
  induction 1 as [|x y z Hxy _ IH]; intros Hok; [by split_and!; try lia|].
  destruct (race_step_ok _ _ _ Hxy Hok) as (Hy & Ha & Hl & _). destruct (IH Hy) as (? & ? & Hl').
  split_and!; [done|lia|]. intros E. specialize (Hl E). specialize (Hl' E). lia.
Qed.

Lemma shared_start_ok exclusive d : epoch_inv d -> race_ok exclusive (shared_start d).
Proof. intros [Hd Hn]. split; [done|constructor..|]. intros _. split; [done|simpl; unfold frontier_count; simpl; lia|constructor]. Qed.

(** C21: The epochs of a shard under concurrent calls.  From opening the shard on,
    with any number of reads, point writes, batches of point writes, flushes and
    epoch allocations in flight on one handle, interleaved at every await and every
    atomic operation, with engine errors of unknown outcome, failed assertions and
    dropped calls: the committed epoch in memory is never above the allocated
    one, the allocated epoch only grows, and an epoch handed out is above the
    committed epoch, above everything allocated and above every epoch handed out
    before.  If in addition callers take turns on the frontier key (a call that
    touches it starts when no other such call is in flight), the committed epoch in
    memory only grows and is never ahead of the stored one, a read of the frontier
    never trips its monotonicity assertion, and a commit that finishes leaves exactly
    its epoch as the committed one.  The code does not make callers take turns, and
    without it these fail ([overlapping_read_lowers_epoch],
    [overlapping_commits_lower_frontier]). *)
Theorem epochs_under_interleaving exclusive db0 range db1 d x :
  shard_open db0 range = (db1, Ok d) ->
  (forall v, contents db1 !! frontier_key = Some v -> bytes_ok v) ->
  rtc (race_step exclusive) (shared_start d) x ->
  (0 <= last_epoch (shard x) <= allocated_epoch (shard x)) /\
  StronglySorted Z.gt (handed x) /\
  (forall y, race_step exclusive x y ->
     allocated_epoch (shard x) <= allocated_epoch (shard y) /\
     (handed y = handed x \/
      exists n, handed y = n :: handed x /\ last_epoch (shard x) < n /\ allocated_epoch (shard x) < n /\
        Forall (fun m => m < n) (handed x) /\ allocated_epoch (shard y) = n)) /\
  (exclusive = true ->
     (forall e, stored_epoch (shard x) = Some e -> last_epoch (shard x) <= e) /\
     (forall y, rtc (race_step exclusive) x y -> last_epoch (shard x) <= last_epoch (shard y)) /\
     (forall val e b, GetLoad val e ∈ calls x -> segment b (shard x) (GetLoad val e) <> Panic) /\
     (forall e b d' p, WriteLast e ∈ calls x -> segment b (shard x) (WriteLast e) = Done (d', p) -> last_epoch d' = e)).
Proof.
  intros Ho Hb Hx. apply shard_open_inv in Ho; [|done].
  destruct (race_steps_ok _ _ _ Hx (shared_start_ok exclusive d Ho)) as (Hok & _). pose proof Hok as [Hd _ Hso Hha Hex].
  split_and!; [apply Hd|apply Hd|done| |].
  - intros y Hy. destruct (race_step_ok _ _ _ Hy Hok) as (_ & Ha & _ & Hh). split; [done|].
    destruct Hh as [|(n & ? & ? & ? & ?)]; [by left|right]. exists n. split_and!; try done.
    eapply Forall_impl; [exact Hha|]. simpl. lia.
  - intros E. destruct (Hex E) as [Hn _ Hall]. rewrite Forall_forall in Hall. split_and!; [done|..].
    + intros y Hy. by apply (race_steps_ok _ _ _ Hy Hok).
    + intros val e b Hin. specialize (Hall _ Hin eq_refl). simpl in *. specialize (Hn e Hall).
      by destruct (Z.ltb_spec e (last_epoch (shard x))); [lia|].
    + intros e b d' p Hin. destruct (Hall _ Hin eq_refl) as [Hle _]. simpl. intros [= <- _]. simpl. lia.
Qed.
End invariant.

(* ------------------------------------------------------------------ *)
(** ** Concrete interleavings *)

Import MapStore.

(** A new call, or the next segment of the call at a position; new calls go to
    the front. *)
Inductive event : Type :=
| Begin (rq : Request)
| Run (i : nat).

Definition exec_event (x : Shared) (ev : event) : option Shared :=
  match ev with
  | Begin rq =>
      match begin (shard x) rq with
      | Continue c => Some {| shard := shard x; calls := c :: calls x; handed := handed x |}
      | Finished _ => None
      end
  | Run i =>
      c ← calls x !! i;
      match segment false (shard x) c with
      | Done (d, p) =>
          Some {| shard := d; calls := take i (calls x) ++ still p ++ drop (S i) (calls x); handed := note p (handed x) |}
      | Panic => None
      end
  end.

Definition begin_allowed (exclusive : bool) (x : Shared) (ev : event) : Prop :=
  match ev with
  | Begin rq =>
      point_request rq /\
      (exclusive = true -> forall c, begin (shard x) rq = Continue c -> frontier_call c = true ->
         Forall (fun c => frontier_call c = false) (calls x))
  | Run _ => True
  end.

Lemma race_event_step exclusive x ev y :
  begin_allowed exclusive x ev -> exec_event x ev = Some y -> race_step exclusive x y.
Proof.
  destruct ev as [rq|i]; simpl.
  - intros [Hp Hex]. destruct (begin (shard x) rq) as [c|] eqn:E; [|done]. intros [= <-].
    apply (R_begin _ _ rq); [done|done|]. intros E1 E2. by apply (Hex E1 c).
  - intros _. destruct (calls x !! i) as [c|] eqn:Ei; [|done]. simpl.
    destruct (segment false (shard x) c) as [[d p]|] eqn:Es; [|done]. intros [= <-].
    apply (R_run _ _ _ c _ false); [|done]. symmetry. by apply take_drop_middle.
Qed.

Fixpoint exec_events (x : Shared) (evs : list event) : option Shared :=
  match evs with [] => Some x | ev :: evs => y ← exec_event x ev; exec_events y evs end.

Fixpoint events_allowed (exclusive : bool) (x : Shared) (evs : list event) : Prop :=
  match evs with
  | [] => True
  | ev :: evs =>
      begin_allowed exclusive x ev /\
      match exec_event x ev with Some y => events_allowed exclusive y evs | None => True end
  end.

Lemma race_events_steps exclusive x evs y :
  events_allowed exclusive x evs -> exec_events x evs = Some y -> rtc (race_step exclusive) x y.
Proof.
  revert x. induction evs as [|ev evs IH]; intros x; simpl; [by intros _ [= <-]|].
  intros [Ha Hrest]. rewrite bind_Some. intros (x1 & Hx1 & Hy). rewrite Hx1 in Hrest.
  eapply rtc_l; [by apply (race_event_step _ _ ev)|by apply IH].
Qed.

Lemma race_events_any x evs y :
  Forall (fun ev => match ev with Begin rq => point_request rq | Run _ => True end) evs ->
  exec_events x evs = Some y -> rtc (race_step false) x y.
Proof.
  intros Hp. apply race_events_steps. revert x. induction Hp as [|ev evs Hev _ IH]; intros x; [done|].
  split; [by destruct ev|]. by destruct (exec_event x ev).
Qed.

Definition commit (e : Z) : Request := PutKey frontier_key (be_bytes 8 e).

(** A shard that holds epoch 5, opened. *)
Definition held_5 : @Db map_store :=
  (<[frontier_key := be_bytes 8 5]> (<[format_version_key := [1]]> ∅) : gmap bytes bytes).
Definition opened_5 : ShardDb :=
  {| db := held_5; last_epoch := 5; allocated_epoch := 5; format_version := 1; migration_pending := false;
     fail_writes := false; fail_flushes := false; fail_scans := false |}.

(** A frontier read that overlaps a commit.  Between the engine's answer and the
    load of [last_epoch] the commit of 9 goes through, and the read of a healthy
    shard fails its assertion.  Between the load and the store of [last_epoch]
    it goes through as well, and the read puts the committed epoch back to 5;
    a commit of 7 is then accepted and the stored frontier goes from 9 to 7. *)
Lemma overlapping_read_lowers_epoch :
  shard_open held_5 v1_through_v3 = (held_5, Ok opened_5) /\
  (exists x val, rtc (race_step false) (shared_start opened_5) x /\ stored_epoch (shard x) = Some 9 /\
     GetLoad val 5 ∈ calls x /\ segment false (shard x) (GetLoad val 5) = Panic) /\
  exists x y z, rtc (race_step false) (shared_start opened_5) x /\ race_step false x y /\ rtc (race_step false) y z /\
    last_epoch (shard x) = 9 /\ stored_epoch (shard x) = Some 9 /\ last_epoch (shard y) = 5 /\ stored_epoch (shard z) = Some 7.
Proof.
  split; [reflexivity|]. split.
  - assert (exists x, exec_events (shared_start opened_5)
      [Begin (Get frontier_key); Run 0; Begin (commit 9); Run 0; Run 0; Run 0; Run 0; Run 0] = Some x /\
      (stored_epoch (shard x), calls x) = (Some 9, [GetLoad (Some (be_bytes 8 5)) 5]) /\
      segment false (shard x) (GetLoad (Some (be_bytes 8 5)) 5) = Panic) as (x & Hx & E & Hp)
      by (eexists; split; [vm_compute; reflexivity|split; vm_compute; reflexivity]).
    injection E as E1 E2. exists x, (Some (be_bytes 8 5)).
    split; [apply (race_events_any _ _ _) with (2 := Hx); by repeat constructor|]. rewrite E2. split; [done|]. split; [by left|done].
  - assert (exists x y z, exec_events (shared_start opened_5)
      [Begin (Get frontier_key); Run 0; Run 0; Run 0; Begin (commit 9); Run 0; Run 0; Run 0; Run 0; Run 0] = Some x /\
      exec_event x (Run 0) = Some y /\
      exec_events y [Begin (commit 7); Run 0; Run 0; Run 0] = Some z /\
      (last_epoch (shard x), stored_epoch (shard x), last_epoch (shard y), stored_epoch (shard z)) =
        (9, Some 9, 5, Some 7)) as (x & y & z & Hx & Hy & Hz & E)
      by (eexists _, _, _; repeat (split; [vm_compute; reflexivity|]); vm_compute; reflexivity).
    injection E as E1 E2 E3 E4. exists x, y, z.
    split; [apply (race_events_any _ _ _) with (2 := Hx); by repeat constructor|].
    split; [by apply (race_event_step _ _ (Run 0))|].
    split; [|done]. apply (race_events_any _ _ _) with (2 := Hz). by repeat constructor.
Qed.

(** Two commits that overlap.  Both pass the check of [put] before either has
    written; the later write is the lower one, and the next read of the frontier
    fails its assertion. *)
Lemma overlapping_commits_lower_frontier :
  exists x, rtc (race_step false) (shared_start opened_5) x /\ calls x = [] /\
    last_epoch (shard x) = 9 /\ stored_epoch (shard x) = Some 7 /\ get (shard x) frontier_key = Panic.
Proof.
  assert (exists x, exec_events (shared_start opened_5)
    [Begin (commit 7); Run 0; Run 0; Begin (commit 9); Run 0; Run 0; Run 0; Run 0; Run 0; Run 0; Run 0; Run 0] = Some x /\
    (calls x, last_epoch (shard x), stored_epoch (shard x)) = ([], 9, Some 7) /\
    get (shard x) frontier_key = Panic) as (x & Hx & E & Hg)
    by (eexists; split; [vm_compute; reflexivity|split; vm_compute; reflexivity]).
  injection E as E1 E2 E3. exists x.
  split; [apply (race_events_any _ _ _) with (2 := Hx); by repeat constructor|done].
Qed.

(** An allocation that loses its race against a commit starts over and hands out
    an epoch above it. *)
Lemma epochs_under_interleaving_witness :
  exists x y, rtc (race_step true) (shared_start opened_5) x /\ calls x = [NextCas 9 10] /\
    race_step true x y /\ handed y = [10] /\ last_epoch (shard x) < 10 /\
    (forall e, stored_epoch (shard x) = Some e -> last_epoch (shard x) <= e).
Proof.
  assert (exists x y, exec_events (shared_start opened_5)
    [Begin NextEpoch; Run 0; Run 0; Begin (commit 9); Run 0; Run 0; Run 0; Run 0; Run 0; Run 0; Run 0] = Some x /\
    exec_event x (Run 0) = Some y /\ (calls x, handed x, handed y) = ([NextCas 9 10], [], [10])) as (x & y & Hx & Hy & E)
    by (eexists _, _; repeat (split; [vm_compute; reflexivity|]); vm_compute; reflexivity).
  injection E as E1 E0 E2.
  assert (rtc (race_step true) (shared_start opened_5) x) as Hr.
  { apply (race_events_steps _ _ _ _) with (2 := Hx). vm_compute. repeat split.
    all: intros _ c [= <-] Hf; first [discriminate Hf|by repeat constructor]. }
  assert (race_step true x y) as Hs by (by apply (race_event_step _ _ (Run 0))).
  destruct (epochs_under_interleaving true held_5 v1_through_v3 held_5 opened_5 x) as (_ & _ & Hstep & Hexc);
    [reflexivity| |exact Hr|].
  { intros v Hv. vm_compute in Hv. injection Hv as <-. repeat constructor; lia. }
  exists x, y. split; [exact Hr|]. split; [exact E1|]. split; [exact Hs|]. split; [exact E2|].
  split; [|exact (proj1 (Hexc eq_refl))].
  destruct (Hstep y Hs) as [_ [Hh|(n & Hh & Hl & _)]]; rewrite E2, E0 in Hh; [discriminate Hh|].
  injection Hh as ->. exact Hl.
Defined.
