(* ===== verification/Paging.v ===== *)
(** * Paged scans ([ShardDb::scan_prefix_page] and its callers)

    The recovery loops of the operators read an arrangement page by page,
    passing each page's continuation token to the next call.  [paged_loop] is
    that loop, with the per-row work as a parameter; its result is the fold of
    the per-row work over the complete prefix scan. *)
From stdpp Require Import base tactics list gmap numbers option fin_maps sorting.
From Stdlib Require Import ZArith Lia ZifyBool.
From S2P Require Import Prelude Kernels Keys Store ShardDb.
Local Open Scope Z_scope.

Section loop.
Context `{SlateDb} {St E : Type}.
Context (storage : StorageError -> E) (handle : St -> bytes * bytes -> result E St).

Fixpoint handle_rows (st : St) (rows : list (bytes * bytes)) : result E St :=
  match rows with
  | [] => Ok st
  | e :: rest => st' ← handle st e; handle_rows st' rest
  end.

(** One iteration per page; [None] when the fuel runs out. *)
Fixpoint paged_loop (fuel : nat) (d : ShardDb) (prefix : bytes) (page_size : nat) (max_buffer_bytes : Z)
    (token : option bytes) (st : St) : option (result E St) :=
  match fuel with
  | O => None
  | S fuel' =>
      match scan_prefix_page d prefix token page_size max_buffer_bytes with
      | Err e => Some (Err (storage e))
      | Ok page =>
          match handle_rows st (page_rows page) with
          | Err e => Some (Err e)
          | Ok st' =>
              if is_last_page page then Some (Ok st')
              else paged_loop fuel' d prefix page_size max_buffer_bytes (next_token page) st'
          end
      end
  end.

Lemma handle_rows_app st l1 l2 :
  handle_rows st (l1 ++ l2) = st' ← handle_rows st l1; handle_rows st' l2.
Proof.
  revert st. induction l1 as [|e l1 IH]; intros st; [done|]. cbn.
  destruct (handle st e); cbn; [apply IH|done].
Qed.
End loop.

Section paging.
Context `{SlateDbLaws, !SlateDbUp}.
Implicit Types d : ShardDb.

(** The entries still to be read after a token. *)
Definition after_token (tok : option bytes) (k : bytes) : Prop :=
  match tok with None => True | Some t => key_lt t k end.

Definition remaining d (p : bytes) (tok : option bytes) (R : list (bytes * bytes)) : Prop :=
  StronglySorted key_lt R.*1 /\
  forall k v, (k, v) ∈ R <-> view d k = Some v /\ starts_with k p = true /\ after_token tok k.

Definition token_ok (p : bytes) (tok : option bytes) : Prop :=
  match tok with None => True | Some t => starts_with t p = true end.

Lemma versioned_magic_token d p t :
  ordinary p -> starts_with t p = true ->
  versioned d (strips d p) t = magic (format_version d) (is_meta p) ++ t.
Proof.
  intros Hp Ht. destruct (ordinary_extend _ _ Hp Ht) as [Ho Hm].
  rewrite <-Hm, <-versioned_magic by done. unfold strips. by rewrite Hm.
Qed.

(** The loop over one page: rows are taken until the page is full, at least
    one when there is one. *)
Lemma page_loop_take key_of resume size maxb (l : list (bytes * bytes)) f rows pb :
  (1 <= size)%nat ->
  Forall (fun e => key_of e.1 = Ok (f e).1 /\ e.2 = (f e).2 /\
    match resume with Some r => lex_cmp e.1 r = Gt | None => True end) l ->
  exists n pb', page_loop key_of resume size maxb (Ok <$> l) rows pb
      = Ok (rows ++ take n (f <$> l), pb', bool_decide (length l <= n)%nat) /\
    (rows = [] -> l <> [] -> (1 <= n)%nat).
Proof.
  intros Hsz Hl. revert rows pb. induction Hl as [|[k v] l (Hk & Hv & Hr) _ IH]; intros rows pb.
  { exists 0%nat, pb. cbn. by rewrite app_nil_r. }
  rewrite fmap_cons. cbn [page_loop lift mbind result_bind fst snd] in *.
  replace (match resume with Some r => match lex_cmp k r with Gt => false | _ => true end | None => false end)
    with false by (destruct resume; [by rewrite Hr|done]).
  rewrite Hk. cbn [mbind result_bind].
  destruct ((size <=? length rows)%nat || _) eqn:Efull.
  - exists 0%nat, pb. cbn. rewrite app_nil_r. split; [done|]. intros -> _. cbn in Efull. lia.
  - destruct (IH (rows ++ [((f (k, v)).1, v)]) (pb + (Z.of_nat (length (f (k, v)).1) + Z.of_nat (length v))))
      as (n & pb' & -> & _).
    exists (S n), pb'. split; [|lia]. rewrite <-app_assoc. cbn [app take fmap list_fmap length].
    replace ((f (k, v)).1, v) with (f (k, v)) 
      by (clear -Hv; destruct (f (k, v)); cbn in *; congruence).
    do 2 f_equal. apply bool_decide_ext. lia.
Qed.

Lemma strongly_sorted_drop (l : list bytes) n : StronglySorted key_lt l -> StronglySorted key_lt (drop n l).
Proof.
  revert n. induction l as [|k l IH]; intros [|n] Hs; try done. apply IH. by apply StronglySorted_inv in Hs as [? _].
Qed.

Lemma sorted_split (l : list bytes) n t k :
  StronglySorted key_lt l -> l !! n = Some t ->
  k ∈ drop (S n) l <-> k ∈ l /\ key_lt t k.
Proof.
  revert n. induction l as [|x l IH]; intros n Hs Hn; [done|].
  apply StronglySorted_inv in Hs as [Hs Hall]. rewrite Forall_forall in Hall.
  destruct n as [|n]; cbn in *.
  - injection Hn as ->. rewrite drop_0, elem_of_cons. split; [intros Hk; split; [by right|by apply Hall]|].
    intros [[->|Hk] Hlt]; [by apply key_lt_irrefl in Hlt|done].
  - rewrite IH by done. rewrite elem_of_cons. split; [tauto|]. intros [[->|Hk] Hlt]; [|done].
    exfalso. apply (key_lt_irrefl x), (key_lt_trans _ t); [|done]. apply Hall. by eapply list_elem_of_lookup_2.
Qed.

(** Dropping a page leaves what remains after its last key. *)
Lemma remaining_drop d p tok R n t v :
  remaining d p tok R -> R !! n = Some (t, v) -> remaining d p (Some t) (drop (S n) R).
Proof.
  intros [Hs He] Hn. split; [rewrite fmap_drop; by apply strongly_sorted_drop|].
  assert (R.*1 !! n = Some t) as Hn1 by (by rewrite list_lookup_fmap, Hn).
  intros k v'. cbn. split.
  - intros Hin. assert ((k, v') ∈ R) as HR.
    { rewrite <-(take_drop (S n) R). apply elem_of_app. by right. }
    apply He in HR as (Hv & Hp & _). split_and!; [done|done|].
    eapply (sorted_split R.*1 n t k); [done|done|]. rewrite <-fmap_drop. apply list_elem_of_fmap.
    by exists (k, v').
  - intros (Hv & Hp & Hlt).
    assert (after_token tok k) as Ha.
    { destruct tok as [t0|]; [|done]. cbn. apply (key_lt_trans _ t); [|done].
      apply list_elem_of_lookup_2, He in Hn. by destruct Hn as (_ & _ & ?). }
    assert (k ∈ drop (S n) R.*1) as Hk.
    { apply (sorted_split R.*1 n t k); [done|done|]. split; [|done]. apply list_elem_of_fmap.
      exists (k, v'). split; [done|]. by apply He. }
    rewrite <-fmap_drop in Hk. apply list_elem_of_fmap in Hk as ([k1 v1] & -> & Hin). cbn.
    assert ((k1, v1) ∈ R) as HR by (rewrite <-(take_drop (S n) R); apply elem_of_app; by right).
    apply He in HR as [Hv1 _]. cbn in *. congruence.
Qed.

Lemma up_scan_exact db p after : exists l, slate_scan db p after = Ok (Ok <$> l) /\
  scan_result (contents db) p after l.
Proof.
  destruct (up_scan db p after) as [l E]. exists l. split; [done|].
  apply slate_scan_spec in E as (l1 & Hl1 & [E1|(n & e & E1)]).
  - assert (l = l1) as ->; [|done]. revert E1. clear. revert l1.
    induction l as [|e l IH]; intros [|e1 l1] E; try done. rewrite !fmap_cons in E.
    injection E as -> E. f_equal. by apply IH.
  - exfalso. assert (Err e ∈ (Ok <$> l : list (result SlateError (bytes * bytes)))) as Hin
      by (rewrite E1; apply elem_of_app; right; by left).
    by apply list_elem_of_fmap in Hin as (? & ? & ?).
Qed.

(** One call of [scan_prefix_page]. *)
Lemma scan_prefix_page_ok d p tok size maxb R :
  open_shard d -> ordinary p -> token_ok p tok -> (1 <= size)%nat -> remaining d p tok R ->
  exists n page, scan_prefix_page d p tok size maxb = Ok page /\
    page_rows page = take n R /\ is_last_page page = bool_decide (length R <= n)%nat /\
    next_token page = (if is_last_page page then None else fst <$> last (take n R)) /\
    (R <> [] -> (1 <= n)%nat).
Proof.
  intros (Hm & _ & Hf & _) Hp Htok Hsz HR. unfold scan_prefix_page. rewrite Hf.
  set (mg := magic (format_version d) (is_meta p)).
  assert (exists sfx, (tok = None /\ sfx = None \/ exists s, tok = Some (p ++ s) /\ sfx = Some s) /\
    (key ← versioned d (strips d p) <$> tok; strip_prefix (versioned d (strips d p) p) key) = sfx /\
    versioned d (strips d p) <$> tok = (fun t => mg ++ t) <$> tok) as (sfx & Hcase & -> & ->).
  { destruct tok as [t|]; [|by exists None; split_and!; [left|..]]. cbn in Htok.
    apply starts_with_spec in Htok as [s ->]. exists (Some s). split; [right; by exists s|].
    rewrite versioned_magic by done. cbn.
    rewrite versioned_magic_token by (try done; apply starts_with_app). split; [|done].
    fold mg. by rewrite app_assoc, strip_prefix_app. }
  rewrite versioned_magic by done. fold mg.
  destruct (up_scan_exact (db d) (mg ++ p) sfx) as (l0 & -> & Hl0). cbn [lift mbind result_bind].
  destruct (scan_result_unmagic _ _ _ _ _ Hl0) as (Hs & He & Hk).
  assert (unmagic mg <$> l0 = R) as ER.
  { destruct HR as [HsR HeR]. apply sorted_unique; [done|done|]. intros [k v]. rewrite He, HeR. unfold view.
    split.
    - intros [Hv Hin]. pose proof (in_scan_starts _ _ _ Hin) as Hst.
      destruct (ordinary_extend _ _ Hp Hst) as [Ho Hmk]. rewrite physical_magic, Hmk by done.
      split_and!; [done|done|]. destruct Hcase as [[-> ->]|(s & -> & ->)]; [done|].
      cbn. unfold in_scan in Hin. rewrite Hst in Hin. cbn in Hin. unfold key_lt.
      by destruct (lex_cmp (p ++ s) k).
    - intros (Hv & Hst & Ha). destruct (ordinary_extend _ _ Hp Hst) as [Ho Hmk].
      rewrite physical_magic, Hmk in Hv by done. split; [done|]. unfold in_scan. rewrite Hst.
      destruct Hcase as [[-> ->]|(s & -> & ->)]; [done|]. cbn in *. unfold key_lt in Ha. by rewrite Ha. }
  destruct (page_loop_take (unversioned d (strips d p)) ((fun t => mg ++ t) <$> tok) size maxb l0
    (unmagic mg) [] 0) as (n & pb & -> & Hn); [done| |].
  { apply Forall_forall. intros [k v] Hin. rewrite Forall_forall in Hk. specialize (Hk _ Hin). cbn in *.
    split_and!; [rewrite Hk at 1; apply unversioned_magic|done|].
    destruct Hcase as [[-> ->]|(s & -> & ->)]; [done|]. cbn.
    apply Hl0 in Hin as [_ Hin]. unfold in_scan in Hin. apply andb_true_iff in Hin as [_ Hin].
    apply lex_cmp_Gt. rewrite <-app_assoc in Hin. by destruct (lex_cmp (mg ++ p ++ s) k). }
  cbn [mbind result_bind app]. eexists n, _. split; [done|]. cbn [page_rows is_last_page next_token].
  rewrite ER. split_and!; [done| |done|].
  - apply bool_decide_ext. rewrite <-ER, length_fmap. done.
  - intros HRne. apply Hn; [done|]. intros ->. by rewrite <-ER in HRne.
Qed.

Lemma paged_loop_from {St E} (storage : StorageError -> E) (handle : St -> bytes * bytes -> result E St)
    d p size maxb fuel tok R st :
  open_shard d -> ordinary p -> (1 <= size)%nat -> token_ok p tok -> remaining d p tok R ->
  (length R < fuel)%nat ->
  paged_loop storage handle fuel d p size maxb tok st = Some (handle_rows handle st R).
Proof.
  intros Hd Hp Hsz. revert tok R st. induction fuel as [|fuel IH]; intros tok R st Htok HR Hf; [lia|].
  cbn [paged_loop].
  destruct (scan_prefix_page_ok d p tok size maxb R) as (n & page & -> & Hrows & Hlast & Hnext & Hn); try done.
  rewrite Hrows. destruct (decide (length R <= n)%nat) as [Hle|Hgt].
  - rewrite Hlast, bool_decide_eq_true_2 by done. rewrite take_ge by done.
    by destruct (handle_rows handle st R).
  - rewrite Hlast, bool_decide_eq_false_2 in * by done.
    assert (R <> []) as Hne by (intros ->; cbn in Hgt; lia). specialize (Hn Hne).
    rewrite <-(take_drop n R) at 2. rewrite handle_rows_app.
    destruct (handle_rows handle st (take n R)) as [st'|e]; [|done]. cbn [mbind result_bind].
    rewrite Hnext. destruct n as [|n]; [lia|].
    destruct (lookup_lt_is_Some_2 R n) as [[t v] Ht]; [lia|].
    rewrite (take_S_r _ _ _ Ht), last_snoc. cbn [fmap option_fmap option_map fst].
    apply IH; [|by eapply remaining_drop|rewrite length_drop; lia].
    cbn. apply list_elem_of_lookup_2 in Ht. destruct HR as [_ He]. by apply He in Ht as (_ & ? & _).
Qed.

(** C26: Paging through an arrangement reads it exactly once.  On an open shard
    in any storage format, for any page size of at least one and any byte
    budget, the loop that follows continuation tokens until the last page
    terminates after at most one page per entry plus one, and its result is the
    per-row work folded over the complete prefix scan in key order: no entry is
    skipped, repeated or reordered at a page boundary, even when a single entry
    exceeds the byte budget. *)
Theorem paged_scan_is_full_scan {St E} (storage : StorageError -> E)
    (handle : St -> bytes * bytes -> result E St) d p size maxb fuel st :
  open_shard d -> ordinary p -> (1 <= size)%nat ->
  (forall L, scan_prefix d p = Ok L -> (length L < fuel)%nat) ->
  exists L, scan_prefix d p = Ok L /\
    paged_loop storage handle fuel d p size maxb None st = Some (handle_rows handle st L).
Proof.
  intros Hd Hp Hsz Hf. destruct (scan_prefix_up d p Hp Hd) as [L HL]. exists L. split; [done|].
  apply paged_loop_from; [done|done|done|done| |by apply Hf].
  destruct Hd as (Hm & _). destruct (scan_prefix_ok d p L Hp Hm HL) as [Hs He]. split; [done|].
  intros k v. rewrite He. cbn. tauto.
Qed.
End paging.

(* ------------------------------------------------------------------ *)
(** ** A concrete shard *)

Import MapStore.

Definition shard_v2 : ShardDb :=
  {| db := <[format_v2_key [1; 7; 1] := [10]]> (<[format_v2_key [1; 7; 2] := [20; 21]]>
             (<[format_v2_key [1; 8; 1] := [30]]> ∅)) : gmap bytes bytes;
     last_epoch := 0; allocated_epoch := 0; format_version := 2; migration_pending := false;
     fail_writes := false; fail_flushes := false; fail_scans := false |}.

Definition append_row (acc : list bytes) (e : bytes * bytes) : result unit (list bytes) := Ok (acc ++ [e.2]).

Lemma paged_scan_is_full_scan_witness :
  exists L, scan_prefix shard_v2 [1; 7] = Ok L /\
    paged_loop (fun _ => tt) append_row 3 shard_v2 [1; 7] 1 0 None [] = Some (handle_rows append_row [] L).
Proof.
  apply (paged_scan_is_full_scan (fun _ => tt) append_row shard_v2 [1; 7] 1 0 3 []).
  - repeat split.
  - exists 1, [7]. split; [reflexivity|discriminate].
  - lia.
  - intros L HL. vm_compute in HL. injection HL as <-. cbn. lia.
Defined.
