(* ===== verification/Reader.v ===== *)
(** * Read-only shard readers ([rockstream-storage/src/reader.rs], [ShardReader])

    A reader opens the storage of a shard at its latest durable state or at a
    checkpoint, reads the format marker itself, and offers point reads, prefix
    scans, byte-bounded scans and a stream of bounded pages.  The engine's
    reader is part of SlateDB: [SlateReader] has the calls and [SlateReaderLaws]
    their documented behaviour, [SnapStore] is a concrete instance.  A reader
    handle is an engine handle that is only read.  The theorems relate a reader
    to the shard database it was opened on. *)
From stdpp Require Import base tactics list gmap numbers option fin_maps sorting.
From Stdlib Require Import ZArith Lia ZifyBool.
From S2P Require Import Prelude Kernels Laws MergeOps Keys Store ShardDb Paging.
Local Open Scope Z_scope.

(** [open_latest] and [open_checkpoint] build a [DbReader] on the storage of an
    engine; [snapshot_of] is what a checkpoint holds.  Every write of [SlateDb]
    waits until it is durable, so the durable state is the state of the engine. *)
Class SlateReader `{SlateDb} : Type := {
  Uuid : Type;
  parse_str : bytes -> option Uuid;
  uuid_string : Uuid -> bytes;
  snapshot_of : Db -> Uuid -> option (gmap bytes bytes);
  open_latest : Db -> result SlateError Db;
  open_checkpoint : Db -> Uuid -> result SlateError Db;
  slate_checkpoint : Db -> Db * result SlateError (Z * Uuid)
}.

(** Nothing that happens to an engine changes a checkpoint taken before. *)
Definition keeps_snapshots `{SlateReader} (db db' : Db) : Prop :=
  forall u m, snapshot_of db u = Some m -> snapshot_of db' u = Some m.

Class SlateReaderLaws `{SlateReader} : Prop := {
  parse_uuid_string u : parse_str (uuid_string u) = Some u;
  open_latest_spec db r : open_latest db = Ok r -> contents r = contents db;
  open_checkpoint_spec db u r : open_checkpoint db u = Ok r -> snapshot_of db u = Some (contents r);
  slate_checkpoint_spec db db' r : slate_checkpoint db = (db', r) ->
    contents db' = contents db /\ keeps_snapshots db db' /\
    match r with Ok (_, u) => snapshot_of db' u = Some (contents db) | Err _ => True end;
  slate_write_snapshots db ops db' r : slate_write db ops = (db', r) -> keeps_snapshots db db';
  slate_flush_snapshots db db' r : slate_flush db = (db', r) -> keeps_snapshots db db'
}.

Class SlateReaderUp `{SlateReader} : Prop := {
  up_open_latest db : exists r, open_latest db = Ok r;
  up_open_checkpoint db u m : snapshot_of db u = Some m -> exists r, open_checkpoint db u = Ok r;
  up_checkpoint db : exists db' id u, slate_checkpoint db = (db', Ok (id, u))
}.

(* ------------------------------------------------------------------ *)
(** ** The reader *)

Section reader.
Context `{SlateReader}.

Record ShardReader : Type := {
  reader : Db;
  reader_format : StorageFormatVersion;
  reader_pending : bool
}.

Definition from_reader (r : Db) (range : SupportedStorageFormatRange) : result StorageError ShardReader :=
  marker ← lift (slate_get r format_version_key);
  fv ← match marker with
       | None => Ok 1
       | Some [b] => Ok b
       | Some b => Err (MalformedFormatMarker (Z.of_nat (length b)) (range_min range) (range_max range))
       end;
  if negb (range_contains range fv) then Err (IncompatibleFormat fv (range_min range) (range_max range))
  else
    pending ← (if fv =? 1 then
                 v ← lift (slate_get r (migration_progress_key V1 V2));
                 Ok (bool_decide (is_Some v))
               else Ok false);
    Ok {| reader := r; reader_format := fv; reader_pending := pending |}.

Definition open_with_supported_format_range (storage : Db) (range : SupportedStorageFormatRange)
    : result StorageError ShardReader :=
  r ← lift (open_latest storage); from_reader r range.

Definition reader_open (storage : Db) : result StorageError ShardReader :=
  open_with_supported_format_range storage v1_through_v2.

Definition open_with_snapshot_id (storage : Db) (snapshot_id : bytes) : result StorageError ShardReader :=
  checkpoint_id ← ok_or (parse_str snapshot_id) Unsupported;
  r ← lift (open_checkpoint storage checkpoint_id);
  from_reader r v1_through_v2.

Definition open_with_epoch (storage : Db) (epoch min_retention_epoch : Z) : result StorageError ShardReader :=
  if epoch <? min_retention_epoch then Err (EpochPruned epoch min_retention_epoch) else reader_open storage.

Definition reader_get (r : ShardReader) (key : bytes) : result StorageError (option bytes) :=
  if reader_pending r && negb (is_meta key) then
    a ← lift (slate_get (reader r) (format_v2_key key));
    b ← lift (slate_get (reader r) key);
    Ok (opt_or a b)
  else
    lift (slate_get (reader r)
      (if (reader_format r =? 2) && negb (is_meta key) then format_v2_key key else key)).

Definition reader_idempotency_epoch (r : ShardReader) (shard_id : Z) (key_hash : bytes)
    : result StorageError (option Z) :=
  v ← reader_get r (idempotency_key shard_id key_hash);
  Ok (match v with
      | Some b => if (8 <=? length b)%nat then Some (of_be (take 8 b)) else None
      | None => None
      end).

Definition get_op_state (r : ShardReader) (prefix : ShardPrefix) (operator_id : Z) (suffix : bytes)
    : result StorageError (option bytes) :=
  reader_get r (encode prefix operator_id suffix).

Definition reader_key (strip : bool) (key : bytes) : result StorageError bytes :=
  if strip then v2_logical key else Ok key.

Definition reader_scan_physical (r : ShardReader) (prefix : bytes) (strip : bool)
    : result StorageError (list (bytes * bytes)) :=
  items ← lift (slate_scan (reader r) (if strip then format_v2_prefix prefix else prefix) None);
  collect_entries (reader_key strip) items.

Fixpoint reader_unmigrated (r : ShardReader) (items : list (result SlateError (bytes * bytes)))
    : result StorageError (list (bytes * bytes)) :=
  match items with
  | [] => Ok []
  | item :: rest =>
      '(k, v) ← lift item;
      migrated ← lift (slate_get (reader r) (format_v2_key k));
      results ← reader_unmigrated r rest;
      Ok (match migrated with None => (k, v) :: results | Some _ => results end)
  end.

Definition reader_scan_pending (r : ShardReader) (prefix : bytes)
    : result StorageError (list (bytes * bytes)) :=
  old_items ← lift (slate_scan (reader r) prefix None);
  old_results ← reader_unmigrated r old_items;
  new_items ← lift (slate_scan (reader r) (format_v2_prefix prefix) None);
  new_results ← collect_entries v2_logical new_items;
  Ok (sort_entries (old_results ++ new_results)).

Definition use_v2 (r : ShardReader) (prefix : bytes) : bool := (reader_format r =? 2) && negb (is_meta prefix).

Definition reader_scan_prefix (r : ShardReader) (prefix : bytes)
    : result StorageError (list (bytes * bytes)) :=
  if use_v2 r prefix then reader_scan_physical r prefix true
  else if reader_pending r && negb (is_meta prefix) then reader_scan_pending r prefix
  else reader_scan_physical r prefix false.

Definition scan_op_state_prefix (r : ShardReader) (prefix : ShardPrefix) (operator_id : Z) (sub_prefix : bytes)
    : result StorageError (list (bytes * bytes)) :=
  reader_scan_prefix r (operator_prefix prefix operator_id ++ sub_prefix).

(** [None] when the entry does not fit. *)
Definition append_bounded_scan_entry (results : list (bytes * bytes)) (total : Z) (key value : bytes)
    (budget : Z) : option (list (bytes * bytes) * Z) :=
  sum ← checked 0 usize_max (total + Z.of_nat (length key));
  next ← checked 0 usize_max (sum + Z.of_nat (length value));
  if budget <? next then None else Some (results ++ [(key, value)], next).

(** A streaming loop; [None] means the budget ran out.  [skip] filters the
    legacy entries that have a migrated copy. *)
Fixpoint bounded_entries (skip : bytes -> result StorageError bool) (key_of : bytes -> result StorageError bytes)
    (max_bytes : Z) (items : list (result SlateError (bytes * bytes))) (results : list (bytes * bytes)) (total : Z)
    : result StorageError (option (list (bytes * bytes) * Z)) :=
  match items with
  | [] => Ok (Some (results, total))
  | item :: rest =>
      '(k, v) ← lift item;
      skipped ← skip k;
      if (skipped : bool) then bounded_entries skip key_of max_bytes rest results total
      else
        k' ← key_of k;
        match append_bounded_scan_entry results total k' v max_bytes with
        | None => Ok None
        | Some (results, total) => bounded_entries skip key_of max_bytes rest results total
        end
  end.

Definition has_migrated_copy (r : ShardReader) (k : bytes) : result StorageError bool :=
  v ← lift (slate_get (reader r) (format_v2_key k)); Ok (bool_decide (is_Some v)).

Definition reader_scan_prefix_bounded (r : ShardReader) (prefix : bytes) (max_bytes : Z)
    : result StorageError (list (bytes * bytes) * bool) :=
  let use_v2 := use_v2 r prefix in
  if reader_pending r && negb (is_meta prefix) && negb use_v2 then
    old_items ← lift (slate_scan (reader r) prefix None);
    old ← bounded_entries (has_migrated_copy r) Ok max_bytes old_items [] 0;
    match old with
    | None => Ok ([], true)
    | Some (results, total) =>
        new_items ← lift (slate_scan (reader r) (format_v2_prefix prefix) None);
        new ← bounded_entries (fun _ => Ok false) v2_logical max_bytes new_items results total;
        Ok (match new with None => ([], true) | Some (results, _) => (sort_entries results, false) end)
    end
  else
    items ← lift (slate_scan (reader r) (if use_v2 then format_v2_prefix prefix else prefix) None);
    all ← bounded_entries (fun _ => Ok false) (reader_key use_v2) max_bytes items [] 0;
    Ok (match all with None => ([], true) | Some (results, _) => (results, false) end).

Definition MAX_SCAN_PAGE_ROWS : nat := 4096.
Definition MAX_SCAN_PAGE_BYTES : Z := 16 * 1024 * 1024.

(** The messages a scan sends, in order, to a consumer that takes them all. *)
Fixpoint pages_loop (strip : bool) (max_rows : nat) (max_bytes : Z)
    (items : list (result SlateError (bytes * bytes))) (page : list (bytes * bytes)) (page_bytes : Z)
    : list (result StorageError (list (bytes * bytes))) :=
  match items with
  | [] => if (length page =? 0)%nat then [] else [Ok page]
  | Err e :: _ => [Err (storage_error e)]
  | Ok (k, value) :: rest =>
      match reader_key strip k with
      | Err e => [Err e]
      | Ok key =>
          match checked 0 usize_max (Z.of_nat (length key) + Z.of_nat (length value)) with
          | None => [Err Unsupported]
          | Some entry_bytes =>
              if max_bytes <? entry_bytes then [Err Unsupported]
              else if negb (length page =? 0)%nat
                && ((length page =? max_rows)%nat || (max_bytes <? saturating_add usize_max page_bytes entry_bytes))
              then Ok page :: pages_loop strip max_rows max_bytes rest [(key, value)]
                     (saturating_add usize_max 0 entry_bytes)
              else pages_loop strip max_rows max_bytes rest (page ++ [(key, value)])
                     (saturating_add usize_max page_bytes entry_bytes)
          end
      end
  end.

Definition scan_prefix_pages (r : ShardReader) (prefix : bytes) (max_rows : nat) (max_bytes : Z)
    : list (result StorageError (list (bytes * bytes))) :=
  if (max_rows =? 0)%nat || (MAX_SCAN_PAGE_ROWS <? max_rows)%nat || (max_bytes =? 0)
     || (MAX_SCAN_PAGE_BYTES <? max_bytes)
  then [Err Unsupported]
  else
    let use_v2 := use_v2 r prefix in
    match slate_scan (reader r) (if use_v2 then format_v2_prefix prefix else prefix) None with
    | Err e => [Err (storage_error e)]
    | Ok items => pages_loop use_v2 max_rows max_bytes items [] 0
    end.

(** [ShardDb::create_checkpoint] *)
Record CheckpointHandle : Type := { handle_checkpoint_id : Z; handle_snapshot_id : bytes }.

Definition create_checkpoint (d : ShardDb) : ShardDb * result StorageError CheckpointHandle :=
  match slate_checkpoint (db d) with
  | (db', Err e) => (set_db d db', Err (storage_error e))
  | (db', Ok (id, u)) =>
      (set_db d db', Ok {| handle_checkpoint_id := id; handle_snapshot_id := uuid_string u |})
  end.
End reader.

(* ------------------------------------------------------------------ *)
(** ** Pages *)

Definition entry_bytes (e : bytes * bytes) : Z := Z.of_nat (length e.1) + Z.of_nat (length e.2).

(** A page within its budgets. *)
Definition page_ok (max_rows : nat) (max_bytes : Z) (p : list (bytes * bytes)) : Prop :=
  (1 <= length p <= max_rows)%nat /\ zsum entry_bytes p <= max_bytes.

Lemma page_entry_bytes_nonneg e : 0 <= entry_bytes e.
Proof. unfold entry_bytes. lia. Qed.

Section pages.
Context `{SlateReader}.

(** The logical entry of a physical one. *)
Definition logical_entry (strip : bool) (e : bytes * bytes) : bytes * bytes :=
  (match reader_key strip e.1 with Ok k => k | Err _ => e.1 end, e.2).

Lemma pages_loop_ok strip rows maxb (l : list (bytes * bytes)) f page :
  (1 <= rows)%nat -> maxb <= MAX_SCAN_PAGE_BYTES ->
  Forall (fun e => reader_key strip e.1 = Ok (f e).1 /\ e.2 = (f e).2 /\ entry_bytes (f e) <= maxb) l ->
  (length page <= rows)%nat -> zsum entry_bytes page <= maxb ->
  exists ps, pages_loop strip rows maxb (Ok <$> l) page (zsum entry_bytes page) = Ok <$> ps /\
    mjoin ps = page ++ (f <$> l) /\ Forall (page_ok rows maxb) ps.
Proof.
  intros Hrows Hmax Hl. revert page.
  induction Hl as [|[k v] l (Hk & Hv & Hsz) _ IH]; intros page Hlen Hpb.
  { destruct page as [|e page]; [by exists []|]. exists [e :: page]. cbn. rewrite !app_nil_r.
    split; [done|]. split; [done|]. constructor; [|done]. split; [cbn in *; lia|done]. }
  rewrite !fmap_cons. remember (f (k, v)) as e eqn:Ee. clear Ee. destruct e as [k' v'].
  cbn [pages_loop fst snd] in *. subst v'. rewrite Hk.
  change (Z.of_nat (length k') + Z.of_nat (length v)) with (entry_bytes (k', v)).
  pose proof (page_entry_bytes_nonneg (k', v)) as He.
  pose proof (zsum_nonneg entry_bytes page ltac:(apply Forall_forall; intros; apply page_entry_bytes_nonneg)) as Hp.
  assert (zsum entry_bytes [(k', v)] = entry_bytes (k', v)) as H1 by (unfold zsum; cbn; lia).
  rewrite checked_in by (unfold MAX_SCAN_PAGE_BYTES in *; rlia).
  rewrite (proj2 (Z.ltb_ge maxb _)) by done.
  replace (saturating_add usize_max (zsum entry_bytes page) (entry_bytes (k', v)))
    with (zsum entry_bytes (page ++ [(k', v)]))
    by (rewrite zsum_snoc; unfold MAX_SCAN_PAGE_BYTES in *; rlia).
  destruct (negb _ && _) eqn:Efull.
  - replace (saturating_add usize_max 0 (entry_bytes (k', v))) with (zsum entry_bytes [(k', v)])
      by (rewrite H1; unfold MAX_SCAN_PAGE_BYTES in *; rlia).
    destruct (IH [(k', v)]) as (ps & -> & Hj & Hps); [done|lia|].
    exists (page :: ps). rewrite fmap_cons. split; [done|].
    change (mjoin (page :: ps)) with (page ++ mjoin ps). rewrite Hj. split; [done|]. constructor; [|done].
    split; [lia|done].
  - destruct (IH (page ++ [(k', v)])) as (ps & -> & Hj & Hps).
    + rewrite length_app. cbn [length]. lia.
    + destruct page as [|e page]; [cbn [app]; lia|]. assert (length (e :: page) <> 0)%nat by done. lia.
    + exists ps. split; [done|]. rewrite Hj, <-app_assoc. done.
Qed.

(** A stream without errors holds every entry. *)
Lemma pages_loop_all strip rows maxb (l : list (bytes * bytes)) page pb ps :
  pages_loop strip rows maxb (Ok <$> l) page pb = Ok <$> ps ->
  mjoin ps = page ++ (logical_entry strip <$> l) /\
  Forall (fun e => reader_key strip e.1 = Ok (logical_entry strip e).1) l.
Proof.
  revert page pb ps. induction l as [|[k v] l IH]; intros page pb ps E.
  { cbn in E. rewrite app_nil_r. split; [|done]. destruct page as [|e page]; [by destruct ps|].
    destruct ps as [|p [|? ?]]; [done| |done]. rewrite fmap_cons in E. injection E as <-. apply app_nil_r. }
  rewrite fmap_cons in E. cbn [pages_loop] in E.
  destruct (reader_key strip k) as [k'|e] eqn:Ek; [|by destruct ps].
  assert (logical_entry strip (k, v) = (k', v)) as El by (unfold logical_entry; cbn [fst snd]; by rewrite Ek).
  rewrite fmap_cons, El, Forall_cons, El. cbn [fst].
  destruct (checked _ _ _) as [eb|]; [|by destruct ps]. destruct (maxb <? eb); [by destruct ps|].
  destruct (negb _ && _).
  - destruct ps as [|p ps]; [done|]. rewrite fmap_cons in E. injection E as <- E.
    destruct (IH _ _ _ E) as [Hj Hf]. split; [|done]. change (mjoin (page :: ps)) with (page ++ mjoin ps). by rewrite Hj.
  - destruct (IH _ _ _ E) as [Hj Hf]. split; [|done]. by rewrite Hj, <-app_assoc.
Qed.

(** A scan that breaks off sends the pages of the complete scan up to there. *)
Lemma pages_loop_trunc strip rows maxb (l : list (bytes * bytes)) n e page pb :
  exists j e', pages_loop strip rows maxb ((Ok <$> take n l) ++ [Err e]) page pb
    = take j (pages_loop strip rows maxb (Ok <$> l) page pb) ++ [Err e'].
Proof.
  revert n page pb. induction l as [|[k v] l IH]; intros n page pb.
  { rewrite take_nil. by exists 0%nat, (storage_error e). }
  destruct n as [|n]; [by exists 0%nat, (storage_error e)|]. cbn [take]. rewrite !fmap_cons. cbn [app pages_loop].
  destruct (reader_key strip k) as [k'|e']; [|by exists 0%nat, e'].
  destruct (checked _ _ _) as [eb|]; [|by exists 0%nat, Unsupported]. destruct (maxb <? eb); [by exists 0%nat, Unsupported|].
  destruct (negb _ && _); [|apply IH].
  edestruct (IH n) as (j & e' & E). exists (S j), e'. rewrite E. done.
Qed.

(** What holds of every scanned entry holds of every entry of a page. *)
Lemma pages_loop_Forall (P : bytes * bytes -> Prop) strip rows maxb
    (items : list (result SlateError (bytes * bytes))) page pb ps :
  (forall k v k', Ok (k, v) ∈ items -> reader_key strip k = Ok k' -> P (k', v)) ->
  Forall P page -> Ok ps ∈ pages_loop strip rows maxb items page pb -> Forall P ps.
Proof.
  revert page pb. induction items as [|[[k v]|e] items IH]; intros page pb Hi Hp Hin.
  - cbn in Hin. destruct (length page =? 0)%nat; [by apply not_elem_of_nil in Hin|].
    apply list_elem_of_singleton in Hin. by injection Hin as ->.
  - cbn [pages_loop] in Hin. destruct (reader_key strip k) as [k'|e] eqn:Ek; [|by apply list_elem_of_singleton in Hin].
    destruct (checked _ _ _) as [eb|]; [|by apply list_elem_of_singleton in Hin].
    destruct (maxb <? eb); [by apply list_elem_of_singleton in Hin|].
    assert (P (k', v)) as Hk by (apply (Hi k v); [left|done]).
    assert (forall k v k', Ok (k, v) ∈ items -> reader_key strip k = Ok k' -> P (k', v)) as Hi'
      by (intros k0 v0 k1 H1; apply (Hi k0 v0); by right).
    destruct (negb _ && _).
    + apply elem_of_cons in Hin as [E|Hin]; [by injection E as ->|]. eapply IH; [done| |exact Hin]. by constructor.
    + eapply IH; [done| |exact Hin]. apply Forall_app. split; [done|]. by constructor.
  - cbn in Hin. by apply list_elem_of_singleton in Hin.
Qed.
End pages.

(* ------------------------------------------------------------------ *)
(** ** A reader and its shard *)

(** The open handle of a shard knows what its storage says. *)
Definition marked `{SlateDb} (d : ShardDb) : Prop :=
  contents (db d) !! format_version_key = Some [format_version d] /\
  migration_pending d =
    ((format_version d =? 1) && bool_decide (is_Some (contents (db d) !! migration_progress_key V1 V2))).

Section marks.
Context `{SlateReader, !SlateDbLaws}.
Implicit Types (d : ShardDb) (r : ShardReader).

(** [r] reads the storage of [d] in its current state. *)
Record reads r d : Prop := {
  reads_contents : contents (reader r) = contents (db d);
  reads_format : reader_format r = format_version d;
  reads_pending : reader_pending r = migration_pending d;
  reads_range : format_version d = 1 \/ format_version d = 2;
  reads_pending_v1 : migration_pending d = true -> format_version d = 1
}.

Lemma shard_open_marked db0 range db1 d : shard_open db0 range = (db1, Ok d) -> db d = db1 /\ marked d.
Proof.
  intros Ho. unfold shard_open in Ho. destruct (read_format db0 range) as [db2 [fv|e]] eqn:Ef; [|done].
  assert (db2 = db1) as -> by (by injection Ho). injection Ho as Ho.
  assert (contents db1 !! format_version_key = Some [fv]) as Hm.
  { unfold read_format in Ef. destruct (slate_get db0 format_version_key) as [v|e] eqn:Eg; [|done].
    apply slate_get_spec in Eg. subst v.
    destruct (contents db0 !! format_version_key) as [[|stored [|? ?]]|] eqn:Em; [done| |done|].
    - destruct (negb _); [done|]. by injection Ef as <- <-.
    - unfold slate_put in Ef. destruct (slate_write _ _) as [dbw [[]|e]] eqn:Ew; [|done].
      destruct (slate_flush dbw) as [dbf [[]|e]] eqn:Efl; [|done]. injection Ef as <- <-.
      rewrite (slate_flush_spec _ _ _ Efl). apply slate_write_ok in Ew as ->; [|by repeat constructor].
      apply lookup_insert_eq. }
  destruct (fv =? 1) eqn:E1.
  - destruct (slate_get db1 (migration_progress_key V1 V2)) as [v|e] eqn:Eg; [|done].
    apply slate_get_spec in Eg. cbn [lift mbind result_bind] in Ho.
    destruct (slate_get db1 frontier_key) as [w|e]; [|done]. injection Ho as <-. split; [done|].
    split; [done|]. cbn. by rewrite E1, Eg.
  - cbn [lift mbind result_bind] in Ho. destruct (slate_get db1 frontier_key) as [w|e]; [|done]. injection Ho as <-.
    split; [done|]. split; [done|]. cbn. by rewrite E1.
Qed.

Lemma from_reader_reads d (rd : Db) r : marked d -> contents rd = contents (db d) ->
  from_reader rd v1_through_v2 = Ok r -> reads r d /\ reader r = rd.
Proof.
  intros [Hm Hp] Hc E. unfold from_reader in E.
  destruct (slate_get rd format_version_key) as [v|e] eqn:Eg; [|done]. apply slate_get_spec in Eg.
  rewrite Hc, Hm in Eg. subst v. cbn [lift mbind result_bind] in E.
  destruct (range_contains v1_through_v2 (format_version d)) eqn:Er; [|done]. cbn [negb] in E.
  assert (format_version d = 1 \/ format_version d = 2) as Hr.
  { unfold range_contains, v1_through_v2, V1, V2 in Er. cbn in Er. lia. }
  destruct (format_version d =? 1) eqn:E1; cbn [andb] in Hp.
  - destruct (slate_get rd (migration_progress_key V1 V2)) as [v|e] eqn:Eg; [|done]. apply slate_get_spec in Eg.
    rewrite Hc in Eg. cbn [lift mbind result_bind] in E. injection E as <-. split; [|done].
    constructor; cbn; [done|done|by rewrite Hp, Eg|done|intros; lia].
  - cbn [mbind result_bind] in E. injection E as <-. split; [|done].
    constructor; cbn; [done|done|done|done|congruence].
Qed.
End marks.

(* ------------------------------------------------------------------ *)
(** ** Pages when calls can fail *)

Section stream.
Context `{SlateReader, !SlateDbLaws}.
Implicit Types (d : ShardDb) (r : ShardReader).

Definition physical_prefix (strip : bool) (p : bytes) : bytes := if strip then format_v2_prefix p else p.

(** The pages of a complete scan of given contents. *)
Definition pages_of (m : gmap bytes bytes) (strip : bool) (p : bytes) (rows : nat) (maxb : Z)
    : list (result StorageError (list (bytes * bytes))) :=
  pages_loop strip rows maxb (Ok <$> MapStore.scan m (physical_prefix strip p) None) [] 0.

Definition good_budget (rows : nat) (maxb : Z) : Prop :=
  (1 <= rows <= MAX_SCAN_PAGE_ROWS)%nat /\ 1 <= maxb <= MAX_SCAN_PAGE_BYTES.

Lemma scan_pages_spec r p rows maxb : good_budget rows maxb ->
  scan_prefix_pages r p rows maxb = pages_of (contents (reader r)) (use_v2 r p) p rows maxb \/
  exists j e, scan_prefix_pages r p rows maxb
    = take j (pages_of (contents (reader r)) (use_v2 r p) p rows maxb) ++ [Err e].
Proof.
  intros [Hr Hb]. unfold scan_prefix_pages. replace (_ || _ || _ || _) with false by lia.
  destruct (slate_scan _ _ _) as [items|e] eqn:E; [|right; by exists 0%nat, (storage_error e)].
  apply slate_scan_spec in E as (l & Hl & E).
  unfold pages_of, physical_prefix. rewrite <-(scan_result_unique _ _ _ _ _ Hl (MapStore.scan_spec _ _ _)).
  destruct E as [->|(n & e & ->)]; [by left|right]. apply pages_loop_trunc.
Qed.

Lemma pages_of_all m strip p rows maxb ps : pages_of m strip p rows maxb = Ok <$> ps ->
  forall k v, (k, v) ∈ mjoin ps <-> m !! (physical_prefix strip k) = Some v /\ starts_with k p = true.
Proof.
  intros E k v. apply pages_loop_all in E as [-> Hf]. cbn [app]. rewrite list_elem_of_fmap.
  destruct (MapStore.scan_spec m (physical_prefix strip p) None) as [_ Hs]. rewrite Forall_forall in Hf.
  unfold physical_prefix, format_v2_prefix, format_v2_key in *. split.
  - intros ([k0 v0] & Ee & Hin). specialize (Hf _ Hin). cbn [fst] in Hf. rewrite <-Ee in Hf. cbn [fst] in Hf.
    injection Ee as _ ->. apply Hs in Hin as [Hm Hst]. rewrite in_scan_None in Hst.
    destruct strip; cbn in Hf; [|by injection Hf as ->]. unfold v2_logical, logical_key_from_format_v2, ok_or in Hf.
    apply starts_with_spec in Hst as [s ->]. rewrite <-app_assoc, strip_prefix_app in Hf. injection Hf as <-.
    rewrite <-app_assoc in Hm. split; [done|]. apply starts_with_app.
  - intros [Hm Hst]. exists ((if strip then V2_KEY_MAGIC ++ k else k), v). split.
    + unfold logical_entry. cbn [fst snd]. destruct strip; [|done]. unfold reader_key, v2_logical, logical_key_from_format_v2.
      by rewrite strip_prefix_app.
    + apply Hs. split; [done|]. rewrite in_scan_None. destruct strip; [|done]. by rewrite starts_with_app_same.
Qed.

Lemma pages_of_entries m strip p rows maxb page : Ok page ∈ pages_of m strip p rows maxb ->
  Forall (fun e => m !! physical_prefix strip e.1 = Some e.2) page.
Proof.
  intros Hin. eapply pages_loop_Forall; [|by constructor|exact Hin]. intros k v k' Hi Hk. cbn [fst snd].
  apply list_elem_of_fmap in Hi as ([? ?] & [= <- <-] & Hi).
  apply MapStore.scan_spec in Hi as [Hm Hst]. rewrite in_scan_None in Hst. unfold physical_prefix, format_v2_prefix, format_v2_key in *.
  destruct strip; cbn in Hk; [|by injection Hk as <-]. apply starts_with_spec in Hst as [s ->].
  unfold v2_logical, logical_key_from_format_v2 in Hk. rewrite <-app_assoc, strip_prefix_app in Hk. injection Hk as <-.
  by rewrite <-app_assoc in Hm.
Qed.

Lemma scan_pages_all r p rows maxb ps : good_budget rows maxb -> scan_prefix_pages r p rows maxb = Ok <$> ps ->
  pages_of (contents (reader r)) (use_v2 r p) p rows maxb = Ok <$> ps.
Proof.
  intros Hb E. destruct (scan_pages_spec r p rows maxb Hb) as [E2|(j & e & E2)]; [congruence|]. exfalso.
  rewrite E in E2. assert (Err e ∈ (Ok <$> ps : list (result StorageError (list (bytes * bytes))))) as Hin
    by (rewrite E2; apply elem_of_app; right; by left).
  by apply list_elem_of_fmap in Hin as (? & ? & ?).
Qed.

(** What a complete stream of a bucket or operator prefix holds. *)
Lemma scan_pages_view r d p rows maxb ps : reads r d -> migration_pending d = false -> ordinary p ->
  good_budget rows maxb -> scan_prefix_pages r p rows maxb = Ok <$> ps ->
  forall k v, (k, v) ∈ mjoin ps <-> view d k = Some v /\ starts_with k p = true.
Proof.
  intros Hr Hp Ho Hb E k v. rewrite (pages_of_all _ _ _ _ _ _ (scan_pages_all _ _ _ _ _ Hb E)).
  assert (starts_with k p = true -> physical_prefix (use_v2 r p) k = physical_key d k) as Hk.
  { intros Hst. destruct (ordinary_extend _ _ Ho Hst) as [Hok Hmk]. rewrite physical_magic by done.
    unfold physical_prefix, use_v2, magic. rewrite (reads_format _ _ Hr), Hmk.
    destruct (reads_range _ _ Hr) as [-> | ->]; by destruct (is_meta p). }
  unfold view. rewrite (reads_contents _ _ Hr). split; intros [Hm Hst]; (split; [|done]); by rewrite Hk in * by done.
Qed.

Lemma scan_pages_prefix r p rows maxb page :
  Ok page ∈ scan_prefix_pages r p rows maxb -> Forall (fun e => starts_with e.1 p = true) page.
Proof.
  unfold scan_prefix_pages. destruct (_ || _ || _ || _); [by intros ?%list_elem_of_singleton|].
  destruct (slate_scan _ _ _) as [items|e] eqn:E; [|by intros ?%list_elem_of_singleton].
  intros Hin. eapply pages_loop_Forall; [|by constructor|exact Hin]. intros k v k' Hi Hk. cbn [fst].
  apply slate_scan_spec in E as (l & [_ Hl] & E).
  assert ((k, v) ∈ l) as Hkv.
  { destruct E as [->|(n & e & ->)].
    - apply list_elem_of_fmap in Hi as ([? ?] & [= <- <-] & ?). done.
    - apply elem_of_app in Hi as [Hi|Hi]; [|by apply list_elem_of_singleton in Hi].
      apply list_elem_of_fmap in Hi as ([? ?] & [= <- <-] & Hi). by apply elem_of_take in Hi as (i & Hi%list_elem_of_lookup_2 & _). }
  apply Hl in Hkv as [_ Hst]. rewrite in_scan_None in Hst. destruct (use_v2 r p); cbn in Hk; [|by injection Hk as <-].
  apply starts_with_spec in Hst as [s ->]. unfold format_v2_prefix, format_v2_key, v2_logical, logical_key_from_format_v2 in Hk.
  rewrite <-app_assoc, strip_prefix_app in Hk. injection Hk as <-. apply starts_with_app.
Qed.
End stream.

Section agreement.
Context `{SlateReader, !SlateDbLaws, !SlateDbUp, !SlateReaderLaws, !SlateReaderUp}.
Implicit Types (d : ShardDb) (r : ShardReader).

Lemma slate_get_contents (db : Db) k : slate_get db k = Ok (contents db !! k).
Proof. destruct (up_get db k) as [v E]. rewrite E. by apply slate_get_spec in E as ->. Qed.

Lemma slate_scan_same (db1 db2 : Db) p : contents db1 = contents db2 ->
  slate_scan db1 p None = slate_scan db2 p None.
Proof.
  intros E. destruct (up_scan_exact db1 p None) as (l1 & -> & S1), (up_scan_exact db2 p None) as (l2 & -> & S2).
  rewrite E in S1. by rewrite (scan_result_unique _ _ _ _ _ S1 S2).
Qed.

Lemma reader_get_agrees r d k : reads r d -> reader_get r k = read_value d k.
Proof.
  intros [Hc Hf Hp Hr Hp1]. unfold reader_get, read_value, physical_key. rewrite Hf, Hp.
  destruct (migration_pending d); cbn [andb].
  - rewrite (Hp1 eq_refl). cbn [Z.eqb andb Pos.eqb]. rewrite !slate_get_contents, Hc. done.
  - rewrite !slate_get_contents, Hc. by destruct Hr as [-> | ->].
Qed.

Lemma use_v2_strips r d p : reads r d -> use_v2 r p = strips d p.
Proof. intros [Hc Hf _ Hr _]. unfold use_v2, strips. rewrite Hf. by destruct Hr as [-> | ->]. Qed.

Lemma versioned_reads d p : format_version d = 1 \/ format_version d = 2 ->
  versioned d (strips d p) p = if strips d p then format_v2_prefix p else p.
Proof. unfold versioned, format_v2_prefix. intros [-> | ->]; by destruct (strips d p). Qed.

Lemma unversioned_reads d b : format_version d = 1 \/ format_version d = 2 -> unversioned d b = reader_key b.
Proof. unfold unversioned, reader_key, v2_logical. intros [-> | ->]; by destruct b. Qed.

Lemma reader_unmigrated_agrees r d items : reads r d -> reader_unmigrated r items = unmigrated d items.
Proof.
  intros Hr. induction items as [|item items IH]; [done|]. cbn [reader_unmigrated unmigrated].
  destruct item as [[k v]|e]; [|done]. cbn [lift mbind result_bind].
  by rewrite !slate_get_contents, (reads_contents _ _ Hr), IH.
Qed.

Lemma reader_scan_agrees r d p : reads r d -> fail_scans d = false ->
  reader_scan_prefix r p = scan_prefix d p.
Proof.
  intros Hr Hf. pose proof Hr as [Hc _ Hp Hv _]. unfold reader_scan_prefix, scan_prefix. rewrite Hf, Hp.
  rewrite (use_v2_strips r d) by done.
  assert (forall b, (b = strips d p) -> reader_scan_physical r p b = scan_physical_prefix d p b) as Hphys.
  { intros b ->. unfold reader_scan_physical, scan_physical_prefix.
    rewrite versioned_reads, unversioned_reads by done. by rewrite (slate_scan_same _ _ _ Hc). }
  destruct (strips d p) eqn:Es; [by apply Hphys|]. destruct (migration_pending d && _) eqn:Em; [|by apply Hphys].
  unfold reader_scan_pending, scan_pending_prefix. rewrite !(slate_scan_same _ _ _ Hc).
  destruct (slate_scan (db d) p None); [|done]. cbn [lift mbind result_bind].
  by rewrite (reader_unmigrated_agrees r d).
Qed.

(** Opening reads the same marker as the shard did. *)
Lemma from_reader_agrees db0 range db1 d (rd : Db) :
  shard_open db0 range = (db1, Ok d) -> contents rd = contents db1 ->
  (format_version d = 1 \/ format_version d = 2 -> exists r, from_reader rd v1_through_v2 = Ok r /\ reads r d) /\
  (~ (1 <= format_version d <= 2) ->
     from_reader rd v1_through_v2 = Err (IncompatibleFormat (format_version d) 1 2)).
Proof.
  intros Ho Hc. destruct (shard_open_marked _ _ _ _ Ho) as [<- [Hm Hp]].
  assert (from_reader rd v1_through_v2 =
    if negb (range_contains v1_through_v2 (format_version d)) then Err (IncompatibleFormat (format_version d) 1 2)
    else Ok {| reader := rd; reader_format := format_version d; reader_pending := migration_pending d |}) as E.
  { unfold from_reader. rewrite !slate_get_contents, Hc, Hm. cbn [lift mbind result_bind].
    destruct (negb _); [done|]. rewrite Hp. by destruct (format_version d =? 1). }
  rewrite E. split; intros Hfv.
  - replace (negb (range_contains v1_through_v2 (format_version d))) with false by (by destruct Hfv as [-> | ->]).
    eexists. split; [done|]. eapply (from_reader_reads d rd); [split; done|done|].
    rewrite E. by replace (negb (range_contains v1_through_v2 (format_version d))) with false by (by destruct Hfv as [-> | ->]).
  - replace (negb (range_contains v1_through_v2 (format_version d))) with true; [done|].
    unfold range_contains. cbn. unfold V1, V2. lia.
Qed.

Lemma collect_entries_inv strip (l L : list (bytes * bytes)) :
  collect_entries (reader_key strip) (Ok <$> l) = Ok L ->
  L = logical_entry strip <$> l /\
  Forall (fun e => reader_key strip e.1 = Ok (logical_entry strip e).1) l.
Proof.
  revert L. induction l as [|[k v] l IH]; intros L; [by intros [= <-]|]. rewrite fmap_cons.
  cbn [collect_entries lift mbind result_bind]. destruct (reader_key strip k) as [k'|e] eqn:Ek; [|done].
  cbn [mbind result_bind]. destruct (collect_entries _ _) as [L'|e]; [|done]. cbn [mbind result_bind].
  intros [= <-]. destruct (IH L' eq_refl) as [-> Hall]. rewrite fmap_cons.
  assert (logical_entry strip (k, v) = (k', v)) as E by (unfold logical_entry; cbn [fst snd]; by rewrite Ek).
  rewrite E. split; [done|]. constructor; [|done]. by rewrite E.
Qed.

Lemma append_bounded_spec res total k v budget : 0 <= total <= budget -> budget <= usize_max ->
  append_bounded_scan_entry res total k v budget =
  if budget <? total + entry_bytes (k, v) then None else Some (res ++ [(k, v)], total + entry_bytes (k, v)).
Proof.
  intros Ht Hb. unfold append_bounded_scan_entry, entry_bytes. cbn [fst snd].
  destruct (checked 0 usize_max (total + _)) as [s|] eqn:E1; cbn [mbind option_bind].
  - apply checked_Some in E1 as [-> ?].
    destruct (checked 0 usize_max (_ + Z.of_nat (length v))) as [s2|] eqn:E2; cbn [mbind option_bind].
    + apply checked_Some in E2 as [-> ?]. rewrite Z.add_assoc; done.
    + apply checked_None in E2. by rewrite (proj2 (Z.ltb_lt _ _)) by lia.
  - apply checked_None in E1. by rewrite (proj2 (Z.ltb_lt _ _)) by lia.
Qed.

(** The streaming loop keeps everything or reports that it does not fit. *)
Lemma bounded_entries_spec skip key_of (sk : bytes -> bool) (f : bytes * bytes -> bytes * bytes) n l res :
  n <= usize_max -> zsum entry_bytes res <= n ->
  Forall (fun e => skip e.1 = Ok (sk e.1) /\ (sk e.1 = false -> key_of e.1 = Ok (f e).1 /\ e.2 = (f e).2)) l ->
  let L := res ++ (f <$> base.filter (fun e => sk e.1 = false) l) in
  bounded_entries skip key_of n (Ok <$> l) res (zsum entry_bytes res) =
  Ok (if zsum entry_bytes L <=? n then Some (L, zsum entry_bytes L) else None).
Proof.
  intros Hn. revert res. induction l as [|[k v] l IH]; intros res Hres Hl; cbn zeta.
  { cbn. rewrite app_nil_r. by rewrite (proj2 (Z.leb_le _ _)). }
  apply Forall_cons in Hl as [(Hsk & Hf) Hl]. rewrite fmap_cons. cbn [bounded_entries lift mbind result_bind fst snd] in *.
  rewrite Hsk. cbn [mbind result_bind]. rewrite filter_cons. cbn [fst].
  assert (forall res', 0 <= zsum entry_bytes res') as Hnn
    by (intros; apply zsum_nonneg, Forall_forall; intros; apply page_entry_bytes_nonneg).
  destruct (sk k) eqn:Es; [by apply IH|]. destruct Hf as [Hk Hv]; [done|].
  destruct (decide (false = false)); [|done]. rewrite fmap_cons.
  remember (f (k, v)) as e0 eqn:Ee. clear Ee. destruct e0 as [k' v']. cbn [fst snd] in *. subst v'.
  rewrite Hk. cbn [mbind result_bind]. rewrite append_bounded_spec by (specialize (Hnn res); lia).
  replace (zsum entry_bytes res + entry_bytes (k', v)) with (zsum entry_bytes (res ++ [(k', v)])) by (by rewrite zsum_snoc).
  set (X := f <$> base.filter _ l). replace (res ++ (k', v) :: X) with ((res ++ [(k', v)]) ++ X) by (by rewrite <-app_assoc).
  destruct (Z.ltb_spec n (zsum entry_bytes (res ++ [(k', v)]))) as [Hlt|Hle].
  - case_match eqn:E; [|done]. apply Z.leb_le in E. rewrite zsum_app in E.
    specialize (Hnn X). lia.
  - by apply IH.
Qed.

Lemma reader_unmigrated_filter r d (l : list (bytes * bytes)) : reads r d ->
  reader_unmigrated r (Ok <$> l) =
  Ok (base.filter (fun e => bool_decide (is_Some (contents (db d) !! format_v2_key e.1)) = false) l).
Proof.
  intros Hr. induction l as [|[k v] l IH]; [done|]. rewrite fmap_cons. cbn [reader_unmigrated lift mbind result_bind].
  rewrite slate_get_contents, (reads_contents _ _ Hr), IH. cbn [lift mbind result_bind]. rewrite filter_cons. cbn [fst].
  by destruct (contents (db d) !! format_v2_key k).
Qed.

Lemma sort_entries_zsum L : zsum entry_bytes (sort_entries L) = zsum entry_bytes L.
Proof. apply zsum_perm, merge_sort_Permutation. Qed.

Lemma bounded_physical r p n L strip : 0 <= n <= usize_max -> reader_scan_physical r p strip = Ok L ->
  (items ← lift (slate_scan (reader r) (if strip then format_v2_prefix p else p) None);
   all ← bounded_entries (fun _ => Ok false) (reader_key strip) n items [] 0;
   Ok (match all with None => ([], true) | Some (results, _) => (results, false) end))
  = Ok (if zsum entry_bytes L <=? n then (L, false) else ([], true)).
Proof.
  intros Hn E. unfold reader_scan_physical in E.
  destruct (up_scan (reader r) (if strip then format_v2_prefix p else p) None) as [l El]. rewrite El in E |- *.
  cbn [lift mbind result_bind] in *. apply collect_entries_inv in E as [-> Hall].
  pose proof (bounded_entries_spec (fun _ => Ok false) (reader_key strip) (fun _ => false)
    (logical_entry strip) n l []) as Hb. cbn zeta in Hb. change (zsum entry_bytes []) with 0 in Hb.
  rewrite Hb; [|lia|lia|eapply Forall_impl; [exact Hall|]; intros e He; split; [done|]; intros _; split; [exact He|done]].
  rewrite list_filter_all by done. cbn [app mbind result_bind].
  by destruct (zsum entry_bytes (logical_entry strip <$> l) <=? n).
Qed.

(** Bounded scans: all entries, or none. *)
Lemma reader_bounded_agrees r d p n L : reads r d -> fail_scans d = false -> 0 <= n <= usize_max ->
  scan_prefix d p = Ok L ->
  reader_scan_prefix_bounded r p n = Ok (if zsum entry_bytes L <=? n then (L, false) else ([], true)).
Proof.
  intros Hr Hf Hn HL. rewrite <-(reader_scan_agrees r d) in HL by done.
  unfold reader_scan_prefix_bounded. unfold reader_scan_prefix in HL.
  pose proof (fun strip => bounded_physical r p n L strip Hn) as Hphys.
  destruct (use_v2 r p) eqn:Eu; [rewrite andb_false_r; by apply Hphys|]. rewrite andb_true_r.
  destruct (reader_pending r && _); [|by apply Hphys]. unfold reader_scan_pending in HL.
  destruct (up_scan (reader r) p None) as [lo Elo], (up_scan (reader r) (format_v2_prefix p) None) as [ln Eln].
  rewrite Elo, Eln in HL |- *. cbn [lift mbind result_bind] in *.
  rewrite (reader_unmigrated_filter r d) in HL by done. cbn [mbind result_bind] in HL.
  change v2_logical with (reader_key true) in HL |- *.
  destruct (collect_entries (reader_key true) _) as [Ln|e] eqn:Ec in HL; [|done]. cbn [mbind result_bind] in HL.
  injection HL as <-. apply collect_entries_inv in Ec as [-> Hall]. rewrite sort_entries_zsum.
  set (Lo := base.filter _ lo). pose (sk k := bool_decide (is_Some (contents (db d) !! format_v2_key k))).
  pose proof (bounded_entries_spec (has_migrated_copy r) Ok sk Datatypes.id n lo []) as Hb. cbn zeta in Hb.
  change (zsum entry_bytes []) with 0 in Hb. rewrite Hb; [|lia|lia|].
  2:{ apply Forall_forall. intros e _. unfold has_migrated_copy. rewrite slate_get_contents, (reads_contents _ _ Hr). done. }
  rewrite list_fmap_id. cbn [app mbind result_bind].
  change (base.filter (fun e : bytes * bytes => sk e.1 = false) lo) with Lo. rewrite zsum_app.
  assert (0 <= zsum entry_bytes (logical_entry true <$> ln)) as Hnn
    by (apply zsum_nonneg, Forall_forall; intros; apply page_entry_bytes_nonneg).
  destruct (Z.leb_spec (zsum entry_bytes Lo) n) as [Hle|Hgt].
  2:{ by rewrite (proj2 (Z.leb_gt _ _)) by lia. }
  pose proof (bounded_entries_spec (fun _ => Ok false) (reader_key true) (fun _ => false)
    (logical_entry true) n ln Lo) as Hb2. cbn zeta in Hb2.
  rewrite Hb2; [|lia|lia|eapply Forall_impl; [exact Hall|]; intros e He; split; [done|]; intros _; split; [exact He|done]].
  rewrite list_filter_all by done. rewrite zsum_app. cbn [mbind result_bind].
  by destruct (zsum entry_bytes Lo + _ <=? n).
Qed.

(** Pages: the scan, cut at the budgets. *)
Lemma reader_pages_agree r d p rows maxb L : reads r d -> fail_scans d = false ->
  migration_pending d = false -> (1 <= rows <= MAX_SCAN_PAGE_ROWS)%nat -> 1 <= maxb <= MAX_SCAN_PAGE_BYTES ->
  scan_prefix d p = Ok L -> Forall (fun e => entry_bytes e <= maxb) L ->
  exists ps, scan_prefix_pages r p rows maxb = Ok <$> ps /\ mjoin ps = L /\ Forall (page_ok rows maxb) ps.
Proof.
  intros Hr Hf Hp Hrows Hmaxb HL Hsz. rewrite <-(reader_scan_agrees r d) in HL by done.
  unfold scan_prefix_pages. replace (_ || _ || _ || _) with false by lia.
  unfold reader_scan_prefix in HL. rewrite (reads_pending _ _ Hr), Hp in HL. cbn [andb] in HL.
  assert (reader_scan_physical r p (use_v2 r p) = Ok L) as E by (by destruct (use_v2 r p)).
  unfold reader_scan_physical in E.
  destruct (up_scan (reader r) (if use_v2 r p then format_v2_prefix p else p) None) as [l El].
  rewrite El in E |- *. cbn [lift mbind result_bind] in E. apply collect_entries_inv in E as [-> Hall].
  change 0 with (zsum entry_bytes []). apply (pages_loop_ok (use_v2 r p) rows maxb l (logical_entry (use_v2 r p)) []);
    [lia|lia| |cbn; lia|unfold zsum; cbn; lia].
  rewrite Forall_fmap, Forall_forall in Hsz. rewrite Forall_forall in Hall. apply Forall_forall. intros e He.
  split; [by apply Hall|]. split; [done|by apply Hsz].
Qed.

(** C25: A read-only reader shows what its shard shows.  A reader opened on the
    storage of a shard that has just been opened reads the same format and
    migration state when the format is 1 or 2, and is refused with the format
    named otherwise.  From then on, until the shard is written: point reads
    return what the shard reads and prefix scans return the same entries, also
    in the middle of a format migration; a bounded scan returns the complete
    scan when it fits the budget and nothing, marked truncated, when it does
    not; and with no migration pending the stream of pages is the scan cut into
    non-empty pages that respect both budgets, when each entry alone fits. *)
Theorem reader_shows_shard db0 range db1 d :
  shard_open db0 range = (db1, Ok d) ->
  (forall r, reader_open db1 = Ok r -> reads r d) /\
  (format_version d = 1 \/ format_version d = 2 -> exists r, reader_open db1 = Ok r) /\
  (~ (1 <= format_version d <= 2) -> reader_open db1 = Err (IncompatibleFormat (format_version d) 1 2)) /\
  (forall r d' p, reads r d' -> fail_scans d' = false ->
     (forall k, reader_get r k = read_value d' k) /\
     reader_scan_prefix r p = scan_prefix d' p /\
     forall L, scan_prefix d' p = Ok L ->
       (forall n, 0 <= n <= usize_max ->
          reader_scan_prefix_bounded r p n = Ok (if zsum entry_bytes L <=? n then (L, false) else ([], true))) /\
       (forall rows maxb, migration_pending d' = false ->
          (1 <= rows <= MAX_SCAN_PAGE_ROWS)%nat -> 1 <= maxb <= MAX_SCAN_PAGE_BYTES ->
          Forall (fun e => entry_bytes e <= maxb) L ->
          exists ps, scan_prefix_pages r p rows maxb = Ok <$> ps /\ mjoin ps = L /\
            Forall (page_ok rows maxb) ps)).
Proof.
  intros Ho. destruct (up_open_latest db1) as [rd Erd].
  destruct (from_reader_agrees _ _ _ _ rd Ho (open_latest_spec _ _ Erd)) as [Hin Hout].
  unfold reader_open, open_with_supported_format_range. rewrite Erd. cbn [lift mbind result_bind].
  split; [|split; [|split; [done|]]].
  - intros r Er. destruct (decide (1 <= format_version d <= 2)) as [Hv|Hv]; [|by rewrite Hout in Er].
    destruct Hin as (r' & Er' & Hr); [lia|]. rewrite Er' in Er. by injection Er as <-.
  - intros Hv. destruct (Hin Hv) as (r & -> & _). by exists r.
  - intros r d' p Hr Hf. split; [intros k; by apply reader_get_agrees|]. split; [by apply reader_scan_agrees|].
    intros L HL. split; [intros n Hn; by eapply reader_bounded_agrees|].
    intros rows maxb Hp Hn Hb Hsz. by eapply reader_pages_agree.
Qed.
End agreement.

(* ------------------------------------------------------------------ *)
(** ** A concrete engine with checkpoints *)

Module SnapStore.
(** The live contents and the checkpoints taken, numbered in order. *)
Record snap_db : Type := { live : gmap bytes bytes; taken : list (gmap bytes bytes) }.

#[export] Instance snap_store : SlateDb := {|
  Db := snap_db;
  SlateError := unit;
  is_fenced _ := false;
  contents d := live d;
  slate_get d k := Ok (live d !! k);
  slate_write d ops := ({| live := apply_ops (live d) ops; taken := taken d |}, Ok tt);
  slate_flush d := (d, Ok tt);
  slate_scan d p after := Ok (Ok <$> MapStore.scan (live d) p after)
|}.

#[export] Instance snap_reader : SlateReader := {|
  Uuid := nat;
  parse_str b := match b with [n] => Some (Z.to_nat n) | _ => None end;
  uuid_string n := [Z.of_nat n];
  snapshot_of d n := taken d !! n;
  open_latest d := Ok {| live := live d; taken := [] |};
  open_checkpoint d n := match taken d !! n with Some m => Ok {| live := m; taken := [] |} | None => Err tt end;
  slate_checkpoint d :=
    ({| live := live d; taken := taken d ++ [live d] |}, Ok (Z.of_nat (length (taken d)), length (taken d)))
|}.

#[export] Instance snap_store_laws : SlateDbLaws.
Proof.
  split; simpl.
  - by intros db k v [= <-].
  - by intros db ops db' _ [= <-].
  - done.
  - by intros db db' r [= <- _].
  - intros db p after items [= <-]. exists (MapStore.scan (live db) p after). split; [apply MapStore.scan_spec|by left].
Qed.

#[export] Instance snap_store_up : SlateDbUp.
Proof. split; simpl; eauto. Qed.

#[export] Instance snap_reader_laws : SlateReaderLaws.
Proof.
  split; simpl.
  - intros u. by rewrite Nat2Z.id.
  - by intros db r [= <-].
  - intros db u r. destruct (taken db !! u); [|done]. by intros [= <-].
  - intros db db' r [= <- <-]. split; [done|]. split; [|by apply list_lookup_middle].
    intros u m Hu. by apply lookup_app_l_Some.
  - by intros db ops db' r [= <- _] u m.
  - by intros db db' r [= <- _] u m.
Qed.

#[export] Instance snap_reader_up : SlateReaderUp.
Proof. split; simpl; eauto. intros db u m ->. eauto. Qed.
End SnapStore.
Import SnapStore.

Definition blank_db : @Db snap_store := {| live := ∅; taken := [] |}.

Lemma reader_shows_shard_witness :
  exists db1 d, shard_open blank_db v1_only = (db1, Ok d) /\ forall r, reader_open db1 = Ok r -> reads r d.
Proof.
  eexists _, _. split; [reflexivity|]. eapply (reader_shows_shard blank_db v1_only). reflexivity.
Defined.

(** While a format migration is pending the stream of pages, unlike the scans,
    does not show the rows that have been migrated. *)
Definition half_migrated : @Db snap_store :=
  {| live := <[format_v2_key [1; 7] := [10]]> (<[migration_progress_key V1 V2 := be_bytes 8 1]>
       (<[format_version_key := [1]]> ∅)); taken := [] |}.

Lemma pages_skip_migrated_rows : exists r,
  reader_open half_migrated = Ok r /\ reader_scan_prefix r [1] = Ok [([1; 7], [10])] /\
  scan_prefix_pages r [1] 256 1048576 = [].
Proof. eexists. split; [reflexivity|]. split; vm_compute; reflexivity. Qed.
