(* ===== verification/Migration.v ===== *)
(** * Format migration ([rockstream-storage/src/format_migration.rs])

    The offline, resumable migration of one shard from storage format 1 to 2 and
    from 2 to 3: every data key is copied to its new physical key, verified and
    deleted, progress is recorded after each object, and the format marker is
    switched at the end.  The theorems follow the logical contents of the shard
    through complete, interrupted and resumed migrations. *)
From Stdlib Require Import Ascii String.
From stdpp Require Import base tactics list gmap numbers option fin_maps sorting.
From Stdlib Require Import ZArith Lia ZifyBool.
From S2P Require Import Prelude Kernels Laws MergeOps Keys Store ShardDb Paging.
Local Open Scope Z_scope.

Section migration.
Context `{SlateDb}.

Record FormatMigrationReport : Type := {
  report_from : StorageFormatVersion;
  report_to : StorageFormatVersion;
  objects_migrated : Z;
  already_complete : bool
}.

(** A write followed by a flush. *)
Definition write_flush (raw : Db) (ops : list BatchOp) : Db * result StorageError unit :=
  match slate_write raw ops with
  | (raw1, Err e) => (raw1, Err (storage_error e))
  | (raw1, Ok _) => let '(raw2, r) := slate_flush raw1 in (raw2, lift r)
  end.

Definition skips (to : StorageFormatVersion) (key : bytes) : bool :=
  negb (is_data_key key)
  || ((to =? V2) && is_format_v2_key key)
  || ((to =? V3) && is_format_v3_key key).

Definition new_key (to : StorageFormatVersion) (key : bytes) : bytes :=
  if to =? V3 then format_v3_key key else format_v2_key key.

(** Copy, verify, delete, record progress. *)
Definition migrate_object (raw : Db) (from to : StorageFormatVersion) (key value : bytes) (processed : Z)
    : Db * result StorageError unit :=
  match write_flush raw [Put (new_key to key) value] with
  | (raw1, Err e) => (raw1, Err e)
  | (raw1, Ok _) =>
      match slate_get raw1 (new_key to key) with
      | Err e => (raw1, Err (storage_error e))
      | Ok copied =>
          if negb (bool_decide (copied = Some value)) then (raw1, Err Unsupported)
          else
            match write_flush raw1 [Delete key] with
            | (raw2, Err e) => (raw2, Err e)
            | (raw2, Ok _) =>
                write_flush raw2 [Put (migration_progress_key from to) (be_bytes 8 (processed + 1))]
            end
      end
  end.

Fixpoint migrate_loop (raw : Db) (from to : StorageFormatVersion) (fail_after_objects : option Z)
    (items : list (result SlateError (bytes * bytes))) (processed : Z) : Db * result StorageError Z :=
  match items with
  | [] => (raw, Ok processed)
  | Err e :: _ => (raw, Err (storage_error e))
  | Ok (key, value) :: rest =>
      if skips to key then migrate_loop raw from to fail_after_objects rest processed
      else if match fail_after_objects with Some limit => limit <=? processed | None => false end
      then (raw, Err (MigrationInterrupted processed))
      else
        match migrate_object raw from to key value processed with
        | (raw', Err e) => (raw', Err e)
        | (raw', Ok _) => migrate_loop raw' from to fail_after_objects rest (processed + 1)
        end
  end.

Definition step_range (from to : StorageFormatVersion) : SupportedStorageFormatRange :=
  if (from =? V1) && (to =? V2) then v1_through_v2
  else if (from =? V2) && (to =? V3) then v2_through_v3
  else v1_through_v3.

(** Closing the engine at the end does not change its contents. *)
Definition migrate_shard_format_single_step (raw : Db) (from to : StorageFormatVersion)
    (fail_after_objects : option Z) : Db * result StorageError FormatMigrationReport :=
  match shard_open raw (step_range from to) with
  | (raw0, Err e) => (raw0, Err e)
  | (raw0, Ok d) =>
      match slate_get raw0 (migration_complete_key from to) with
      | Err e => (raw0, Err (storage_error e))
      | Ok (Some _) =>
          (raw0, Ok {| report_from := from; report_to := to; objects_migrated := 0;
                       already_complete := true |})
      | Ok None =>
          if negb (format_version d =? from) then
            (raw0, Err (IncompatibleFormat (format_version d) from from))
          else
            match slate_scan raw0 [] None with
            | Err e => (raw0, Err (storage_error e))
            | Ok items =>
                match migrate_loop raw0 from to fail_after_objects items 0 with
                | (raw1, Err e) => (raw1, Err e)
                | (raw1, Ok processed) =>
                    match write_flush raw1
                      [Put format_version_key [to]; Delete (migration_progress_key from to);
                       Put (migration_complete_key from to) (str_bytes "complete")] with
                    | (raw2, Err e) => (raw2, Err e)
                    | (raw2, Ok _) =>
                        (raw2, Ok {| report_from := from; report_to := to;
                                     objects_migrated := processed; already_complete := false |})
                    end
                end
            end
      end
  end.

Definition valid_step (from to : StorageFormatVersion) : bool :=
  ((from =? V1) && (to =? V2)) || ((from =? V2) && (to =? V3)) || ((from =? V1) && (to =? V3)).

Definition migrate_shard_format (raw : Db) (from to : StorageFormatVersion)
    (fail_after_objects : option Z) : Db * result StorageError FormatMigrationReport :=
  if negb (valid_step from to) then (raw, Err Unsupported)
  else if (from =? V1) && (to =? V3) then
    match migrate_shard_format_single_step raw V1 V2 fail_after_objects with
    | (raw1, Err e) => (raw1, Err e)
    | (raw1, Ok r1) =>
        match migrate_shard_format_single_step raw1 V2 V3 fail_after_objects with
        | (raw2, Err e) => (raw2, Err e)
        | (raw2, Ok r2) =>
            (raw2, Ok {| report_from := from; report_to := to;
                         objects_migrated := objects_migrated r1 + objects_migrated r2;
                         already_complete := already_complete r1 && already_complete r2 |})
        end
    end
  else migrate_shard_format_single_step raw from to fail_after_objects.
End migration.


(* ------------------------------------------------------------------ *)
(** ** The state of a migration *)

(** A single step between adjacent formats. *)
Definition adjacent (from to : Z) : Prop := (from = 1 /\ to = 2) \/ (from = 2 /\ to = 3).

Definition data_key (k : bytes) : Prop := ordinary k /\ is_meta k = false.

(** The physical key of a data key in a format. *)
Definition at_format (fv : Z) (k : bytes) : bytes := magic fv false ++ k.

(** The logical contents [L] are spread over the old and the new format: every
    data entry of the store is the value of its key, every key has an entry. *)
Record mixed (from to : Z) (m : gmap bytes bytes) (L : bytes -> option bytes) : Prop := {
  mixed_sound key v : m !! key = Some v -> is_meta key = false ->
    exists k, data_key k /\ L k = Some v /\ (key = at_format from k \/ key = at_format to k);
  mixed_complete k v : data_key k -> L k = Some v ->
    m !! at_format from k = Some v \/ m !! at_format to k = Some v
}.

Lemma data_key_cons k : data_key k -> exists b rest, k = b :: rest /\ b <> 255 /\ b <> 6.
Proof.
  intros [(b & rest & -> & Hb) Hm]. exists b, rest. split_and!; [done|done|].
  intros ->. unfold is_meta in Hm. by rewrite bool_decide_eq_true_2 in Hm.
Qed.

Lemma at_format_inj fv k k' : data_key k -> data_key k' -> at_format fv k = at_format fv k' -> k = k'.
Proof. intros _ _. unfold at_format. by apply app_inv_head. Qed.

Lemma at_format_disjoint from to k k' :
  adjacent from to -> data_key k -> data_key k' -> at_format from k <> at_format to k'.
Proof.
  intros Hadj (b & r & -> & Hb & _)%data_key_cons (b' & r' & -> & Hb' & _)%data_key_cons.
  destruct Hadj as [[-> ->]|[-> ->]]; unfold at_format, magic; cbn; intros [= E]; lia.
Qed.

Lemma at_format_not_meta fv k : data_key k -> is_meta (at_format fv k) = false.
Proof.
  intros (b & r & -> & Hb & Hb6)%data_key_cons. unfold is_meta. apply bool_decide_eq_false_2.
  unfold at_format, magic. repeat case_match; cbn; intros [= E]; lia.
Qed.

Lemma skips_new from to k : adjacent from to -> data_key k -> skips to (at_format to k) = true.
Proof.
  intros Hadj Hk. destruct Hadj as [[-> ->]|[-> ->]]; unfold skips, at_format; cbn;
    by rewrite ?orb_true_r.
Qed.

Lemma skips_old from to k : adjacent from to -> data_key k -> skips to (at_format from k) = false.
Proof.
  intros Hadj Hk. pose proof (at_format_not_meta from k Hk) as Hm. unfold skips.
  change (is_data_key (at_format from k)) with (negb (is_meta (at_format from k))).
  rewrite Hm. cbn [negb orb].
  destruct (data_key_cons k Hk) as (b & r & -> & Hb & _).
  destruct Hadj as [[-> ->]|[-> ->]]; unfold at_format, magic, is_format_v2_key, is_format_v3_key; cbn; [|done].
  by rewrite (proj2 (Z.eqb_neq b 255)).
Qed.

Lemma skips_meta to key : is_meta key = true -> skips to key = true.
Proof. unfold skips. change (is_data_key key) with (negb (is_meta key)). by intros ->. Qed.

Lemma new_key_at from to k : adjacent from to -> data_key k -> new_key to (at_format from k) = at_format to k.
Proof.
  intros Hadj Hk. destruct Hadj as [[-> ->]|[-> ->]]; [done|].
  change (format_v3_key (V2_KEY_MAGIC ++ k) = V3_KEY_MAGIC ++ k).
  unfold format_v3_key, logical_key_from_format_v2. by rewrite strip_prefix_app.
Qed.

Lemma physical_at_format `{SlateDb} d k : data_key k -> physical_key d k = at_format (format_version d) k.
Proof. intros [Ho Hm]. rewrite physical_magic by done. by rewrite Hm. Qed.

Lemma migration_keys from to : adjacent from to ->
  is_meta (migration_progress_key from to) = true /\ is_meta (migration_complete_key from to) = true /\
  migration_progress_key from to <> format_version_key /\
  migration_complete_key from to <> format_version_key /\
  migration_progress_key from to <> migration_complete_key from to.
Proof.
  intros [[-> ->]|[-> ->]]; split_and!; (vm_compute; reflexivity) || (vm_compute; discriminate).
Qed.

Section migration_lemmas.
Context `{SlateDbLaws, !SlateDbUp}.
Context (from to : Z) (Hadj : adjacent from to).

Lemma get_up db k : slate_get db k = Ok (contents db !! k).
Proof. destruct (up_get db k) as [v E]. rewrite E. by apply slate_get_spec in E as ->. Qed.

Lemma write_flush_up raw ops : point_writes ops ->
  exists raw', write_flush raw ops = (raw', Ok tt) /\ contents raw' = apply_ops (contents raw) ops.
Proof.
  intros Hp. unfold write_flush. destruct (up_write raw ops) as [raw1 E]. rewrite E.
  destruct (up_flush raw1) as [raw2 E2]. rewrite E2. exists raw2. split; [done|].
  apply slate_write_ok in E; [|done]. apply slate_flush_spec in E2. congruence.
Qed.

(** The effect of migrating one object. *)
Definition moved (m : gmap bytes bytes) (k v : bytes) (n : Z) : gmap bytes bytes :=
  <[migration_progress_key from to := be_bytes 8 (n + 1)]>
    (delete (at_format from k) (<[at_format to k := v]> m)).

Lemma migrate_object_up raw k v n : data_key k ->
  exists raw', migrate_object raw from to (at_format from k) v n = (raw', Ok tt) /\
    contents raw' = moved (contents raw) k v n.
Proof.
  intros Hk. unfold migrate_object. rewrite (new_key_at from to) by done.
  destruct (write_flush_up raw [Put (at_format to k) v]) as (raw1 & -> & E1); [by repeat constructor|].
  rewrite get_up, E1. cbn [apply_ops foldl apply_op]. rewrite lookup_insert_eq.
  rewrite bool_decide_eq_true_2 by done. cbn [negb].
  destruct (write_flush_up raw1 [Delete (at_format from k)]) as (raw2 & -> & E2); [by repeat constructor|].
  destruct (write_flush_up raw2 [Put (migration_progress_key from to) (be_bytes 8 (n + 1))])
    as (raw3 & -> & E3); [by repeat constructor|].
  exists raw3. split; [done|]. by rewrite E3, E2, E1.
Qed.

Lemma progress_not_data fv k : data_key k -> migration_progress_key from to <> at_format fv k.
Proof.
  intros Hk E. pose proof (at_format_not_meta fv k Hk) as Hm. rewrite <-E in Hm.
  by rewrite (proj1 (migration_keys from to Hadj)) in Hm.
Qed.

Lemma moved_new m k v n k' : data_key k -> data_key k' ->
  moved m k v n !! at_format to k' = if bool_decide (k = k') then Some v else m !! at_format to k'.
Proof.
  intros Hk Hk'. unfold moved. rewrite lookup_insert_ne by (by apply progress_not_data).
  rewrite lookup_delete_ne by (by apply at_format_disjoint). case_bool_decide as E.
  - subst. by rewrite lookup_insert_eq.
  - rewrite lookup_insert_ne; [done|]. intros Ek. by apply E, (at_format_inj to).
Qed.

Lemma moved_old m k v n k' : data_key k -> data_key k' ->
  moved m k v n !! at_format from k' = if bool_decide (k = k') then None else m !! at_format from k'.
Proof.
  intros Hk Hk'. unfold moved. rewrite lookup_insert_ne by (by apply progress_not_data).
  case_bool_decide as E.
  - subst. by rewrite lookup_delete_eq.
  - rewrite lookup_delete_ne by (intros Ek; by apply E, (at_format_inj from)).
    rewrite lookup_insert_ne; [done|]. intros Ek. by apply (at_format_disjoint from to k' k).
Qed.

Lemma moved_meta m k v n key : data_key k -> is_meta key = true ->
  key <> migration_progress_key from to -> moved m k v n !! key = m !! key.
Proof.
  intros Hk Hm Hp. unfold moved. rewrite lookup_insert_ne by done.
  rewrite lookup_delete_ne by (intros <-; by rewrite at_format_not_meta in Hm).
  rewrite lookup_insert_ne by (intros <-; by rewrite at_format_not_meta in Hm). done.
Qed.

Lemma mixed_moved m L k v n : mixed from to m L -> data_key k -> L k = Some v ->
  mixed from to (moved m k v n) L.
Proof.
  intros Hmix Hk HL. split.
  - intros key w Hkey Hm. unfold moved in Hkey.
    apply lookup_insert_Some in Hkey as [[<- _]|[_ Hkey]].
    { by rewrite (proj1 (migration_keys from to Hadj)) in Hm. }
    apply lookup_delete_Some in Hkey as [_ Hkey].
    apply lookup_insert_Some in Hkey as [[<- <-]|[_ Hkey]]; [by exists k; split_and!; [..|right]|].
    by apply (mixed_sound _ _ _ _ Hmix).
  - intros k' w Hk' HL'. rewrite moved_new, moved_old by done. case_bool_decide as E.
    + right. congruence.
    + by apply (mixed_complete _ _ _ _ Hmix).
Qed.

(** What a run of the loop does to the store. *)
Record loop_effect (m m' : gmap bytes bytes) (L : bytes -> option bytes) : Prop := {
  le_mixed : mixed from to m' L;
  le_meta key : is_meta key = true -> key <> migration_progress_key from to -> m' !! key = m !! key;
  le_old k : data_key k -> m !! at_format from k = None -> m' !! at_format from k = None;
  le_progress : is_Some (m' !! migration_progress_key from to) \/ m' = m
}.

Lemma loop_effect_refl m L : mixed from to m L -> loop_effect m m L.
Proof. intros. split; auto. Qed.

Lemma loop_effect_moved m m' L k v n :
  data_key k -> loop_effect (moved m k v n) m' L -> loop_effect m m' L.
Proof.
  intros Hk [Hmx Hmeta Hold Hprog]. split; [done| | |].
  - intros key Hm Hp. rewrite Hmeta by done. by apply moved_meta.
  - intros k' Hk' Hn. apply Hold; [done|]. rewrite moved_old by done. by case_bool_decide.
  - left. destruct Hprog as [Hprog| ->]; [done|]. unfold moved. rewrite lookup_insert_eq. by eexists.
Qed.

Definition snapshot_ok (l : list (bytes * bytes)) (L : bytes -> option bytes) : Prop :=
  Forall (fun e => skips to e.1 = true \/
    exists k, data_key k /\ e.1 = at_format from k /\ L k = Some e.2) l.

Lemma migrate_loop_up lim l raw n L :
  snapshot_ok l L -> mixed from to (contents raw) L ->
  exists raw' r, migrate_loop raw from to lim (Ok <$> l) n = (raw', r) /\
    loop_effect (contents raw) (contents raw') L /\
    match r with
    | Ok _ => forall k, data_key k -> at_format from k ∈ l.*1 -> contents raw' !! at_format from k = None
    | Err e => exists n', e = MigrationInterrupted n' /\ n <= n' /\ is_Some lim /\
        (contents raw' = contents raw \/ n < n')
    end.
Proof.
  intros Hl. revert raw n. induction Hl as [|[key v] l Hkey _ IH]; intros raw n Hmix.
  { exists raw, (Ok n). split; [done|]. split; [by apply loop_effect_refl|]. intros k _ Hin.
    by apply elem_of_nil in Hin. }
  rewrite fmap_cons. cbn [migrate_loop]. cbn [fst snd] in Hkey.
  destruct Hkey as [Hskip|(k & Hk & -> & HL)].
  - rewrite Hskip. destruct (IH raw n Hmix) as (raw' & r & -> & Heff & Hr).
    exists raw', r. split; [done|]. split; [done|]. destruct r as [n'|e]; [|done].
    intros k Hk [E|Hin]%elem_of_cons; [|by apply Hr]. cbn [fst] in E. subst key.
    by rewrite (skips_old from to) in Hskip.
  - rewrite (skips_old from to) by done.
    destruct (match lim with Some limit => limit <=? n | None => false end) eqn:Elim.
    { exists raw, (Err (MigrationInterrupted n)). split; [done|]. split; [by apply loop_effect_refl|].
      exists n. split_and!; [done|lia|by destruct lim|by left]. }
    destruct (migrate_object_up raw k v n Hk) as (raw1 & -> & E1).
    destruct (IH raw1 (n + 1)) as (raw' & r & -> & Heff & Hr); [rewrite E1; by apply mixed_moved|].
    rewrite E1 in Heff. exists raw', r. split; [done|]. split; [by eapply loop_effect_moved|].
    destruct r as [n'|e].
    + intros k' Hk' [E|Hin]%elem_of_cons; [|by apply Hr]. cbn [fst] in E.
      apply (at_format_inj from) in E as ->; [|done|done]. apply (le_old _ _ _ Heff); [done|].
      rewrite moved_old by done. by rewrite bool_decide_eq_true_2.
    + destruct Hr as (n' & -> & Hle & Hlim & _). exists n'. split_and!; [done|lia|done|right; lia].
Qed.

(** A shard before, between or after interrupted migration attempts. *)
Record resumable (raw : Db) (L : bytes -> option bytes) : Prop := {
  res_mixed : mixed from to (contents raw) L;
  res_marker : contents raw !! format_version_key = Some [from];
  res_incomplete : contents raw !! migration_complete_key from to = None;
  res_progress : is_Some (contents raw !! migration_progress_key from to) \/
    forall k, data_key k -> contents raw !! at_format to k = None
}.

Lemma shard_open_up raw range fv :
  contents raw !! format_version_key = Some [fv] -> range_contains range fv = true ->
  exists d, shard_open raw range = (raw, Ok d) /\ db d = raw /\ format_version d = fv /\
    migration_pending d =
      (fv =? 1) && bool_decide (is_Some (contents raw !! migration_progress_key V1 V2)) /\
    fail_writes d = false /\ fail_scans d = false /\ fail_flushes d = false.
Proof.
  intros Hfv Hr. unfold shard_open, read_format. rewrite get_up, Hfv, Hr. cbn [negb].
  rewrite !get_up. destruct (fv =? 1); cbn [lift mbind result_bind andb]; eexists; split_and!; done.
Qed.

Lemma snapshot_of_scan raw L l :
  mixed from to (contents raw) L -> scan_result (contents raw) [] None l -> snapshot_ok l L.
Proof.
  intros Hmix [_ He]. apply Forall_forall. intros [key v] Hin. cbn [fst snd].
  apply He in Hin as [Hkey _]. destruct (is_meta key) eqn:Em; [left; by apply skips_meta|].
  destruct (mixed_sound _ _ _ _ Hmix key v Hkey Em) as (k & Hk & HL & [->| ->]).
  - right. by exists k.
  - left. by apply (skips_new from to).
Qed.

(** Where the loop ran to the end, every key is in the new format. *)
Lemma loop_done raw raw' L l :
  mixed from to (contents raw) L -> scan_result (contents raw) [] None l ->
  loop_effect (contents raw) (contents raw') L ->
  (forall k, data_key k -> at_format from k ∈ l.*1 -> contents raw' !! at_format from k = None) ->
  forall k, data_key k -> contents raw' !! at_format from k = None /\ contents raw' !! at_format to k = L k.
Proof.
  intros Hmix [_ He] Heff Hdone k Hk.
  assert (contents raw' !! at_format from k = None) as Hold.
  { destruct (contents raw !! at_format from k) as [v|] eqn:E; [|by apply (le_old _ _ _ Heff)].
    apply Hdone; [done|]. apply list_elem_of_fmap. exists (at_format from k, v). split; [done|].
    apply He. split; [done|]. by destruct (at_format from k). }
  split; [done|]. destruct (contents raw' !! at_format to k) as [v|] eqn:E.
  - destruct (mixed_sound _ _ _ _ (le_mixed _ _ _ Heff) _ _ E) as (k' & Hk' & HL & [Ek|Ek]);
      [by apply at_format_not_meta|by apply eq_sym, at_format_disjoint in Ek|].
    apply at_format_inj in Ek as ->; [|done|done]. done.
  - destruct (L k) as [v|] eqn:EL; [|done].
    destruct (mixed_complete _ _ _ _ (le_mixed _ _ _ Heff) k v Hk EL); congruence.
Qed.

Lemma in_step_range : range_contains (step_range from to) from = true.
Proof. by destruct Hadj as [[-> ->]|[-> ->]]. Qed.

Lemma single_step_up raw L lim : resumable raw L ->
  exists raw' r, migrate_shard_format_single_step raw from to lim = (raw', r) /\
    match r with
    | Ok rep => already_complete rep = false /\ contents raw' !! format_version_key = Some [to] /\
        forall k, data_key k -> contents raw' !! at_format to k = L k
    | Err e => exists n, e = MigrationInterrupted n /\ is_Some lim /\ resumable raw' L
    end.
Proof.
  intros [Hmix Hmark Hinc Hprog]. destruct (migration_keys from to Hadj) as (Mp & Mc & N1 & N2 & N3).
  destruct (shard_open_up raw (step_range from to) from Hmark in_step_range) as (d & Ed & Hdb & Hfv & _).
  unfold migrate_shard_format_single_step. rewrite Ed, get_up, Hinc, Hfv, Z.eqb_refl. cbn [negb].
  destruct (up_scan_exact raw [] None) as (l & -> & Hl).
  destruct (migrate_loop_up lim l raw 0 L) as (raw1 & r & -> & Heff & Hr);
    [by eapply snapshot_of_scan|done|].
  destruct r as [n|e].
  - destruct (write_flush_up raw1 [Put format_version_key [to]; Delete (migration_progress_key from to);
      Put (migration_complete_key from to) (str_bytes "complete")]) as (raw2 & -> & E2); [by repeat constructor|].
    eexists _, _. split; [done|]. cbn [already_complete]. split; [done|]. rewrite E2.
    cbn [apply_ops foldl apply_op]. split.
    { rewrite lookup_insert_ne, lookup_delete_ne, lookup_insert_eq by done. done. }
    intros k Hk. pose proof (at_format_not_meta to k Hk) as Hm.
    rewrite lookup_insert_ne by (intros E; rewrite <-E in Hm; congruence).
    rewrite lookup_delete_ne by (intros E; rewrite <-E in Hm; congruence).
    rewrite lookup_insert_ne by (intros E; rewrite <-E in Hm; by vm_compute in Hm).
    by eapply (loop_done raw raw1 L l).
  - destruct Hr as (n' & -> & _ & Hlim & Hsame). eexists _, _. split; [done|]. exists n'.
    split; [done|]. split; [done|]. split.
    + apply (le_mixed _ _ _ Heff).
    + rewrite (le_meta _ _ _ Heff); [done|by vm_compute|done].
    + rewrite (le_meta _ _ _ Heff); [done|done|done].
    + destruct (le_progress _ _ _ Heff) as [Hp| ->]; [by left|done].
Qed.
End migration_lemmas.

(* ------------------------------------------------------------------ *)
(** ** Complete migrations *)

(** A shard that has not been migrated: its data keys are in one format. *)
Record clean `{SlateDb} (from to : Z) (raw : Db) : Prop := {
  clean_marker : contents raw !! format_version_key = Some [from];
  clean_incomplete : contents raw !! migration_complete_key from to = None;
  clean_progress : contents raw !! migration_progress_key from to = None;
  clean_keys key : is_Some (contents raw !! key) -> is_meta key = false ->
    exists k, data_key k /\ key = at_format from k
}.

(** A migration attempt that the interruption hook stopped. *)
Definition attempt `{SlateDb} (from to : Z) (raw raw' : Db) : Prop :=
  exists lim n, migrate_shard_format raw from to (Some lim) = (raw', Err (MigrationInterrupted n)).

Section migration_properties.
Context `{SlateDbLaws, !SlateDbUp}.
Context (from to : Z) (Hadj : adjacent from to).

Lemma migrate_single raw lim :
  migrate_shard_format raw from to lim = migrate_shard_format_single_step raw from to lim.
Proof. unfold migrate_shard_format. by destruct Hadj as [[-> ->]|[-> ->]]. Qed.

Lemma clean_resumable raw : clean from to raw ->
  resumable from to raw (fun k => contents raw !! at_format from k).
Proof.
  intros [Hm Hi Hp Hk]. split; [|done|done|right].
  - split; [|intros k v _ Hv; by left].
    intros key v Hkey Hmeta. destruct (Hk key) as (k & Hd & ->); [by eexists|done|].
    exists k. split_and!; [done|done|by left].
  - intros k Hd. destruct (contents raw !! at_format to k) as [v|] eqn:E; [|done].
    destruct (Hk (at_format to k)) as (k' & Hd' & Ek); [by eexists|by apply at_format_not_meta|].
    by apply eq_sym, at_format_disjoint in Ek.
Qed.

Lemma attempts_resumable raw raw' L :
  rtc (attempt from to) raw raw' -> resumable from to raw L -> resumable from to raw' L.
Proof.
  induction 1 as [|raw raw1 raw' (lim & n & E) _ IH]; intros Hres; [done|]. apply IH.
  rewrite migrate_single in E. destruct (single_step_up from to Hadj raw L (Some lim) Hres)
    as (raw2 & r & E2 & Hr). rewrite E in E2. simplify_eq. by destruct Hr as (_ & _ & _ & Hr).
Qed.
End migration_properties.

Lemma known_in_range from to : adjacent from to ->
  range_contains v1_through_v3 from = true /\ range_contains v1_through_v3 to = true.
Proof. by intros [[-> ->]|[-> ->]]. Qed.

(** C15: Format migration preserves the data of a shard and is resumable.  Take
    a shard in format 1 or 2 whose engine is up.  After any number of attempts
    interrupted at arbitrary objects, an uninterrupted migration to the next
    format completes; reopening the shard finds the new format, no pending
    migration, and under every data key exactly the value the shard had before
    the first attempt. *)
Theorem migration_preserves_data `{SlateDbLaws, !SlateDbUp} (from to : Z) (raw raw1 : Db) :
  adjacent from to -> clean from to raw -> rtc (attempt from to) raw raw1 ->
  exists d0 raw2 rep d,
    shard_open raw v1_through_v3 = (raw, Ok d0) /\
    migrate_shard_format raw1 from to None = (raw2, Ok rep) /\ already_complete rep = false /\
    shard_open raw2 v1_through_v3 = (raw2, Ok d) /\ format_version d = to /\ open_shard d /\
    forall k, data_key k -> view d k = view d0 k.
Proof.
  intros Hadj Hc Hat. destruct (known_in_range from to Hadj) as [Rf Rt].
  destruct (shard_open_up raw v1_through_v3 from (clean_marker _ _ _ Hc) Rf) as (d0 & E0 & Hdb0 & Hfv0 & _).
  pose proof (attempts_resumable from to Hadj raw raw1 _ Hat (clean_resumable from to Hadj raw Hc)) as Hres.
  destruct (single_step_up from to Hadj raw1 _ None Hres) as (raw2 & r & E2 & Hr).
  destruct r as [rep|e]; [|by destruct Hr as (n & _ & [? ?] & _)].
  destruct Hr as (Hrep & Hmark & Hdata).
  destruct (shard_open_up raw2 v1_through_v3 to Hmark Rt) as (d & E & Hdb & Hfv & Hpend & Hf1 & Hf2 & Hf3).
  exists d0, raw2, rep, d. rewrite migrate_single by done. split_and!; try done.
  - split; [|done]. rewrite Hpend. by destruct Hadj as [[_ ->]|[_ ->]].
  - intros k Hk. unfold view. rewrite !physical_at_format, Hfv, Hfv0, Hdb, Hdb0 by done. by apply Hdata.
Qed.

(* ------------------------------------------------------------------ *)
(** ** Reading a half-migrated shard *)

Section pending.
Context `{SlateDbLaws, !SlateDbUp}.

Lemma mixed_read (m : gmap bytes bytes) L k : mixed 1 2 m L -> data_key k ->
  opt_or (m !! at_format 2 k) (m !! at_format 1 k) = L k.
Proof.
  intros Hmix Hk.
  assert (forall fv v, (fv = 1 \/ fv = 2) -> m !! at_format fv k = Some v -> L k = Some v) as Hs.
  { intros fv v Hfv E. assert (adjacent 1 2) as Hadj by (by left).
    destruct (mixed_sound _ _ _ _ Hmix _ _ E) as (k' & Hk' & HL & Ek); [by apply at_format_not_meta|].
    assert (k = k') as ->; [|done].
    destruct Hfv as [-> | ->], Ek as [Ek|Ek];
      (by apply at_format_inj in Ek) || (exfalso; eapply at_format_disjoint; [done| | |done]; done)
      || (exfalso; symmetry in Ek; eapply at_format_disjoint; [done| | |done]; done). }
  destruct (m !! at_format 2 k) as [v|] eqn:E2; [symmetry; by apply (Hs 2); [right|]|]. cbn [opt_or].
  destruct (m !! at_format 1 k) as [v|] eqn:E1; [symmetry; by apply (Hs 1); [left|]|].
  destruct (L k) as [v|] eqn:EL; [|done]. destruct (mixed_complete _ _ _ _ Hmix k v Hk EL); congruence.
Qed.

Lemma resumable_read raw L k : resumable 1 2 raw L -> data_key k ->
  contents raw !! migration_progress_key 1 2 = None -> contents raw !! at_format 1 k = L k.
Proof.
  intros Hres Hk Hp. rewrite <-(mixed_read _ _ _ (res_mixed _ _ _ _ Hres) Hk).
  destruct (res_progress _ _ _ _ Hres) as [[? E]|E]; [congruence|]. by rewrite E.
Qed.

Lemma unmigrated_up d (l : list (bytes * bytes)) :
  unmigrated d (Ok <$> l) =
  Ok (base.filter (fun e => contents (db d) !! format_v2_key e.1 = None) l).
Proof.
  induction l as [|[k v] l IH]; [done|]. rewrite fmap_cons. cbn [unmigrated lift mbind result_bind].
  rewrite get_up. cbn [lift mbind result_bind]. rewrite IH. cbn [mbind result_bind].
  destruct (contents (db d) !! format_v2_key k) eqn:E;
    [rewrite filter_cons_False by (cbn [fst]; congruence)|rewrite filter_cons_True by done]; done.
Qed.

Lemma scan_pending_up d p L :
  mixed 1 2 (contents (db d)) L -> data_key p ->
  exists l, scan_pending_prefix d p = Ok l /\ StronglySorted key_lt l.*1 /\
    forall k v, (k, v) ∈ l <-> L k = Some v /\ starts_with k p = true.
Proof.
  intros Hmix [Hp Hpm]. unfold scan_pending_prefix.
  destruct (up_scan_exact (db d) p None) as (l1 & -> & Hs1 & He1). cbn [lift mbind result_bind].
  rewrite unmigrated_up. cbn [mbind result_bind].
  destruct (up_scan_exact (db d) (format_v2_prefix p) None) as (l2 & -> & Hl2). cbn [lift mbind result_bind].
  destruct (scan_result_unmagic _ V2_KEY_MAGIC p None l2 Hl2) as (Hs2 & He2 & Hk2).
  rewrite (collect_entries_all _ l2 (unmagic V2_KEY_MAGIC <$> l2)).
  2:{ apply Forall2_fmap_r, Forall_Forall2_diag. eapply Forall_impl; [exact Hk2|]. intros [k v] E. unfold unmagic. cbn [fst snd] in *.
      split; [|done]. rewrite E at 1. unfold v2_logical, logical_key_from_format_v2.
      by rewrite (strip_prefix_app V2_KEY_MAGIC). }
  cbn [mbind result_bind]. set (l1' := base.filter _ l1). set (l2' := unmagic _ <$> l2) in *.
  assert (forall k v, (k, v) ∈ l1' <->
    contents (db d) !! k = Some v /\ starts_with k p = true /\ contents (db d) !! format_v2_key k = None) as Hl1'.
  { intros k v. unfold l1'. rewrite list_elem_of_filter, He1, in_scan_None. cbn [fst]. tauto. }
  eexists. split; [done|]. unfold sort_entries. split.
  - apply sorted_entries_strict; [|apply StronglySorted_merge_sort; apply _].
    rewrite merge_sort_Permutation, fmap_app. apply NoDup_app. split_and!.
    + by apply NoDup_fmap_filter, sorted_NoDup.
    + intros k ([k1 v1] & -> & Hin1)%list_elem_of_fmap ([k2 v2] & Ek & Hin2)%list_elem_of_fmap.
      cbn in Ek. subst k2. apply Hl1' in Hin1 as (_ & _ & Hn). apply He2 in Hin2 as [Hn2 _].
      unfold format_v2_key in Hn. congruence.
    + by apply sorted_NoDup.
  - intros k v. rewrite merge_sort_Permutation, elem_of_app, Hl1', He2, in_scan_None.
    split.
    + intros Hor. assert (starts_with k p = true) as Hst by tauto. split; [|done].
      destruct (ordinary_extend _ _ Hp Hst) as [Ho Hm]. rewrite Hpm in Hm.
      rewrite <-(mixed_read _ _ k Hmix) by done. change (at_format 2 k) with (V2_KEY_MAGIC ++ k).
      change (at_format 1 k) with k. destruct Hor as [(E & _ & En)|[E _]].
      * unfold format_v2_key in En. by rewrite En.
      * by rewrite E.
    + intros [HL Hst]. destruct (ordinary_extend _ _ Hp Hst) as [Ho Hm]. rewrite Hpm in Hm.
      rewrite <-(mixed_read _ _ k Hmix) in HL by done. change (at_format 2 k) with (V2_KEY_MAGIC ++ k) in HL.
      change (at_format 1 k) with k in HL. unfold format_v2_key.
      destruct (contents (db d) !! (V2_KEY_MAGIC ++ k)) as [w|]; cbn in HL; [right|left]; done.
Qed.

(** A format-1 shard opened between migration attempts. *)
Record half_migrated (d : ShardDb) (L : bytes -> option bytes) : Prop := {
  hm_resumable : resumable 1 2 (db d) L;
  hm_format : format_version d = 1;
  hm_pending : migration_pending d = bool_decide (is_Some (contents (db d) !! migration_progress_key V1 V2));
  hm_up : fail_writes d = false /\ fail_scans d = false /\ fail_flushes d = false
}.

Lemma half_migrated_view d L k : half_migrated d L -> migration_pending d = false -> data_key k ->
  view d k = L k.
Proof.
  intros [Hres Hfv Hpend _] Hp Hk. unfold view. rewrite physical_at_format, Hfv by done.
  apply resumable_read; [done|done|]. rewrite Hpend in Hp.
  by apply bool_decide_eq_false, eq_None_not_Some in Hp.
Qed.

Lemma half_migrated_read d L k : half_migrated d L -> data_key k -> read_value d k = Ok (L k).
Proof.
  intros Hh Hk. unfold read_value. rewrite (proj2 Hk). cbn [negb]. rewrite andb_true_r.
  destruct (migration_pending d) eqn:Ep.
  - rewrite (hm_format _ _ Hh). change (1 =? 3) with false. cbv iota. rewrite !get_up. cbn [lift mbind result_bind].
    by rewrite <-(mixed_read _ _ k (res_mixed _ _ _ _ (hm_resumable _ _ Hh)) Hk).
  - rewrite get_up. cbn [lift]. f_equal. by apply half_migrated_view.
Qed.

Lemma half_migrated_scan d L p : half_migrated d L -> data_key p ->
  exists l, scan_prefix d p = Ok l /\ StronglySorted key_lt l.*1 /\
    forall k v, (k, v) ∈ l <-> L k = Some v /\ starts_with k p = true.
Proof.
  intros Hh Hp. destruct (hm_up _ _ Hh) as (Hw & Hs & Hf). destruct (migration_pending d) eqn:Ep.
  - destruct (scan_pending_up d p L) as (l & E & Hl); [apply Hh|done|].
    exists l. split; [|done]. unfold scan_prefix, strips.
    rewrite Hs, (hm_format _ _ Hh), Ep, (proj2 Hp). done.
  - destruct (scan_prefix_up d p) as [l E]; [apply Hp|by split_and!|].
    exists l. split; [done|]. destruct (scan_prefix_ok d p l (proj1 Hp) Ep E) as [Hso He].
    split; [done|]. intros k v. rewrite He. split; intros [Hv Hst];
      destruct (ordinary_extend _ _ (proj1 Hp) Hst) as [Ho Hm]; rewrite (proj2 Hp) in Hm;
      rewrite (half_migrated_view d L k) in * by done; done.
Qed.
End pending.

(** A shard whose 1→2 migration was interrupted stays readable and is
    protected from writers.  After any number of interrupted attempts the shard
    opens in format 1; every data key reads as it did before the migration, and
    a prefix scan returns exactly the original entries in key order, although
    part of them is stored under new keys; and once an object has been moved,
    puts, deletes and batches are refused. *)
Theorem interrupted_migration_readable `{SlateDbLaws, !SlateDbUp} (raw raw1 : Db) :
  clean 1 2 raw -> rtc (attempt 1 2) raw raw1 ->
  exists d0 d1,
    shard_open raw v1_through_v3 = (raw, Ok d0) /\ shard_open raw1 v1_through_v3 = (raw1, Ok d1) /\
    (forall k, data_key k -> get d1 k = Done (d1, Ok (view d0 k))) /\
    (forall p, data_key p -> exists l, scan_prefix d1 p = Ok l /\ StronglySorted key_lt l.*1 /\
       forall k v, (k, v) ∈ l <-> view d0 k = Some v /\ starts_with k p = true) /\
    ((exists k, data_key k /\ is_Some (contents raw1 !! format_v2_key k)) ->
     forall k v ops, put d1 k v = Done (d1, Err MigrationInProgress) /\
       shard_delete d1 k = (d1, Err MigrationInProgress) /\
       write_batch d1 ops = Done (d1, Err MigrationInProgress)).
Proof.
  intros Hc Hat. assert (adjacent 1 2) as Hadj by (by left).
  pose proof (attempts_resumable 1 2 Hadj raw raw1 _ Hat (clean_resumable 1 2 Hadj raw Hc)) as Hres.
  destruct (shard_open_up raw v1_through_v3 1 (clean_marker _ _ _ Hc) eq_refl) as (d0 & E0 & Hdb0 & Hfv0 & _).
  destruct (shard_open_up raw1 v1_through_v3 1 (res_marker _ _ _ _ Hres) eq_refl)
    as (d1 & E1 & Hdb1 & Hfv1 & Hpend & Hup).
  assert (half_migrated d1 (fun k => contents raw !! at_format 1 k)) as Hh by (by split; rewrite ?Hdb1).
  assert (forall k, data_key k -> view d0 k = contents raw !! at_format 1 k) as Hv0.
  { intros k Hk. unfold view. by rewrite physical_at_format, Hfv0, Hdb0. }
  exists d0, d1. split_and!; [done|done| | |].
  - intros k Hk. unfold get. rewrite (half_migrated_read d1 _ k Hh Hk), Hv0 by done.
    unfold observe_frontier. rewrite bool_decide_eq_false_2; [done|].
    intros ->. destruct Hk as [_ Hk]. by vm_compute in Hk.
  - intros p Hp. destruct (half_migrated_scan d1 _ p Hh Hp) as (l & E & Hs & He).
    exists l. split_and!; [done|done|]. intros k v. rewrite He. split; intros [Hv Hst];
      destruct (ordinary_extend _ _ (proj1 Hp) Hst) as [Ho Hm]; rewrite (proj2 Hp) in Hm;
      rewrite Hv0 in * by done; done.
  - intros (k0 & Hk0 & Hsome) k v ops. assert (migration_pending d1 = true) as Hm.
    { rewrite Hpend. change (1 =? 1) with true. apply bool_decide_eq_true_2.
      destruct (res_progress _ _ _ _ Hres) as [Hp|Hn]; [done|].
      destruct Hsome as [w E]. change (format_v2_key k0) with (at_format 2 k0) in E.
      rewrite Hn in E by done. done. }
    unfold put, shard_delete, write_batch. rewrite Hm. done.
Qed.

(* ------------------------------------------------------------------ *)
(** ** Concrete migrations *)

Import MapStore.

Definition two_keys (fv : Z) : @Db map_store :=
  (<[format_version_key := [fv]]> (<[at_format fv [1; 7] := [10]]> (<[at_format fv [1; 8] := [20]]> ∅))
    : gmap bytes bytes).

(** The store left by an attempt stopped after one object. *)
Definition after_one (from to : Z) : @Db map_store :=
  (migrate_shard_format (two_keys from) from to (Some 1)).1.

Lemma two_keys_interrupted from to : adjacent from to ->
  migrate_shard_format (two_keys from) from to (Some 1) = (after_one from to, Err (MigrationInterrupted 1)).
Proof.
  intros Hadj. rewrite (surjective_pairing (migrate_shard_format _ _ _ _)).
  apply pair_equal_spec. split; [done|]. destruct Hadj as [[-> ->]|[-> ->]]; vm_compute; reflexivity.
Qed.

(** C32: An interrupted 2→3 migration is not recognised when the shard is opened
    again: with two keys and a stop after the first object, the shard opens in
    format 2 as if nothing were pending, the key that was moved reads as absent
    although it had a value, and a batch of writes is accepted. *)
Theorem interrupted_2_3_migration_hides_keys :
  exists d0 d1 d2,
    shard_open (two_keys 2) v1_through_v3 = (two_keys 2, Ok d0) /\
    migrate_shard_format (two_keys 2) 2 3 (Some 1) = (after_one 2 3, Err (MigrationInterrupted 1)) /\
    shard_open (after_one 2 3) v1_through_v3 = (after_one 2 3, Ok d1) /\
    migration_pending d1 = false /\
    get d0 [1; 7] = Done (d0, Ok (Some [10])) /\ get d1 [1; 7] = Done (d1, Ok None) /\
    write_batch d1 [Put [1; 9] [30]] = Done (d2, Ok tt).
Proof.
  assert (Hm : contents (after_one 2 3) !! format_version_key = Some [2]) by (vm_compute; reflexivity).
  destruct (shard_open_up (two_keys 2) v1_through_v3 2 eq_refl eq_refl) as (d0 & E0 & Hd0 & Hf0 & Hp0 & _).
  destruct (shard_open_up (after_one 2 3) v1_through_v3 2 Hm eq_refl)
    as (d1 & E1 & Hd1 & Hf1 & Hp1 & Hfail).
  destruct (write_batch_up d1 [Put [1; 9] [30]]) as (d2 & E2 & _);
    [by split|by repeat constructor|].
  exists d0, d1, d2. split; [exact E0|]. split; [exact (two_keys_interrupted 2 3 (or_intror (conj eq_refl eq_refl)))|].
  split; [exact E1|]. split; [exact Hp1|]. split; [|split; [|exact E2]].
  - rewrite (get_ordinary d0 [1; 7] Hp0) by discriminate. unfold view, physical_key.
    rewrite Hd0, Hf0. reflexivity.
  - rewrite (get_ordinary d1 [1; 7] Hp1) by discriminate. unfold view, physical_key.
    rewrite Hd1, Hf1. do 3 f_equal.
Qed.

Lemma data_key_17 : data_key [1; 7].
Proof. split; [exists 1, [7]; split; [reflexivity|discriminate]|reflexivity]. Qed.

Lemma two_keys_clean from to : adjacent from to -> clean from to (two_keys from).
Proof.
  intros Hadj. assert (data_key [1; 8]) as H8
    by (split; [exists 1, [8]; split; [reflexivity|discriminate]|reflexivity]).
  split; [destruct Hadj as [[-> ->]|[-> ->]]; vm_compute; reflexivity..|].
  intros key [v Hv] Hm. unfold two_keys in Hv. cbn [contents map_store] in Hv.
  apply lookup_insert_Some in Hv as [[<- _]|[_ Hv]]; [by vm_compute in Hm|].
  apply lookup_insert_Some in Hv as [[<- _]|[_ Hv]]; [exists [1; 7]; split; [apply data_key_17|done]|].
  apply lookup_insert_Some in Hv as [[<- _]|[_ Hv]]; [by exists [1; 8]|]. by rewrite lookup_empty in Hv.
Qed.

Lemma after_one_attempt from to : adjacent from to -> rtc (attempt from to) (two_keys from) (after_one from to).
Proof.
  intros Hadj. apply rtc_once. exists 1, 1. exact (two_keys_interrupted from to Hadj).
Qed.

Lemma migration_preserves_data_witness :
  exists d0 raw2 rep d,
    shard_open (two_keys 2) v1_through_v3 = (two_keys 2, Ok d0) /\
    migrate_shard_format (after_one 2 3) 2 3 None = (raw2, Ok rep) /\
    shard_open raw2 v1_through_v3 = (raw2, Ok d) /\ view d [1; 7] = view d0 [1; 7].
Proof.
  assert (adjacent 2 3) as Hadj by (right; split; reflexivity).
  destruct (migration_preserves_data 2 3 (two_keys 2) (after_one 2 3) Hadj
    (two_keys_clean 2 3 Hadj) (after_one_attempt 2 3 Hadj))
    as (d0 & raw2 & rep & d & E0 & E1 & _ & E2 & _ & _ & Hv).
  exists d0, raw2, rep, d. split; [exact E0|]. split; [exact E1|]. split; [exact E2|].
  exact (Hv [1; 7] data_key_17).
Defined.

Lemma interrupted_migration_readable_witness :
  exists d0 d1, shard_open (after_one 1 2) v1_through_v3 = (after_one 1 2, Ok d1) /\
    get d1 [1; 7] = Done (d1, Ok (view d0 [1; 7])) /\
    put d1 [1; 7] [99] = Done (d1, Err MigrationInProgress).
Proof.
  assert (adjacent 1 2) as Hadj by (left; split; reflexivity).
  destruct (interrupted_migration_readable (two_keys 1) (after_one 1 2)
    (two_keys_clean 1 2 Hadj) (after_one_attempt 1 2 Hadj)) as (d0 & d1 & _ & E1 & Hg & _ & Hw).
  exists d0, d1. split; [exact E1|]. split; [exact (Hg [1; 7] data_key_17)|].
  apply Hw; [|exact []]. exists [1; 7]. split; [exact data_key_17|]. vm_compute. eexists. reflexivity.
Defined.
