(* ===== verification/Distinct.v ===== *)
(** * Distinct, Intersect and Except ([rockstream-ops/src/distinct.rs])

    The three incremental set operators with their arrangements; persistence is
    in [DistinctStore].  The specification is the batch
    query on the accumulated input: a row is in DISTINCT exactly when its total
    weight is positive, and INTERSECT/EXCEPT [ALL] are the usual minimum and
    truncated difference of the accumulated weights.  [Hash]Map iteration order
    is unspecified in Rust; [map_to_list] stands for it and no statement depends
    on the order. *)
From stdpp Require Import base tactics list gmap numbers option fin_maps.
From Stdlib Require Import ZArith Lia ZifyBool.
From S2P Require Import Prelude Kernels Progress ArrowZSets.
Local Open Scope Z_scope.

(** Rows are vectors of 64-bit integers. *)
Abbreviation vals := (list Z) (only parsing).

Definition row_key (r : vals) : bytes := concat (be_bytes 8 <$> r).

(* ------------------------------------------------------------------ *)
(** ** Row extraction and output *)

Section output.
Context `{ArrowOps}.

Definition extract_row_vals (b : RecordBatch) (row_idx : nat) : vals :=
  (fun col => match as_int64 col with Some a => nth row_idx a 0 | None => 0 end)
    <$> batch_columns b.

(** Aggregation by row key; [entry.0 += w] panics on overflow. *)
Fixpoint aggregate_rows (rows : list (vals * Z)) (agg : gmap bytes (Z * vals))
    : outcome (gmap bytes (Z * vals)) :=
  match rows with
  | [] => Done agg
  | (r, w) :: rest =>
      let entry := default (0, r) (agg !! row_key r) in
      s ← expect (checked_i64 (entry.1 + w));
      aggregate_rows rest (<[row_key r := (s, entry.2)]> agg)
  end.

(** The values of column [j]: one from every kept row that is long enough. *)
Definition build_column (kept : list (Z * vals)) (j : nat) : list Z :=
  omap (fun e : Z * vals => e.2 !! j) kept.

Definition build_output (s : Schema) (rows : list (vals * Z)) : outcome (result OpError ArrowZSet) :=
  match rows with
  | [] => z ← zset_empty s; Done (Ok z)
  | _ =>
      agg ← aggregate_rows rows ∅;
      let kept := base.filter (fun e : Z * vals => e.1 <> 0) (snd <$> map_to_list agg) in
      let ws := fst <$> kept in
      match ws with
      | [] => z ← zset_empty s; Done (Ok z)
      | _ =>
          let arrays := (fun j => int64_array (build_column kept j)) <$> seq 0 (num_fields s) in
          match batch_try_new s arrays with
          | Err e => Done (Err (OpArrow e))
          | Ok data => z ← zset_new data ws; Done (Ok z)
          end
      end
  end.

(** The weighted rows of a delta, as the operators' row loops read them; a
    weight index out of range panics. *)
Fixpoint delta_rows_from (z : ArrowZSet) (i n : nat) : outcome (list (Z * vals)) :=
  match n with
  | O => Done []
  | S n' =>
      w ← expect (weights z !! i);
      rest ← delta_rows_from z (S i) n';
      Done ((w, extract_row_vals (data z) i) :: rest)
  end.

Definition delta_rows (z : ArrowZSet) : outcome (list (Z * vals)) :=
  delta_rows_from z 0 (num_rows z).
End output.

(* ------------------------------------------------------------------ *)
(** ** DistinctOp *)

Record DistinctState : Type := {
  ds_entries : gmap bytes (Z * vals);
  ds_deleted : gmap bytes Z;
  ds_appended_deletions : gmap bytes Z;
  ds_deletion_generation : Z;
  ds_deleted_bytes : Z;
  ds_appended_deletion_bytes : Z;
  ds_state_bytes : Z
}.

Definition distinct_new : DistinctState := {|
  ds_entries := ∅; ds_deleted := ∅; ds_appended_deletions := ∅; ds_deletion_generation := 0;
  ds_deleted_bytes := 0; ds_appended_deletion_bytes := 0; ds_state_bytes := 0
|}.

Definition entry_count (st : DistinctState) : nat := size (ds_entries st).

Definition add_u64 (a b : Z) : outcome Z := expect (checked_u64 (a + b)).

Definition state_bytes (st : DistinctState) : outcome Z :=
  s ← add_u64 (ds_state_bytes st) (ds_deleted_bytes st);
  add_u64 s (ds_appended_deletion_bytes st).

Definition deletion_bytes (key : bytes) : Z := Z.of_nat (length key) + 8.
Definition entry_bytes (key : bytes) (r : vals) : Z :=
  Z.of_nat (length key) + 8 + Z.of_nat (length r) * 8.

(** The arrangement update of one row of non-zero weight. *)
Definition distinct_update (st : DistinctState) (key : bytes) (r : vals) (new_w : Z)
    : outcome DistinctState :=
  let is_new := negb (bool_decide (is_Some (ds_entries st !! key))) in
  if negb (new_w =? 0) then
    sb ← (if is_new then add_u64 (ds_state_bytes st) (entry_bytes key r)
          else Done (ds_state_bytes st));
    Done {| ds_entries := <[key := (new_w, r)]> (ds_entries st);
            ds_deleted := ds_deleted st;
            ds_appended_deletions := ds_appended_deletions st;
            ds_deletion_generation := ds_deletion_generation st;
            ds_deleted_bytes := ds_deleted_bytes st;
            ds_appended_deletion_bytes := ds_appended_deletion_bytes st;
            ds_state_bytes := sb |}
  else if negb is_new then
    let generation := as_u64 (ds_deletion_generation st + 1) in
    db ← (if bool_decide (is_Some (ds_deleted st !! key)) then Done (ds_deleted_bytes st)
          else add_u64 (ds_deleted_bytes st) (deletion_bytes key));
    Done {| ds_entries := delete key (ds_entries st);
            ds_deleted := <[key := generation]> (ds_deleted st);
            ds_appended_deletions := ds_appended_deletions st;
            ds_deletion_generation := generation;
            ds_deleted_bytes := db;
            ds_appended_deletion_bytes := ds_appended_deletion_bytes st;
            ds_state_bytes := saturating_sub (ds_state_bytes st) (entry_bytes key r) |}
  else Done st.

(** One iteration of the row loop: the new state and the emitted rows. *)
Definition distinct_row (st : DistinctState) (dw : Z) (r : vals)
    : outcome (DistinctState * list (vals * Z)) :=
  if dw =? 0 then Done (st, [])
  else
    let key := row_key r in
    let old_w := match ds_entries st !! key with Some (w, _) => w | None => 0 end in
    new_w ← expect (checked_i64 (old_w + dw));
    st' ← distinct_update st key r new_w;
    Done (st',
      if (old_w <=? 0) && (0 <? new_w) then [(r, 1)]
      else if (0 <? old_w) && (new_w <=? 0) then [(r, -1)]
      else []).

Fixpoint distinct_rows (st : DistinctState) (rows : list (Z * vals))
    : outcome (DistinctState * list (vals * Z)) :=
  match rows with
  | [] => Done (st, [])
  | (dw, r) :: rest =>
      '(st1, o1) ← distinct_row st dw r;
      '(st2, o2) ← distinct_rows st1 rest;
      Done (st2, o1 ++ o2)
  end.

Section distinct_op.
Context `{ArrowOps}.

Definition distinct_process_delta (s : Schema) (st : DistinctState) (delta : ArrowZSet)
    : outcome (DistinctState * result OpError ArrowZSet) :=
  if is_empty delta then z ← zset_empty s; Done (st, Ok z)
  else
    rows ← delta_rows delta;
    '(st', out_rows) ← distinct_rows st rows;
    out ← build_output s out_rows;
    Done (st', out).
End distinct_op.

(* ------------------------------------------------------------------ *)
(** ** Intersect and Except *)

Record DualArrangement : Type := {
  left : gmap bytes (Z * vals);
  right : gmap bytes (Z * vals)
}.

Definition dual_new : DualArrangement := {| left := ∅; right := ∅ |}.

Inductive Side : Type := SLeft | SRight.

Definition side_map (d : DualArrangement) (s : Side) : gmap bytes (Z * vals) :=
  match s with SLeft => left d | SRight => right d end.
Definition set_side (d : DualArrangement) (s : Side) (m : gmap bytes (Z * vals))
    : DualArrangement :=
  match s with
  | SLeft => {| left := m; right := right d |}
  | SRight => {| left := left d; right := m |}
  end.

Definition map_weight (m : gmap bytes (Z * vals)) (key : bytes) : Z :=
  match m !! key with Some (w, _) => w | None => 0 end.

Definition dual_apply (d : DualArrangement) (s : Side) (key : bytes) (r : vals) (delta : Z)
    : outcome (DualArrangement * (Z * Z)) :=
  let m := side_map d s in
  let old_w := map_weight m key in
  new_w ← expect (checked_i64 (old_w + delta));
  Done (set_side d s (if negb (new_w =? 0) then <[key := (new_w, r)]> m else delete key m),
        (old_w, new_w)).

Definition left_weight (d : DualArrangement) (key : bytes) : Z := map_weight (left d) key.
Definition right_weight (d : DualArrangement) (key : bytes) : Z := map_weight (right d) key.
Definition left_count (d : DualArrangement) : nat := size (left d).
Definition right_count (d : DualArrangement) : nat := size (right d).

Definition intersect_weight (lw rw : Z) (all : bool) : Z :=
  if all then Z.min (Z.max lw 0) (Z.max rw 0)
  else Z.min (if 0 <? lw then 1 else 0) (if 0 <? rw then 1 else 0).

Definition except_weight (lw rw : Z) (all : bool) : Z :=
  if all then Z.max (Z.max lw 0 - Z.max rw 0) 0
  else Z.max ((if 0 <? lw then 1 else 0) - (if 0 <? rw then 1 else 0)) 0.

(** One row of one side.  The two operators run the same loop with their own
    weight function [f]; [new_out - old_out] is [i64] subtraction. *)
Definition dual_row (f : Z -> Z -> bool -> Z) (all : bool) (d : DualArrangement) (s : Side)
    (dw : Z) (r : vals) : outcome (DualArrangement * list (vals * Z)) :=
  if dw =? 0 then Done (d, [])
  else
    let key := row_key r in
    let old_out := f (left_weight d key) (right_weight d key) all in
    '(d', _) ← dual_apply d s key r dw;
    let new_out := f (left_weight d' key) (right_weight d' key) all in
    diff ← expect (checked_i64 (new_out - old_out));
    Done (d', if negb (diff =? 0) then [(r, diff)] else []).

Fixpoint dual_rows (f : Z -> Z -> bool -> Z) (all : bool) (d : DualArrangement) (s : Side)
    (rows : list (Z * vals)) : outcome (DualArrangement * list (vals * Z)) :=
  match rows with
  | [] => Done (d, [])
  | (dw, r) :: rest =>
      '(d1, o1) ← dual_row f all d s dw r;
      '(d2, o2) ← dual_rows f all d1 s rest;
      Done (d2, o1 ++ o2)
  end.

Section dual_op.
Context `{ArrowOps}.

Definition dual_process_epoch (f : Z -> Z -> bool -> Z) (sch : Schema) (all : bool)
    (d : DualArrangement) (left_delta right_delta : ArrowZSet)
    : outcome (DualArrangement * result OpError ArrowZSet) :=
  lrows ← delta_rows left_delta;
  '(d1, o1) ← dual_rows f all d SLeft lrows;
  rrows ← delta_rows right_delta;
  '(d2, o2) ← dual_rows f all d1 SRight rrows;
  out ← build_output sch (o1 ++ o2);
  Done (d2, out).

Definition intersect_process_epoch := dual_process_epoch intersect_weight.
Definition except_process_epoch := dual_process_epoch except_weight.
End dual_op.

(* ------------------------------------------------------------------ *)
(** ** Weighted rows *)

Definition i64_row (r : vals) : Prop := Forall (fun v => in_i64 v) r.

(** The weight of a row in a list of weighted rows. *)
Definition wsum (l : list (Z * vals)) (r : vals) : Z :=
  foldr (fun e acc => (if bool_decide (e.2 = r) then e.1 else 0) + acc) 0 l.
Definition osum (l : list (vals * Z)) (r : vals) : Z :=
  foldr (fun e acc => (if bool_decide (e.1 = r) then e.2 else 0) + acc) 0 l.
Definition wabs (l : list (Z * vals)) : Z := foldr (fun e acc => Z.abs e.1 + acc) 0 l.
Definition oabs (l : list (vals * Z)) : Z := foldr (fun e acc => Z.abs e.2 + acc) 0 l.

Lemma wsum_app l k r : wsum (l ++ k) r = wsum l r + wsum k r.
Proof. induction l; simpl; lia. Qed.
Lemma osum_app l k r : osum (l ++ k) r = osum l r + osum k r.
Proof. induction l; simpl; lia. Qed.
Lemma wabs_app l k : wabs (l ++ k) = wabs l + wabs k.
Proof. induction l; simpl; lia. Qed.
Lemma oabs_app l k : oabs (l ++ k) = oabs l + oabs k.
Proof. induction l; simpl; lia. Qed.
Lemma wabs_nonneg l : 0 <= wabs l.
Proof. induction l; simpl; lia. Qed.
Lemma oabs_nonneg l : 0 <= oabs l.
Proof. induction l; simpl; lia. Qed.
Lemma wsum_abs l r : Z.abs (wsum l r) <= wabs l.
Proof. induction l as [|e l IH]; simpl; [lia|]. case_bool_decide; lia. Qed.
Lemma osum_abs l r : Z.abs (osum l r) <= oabs l.
Proof. induction l as [|e l IH]; simpl; [lia|]. case_bool_decide; lia. Qed.

Lemma be_bytes8_inj a b : in_i64 a -> in_i64 b -> be_bytes 8 a = be_bytes 8 b -> a = b.
Proof.
  intros Ha Hb E. apply (f_equal of_be) in E. rewrite !of_be_be_bytes in E.
  change (256 ^ Z.of_nat 8) with (2 ^ 64) in E.
  rewrite <-(as_i64_as_u64 a), <-(as_i64_as_u64 b) by done. unfold as_u64. by rewrite E.
Qed.

Lemma row_key_inj r r' : i64_row r -> i64_row r' -> row_key r = row_key r' -> r = r'.
Proof.
  intros Hr. revert r'. induction Hr as [|a r Ha Hr IH]; intros [|b r'] Hr' E; try done.
  inversion_clear Hr'. unfold row_key in *. rewrite !fmap_cons in E. cbn [concat] in E.
  apply app_inj_1 in E as [E1 E2]; [|by rewrite !length_be_bytes].
  f_equal; [by apply be_bytes8_inj|by apply IH].
Qed.

Lemma length_row_key r : length (row_key r) = (8 * length r)%nat.
Proof.
  unfold row_key. induction r as [|a r IH]; [done|].
  rewrite fmap_cons. cbn [concat]. rewrite length_app, length_be_bytes, IH. simpl. lia.
Qed.

(* ------------------------------------------------------------------ *)
(** ** Output batches *)

(** The aggregation map after [rows]: each row under its key with its sum. *)
Definition agg_inv (agg : gmap bytes (Z * vals)) (rows : list (vals * Z)) : Prop :=
  forall k e, agg !! k = Some e <->
    k = row_key e.2 /\ e.2 ∈ rows.*1 /\ e.1 = osum rows e.2.

Lemma osum_not_in rows r : r ∉ rows.*1 -> osum rows r = 0.
Proof.
  induction rows as [|[r' w] rows IH]; [done|]. rewrite fmap_cons, not_elem_of_cons. cbn [fst osum foldr].
  intros [Hne Hn]. fold (osum rows r). rewrite bool_decide_eq_false_2, IH by done. lia.
Qed.

Lemma aggregate_rows_inv rest pre agg :
  Forall (fun e => i64_row e.1) (pre ++ rest) -> oabs (pre ++ rest) <= i64_max ->
  agg_inv agg pre ->
  exists agg', aggregate_rows rest agg = Done agg' /\ agg_inv agg' (pre ++ rest).
Proof.
  revert pre agg. induction rest as [|[r w] rest IH]; intros pre agg Hr Hb Hinv; cbn [aggregate_rows].
  { rewrite app_nil_r. by exists agg. }
  assert (i64_row r) as Hri by (by apply Forall_app in Hr as [_ [? _]%List.Forall_cons_iff]).
  assert (default (0, r) (agg !! row_key r) = (osum pre r, r)) as ->.
  { destruct (agg !! row_key r) as [[w' r']|] eqn:E; simpl.
    - apply Hinv in E as (Ek & Hin & Ew). cbn [fst snd] in *.
      assert (r' = r) as ->; [|by rewrite Ew].
      apply row_key_inj; [|done|done]. apply Forall_app in Hr as [Hr _].
      apply list_elem_of_fmap in Hin as (e & -> & Hin). rewrite Forall_forall in Hr. by apply Hr.
    - rewrite osum_not_in; [done|]. intros Hin.
      assert (agg !! row_key r = Some (osum pre r, r)) by (by apply Hinv). congruence. }
  cbn [fst snd]. rewrite oabs_app in Hb. cbn [oabs foldr snd] in Hb. fold (oabs rest) in Hb.
  pose proof (osum_abs pre r). pose proof (oabs_nonneg rest).
  rewrite checked_in by rlia. cbn [expect mbind outcome_bind].
  rewrite (cons_middle (r, w) pre rest), app_assoc.
  apply IH; [by rewrite <-app_assoc| |].
  { rewrite <-app_assoc, oabs_app. cbn [app oabs foldr snd]. fold (oabs rest). lia. }
  intros k [w' r']. cbn [fst snd]. rewrite fmap_app, elem_of_app, osum_app. cbn [fmap list_fmap fst].
  rewrite list_elem_of_singleton. cbn [osum foldr fst snd].
  destruct (decide (row_key r = k)) as [<-|Hk].
  - rewrite lookup_insert_eq. split.
    + intros [= <- <-]. split_and!; [done|by right|]. rewrite bool_decide_eq_true_2 by done. lia.
    + intros (Ek & Hin & ->). assert (i64_row r') as Hr'.
      { destruct Hin as [Hin| ->]; [|done]. apply Forall_app in Hr as [Hr _].
        apply list_elem_of_fmap in Hin as (e & -> & Hin). rewrite Forall_forall in Hr. by apply Hr. }
      apply row_key_inj in Ek as <-; [|done|done].
      rewrite bool_decide_eq_true_2 by done. f_equal. f_equal. lia.
  - rewrite lookup_insert_ne, (Hinv k (w', r')) by done. cbn [fst snd].
    split; intros (-> & Hin & ->); (assert (r <> r') by (by intros ->));
      rewrite bool_decide_eq_false_2 by done.
    + split_and!; [done|by left|lia].
    + destruct Hin as [Hin| ->]; [|done]. split_and!; [done|done|lia].
Qed.

(** The kept rows of the aggregation carry the sums. *)
Definition kept_rows (agg : gmap bytes (Z * vals)) : list (Z * vals) :=
  base.filter (fun e : Z * vals => e.1 <> 0) (snd <$> map_to_list agg).

Lemma wsum_NoDup l r : NoDup l.*2 ->
  wsum l r = match list_find (fun e : Z * vals => e.2 = r) l with Some (_, e) => e.1 | None => 0 end.
Proof.
  induction l as [|[w r'] l IH]; [done|]. rewrite fmap_cons. cbn [snd]. intros [Hn Hd]%NoDup_cons.
  cbn [wsum foldr fst snd list_find]. fold (wsum l r). rewrite IH by done.
  destruct (decide (r' = r)) as [->|Hne].
  - rewrite bool_decide_eq_true_2 by done.
    destruct (list_find _ l) as [[i e]|] eqn:E; [|simpl; lia].
    apply list_find_Some in E as (E1 & E2 & _). destruct Hn. rewrite <-E2.
    apply list_elem_of_fmap. exists e. split; [done|]. by eapply list_elem_of_lookup_2.
  - rewrite bool_decide_eq_false_2 by done. by destruct (list_find _ l) as [[i e]|].
Qed.

Lemma kept_rows_NoDup agg rows : agg_inv agg rows -> NoDup (kept_rows agg).*2.
Proof.
  intros Hinv. unfold kept_rows.
  apply NoDup_fmap_filter.
  rewrite <-list_fmap_compose.
  apply (NoDup_fmap_1 row_key). rewrite <-list_fmap_compose.
  replace ((row_key ∘ (snd ∘ snd)) <$> map_to_list agg) with ((map_to_list agg).*1);
    [apply NoDup_fst_map_to_list|].
  apply list_fmap_ext. intros i [k e] Hi%list_elem_of_lookup_2%elem_of_map_to_list.
  by apply Hinv in Hi as [-> _].
Qed.

Lemma kept_rows_sum agg rows r : agg_inv agg rows -> wsum (kept_rows agg) r = osum rows r.
Proof.
  intros Hinv. rewrite wsum_NoDup by (by eapply kept_rows_NoDup).
  destruct (list_find _ _) as [[i e]|] eqn:E.
  - apply list_find_Some in E as (E1 & <- & _). apply list_elem_of_lookup_2 in E1.
    apply list_elem_of_filter in E1 as [_ ([k e'] & -> & Hin%elem_of_map_to_list)%list_elem_of_fmap].
    cbn [snd]. by apply Hinv in Hin as (_ & _ & Hw).
  - apply list_find_None in E. destruct (decide (osum rows r = 0)) as [->|Hne]; [done|].
    exfalso. assert (r ∈ rows.*1) as Hr.
    { destruct (decide (r ∈ rows.*1)); [done|]. by rewrite osum_not_in in Hne. }
    assert (agg !! row_key r = Some (osum rows r, r)) as Hl by (by apply Hinv).
    rewrite Forall_forall in E. apply (E (osum rows r, r)); [|done].
    apply list_elem_of_filter. split; [done|]. apply list_elem_of_fmap.
    exists (row_key r, (osum rows r, r)). split; [done|]. by apply elem_of_map_to_list.
Qed.

Lemma kept_rows_in agg rows e : agg_inv agg rows -> e ∈ kept_rows agg -> e.2 ∈ rows.*1 /\ e.1 <> 0.
Proof.
  intros Hinv [Hz ([k e'] & -> & Hin%elem_of_map_to_list)%list_elem_of_fmap]%list_elem_of_filter.
  apply Hinv in Hin. tauto.
Qed.

Lemma build_column_lookup kept n j i e :
  Forall (fun e : Z * vals => length e.2 = n) kept -> (j < n)%nat ->
  kept !! i = Some e -> build_column kept j !! i = e.2 !! j.
Proof.
  intros Hl Hj. revert i. induction Hl as [|e' kept He _ IH]; intros i Hi; [done|].
  unfold build_column. cbn [omap list_omap].
  destruct (lookup_lt_is_Some_2 (e'.2) j) as [x Hx]; [lia|]. rewrite Hx.
  destruct i as [|i]; [by simplify_eq/=|]. by apply IH.
Qed.

Lemma length_build_column kept n j :
  Forall (fun e : Z * vals => length e.2 = n) kept -> (j < n)%nat ->
  length (build_column kept j) = length kept.
Proof.
  intros Hl Hj. induction Hl as [|e' kept He _ IH]; [done|].
  unfold build_column in *. cbn [omap list_omap].
  destruct (lookup_lt_is_Some_2 (e'.2) j) as [x ->]; [lia|]. simpl. by rewrite IH.
Qed.

Section output_lemmas.
Context `{ArrowLaws}.

Lemma delta_rows_from_spec z l i :
  (forall j e, l !! j = Some e -> weights z !! (i + j)%nat = Some e.1 /\
     extract_row_vals (data z) (i + j) = e.2) ->
  delta_rows_from z i (length l) = Done l.
Proof.
  revert i. induction l as [|[w r] l IH]; intros i Hl; [done|]. cbn [length delta_rows_from].
  destruct (Hl 0%nat (w, r) eq_refl) as [Hw Hr]. rewrite Nat.add_0_r in *. rewrite Hw, Hr.
  cbn [expect mbind outcome_bind]. rewrite IH; [done|].
  intros j e Hj. replace (S i + j)%nat with (i + S j)%nat by lia. by apply Hl.
Qed.

Lemma zset_empty_ok s : (0 < num_fields s)%nat ->
  exists z, zset_empty s = Done z /\ delta_rows z = Done [] /\ aligned (data z) (weights z) = true.
Proof.
  intros Hn. destruct (empty_columns_ok s) as [Hc He].
  destruct (batch_try_new_ok s (empty_columns s) 0) as (b & Hb & Hcols & _ & Hr); [done| | |].
  - apply conforms_fields in Hc. intros E. rewrite E in Hc. simpl in Hc. lia.
  - eapply Forall_impl; [exact He|]. by intros c ->.
  - unfold zset_empty. rewrite Hb. cbn [expect_ok mbind outcome_bind]. unfold zset_try_new.
    assert (aligned b [] = true) as Ha by (by apply aligned_spec).
    rewrite Ha. cbn. eexists; split; [done|]. split; [|done].
    unfold delta_rows, num_rows. cbn [data]. by rewrite Hr.
Qed.

Lemma extract_built b s kept n i e :
  batch_columns b = (fun j => int64_array (build_column kept j)) <$> seq 0 n ->
  Forall (fun e : Z * vals => length e.2 = n /\ i64_row e.2) kept ->
  kept !! i = Some e -> num_fields s = n -> extract_row_vals b i = e.2.
Proof.
  intros Hc Hk Hi Hn. unfold extract_row_vals. rewrite Hc. apply list_eq. intros j.
  rewrite !list_lookup_fmap.
  assert (length e.2 = n /\ i64_row e.2) as [Hle He]
    by (rewrite Forall_forall in Hk; by eapply Hk, list_elem_of_lookup_2).
  destruct (decide (j < n)%nat) as [Hj|Hj].
  - rewrite lookup_seq_lt by done. simpl. rewrite as_int64_array.
    + destruct (lookup_lt_is_Some_2 e.2 j) as [x Hx]; [lia|]. rewrite Hx. f_equal.
      apply nth_lookup_Some. rewrite (build_column_lookup kept n j i e); [done| |done|done].
      eapply Forall_impl; [exact Hk|]. by intros ? [? ?].
    + unfold build_column. apply Forall_forall. intros v (e' & Hin & Hv)%list_elem_of_omap.
      rewrite Forall_forall in Hk. destruct (Hk e' Hin) as [_ Hr].
      by apply (Forall_lookup_1 _ _ _ _ Hr Hv).
  - rewrite lookup_seq_ge by lia. simpl. symmetry. apply lookup_ge_None. lia.
Qed.

(** What the callers rely on: emitted rows become an aligned batch whose rows
    are distinct, have non-zero weight, and carry the emitted sums. *)
Lemma build_output_spec s rows :
  int64_schema s -> (0 < num_fields s)%nat ->
  Forall (fun e : vals * Z => i64_row e.1 /\ length e.1 = num_fields s) rows -> oabs rows <= i64_max ->
  exists z l, build_output s rows = Done (Ok z) /\ aligned (data z) (weights z) = true /\
    delta_rows z = Done l /\ NoDup l.*2 /\ Forall (fun e : Z * vals => e.1 <> 0) l /\
    forall r, wsum l r = osum rows r.
Proof.
  intros Hs Hn Hr Hb. destruct (zset_empty_ok s Hn) as (z0 & Hz0 & Hd0 & Ha0).
  destruct rows as [|e0 rows0] eqn:Erows.
  { exists z0, []. cbn [build_output]. rewrite Hz0. split_and!; try done. constructor. }
  rewrite <-Erows in *. destruct (aggregate_rows_inv rows [] ∅) as (agg & Hagg & Hinv).
  { eapply Forall_impl; [exact Hr|]. by intros ? [? ?]. }
  { done. }
  { intros k e. rewrite lookup_empty. split; [done|]. intros (_ & Hin & _). by apply elem_of_nil in Hin. }
  cbn [app] in Hinv. unfold build_output. rewrite Erows, <-Erows, Hagg. cbn [mbind outcome_bind].
  fold (kept_rows agg).
  assert (Forall (fun e : Z * vals => length e.2 = num_fields s /\ i64_row e.2) (kept_rows agg)) as Hk.
  { apply Forall_forall. intros e He. apply (kept_rows_in agg rows) in He as [Hin _]; [|done].
    apply list_elem_of_fmap in Hin as (e' & -> & Hin). rewrite Forall_forall in Hr.
    specialize (Hr e' Hin). tauto. }
  pose proof (fun r => kept_rows_sum agg rows r Hinv) as Hsum.
  pose proof (kept_rows_NoDup agg rows Hinv) as Hnd.
  assert (Forall (fun e : Z * vals => e.1 <> 0) (kept_rows agg)) as Hnz.
  { apply Forall_forall. intros e He. apply (kept_rows_in agg rows) in He; tauto. }
  destruct (kept_rows agg) as [|k0 kept0] eqn:Ekept.
  { exists z0, []. cbn. rewrite Hz0. split_and!; try done. }
  rewrite <-Ekept in *. replace (fst <$> kept_rows agg) with (k0.1 :: (fst <$> kept0)) by (by rewrite Ekept).
  cbv match. set (kept := kept_rows agg) in *.
  destruct (batch_try_new_ok s ((fun j => int64_array (build_column kept j)) <$> seq 0 (num_fields s))
    (length kept)) as (b & Hbt & Hcols & _ & Hnr).
  { change (conforms s ((int64_array ∘ build_column kept) <$> seq 0 (num_fields s))).
    rewrite list_fmap_compose.
    apply int64_conforms; [done|]. by rewrite length_fmap, length_seq. }
  { intros E. apply (f_equal length) in E. rewrite length_fmap, length_seq in E. simpl in E. lia. }
  { apply Forall_fmap, Forall_forall. intros j Hj%elem_of_seq. cbn. rewrite cells_int64_array.
    apply (length_build_column kept (num_fields s)); [|lia]. eapply Forall_impl; [exact Hk|]. by intros ? [? ?]. }
  rewrite Hbt. replace (k0.1 :: (fst <$> kept0)) with (fst <$> kept) by (by rewrite Ekept).
  assert (aligned b (fst <$> kept) = true) as Ha by (apply aligned_spec; rewrite Hnr; symmetry; apply length_fmap).
  unfold zset_new, zset_try_new. rewrite Ha. cbn.
  eexists _, kept. split_and!; try done.
  unfold delta_rows, num_rows. cbn [data]. rewrite Hnr. apply delta_rows_from_spec.
  intros j e Hj. cbn [weights data]. rewrite Nat.add_0_l, list_lookup_fmap, Hj. split; [done|].
  by eapply (extract_built b s kept (num_fields s)).
Qed.
End output_lemmas.

(* ------------------------------------------------------------------ *)
(** ** Input batches *)

(** The weighted rows of a batch; total on aligned batches. *)
Definition rows_of `{ArrowOps} (z : ArrowZSet) : list (Z * vals) :=
  match delta_rows z with Done l => l | Panic => [] end.

Section input_lemmas.
Context `{ArrowLaws}.

Lemma extract_row_i64 b i : i64_row (extract_row_vals b i).
Proof.
  unfold i64_row, extract_row_vals. apply Forall_fmap, Forall_true. intros c. cbn.
  destruct (as_int64 c) as [a|] eqn:E; [|rlia].
  destruct (nth_in_or_default i a 0) as [Hin| ->]; [|rlia].
  apply as_int64_range in E. rewrite Forall_forall in E. apply E. by apply list_elem_of_In.
Qed.

Lemma delta_rows_from_ok z i n : (i + n <= length (weights z))%nat ->
  exists l, delta_rows_from z i n = Done l /\
    Forall (fun e => i64_row e.2 /\ length e.2 = length (batch_columns (data z))) l.
Proof.
  revert i. induction n as [|n IH]; intros i Hi; [exists []; by split|]. cbn [delta_rows_from].
  destruct (lookup_lt_is_Some_2 (weights z) i) as [w ->]; [lia|].
  destruct (IH (S i)) as (l & -> & Hl); [lia|]. cbn. eexists; split; [done|].
  constructor; [|done]. cbn. split; [apply extract_row_i64|].
  unfold extract_row_vals. by rewrite length_fmap.
Qed.

Lemma rows_of_ok s z : aligned (data z) (weights z) = true -> batch_schema (data z) = s ->
  delta_rows z = Done (rows_of z) /\
  Forall (fun e => i64_row e.2 /\ length e.2 = num_fields s) (rows_of z).
Proof.
  intros Ha Hs. apply aligned_spec in Ha. unfold rows_of, delta_rows, num_rows.
  destruct (delta_rows_from_ok z 0 (batch_num_rows (data z))) as (l & -> & Hl); [lia|].
  split; [done|]. rewrite <-Hs, <-(conforms_fields _ _ (batch_conforms (data z))). done.
Qed.
End input_lemmas.

(* ------------------------------------------------------------------ *)
(** ** The arrangement of DistinctOp *)

(** Membership in the distinct set. *)
Definition ind (w : Z) : Z := if 0 <? w then 1 else 0.

(** An upper bound of the bytes the rows of a history can occupy. *)
Definition row_cost (e : Z * vals) : Z := entry_bytes (row_key e.2) e.2.
Definition cost (l : list (Z * vals)) : Z := foldr (fun e acc => row_cost e + acc) 0 l.

Lemma cost_app l k : cost (l ++ k) = cost l + cost k.
Proof. induction l; simpl; lia. Qed.
Lemma row_cost_pos e : 8 <= row_cost e.
Proof. unfold row_cost, entry_bytes. lia. Qed.
Lemma cost_nonneg l : 0 <= cost l.
Proof. induction l as [|e l IH]; simpl; [lia|]. pose proof (row_cost_pos e). lia. Qed.

(** A map holds every row of non-zero weight of the history once, under its
    key. *)
Definition entries_rep (m : gmap bytes (Z * vals)) (hist : list (Z * vals)) : Prop :=
  forall k e, m !! k = Some e <-> k = row_key e.2 /\ i64_row e.2 /\ e.1 = wsum hist e.2 /\ e.1 <> 0.

(** The arrangement represents the history and the byte counters are the sums
    over their maps. *)
Record represents (st : DistinctState) (hist : list (Z * vals)) : Prop := {
  rep_entries : entries_rep (ds_entries st) hist;
  rep_state_bytes : ds_state_bytes st = map_sum (fun k e => entry_bytes k e.2) (ds_entries st);
  rep_deleted_bytes : ds_deleted_bytes st = map_sum (fun k _ => deletion_bytes k) (ds_deleted st);
  rep_budget : ds_state_bytes st <= cost hist /\ ds_deleted_bytes st <= cost hist
}.

Lemma entries_rep_empty : entries_rep ∅ [].
Proof. intros k e. rewrite lookup_empty. split; [done|]. intros (_ & _ & ? & ?). done. Qed.

Lemma represents_new : represents distinct_new [].
Proof. split; cbn; try done. apply entries_rep_empty. Qed.

Lemma entries_rep_old m hist r : entries_rep m hist -> i64_row r ->
  m !! row_key r = if wsum hist r =? 0 then None else Some (wsum hist r, r).
Proof.
  intros Hrep Hr. destruct (Z.eqb_spec (wsum hist r) 0) as [E|E].
  - destruct (m !! row_key r) as [[w r']|] eqn:El; [|done].
    apply Hrep in El as (Hk & Hr' & Hw & Hnz). cbn [fst snd] in *.
    apply row_key_inj in Hk as <-; [congruence|done|done].
  - by apply Hrep.
Qed.

Lemma entries_rep_weight m hist r : entries_rep m hist -> i64_row r ->
  map_weight m (row_key r) = wsum hist r.
Proof.
  intros Hrep Hr. unfold map_weight. rewrite (entries_rep_old _ _ _ Hrep Hr).
  by destruct (Z.eqb_spec (wsum hist r) 0).
Qed.

Lemma wsum_snoc hist dw r r' :
  wsum (hist ++ [(dw, r)]) r' = wsum hist r' + if bool_decide (r = r') then dw else 0.
Proof. rewrite wsum_app. cbn. lia. Qed.

(** The entry map after one update represents the extended history. *)
Lemma entries_rep_update m hist dw r :
  entries_rep m hist -> i64_row r ->
  entries_rep (if wsum hist r + dw =? 0 then delete (row_key r) m
    else <[row_key r := (wsum hist r + dw, r)]> m) (hist ++ [(dw, r)]).
Proof.
  intros Hrep Hr k [w r']. rewrite wsum_snoc. cbn [fst snd].
  destruct (decide (row_key r = k)) as [<-|Hk].
  - destruct (Z.eqb_spec (wsum hist r + dw) 0) as [E|E];
      [rewrite lookup_delete_eq|rewrite lookup_insert_eq]; split.
    + done.
    + intros (Ek & Hr' & Hw & Hnz). apply row_key_inj in Ek as <-; [|done|done].
      rewrite bool_decide_eq_true_2 in Hw by done. lia.
    + intros [= <- <-]. rewrite bool_decide_eq_true_2 by done. done.
    + intros (Ek & Hr' & Hw & Hnz). apply row_key_inj in Ek as <-; [|done|done].
      rewrite bool_decide_eq_true_2 in Hw by done. by rewrite Hw.
  - replace ((if _ =? 0 then _ else _) !! k) with (m !! k)
      by (destruct (_ =? 0); [by rewrite lookup_delete_ne|by rewrite lookup_insert_ne]).
    rewrite (Hrep k (w, r')). cbn [fst snd].
    split; intros (-> & Hr' & Hw & Hnz); (assert (r <> r') as Hne by (by intros ->));
      rewrite (bool_decide_eq_false_2 _ Hne) in *; split_and!; try done; lia.
Qed.

Lemma deletion_bytes_nonneg key : 0 <= deletion_bytes key.
Proof. unfold deletion_bytes. lia. Qed.

Lemma represents_bytes_nonneg st hist : represents st hist ->
  0 <= ds_state_bytes st /\ 0 <= ds_deleted_bytes st.
Proof.
  intros Hrep. rewrite (rep_state_bytes _ _ Hrep), (rep_deleted_bytes _ _ Hrep).
  split; apply map_sum_nonneg; intros; unfold entry_bytes, deletion_bytes; lia.
Qed.

Lemma cost_snoc hist dw r : cost (hist ++ [(dw, r)]) = cost hist + entry_bytes (row_key r) r.
Proof. rewrite cost_app. unfold cost at 2. simpl. unfold row_cost. simpl. lia. Qed.

Lemma state_bytes_delete st hist k e : represents st hist -> ds_entries st !! k = Some e ->
  saturating_sub (ds_state_bytes st) (entry_bytes k e.2)
  = map_sum (fun k e => entry_bytes k e.2) (delete k (ds_entries st)).
Proof.
  intros Hrep Hk. rewrite (rep_state_bytes _ _ Hrep), (map_sum_delete _ _ _ _ Hk).
  assert (0 <= map_sum (fun k e => entry_bytes k e.2) (delete k (ds_entries st)))
    by (apply map_sum_nonneg; intros; unfold entry_bytes; lia).
  unfold saturating_sub. lia.
Qed.

Lemma distinct_update_ok st hist dw r :
  represents st hist -> i64_row r -> dw <> 0 -> cost (hist ++ [(dw, r)]) <= u64_max ->
  exists st', distinct_update st (row_key r) r (wsum hist r + dw) = Done st' /\
    represents st' (hist ++ [(dw, r)]).
Proof.
  intros Hrep Hr Hdw Hc. pose proof (entries_rep_old _ _ r (rep_entries _ _ Hrep) Hr) as Hold.
  pose proof (represents_bytes_nonneg _ _ Hrep) as [Hp1 Hp2].
  destruct (rep_budget _ _ Hrep) as [Hb1 Hb2]. rewrite cost_snoc in Hc.
  assert (0 <= deletion_bytes (row_key r) <= entry_bytes (row_key r) r) as Hde
    by (unfold entry_bytes, deletion_bytes; lia).
  pose proof (entries_rep_update _ _ dw r (rep_entries _ _ Hrep) Hr) as Hent.
  unfold distinct_update. rewrite Hold. destruct (Z.eqb_spec (wsum hist r + dw) 0) as [E0|E0];
    destruct (Z.eqb_spec (wsum hist r) 0) as [E1|E1]; try lia; cbn [negb];
    rewrite ?(bool_decide_eq_true_2 (is_Some (Some _))) by done;
    rewrite ?(bool_decide_eq_false_2 (is_Some None)) by (by intros [??]); cbn [negb].
  - pose proof (state_bytes_delete _ _ _ _ Hrep Hold) as Hsd. cbn [snd] in Hsd.
    assert (saturating_sub (ds_state_bytes st) (entry_bytes (row_key r) r) <= cost hist)
      by (unfold saturating_sub; lia).
    case_bool_decide as Hdel; [|unfold add_u64; rewrite checked_in by lia]; cbn [expect mbind outcome_bind];
      eexists; (split; [done|]); split; cbn; try done; try (rewrite cost_snoc; lia);
      rewrite (rep_deleted_bytes _ _ Hrep).
    + destruct Hdel as [g Hg]. rewrite (map_sum_update _ (ds_deleted st) _ g _ Hg). lia.
    + rewrite map_sum_insert by (by apply eq_None_not_Some). lia.
  - unfold add_u64. rewrite checked_in by lia. cbn [expect mbind outcome_bind].
    eexists; split; [done|]. split; cbn; try done; try (rewrite cost_snoc; lia).
    + rewrite map_sum_insert by done. rewrite (rep_state_bytes _ _ Hrep). cbn [snd]. lia.
    + apply (rep_deleted_bytes _ _ Hrep).
  - cbn [mbind outcome_bind]. eexists; split; [done|].
    split; cbn; try done; try (rewrite cost_snoc; lia).
    + rewrite (map_sum_update _ (ds_entries st) _ _ _ Hold). cbn [snd].
      rewrite (rep_state_bytes _ _ Hrep). lia.
    + apply (rep_deleted_bytes _ _ Hrep).
Qed.

Lemma represents_skip st hist r : represents st hist -> represents st (hist ++ [(0, r)]).
Proof.
  intros [He Hs Hd [Hb1 Hb2]]. assert (0 <= entry_bytes (row_key r) r) by (unfold entry_bytes; lia).
  split; try done; [|rewrite cost_snoc; lia].
  intros k e. rewrite wsum_snoc, (He k e). case_bool_decide; rewrite Z.add_0_r; done.
Qed.

(** What emitted rows must satisfy: they change the distinct set from the old
    history to the new one, within the weight of the input. *)
Definition emits (f : vals -> Z) (budget : Z) (P : vals -> Prop) (o : list (vals * Z)) : Prop :=
  (forall r, osum o r = f r) /\ oabs o <= budget /\ Forall (fun e => P e.1) o.

Lemma emits_app f g b c P o o' :
  emits f b P o -> emits g c P o' -> emits (fun r => f r + g r) (b + c) P (o ++ o').
Proof.
  intros (H1 & H2 & H3) (H4 & H5 & H6). split_and!.
  - intros r. by rewrite osum_app, H1, H4.
  - rewrite oabs_app. lia.
  - by apply Forall_app.
Qed.

Lemma emits_one f b (P : vals -> Prop) r d :
  P r -> Z.abs d <= b -> (forall r', f r' = if bool_decide (r = r') then d else 0) ->
  emits f b P (if negb (d =? 0) then [(r, d)] else []).
Proof.
  intros HP Hd Hf. destruct (Z.eqb_spec d 0) as [->|]; cbn [negb].
  - split_and!; [|cbn; lia|done]. intros r'. rewrite Hf. by case_bool_decide.
  - split_and!; [|cbn; lia|by constructor]. intros r'. rewrite Hf. cbn. case_bool_decide; lia.
Qed.

Lemma emits_ext f g b c P o : emits f b P o -> (forall r, f r = g r) -> b <= c -> emits g c P o.
Proof. intros (H1 & H2 & H3) Hfg Hb. split_and!; [|lia|done]. intros r. by rewrite H1, Hfg. Qed.

Definition distinct_change (hist rows : list (Z * vals)) (r : vals) : Z :=
  ind (wsum (hist ++ rows) r) - ind (wsum hist r).

Lemma distinct_row_ok (P : vals -> Prop) st hist dw r :
  represents st hist -> i64_row r -> P r ->
  wabs (hist ++ [(dw, r)]) <= i64_max -> cost (hist ++ [(dw, r)]) <= u64_max ->
  exists st' o, distinct_row st dw r = Done (st', o) /\ represents st' (hist ++ [(dw, r)]) /\
    emits (distinct_change hist [(dw, r)]) (Z.abs dw) P o.
Proof.
  intros Hrep Hr HP Hw Hc. unfold distinct_row. destruct (Z.eqb_spec dw 0) as [->|Hdw].
  { exists st, []. split_and!; [done|by apply represents_skip|]. split_and!; [|done|done].
    intros r'. unfold distinct_change. rewrite wsum_snoc. cbn.
    case_bool_decide; rewrite Z.add_0_r; lia. }
  change (match _ with Some (w, _) => w | None => 0 end) with (map_weight (ds_entries st) (row_key r)).
  rewrite (entries_rep_weight _ _ _ (rep_entries _ _ Hrep) Hr).
  pose proof (wsum_abs (hist ++ [(dw, r)]) r) as Ha. rewrite wsum_snoc, bool_decide_eq_true_2 in Ha by done.
  rewrite checked_in by rlia. cbn [expect mbind outcome_bind].
  destruct (distinct_update_ok st hist dw r) as (st' & -> & Hrep'); try done.
  cbn [mbind outcome_bind]. eexists st', _. split_and!; [done|done|].
  set (d := ind (wsum hist r + dw) - ind (wsum hist r)).
  replace (if _ && _ then _ else _) with (if negb (d =? 0) then [(r, d)] else []).
  - apply emits_one; [done|unfold d, ind; repeat case_match; lia|].
    intros r'. unfold distinct_change. rewrite wsum_snoc. case_bool_decide as E; [by rewrite <-E|].
    rewrite Z.add_0_r. lia.
  - unfold d, ind.
    destruct (Z.leb_spec (wsum hist r) 0), (Z.ltb_spec 0 (wsum hist r)),
      (Z.leb_spec (wsum hist r + dw) 0), (Z.ltb_spec 0 (wsum hist r + dw)); try lia; done.
Qed.

Lemma distinct_rows_ok (P : vals -> Prop) rows st hist :
  represents st hist -> Forall (fun e => i64_row e.2 /\ P e.2) rows ->
  wabs (hist ++ rows) <= i64_max -> cost (hist ++ rows) <= u64_max ->
  exists st' o, distinct_rows st rows = Done (st', o) /\ represents st' (hist ++ rows) /\
    emits (distinct_change hist rows) (wabs rows) P o.
Proof.
  revert st hist. induction rows as [|[dw r] rows IH]; intros st hist Hrep Hrows Hw Hc.
  { exists st, []. rewrite app_nil_r. split_and!; [done|done|]. split_and!; [|done|done].
    intros r. unfold distinct_change. rewrite app_nil_r. cbn. lia. }
  rewrite (cons_middle (dw, r) hist rows), app_assoc in *.
  apply List.Forall_cons_iff in Hrows as [[Hr HP] Hrows].
  pose proof (wabs_nonneg rows). pose proof (cost_nonneg rows).
  assert (wabs (hist ++ [(dw, r)]) <= i64_max) by (rewrite (wabs_app (hist ++ _) rows) in Hw; lia).
  assert (cost (hist ++ [(dw, r)]) <= u64_max) by (rewrite (cost_app (hist ++ _) rows) in Hc; lia).
  destruct (distinct_row_ok P st hist dw r) as (st1 & o1 & E1 & Hrep1 & Ho1); try done.
  destruct (IH st1 (hist ++ [(dw, r)])) as (st2 & o2 & E2 & Hrep2 & Ho2); try done.
  cbn [distinct_rows]. rewrite E1. cbn [mbind outcome_bind]. rewrite E2. cbn [mbind outcome_bind].
  eexists _, _. split_and!; [done|done|].
  eapply emits_ext; [by apply emits_app|cbn [wabs foldr fst]|].
  - intros r'. unfold distinct_change. rewrite <-!app_assoc. cbn. lia.
  - cbn. fold (wabs rows). lia.
Qed.

(* ------------------------------------------------------------------ *)
(** ** Runs *)

(** Feeding batches one after another; the outputs are collected. *)
Fixpoint run {A S E B} (step : S -> A -> outcome (S * result E B)) (st : S) (ins : list A)
    : outcome (S * result E (list B)) :=
  match ins with
  | [] => Done (st, Ok [])
  | a :: rest =>
      '(st1, r) ← step st a;
      match r with
      | Err e => Done (st1, Err e)
      | Ok b =>
          '(st2, rs) ← run step st1 rest;
          Done (st2, match rs with Ok bs => Ok (b :: bs) | Err e => Err e end)
      end
  end.

(** The sum of the weights of a row over a list of batches. *)
Definition total `{ArrowOps} (zs : list ArrowZSet) (r : vals) : Z :=
  foldr (fun z acc => wsum (rows_of z) r + acc) 0 zs.

(** A well-formed input: one weight per row, and the operator's schema. *)
Definition input_ok `{ArrowOps} (s : Schema) (z : ArrowZSet) : Prop :=
  aligned (data z) (weights z) = true /\ batch_schema (data z) = s.

(** A well-formed output: aligned, each row once, no zero weight. *)
Definition output_ok `{ArrowOps} (z : ArrowZSet) : Prop :=
  aligned (data z) (weights z) = true /\ NoDup (rows_of z).*2 /\
  Forall (fun e => e.1 <> 0) (rows_of z).

Section run_properties.
Context `{ArrowLaws}.
Context (s : Schema) (Hs : int64_schema s) (Hn : (0 < num_fields s)%nat).

Definition row_ok (r : vals) : Prop := i64_row r /\ length r = num_fields s.

Lemma emits_output f b o : emits f b row_ok o -> b <= i64_max ->
  exists z, build_output s o = Done (Ok z) /\ output_ok z /\ forall r, wsum (rows_of z) r = f r.
Proof.
  intros (Hf & Hb & Ho) Hmax.
  destruct (build_output_spec s o) as (z & l & Hz & Ha & Hd & Hnd & Hnz & Hw); [done|done|done|lia|].
  exists z. split; [done|]. unfold output_ok, rows_of. rewrite Hd. split_and!; try done.
  intros r. by rewrite Hw.
Qed.

Lemma zset_empty_output : exists z, zset_empty s = Done z /\ output_ok z /\ rows_of z = [].
Proof.
  destruct (zset_empty_ok s Hn) as (z & Hz & Hd & Ha). exists z.
  unfold output_ok, rows_of. rewrite Hd. split_and!; try done. constructor.
Qed.

Lemma rows_of_row_ok z : input_ok s z ->
  delta_rows z = Done (rows_of z) /\ Forall (fun e => i64_row e.2 /\ row_ok e.2) (rows_of z).
Proof.
  intros [Ha Hsch]. destruct (rows_of_ok s z Ha Hsch) as [Hd Hr]. split; [done|].
  eapply Forall_impl; [exact Hr|]. intros e [? ?]. by split_and!.
Qed.

Lemma distinct_process_delta_ok st hist z :
  represents st hist -> input_ok s z ->
  wabs (hist ++ rows_of z) <= i64_max -> cost (hist ++ rows_of z) <= u64_max ->
  exists st' out, distinct_process_delta s st z = Done (st', Ok out) /\
    represents st' (hist ++ rows_of z) /\ output_ok out /\
    forall r, wsum (rows_of out) r = distinct_change hist (rows_of z) r.
Proof.
  intros Hrep Hz Hw Hc. destruct (rows_of_row_ok z Hz) as [Hd Hr]. unfold distinct_process_delta.
  destruct (is_empty z) eqn:He.
  - assert (rows_of z = []) as E.
    { unfold rows_of, delta_rows, num_rows. unfold is_empty in He. apply Nat.eqb_eq in He.
      by rewrite He. }
    rewrite E, app_nil_r in *. destruct zset_empty_output as (out & -> & Hout & Eo).
    exists st, out. split_and!; try done. intros r. rewrite Eo. unfold distinct_change.
    rewrite app_nil_r. cbn. lia.
  - rewrite Hd. cbn [mbind outcome_bind].
    destruct (distinct_rows_ok row_ok (rows_of z) st hist) as (st' & o & -> & Hrep' & Ho); try done.
    cbn [mbind outcome_bind]. rewrite wabs_app in Hw. pose proof (wabs_nonneg hist).
    destruct (emits_output _ _ _ Ho) as (out & -> & Hout & Hsum); [lia|].
    exists st', out. done.
Qed.

Lemma all_rows_cons (l : list (Z * vals)) ls : mjoin (l :: ls) = l ++ mjoin ls.
Proof. done. Qed.

Lemma wsum_concat zs r : wsum (mjoin (rows_of <$> zs)) r = total zs r.
Proof.
  induction zs as [|z zs IH]; [done|]. rewrite fmap_cons, all_rows_cons, wsum_app, IH. done.
Qed.

Lemma distinct_run_from zs st hist :
  represents st hist -> Forall (input_ok s) zs ->
  wabs (hist ++ mjoin (rows_of <$> zs)) <= i64_max -> cost (hist ++ mjoin (rows_of <$> zs)) <= u64_max ->
  exists st' outs, run (distinct_process_delta s) st zs = Done (st', Ok outs) /\
    represents st' (hist ++ mjoin (rows_of <$> zs)) /\ Forall output_ok outs /\
    forall r, total outs r = distinct_change hist (mjoin (rows_of <$> zs)) r.
Proof.
  revert st hist. induction zs as [|z zs IH]; intros st hist Hrep Hzs Hw Hc; cbn [run].
  { exists st, []. cbn. rewrite app_nil_r. split_and!; try done.
    intros r. unfold distinct_change. rewrite app_nil_r. lia. }
  apply List.Forall_cons_iff in Hzs as [Hz Hzs]. rewrite fmap_cons, all_rows_cons, app_assoc in *.
  pose proof (wabs_nonneg (mjoin (rows_of <$> zs))). pose proof (cost_nonneg (mjoin (rows_of <$> zs))).
  destruct (distinct_process_delta_ok st hist z) as (st1 & out & -> & Hrep1 & Hout & Hch);
    [done|done|rewrite wabs_app in Hw; lia|rewrite cost_app in Hc; lia|].
  cbn [mbind outcome_bind]. destruct (IH st1 (hist ++ rows_of z)) as (st2 & outs & -> & Hrep2 & Houts & Htot);
    try done.
  cbn. exists st2, (out :: outs). split_and!; [done|done|by constructor|].
  intros r. cbn. rewrite Hch. unfold total in Htot. rewrite Htot. unfold distinct_change.
  rewrite !app_assoc. lia.
Qed.
End run_properties.

(** C22: DISTINCT is maintained incrementally.  From an empty arrangement, any
    sequence of well-formed input batches within the weight and memory budget
    is processed without an error or a panic; the outputs together contain a
    row with weight one exactly when its accumulated input weight is positive,
    each output lists a row at most once and with non-zero weight, and the
    arrangement ends up holding exactly the rows of non-zero accumulated
    weight, whatever signs and intermediate cancellations the inputs have. *)
Theorem distinct_maintains_set `{ArrowLaws} (s : Schema) (ins : list ArrowZSet) :
  int64_schema s -> (0 < num_fields s)%nat -> Forall (input_ok s) ins ->
  wabs (mjoin (rows_of <$> ins)) <= i64_max -> cost (mjoin (rows_of <$> ins)) <= u64_max ->
  exists st outs, run (distinct_process_delta s) distinct_new ins = Done (st, Ok outs) /\
    Forall output_ok outs /\
    (forall r, total outs r = if 0 <? total ins r then 1 else 0) /\
    (forall r w, i64_row r -> ds_entries st !! row_key r = Some (w, r) <-> w = total ins r /\ w <> 0).
Proof.
  intros Hs Hn Hins Hw Hc.
  destruct (distinct_run_from s Hs Hn ins distinct_new []) as (st & outs & Hrun & Hrep & Hout & Htot);
    [apply represents_new|done|done|done|].
  exists st, outs. split_and!; [done|done| |].
  - intros r. rewrite Htot. unfold distinct_change. cbn [app].
    rewrite <-wsum_concat. unfold ind. cbn. lia.
  - intros r w Hr. rewrite (rep_entries _ _ Hrep (row_key r) (w, r)). cbn [fst snd app].
    rewrite wsum_concat. tauto.
Qed.

(* ------------------------------------------------------------------ *)
(** ** Intersect and Except *)

(** What the row loop needs of a weight function: no output on empty inputs,
    and an output change no larger than the input change. *)
Record weight_fun (f : Z -> Z -> bool -> Z) : Prop := {
  wf_zero all : f 0 0 all = 0;
  wf_left l l' r all : Z.abs (f l' r all - f l r all) <= Z.abs (l' - l);
  wf_right l r r' all : Z.abs (f l r' all - f l r all) <= Z.abs (r' - r)
}.

Lemma intersect_weight_fun : weight_fun intersect_weight.
Proof. split; intros; unfold intersect_weight; destruct all; try lia; repeat case_match; lia. Qed.

Lemma except_weight_fun : weight_fun except_weight.
Proof. split; intros; unfold except_weight; destruct all; try lia; repeat case_match; lia. Qed.

Section dual_lemmas.
Context (f : Z -> Z -> bool -> Z) (Hf : weight_fun f) (all : bool).
Implicit Types h : list (Z * vals) * list (Z * vals).

Definition dual_rep (d : DualArrangement) h : Prop :=
  entries_rep (left d) h.1 /\ entries_rep (right d) h.2.

Definition extend (sd : Side) h (rows : list (Z * vals)) : list (Z * vals) * list (Z * vals) :=
  match sd with SLeft => (h.1 ++ rows, h.2) | SRight => (h.1, h.2 ++ rows) end.

Definition side_hist (sd : Side) h : list (Z * vals) :=
  match sd with SLeft => h.1 | SRight => h.2 end.

Definition dual_view h (r : vals) : Z := f (wsum h.1 r) (wsum h.2 r) all.

Definition dual_change h h' (r : vals) : Z := dual_view h' r - dual_view h r.

Lemma dual_rep_weights d h r : dual_rep d h -> i64_row r ->
  left_weight d (row_key r) = wsum h.1 r /\ right_weight d (row_key r) = wsum h.2 r /\
  forall sd, map_weight (side_map d sd) (row_key r) = wsum (side_hist sd h) r.
Proof.
  intros [Hl Hr] Hi. unfold left_weight, right_weight.
  split_and!; [by apply entries_rep_weight|by apply entries_rep_weight|].
  intros []; by apply entries_rep_weight.
Qed.

Lemma dual_rep_update d h sd dw r : dual_rep d h -> i64_row r ->
  let m := side_map d sd in let w := wsum (side_hist sd h) r + dw in
  dual_rep (set_side d sd (if negb (w =? 0) then <[row_key r := (w, r)]> m else delete (row_key r) m))
    (extend sd h [(dw, r)]).
Proof.
  intros [Hl Hr] Hi. destruct sd; cbn; split; cbn; try done.
  - pose proof (entries_rep_update _ _ dw r Hl Hi) as E. by destruct (_ =? 0).
  - pose proof (entries_rep_update _ _ dw r Hr Hi) as E. by destruct (_ =? 0).
Qed.

Lemma dual_rep_skip d h sd r : dual_rep d h -> dual_rep d (extend sd h [(0, r)]).
Proof.
  intros [Hl Hr]. destruct sd; split; cbn; try done; intros k e; rewrite wsum_snoc;
    case_bool_decide; rewrite Z.add_0_r; [apply Hl|apply Hl|apply Hr|apply Hr].
Qed.

Lemma dual_change_row h sd dw r r' :
  dual_change h (extend sd h [(dw, r)]) r' =
  if bool_decide (r = r') then dual_change h (extend sd h [(dw, r)]) r else 0.
Proof.
  case_bool_decide as E; [by subst|]. unfold dual_change, dual_view.
  destruct sd; cbn [extend fst snd]; rewrite wsum_snoc, bool_decide_eq_false_2, Z.add_0_r by done; lia.
Qed.

Lemma dual_change_abs h sd dw r : Z.abs (dual_change h (extend sd h [(dw, r)]) r) <= Z.abs dw.
Proof.
  unfold dual_change, dual_view. destruct sd; cbn [extend fst snd]; rewrite wsum_snoc, bool_decide_eq_true_2 by done.
  - pose proof (wf_left f Hf (wsum h.1 r) (wsum h.1 r + dw) (wsum h.2 r) all). lia.
  - pose proof (wf_right f Hf (wsum h.1 r) (wsum h.2 r) (wsum h.2 r + dw) all). lia.
Qed.

Lemma dual_row_ok (P : vals -> Prop) d h sd dw r :
  dual_rep d h -> i64_row r -> P r -> wabs (side_hist sd h ++ [(dw, r)]) <= i64_max ->
  exists d' o, dual_row f all d sd dw r = Done (d', o) /\ dual_rep d' (extend sd h [(dw, r)]) /\
    emits (dual_change h (extend sd h [(dw, r)])) (Z.abs dw) P o.
Proof.
  intros Hrep Hi HP Hw. unfold dual_row. destruct (Z.eqb_spec dw 0) as [->|Hdw].
  { exists d, []. split_and!; [done|by apply dual_rep_skip|]. split_and!; [|done|done].
    intros r'. unfold dual_change, dual_view. cbn.
    destruct sd; cbn [extend fst snd]; rewrite wsum_snoc; case_bool_decide; rewrite Z.add_0_r; lia. }
  destruct (dual_rep_weights d h r Hrep Hi) as (El & Er & Es).
  pose proof (wsum_abs (side_hist sd h ++ [(dw, r)]) r) as Ha.
  rewrite wsum_snoc, bool_decide_eq_true_2 in Ha by done.
  unfold dual_apply. rewrite El, Er, Es, checked_in by rlia. cbn [expect mbind outcome_bind].
  set (d' := set_side _ _ _). assert (dual_rep d' (extend sd h [(dw, r)])) as Hrep'
    by (by apply dual_rep_update).
  destruct (dual_rep_weights d' _ r Hrep' Hi) as (El' & Er' & _). rewrite El', Er'.
  pose proof (dual_change_abs h sd dw r) as Hc. rewrite wabs_app in Hw.
  pose proof (wabs_nonneg (side_hist sd h)). cbn [wabs foldr fst] in Hw.
  change (f (wsum (extend sd h [(dw, r)]).1 r) (wsum (extend sd h [(dw, r)]).2 r) all
    - f (wsum h.1 r) (wsum h.2 r) all) with (dual_change h (extend sd h [(dw, r)]) r).
  rewrite checked_in by rlia. cbn [expect mbind outcome_bind].
  eexists _, _. split_and!; [done|done|].
  apply emits_one; [done|done|]. intros r'. apply dual_change_row.
Qed.

Lemma extend_extend sd h r1 r2 : extend sd (extend sd h r1) r2 = extend sd h (r1 ++ r2).
Proof. destruct sd; cbn; by rewrite app_assoc. Qed.

Lemma side_extend sd h rows : side_hist sd (extend sd h rows) = side_hist sd h ++ rows.
Proof. by destruct sd. Qed.

Lemma dual_rows_ok (P : vals -> Prop) rows d h sd :
  dual_rep d h -> Forall (fun e => i64_row e.2 /\ P e.2) rows ->
  wabs (side_hist sd h ++ rows) <= i64_max ->
  exists d' o, dual_rows f all d sd rows = Done (d', o) /\ dual_rep d' (extend sd h rows) /\
    emits (dual_change h (extend sd h rows)) (wabs rows) P o.
Proof.
  revert d h. induction rows as [|[dw r] rows IH]; intros d h Hrep Hrows Hw.
  { exists d, []. assert (extend sd h [] = h) as -> by (destruct h, sd; cbn; by rewrite app_nil_r).
    split_and!; [done|done|]. split_and!; [|done|done]. intros r. unfold dual_change. cbn. lia. }
  rewrite (cons_middle (dw, r) (side_hist sd h) rows), app_assoc in Hw.
  apply List.Forall_cons_iff in Hrows as [[Hi HP] Hrows]. pose proof (wabs_nonneg rows).
  destruct (dual_row_ok P d h sd dw r) as (d1 & o1 & E1 & Hrep1 & Ho1);
    [done|done|done|rewrite (wabs_app (_ ++ _) rows) in Hw; lia|].
  destruct (IH d1 (extend sd h [(dw, r)])) as (d2 & o2 & E2 & Hrep2 & Ho2);
    [done|done|by rewrite side_extend|].
  rewrite extend_extend in *. cbn [dual_rows app] in *. rewrite E1. cbn [mbind outcome_bind].
  rewrite E2. cbn [mbind outcome_bind]. eexists _, _. split_and!; [done|done|].
  eapply emits_ext; [by apply emits_app| |].
  - intros r'. unfold dual_change. lia.
  - cbn. fold (wabs rows). lia.
Qed.
End dual_lemmas.

Section dual_run.
Context `{ArrowLaws}.
Context (s : Schema) (Hs : int64_schema s) (Hn : (0 < num_fields s)%nat).
Context (f : Z -> Z -> bool -> Z) (Hf : weight_fun f) (all : bool).

Abbreviation epoch := (ArrowZSet * ArrowZSet)%type (only parsing).
Definition dual_step (d : DualArrangement) (e : epoch) : outcome (DualArrangement * result OpError ArrowZSet) :=
  dual_process_epoch f s all d e.1 e.2.

Definition epoch_ok (e : epoch) : Prop := input_ok s e.1 /\ input_ok s e.2.

Lemma dual_process_epoch_ok d h (e : epoch) :
  dual_rep d h -> epoch_ok e ->
  wabs (h.1 ++ rows_of e.1) + wabs (h.2 ++ rows_of e.2) <= i64_max ->
  exists d' out, dual_step d e = Done (d', Ok out) /\
    dual_rep d' (h.1 ++ rows_of e.1, h.2 ++ rows_of e.2) /\ output_ok out /\
    forall r, wsum (rows_of out) r =
      dual_change f all h (h.1 ++ rows_of e.1, h.2 ++ rows_of e.2) r.
Proof.
  intros Hrep [Hl Hr] Hw. unfold dual_step, dual_process_epoch.
  destruct (rows_of_row_ok s e.1 Hl) as [-> Hl']. destruct (rows_of_row_ok s e.2 Hr) as [-> Hr'].
  pose proof (wabs_nonneg (h.1 ++ rows_of e.1)). pose proof (wabs_nonneg (h.2 ++ rows_of e.2)).
  cbn [mbind outcome_bind].
  destruct (dual_rows_ok f Hf all (row_ok s) (rows_of e.1) d h SLeft) as (d1 & o1 & -> & Hrep1 & Ho1);
    [done|done|cbn [side_hist extend fst snd]; lia|].
  cbn [mbind outcome_bind].
  destruct (dual_rows_ok f Hf all (row_ok s) (rows_of e.2) d1 (extend SLeft h (rows_of e.1)) SRight)
    as (d2 & o2 & -> & Hrep2 & Ho2); [done|done|cbn [side_hist extend fst snd]; lia|].
  cbn [mbind outcome_bind].
  destruct (emits_output s Hs Hn _ _ _ (emits_app _ _ _ _ _ _ _ Ho1 Ho2)) as (out & -> & Hout & Hsum).
  { rewrite !wabs_app in *. pose proof (wabs_nonneg h.1). pose proof (wabs_nonneg h.2). lia. }
  exists d2, out. split_and!; [done|done|done|].
  intros r. rewrite Hsum. unfold dual_change. cbn. lia.
Qed.

Lemma dual_run_from es d h :
  dual_rep d h -> Forall epoch_ok es ->
  wabs (h.1 ++ mjoin (rows_of <$> es.*1)) + wabs (h.2 ++ mjoin (rows_of <$> es.*2)) <= i64_max ->
  exists d' outs, run dual_step d es = Done (d', Ok outs) /\
    dual_rep d' (h.1 ++ mjoin (rows_of <$> es.*1), h.2 ++ mjoin (rows_of <$> es.*2)) /\
    Forall output_ok outs /\
    forall r, total outs r =
      dual_change f all h (h.1 ++ mjoin (rows_of <$> es.*1), h.2 ++ mjoin (rows_of <$> es.*2)) r.
Proof.
  revert d h. induction es as [|e es IH]; intros d h Hrep Hes Hw; cbn [run].
  { exists d, []. cbn. rewrite !app_nil_r. destruct h. split_and!; try done.
    intros r. unfold dual_change. cbn. lia. }
  apply List.Forall_cons_iff in Hes as [He Hes]. rewrite !fmap_cons, !all_rows_cons, !app_assoc in *.
  pose proof (wabs_nonneg (mjoin (rows_of <$> es.*1))). pose proof (wabs_nonneg (mjoin (rows_of <$> es.*2))).
  destruct (dual_process_epoch_ok d h e) as (d1 & out & -> & Hrep1 & Hout & Hch);
    [done|done|rewrite (wabs_app (_ ++ _)), (wabs_app (h.2 ++ _)) in Hw; lia|].
  cbn [mbind outcome_bind].
  destruct (IH d1 (h.1 ++ rows_of e.1, h.2 ++ rows_of e.2)) as (d2 & outs & -> & Hrep2 & Houts & Htot);
    try done.
  cbn. exists d2, (out :: outs). split_and!; [done|done|by constructor|].
  intros r. cbn. rewrite Hch. unfold total in Htot. rewrite Htot. unfold dual_change, dual_view. cbn. lia.
Qed.
End dual_run.

Lemma dual_rep_new : dual_rep dual_new ([], []).
Proof. split; apply entries_rep_empty. Qed.

(** C23: INTERSECT and EXCEPT, with and without ALL, are maintained
    incrementally.  From empty arrangements, any sequence of epochs of
    well-formed left and right batches within the weight budget is processed
    without an error or a panic, and the outputs together give every row the
    weight of the batch query on the accumulated inputs: the minimum of the
    positive parts, or the truncated difference of the positive parts, after
    reducing each side to zero or one when ALL is absent.  Each output lists a
    row at most once and with non-zero weight. *)
Theorem set_operators_maintain `{ArrowLaws} (s : Schema) (all : bool)
    (epochs : list (ArrowZSet * ArrowZSet)) :
  int64_schema s -> (0 < num_fields s)%nat -> Forall (epoch_ok s) epochs ->
  wabs (mjoin (rows_of <$> epochs.*1)) + wabs (mjoin (rows_of <$> epochs.*2)) <= i64_max ->
  let side w := if all then Z.max w 0 else if 0 <? w then 1 else 0 in
  (exists d outs,
    run (fun d e => intersect_process_epoch s all d e.1 e.2) dual_new epochs = Done (d, Ok outs) /\
    Forall output_ok outs /\
    forall r, total outs r = Z.min (side (total epochs.*1 r)) (side (total epochs.*2 r))) /\
  (exists d outs,
    run (fun d e => except_process_epoch s all d e.1 e.2) dual_new epochs = Done (d, Ok outs) /\
    Forall output_ok outs /\
    forall r, total outs r = Z.max (side (total epochs.*1 r) - side (total epochs.*2 r)) 0).
Proof.
  intros Hs Hn He Hw side. split.
  - destruct (dual_run_from s Hs Hn _ intersect_weight_fun all epochs dual_new ([], []))
      as (d & outs & Hrun & _ & Hout & Htot); [apply dual_rep_new|done|done|].
    exists d, outs. split_and!; [done|done|]. intros r. rewrite Htot.
    unfold dual_change, dual_view. cbn [fst snd app]. rewrite !wsum_concat. unfold side.
    rewrite wf_zero by apply intersect_weight_fun. unfold intersect_weight. destruct all; lia.
  - destruct (dual_run_from s Hs Hn _ except_weight_fun all epochs dual_new ([], []))
      as (d & outs & Hrun & _ & Hout & Htot); [apply dual_rep_new|done|done|].
    exists d, outs. split_and!; [done|done|]. intros r. rewrite Htot.
    unfold dual_change, dual_view. cbn [fst snd app]. rewrite !wsum_concat. unfold side.
    rewrite wf_zero by apply except_weight_fun. unfold except_weight. destruct all; lia.
Qed.

(* ------------------------------------------------------------------ *)
(** ** Concrete runs *)

Definition batch_of (n : nat) (col : list Z) (ok : forallb (fun c => (length c =? n)%nat) [col] = true)
    : IntArrow.int_batch :=
  {| IntArrow.ib_rows := n; IntArrow.ib_cols := [col]; IntArrow.ib_ok := ok |}.

Import IntArrow.

Definition schema1 : @Schema int_arrow := 1%nat.
Definition delta_a : ArrowZSet :=
  {| data := batch_of 3 [10; 20; 10] eq_refl; weights := [2; 1; -3]; frontier := None |}.
Definition delta_b : ArrowZSet :=
  {| data := batch_of 2 [10; 30] eq_refl; weights := [2; 1]; frontier := None |}.

Lemma distinct_maintains_set_witness :
  exists st outs, run (distinct_process_delta schema1) distinct_new [delta_a; delta_b]
      = Done (st, Ok outs) /\
    total outs [10] = 1 /\ total outs [20] = 1 /\ total outs [40] = 0.
Proof.
  destruct (distinct_maintains_set schema1 [delta_a; delta_b])
    as (st & outs & Hrun & _ & Htot & _);
    [exact I|unfold schema1; cbn; lia|repeat constructor|vm_compute; discriminate|vm_compute; discriminate|].
  exists st, outs. split; [exact Hrun|]. rewrite !Htot. repeat split; vm_compute; reflexivity.
Defined.

Lemma set_operators_maintain_witness :
  exists d outs,
    run (fun d e => except_process_epoch schema1 true d e.1 e.2) dual_new
      [(delta_a, delta_b); (delta_b, delta_a)] = Done (d, Ok outs) /\
    total outs [20] = 0 /\ total outs [10] = 0.
Proof.
  destruct (set_operators_maintain schema1 true [(delta_a, delta_b); (delta_b, delta_a)])
    as [_ (d & outs & Hrun & _ & Htot)];
    [exact I|unfold schema1; cbn; lia|repeat constructor|vm_compute; discriminate|].
  exists d, outs. split; [exact Hrun|]. rewrite !Htot. split; vm_compute; reflexivity.
Defined.
