(* ===== verification/DistinctStore.v ===== *)
(** * Persistence of the distinct arrangement ([rockstream-ops/src/distinct.rs])

    The arrangement of DISTINCT is written as point puts and deletes under a
    128-bit hash of each row and rebuilt by a prefix scan.  Deletions are kept in
    memory, with a generation, until the batch that carries them is
    acknowledged.  The main theorem follows an operator through processing,
    appending to a batch, committing, acknowledging and crashing, and states what
    a restart recovers. *)
From stdpp Require Import base tactics list gmap numbers option fin_maps.
From Stdlib Require Import ZArith Lia ZifyBool.
From S2P Require Import Prelude Kernels Keys Store ShardDb Progress ArrowZSets Distinct.
Local Open Scope Z_scope.

Definition FNV_PRIME : Z := 0x00000100000001B3.
Definition OFFSET_A : Z := 0xcbf29ce484222325.
Definition OFFSET_B : Z := 0x6c62272e07bb0142.

Definition row_hash_u128 (key_bytes : bytes) : Z :=
  let '(h0, h1) :=
    foldl (fun '(h0, h1) b =>
      (as_u64 (Z.lxor h0 b * FNV_PRIME), as_u64 (Z.lxor h1 (Z.lxor b 0x5A) * FNV_PRIME)))
      (OFFSET_A, OFFSET_B) key_bytes in
  Z.lor (Z.shiftl h0 64) h1.

Definition encode_distinct_value (weight : Z) (r : vals) : bytes :=
  be_bytes 8 weight ++ concat (be_bytes 8 <$> r).

(** [i64::from_be_bytes] of consecutive 8-byte chunks. *)
Fixpoint decode_i64s (n : nat) (b : bytes) : vals :=
  match n with
  | O => []
  | S n' => as_i64 (of_be (take 8 b)) :: decode_i64s n' (drop 8 b)
  end.

Definition decode_distinct_value (b : bytes) : option (Z * vals) :=
  if (length b <? 8)%nat || negb ((length b - 8) mod 8 =? 0)%nat then None
  else
    let weight := as_i64 (of_be (take 8 b)) in
    Some (weight, decode_i64s ((length b - 8) / 8) (drop 8 b)).

Definition distinct_deletes (op_id : Z) (st : DistinctState) : list BatchOp :=
  (fun k => Delete (distinct_key op_id (row_hash_u128 k))) <$> (map_to_list (ds_deleted st)).*1.

Definition distinct_puts (op_id : Z) (st : DistinctState) : list BatchOp :=
  omap (fun '(row_bytes, (weight, r)) =>
    if weight =? 0 then None
    else Some (Put (distinct_key op_id (row_hash_u128 row_bytes)) (encode_distinct_value weight r)))
    (map_to_list (ds_entries st)).

Definition append_distinct_state (st : DistinctState) (op_id : Z) (target : list BatchOp)
    : DistinctState * list BatchOp :=
  let batch := distinct_deletes op_id st ++ distinct_puts op_id st in
  ({| ds_entries := ds_entries st; ds_deleted := ds_deleted st;
      ds_appended_deletions := ds_deleted st;
      ds_deletion_generation := ds_deletion_generation st;
      ds_deleted_bytes := ds_deleted_bytes st;
      ds_appended_deletion_bytes := ds_deleted_bytes st;
      ds_state_bytes := ds_state_bytes st |},
   merge_from target batch).

(** Rebuilding the arrangement from scanned values, in scan order. *)
Fixpoint load_entries (values : list bytes) (st : DistinctState) : outcome DistinctState :=
  match values with
  | [] => Done st
  | b :: rest =>
      match decode_distinct_value b with
      | Some (weight, r) =>
          if weight =? 0 then load_entries rest st
          else
            let row_bytes := row_key r in
            sb ← add_u64 (ds_state_bytes st) (entry_bytes row_bytes r);
            load_entries rest
              {| ds_entries := <[row_bytes := (weight, r)]> (ds_entries st);
                 ds_deleted := ds_deleted st;
                 ds_appended_deletions := ds_appended_deletions st;
                 ds_deletion_generation := ds_deletion_generation st;
                 ds_deleted_bytes := ds_deleted_bytes st;
                 ds_appended_deletion_bytes := ds_appended_deletion_bytes st;
                 ds_state_bytes := sb |}
      | None => load_entries rest st
      end
  end.

(** [ack_persisted_state]: the deletions of the last appended batch that have
    not been superseded since are forgotten. *)
Fixpoint ack_deletions (taken : list (bytes * Z)) (deleted : gmap bytes Z) (deleted_bytes : Z)
    : outcome (gmap bytes Z * Z) :=
  match taken with
  | [] => Done (deleted, deleted_bytes)
  | (key, generation) :: rest =>
      if bool_decide (deleted !! key = Some generation) then
        b ← expect (checked_u64 (deleted_bytes - deletion_bytes key));
        ack_deletions rest (delete key deleted) b
      else ack_deletions rest deleted deleted_bytes
  end.

Definition ack_persisted_state (st : DistinctState) : outcome DistinctState :=
  '(deleted, deleted_bytes) ←
    ack_deletions (map_to_list (ds_appended_deletions st)) (ds_deleted st) (ds_deleted_bytes st);
  Done {| ds_entries := ds_entries st; ds_deleted := deleted; ds_appended_deletions := ∅;
          ds_deletion_generation := ds_deletion_generation st; ds_deleted_bytes := deleted_bytes;
          ds_appended_deletion_bytes := 0; ds_state_bytes := ds_state_bytes st |}.

Section persist.
Context `{SlateDb}.

(** The batch is written only when it is not empty; on a write error the
    state keeps its pending deletions. *)
Definition persist_distinct_state (d : ShardDb) (st : DistinctState) (op_id : Z)
    : outcome (DistinctState * ShardDb * result StorageError unit) :=
  let '(st, batch) := append_distinct_state st op_id batch_new in
  '(d', r) ← (if negb (batch_is_empty batch) then write_batch d batch else Done (d, Ok tt));
  match r with
  | Err e => Done (st, d', Err e)
  | Ok _ => st' ← ack_persisted_state st; Done (st', d', Ok tt)
  end.

Definition load_distinct_state (d : ShardDb) (op_id : Z)
    : outcome (result StorageError DistinctState) :=
  match scan_prefix d (distinct_op_prefix op_id) with
  | Err e => Done (Err e)
  | Ok entries => st ← load_entries entries.*2 distinct_new; Done (Ok st)
  end.

(** [restore_in_place] replaces the state only when loading succeeds. *)
Definition restore_in_place (d : ShardDb) (st : DistinctState) (op_id : Z)
    : outcome (DistinctState * result StorageError unit) :=
  r ← load_distinct_state d op_id;
  match r with
  | Err e => Done (st, Err e)
  | Ok st' => Done (st', Ok tt)
  end.
End persist.

(* ------------------------------------------------------------------ *)
(** ** The stored form of an entry *)

Lemma decode_i64s_row r rest : i64_row r -> decode_i64s (length r) (row_key r ++ rest) = r.
Proof.
  induction 1 as [|v r Hv _ IH]; [done|]. unfold row_key. rewrite fmap_cons. cbn [concat length decode_i64s].
  fold (row_key r). rewrite <-app_assoc, take_app_length', drop_app_length' by (by rewrite length_be_bytes).
  rewrite IH, of_be_be_bytes. change (256 ^ Z.of_nat 8) with (2 ^ 64). fold (as_u64 v).
  by rewrite as_i64_as_u64.
Qed.

Lemma decode_encode_distinct w r : in_i64 w -> i64_row r ->
  decode_distinct_value (encode_distinct_value w r) = Some (w, r).
Proof.
  intros Hw Hr. unfold decode_distinct_value, encode_distinct_value. fold (row_key r).
  rewrite length_app, length_be_bytes, length_row_key.
  replace (8 + 8 * length r - 8)%nat with (length r * 8)%nat by lia.
  rewrite Nat.Div0.mod_mul, Nat.div_mul by done.
  replace (8 + 8 * length r <? 8)%nat with false by lia. cbn [orb negb Nat.eqb].
  rewrite take_app_length', drop_app_length' by (by rewrite length_be_bytes).
  rewrite of_be_be_bytes. change (256 ^ Z.of_nat 8) with (2 ^ 64). fold (as_u64 w).
  rewrite as_i64_as_u64 by done. f_equal. f_equal.
  rewrite <-(app_nil_r (row_key r)). by apply decode_i64s_row.
Qed.

(* ------------------------------------------------------------------ *)
(** ** Effects of a batch *)

Lemma view_after_app (f : bytes -> option bytes) ops ops' k :
  view_after f (ops ++ ops') k = view_after (view_after f ops) ops' k.
Proof. unfold view_after. by rewrite foldl_app. Qed.

Lemma view_after_other (f : bytes -> option bytes) ops k :
  (forall op, op ∈ ops -> op_key op <> k) -> view_after f ops k = f k.
Proof.
  unfold view_after. generalize (f k). induction ops as [|op ops IH]; intros acc Hk; [done|].
  cbn [foldl]. rewrite IH by (intros; apply Hk; by right). unfold op_effect.
  by rewrite bool_decide_eq_false_2 by (apply Hk; by left).
Qed.

Lemma view_after_deletes (f : bytes -> option bytes) keys k :
  view_after f (Delete <$> keys) k = if bool_decide (k ∈ keys) then None else f k.
Proof.
  unfold view_after. generalize (f k). induction keys as [|k' keys IH]; intros acc; [done|].
  rewrite fmap_cons. cbn [foldl]. rewrite IH. unfold op_effect. cbn [op_key].
  destruct (decide (k' = k)) as [->|Hne].
  - rewrite (bool_decide_eq_true_2 (k = k)), (bool_decide_eq_true_2 (k ∈ k :: keys)) by (done || left).
    by case_bool_decide.
  - rewrite (bool_decide_eq_false_2 (k' = k)) by done.
    rewrite (bool_decide_ext (k ∈ k' :: keys) (k ∈ keys)); [done|].
    rewrite elem_of_cons. split; [|by right]. intros [E|E]; [by destruct Hne|done].
Qed.

(** A key that all its puts give the same value. *)
Lemma view_after_puts (f : bytes -> option bytes) (kvs : list (bytes * bytes)) k v :
  (forall v', (k, v') ∈ kvs -> v' = v) ->
  view_after f ((fun e => Put e.1 e.2) <$> kvs) k =
  if bool_decide (k ∈ kvs.*1) then Some v else f k.
Proof.
  unfold view_after. generalize (f k). induction kvs as [|[k' v'] kvs IH]; intros acc Hv; [done|].
  rewrite !fmap_cons. cbn [foldl fst snd]. rewrite IH by (intros; apply Hv; by right).
  unfold op_effect. cbn [op_key]. destruct (decide (k' = k)) as [->|Hne].
  - rewrite (bool_decide_eq_true_2 (k = k)), (bool_decide_eq_true_2 (k ∈ k :: _)) by (done || left).
    rewrite (Hv v') by left. by case_bool_decide.
  - rewrite (bool_decide_eq_false_2 (k' = k)) by done.
    rewrite (bool_decide_ext (k ∈ k' :: kvs.*1) (k ∈ kvs.*1)); [done|].
    rewrite elem_of_cons. split; [|by right]. intros [E|E]; [by destruct Hne|done].
Qed.

(* ------------------------------------------------------------------ *)
(** ** Acknowledging deletions *)

Lemma ack_deletions_ok taken deleted db :
  NoDup taken.*1 -> db = map_sum (fun k _ => deletion_bytes k) deleted -> db <= u64_max ->
  exists deleted' db', ack_deletions taken deleted db = Done (deleted', db') /\
    db' = map_sum (fun k _ => deletion_bytes k) deleted' /\ db' <= db /\
    forall k g, deleted' !! k = Some g <-> deleted !! k = Some g /\ (k, g) ∉ taken.
Proof.
  revert deleted db. induction taken as [|[k g] taken IH]; intros deleted db Hnd Hdb Hmax.
  { exists deleted, db. split_and!; [done|done|lia|]. intros k g. split; [|by intros [? _]].
    intros Hl. split; [done|]. apply not_elem_of_nil. }
  rewrite fmap_cons in Hnd. apply NoDup_cons in Hnd as [Hn Hnd]. cbn [ack_deletions].
  case_bool_decide as Hg.
  - pose proof (map_sum_delete (fun k (_ : Z) => deletion_bytes k) _ _ _ Hg) as Hsum. cbv beta in Hsum.
    assert (0 <= map_sum (fun k (_ : Z) => deletion_bytes k) (delete k deleted)) as Hp
      by (apply map_sum_nonneg; intros; apply deletion_bytes_nonneg).
    pose proof (deletion_bytes_nonneg k). rewrite checked_in by lia. cbn [expect mbind outcome_bind].
    destruct (IH (delete k deleted) (db - deletion_bytes k)) as (d' & db' & E & Hs & Hle & Hl);
      [done|lia|lia|].
    exists d', db'. split_and!; [done|done|lia|]. intros k' g'. rewrite Hl, lookup_delete_Some, not_elem_of_cons.
    split; [intros ([Hne Hk'] & Hin); split_and!; [done|congruence|done]|].
    intros (Hk' & Hne & Hin). split_and!; [|done|done]. intros ->. congruence.
  - destruct (IH deleted db) as (d' & db' & E & Hs & Hle & Hl); [done|done|done|].
    exists d', db'. split_and!; [done|done|lia|]. intros k' g'. rewrite Hl, not_elem_of_cons.
    split; [intros [Hk' Hin]; split_and!; [done|congruence|done]|tauto].
Qed.

(* ------------------------------------------------------------------ *)
(** ** Crash recovery *)

Lemma wsum_not_in l r : r ∉ l.*2 -> wsum l r = 0.
Proof.
  induction l as [|[w r'] l IH]; [done|]. rewrite fmap_cons, not_elem_of_cons. cbn [snd]. intros [Hne Hn].
  cbn [wsum foldr fst snd]. fold (wsum l r). rewrite bool_decide_eq_false_2, IH by done. lia.
Qed.

Lemma omap_all {A B} (f : A -> option B) (g : A -> B) (l : list A) :
  (forall x, x ∈ l -> f x = Some (g x)) -> omap f l = g <$> l.
Proof.
  induction l as [|x l IH]; intros Hl; [done|]. cbn [omap list_omap fmap list_fmap].
  rewrite (Hl x) by left. f_equal. apply IH. intros. apply Hl. by right.
Qed.

(** Bytes of a list of rows. *)
Definition rows_cost (rows : list vals) : Z := foldr (fun r acc => entry_bytes (row_key r) r + acc) 0 rows.

Lemma entry_bytes_nonneg k r : 0 <= entry_bytes k r.
Proof. unfold entry_bytes. lia. Qed.

Lemma rows_cost_cons r l : rows_cost (r :: l) = entry_bytes (row_key r) r + rows_cost l.
Proof. done. Qed.

Lemma rows_cost_nonneg l : 0 <= rows_cost l.
Proof.
  induction l as [|r l IH]; [done|]. rewrite rows_cost_cons.
  pose proof (entry_bytes_nonneg (row_key r) r). lia.
Qed.

Lemma rows_cost_submseteq l k : l ⊆+ k -> rows_cost l <= rows_cost k.
Proof.
  induction 1 as [|r l k _ IH|r r' l|r l k _ IH|l1 l2 l3 _ IH1 _ IH2]; rewrite ?rows_cost_cons; try lia.
  pose proof (entry_bytes_nonneg (row_key r) r). lia.
Qed.

Lemma cost_rows h : cost h = rows_cost h.*2.
Proof.
  induction h as [|[w r] h IH]; [done|]. rewrite fmap_cons, rows_cost_cons, <-IH. done.
Qed.

Lemma load_entries_rows (w : vals -> Z) rows st :
  NoDup rows -> Forall (fun r => i64_row r /\ in_i64 (w r) /\ w r <> 0) rows ->
  (forall r, r ∈ rows -> ds_entries st !! row_key r = None) ->
  ds_state_bytes st = map_sum (fun k e => entry_bytes k e.2) (ds_entries st) ->
  ds_state_bytes st + rows_cost rows <= u64_max ->
  exists st', load_entries ((fun r => encode_distinct_value (w r) r) <$> rows) st = Done st' /\
    (forall k e, ds_entries st' !! k = Some e <->
       ds_entries st !! k = Some e \/ (e.2 ∈ rows /\ k = row_key e.2 /\ e.1 = w e.2)) /\
    ds_state_bytes st' = map_sum (fun k e => entry_bytes k e.2) (ds_entries st') /\
    ds_state_bytes st' = ds_state_bytes st + rows_cost rows /\
    ds_deleted st' = ds_deleted st /\ ds_deleted_bytes st' = ds_deleted_bytes st /\
    ds_deletion_generation st' = ds_deletion_generation st.
Proof.
  revert st. induction rows as [|r rows IH]; intros st Hnd Hrows Hnew Hsum Hbud.
  { exists st. cbn in *. split_and!; try done; [|lia]. intros k e. split; [by left|].
    intros [Hl|(Hin & _)]; [done|by apply not_elem_of_nil in Hin]. }
  apply NoDup_cons in Hnd as [Hn Hnd]. apply List.Forall_cons_iff in Hrows as [(Hi & Hw & Hnz) Hrows].
  rewrite fmap_cons. cbn [load_entries]. rewrite decode_encode_distinct by done.
  rewrite (proj2 (Z.eqb_neq (w r) 0)) by done. rewrite rows_cost_cons in Hbud |- *.
  pose proof (rows_cost_nonneg rows).
  assert (0 <= ds_state_bytes st)
    by (rewrite Hsum; apply map_sum_nonneg; intros; apply entry_bytes_nonneg).
  pose proof (entry_bytes_nonneg (row_key r) r).
  unfold add_u64. rewrite checked_in by lia. cbn [expect mbind outcome_bind].
  assert (ds_entries st !! row_key r = None) as Hr by (apply Hnew; by left).
  destruct (IH {| ds_entries := <[row_key r := (w r, r)]> (ds_entries st); ds_deleted := ds_deleted st;
      ds_appended_deletions := ds_appended_deletions st;
      ds_deletion_generation := ds_deletion_generation st; ds_deleted_bytes := ds_deleted_bytes st;
      ds_appended_deletion_bytes := ds_appended_deletion_bytes st;
      ds_state_bytes := ds_state_bytes st + entry_bytes (row_key r) r |})
    as (st' & E & He & Hs & Hb & Hrest); cbn [ds_entries ds_state_bytes] in *; [done|done| | |lia|].
  - intros r' Hr'. rewrite lookup_insert_ne; [apply Hnew; by right|].
    intros Ek. apply row_key_inj in Ek as <-; [done|done|].
    rewrite Forall_forall in Hrows. by apply Hrows.
  - rewrite map_sum_insert by done. cbn [snd]. lia.
  - exists st'. split; [done|]. split; [|split_and!; [done|lia|apply Hrest..]].
    intros k [w' r']. rewrite He. cbn [ds_entries fst snd]. rewrite lookup_insert_Some, elem_of_cons.
    split.
    + intros [[[<- [= <- <-]]|[Hne Hl]]|(Hin & Hk & Hw')]; [right; by split_and!; [left|..]|by left|].
      right. split_and!; [by right|done|done].
    + intros [Hl|([-> |Hin] & -> & ->)]; [|left; by left|by right].
      left. right. split; [|done]. intros <-. congruence.
Qed.

Section recovery.
Context `{SlateDbLaws, !SlateDbUp}.
Context (op_id : Z) (U : vals -> Prop).

(** The storage key of a row, and of a row key. *)
Definition hash_key (k : bytes) : bytes := distinct_key op_id (row_hash_u128 k).
Definition dkey (r : vals) : bytes := hash_key (row_key r).

(** The rows the query sees: 64-bit values without hash collisions. *)
Record universe : Prop := {
  u_i64 r : U r -> i64_row r;
  u_hash r r' : U r -> U r' -> dkey r = dkey r' -> r = r'
}.
Context (HU : universe).

Definition in_universe (h : list (Z * vals)) : Prop := Forall (fun e => U e.2) h.

Lemma wsum_universe h r : in_universe h -> wsum h r <> 0 -> U r.
Proof.
  intros Hh Hw. destruct (decide (r ∈ h.*2)) as [Hin|Hn]; [|by rewrite wsum_not_in in Hw].
  apply list_elem_of_fmap in Hin as (e & -> & Hin). unfold in_universe in Hh.
  rewrite Forall_forall in Hh. by apply Hh.
Qed.

Lemma dkey_ordinary k : ordinary (hash_key k) /\ hash_key k <> frontier_key /\
  starts_with (hash_key k) (distinct_op_prefix op_id) = true.
Proof.
  split_and!.
  - eexists 1, _. split; [reflexivity|done].
  - by intros E.
  - unfold hash_key, distinct_key, distinct_op_prefix. rewrite !app_assoc. apply starts_with_app.
Qed.

(** The stored value of a row. *)
Definition stored (h : list (Z * vals)) (r : vals) : option bytes :=
  if wsum h r =? 0 then None else Some (encode_distinct_value (wsum h r) r).

(** The shard holds the arrangement of a history. *)
Record db_rep (d : ShardDb) (h : list (Z * vals)) : Prop := {
  dr_rows r : U r -> view d (dkey r) = stored h r;
  dr_keys k v : view d k = Some v -> starts_with k (distinct_op_prefix op_id) = true ->
    exists r, U r /\ k = dkey r
}.

Definition keys_in_universe (m : gmap bytes Z) : Prop :=
  forall k g, m !! k = Some g -> exists r, U r /\ k = row_key r.

Definition entry_put (e : bytes * (Z * vals)) : bytes * bytes :=
  (hash_key e.1, encode_distinct_value e.2.1 e.2.2).

Lemma distinct_puts_eq st hist : represents st hist ->
  distinct_puts op_id st = (fun e => Put e.1 e.2) <$> (entry_put <$> map_to_list (ds_entries st)).
Proof.
  intros Hrep. unfold distinct_puts. rewrite <-list_fmap_compose. apply omap_all.
  intros [k [w r]] Hin%elem_of_map_to_list. apply (rep_entries _ _ Hrep) in Hin as (_ & _ & _ & Hw).
  cbn [fst] in Hw. by rewrite (proj2 (Z.eqb_neq w 0)).
Qed.

Lemma distinct_deletes_eq st :
  distinct_deletes op_id st = Delete <$> (hash_key <$> (map_to_list (ds_deleted st)).*1).
Proof. unfold distinct_deletes. by rewrite <-(list_fmap_compose hash_key Delete). Qed.

Lemma deleted_dkey st r : keys_in_universe (ds_deleted st) -> U r ->
  dkey r ∈ (hash_key <$> (map_to_list (ds_deleted st)).*1) <-> is_Some (ds_deleted st !! row_key r).
Proof.
  intros Hk Hr. rewrite list_elem_of_fmap. split.
  - intros (k & Ek & ([k1 g] & -> & Hin%elem_of_map_to_list)%list_elem_of_fmap). cbn [fst] in Ek.
    destruct (Hk _ _ Hin) as (r' & Hr' & ->). apply (u_hash HU) in Ek as ->; [by eexists|done|done].
  - intros [g Hg]. exists (row_key r). split; [done|]. apply list_elem_of_fmap.
    exists (row_key r, g). split; [done|]. by apply elem_of_map_to_list.
Qed.

Lemma puts_dkey st hist r v : represents st hist -> in_universe hist -> U r ->
  (dkey r, v) ∈ (entry_put <$> map_to_list (ds_entries st)) <->
  wsum hist r <> 0 /\ v = encode_distinct_value (wsum hist r) r.
Proof.
  intros Hrep Hh Hr. rewrite list_elem_of_fmap. split.
  - intros ([k [w r']] & E & Hin%elem_of_map_to_list).
    apply (rep_entries _ _ Hrep) in Hin as (Hk & Hi & Hw & Hnz). cbn [fst snd] in *. subst k w.
    unfold entry_put in E. cbn [fst snd] in E. apply pair_equal_spec in E as [E ->].
    apply (u_hash HU) in E as ->; [done|done|by eapply wsum_universe].
  - intros [Hw ->]. exists (row_key r, (wsum hist r, r)). split; [done|]. apply elem_of_map_to_list.
    apply (rep_entries _ _ Hrep). cbn. split_and!; [done|by apply (u_i64 HU)|done|done].
Qed.

(** The batch an operator appends, key by key. *)
Lemma append_effect st hist (f : bytes -> option bytes) r :
  represents st hist -> in_universe hist -> keys_in_universe (ds_deleted st) -> U r ->
  view_after f (append_distinct_state st op_id batch_new).2 (dkey r) =
  match stored hist r with
  | Some v => Some v
  | None => if bool_decide (is_Some (ds_deleted st !! row_key r)) then None else f (dkey r)
  end.
Proof.
  intros Hrep Hh Hd Hr. cbn [append_distinct_state snd batch_new merge_from app].
  rewrite view_after_app, (distinct_puts_eq st hist), distinct_deletes_eq by done.
  rewrite (view_after_puts _ _ _ (encode_distinct_value (wsum hist r) r)).
  2:{ intros v' Hin. by apply (puts_dkey st hist) in Hin as [_ ->]. }
  rewrite view_after_deletes. unfold stored.
  rewrite (bool_decide_ext _ _ (deleted_dkey st r Hd Hr)).
  destruct (Z.eqb_spec (wsum hist r) 0) as [E|E].
  - rewrite bool_decide_eq_false_2; [done|].
    intros ([k v] & Ek & Hin)%list_elem_of_fmap. cbn [fst] in Ek. subst k.
    by apply (puts_dkey st hist) in Hin as [? _].
  - rewrite bool_decide_eq_true_2; [done|]. apply list_elem_of_fmap.
    exists (dkey r, encode_distinct_value (wsum hist r) r). split; [done|].
    by apply (puts_dkey st hist).
Qed.

Lemma append_keys st hist : represents st hist -> in_universe hist -> keys_in_universe (ds_deleted st) ->
  point_writes (append_distinct_state st op_id batch_new).2 /\
  Forall (fun op => exists r, U r /\ op_key op = dkey r) (append_distinct_state st op_id batch_new).2.
Proof.
  intros Hrep Hh Hd. cbn [append_distinct_state snd batch_new merge_from app].
  rewrite (distinct_puts_eq st hist), distinct_deletes_eq by done. split.
  - apply Forall_app. split; apply Forall_fmap, Forall_true; done.
  - apply Forall_app. split; apply Forall_fmap, Forall_forall.
    + intros k (k1 & -> & ([k2 g] & -> & Hin%elem_of_map_to_list)%list_elem_of_fmap)%list_elem_of_fmap.
      cbn. destruct (Hd _ _ Hin) as (r & Hr & ->). by exists r.
    + intros e ([k [w r]] & -> & Hin%elem_of_map_to_list)%list_elem_of_fmap. cbn.
      apply (rep_entries _ _ Hrep) in Hin as (Hk & _ & Hw & Hnz). cbn [fst snd] in *. subst.
      exists r. split; [by eapply wsum_universe|done].
Qed.

(** The rows a scan of the arrangement finds. *)
Lemma scanned_rows d h l : db_rep d h -> in_universe h ->
  NoDup l.*1 ->
  (forall k v, (k, v) ∈ l <-> view d k = Some v /\ starts_with k (distinct_op_prefix op_id) = true) ->
  exists rows, NoDup rows /\ l = (fun r => (dkey r, encode_distinct_value (wsum h r) r)) <$> rows /\
    forall r, r ∈ rows <-> wsum h r <> 0.
Proof.
  intros Hdb Hh Hnd He.
  assert (Forall (fun e => exists r, wsum h r <> 0 /\ e = (dkey r, encode_distinct_value (wsum h r) r)) l) as Hl.
  { apply Forall_forall. intros [k v] [Hv Hst]%He. destruct (dr_keys _ _ Hdb _ _ Hv Hst) as (r & Hr & ->).
    exists r. rewrite (dr_rows _ _ Hdb r Hr) in Hv. unfold stored in Hv.
    destruct (Z.eqb_spec (wsum h r) 0); [done|]. by injection Hv as <-. }
  assert (exists rows, l = (fun r => (dkey r, encode_distinct_value (wsum h r) r)) <$> rows /\
    Forall (fun r => wsum h r <> 0) rows) as (rows & Erows & Hnz).
  { clear -Hl. induction Hl as [|e l (r & Hr & ->) _ (rows & -> & Hrows)]; [by exists []|].
    exists (r :: rows). split; [done|by constructor]. }
  exists rows. split_and!; [|done|].
  - subst l. rewrite <-list_fmap_compose in Hnd. eapply NoDup_fmap_1. exact Hnd.
  - intros r. split; [intros Hin; rewrite Forall_forall in Hnz; by apply Hnz|].
    intros Hw. pose proof (wsum_universe h r Hh Hw) as Hr.
    assert ((dkey r, encode_distinct_value (wsum h r) r) ∈ l) as Hin.
    { apply He. split; [|apply dkey_ordinary]. rewrite (dr_rows _ _ Hdb r Hr). unfold stored.
      by rewrite (proj2 (Z.eqb_neq _ 0)). }
    subst l. apply list_elem_of_fmap in Hin as (r' & [E _]%pair_equal_spec & Hin').
    rewrite Forall_forall in Hnz. apply (u_hash HU) in E as ->; [done|done|].
    by eapply wsum_universe, Hnz.
Qed.

(** Loading rebuilds the arrangement of the stored history. *)
Lemma load_ok d h : open_shard d -> db_rep d h -> in_universe h ->
  wabs h <= i64_max -> cost h <= u64_max ->
  exists st, load_distinct_state d op_id = Done (Ok st) /\ represents st h /\
    ds_deleted st = ∅ /\ ds_deletion_generation st = 0.
Proof.
  intros Hd Hdb Hh Hw Hc. unfold load_distinct_state.
  assert (ordinary (distinct_op_prefix op_id)) as Hp by (eexists 1, _; split; [reflexivity|done]).
  destruct (scan_prefix_up d _ Hp Hd) as [l El]. rewrite El.
  destruct (scan_prefix_ok d _ l Hp (proj1 Hd) El) as [Hs He].
  destruct (scanned_rows d h l) as (rows & Hnd & -> & Hrows);
    [done|done|by apply sorted_NoDup|done|].
  assert (((fun r => (dkey r, encode_distinct_value (wsum h r) r)) <$> rows).*2 =
    ((fun r => encode_distinct_value (wsum h r) r) <$> rows)) as -> by (by rewrite <-list_fmap_compose).
  destruct (load_entries_rows (wsum h) rows distinct_new) as (st & -> & Hent & Hsb & Hsb' & Hdel & Hdb' & Hgen);
    [done| |done|done| |].
  - apply Forall_forall. intros r Hr%Hrows. pose proof (wsum_abs h r).
    split_and!; [by apply (u_i64 HU), (wsum_universe h)|rlia|rlia|done].
  - cbn [ds_state_bytes distinct_new].
    assert (rows_cost rows <= cost h); [|lia]. rewrite cost_rows. apply rows_cost_submseteq, NoDup_submseteq; [done|].
    intros r Hr%Hrows. destruct (decide (r ∈ h.*2)); [done|]. by rewrite wsum_not_in in Hr.
  - cbn. eexists; split; [done|]. split_and!; [|done|done]. split.
    + intros k [w r]. rewrite Hent. cbn [fst snd ds_entries distinct_new]. rewrite lookup_empty, Hrows. split.
      * intros [|(Hr & -> & ->)]; [done|]. split_and!; try done. by apply (u_i64 HU), (wsum_universe h).
      * intros (-> & _ & -> & Hnz). by right.
    + done.
    + by rewrite Hdb', Hdel.
    + rewrite Hdb', Hsb'. cbn [ds_state_bytes ds_deleted_bytes distinct_new].
      assert (rows_cost rows <= cost h); [|pose proof (cost_nonneg h); lia].
      rewrite cost_rows. apply rows_cost_submseteq, NoDup_submseteq; [done|].
      intros r Hr%Hrows. destruct (decide (r ∈ h.*2)); [done|]. by rewrite wsum_not_in in Hr.
Qed.

(** *** Deletions while rows are processed *)

(** What a row does to the pending deletions: only a row whose weight becomes
    zero adds one, with a new generation. *)
Lemma distinct_row_deletions st hist dw r st' o :
  represents st hist -> i64_row r -> 0 <= ds_deletion_generation st < u64_max ->
  distinct_row st dw r = Done (st', o) ->
  ds_appended_deletions st' = ds_appended_deletions st /\
  ((ds_deleted st' = ds_deleted st /\ ds_deletion_generation st' = ds_deletion_generation st /\
    (wsum hist r = 0 \/ wsum (hist ++ [(dw, r)]) r <> 0)) \/
   (ds_deleted st' = <[row_key r := ds_deletion_generation st + 1]> (ds_deleted st) /\
    ds_deletion_generation st' = ds_deletion_generation st + 1 /\ wsum (hist ++ [(dw, r)]) r = 0)).
Proof.
  intros Hrep Hr Hg Hrow. unfold distinct_row in Hrow. rewrite wsum_snoc, bool_decide_eq_true_2 by done.
  destruct (Z.eqb_spec dw 0) as [->|Hdw].
  { injection Hrow as <- _. split; [done|]. left. split_and!; [done|done|]. destruct (decide (wsum hist r = 0)); [by left|right; lia]. }
  change (match _ with Some (w, _) => w | None => 0 end) with (map_weight (ds_entries st) (row_key r)) in Hrow.
  rewrite (entries_rep_weight _ _ _ (rep_entries _ _ Hrep) Hr) in Hrow.
  destruct (expect _) as [nw|] eqn:En; [|done]. cbn [mbind outcome_bind] in Hrow.
  destruct (checked _ _ _) as [nw'|] eqn:Ec; [|done]. injection En as ->.
  apply checked_Some in Ec as [-> _].
  destruct (distinct_update _ _ _ _) as [st1|] eqn:Eu; [|done]. injection Hrow as <- _.
  unfold distinct_update in Eu. rewrite (entries_rep_old _ _ _ (rep_entries _ _ Hrep) Hr) in Eu.
  destruct (Z.eqb_spec (wsum hist r + dw) 0) as [E0|E0]; cbn [negb] in Eu.
  - destruct (Z.eqb_spec (wsum hist r) 0) as [E1|E1]; [lia|].
    rewrite bool_decide_eq_true_2 in Eu by done. cbn [negb] in Eu.
    destruct (if bool_decide _ then _ else _) as [b|]; [|done]. injection Eu as <-. cbn.
    split; [done|]. right. unfold as_u64. rewrite Z.mod_small by rlia. done.
  - destruct (if negb _ then _ else _) as [b|]; [|done]. injection Eu as <-. cbn.
    split; [done|]. left. split_and!; [done|done|by right].
Qed.

(** A batch in flight: appended in state [st_t], at history [h]. *)
Record flight (st : DistinctState) (hist saved : list (Z * vals)) (st_t : DistinctState)
    (h : list (Z * vals)) : Prop := {
  fl_appended : ds_appended_deletions st = ds_deleted st_t;
  fl_gen : ds_deletion_generation st_t <= ds_deletion_generation st;
  fl_old k g : ds_deleted st_t !! k = Some g -> g <= ds_deletion_generation st_t;
  fl_covered r : U r -> wsum h r = 0 -> wsum saved r = 0 \/ is_Some (ds_deleted st_t !! row_key r);
  fl_newer r : U r -> wsum h r <> 0 -> wsum hist r = 0 ->
    exists g, ds_deleted st !! row_key r = Some g /\ ds_deletion_generation st_t < g
}.

(** The deletions cover every row the shard still has and the operator has
    not. *)
Record pending_ok (st : DistinctState) (hist saved : list (Z * vals)) : Prop := {
  po_gen : 0 <= ds_deletion_generation st <= Z.of_nat (length hist);
  po_keys k g : ds_deleted st !! k = Some g -> g <= ds_deletion_generation st;
  po_universe : keys_in_universe (ds_deleted st);
  po_covered r : U r -> wsum hist r = 0 -> wsum saved r = 0 \/ is_Some (ds_deleted st !! row_key r)
}.

Lemma cost_length l : 8 * Z.of_nat (length l) <= cost l.
Proof.
  induction l as [|e l IH]; [done|]. cbn [length cost foldr]. fold (cost l).
  pose proof (row_cost_pos e). lia.
Qed.

Lemma row_pending st hist saved dw r st' o :
  represents st hist -> U r -> cost (hist ++ [(dw, r)]) <= u64_max ->
  distinct_row st dw r = Done (st', o) -> pending_ok st hist saved ->
  pending_ok st' (hist ++ [(dw, r)]) saved /\
  forall st_t h, flight st hist saved st_t h -> flight st' (hist ++ [(dw, r)]) saved st_t h.
Proof.
  intros Hrep Hr Hc Hrow [Hg Hk Hu Hcov].
  pose proof (cost_length (hist ++ [(dw, r)])) as Hlen. rewrite length_app in Hlen. cbn [length] in Hlen.
  assert (Z.of_nat (length (hist ++ [(dw, r)])) = Z.of_nat (length hist) + 1) as El
    by (rewrite length_app; cbn; lia).
  destruct (distinct_row_deletions st hist dw r st' o) as [Ha [(Hd & Hgen & Hz)|(Hd & Hgen & Hz)]];
    [done|by apply (u_i64 HU)|rlia|done| |].
  - split; [split; rewrite ?Hd, ?Hgen, ?El; [lia|done|done|]|].
    + intros r' Hr' Hw. rewrite wsum_snoc in Hw. case_bool_decide as E; [subst r'|apply Hcov; [done|lia]].
      destruct Hz as [Hz|Hz]; [by apply Hcov|]. rewrite wsum_snoc, bool_decide_eq_true_2 in Hz by done. lia.
    + intros st_t h [F1 F2 F3 F4 F5]. split; rewrite ?Hd, ?Hgen, ?Ha; try done.
      intros r' Hr' Hwh Hw. rewrite wsum_snoc in Hw. case_bool_decide as E; [subst r'|apply F5; [done|done|lia]].
      destruct Hz as [Hz|Hz]; [by apply F5|]. rewrite wsum_snoc, bool_decide_eq_true_2 in Hz by done. lia.
  - split; [split; rewrite ?Hd, ?Hgen, ?El; [lia| | |]|].
    + intros k g [[<- <-]|[_ Hl]]%lookup_insert_Some; [lia|]. apply Hk in Hl. lia.
    + intros k g [[<- <-]|[_ Hl]]%lookup_insert_Some; [by exists r|by eapply Hu].
    + intros r' Hr' Hw. rewrite wsum_snoc in Hw. case_bool_decide as E.
      * subst r'. right. rewrite lookup_insert_eq. by eexists.
      * destruct (Hcov r' Hr') as [?|Hs]; [lia|by left|right].
        rewrite lookup_insert_ne; [done|]. intros Ek. apply row_key_inj in Ek; [done| |]; by apply (u_i64 HU).
    + intros st_t h [F1 F2 F3 F4 F5]. split; rewrite ?Hd, ?Hgen, ?Ha; try done; [lia|].
      intros r' Hr' Hwh Hw. rewrite wsum_snoc in Hw. case_bool_decide as E.
      * subst r'. rewrite lookup_insert_eq. eexists; split; [done|]. lia.
      * rewrite lookup_insert_ne by
          (intros Ek; apply row_key_inj in Ek; [done| |]; by apply (u_i64 HU)).
        apply F5; [done|done|lia].
Qed.

Lemma rows_pending rows st hist saved st' o :
  represents st hist -> in_universe rows ->
  wabs (hist ++ rows) <= i64_max -> cost (hist ++ rows) <= u64_max ->
  distinct_rows st rows = Done (st', o) -> pending_ok st hist saved ->
  represents st' (hist ++ rows) /\ pending_ok st' (hist ++ rows) saved /\
  forall st_t h, flight st hist saved st_t h -> flight st' (hist ++ rows) saved st_t h.
Proof.
  revert st hist o. induction rows as [|[dw r] rows IH]; intros st hist o Hrep Hu Hw Hc Hrow Hpo.
  { injection Hrow as <- _. rewrite app_nil_r. done. }
  rewrite (cons_middle (dw, r) hist rows), app_assoc in *.
  apply List.Forall_cons_iff in Hu as [Hr Hu]. cbn [snd] in Hr.
  assert (wabs (hist ++ [(dw, r)]) <= i64_max)
    by (rewrite (wabs_app (_ ++ _)) in Hw; pose proof (wabs_nonneg rows); lia).
  assert (cost (hist ++ [(dw, r)]) <= u64_max)
    by (rewrite (cost_app (_ ++ _)) in Hc; pose proof (cost_nonneg rows); lia).
  cbn [distinct_rows] in Hrow.
  destruct (distinct_row_ok (fun _ => True) st hist dw r) as (st1 & o1 & E1 & Hrep1 & _);
    [done|by apply (u_i64 HU)|done|done|done|].
  destruct (row_pending st hist saved dw r st1 o1) as [Hpo1 Hfl1]; try done.
  rewrite E1 in Hrow. cbn [mbind outcome_bind] in Hrow.
  destruct (distinct_rows st1 rows) as [[st2 o2]|] eqn:E2; [|done]. injection Hrow as <- _.
  destruct (IH st1 (hist ++ [(dw, r)]) o2) as (Hrep2 & Hpo2 & Hfl2); try done.
  split_and!; [done|done|]. intros st_t h Hf. by apply Hfl2, Hfl1.
Qed.

(** *** The operator and its shard *)

(** The histories are ghost state: [s_hist] is what the operator has processed,
    [s_saved] what the last committed batch covers. *)
Record system : Type := {
  s_st : DistinctState;
  s_hist : list (Z * vals);
  s_db : ShardDb;
  s_saved : list (Z * vals);
  s_inflight : option (list BatchOp * list (Z * vals))
}.

Definition within_budget (h : list (Z * vals)) : Prop := wabs h <= i64_max /\ cost h <= u64_max.

(** Rows are processed; the state is appended to a batch; the batch commits and
    is acknowledged; other operators write elsewhere; the process crashes and
    restarts from the shard. *)
Inductive dstep : system -> system -> Prop :=
| D_process s rows st' o :
    in_universe rows -> within_budget (s_hist s ++ rows) ->
    distinct_rows (s_st s) rows = Done (st', o) ->
    dstep s {| s_st := st'; s_hist := s_hist s ++ rows; s_db := s_db s; s_saved := s_saved s;
               s_inflight := s_inflight s |}
| D_append s st' batch :
    s_inflight s = None -> append_distinct_state (s_st s) op_id batch_new = (st', batch) ->
    dstep s {| s_st := st'; s_hist := s_hist s; s_db := s_db s; s_saved := s_saved s;
               s_inflight := Some (batch, s_hist s) |}
| D_commit s batch h d' st' :
    s_inflight s = Some (batch, h) -> write_batch (s_db s) batch = Done (d', Ok tt) ->
    ack_persisted_state (s_st s) = Done st' ->
    dstep s {| s_st := st'; s_hist := s_hist s; s_db := d'; s_saved := h; s_inflight := None |}
| D_other s ops d' :
    point_writes ops ->
    Forall (fun op => ordinary (op_key op) /\
      starts_with (op_key op) (distinct_op_prefix op_id) = false) ops ->
    write_batch (s_db s) ops = Done (d', Ok tt) ->
    dstep s {| s_st := s_st s; s_hist := s_hist s; s_db := d'; s_saved := s_saved s;
               s_inflight := s_inflight s |}
| D_crash s st' :
    load_distinct_state (s_db s) op_id = Done (Ok st') ->
    dstep s {| s_st := st'; s_hist := s_saved s; s_db := s_db s; s_saved := s_saved s;
               s_inflight := None |}.

Record dinv (s : system) : Prop := {
  i_rep : represents (s_st s) (s_hist s);
  i_hist : in_universe (s_hist s);
  i_saved : in_universe (s_saved s);
  i_budget : within_budget (s_hist s);
  i_budget_saved : within_budget (s_saved s);
  i_open : open_shard (s_db s);
  i_db : db_rep (s_db s) (s_saved s);
  i_pending : pending_ok (s_st s) (s_hist s) (s_saved s);
  i_flight : match s_inflight s with
    | None => True
    | Some (batch, h) => exists st_t,
        represents st_t h /\ in_universe h /\ within_budget h /\ keys_in_universe (ds_deleted st_t) /\
        batch = (append_distinct_state st_t op_id batch_new).2 /\
        flight (s_st s) (s_hist s) (s_saved s) st_t h
    end
}.

Lemma write_batch_open d ops d' r : write_batch d ops = Done (d', r) -> open_shard d -> open_shard d'.
Proof.
  intros Hw Hd. unfold write_batch in Hw. destruct (_ || _); [by injection Hw as <- _|].
  destruct (check_frontier_puts _ _ _) as [w|]; [|done]. cbn [mbind outcome_bind] in Hw.
  destruct (slate_write _ _) as [db' [[]|e]]; injection Hw as <- _; [by destruct w|done].
Qed.

Lemma append_represents st hist : represents st hist ->
  represents (append_distinct_state st op_id batch_new).1 hist.
Proof. intros [He Hs Hd Hb]. by split. Qed.

(** The batch in flight never stops the acknowledgement. *)
Lemma ack_ok s batch h : dinv s -> s_inflight s = Some (batch, h) ->
  exists st', ack_persisted_state (s_st s) = Done st' /\ represents st' (s_hist s) /\
    pending_ok st' (s_hist s) h.
Proof.
  intros Hi Hf. pose proof (i_flight _ Hi) as Hfl. rewrite Hf in Hfl.
  destruct Hfl as (st_t & Hrt & Hut & Hbt & Hkt & -> & Hfl). destruct Hfl as [F1 F2 F3 F4 F5].
  destruct (i_rep _ Hi) as [He Hs Hd Hb]. destruct (i_pending _ Hi) as [Hg Hk Hu Hcov].
  pose proof (i_budget _ Hi) as [_ Hc]. unfold ack_persisted_state.
  destruct (ack_deletions_ok (map_to_list (ds_appended_deletions (s_st s))) (ds_deleted (s_st s))
    (ds_deleted_bytes (s_st s))) as (del' & db' & -> & Hsum & Hle & Hl);
    [apply NoDup_fst_map_to_list|done|lia|].
  cbn [mbind outcome_bind]. eexists; split; [done|]. split.
  - split; cbn; [done|done|done|lia].
  - split; cbn; [done| | |].
    + intros k g [Hlk _]%Hl. by eapply Hk.
    + intros k g [Hlk _]%Hl. by eapply Hu.
    + intros r Hr Hw. destruct (decide (wsum h r = 0)) as [Hh|Hh]; [by left|]. right.
      destruct (F5 r Hr Hh Hw) as (g & Hlk & Hgt). exists g. apply Hl. split; [done|].
      rewrite elem_of_map_to_list, F1. intros Ht. apply F3 in Ht. lia.
Qed.

Lemma db_rep_write d ops d' saved h :
  open_shard d -> db_rep d saved -> point_writes ops ->
  Forall (fun op => ordinary (op_key op)) ops -> write_batch d ops = Done (d', Ok tt) ->
  (forall r, U r -> view_after (view d) ops (dkey r) = stored h r) ->
  (forall op, op ∈ ops -> starts_with (op_key op) (distinct_op_prefix op_id) = true ->
     exists r, U r /\ op_key op = dkey r) ->
  db_rep d' h.
Proof.
  intros Hd Hdb Hpt Ho Hw Heff Hkeys.
  destruct (write_batch_ok d ops d') as (_ & _ & Hv); [apply Hd|done|done|done|]. split.
  - intros r Hr. rewrite Hv by apply dkey_ordinary. by apply Heff.
  - intros k v Hk Hst. assert (ordinary k) as Hok.
    { eapply ordinary_extend; [|exact Hst]. eexists 1, _. split; [reflexivity|done]. }
    rewrite Hv in Hk by done. destruct (decide (Exists (fun op => op_key op = k) ops)) as [Hex|Hn].
    + apply Exists_exists in Hex as (op & Hin & <-). by apply Hkeys.
    + rewrite view_after_other in Hk; [by apply (dr_keys _ _ Hdb k v)|].
      intros op Hin E. apply Hn, Exists_exists. eauto.
Qed.

Lemma commit_step_inv s batch h d' st' : dinv s -> s_inflight s = Some (batch, h) ->
  write_batch (s_db s) batch = Done (d', Ok tt) -> ack_persisted_state (s_st s) = Done st' ->
  dinv {| s_st := st'; s_hist := s_hist s; s_db := d'; s_saved := h; s_inflight := None |}.
Proof.
  intros Hi Hf Hw Ha. destruct (ack_ok s batch h Hi Hf) as (st1 & Ea & Hrep & Hpo).
  rewrite Ha in Ea. injection Ea as <-. pose proof (i_flight _ Hi) as Hfl. rewrite Hf in Hfl.
  destruct Hfl as (st_t & Hrt & Hut & Hbt & Hkt & -> & Hfl).
  destruct (append_keys st_t h Hrt Hut Hkt) as [Hpt Hks].
  split; cbn; try done; [apply Hi|apply Hi|by eapply write_batch_open, Hi|].
  eapply (db_rep_write (s_db s) _ d' (s_saved s) h); [apply Hi|apply Hi|done| |done| |].
  - eapply Forall_impl; [exact Hks|]. intros op (r & _ & ->). apply dkey_ordinary.
  - intros r Hr. rewrite (append_effect st_t h) by done. destruct (stored h r) as [v|] eqn:E; [done|].
    case_bool_decide as Hdel; [done|]. rewrite (dr_rows _ _ (i_db _ Hi) r Hr). unfold stored in *.
    destruct (Z.eqb_spec (wsum h r) 0) as [Ez|]; [|done].
    destruct (fl_covered _ _ _ _ _ Hfl r Hr Ez) as [-> |?]; done.
  - intros op Hin _. rewrite Forall_forall in Hks. by apply Hks.
Qed.

Lemma dstep_inv s s' : dstep s s' -> dinv s -> dinv s'.
Proof.
  intros Hst Hi. destruct Hst as [s rows st' o Hu [Hbw Hbc] Hrow|s st' batch Hf Ha|s batch h d' st' Hf Hw Ha
    |s ops d' Hpt Ho Hw|s st' Hl].
  - destruct (rows_pending rows (s_st s) (s_hist s) (s_saved s) st' o) as (Hrep & Hpo & Hfl);
      [apply Hi|done|done|done|done|apply Hi|].
    constructor; cbn [s_st s_hist s_db s_saved s_inflight];
      [done|apply Forall_app; split; [apply Hi|done]|apply Hi|done|apply Hi|apply Hi|apply Hi|done|].
    pose proof (i_flight _ Hi) as Hif. destruct (s_inflight s) as [[batch h]|]; [|done].
    destruct Hif as (st_t & Hrt & Hut & Hbt & Hkt & Eb & Hf). exists st_t. split_and!; try done.
    by apply Hfl.
  - assert (st' = (append_distinct_state (s_st s) op_id batch_new).1) as Est by (by rewrite Ha).
    assert (batch = (append_distinct_state (s_st s) op_id batch_new).2) as Eb by (by rewrite Ha).
    destruct (i_pending _ Hi) as [Hg Hk Hu Hcov].
    split; cbn; try apply Hi.
    + rewrite Est. by apply append_represents, Hi.
    + rewrite Est. by split.
    + exists (s_st s). split_and!; try apply Hi; [done|]. rewrite Est. split; cbn; try done.
  - by apply (commit_step_inv s batch).
  - split; cbn; try apply Hi; [by eapply write_batch_open, Hi|].
    eapply (db_rep_write (s_db s) ops d' (s_saved s)); [apply Hi|apply Hi|done| |done| |].
    + eapply Forall_impl; [exact Ho|]. by intros ? [? _].
    + intros r Hr. rewrite view_after_other; [by apply (dr_rows _ _ (i_db _ Hi))|].
      intros op Hin E. rewrite Forall_forall in Ho. destruct (Ho op Hin) as [_ Hn]. rewrite E in Hn.
      pose proof (dkey_ordinary (row_key r)) as (_ & _ & Hd). unfold dkey in Hn. congruence.
    + intros op Hin Hs. rewrite Forall_forall in Ho. destruct (Ho op Hin) as [_ Hn]. congruence.
  - destruct (load_ok (s_db s) (s_saved s)) as (st1 & El & Hrep & Hdel & Hgen);
      [apply Hi|apply Hi|apply Hi|apply (i_budget_saved _ Hi)|apply (i_budget_saved _ Hi)|].
    rewrite Hl in El. injection El as <-. split; cbn; try done; try apply Hi.
    split; rewrite ?Hdel, ?Hgen; [lia|by intros k g; rewrite lookup_empty|
      by intros k g; rewrite lookup_empty|by left].
Qed.

(** The empty operator on a shard without its keys. *)
Definition system_init (d : ShardDb) : system :=
  {| s_st := distinct_new; s_hist := []; s_db := d; s_saved := []; s_inflight := None |}.

Lemma system_init_inv d : open_shard d ->
  (forall k, starts_with k (distinct_op_prefix op_id) = true -> view d k = None) ->
  dinv (system_init d).
Proof.
  intros Hd Hn. constructor; cbn [system_init s_st s_hist s_db s_saved s_inflight];
    [apply represents_new|constructor|constructor|by split|by split|done| | |done].
  - split; [intros r Hr; apply Hn, dkey_ordinary|]. intros k v Hv Hst. by rewrite Hn in Hv.
  - split; cbn [ds_deleted distinct_new ds_deletion_generation];
      [done|intros k g; by rewrite lookup_empty|intros k g; by rewrite lookup_empty|by left].
Qed.

(** C16: The distinct arrangement survives crashes.  Consider an operator on an
    open shard that holds none of its keys, and any interleaving of processing
    rows, appending the state to a batch, committing and acknowledging that
    batch, writes of other operators, crashes and restarts from the shard, with
    the engine up and the rows free of hash collisions.  At every point the
    arrangement in memory is that of the rows processed, and a restart rebuilds
    exactly the arrangement of the rows covered by the last committed batch:
    no row that was deleted reappears, also when it was deleted while the batch
    was in flight, and none is lost.  A batch in flight can always be
    acknowledged without a panic. *)
Theorem distinct_state_recoverable (d : ShardDb) (s : system) :
  open_shard d -> (forall k, starts_with k (distinct_op_prefix op_id) = true -> view d k = None) ->
  rtc dstep (system_init d) s ->
  represents (s_st s) (s_hist s) /\
  (exists st', load_distinct_state (s_db s) op_id = Done (Ok st') /\ represents st' (s_saved s)) /\
  (forall batch h, s_inflight s = Some (batch, h) ->
     exists d' st', write_batch (s_db s) batch = Done (d', Ok tt) /\
       ack_persisted_state (s_st s) = Done st' /\ represents st' (s_hist s)).
Proof.
  intros Hd Hn Hrun. assert (dinv s) as Hi.
  { pose proof (system_init_inv d Hd Hn) as H0i. revert H0i. generalize dependent (system_init d).
    intros s0 Hrun. induction Hrun as [|s1 s2 s3 Hs _ IH]; [done|]. intros H1i. by eapply IH, dstep_inv. }
  split_and!.
  - apply Hi.
  - destruct (load_ok (s_db s) (s_saved s)) as (st' & El & Hrep & _);
      [apply Hi|apply Hi|apply Hi|apply (i_budget_saved _ Hi)|apply (i_budget_saved _ Hi)|eauto].
  - intros batch h Hf. destruct (ack_ok s batch h Hi Hf) as (st' & Ea & Hrep & _).
    pose proof (i_flight _ Hi) as Hfl. rewrite Hf in Hfl.
    destruct Hfl as (st_t & Hrt & Hut & _ & Hkt & Eb & _).
    destruct (append_keys st_t h Hrt Hut Hkt) as [Hpt Hks].
    destruct (write_batch_up (s_db s) batch) as (d' & Hw & _); [apply Hi| |eauto 10].
    rewrite Eb. eapply Forall_impl; [exact Hks|]. intros op (r & _ & ->). apply dkey_ordinary.
Qed.
End recovery.

(* ------------------------------------------------------------------ *)
(** ** A concrete run *)

Import MapStore.

Definition two_rows (r : vals) : Prop := r = [10] \/ r = [20].

Lemma two_rows_universe : universe 3 two_rows.
Proof.
  split.
  - intros r [-> | ->]; (apply List.Forall_cons; [rlia|constructor]).
  - intros r r' [-> | ->] [-> | ->] E; try reflexivity; vm_compute in E; discriminate E.
Qed.

Definition fresh_shard : ShardDb :=
  {| db := (∅ : gmap bytes bytes); last_epoch := 0; allocated_epoch := 0; format_version := 3;
     migration_pending := false; fail_writes := false; fail_flushes := false; fail_scans := false |}.

(** Two rows are processed and appended, one is removed while the batch is in
    flight, and the batch commits. *)
Definition st1 : DistinctState :=
  match distinct_rows distinct_new [(1, [10]); (2, [20])] with Done (st, _) => st | Panic => distinct_new end.
Definition st2 : DistinctState := (append_distinct_state st1 3 batch_new).1.
Definition batch2 : list BatchOp := (append_distinct_state st1 3 batch_new).2.
Definition st3 : DistinctState :=
  match distinct_rows st2 [(-1, [10])] with Done (st, _) => st | Panic => distinct_new end.
Definition st4 : DistinctState :=
  match ack_persisted_state st3 with Done st => st | Panic => distinct_new end.
Definition shard4 : ShardDb :=
  match write_batch fresh_shard batch2 with Done (d, _) => d | Panic => fresh_shard end.

Lemma distinct_state_recoverable_witness :
  represents st4 [(1, [10]); (2, [20]); (-1, [10])] /\
  exists st', load_distinct_state shard4 3 = Done (Ok st') /\ represents st' [(1, [10]); (2, [20])].
Proof.
  set (s4 := {| s_st := st4; s_hist := [(1, [10]); (2, [20]); (-1, [10])]; s_db := shard4;
                s_saved := [(1, [10]); (2, [20])]; s_inflight := None |}).
  destruct (distinct_state_recoverable 3 two_rows two_rows_universe fresh_shard s4) as (Hrep & Hload & _).
  - repeat split.
  - intros k _. exact (lookup_empty (M := gmap bytes) _).
  - eapply rtc_l; [apply (D_process 3 two_rows (system_init fresh_shard) [(1, [10]); (2, [20])] st1 [([10], 1); ([20], 1)])|].
    { constructor; [left; reflexivity|]. constructor; [right; reflexivity|constructor]. }
    { split; vm_compute; discriminate. }
    { vm_compute. reflexivity. }
    eapply rtc_l; [eapply (D_append 3 two_rows _ st2 batch2); [reflexivity|vm_compute; reflexivity]|].
    eapply rtc_l; [eapply (D_process 3 two_rows _ [(-1, [10])] st3 [([10], -1)])|].
    { constructor; [left; reflexivity|constructor]. }
    { split; vm_compute; discriminate. }
    { vm_compute. reflexivity. }
    eapply rtc_l; [eapply (D_commit 3 two_rows _ batch2 [(1, [10]); (2, [20])] shard4 st4)|].
    { reflexivity. }
    { vm_compute. reflexivity. }
    { vm_compute. reflexivity. }
    apply rtc_refl.
  - split; [exact Hrep|exact Hload].
Defined.
