(* ===== verification/Joins.v ===== *)
(** * Incremental inner join ([rockstream-ops/src/join.rs])

    [JoinOp] keeps one arrangement per side, from join key to row id to the row's
    bytes and weight, and joins each epoch's deltas with the arrangements as they
    were before the epoch and with each other.  The specification is the bilinear
    batch query on the accumulated inputs.  The iteration order of a [HashMap] is
    unspecified; [map_to_list] stands for it and no statement depends on it.  The
    amplification counters and the log messages are left out; persistence is in
    the file on the stored join. *)
From stdpp Require Import base tactics list gmap numbers option fin_maps.
From Stdlib Require Import ZArith Lia ZifyBool.
From S2P Require Import Prelude Kernels Keys Progress ArrowZSets Distinct KeyCapsules.
Local Open Scope Z_scope.

(* ------------------------------------------------------------------ *)
(** ** Arrow calls of the join *)

Class ArrowJoin `{ArrowOps} : Type := {
  (** the key value of a slot: [Null] where [is_null], [None] for a type that is
      neither [Int64Array] nor [StringArray] *)
  key_value : Array -> nat -> option KeyValue;
  (** [Schema::new] of non-null [Int64] fields [l_0..] and [r_0..] *)
  join_output_schema_n : nat -> nat -> Schema;
  (** [arrow::compute::concat_batches] *)
  concat_batches : Schema -> list RecordBatch -> result ArrowError RecordBatch
}.

(** The integers of column [j], when it is an [Int64Array]. *)
Definition int_column `{ArrowOps} (b : RecordBatch) (j : nat) : option (list Z) :=
  batch_columns b !! j ≫= as_int64.

Class ArrowJoinLaws `{ArrowJoin} : Prop := {
  key_value_int64 a l i v : as_int64 a = Some l -> l !! i = Some v ->
    key_value a i = Some Null \/ key_value a i = Some (Int64 v);
  join_output_schema_int64 l r :
    int64_schema (join_output_schema_n l r) /\ num_fields (join_output_schema_n l r) = (l + r)%nat;
  concat_batches_ok s bs :
    bs <> [] -> (0 < num_fields s)%nat -> Forall (fun b => batch_schema b = s) bs ->
    exists b, concat_batches s bs = Ok b /\ batch_schema b = s /\
      batch_num_rows b = sum_list (batch_num_rows <$> bs) /\
      forall j ls, Forall2 (fun b' l => int_column b' j = Some l) bs ls -> int_column b j = Some (concat ls)
}.

(* ------------------------------------------------------------------ *)
(** ** Arrangements *)

Definition stable_row_id (op_id : Z) (join_key row_bytes : bytes) : Z :=
  fnv1a fnv_offset (be_bytes 8 op_id ++ join_key ++ row_bytes).

Record ArrRow : Type := { row_bytes : bytes; weight : Z }.

Abbreviation Arrangement := (gmap bytes (gmap Z ArrRow)) (only parsing).

Definition bucket (arr : Arrangement) (join_key : bytes) : gmap Z ArrRow := default ∅ (arr !! join_key).

Record JoinState : Type := {
  left_arr : Arrangement;
  right_arr : Arrangement;
  js_state_bytes : Z
}.

Definition join_state_new : JoinState := {| left_arr := ∅; right_arr := ∅; js_state_bytes := 0 |}.

(** [update_left] and [update_right] on the arrangement of their side; a new key
    gets a bucket, and is charged, even for a delta of weight zero. *)
Definition update_arr (arr : Arrangement) (sb : Z) (join_key : bytes) (row_id : Z) (bytes : bytes) (delta_w : Z)
    : outcome (Arrangement * Z) :=
  let key_len := Z.of_nat (length join_key) in
  sb ← (if bool_decide (arr !! join_key = None) then add_u64 sb key_len else Done sb);
  let bkt := bucket arr join_key in
  match bkt !! row_id with
  | Some entry =>
    w ← expect (checked_i64 (weight entry + delta_w));
    if w =? 0 then
      let bkt := delete row_id bkt in
      let sb := saturating_sub sb (24 + Z.of_nat (length (row_bytes entry))) in
      if bool_decide (bkt = ∅) then Done (delete join_key arr, saturating_sub sb key_len)
      else Done (<[join_key := bkt]> arr, sb)
    else Done (<[join_key := <[row_id := {| row_bytes := row_bytes entry; weight := w |}]> bkt]> arr, sb)
  | None =>
    if delta_w =? 0 then Done (<[join_key := bkt]> arr, sb)
    else
      sb ← add_u64 sb (24 + Z.of_nat (length bytes));
      Done (<[join_key := <[row_id := {| row_bytes := bytes; weight := delta_w |}]> bkt]> arr, sb)
  end.

Definition arr_of (st : JoinState) (side : JoinSide) : Arrangement :=
  match side with Left => left_arr st | Right => right_arr st end.

Definition set_arr (st : JoinState) (side : JoinSide) (arr : Arrangement) (sb : Z) : JoinState :=
  match side with
  | Left => {| left_arr := arr; right_arr := right_arr st; js_state_bytes := sb |}
  | Right => {| left_arr := left_arr st; right_arr := arr; js_state_bytes := sb |}
  end.

Definition update_side (st : JoinState) (side : JoinSide) (join_key : bytes) (row_id : Z) (bytes : bytes) (delta_w : Z)
    : outcome JoinState :=
  '(arr, sb) ← update_arr (arr_of st side) (js_state_bytes st) join_key row_id bytes delta_w;
  Done (set_arr st side arr sb).

(** [probe_left] and [probe_right] *)
Definition probe (st : JoinState) (side : JoinSide) (join_key : bytes) : list (bytes * Z) :=
  (fun e => (row_bytes e.2, weight e.2)) <$> map_to_list (bucket (arr_of st side) join_key).

Record StagedRow : Type := { s_key : bytes; s_row_id : Z; s_bytes : bytes; s_weight : Z }.

Record StagedDelta : Type := { staged_rows : list StagedRow; staged_bytes : Z }.

Definition staged_default : StagedDelta := {| staged_rows := []; staged_bytes := 0 |}.

Definition staged_push (s : StagedDelta) (r : StagedRow) : outcome StagedDelta :=
  b ← add_u64 (staged_bytes s) (Z.of_nat (length (s_key r)) + 16 + Z.of_nat (length (s_bytes r)) + 8);
  Done {| staged_rows := staged_rows s ++ [r]; staged_bytes := b |}.

(* ------------------------------------------------------------------ *)
(** ** The operator *)

Record JoinOp : Type := {
  op_id : Z;
  left_key_cols : list nat;
  right_key_cols : list nat;
  left_n_cols : nat;
  right_n_cols : nat;
  state : JoinState;
  left_staged : StagedDelta;
  right_staged : StagedDelta;
  dirty_left : gset (bytes * Z);
  dirty_right : gset (bytes * Z)
}.

Definition join_with_schema (id : Z) (lk rk : list nat) (ln rn : nat) : JoinOp := {|
  op_id := id; left_key_cols := lk; right_key_cols := rk; left_n_cols := ln; right_n_cols := rn;
  state := join_state_new; left_staged := staged_default; right_staged := staged_default;
  dirty_left := ∅; dirty_right := ∅
|}.

Definition set_staged (op : JoinOp) (side : JoinSide) (s : StagedDelta) : JoinOp := {|
  op_id := op_id op; left_key_cols := left_key_cols op; right_key_cols := right_key_cols op;
  left_n_cols := left_n_cols op; right_n_cols := right_n_cols op; state := state op;
  left_staged := match side with Left => s | Right => left_staged op end;
  right_staged := match side with Left => right_staged op | Right => s end;
  dirty_left := dirty_left op; dirty_right := dirty_right op
|}.

Definition set_state (op : JoinOp) (st : JoinState) (dl dr : gset (bytes * Z)) : JoinOp := {|
  op_id := op_id op; left_key_cols := left_key_cols op; right_key_cols := right_key_cols op;
  left_n_cols := left_n_cols op; right_n_cols := right_n_cols op; state := st;
  left_staged := left_staged op; right_staged := right_staged op; dirty_left := dl; dirty_right := dr
|}.

Definition staged_of (op : JoinOp) (side : JoinSide) : StagedDelta :=
  match side with Left => left_staged op | Right => right_staged op end.
Definition dirty_of (op : JoinOp) (side : JoinSide) : gset (bytes * Z) :=
  match side with Left => dirty_left op | Right => dirty_right op end.
Definition key_cols (op : JoinOp) (side : JoinSide) : list nat :=
  match side with Left => left_key_cols op | Right => right_key_cols op end.
Definition n_cols (op : JoinOp) (side : JoinSide) : nat :=
  match side with Left => left_n_cols op | Right => right_n_cols op end.
Definition other (side : JoinSide) : JoinSide := match side with Left => Right | Right => Left end.

(** One output pair: left values, right values, weight. *)
Abbreviation join_pair := (list Z * list Z * Z)%type (only parsing).

(** The complete 8-byte chunks of a row, at most [n]. *)
Fixpoint deserialize_row (n : nat) (b : bytes) : list Z :=
  match n with
  | O => []
  | S n' => if (length b <? 8)%nat then [] else as_i64 (of_be (take 8 b)) :: deserialize_row n' (drop 8 b)
  end.

(** [right_by_key]: the decoded right rows of each key, in order. *)
Definition right_by_key (n : nat) (rows : list StagedRow) : gmap bytes (list (list Z * Z)) :=
  foldl (fun m r => <[s_key r := default [] (m !! s_key r) ++ [(deserialize_row n (s_bytes r), s_weight r)]]> m)
    ∅ rows.

(** Products of weights, panicking on overflow. *)
Fixpoint weigh (l : list (list Z * list Z * (Z * Z))) : outcome (list join_pair) :=
  match l with
  | [] => Done []
  | (lv, rv, (a, b)) :: rest =>
    w ← expect (checked_i64 (a * b));
    ps ← weigh rest;
    Done ((lv, rv, w) :: ps)
  end.

(** The correction of the pairs within the epoch. *)
Definition correction (op : JoinOp) : outcome (list join_pair) :=
  let by_key := right_by_key (right_n_cols op) (staged_rows (right_staged op)) in
  weigh (mjoin ((fun l =>
    (fun r => (deserialize_row (left_n_cols op) (s_bytes l), r.1, (s_weight l, r.2)))
      <$> default [] (by_key !! s_key l)) <$> staged_rows (left_staged op))).

Fixpoint apply_staged (st : JoinState) (side : JoinSide) (rows : list StagedRow) : outcome JoinState :=
  match rows with
  | [] => Done st
  | r :: rest =>
    st ← update_side st side (s_key r) (s_row_id r) (s_bytes r) (s_weight r);
    apply_staged st side rest
  end.

Definition dirty_rows (rows : list StagedRow) : gset (bytes * Z) :=
  list_to_set ((fun r => (s_key r, s_row_id r)) <$> rows).

Section operator.
Context `{ArrowJoin}.

(** [KeyCapsule::from_arrays] *)
Fixpoint key_values (arrays : list Array) (row : nat) : result KeyCapsuleError (list KeyValue) :=
  match arrays with
  | [] => Ok []
  | a :: rest =>
    match key_value a row with
    | None => Err UnsupportedType
    | Some v => vs ← key_values rest row; Ok (v :: vs)
    end
  end.

(** [column] panics on an index out of range; a key with a null is [None]. *)
Definition extract_key (b : RecordBatch) (row : nat) (cols : list nat) : outcome (result OpError (option bytes)) :=
  arrays ← expect (mapM (fun c => batch_columns b !! c) cols);
  Done match vs ← key_values arrays row; from_values vs with
       | Err _ => Err OpOther
       | Ok k => Ok (if contains_null k then None else Some (typed_bytes k))
       end.

(** A column that is not [Int64] fails the [expect]. *)
Definition serialize_row (b : RecordBatch) (row : nat) : outcome bytes :=
  vs ← expect (mapM (fun c => as_int64 c ≫= (fun a => a !! row)) (batch_columns b));
  Done (row_key vs).

(** The pairs of one delta row with the probed rows of the other side. *)
Definition probe_pairs (op : JoinOp) (side : JoinSide) (join_key : bytes) (rb : bytes) (w : Z)
    : list (list Z * list Z * (Z * Z)) :=
  (fun p : bytes * Z =>
    match side with
    | Left => (deserialize_row (left_n_cols op) rb, deserialize_row (right_n_cols op) p.1, (w, p.2))
    | Right => (deserialize_row (left_n_cols op) p.1, deserialize_row (right_n_cols op) rb, (p.2, w))
    end) <$> probe (state op) (other side) join_key.

(** The row loop of [process_left_delta] and [process_right_delta]; an error
    returns early and leaves the rows staged so far. *)
Fixpoint delta_loop (op : JoinOp) (side : JoinSide) (delta : ArrowZSet) (i n : nat)
    (staged : StagedDelta) (out : list join_pair) : outcome (StagedDelta * result OpError (list join_pair)) :=
  match n with
  | O => Done (staged, Ok out)
  | S n' =>
    w ← expect (weights delta !! i);
    key ← extract_key (data delta) i (key_cols op side);
    match key with
    | Err e => Done (staged, Err e)
    | Ok None => delta_loop op side delta (S i) n' staged out
    | Ok (Some join_key) =>
      rb ← serialize_row (data delta) i;
      ps ← weigh (probe_pairs op side join_key rb w);
      staged' ← staged_push staged
        {| s_key := join_key; s_row_id := stable_row_id (op_id op) join_key rb; s_bytes := rb; s_weight := w |};
      delta_loop op side delta (S i) n' staged' (out ++ ps)
    end
  end.

(** The columns of the pairs; a pair too short leaves its column shorter. *)
Definition make_output_batch (ln rn : nat) (ps : list join_pair) : result OpError RecordBatch :=
  let cols := ((fun j => int64_array (omap (fun p : join_pair => p.1.1 !! j) ps)) <$> seq 0 ln) ++
    ((fun j => int64_array (omap (fun p : join_pair => p.1.2 !! j) ps)) <$> seq 0 rn) in
  map_op_err OpArrow (batch_try_new (join_output_schema_n ln rn) cols).

Definition output_zset (op : JoinOp) (ps : list join_pair) : outcome (result OpError ArrowZSet) :=
  match make_output_batch (left_n_cols op) (right_n_cols op) ps with
  | Err e => Done (Err e)
  | Ok batch => z ← zset_new batch (snd <$> ps); Done (Ok z)
  end.

Definition process_delta (side : JoinSide) (op : JoinOp) (delta : ArrowZSet)
    : outcome (JoinOp * result OpError ArrowZSet) :=
  '(staged, r) ← delta_loop op side delta 0 (num_rows delta) (staged_of op side) [];
  let op' := set_staged op side staged in
  match r with
  | Err e => Done (op', Err e)
  | Ok ps => out ← output_zset op ps; Done (op', out)
  end.

Definition process_left_delta := process_delta Left.
Definition process_right_delta := process_delta Right.

(** The arrangements are updated before the output batch is built. *)
Definition commit_epoch (op : JoinOp) : outcome (JoinOp * result OpError ArrowZSet) :=
  ps ← correction op;
  let lrows := staged_rows (left_staged op) in
  let rrows := staged_rows (right_staged op) in
  st1 ← apply_staged (state op) Left lrows;
  st2 ← apply_staged st1 Right rrows;
  let op1 := set_state op st2 (dirty_left op ∪ dirty_rows lrows) (dirty_right op ∪ dirty_rows rrows) in
  let op2 := set_staged (set_staged op1 Left staged_default) Right staged_default in
  out ← output_zset op ps;
  Done (op2, out).

Definition concat_zsets (batches : list ArrowZSet) (empty_schema : Schema) : outcome (result OpError ArrowZSet) :=
  match base.filter (fun b => is_empty b = false) batches with
  | [] => z ← zset_empty empty_schema; Done (Ok z)
  | [z] => Done (Ok z)
  | (z :: _) as bs =>
    match concat_batches (batch_schema (data z)) (data <$> bs) with
    | Err e => Done (Err (OpArrow e))
    | Ok merged => r ← zset_new merged (mjoin (weights <$> bs)); Done (Ok r)
    end
  end.

Definition process_epoch (op : JoinOp) (e : ArrowZSet * ArrowZSet) : outcome (JoinOp * result OpError ArrowZSet) :=
  '(op1, r1) ← process_left_delta op e.1;
  match r1 with
  | Err er => Done (op1, Err er)
  | Ok left_out =>
    '(op2, r2) ← process_right_delta op1 e.2;
    match r2 with
    | Err er => Done (op2, Err er)
    | Ok right_out =>
      '(op3, r3) ← commit_epoch op2;
      match r3 with
      | Err er => Done (op3, Err er)
      | Ok corr =>
        out ← concat_zsets [left_out; right_out; corr] (join_output_schema_n (left_n_cols op) (right_n_cols op));
        Done (op3, out)
      end
    end
  end.
End operator.

Definition left_entry_count (op : JoinOp) : nat :=
  sum_list (size <$> (map_to_list (left_arr (state op))).*2).
Definition right_entry_count (op : JoinOp) : nat :=
  sum_list (size <$> (map_to_list (right_arr (state op))).*2).

Definition join_state_bytes (op : JoinOp) : outcome Z :=
  s ← add_u64 (js_state_bytes (state op)) (staged_bytes (left_staged op));
  add_u64 s (staged_bytes (right_staged op)).

(* ------------------------------------------------------------------ *)
(** ** Arrangements and histories *)

(** The contribution of a staged row to a key's weighted sum. *)
Definition contrib (k : bytes) (f : bytes -> Z) (h : StagedRow) : Z :=
  if bool_decide (s_key h = k) then f (s_bytes h) * s_weight h else 0.

Definition bucket_sum (f : bytes -> Z) (b : gmap Z ArrRow) : Z :=
  map_sum (fun _ e => f (row_bytes e) * weight e) b.

Definition habs (hist : list StagedRow) : Z := zsum (fun h => Z.abs (s_weight h)) hist.

Definition staged_cost (h : StagedRow) : Z := Z.of_nat (length (s_key h)) + 24 + Z.of_nat (length (s_bytes h)).
Definition hcost (hist : list StagedRow) : Z := zsum staged_cost hist.

Lemma habs_nonneg hist : 0 <= habs hist.
Proof. apply zsum_nonneg, Forall_true. intros. lia. Qed.
Lemma staged_cost_nonneg h : 0 <= staged_cost h.
Proof. unfold staged_cost. lia. Qed.
Lemma hcost_nonneg hist : 0 <= hcost hist.
Proof. apply zsum_nonneg, Forall_true. apply staged_cost_nonneg. Qed.

Lemma hcost_app h1 h2 : hcost (h1 ++ h2) = hcost h1 + hcost h2.
Proof. apply zsum_app. Qed.
Lemma habs_app h1 h2 : habs (h1 ++ h2) = habs h1 + habs h2.
Proof. apply zsum_app. Qed.

Lemma habs_elem hist r : r ∈ hist -> Z.abs (s_weight r) <= habs hist.
Proof.
  intros (l1 & l2 & ->)%list_elem_of_split. unfold habs. rewrite zsum_app, zsum_cons.
  pose proof (habs_nonneg l1). pose proof (habs_nonneg l2). unfold habs in *. lia.
Qed.

Lemma zsum_abs {A} (f g : A -> Z) l : (forall a, Z.abs (f a) <= g a) -> Z.abs (zsum f l) <= zsum g l.
Proof. intros Hfg. induction l as [|a l IH]; [done|]. rewrite !zsum_cons. specialize (Hfg a). lia. Qed.

Lemma bucket_insert arr key b k : bucket (<[key := b]> arr) k = if bool_decide (key = k) then b else bucket arr k.
Proof.
  unfold bucket. case_bool_decide as E; [subst; by rewrite lookup_insert_eq|by rewrite lookup_insert_ne].
Qed.

Lemma bucket_delete arr key k : bucket (delete key arr) k = if bool_decide (key = k) then ∅ else bucket arr k.
Proof.
  unfold bucket. case_bool_decide as E; [subst; by rewrite lookup_delete_eq|by rewrite lookup_delete_ne].
Qed.

Lemma bucket_sum_probe st side k f :
  zsum (fun p : bytes * Z => f p.1 * p.2) (probe st side k) = bucket_sum f (bucket (arr_of st side) k).
Proof.
  unfold probe, bucket_sum, map_sum. rewrite map_fold_foldr.
  induction (map_to_list _) as [|[i e] l IH]; [done|]. rewrite fmap_cons, zsum_cons, IH. done.
Qed.

Section arrangement.
(** [U]: the keys and row bytes of the input; [rid] does not collide on them. *)
Context (U : bytes -> bytes -> Prop) (rid : bytes -> bytes -> Z).
Context (Hrid : forall k b b', U k b -> U k b' -> rid k b = rid k b' -> b = b').

Definition bucket_ok (k : bytes) (b : gmap Z ArrRow) : Prop :=
  forall id e, b !! id = Some e -> U k (row_bytes e) /\ id = rid k (row_bytes e).

(** An arrangement represents a history: the weighted sum over a key's bucket
    is the sum over the history's rows of that key. *)
Record arr_rep (arr : Arrangement) (hist : list StagedRow) : Prop := {
  ar_ids : forall k, bucket_ok k (bucket arr k);
  ar_sum : forall k f, bucket_sum f (bucket arr k) = zsum (contrib k f) hist
}.

Definition staged_ok (r : StagedRow) : Prop := U (s_key r) (s_bytes r) /\ s_row_id r = rid (s_key r) (s_bytes r).

Lemma arr_rep_empty : arr_rep ∅ [].
Proof. by split; intros k; [intros id e|intros f]; unfold bucket; rewrite lookup_empty. Qed.

(** The weight of an entry is the history's weight of its row. *)
Lemma arr_weight arr hist k id e : arr_rep arr hist -> bucket arr k !! id = Some e ->
  weight e = zsum (contrib k (fun b => if bool_decide (b = row_bytes e) then 1 else 0)) hist.
Proof.
  intros Hrep He. rewrite <-(ar_sum _ _ Hrep). unfold bucket_sum.
  rewrite (map_sum_delete _ _ _ _ He), bool_decide_eq_true_2 by done.
  rewrite map_sum_zero; [lia|]. intros id' e' (Hne & He')%lookup_delete_Some.
  rewrite bool_decide_eq_false_2; [lia|]. intros E. apply Hne.
  destruct (ar_ids _ _ Hrep _ _ _ He) as [_ ->], (ar_ids _ _ Hrep _ _ _ He') as [_ ->]. by rewrite E.
Qed.

Lemma arr_weight_abs arr hist k id e : arr_rep arr hist -> bucket arr k !! id = Some e ->
  Z.abs (weight e) <= habs hist.
Proof.
  intros Hrep He. rewrite (arr_weight _ _ _ _ _ Hrep He). apply zsum_abs. intros h. unfold contrib.
  repeat case_bool_decide; lia.
Qed.

(** Replacing the bucket of one key. *)
Lemma arr_rep_step arr arr' hist r b' :
  arr_rep arr hist ->
  (forall k, bucket arr' k = if bool_decide (s_key r = k) then b' else bucket arr k) ->
  bucket_ok (s_key r) b' ->
  (forall f, bucket_sum f b' = bucket_sum f (bucket arr (s_key r)) + f (s_bytes r) * s_weight r) ->
  arr_rep arr' (hist ++ [r]).
Proof.
  intros Hrep Hb Hok Hsum. split.
  - intros k. rewrite Hb. case_bool_decide as E; [by subst|]. apply (ar_ids _ _ Hrep).
  - intros k f. rewrite Hb, zsum_snoc. unfold contrib at 2. case_bool_decide as E.
    + by rewrite Hsum, (ar_sum _ _ Hrep), E.
    + rewrite (ar_sum _ _ Hrep). lia.
Qed.

Lemma bucket_ok_insert k b id e : bucket_ok k b -> U k (row_bytes e) -> id = rid k (row_bytes e) ->
  bucket_ok k (<[id := e]> b).
Proof. intros Hb HU Hid id' e' [[<- <-]|[_ He]]%lookup_insert_Some; [done|by apply Hb]. Qed.

Lemma bucket_ok_delete k b id : bucket_ok k b -> bucket_ok k (delete id b).
Proof. intros Hb id' e' [_ He]%lookup_delete_Some. by apply Hb. Qed.

(** What one update of an arrangement does. *)
Lemma update_arr_ok arr sb hist budget r :
  arr_rep arr hist -> staged_ok r -> habs (hist ++ [r]) <= i64_max ->
  0 <= sb <= budget -> budget + staged_cost r <= u64_max ->
  exists arr' sb', update_arr arr sb (s_key r) (s_row_id r) (s_bytes r) (s_weight r) = Done (arr', sb') /\
    arr_rep arr' (hist ++ [r]) /\ 0 <= sb' <= budget + staged_cost r.
Proof.
  intros Hrep [HU Hid] Hw Hsb Hc. unfold update_arr, staged_cost in *.
  set (sb1 := if bool_decide (arr !! s_key r = None) then sb + Z.of_nat (length (s_key r)) else sb).
  assert (sb <= sb1 <= sb + Z.of_nat (length (s_key r))) as Hsb1 by (unfold sb1; case_bool_decide; lia).
  replace (if bool_decide (arr !! s_key r = None) then _ else _) with (Done sb1)
    by (unfold sb1; case_bool_decide; [unfold add_u64; by rewrite checked_in by lia|done]).
  cbn [mbind outcome_bind]. pose proof (ar_ids _ _ Hrep (s_key r)) as Hok.
  assert (habs hist + Z.abs (s_weight r) <= i64_max) as Hw' by (unfold habs in *; by rewrite zsum_snoc in Hw).
  destruct (bucket arr (s_key r) !! s_row_id r) as [e|] eqn:He.
  - destruct (Hok _ _ He) as [HUe Hide].
    assert (row_bytes e = s_bytes r) as Hbytes by (apply (Hrid (s_key r)); congruence).
    pose proof (arr_weight_abs _ _ _ _ _ Hrep He) as Ha. rewrite checked_in by rlia.
    cbn [expect mbind outcome_bind]. destruct (Z.eqb_spec (weight e + s_weight r) 0) as [E0|E0].
    + assert (forall f, bucket_sum f (delete (s_row_id r) (bucket arr (s_key r))) =
        bucket_sum f (bucket arr (s_key r)) + f (s_bytes r) * s_weight r) as Hsum.
      { intros f. unfold bucket_sum. rewrite (map_sum_delete _ _ _ _ He), Hbytes. nia. }
      case_bool_decide as Hemp; eexists _, _; (split; [done|]); unfold saturating_sub; (split; [|lia]).
      * eapply (arr_rep_step arr _ hist r ∅); [done|intros k; apply bucket_delete|by intros id e'|].
        intros f. by rewrite <-Hsum, Hemp.
      * eapply arr_rep_step; [done|intros k; apply bucket_insert|by apply bucket_ok_delete|done].
    + eexists _, _; split; [done|]. split; [|lia].
      eapply arr_rep_step; [done|intros k; apply bucket_insert|by apply bucket_ok_insert|].
      intros f. unfold bucket_sum. rewrite (map_sum_update _ _ _ _ _ He). cbn [row_bytes weight]. rewrite Hbytes. lia.
  - destruct (Z.eqb_spec (s_weight r) 0) as [E0|E0].
    + eexists _, _; split; [done|]. split; [|lia].
      eapply arr_rep_step; [done|intros k; apply bucket_insert|done|]. intros f. rewrite E0. lia.
    + unfold add_u64. rewrite checked_in by lia. cbn [expect mbind outcome_bind].
      eexists _, _; split; [done|]. split; [|lia].
      eapply arr_rep_step; [done|intros k; apply bucket_insert|by apply bucket_ok_insert|].
      intros f. unfold bucket_sum. rewrite map_sum_insert by done. cbn [row_bytes weight]. lia.
Qed.
End arrangement.

(* ------------------------------------------------------------------ *)
(** ** The bilinear join of histories *)

(** The join of two histories, weighted by a function of the row bytes. *)
Definition bilin (g : bytes -> bytes -> Z) (hl hr : list StagedRow) : Z :=
  zsum (fun a => s_weight a * zsum (contrib (s_key a) (g (s_bytes a))) hr) hl.

Lemma bilin_app_l g h1 h2 hr : bilin g (h1 ++ h2) hr = bilin g h1 hr + bilin g h2 hr.
Proof. apply zsum_app. Qed.

Lemma bilin_app_r g hl h1 h2 : bilin g hl (h1 ++ h2) = bilin g hl h1 + bilin g hl h2.
Proof.
  unfold bilin. induction hl as [|a hl IH]; [done|]. rewrite !zsum_cons, IH, zsum_app. lia.
Qed.

(** A delta on one side against a history of the other. *)
Definition bilin_side (side : JoinSide) (g : bytes -> bytes -> Z) (d h : list StagedRow) : Z :=
  match side with Left => bilin g d h | Right => bilin g h d end.

Lemma bilin_side_nil side g h : bilin_side side g [] h = 0.
Proof.
  destruct side; [done|]. apply zsum_zero, Forall_true. intros a. unfold zsum. simpl. lia.
Qed.

Lemma bilin_side_app side g d1 d2 h :
  bilin_side side g (d1 ++ d2) h = bilin_side side g d1 h + bilin_side side g d2 h.
Proof. destruct side; [apply bilin_app_l|apply bilin_app_r]. Qed.

Lemma zsum_ext {A} (f g : A -> Z) l : (forall a, f a = g a) -> zsum f l = zsum g l.
Proof. intros Hfg. induction l as [|a l IH]; [done|]. by rewrite !zsum_cons, IH, Hfg. Qed.

Lemma zsum_scale {A} (c : Z) (f : A -> Z) l : zsum (fun a => c * f a) l = c * zsum f l.
Proof. induction l as [|a l IH]; [unfold zsum; simpl; lia|]. rewrite !zsum_cons, IH. lia. Qed.

Lemma bilin_single_l g r h : bilin g [r] h = s_weight r * zsum (contrib (s_key r) (g (s_bytes r))) h.
Proof. unfold bilin. rewrite zsum_cons. change (zsum _ []) with 0. lia. Qed.

Lemma bilin_single_r g r h : bilin g h [r] = s_weight r * zsum (contrib (s_key r) (fun b => g b (s_bytes r))) h.
Proof.
  unfold bilin. rewrite <-zsum_scale. apply zsum_ext. intros a. rewrite zsum_cons.
  change (zsum _ []) with 0. unfold contrib. rewrite (bool_decide_ext (s_key a = s_key r) (s_key r = s_key a)) by done.
  case_bool_decide; lia.
Qed.

(** The sum of output pairs. *)
Definition pair_sum (G : list Z -> list Z -> Z) (ps : list join_pair) : Z :=
  zsum (fun p : join_pair => G p.1.1 p.1.2 * p.2) ps.

Lemma pair_sum_app G ps qs : pair_sum G (ps ++ qs) = pair_sum G ps + pair_sum G qs.
Proof. apply zsum_app. Qed.

Definition pair_ok (ln rn : nat) (p : join_pair) : Prop :=
  (i64_row p.1.1 /\ length p.1.1 = ln) /\ (i64_row p.1.2 /\ length p.1.2 = rn).

Lemma weigh_ok l :
  Forall (fun x : list Z * list Z * (Z * Z) => Z.abs (x.2.1 * x.2.2) <= i64_max) l ->
  weigh l = Done ((fun x => (x.1, x.2.1 * x.2.2)) <$> l).
Proof.
  induction 1 as [|[[lv rv] [a b]] l Hx _ IH]; [done|]. cbn [weigh]. cbn in Hx.
  rewrite checked_in by rlia. cbn [expect mbind outcome_bind]. by rewrite IH.
Qed.

Lemma pair_sum_weighed {A} G (g : A -> list Z * list Z * (Z * Z)) l :
  pair_sum G ((fun x => (x.1, x.2.1 * x.2.2)) <$> (g <$> l)) =
  zsum (fun a => G (g a).1.1 (g a).1.2 * ((g a).2.1 * (g a).2.2)) l.
Proof. unfold pair_sum. induction l as [|a l IH]; [done|]. rewrite !fmap_cons, !zsum_cons, IH. done. Qed.

Lemma as_i64_of_be v : in_i64 v -> as_i64 (of_be (be_bytes 8 v)) = v.
Proof.
  intros Hv. rewrite of_be_be_bytes. change (256 ^ Z.of_nat 8) with (2 ^ 64).
  by apply (as_i64_as_u64 v).
Qed.

Lemma deserialize_row_key r n : i64_row r -> length r = n -> deserialize_row n (row_key r) = r.
Proof.
  intros Hr <-. induction Hr as [|v r Hv _ IH]; [done|]. unfold row_key in *. rewrite fmap_cons.
  cbn [concat length deserialize_row].
  rewrite length_app, length_be_bytes, (proj2 (Nat.ltb_ge _ 8)) by lia.
  rewrite (take_app_length' _ _ 8), (drop_app_length' _ _ 8) by (by rewrite length_be_bytes).
  by rewrite as_i64_of_be, IH.
Qed.

(** Grouping by key keeps the order: the bucket of a key is the filtered list. *)
Lemma right_by_key_lookup n rows k :
  default [] (right_by_key n rows !! k) =
  (fun r => (deserialize_row n (s_bytes r), s_weight r)) <$> base.filter (fun r => s_key r = k) rows.
Proof.
  unfold right_by_key. induction rows as [|r rows IH] using rev_ind; [done|].
  rewrite foldl_snoc, filter_app, fmap_app, <-IH. destruct (decide (s_key r = k)) as [<-|E].
  - rewrite lookup_insert_eq, filter_cons_True by done. done.
  - rewrite lookup_insert_ne, filter_cons_False by done. apply symmetry, app_nil_r.
Qed.

(* ------------------------------------------------------------------ *)
(** ** The specification *)

(** An input row with the values of its key columns. *)
Record KeyedRow : Type := { k_vals : list KeyValue; k_row : list Z; k_weight : Z }.

Definition key_vals `{ArrowJoin} (b : RecordBatch) (i : nat) (cols : list nat) : list KeyValue :=
  omap (fun c => batch_columns b !! c ≫= (fun a => key_value a i)) cols.

Definition keyed_row `{ArrowJoin} (cols : list nat) (z : ArrowZSet) (i : nat) : KeyedRow :=
  {| k_vals := key_vals (data z) i cols; k_row := extract_row_vals (data z) i; k_weight := nth i (weights z) 0 |}.

Definition keyed_rows `{ArrowJoin} (cols : list nat) (z : ArrowZSet) : list KeyedRow :=
  keyed_row cols z <$> seq 0 (num_rows z).

(** SQL equality of keys: equal values, none of them null. *)
Definition keys_match (a b : KeyedRow) : bool :=
  bool_decide (k_vals a = k_vals b) && negb (bool_decide (Null ∈ k_vals a)).

(** The weight of the pair [(l, r)] in the join of two weighted inputs. *)
Definition join_weight (lefts rights : list KeyedRow) (l r : list Z) : Z :=
  zsum (fun a => zsum (fun b =>
    if keys_match a b && bool_decide (k_row a = l) && bool_decide (k_row b = r)
    then k_weight a * k_weight b else 0) rights) lefts.

(** The staged form of a row: none when a key value is null. *)
Definition staged_row (id : Z) (a : KeyedRow) : option StagedRow :=
  if bool_decide (Null ∈ k_vals a) then None
  else Some {| s_key := values_bytes (k_vals a);
               s_row_id := stable_row_id id (values_bytes (k_vals a)) (row_key (k_row a));
               s_bytes := row_key (k_row a); s_weight := k_weight a |}.

Definition stage (id : Z) (rows : list KeyedRow) : list StagedRow := omap (staged_row id) rows.

Lemma stage_app id l k : stage id (l ++ k) = stage id l ++ stage id k.
Proof. apply omap_app. Qed.

(* ------------------------------------------------------------------ *)
(** ** Reading a delta row *)

Section reading.
Context `{ArrowOps} `{!ArrowLaws} `{!ArrowJoin} `{!ArrowJoinLaws}.

(** Slot [i] of column [c] of an integer batch. *)
Lemma int_slot b c i : int64_schema (batch_schema b) -> (c < num_fields (batch_schema b))%nat -> (i < batch_num_rows b)%nat ->
  exists a l v, batch_columns b !! c = Some a /\ as_int64 a = Some l /\ l !! i = Some v /\ in_i64 v.
Proof.
  intros Hs Hc Hi. pose proof (batch_conforms b) as Hconf.
  destruct (lookup_lt_is_Some_2 (batch_columns b) c) as [a Ha]; [by rewrite (conforms_fields _ _ Hconf)|].
  destruct (Forall_lookup_1 _ _ _ _ (int64_schema_columns _ _ Hs Hconf) Ha) as [l Hl].
  pose proof (Forall_lookup_1 _ _ _ _ (batch_columns_len b) Ha) as Hlen. cbn in Hlen.
  destruct (lookup_lt_is_Some_2 l i) as [v Hv]; [by rewrite (as_int64_len _ _ Hl), Hlen|].
  exists a, l, v. split_and!; try done. all: apply (Forall_lookup_1 _ _ _ _ (as_int64_range _ _ Hl) Hv).
Qed.

Lemma key_values_ok b i cols :
  int64_schema (batch_schema b) -> (i < batch_num_rows b)%nat ->
  Forall (fun c => (c < num_fields (batch_schema b))%nat) cols ->
  exists arrays, mapM (fun c => batch_columns b !! c) cols = Some arrays /\
    key_values arrays i = Ok (key_vals b i cols) /\ Forall value_ok (key_vals b i cols) /\
    length (key_vals b i cols) = length cols /\
    (length (concat (encode_value <$> key_vals b i cols)) <= 13 * length cols)%nat.
Proof.
  intros Hs Hi. induction 1 as [|c cols Hc _ (arrays & Hm & Hk & Hv & Hl & Hlen)]; [by exists []|].
  destruct (int_slot b c i Hs Hc Hi) as (a & l & v & Ha & Hal & Hlv & Hi64).
  exists (a :: arrays). unfold key_vals in *. cbn [mapM omap list_omap mbind option_bind]. rewrite Ha.
  cbn [mbind option_bind]. rewrite Hm. split; [done|]. cbn [key_values].
  destruct (key_value_int64 a l i v Hal Hlv) as [-> | ->]; rewrite Hk; (split; [done|]);
    (split; [by constructor|]); cbn [length]; (split; [by rewrite Hl|]);
    rewrite fmap_cons; cbn [concat encode_value]; rewrite length_app, length_frame, ?length_be_bytes; cbn [length]; lia.
Qed.

Lemma contains_null_values vs : vs <> [] -> values_ok vs ->
  exists k, from_values vs = Ok k /\ typed_bytes k = values_bytes vs /\ contains_null k = bool_decide (Null ∈ vs).
Proof.
  intros Hne Hok. assert (exists k, from_values vs = Ok k) as [k Hk] by (destruct vs as [|? [|??]]; [done|by eexists..]).
  exists k. pose proof (from_values_bytes vs k Hk) as Hb. split_and!; try done.
  unfold contains_null, is_null. rewrite Hb. by apply values_bytes_null.
Qed.

Definition cols_ok (s : Schema) (cols : list nat) : Prop :=
  cols <> [] /\ Forall (fun c => (c < num_fields s)%nat) cols /\ Z.of_nat (13 * length cols) < 2 ^ 32.

Lemma extract_key_ok b i cols :
  int64_schema (batch_schema b) -> (i < batch_num_rows b)%nat -> cols_ok (batch_schema b) cols ->
  values_ok (key_vals b i cols) /\
  extract_key b i cols = Done (Ok (if bool_decide (Null ∈ key_vals b i cols) then None
    else Some (values_bytes (key_vals b i cols)))).
Proof.
  intros Hs Hi (Hne & Hc & Hlen). destruct (key_values_ok b i cols Hs Hi Hc) as (arrays & Hm & Hk & Hv & Hl & Hb).
  assert (values_ok (key_vals b i cols)) as Hok by (split; [done|lia]). split; [done|].
  unfold extract_key. rewrite Hm. cbn [expect mbind outcome_bind]. rewrite Hk. cbn [mbind result_bind].
  destruct (contains_null_values (key_vals b i cols)) as (k & -> & -> & ->); [|done|by case_bool_decide].
  intros E. rewrite E in Hl. by destruct cols.
Qed.

Lemma serialize_row_ok b i :
  int64_schema (batch_schema b) -> (i < batch_num_rows b)%nat ->
  serialize_row b i = Done (row_key (extract_row_vals b i)).
Proof.
  intros Hs Hi. unfold serialize_row, extract_row_vals.
  pose proof (int64_schema_columns _ _ Hs (batch_conforms b)) as Hint. pose proof (batch_columns_len b) as Hlen.
  replace (mapM _ (batch_columns b)) with
    (Some ((fun col => match as_int64 col with Some a => nth i a 0 | None => 0 end) <$> batch_columns b)); [done|].
  induction (batch_columns b) as [|c cols IH]; [done|].
  inversion_clear Hint as [|? ? [l Hl] Hint']. inversion_clear Hlen as [|? ? Hc Hlen'].
  rewrite fmap_cons. cbn [mapM]. rewrite <-(IH Hint' Hlen'), Hl. cbn [mbind option_bind].
  destruct (lookup_lt_is_Some_2 l i) as [v Hv]; [by rewrite (as_int64_len _ _ Hl), Hc|].
  rewrite Hv. cbn [mbind option_bind mret option_ret]. by rewrite (nth_lookup_Some _ _ _ _ Hv).
Qed.
End reading.

(* ------------------------------------------------------------------ *)
(** ** Output batches *)

Section outputs.
Context `{ArrowOps} `{!ArrowLaws} `{!ArrowJoin} `{!ArrowJoinLaws}.

(** A batch of integer columns holds the rows [R]. *)
Definition holds (b : RecordBatch) (R : list (list Z)) : Prop :=
  batch_num_rows b = length R /\ Forall (fun r => length r = num_fields (batch_schema b)) R /\
  forall j, (j < num_fields (batch_schema b))%nat -> int_column b j = Some ((fun r => nth j r 0) <$> R).

Definition zset_holds (s : Schema) (z : ArrowZSet) (l : list (Z * list Z)) : Prop :=
  batch_schema (data z) = s /\ weights z = l.*1 /\ holds (data z) l.*2.

Lemma holds_extract b R i r : holds b R -> R !! i = Some r -> extract_row_vals b i = r.
Proof.
  intros (_ & Hl & Hc) Hi. pose proof (Forall_lookup_1 _ _ _ _ Hl Hi) as Hr. cbn in Hr.
  pose proof (conforms_fields _ _ (batch_conforms b)) as Hn. unfold extract_row_vals. apply list_eq. intros j.
  rewrite list_lookup_fmap. destruct (decide (j < num_fields (batch_schema b))%nat) as [Hj|Hj].
  - specialize (Hc j Hj). unfold int_column in Hc. destruct (batch_columns b !! j) as [c|]; [|done].
    cbn in *. rewrite Hc. destruct (lookup_lt_is_Some_2 r j) as [v Hv]; [lia|]. rewrite Hv. f_equal.
    apply nth_lookup_Some. rewrite list_lookup_fmap, Hi. cbn. by rewrite (nth_lookup_Some _ _ _ _ Hv).
  - rewrite !(proj2 (lookup_ge_None _ _)) by lia. done.
Qed.

Lemma zset_holds_rows s z l : zset_holds s z l -> aligned (data z) (weights z) = true /\ rows_of z = l.
Proof.
  intros (_ & Hw & Hh). pose proof Hh as (Hn & _). rewrite length_fmap in Hn. split.
  { apply aligned_spec. by rewrite Hw, length_fmap. }
  unfold rows_of, delta_rows, num_rows. rewrite Hn, delta_rows_from_spec; [done|]. intros j e Hj. cbn [Nat.add].
  rewrite Hw, list_lookup_fmap, Hj. split; [done|]. apply (holds_extract _ _ _ _ Hh). by rewrite list_lookup_fmap, Hj.
Qed.

Lemma omap_column {A} (f : A -> list Z) n j (ps : list A) : Forall (fun p => length (f p) = n) ps -> (j < n)%nat ->
  omap (fun p => f p !! j) ps = (fun p => nth j (f p) 0) <$> ps.
Proof.
  intros Hl Hj. induction Hl as [|p ps Hp _ IH]; [done|]. cbn [omap list_omap]. rewrite fmap_cons.
  destruct (lookup_lt_is_Some_2 (f p) j) as [v Hv]; [lia|]. rewrite Hv, (nth_lookup_Some _ _ _ _ Hv). by f_equal.
Qed.

Definition pair_row (p : join_pair) : list Z := p.1.1 ++ p.1.2.

Lemma output_columns ln rn ps : Forall (pair_ok ln rn) ps ->
  ((fun j => int64_array (omap (fun p : join_pair => p.1.1 !! j) ps)) <$> seq 0 ln) ++
  ((fun j => int64_array (omap (fun p : join_pair => p.1.2 !! j) ps)) <$> seq 0 rn) =
  (fun j => int64_array ((fun p => nth j (pair_row p) 0) <$> ps)) <$> seq 0 (ln + rn).
Proof.
  intros Hps. rewrite seq_app, fmap_app. cbn [Nat.add]. f_equal.
  - apply list_fmap_ext. intros i j [-> Hj]%lookup_seq. cbn. f_equal. rewrite (omap_column (fun p : join_pair => p.1.1) ln); [|by eapply Forall_impl; [exact Hps|intros p [[_ ?] _]]|lia].
    apply list_fmap_ext. intros k p Hp. unfold pair_row. rewrite app_nth1; [done|].
    destruct (Forall_lookup_1 _ _ _ _ Hps Hp) as [[_ ->] _]. lia.
  - replace (seq ln rn) with (Nat.add ln <$> seq 0 rn) by (rewrite fmap_add_seq; f_equal; lia).
    rewrite <-list_fmap_compose. apply list_fmap_ext. intros i j [-> Hj]%lookup_seq. cbn. f_equal.
    rewrite (omap_column (fun p : join_pair => p.1.2) rn); [|by eapply Forall_impl; [exact Hps|intros p [_ [_ ?]]]|lia].
    apply list_fmap_ext. intros k p Hp. unfold pair_row.
    destruct (Forall_lookup_1 _ _ _ _ Hps Hp) as [[_ Hl] _]. rewrite app_nth2; [|lia]. f_equal. lia.
Qed.

Lemma column_i64 ln rn ps j : Forall (pair_ok ln rn) ps ->
  Forall (fun v => in_i64 v) ((fun p => nth j (pair_row p) 0) <$> ps).
Proof.
  intros Hps. apply Forall_fmap. eapply Forall_impl; [exact Hps|]. intros p [[Hl _] [Hr _]]. cbn.
  destruct (nth_in_or_default j (pair_row p) 0) as [Hin| ->]; [|rlia].
  assert (Forall (fun v => in_i64 v) (pair_row p)) as Hall by (by apply Forall_app).
  rewrite Forall_forall in Hall. apply Hall. by apply list_elem_of_In.
Qed.

Definition weighted (p : join_pair) : Z * list Z := (p.2, pair_row p).

Lemma output_zset_ok op ln rn ps :
  left_n_cols op = ln -> right_n_cols op = rn -> (0 < ln + rn)%nat -> Forall (pair_ok ln rn) ps ->
  exists z, output_zset op ps = Done (Ok z) /\ zset_holds (join_output_schema_n ln rn) z (weighted <$> ps).
Proof.
  intros Hln Hrn Hn Hps. destruct (join_output_schema_int64 ln rn) as [Hs Hf].
  unfold output_zset, make_output_batch. rewrite Hln, Hrn, output_columns by done.
  set (vals j := (fun p => nth j (pair_row p) 0) <$> ps). change (fun j => int64_array _) with (int64_array ∘ vals).
  rewrite list_fmap_compose.
  destruct (batch_try_new_ok (join_output_schema_n ln rn) (int64_array <$> (vals <$> seq 0 (ln + rn))) (length ps))
    as (b & -> & Hcols & Hsch & Hnr).
  - apply int64_conforms; [done|]. by rewrite length_fmap, length_seq.
  - intros E%(f_equal length). rewrite !length_fmap, length_seq in E. cbn in E. lia.
  - apply Forall_fmap, Forall_fmap, Forall_true. intros j. cbn. rewrite cells_int64_array. unfold vals. by rewrite length_fmap.
  - cbn [map_op_err]. unfold zset_new, zset_try_new.
    assert (aligned b (snd <$> ps) = true) as -> by (apply aligned_spec; by rewrite length_fmap).
    cbn. eexists. split; [done|]. split_and!; cbn [data weights]; [done|by rewrite <-list_fmap_compose|].
    split_and!.
    + by rewrite !length_fmap.
    + apply Forall_fmap, Forall_fmap. eapply Forall_impl; [exact Hps|]. intros p [[_ Hl] [_ Hr]]. cbn.
      unfold pair_row. rewrite length_app, Hsch, Hf. lia.
    + intros j Hj. rewrite Hsch, Hf in Hj. unfold int_column. rewrite Hcols, !list_lookup_fmap, lookup_seq_lt by done.
      cbn. rewrite as_int64_array by (by eapply column_i64). by rewrite <-!list_fmap_compose.
Qed.

(** Dropping the empty batches loses no row. *)
Lemma filter_holds s (zl : list (ArrowZSet * list (Z * list Z))) :
  Forall (fun p => zset_holds s p.1 p.2) zl ->
  exists zl', base.filter (fun b => is_empty b = false) zl.*1 = zl'.*1 /\ mjoin zl'.*2 = mjoin zl.*2 /\
    Forall (fun p => zset_holds s p.1 p.2) zl'.
Proof.
  induction 1 as [|[z l] zl Hz _ (zl' & Hf & Hm & Hall')]; [by exists []|].
  rewrite !fmap_cons, all_rows_cons. cbn [fst snd]. destruct (is_empty z) eqn:He.
  - rewrite filter_cons_False by (by rewrite He). exists zl'. split_and!; [done| |done]. rewrite Hm.
    destruct Hz as (_ & _ & Hr & _). cbn in Hr. unfold is_empty in He. apply Nat.eqb_eq in He.
    rewrite length_fmap in Hr. destruct l; [done|]. cbn in Hr. lia.
  - rewrite filter_cons_True by done. exists ((z, l) :: zl'). rewrite Hf. split_and!; [done| |by constructor].
    by rewrite fmap_cons, all_rows_cons, Hm.
Qed.

Lemma mjoin_fst (ls : list (list (Z * list Z))) : mjoin ((fmap fst) <$> ls) = (mjoin ls).*1.
Proof. induction ls as [|l ls IH]; [done|]. rewrite fmap_cons, all_rows_cons, fmap_app, <-IH. done. Qed.

Lemma mjoin_snd (ls : list (list (Z * list Z))) : mjoin ((fmap snd) <$> ls) = (mjoin ls).*2.
Proof. induction ls as [|l ls IH]; [done|]. rewrite fmap_cons, all_rows_cons, fmap_app, <-IH. done. Qed.

(** Concatenated batches hold the concatenated rows. *)
Lemma concat_batches_holds s (bs : list (RecordBatch * list (list Z))) :
  bs <> [] -> (0 < num_fields s)%nat -> Forall (fun p => batch_schema p.1 = s /\ holds p.1 p.2) bs ->
  exists b, concat_batches s bs.*1 = Ok b /\ batch_schema b = s /\ holds b (mjoin bs.*2).
Proof.
  intros Hne Hn Hall. destruct (concat_batches_ok s bs.*1) as (b & Hb & Hsch & Hnr & Hcol); [by destruct bs|done| |].
  { apply Forall_fmap. eapply Forall_impl; [exact Hall|]. by intros p [? _]. }
  exists b. split_and!; [done|done|]. unfold holds. rewrite Hnr, Hsch. clear Hb Hnr Hne. split_and!.
  - clear Hcol. induction Hall as [|[b' R] bs [_ [Hr _]] _ IH]; [done|]. rewrite !fmap_cons.
    change (mjoin (?x :: ?y)) with (x ++ mjoin y). rewrite length_app, <-IH, <-Hr. done.
  - clear Hcol. induction Hall as [|[b' R] bs [Hs' (_ & Hl & _)] _ IH]; [constructor|]. rewrite !fmap_cons.
    change (mjoin (?x :: ?y)) with (x ++ mjoin y). apply Forall_app. split; [|done]. cbn in *. by rewrite <-Hs'.
  - intros j Hj. rewrite (Hcol j ((fun p : RecordBatch * list (list Z) => (fun r => nth j r 0) <$> p.2) <$> bs)).
    + f_equal. clear. induction bs as [|[b' R] bs IH]; [done|]. rewrite !fmap_cons. cbn [concat].
      change (mjoin (?x :: ?y)) with (x ++ mjoin y). by rewrite fmap_app, <-IH.
    + clear Hcol. induction Hall as [|[b' R] bs [Hs' (_ & _ & Hc)] _ IH]; [constructor|]. rewrite !fmap_cons.
      constructor; [|done]. cbn in *. apply Hc. by rewrite Hs'.
Qed.

(** Empty batches are dropped and the rest is put together in order. *)
Lemma concat_zsets_ok s (zl : list (ArrowZSet * list (Z * list Z))) :
  (0 < num_fields s)%nat -> Forall (fun p => zset_holds s p.1 p.2) zl ->
  exists z, concat_zsets zl.*1 s = Done (Ok z) /\ rows_of z = mjoin zl.*2 /\ aligned (data z) (weights z) = true.
Proof.
  intros Hn Hall. destruct (filter_holds s zl Hall) as (zl' & Hf & <- & Hall').
  unfold concat_zsets. rewrite Hf. clear Hf Hall zl. destruct zl' as [|[z l] zl'].
  { destruct (zset_empty_ok s Hn) as (z & -> & Hd & Ha). exists z. cbn. unfold rows_of. by rewrite Hd. }
  destruct (concat_batches_holds s ((fun p => (data p.1, p.2.*2)) <$> (z, l) :: zl')) as (b & Hb & Hsch & Hh); [done|done| |].
  { apply Forall_fmap. eapply Forall_impl; [exact Hall'|]. intros p (Hp & _ & Hph). by split. }
  pose proof (Forall_inv Hall') as Hz. destruct zl' as [|[z2 l2] zl'].
  { destruct (zset_holds_rows _ _ _ Hz) as [Ha Hr]. exists z. split_and!; [done| |done]. etrans; [exact Hr|]. symmetry. apply app_nil_r. }
  set (zs := (z, l) :: (z2, l2) :: zl') in *.
  rewrite <-!list_fmap_compose in Hb, Hh.
  assert (holds b (mjoin zs.*2).*2) as Hh' by (rewrite <-mjoin_snd, <-list_fmap_compose; exact Hh).
  assert (mjoin (weights <$> zs.*1) = (mjoin zs.*2).*1) as Hw.
  { rewrite <-mjoin_fst, <-!list_fmap_compose. f_equal. apply list_fmap_ext. intros i p Hp.
    apply (Forall_lookup_1 _ _ _ _ Hall' Hp). }
  assert (zset_holds s {| data := b; weights := mjoin (weights <$> zs.*1); frontier := None |} (mjoin zs.*2)) as Hres by done.
  destruct (zset_holds_rows _ _ _ Hres) as [Ha Hr].
  eexists. split; [|split; [exact Hr|exact Ha]]. change (base.fmap fst zs) with (z :: z2 :: zl'.*1). cbv iota beta.
  change (z :: z2 :: zl'.*1) with zs.*1. cbn [fst snd] in Hz. rewrite (proj1 Hz), <-list_fmap_compose.
  change (data ∘ fst) with (fst ∘ (fun p : ArrowZSet * list (Z * list Z) => (data p.1, p.2.*2))). rewrite Hb.
  unfold zset_new, zset_try_new. cbn [data weights] in Ha. by rewrite Ha.
Qed.
End outputs.

(* ------------------------------------------------------------------ *)
(** ** One epoch *)

Section epoch.
Context `{ArrowOps} `{!ArrowLaws} `{!ArrowJoin} `{!ArrowJoinLaws}.
Context (id : Z) (lk rk : list nat) (sl sr : Schema).
Context (Hsl : int64_schema sl) (Hsr : int64_schema sr) (Hlk : cols_ok sl lk) (Hrk : cols_ok sr rk).
(** [U]: the keys and row bytes that occur on each side. *)
Context (U : JoinSide -> bytes -> bytes -> Prop).
Context (Hrid : forall side k b b', U side k b -> U side k b' -> stable_row_id id k b = stable_row_id id k b' -> b = b').

#[local] Abbreviation ln := (num_fields sl).
#[local] Abbreviation rn := (num_fields sr).

Definition side_schema (side : JoinSide) : Schema := match side with Left => sl | Right => sr end.
Definition side_cols (side : JoinSide) : list nat := match side with Left => lk | Right => rk end.

Context (HU : forall side k b, U side k b ->
  exists r, b = row_key r /\ i64_row r /\ length r = num_fields (side_schema side)).

Definition configured (op : JoinOp) : Prop :=
  op_id op = id /\ left_key_cols op = lk /\ right_key_cols op = rk /\ left_n_cols op = ln /\ right_n_cols op = rn.

(** The operator's arrangements represent the histories [h]. *)
Record join_rep (op : JoinOp) (h : JoinSide -> list StagedRow) : Prop := {
  jr_config : configured op;
  jr_arr : forall side, arr_rep (U side) (stable_row_id id) (arr_of (state op) side) (h side);
  jr_bytes : 0 <= js_state_bytes (state op) <= hcost (h Left) + hcost (h Right)
}.

(** A function of value pairs, on row bytes. *)
Definition on_bytes (G : list Z -> list Z -> Z) (a b : bytes) : Z :=
  G (deserialize_row ln a) (deserialize_row rn b).

Lemma probe_elem op h side k p : join_rep op h -> p ∈ probe (state op) side k ->
  U side k p.1 /\ Z.abs p.2 <= habs (h side).
Proof.
  intros Hrep Hp. unfold probe in Hp. apply list_elem_of_fmap in Hp as ([i e] & -> & Hin).
  apply elem_of_map_to_list in Hin. cbn [fst snd].
  destruct (ar_ids _ _ _ _ (jr_arr _ _ Hrep side) _ _ _ Hin) as [? _].
  split; [done|]. by eapply arr_weight_abs; [apply (jr_arr _ _ Hrep side)|].
Qed.

Lemma deserialize_ok side k b : U side k b ->
  i64_row (deserialize_row (num_fields (side_schema side)) b) /\
  length (deserialize_row (num_fields (side_schema side)) b) = num_fields (side_schema side).
Proof. intros HUb. destruct (HU _ _ _ HUb) as (r & -> & Hr & Hl). by rewrite deserialize_row_key. Qed.

Lemma probe_pairs_ok op h side r :
  join_rep op h -> staged_ok (U side) (stable_row_id id) r ->
  Z.abs (s_weight r) * habs (h (other side)) <= i64_max ->
  exists ps, weigh (probe_pairs op side (s_key r) (s_bytes r) (s_weight r)) = Done ps /\
    Forall (pair_ok ln rn) ps /\
    forall G, pair_sum G ps = bilin_side side (on_bytes G) [r] (h (other side)).
Proof.
  intros Hrep [Hr _] Hb. destruct (jr_config _ _ Hrep) as (_ & _ & _ & Hln & Hrn).
  assert (forall p, p ∈ probe (state op) (other side) (s_key r) ->
    U (other side) (s_key r) p.1 /\ Z.abs p.2 <= habs (h (other side))) as Hp by (intros p; by apply probe_elem).
  unfold probe_pairs. rewrite Hln, Hrn. eexists. split_and!.
  - apply weigh_ok, Forall_fmap, Forall_forall. intros p [_ Hw]%Hp. destruct side; cbn in *; nia.
  - apply Forall_fmap, Forall_fmap, Forall_forall. intros p [HUp _]%Hp.
    pose proof (deserialize_ok _ _ _ Hr) as Hd1. pose proof (deserialize_ok _ _ _ HUp) as Hd2.
    destruct side; by split.
  - intros G. rewrite pair_sum_weighed. destruct side; cbn [bilin_side other fst snd].
    + rewrite bilin_single_l, <-(ar_sum _ _ _ _ (jr_arr _ _ Hrep Right)), <-bucket_sum_probe, <-zsum_scale.
      apply zsum_ext. intros p. unfold on_bytes. lia.
    + rewrite bilin_single_r, <-(ar_sum _ _ _ _ (jr_arr _ _ Hrep Left)), <-bucket_sum_probe, <-zsum_scale.
      apply zsum_ext. intros p. unfold on_bytes. lia.
Qed.

(** Staged rows of a delta are known to [U]. *)
Definition known (side : JoinSide) (d : list StagedRow) : Prop := Forall (staged_ok (U side) (stable_row_id id)) d.

Lemma key_cols_configured op side : configured op -> key_cols op side = side_cols side.
Proof. intros (_ & Hl & Hr & _). by destruct side. Qed.

Lemma staged_push_ok staged r : 0 <= staged_bytes staged -> staged_bytes staged + staged_cost r <= u64_max ->
  staged_push staged r = Done {| staged_rows := staged_rows staged ++ [r]; staged_bytes := staged_bytes staged + staged_cost r |}.
Proof.
  intros Hz0 Hc. unfold staged_push, add_u64, staged_cost in *. rewrite checked_in by lia. cbn.
  do 2 f_equal. lia.
Qed.

Lemma side_ok side : int64_schema (side_schema side) /\ cols_ok (side_schema side) (side_cols side).
Proof. by destruct side. Qed.

Lemma delta_loop_ok op h side z n : forall i staged out,
  join_rep op h -> input_ok (side_schema side) z -> (i + n <= num_rows z)%nat ->
  let d := stage id (keyed_row (side_cols side) z <$> seq i n) in
  known side d -> habs d * habs (h (other side)) <= i64_max ->
  0 <= staged_bytes staged -> staged_bytes staged + hcost d <= u64_max ->
  exists ps, delta_loop op side z i n staged out =
      Done ({| staged_rows := staged_rows staged ++ d; staged_bytes := staged_bytes staged + hcost d |}, Ok (out ++ ps)) /\
    Forall (pair_ok ln rn) ps /\
    forall G, pair_sum G ps = bilin_side side (on_bytes G) d (h (other side)).
Proof.
  induction n as [|n IH]; intros i staged out Hrep [Ha Hsch] Hn d Hk Hw Hz0 Hc; cbn [delta_loop].
  { exists []. unfold d. cbn. rewrite !app_nil_r, Z.add_0_r. destruct staged. split_and!; [done|done|].
    intros G. symmetry. apply bilin_side_nil. }
  destruct (side_ok side) as [Hs Hcols]. rewrite <-Hsch in Hs, Hcols. unfold num_rows in Hn.
  pose proof (proj1 (aligned_spec _ _) Ha) as Hal.
  destruct (lookup_lt_is_Some_2 (weights z) i) as [w Hwi]; [lia|]. rewrite Hwi. cbn [expect mbind outcome_bind].
  rewrite (key_cols_configured op side (jr_config _ _ Hrep)).
  destruct (extract_key_ok (data z) i (side_cols side)) as [_ ->]; [done|lia|done|].
  cbn [expect mbind outcome_bind].
  assert (d = match staged_row id (keyed_row (side_cols side) z i) with Some r => [r] | None => [] end ++
    stage id (keyed_row (side_cols side) z <$> seq (S i) n)) as Hd
    by (unfold d, stage; cbn; by destruct (staged_row _ _)).
  clearbody d. unfold staged_row in Hd. cbn [k_vals keyed_row] in Hd. case_bool_decide as Hnull.
  { cbn [app] in Hd. subst d. apply IH; try done. unfold num_rows. lia. }
  cbn [k_row k_weight keyed_row] in Hd. rewrite (nth_lookup_Some _ _ _ _ Hwi) in Hd.
  rewrite serialize_row_ok by (done || lia). cbn [mbind outcome_bind].
  set (r := {| s_key := _; s_row_id := stable_row_id id _ _; s_bytes := _; s_weight := w |}) in Hd.
  set (d' := stage id _) in Hd. subst d. apply Forall_app in Hk as [Hr%Forall_inv Hk'].
  unfold habs, hcost in Hw, Hc. rewrite zsum_app, zsum_cons in Hw, Hc. change (zsum _ []) with 0 in Hw, Hc.
  fold (habs d') in Hw. fold (hcost d') in Hc. fold (habs (h (other side))) in Hw.
  pose proof (habs_nonneg d'). pose proof (habs_nonneg (h (other side))). pose proof (hcost_nonneg d').
  destruct (probe_pairs_ok op h side r Hrep Hr) as (ps1 & E1 & Hp1 & HG1); [nia|].
  cbn [s_key s_bytes s_weight r] in E1. rewrite E1. cbn [mbind outcome_bind].
  destruct (jr_config _ _ Hrep) as (Hid & _). rewrite Hid. fold r.
  pose proof (staged_cost_nonneg r).
  rewrite staged_push_ok by lia. cbn [mbind outcome_bind].
  destruct (IH (S i) {| staged_rows := staged_rows staged ++ [r]; staged_bytes := staged_bytes staged + staged_cost r |}
    (out ++ ps1)) as (ps2 & -> & Hp2 & HG2); cbn [staged_bytes]; fold d'; try done; [unfold num_rows; lia|nia|lia|lia|].
  exists (ps1 ++ ps2). cbn [staged_rows staged_bytes]. fold d'. split_and!.
  - rewrite <-!app_assoc. do 3 f_equal. unfold hcost. rewrite zsum_app, zsum_cons. change (zsum _ []) with 0. lia.
  - by apply Forall_app.
  - intros G. by rewrite pair_sum_app, HG1, HG2, <-bilin_side_app.
Qed.

(** ΔL ⋈ ΔR. *)
Lemma zsum_filter_contrib k f l :
  zsum (fun r => f (s_bytes r) * s_weight r) (base.filter (fun r => s_key r = k) l) = zsum (contrib k f) l.
Proof.
  induction l as [|r l IH]; [done|]. rewrite zsum_cons. unfold contrib at 1. case_bool_decide as E.
  - by rewrite filter_cons_True, zsum_cons, IH.
  - by rewrite filter_cons_False, IH.
Qed.

Definition pairs_of (dr : list StagedRow) (l : StagedRow) : list (list Z * list Z * (Z * Z)) :=
  (fun r => (deserialize_row ln (s_bytes l), deserialize_row rn (s_bytes r), (s_weight l, s_weight r)))
    <$> base.filter (fun r => s_key r = s_key l) dr.

Lemma correction_ok op :
  configured op -> let dl := staged_rows (left_staged op) in let dr := staged_rows (right_staged op) in
  known Left dl -> known Right dr -> habs dl * habs dr <= i64_max ->
  exists ps, correction op = Done ps /\ Forall (pair_ok ln rn) ps /\
    forall G, pair_sum G ps = bilin (on_bytes G) dl dr.
Proof.
  intros (_ & _ & _ & Hln & Hrn) dl dr Hkl Hkr Hb. unfold correction. rewrite Hln, Hrn. fold dl dr.
  replace ((fun l => _) <$> dl) with (pairs_of dr <$> dl).
  2:{ apply list_fmap_ext. intros i l _. rewrite right_by_key_lookup. unfold pairs_of.
      by rewrite <-list_fmap_compose. }
  rewrite weigh_ok.
  2:{ apply Forall_forall. intros x (y & Hx & (l & -> & Hl)%list_elem_of_fmap)%list_elem_of_join.
      apply list_elem_of_fmap in Hx as (r & -> & [_ Hr]%list_elem_of_filter). cbn.
      pose proof (habs_elem _ _ Hl). pose proof (habs_elem _ _ Hr). nia. }
  eexists. split; [done|]. split.
  - apply Forall_fmap, Forall_forall. intros x (y & Hx & (l & -> & Hl)%list_elem_of_fmap)%list_elem_of_join.
    apply list_elem_of_fmap in Hx as (r & -> & [_ Hr]%list_elem_of_filter).
    unfold known in *. rewrite Forall_forall in Hkl, Hkr.
    split; [exact (deserialize_ok Left _ _ (proj1 (Hkl _ Hl)))|exact (deserialize_ok Right _ _ (proj1 (Hkr _ Hr)))].
  - intros G. clear -Hln. unfold bilin. induction dl as [|l dl IH]; [done|].
    rewrite fmap_cons. change (mjoin (?x :: ?y)) with (x ++ mjoin y). rewrite fmap_app, pair_sum_app, zsum_cons, <-IH.
    f_equal. unfold pairs_of. rewrite pair_sum_weighed, <-zsum_filter_contrib, <-zsum_scale. apply zsum_ext. intros r. cbn. unfold on_bytes. lia.
Qed.

(** Applying the staged rows of one side. *)
Lemma apply_staged_ok side d : forall st hs budget,
  known side d -> arr_rep (U side) (stable_row_id id) (arr_of st side) hs ->
  habs (hs ++ d) <= i64_max -> 0 <= js_state_bytes st <= budget -> budget + hcost d <= u64_max ->
  exists st', apply_staged st side d = Done st' /\
    arr_rep (U side) (stable_row_id id) (arr_of st' side) (hs ++ d) /\
    arr_of st' (other side) = arr_of st (other side) /\ 0 <= js_state_bytes st' <= budget + hcost d.
Proof.
  induction d as [|r d IH]; intros st hs budget Hk Hrep Hw Hsb Hc.
  { exists st. rewrite app_nil_r. change (hcost []) with 0. split_and!; try done; lia. }
  apply List.Forall_cons_iff in Hk as [Hr Hk]. rewrite cons_middle, app_assoc in *.
  assert (habs (hs ++ [r]) <= i64_max).
  { pose proof (habs_nonneg d). unfold habs in *. rewrite zsum_app in Hw. lia. }
  unfold hcost in *. rewrite zsum_cons in *. pose proof (hcost_nonneg d) as Hd. unfold hcost in Hd.
  destruct (update_arr_ok (U side) (stable_row_id id) (Hrid side) (arr_of st side) (js_state_bytes st) hs budget r)
    as (arr & sb & E & Hrep' & Hsb'); try done; [lia|].
  cbn [apply_staged]. unfold update_side. rewrite E. cbn [mbind outcome_bind].
  destruct (IH (set_arr st side arr sb) (hs ++ [r]) (budget + staged_cost r)) as (st' & Est & Hr' & Ho & Hb');
    try done; [by destruct side|by destruct side|lia|].
  exists st'. split_and!; [done|done| |lia|lia]. rewrite Ho. by destruct side.
Qed.

#[local] Abbreviation out_schema := (join_output_schema_n ln rn).

Lemma fields_pos : (0 < ln)%nat /\ (0 < rn)%nat.
Proof.
  assert (forall s cols, cols_ok s cols -> (0 < num_fields s)%nat) as Hp; [|by split; eapply Hp].
  intros s [|c cols] (Hne & Hc & _); [done|]. apply Forall_inv in Hc. lia.
Qed.

Lemma process_delta_ok op h side z :
  let d := stage id (keyed_rows (side_cols side) z) in
  join_rep op h -> staged_of op side = staged_default -> input_ok (side_schema side) z -> known side d ->
  habs d * habs (h (other side)) <= i64_max -> hcost d <= u64_max ->
  exists zo ps, process_delta side op z =
      Done (set_staged op side {| staged_rows := d; staged_bytes := hcost d |}, Ok zo) /\
    zset_holds out_schema zo (weighted <$> ps) /\ Forall (pair_ok ln rn) ps /\
    forall G, pair_sum G ps = bilin_side side (on_bytes G) d (h (other side)).
Proof.
  intros d Hrep Hst Hin Hk Hw Hc. unfold process_delta. rewrite Hst.
  destruct (delta_loop_ok op h side z (num_rows z) 0 staged_default [] Hrep Hin) as (ps & E & Hps & HG);
    [lia|done|done|done|done|].
  fold (keyed_rows (side_cols side) z) in E, HG. fold d in E, HG. cbn [staged_rows staged_bytes staged_default app] in E.
  rewrite Z.add_0_l in E. rewrite E. cbn [mbind outcome_bind].
  destruct (jr_config _ _ Hrep) as (_ & _ & _ & Hln & Hrn). pose proof fields_pos.
  destruct (output_zset_ok op ln rn ps Hln Hrn) as (zo & -> & Hz); [lia|done|]. cbn. by exists zo, ps.
Qed.

Lemma join_rep_staged op h side st : join_rep op h -> join_rep (set_staged op side st) h.
Proof. intros [Hc Ha Hb]. by split. Qed.

(** Both staged deltas are applied and dropped. *)
Lemma commit_epoch_ok op h :
  let dl := staged_rows (left_staged op) in let dr := staged_rows (right_staged op) in
  join_rep op h -> known Left dl -> known Right dr ->
  habs dl * habs dr <= i64_max -> habs (h Left ++ dl) <= i64_max -> habs (h Right ++ dr) <= i64_max ->
  hcost (h Left ++ dl) + hcost (h Right ++ dr) <= u64_max ->
  exists op' zo ps, commit_epoch op = Done (op', Ok zo) /\
    join_rep op' (fun side => h side ++ staged_rows (staged_of op side)) /\
    (forall side, staged_of op' side = staged_default) /\
    (forall side, dirty_of op' side = dirty_of op side ∪ dirty_rows (staged_rows (staged_of op side))) /\
    zset_holds out_schema zo (weighted <$> ps) /\ Forall (pair_ok ln rn) ps /\
    forall G, pair_sum G ps = bilin (on_bytes G) dl dr.
Proof.
  intros dl dr Hrep Hkl Hkr Hlr Hwl Hwr Hc. pose proof (jr_config _ _ Hrep) as Hcfg.
  destruct (correction_ok op Hcfg Hkl Hkr Hlr) as (ps & E & Hps & HG).
  rewrite !hcost_app in Hc. pose proof (hcost_nonneg dr). destruct (jr_bytes _ _ Hrep) as [Hb0 Hb1].
  destruct (apply_staged_ok Left dl (state op) (h Left) (hcost (h Left) + hcost (h Right)))
    as (st1 & E1 & Hr1 & Ho1 & Hb); try done; [apply (jr_arr _ _ Hrep Left)|lia|].
  destruct (apply_staged_ok Right dr st1 (h Right) (hcost (h Left) + hcost (h Right) + hcost dl))
    as (st2 & E2 & Hr2 & Ho2 & Hb2); try done; [|lia|].
  { change (arr_of st1 Right) with (arr_of st1 (other Left)). rewrite Ho1. apply (jr_arr _ _ Hrep Right). }
  unfold commit_epoch. rewrite E. cbn [mbind outcome_bind]. fold dl dr. rewrite E1. cbn [mbind outcome_bind].
  rewrite E2. cbn [mbind outcome_bind]. pose proof fields_pos.
  destruct Hcfg as (Hid & Hl & Hr & Hln & Hrn).
  destruct (output_zset_ok op ln rn ps Hln Hrn) as (zo & -> & Hz); [lia|done|]. cbn [mbind outcome_bind].
  eexists _, zo, ps. split; [reflexivity|]. split_and!; [|by intros []|by intros []|done..]. split; [done| |].
  - intros []; [|exact Hr2]. cbn [state set_staged set_state staged_of].
    change (arr_of st2 Left) with (arr_of st2 (other Right)). rewrite Ho2. exact Hr1.
  - cbn [state set_staged set_state staged_of]. rewrite !hcost_app. fold dl dr. lia.
Qed.

Definition clean (op : JoinOp) : Prop := forall side, staged_of op side = staged_default.
Definition side_delta (e : ArrowZSet * ArrowZSet) (side : JoinSide) : ArrowZSet := match side with Left => e.1 | Right => e.2 end.
Definition delta_rows_of (side : JoinSide) (e : ArrowZSet * ArrowZSet) : list StagedRow :=
  stage id (keyed_rows (side_cols side) (side_delta e side)).

(** No sum, product or byte count leaves its machine width. *)
Definition in_budget (h : JoinSide -> list StagedRow) : Prop :=
  habs (h Left) * habs (h Right) <= i64_max /\ habs (h Left) <= i64_max /\ habs (h Right) <= i64_max /\
  hcost (h Left) + hcost (h Right) <= u64_max.

Lemma in_budget_mono h h' : (forall side, exists d, h' side = h side ++ d) -> in_budget h' -> in_budget h.
Proof.
  intros Hd (H1' & H2' & H3' & H4'). destruct (Hd Left) as [dl El], (Hd Right) as [dr Er].
  rewrite El, Er, ?habs_app, ?hcost_app in *.
  pose proof (habs_nonneg (h Left)). pose proof (habs_nonneg (h Right)). pose proof (habs_nonneg dl). pose proof (habs_nonneg dr).
  pose proof (hcost_nonneg dl). pose proof (hcost_nonneg dr). unfold in_budget. split_and!; [nia|lia..].
Qed.

(** An epoch emits the change of the join of the histories. *)
Definition emits_change (ps : list join_pair) (h h' : JoinSide -> list StagedRow) : Prop :=
  Forall (pair_ok ln rn) ps /\
  forall G, pair_sum G ps = bilin (on_bytes G) (h' Left) (h' Right) - bilin (on_bytes G) (h Left) (h Right).

Lemma process_epoch_ok op h e :
  let h' := fun side => h side ++ delta_rows_of side e in
  join_rep op h -> clean op -> (forall side, input_ok (side_schema side) (side_delta e side)) ->
  (forall side, known side (delta_rows_of side e)) -> in_budget h' ->
  exists op' z ps, process_epoch op e = Done (op', Ok z) /\ join_rep op' h' /\ clean op' /\
    (forall side, dirty_of op' side = dirty_of op side ∪ dirty_rows (delta_rows_of side e)) /\
    aligned (data z) (weights z) = true /\ rows_of z = weighted <$> ps /\ emits_change ps h h'.
Proof.
  intros h' Hrep Hcl Hin Hk (Hb1 & Hb2 & Hb3 & Hb4). unfold h' in Hb1, Hb4. rewrite !habs_app in Hb1. rewrite !hcost_app in Hb4.
  set (dl := delta_rows_of Left e) in *. set (dr := delta_rows_of Right e) in *.
  pose proof (habs_nonneg (h Left)). pose proof (habs_nonneg (h Right)). pose proof (habs_nonneg dl). pose proof (habs_nonneg dr).
  pose proof (hcost_nonneg (h Left)). pose proof (hcost_nonneg (h Right)). pose proof (hcost_nonneg dl). pose proof (hcost_nonneg dr).
  unfold process_epoch.
  destruct (process_delta_ok op h Left e.1 Hrep (Hcl Left) (Hin Left) (Hk Left)) as (z1 & ps1 & E1 & Hz1 & Hp1 & HG1);
    [change (habs dl * habs (h Right) <= i64_max); nia|change (hcost dl <= u64_max); lia|].
  unfold process_left_delta. rewrite E1. cbn [mbind outcome_bind]. change (stage id (keyed_rows (side_cols Left) e.1)) with dl in *.
  set (op1 := set_staged op Left _). assert (join_rep op1 h) as Hrep1 by (by apply join_rep_staged).
  destruct (process_delta_ok op1 h Right e.2 Hrep1 (Hcl Right) (Hin Right) (Hk Right)) as (z2 & ps2 & E2 & Hz2 & Hp2 & HG2);
    [change (habs dr * habs (h Left) <= i64_max); nia|change (hcost dr <= u64_max); lia|].
  unfold process_right_delta. rewrite E2. cbn [mbind outcome_bind]. change (stage id (keyed_rows (side_cols Right) e.2)) with dr in *.
  set (op2 := set_staged op1 Right _). assert (join_rep op2 h) as Hrep2 by (by apply join_rep_staged).
  destruct (commit_epoch_ok op2 h Hrep2 (Hk Left) (Hk Right)) as (op3 & z3 & ps3 & E3 & Hrep3 & Hcl3 & Hdirty & Hz3 & Hp3 & HG3);
    [change (habs dl * habs dr <= i64_max); nia|done|done|rewrite !hcost_app; change (hcost (h Left) + hcost dl + (hcost (h Right) + hcost dr) <= u64_max); lia|].
  rewrite E3. cbn [mbind outcome_bind]. destruct (jr_config _ _ Hrep) as (_ & _ & _ & -> & ->). pose proof fields_pos.
  destruct (join_output_schema_int64 ln rn) as [_ Hf].
  destruct (concat_zsets_ok out_schema [(z1, weighted <$> ps1); (z2, weighted <$> ps2); (z3, weighted <$> ps3)])
    as (z & Ez & Hrows & Hal); [lia|by do 3 (apply Forall_cons_2; [done|])|].
  cbn [fmap list_fmap fst] in Ez. rewrite Ez. cbn [mbind outcome_bind].
  exists op3, z, (ps1 ++ ps2 ++ ps3). split_and!; [done| |done| |done| |].
  - destruct Hrep3 as [Hc3 Ha3 Hs3]. split; [done| |exact Hs3]. intros []; [apply (Ha3 Left)|apply (Ha3 Right)].
  - intros []; [apply (Hdirty Left)|apply (Hdirty Right)].
  - rewrite Hrows, !fmap_app. cbn. by rewrite app_nil_r.
  - split; [by rewrite !Forall_app|]. intros G. rewrite !pair_sum_app, HG1, HG2, HG3. unfold h'.
    rewrite !bilin_app_l, !bilin_app_r. cbn [bilin_side other]. fold dl dr. change (staged_rows (left_staged op2)) with dl.
    change (staged_rows (right_staged op2)) with dr. lia.
Qed.

(** Successive changes add up. *)
Lemma emits_change_sum ps h h' l r : emits_change ps h h' -> length l = ln ->
  let g := on_bytes (fun a b => if bool_decide (a = l) && bool_decide (b = r) then 1 else 0) in
  wsum (weighted <$> ps) (l ++ r) = bilin g (h' Left) (h' Right) - bilin g (h Left) (h Right).
Proof.
  intros [Hp HG] Hl g. unfold g. rewrite <-HG. clear HG. unfold pair_sum.
  induction Hp as [|p ps [[_ Hpl] _] _ IH]; [done|]. rewrite fmap_cons, zsum_cons, <-IH. cbn [wsum foldr]. f_equal.
  cbn [fst snd weighted]. unfold pair_row.
  rewrite (bool_decide_ext (p.1.1 ++ p.1.2 = l ++ r) (p.1.1 = l /\ p.1.2 = r)).
  - rewrite bool_decide_and. destruct (_ && _); lia.
  - split; [intros E; apply app_inj_1 in E; [done|congruence]|by intros [-> ->]].
Qed.

Definition pair_ind (l r a b : list Z) : Z := if bool_decide (a = l) && bool_decide (b = r) then 1 else 0.
Definition history (h : JoinSide -> list StagedRow) (es : list (ArrowZSet * ArrowZSet)) (side : JoinSide) : list StagedRow :=
  h side ++ mjoin (delta_rows_of side <$> es).

Lemma join_run_from es : forall op h,
  join_rep op h -> clean op ->
  Forall (fun e => forall side, input_ok (side_schema side) (side_delta e side) /\ known side (delta_rows_of side e)) es ->
  in_budget (history h es) ->
  exists op' outs, run process_epoch op es = Done (op', Ok outs) /\ join_rep op' (history h es) /\ clean op' /\
    Forall (fun z => aligned (data z) (weights z) = true) outs /\
    forall l r, length l = ln -> total outs (l ++ r) =
      bilin (on_bytes (pair_ind l r)) (history h es Left) (history h es Right) - bilin (on_bytes (pair_ind l r)) (h Left) (h Right).
Proof.
  induction es as [|e es IH]; intros op h Hrep Hcl Hes Hb.
  { exists op, []. assert (forall side, history h [] side = h side) as Hh by (intros; apply app_nil_r). split_and!; try done.
    - destruct Hrep as [Hc Ha Hs]. split; rewrite ?Hh; try done. intros side. rewrite Hh. apply Ha.
    - intros l r _. rewrite !Hh. cbn. lia. }
  apply List.Forall_cons_iff in Hes as [He Hes].
  assert (forall side, history h (e :: es) side = history (fun side => h side ++ delta_rows_of side e) es side) as Hh
    by (intros side; apply app_assoc).
  assert (in_budget (history (fun side => h side ++ delta_rows_of side e) es)) as Hb' by (unfold in_budget; by rewrite <-!Hh).
  destruct (process_epoch_ok op h e Hrep Hcl (fun side => proj1 (He side)) (fun side => proj2 (He side)))
    as (op1 & z & ps & E1 & Hrep1 & Hcl1 & _ & Ha & Hrows & Hch).
  { eapply in_budget_mono; [|exact Hb']. intros side. by eexists. }
  destruct (IH op1 _ Hrep1 Hcl1 Hes Hb') as (op2 & outs & E2 & Hrep2 & Hcl2 & Hal & Htot).
  cbn [run]. rewrite E1. cbn [mbind outcome_bind]. rewrite E2. cbn [mbind outcome_bind].
  exists op2, (z :: outs). split_and!; [done| |done|by constructor|].
  - destruct Hrep2 as [Hc2 Ha2 Hs2]. split; rewrite ?Hh; try done. intros side. rewrite Hh. apply Ha2.
  - intros l r Hl. rewrite !Hh. cbn [total foldr]. fold (total outs (l ++ r)). rewrite (Htot l r Hl), Hrows.
    rewrite (emits_change_sum ps _ _ l r Hch Hl). unfold pair_ind. lia.
Qed.

(** *** From bytes to keys *)

Definition keyed_ok (side : JoinSide) (a : KeyedRow) : Prop :=
  values_ok (k_vals a) /\ i64_row (k_row a) /\ length (k_row a) = num_fields (side_schema side).

Lemma keyed_rows_ok side z : input_ok (side_schema side) z -> Forall (keyed_ok side) (keyed_rows (side_cols side) z).
Proof.
  intros [Ha Hs]. destruct (side_ok side) as [Hint Hcols]. rewrite <-Hs in Hint, Hcols.
  apply Forall_fmap, Forall_forall. intros i [_ Hi]%elem_of_seq. unfold num_rows in Hi. unfold keyed_ok. cbn [k_vals k_row keyed_row compose].
  split; [apply extract_key_ok; [done|lia|done]|]. split; [apply extract_row_i64|].
  unfold extract_row_vals. by rewrite length_fmap, (conforms_fields _ _ (batch_conforms _)), Hs.
Qed.

(** One row against a staged list is the row against the input. *)
Lemma contrib_stage l r a rights : keyed_ok Left a -> Forall (keyed_ok Right) rights -> Null ∉ k_vals a ->
  k_weight a * zsum (contrib (values_bytes (k_vals a)) (on_bytes (pair_ind l r) (row_key (k_row a)))) (stage id rights) =
  zsum (fun b => if keys_match a b && bool_decide (k_row a = l) && bool_decide (k_row b = r)
    then k_weight a * k_weight b else 0) rights.
Proof.
  intros (Hva & Hra & Hla) Hall Hnull. induction Hall as [|b rights (Hvb & Hrb & Hlb) _ IH]; [unfold zsum; simpl; lia|].
  rewrite zsum_cons, <-IH. unfold stage. cbn [omap list_omap]. unfold staged_row at 1. unfold keys_match.
  rewrite (bool_decide_eq_false_2 _ Hnull). cbn [negb]. rewrite Bool.andb_true_r.
  destruct (bool_decide_reflect (Null ∈ k_vals b)) as [Hnb|Hnb].
  - rewrite (bool_decide_eq_false_2 (k_vals a = k_vals b)) by (intros E; apply Hnull; by rewrite E). cbn [andb].
    by rewrite Z.add_0_l.
  - rewrite zsum_cons. unfold contrib at 1. cbn [s_key s_bytes s_weight]. unfold on_bytes at 1.
    rewrite !deserialize_row_key by done. unfold pair_ind at 1.
    rewrite (bool_decide_ext (values_bytes (k_vals b) = values_bytes (k_vals a)) (k_vals a = k_vals b)).
    + repeat case_bool_decide; cbn [andb]; lia.
    + split; [|by intros ->]. intros E. symmetry. apply (values_bytes_inj _ _ [] [] Hvb Hva). by rewrite E.
Qed.

Lemma bilin_join_weight l r lefts rights :
  Forall (keyed_ok Left) lefts -> Forall (keyed_ok Right) rights ->
  bilin (on_bytes (pair_ind l r)) (stage id lefts) (stage id rights) = join_weight lefts rights l r.
Proof.
  intros Hl Hr. unfold join_weight. induction Hl as [|a lefts Ha _ IH]; [done|]. rewrite zsum_cons, <-IH.
  unfold stage at 1. cbn [omap list_omap]. unfold staged_row at 1. case_bool_decide as Hn.
  - rewrite zsum_zero; [done|]. apply Forall_true. intros b. unfold keys_match.
    rewrite (bool_decide_eq_true_2 _ Hn). by rewrite Bool.andb_false_r.
  - unfold bilin. rewrite zsum_cons. cbn [s_key s_bytes s_weight]. by rewrite contrib_stage.
Qed.
End epoch.

(* ------------------------------------------------------------------ *)
(** ** The operator maintains the join *)

Definition side_input `{ArrowJoin} (cols : list nat) (side : JoinSide) (es : list (ArrowZSet * ArrowZSet)) : list KeyedRow :=
  mjoin ((fun e => keyed_rows cols (side_delta e side)) <$> es).

(** No two rows of one key share a row id. *)
Definition row_ids_distinct (rows : list StagedRow) : Prop :=
  forall a b, a ∈ rows -> b ∈ rows -> s_key a = s_key b -> s_row_id a = s_row_id b -> s_bytes a = s_bytes b.

Lemma stage_mjoin {A} id (f : A -> list KeyedRow) es :
  mjoin ((fun e => stage id (f e)) <$> es) = stage id (mjoin (f <$> es)).
Proof.
  induction es as [|e es IH]; [done|]. rewrite !fmap_cons.
  change (mjoin (f e :: _)) with (f e ++ mjoin (f <$> es)). rewrite stage_app, <-IH. done.
Qed.

Lemma stage_elem id rows a : a ∈ stage id rows ->
  exists k, k ∈ rows /\ s_bytes a = row_key (k_row k) /\ s_row_id a = stable_row_id id (s_key a) (s_bytes a).
Proof.
  intros (k & Hk & Ha)%list_elem_of_omap. exists k. split; [done|]. unfold staged_row in Ha.
  case_bool_decide; [done|]. by injection Ha as <-.
Qed.

Definition staged_input `{ArrowJoin} (id : Z) (lk rk : list nat) (es : list (ArrowZSet * ArrowZSet)) (side : JoinSide)
    : list StagedRow := stage id (side_input (side_cols lk rk side) side es).

(** C3: The incremental inner join maintains the join of its accumulated inputs.
    Over any sequence of epochs of well-formed integer batches, with null keys,
    duplicates, retractions and rows of both sides in one epoch, [JoinOp] neither
    errs nor panics, and the emitted weights of each pair of rows add up to the
    weight of that pair in the join of everything fed so far: the sum over the
    matching rows of the product of their weights, null keys matching nothing.
    Assumed: sums and products of the absolute weights and the byte counts fit
    their machine integers, and row ids of one key do not collide. *)
Theorem join_maintains_product `{ArrowOps} `{!ArrowLaws} `{!ArrowJoin} `{!ArrowJoinLaws}
    (id : Z) (lk rk : list nat) (sl sr : Schema) (es : list (ArrowZSet * ArrowZSet)) :
  int64_schema sl -> int64_schema sr -> cols_ok sl lk -> cols_ok sr rk ->
  Forall (fun e => input_ok sl e.1 /\ input_ok sr e.2) es ->
  (forall side, row_ids_distinct (staged_input id lk rk es side)) -> in_budget (staged_input id lk rk es) ->
  exists op outs,
    run process_epoch (join_with_schema id lk rk (num_fields sl) (num_fields sr)) es = Done (op, Ok outs) /\
    Forall (fun z => aligned (data z) (weights z) = true) outs /\
    forall l r, length l = num_fields sl ->
      total outs (l ++ r) = join_weight (side_input lk Left es) (side_input rk Right es) l r.
Proof.
  intros Hsl Hsr Hlk Hrk Hes Hids Hb.
  set (U side k b := exists a, a ∈ staged_input id lk rk es side /\ s_key a = k /\ s_bytes a = b).
  assert (forall side e, e ∈ es -> input_ok (side_schema sl sr side) (side_delta e side)) as Hin
    by (intros side e He; rewrite Forall_forall in Hes; destruct (Hes e He); by destruct side).
  assert (forall side, Forall (keyed_ok sl sr side) (side_input (side_cols lk rk side) side es)) as Hkeyed.
  { intros side. apply Forall_forall. intros k (ks & Hk & (e & -> & He)%list_elem_of_fmap)%list_elem_of_join.
    pose proof (keyed_rows_ok lk rk sl sr Hsl Hsr Hlk Hrk side _ (Hin side e He)) as Hall.
    rewrite Forall_forall in Hall. by apply Hall. }
  assert (forall side, mjoin (delta_rows_of id lk rk side <$> es) = staged_input id lk rk es side) as Hstage
    by (intros side; apply (stage_mjoin id (fun e => keyed_rows (side_cols lk rk side) (side_delta e side)))).
  destruct (join_run_from id lk rk sl sr Hsl Hsr Hlk Hrk U) with (es := es) (h := fun _ : JoinSide => @nil StagedRow)
    (op := join_with_schema id lk rk (num_fields sl) (num_fields sr)) as (op & outs & E & _ & _ & Ha & Htot).
  - intros side k b b' (a & Ha & <- & <-) (a' & Ha' & Hk & <-) Hid.
    apply (Hids side a a' Ha Ha'); [done|]. apply stage_elem in Ha as (_ & _ & _ & ->), Ha' as (_ & _ & _ & ->). by rewrite Hk.
  - intros side k b (a & Ha & _ & <-). apply stage_elem in Ha as (kr & Hkr & -> & _). exists (k_row kr). split; [done|].
    specialize (Hkeyed side). rewrite Forall_forall in Hkeyed. apply Hkeyed in Hkr as (_ & ? & ?). done.
  - split; [done| |done]. intros []; apply arr_rep_empty.
  - by intros [].
  - apply Forall_forall. intros e He side. split; [by apply Hin|]. apply Forall_forall. intros a Ha.
    split; [|by apply stage_elem in Ha as (_ & _ & _ & ->)]. exists a. split; [|done]. rewrite <-Hstage.
    apply list_elem_of_join. eexists. split; [exact Ha|]. apply list_elem_of_fmap. by exists e.
  - unfold in_budget, history. by rewrite !Hstage.
  - exists op, outs. split_and!; [done|done|]. intros l r Hl. rewrite (Htot l r Hl). unfold history. rewrite !Hstage.
    cbn [app]. rewrite Z.sub_0_r. apply bilin_join_weight; [apply (Hkeyed Left)|apply (Hkeyed Right)].
Qed.

(* ------------------------------------------------------------------ *)
(** ** Integer columns *)

(** The integer instance; the least integer's slot stands for a null. *)
Module IntJoin.
Import IntArrow.

Definition int_key_value (a : list Z) (i : nat) : option KeyValue :=
  v ← (as_i64 <$> a) !! i; Some (if v =? i64_min then Null else Int64 v).

Definition int_concat (s : nat) (bs : list int_batch) : result unit int_batch :=
  try_new s ((fun j => concat ((fun b => nth j (ib_cols b) []) <$> bs)) <$> seq 0 s).

#[export] Instance int_join : ArrowJoin := {|
  key_value := int_key_value;
  join_output_schema_n l r := (l + r)%nat;
  concat_batches := int_concat
|}.

Lemma int_concat_rows s j (bs : list int_batch) : (j < s)%nat -> Forall (fun b => length (ib_cols b) = s) bs ->
  length (concat ((fun b => nth j (ib_cols b) []) <$> bs)) = sum_list (ib_rows <$> bs).
Proof.
  intros Hj. induction 1 as [|b bs Hb _ IH]; [done|]. rewrite !fmap_cons. cbn [concat sum_list]. rewrite length_app, IH. f_equal.
  destruct (lookup_lt_is_Some_2 (ib_cols b) j) as [c Hc]; [lia|]. rewrite (nth_lookup_Some _ _ _ _ Hc).
  apply (Forall_lookup_1 _ _ _ _ (proj1 (forallb_length _ _) (ib_ok b)) Hc).
Qed.

Lemma int_concat_column j (bs : list int_batch) ls :
  Forall2 (fun b l => int_column b j = Some l) bs ls ->
  as_i64 <$> concat ((fun b => nth j (ib_cols b) []) <$> bs) = concat ls.
Proof.
  induction 1 as [|b l bs ls Hb _ IH]; [done|]. rewrite fmap_cons. cbn [concat]. rewrite fmap_app, IH. f_equal.
  unfold int_column in Hb. cbn in Hb. destruct (ib_cols b !! j) as [c|] eqn:Hc; [|done].
  rewrite (nth_lookup_Some _ _ _ _ Hc). cbn in Hb. by injection Hb.
Qed.

#[export] Instance int_join_laws : ArrowJoinLaws.
Proof.
  split.
  - intros a l i v Ha Hv. cbn in *. injection Ha as <-. unfold int_key_value. rewrite Hv. cbn.
    destruct (v =? i64_min); [by left|by right].
  - done.
  - intros s bs Hne Hs Hbs. cbn in *.
    destruct (@batch_try_new_ok int_arrow int_arrow_laws s ((fun j => concat ((fun b => nth j (ib_cols b) []) <$> bs)) <$> seq 0 s)
      (sum_list (ib_rows <$> bs))) as (b & Hb & Hcols & Hsch & Hn).
    + cbn. by rewrite length_fmap, length_seq.
    + intros E%(f_equal length). rewrite length_fmap, length_seq in E. cbn in E. lia.
    + apply Forall_fmap, Forall_forall. intros j [_ Hj]%elem_of_seq. by apply (int_concat_rows s).
    + exists b. split_and!; try done. intros j ls Hls. rewrite <-(int_concat_column j bs ls Hls). unfold int_column.
      assert (j < s)%nat as Hj.
      { destruct Hls as [|b' l bs ls Hl _]; [done|]. apply Forall_inv in Hbs. unfold int_column in Hl. cbn in *.
        destruct (ib_cols b' !! j) eqn:E; [|done]. apply lookup_lt_Some in E. lia. }
      change (batch_columns b) with (ib_cols b). cbn in Hcols. rewrite Hcols, list_lookup_fmap, lookup_seq_lt by done. done.
Qed.

(** Two columns, the key first; the second right row has a null key. *)
Definition batch2 (c0 c1 : list Z) (n : nat) (ok : forallb (fun c => (length c =? n)%nat) [c0; c1] = true) : int_batch :=
  {| ib_rows := n; ib_cols := [c0; c1]; ib_ok := ok |}.
Definition zset2 (c0 c1 ws : list Z) (n : nat) (ok : forallb (fun c => (length c =? n)%nat) [c0; c1] = true) : ArrowZSet :=
  {| data := batch2 c0 c1 n ok; weights := ws; frontier := None |}.

Definition schema2 : @Schema int_arrow := 2%nat.
Definition epoch1 : ArrowZSet * ArrowZSet :=
  (zset2 [1; 2] [10; 20] [1; 2] 2 eq_refl, zset2 [1; i64_min] [7; 8] [3; 1] 2 eq_refl).
Definition epoch2 : ArrowZSet * ArrowZSet := (zset2 [1] [10] [-1] 1 eq_refl, zset2 [2] [9] [1] 1 eq_refl).
End IntJoin.

(** Rows of one key that have the same bytes cannot collide. *)
Definition one_row_per_key (rows : list StagedRow) : bool :=
  forallb (fun a => forallb (fun b => negb (bool_decide (s_key a = s_key b)) || bool_decide (s_bytes a = s_bytes b)) rows) rows.

Lemma one_row_per_key_distinct rows : one_row_per_key rows = true -> row_ids_distinct rows.
Proof.
  intros Hall a b Ha Hb Hk _. unfold one_row_per_key in Hall. rewrite forallb_forall in Hall.
  apply list_elem_of_In in Ha, Hb. specialize (Hall a Ha). cbn beta in Hall. rewrite forallb_forall in Hall.
  specialize (Hall b Hb). cbn beta in Hall. rewrite bool_decide_eq_true_2 in Hall by done. by apply bool_decide_eq_true_1 in Hall.
Qed.

Import IntArrow IntJoin.

Lemma join_maintains_product_witness :
  let es := [epoch1; epoch2] in
  exists op outs, run process_epoch (join_with_schema 5 [0%nat] [0%nat] 2 2) es = Done (op, Ok outs) /\
    total outs [1; 10; 1; 7] = 0 /\ total outs [2; 20; 2; 9] = 2.
Proof.
  destruct (join_maintains_product 5 [0%nat] [0%nat] schema2 schema2 [epoch1; epoch2]) as (op & outs & E & _ & Ht).
  - exact I.
  - exact I.
  - split_and!; [done|by repeat constructor|done].
  - split_and!; [done|by repeat constructor|done].
  - by repeat constructor.
  - intros []; apply one_row_per_key_distinct; vm_compute; reflexivity.
  - split_and!; vm_compute; discriminate.
  - exists op, outs. split; [exact E|]. split.
    + etrans; [exact (Ht [1; 10] [1; 7] eq_refl)|vm_compute; reflexivity].
    + etrans; [exact (Ht [2; 20] [2; 9] eq_refl)|vm_compute; reflexivity].
Defined.
