(* ===== verification/JoinStore.v ===== *)
(** * Persistence of the join arrangements ([rockstream-ops/src/join.rs])

    The rows changed since the last write are put or deleted under their join key
    and row id; the stored value is the row alone.  A restart scans both
    arrangements; an operator attached to a shard without a restart loads the
    keys it probes.  The attached shard is shared with other operators, so the
    methods take it as an argument.  [OpError::storage] is [OpOther]. *)
From stdpp Require Import base tactics list gmap numbers option fin_maps.
From Stdlib Require Import ZArith Lia ZifyBool.
From S2P Require Import Prelude Kernels Keys Store ShardDb Progress ArrowZSets Distinct DistinctStore KeyCapsules Joins.
Local Open Scope Z_scope.

(** The fields of [JoinOp] that storage adds. *)
Record StoredJoin : Type := {
  core : JoinOp;
  attached : bool;
  state_loaded : bool;
  loaded_left_keys : gset bytes;
  loaded_right_keys : gset bytes
}.

Definition loaded_keys (j : StoredJoin) (side : JoinSide) : gset bytes :=
  match side with Left => loaded_left_keys j | Right => loaded_right_keys j end.

Definition set_core (j : StoredJoin) (op : JoinOp) : StoredJoin :=
  {| core := op; attached := attached j; state_loaded := state_loaded j;
     loaded_left_keys := loaded_left_keys j; loaded_right_keys := loaded_right_keys j |}.

Definition mark_loaded (j : StoredJoin) (side : JoinSide) (k : bytes) : StoredJoin :=
  {| core := core j; attached := attached j; state_loaded := state_loaded j;
     loaded_left_keys := match side with Left => {[k]} ∪ loaded_left_keys j | Right => loaded_left_keys j end;
     loaded_right_keys := match side with Left => loaded_right_keys j | Right => {[k]} ∪ loaded_right_keys j end |}.

Definition join_set_db (j : StoredJoin) : StoredJoin :=
  {| core := core j; attached := true; state_loaded := false; loaded_left_keys := ∅; loaded_right_keys := ∅ |}.

Definition insert_persisted (st : JoinState) (side : JoinSide) (join_key : bytes) (row_id : Z) (rb : bytes)
    : outcome JoinState :=
  let arr := arr_of st side in
  let is_new_key := bool_decide (arr !! join_key = None) in
  let bkt := bucket arr join_key in
  match bkt !! row_id with
  | Some _ => Done (set_arr st side (<[join_key := bkt]> arr) (js_state_bytes st))
  | None =>
    sb ← (if is_new_key then add_u64 (js_state_bytes st) (Z.of_nat (length join_key)) else Done (js_state_bytes st));
    sb ← add_u64 sb (24 + Z.of_nat (length rb));
    Done (set_arr st side (<[join_key := <[row_id := {| row_bytes := rb; weight := 1 |}]> bkt]> arr) sb)
  end.

(** The row id is the last 16 bytes of a key. *)
Definition key_row_id (key : bytes) : Z := of_be (drop (length key - 16) key).

(** Rows in the scan that are not dirty are inserted. *)
Fixpoint load_scanned (dirty : gset (bytes * Z)) (side : JoinSide) (join_key : bytes)
    (entries : list (bytes * bytes)) (st : JoinState) : outcome JoinState :=
  match entries with
  | [] => Done st
  | (key, value) :: rest =>
    if (length key <? 27)%nat then load_scanned dirty side join_key rest st
    else if bool_decide ((join_key, key_row_id key) ∈ dirty) then load_scanned dirty side join_key rest st
    else
      st ← insert_persisted st side join_key (key_row_id key) value;
      load_scanned dirty side join_key rest st
  end.

(** The writes of the dirty rows of one side, in the set's order. *)
Definition dirty_ops (op : JoinOp) (side : JoinSide) : list BatchOp :=
  (fun '(join_key, row_id) =>
    let key := join_arr_key side (op_id op) join_key row_id in
    match arr_of (state op) side !! join_key ≫= (fun b => b !! row_id) with
    | Some arr_row => if 0 <? weight arr_row then Put key (row_bytes arr_row) else Delete key
    | None => Delete key
    end) <$> elements (dirty_of op side).

Definition append_state (op : JoinOp) (target : list BatchOp) : JoinOp * list BatchOp :=
  (set_state op (state op) ∅ ∅, merge_from target (dirty_ops op Left ++ dirty_ops op Right)).

(** Rebuilding one arrangement; every row gets weight one. *)
Definition load_arrangement (entries : list (bytes * bytes)) (arr : Arrangement) : Arrangement :=
  foldl (fun arr e =>
    let key := e.1 in
    if (length key <? 27)%nat then arr
    else
      let join_key := take (length key - 27) (drop 11 key) in
      <[join_key := <[key_row_id key := {| row_bytes := e.2; weight := 1 |}]> (bucket arr join_key)]> arr)
    arr entries.

Section storage.
Context `{SlateDb} `{ArrowJoin}.

Definition ensure_arrangement_key_loaded (d : ShardDb) (j : StoredJoin) (side : JoinSide) (join_key : bytes)
    : outcome (StoredJoin * result OpError unit) :=
  if state_loaded j || negb (attached j) || bool_decide (join_key ∈ loaded_keys j side) then Done (j, Ok tt)
  else
    match scan_prefix d (join_arr_key_prefix side (op_id (core j)) join_key) with
    | Err _ => Done (j, Err OpOther)
    | Ok entries =>
      st ← load_scanned (dirty_of (core j) side) side join_key entries (state (core j));
      Done (mark_loaded (set_core j (set_state (core j) st (dirty_left (core j)) (dirty_right (core j)))) side join_key, Ok tt)
    end.

(** The keys of a delta; nulls have none. *)
Fixpoint delta_keys (b : RecordBatch) (i n : nat) (cols : list nat) : outcome (result OpError (list bytes)) :=
  match n with
  | O => Done (Ok [])
  | S n' =>
    k ← extract_key b i cols;
    match k with
    | Err e => Done (Err e)
    | Ok k =>
      rest ← delta_keys b (S i) n' cols;
      Done match rest with Err e => Err e | Ok ks => Ok (option_list k ++ ks) end
    end
  end.

Fixpoint ensure_keys (d : ShardDb) (j : StoredJoin) (side : JoinSide) (keys : list bytes)
    : outcome (StoredJoin * result OpError unit) :=
  match keys with
  | [] => Done (j, Ok tt)
  | k :: rest =>
    '(j', r) ← ensure_arrangement_key_loaded d j side k;
    match r with Err e => Done (j', Err e) | Ok _ => ensure_keys d j' side rest end
  end.

Definition load_arrangement_keys (d : ShardDb) (j : StoredJoin) (side : JoinSide) (delta : ArrowZSet) (cols : list nat)
    : outcome (StoredJoin * result OpError unit) :=
  if state_loaded j || negb (attached j) then Done (j, Ok tt)
  else
    ks ← delta_keys (data delta) 0 (num_rows delta) cols;
    match ks with
    | Err e => Done (j, Err e)
    | Ok ks => ensure_keys d j side (elements (list_to_set ks : gset bytes))
    end.

Definition probe_arrangement (d : ShardDb) (j : StoredJoin) (side : JoinSide) (join_key : bytes)
    : outcome (StoredJoin * result OpError (list (bytes * Z))) :=
  '(j', r) ← ensure_arrangement_key_loaded d j side join_key;
  Done (j', match r with Err e => Err e | Ok _ => Ok (probe (state (core j')) side join_key) end).

Definition point_lookup_arrangement (d : ShardDb) (j : StoredJoin) (side : JoinSide) (join_key : bytes) (row_id : Z)
    : outcome (ShardDb * result OpError (option bytes)) :=
  match arr_of (state (core j)) side !! join_key ≫= (fun b => b !! row_id) with
  | Some row => Done (d, Ok (if 0 <? weight row then Some (row_bytes row) else None))
  | None =>
    if state_loaded j || bool_decide ((join_key, row_id) ∈ dirty_of (core j) side) || negb (attached j)
    then Done (d, Ok None)
    else
      '(d', r) ← get d (join_arr_key side (op_id (core j)) join_key row_id);
      Done (d', match r with Err _ => Err OpOther | Ok v => Ok v end)
  end.

(** A left delta probes the right arrangement and a right delta the left one. *)
Definition process_epoch_with_storage (d : ShardDb) (j : StoredJoin) (e : ArrowZSet * ArrowZSet)
    : outcome (StoredJoin * result OpError ArrowZSet) :=
  '(j1, r1) ← load_arrangement_keys d j Right e.1 (left_key_cols (core j));
  match r1 with
  | Err er => Done (j1, Err er)
  | Ok _ =>
    '(j2, r2) ← load_arrangement_keys d j1 Left e.2 (right_key_cols (core j1));
    match r2 with
    | Err er => Done (j2, Err er)
    | Ok _ => '(op, r) ← process_epoch (core j2) e; Done (set_core j2 op, r)
    end
  end.

(** The dirty rows are forgotten before the batch is written. *)
Definition persist_state (d : ShardDb) (op : JoinOp) : outcome (JoinOp * ShardDb * result OpError unit) :=
  let '(op', batch) := append_state op batch_new in
  if batch_is_empty batch then Done (op', d, Ok tt)
  else
    '(d', r) ← write_batch d batch;
    Done (op', d', match r with Err _ => Err OpOther | Ok _ => Ok tt end).

Definition load_state (d : ShardDb) (id : Z) : result OpError JoinState :=
  match scan_prefix d (join_arr_op_prefix Left id), scan_prefix d (join_arr_op_prefix Right id) with
  | Ok ls, Ok rs => Ok {| left_arr := load_arrangement ls ∅; right_arr := load_arrangement rs ∅; js_state_bytes := 0 |}
  | _, _ => Err OpOther
  end.

Definition load_from_storage (d : ShardDb) (id : Z) : result OpError StoredJoin :=
  st ← load_state d id;
  Ok {| core := set_state (join_with_schema id [0%nat] [0%nat] 2 2) st ∅ ∅; attached := true; state_loaded := true;
        loaded_left_keys := ∅; loaded_right_keys := ∅ |}.

(** The state is replaced; staged rows and dirty sets are kept. *)
Definition restore_join (d : ShardDb) (j : StoredJoin) : StoredJoin * result OpError unit :=
  match load_state d (op_id (core j)) with
  | Err e => (j, Err e)
  | Ok st =>
    ({| core := set_state (core j) st (dirty_left (core j)) (dirty_right (core j)); attached := true; state_loaded := true;
        loaded_left_keys := ∅; loaded_right_keys := ∅ |}, Ok tt)
  end.
End storage.

(* ------------------------------------------------------------------ *)
(** ** Weights of rows in a history *)

(** The accumulated weight of a row under a key. *)
Definition hw (hist : list StagedRow) (k b : bytes) : Z :=
  zsum (contrib k (fun b' => if bool_decide (b' = b) then 1 else 0)) hist.

Lemma hw_app h1 h2 k b : hw (h1 ++ h2) k b = hw h1 k b + hw h2 k b.
Proof. apply zsum_app. Qed.

Lemma hw_cons r h k b :
  hw (r :: h) k b = (if bool_decide (s_key r = k) && bool_decide (s_bytes r = b) then s_weight r else 0) + hw h k b.
Proof. unfold hw. rewrite zsum_cons. f_equal. unfold contrib. repeat case_bool_decide; cbn [andb]; lia. Qed.

Lemma hw_absent h k b : (forall r, r ∈ h -> s_key r = k -> s_bytes r <> b) -> hw h k b = 0.
Proof.
  induction h as [|r h IH]; intros Hh; [done|]. rewrite hw_cons, IH by (intros r' Hr'; apply Hh; by right).
  repeat case_bool_decide; cbn [andb]; try lia. exfalso. by eapply (Hh r); [left|..].
Qed.

(** A key's weighted sum is determined by the weights of its rows. *)
Lemma zsum_support k f h bs : NoDup bs -> (forall r, r ∈ h -> s_bytes r ∈ bs) ->
  zsum (contrib k f) h = zsum (fun b => f b * hw h k b) bs.
Proof.
  intros Hnd. induction h as [|r h IH]; intros Hin.
  { symmetry. apply zsum_zero, Forall_true. intros b. unfold hw, zsum. simpl. lia. }
  rewrite zsum_cons, IH by (intros r' Hr'; apply Hin; by right).
  assert (s_bytes r ∈ bs) as Hb by (apply Hin; by left).
  apply list_elem_of_split in Hb as (l1 & l2 & ->).
  assert (forall l, s_bytes r ∉ l -> zsum (fun b => f b * hw (r :: h) k b) l = zsum (fun b => f b * hw h k b) l) as Hout.
  { intros l Hl. induction l as [|b l IHl]; [done|]. rewrite not_elem_of_cons in Hl. destruct Hl as [Hne Hl].
    rewrite !zsum_cons, IHl, hw_cons by done. rewrite (bool_decide_eq_false_2 (s_bytes r = b)) by done.
    rewrite Bool.andb_false_r. lia. }
  apply NoDup_app in Hnd as (_ & Hd & [Hn2 _]%NoDup_cons).
  assert (s_bytes r ∉ l1) as Hn1 by (intros Hl; apply (Hd _ Hl); by left).
  rewrite !zsum_app, !zsum_cons, !Hout, hw_cons by done. rewrite (bool_decide_eq_true_2 (s_bytes r = _)) by done.
  unfold contrib. case_bool_decide; cbn [andb]; lia.
Qed.

Lemma contrib_ext k f h h' : (forall b, hw h k b = hw h' k b) -> zsum (contrib k f) h = zsum (contrib k f) h'.
Proof.
  intros Heq. set (bs := remove_dups ((s_bytes <$> h) ++ (s_bytes <$> h'))).
  rewrite !(zsum_support k f _ bs); try apply NoDup_remove_dups.
  - apply zsum_ext. intros b. by rewrite Heq.
  - intros r Hr. apply elem_of_remove_dups, elem_of_app. right. by apply list_elem_of_fmap_2.
  - intros r Hr. apply elem_of_remove_dups, elem_of_app. left. by apply list_elem_of_fmap_2.
Qed.

(** The join depends on the weights only. *)
Lemma bilin_swap g hl hr :
  bilin g hl hr = zsum (fun b => s_weight b * zsum (contrib (s_key b) (fun a => g a (s_bytes b))) hl) hr.
Proof.
  induction hr as [|b hr IH] using rev_ind.
  { apply zsum_zero, Forall_true. intros a. unfold zsum. simpl. lia. }
  by rewrite bilin_app_r, IH, bilin_single_r, zsum_snoc.
Qed.

Lemma bilin_ext g hl hl' hr hr' :
  (forall k b, hw hl k b = hw hl' k b) -> (forall k b, hw hr k b = hw hr' k b) -> bilin g hl hr = bilin g hl' hr'.
Proof.
  intros Hl Hr. transitivity (bilin g hl hr').
  - apply zsum_ext. intros a. f_equal. apply contrib_ext. intros b. apply Hr.
  - rewrite !bilin_swap. apply zsum_ext. intros b. f_equal. apply contrib_ext. intros a. apply Hl.
Qed.

(* ------------------------------------------------------------------ *)
(** ** Storage keys *)

Lemma fnv1a_range h l : l <> [] -> 0 <= fnv1a h l < 2 ^ 128.
Proof.
  intros Hne. destruct l as [|b l] using rev_ind; [done|]. unfold fnv1a. rewrite foldl_snoc.
  apply Z.mod_pos_bound. done.
Qed.

Lemma stable_row_id_range id k b : 0 <= stable_row_id id k b < 256 ^ Z.of_nat 16.
Proof.
  change (256 ^ Z.of_nat 16) with (2 ^ 128). apply fnv1a_range. intros E%(f_equal length).
  rewrite length_app, length_be_bytes in E. cbn in E. lia.
Qed.

Lemma join_arr_key_shape side op k row_id :
  join_arr_key side op k row_id = join_arr_op_prefix side op ++ k ++ be_bytes 16 row_id.
Proof. unfold join_arr_key, join_arr_op_prefix. by rewrite <-!app_assoc. Qed.

Lemma length_join_prefix side op : length (join_arr_op_prefix side op) = 11%nat.
Proof. unfold join_arr_op_prefix. rewrite !length_app, length_be_bytes. by destruct side. Qed.

Lemma join_prefix_ordinary side op : ordinary (join_arr_op_prefix side op).
Proof. eexists 1, _. split; [reflexivity|done]. Qed.

Section decoding.
Context (side : JoinSide) (op : Z) (k : bytes) (row_id : Z) (Hid : 0 <= row_id < 256 ^ Z.of_nat 16).

#[local] Abbreviation key := (join_arr_key side op k row_id).

Lemma length_join_key : length key = (27 + length k)%nat.
Proof. rewrite join_arr_key_shape, !length_app, length_be_bytes, length_join_prefix. lia. Qed.

Lemma decode_join_key : take (length key - 27) (drop 11 key) = k.
Proof.
  rewrite length_join_key, join_arr_key_shape, (drop_app_length' _ _ 11) by (by rewrite length_join_prefix).
  replace (27 + length k - 27)%nat with (length k) by lia. apply take_app_length.
Qed.

Lemma decode_row_id : key_row_id key = row_id.
Proof.
  unfold key_row_id. rewrite length_join_key, join_arr_key_shape, app_assoc.
  rewrite drop_app_length' by (rewrite length_app, length_join_prefix; lia). by apply of_be_be_bytes_id.
Qed.

Lemma join_key_starts : starts_with key (join_arr_op_prefix side op) = true.
Proof. rewrite join_arr_key_shape. apply starts_with_app. Qed.

Lemma join_key_ordinary : ordinary key /\ key <> frontier_key.
Proof. split; [eexists 1, _; split; [reflexivity|done]|done]. Qed.
End decoding.

Lemma join_arr_key_inj side side' op k k' i i' :
  0 <= i < 256 ^ Z.of_nat 16 -> 0 <= i' < 256 ^ Z.of_nat 16 ->
  join_arr_key side op k i = join_arr_key side' op k' i' -> side = side' /\ k = k' /\ i = i'.
Proof.
  intros Hi Hi' E. assert (side = side') as <-.
  { rewrite !join_arr_key_shape in E. apply (f_equal (fun l => nth 2 l 0)) in E. by destruct side, side'. }
  split; [done|]. split.
  - rewrite <-(decode_join_key side op k i Hi), E. by apply decode_join_key.
  - rewrite <-(decode_row_id side op k i Hi), E. by apply decode_row_id.
Qed.

(** The last word on a key a batch writes once. *)
Lemma view_after_once (f : bytes -> option bytes) ops op :
  NoDup (op_key <$> ops) -> op ∈ ops ->
  view_after f ops (op_key op) = match op with Put _ v => Some v | Delete _ => None | MergeOp _ _ => f (op_key op) end.
Proof.
  intros Hnd (l1 & l2 & ->)%list_elem_of_split. rewrite fmap_app, fmap_cons in Hnd.
  apply NoDup_app in Hnd as (_ & Hd & [Hn2 _]%NoDup_cons).
  rewrite (cons_middle op l1 l2), app_assoc, view_after_app, view_after_other.
  - rewrite view_after_app. unfold view_after at 1. cbn [foldl]. unfold op_effect.
    rewrite bool_decide_eq_true_2 by done. destruct op; try done. apply view_after_other.
    intros op' Hin E. apply (Hd (op_key op')); [by apply list_elem_of_fmap_2|]. rewrite E. by left.
  - intros op' Hin E. apply Hn2. rewrite <-E. by apply list_elem_of_fmap_2.
Qed.

(* ------------------------------------------------------------------ *)
(** ** The shard's copy of the arrangements *)

Section copy.
Context `{ArrowOps} `{SlateDbLaws, !SlateDbUp}.
Context (id : Z) (U : JoinSide -> bytes -> bytes -> Prop).
Context (Hrid : forall side k b b', U side k b -> U side k b' -> stable_row_id id k b = stable_row_id id k b' -> b = b').

Definition jkey (side : JoinSide) (k b : bytes) : bytes := join_arr_key side id k (stable_row_id id k b).

Lemma jkey_inj side k b k' b' : U side k b -> U side k' b' -> jkey side k b = jkey side k' b' -> k = k' /\ b = b'.
Proof.
  intros HU HU' E. apply join_arr_key_inj in E as (_ & <- & E); [|apply stable_row_id_range..].
  split; [done|]. by apply (Hrid side k).
Qed.

(** The shard holds the rows of positive weight of the histories. *)
Record shard_holds (d : ShardDb) (saved : JoinSide -> list StagedRow) : Prop := {
  sh_rows side k b : U side k b -> view d (jkey side k b) = if 0 <? hw (saved side) k b then Some b else None;
  sh_keys side key v : view d key = Some v -> starts_with key (join_arr_op_prefix side id) = true ->
    exists k b, U side k b /\ key = jkey side k b
}.

Definition hist_known (h : list StagedRow) (side : JoinSide) : Prop := Forall (staged_ok (U side) (stable_row_id id)) h.

Lemma hw_unknown h side k b : hist_known h side -> ~ U side k b -> hw h k b = 0.
Proof.
  intros Hh Hn. apply hw_absent. intros r Hr <- <-. unfold hist_known in Hh. rewrite Forall_forall in Hh. by apply Hn, Hh.
Qed.

(** The entry of a row is its weight in the history. *)
Lemma arr_lookup arr h side k b : arr_rep (U side) (stable_row_id id) arr h -> U side k b ->
  match arr !! k ≫= (fun bkt => bkt !! stable_row_id id k b) with
  | Some e => row_bytes e = b /\ weight e = hw h k b
  | None => hw h k b = 0
  end.
Proof.
  intros Hrep HU.
  replace (arr !! k ≫= _) with (bucket arr k !! stable_row_id id k b) by (unfold bucket; by destruct (arr !! k)).
  destruct (bucket arr k !! _) as [e|] eqn:He.
  - destruct (ar_ids _ _ _ _ Hrep _ _ _ He) as [HUe Hid].
    assert (row_bytes e = b) as Hb by (symmetry; by apply (Hrid side k)). split; [done|].
    rewrite (arr_weight _ _ _ _ _ _ _ Hrep He), Hb. done.
  - unfold hw. rewrite <-(ar_sum _ _ _ _ Hrep). apply map_sum_zero. intros i e Hi.
    rewrite bool_decide_eq_false_2; [done|]. intros <-. destruct (ar_ids _ _ _ _ Hrep _ _ _ Hi) as [_ ->]. by rewrite He in Hi.
Qed.

(** Dirty rows are rows of the input, and every row whose stored form is stale
    is dirty. *)
Record dirty_ok (op : JoinOp) (hist saved : JoinSide -> list StagedRow) : Prop := {
  do_known side k i : (k, i) ∈ dirty_of op side -> exists b, U side k b /\ i = stable_row_id id k b;
  do_covered side k b : U side k b -> (k, stable_row_id id k b) ∉ dirty_of op side ->
    (0 <? hw (hist side) k b) = (0 <? hw (saved side) k b)
}.

(** After one epoch of an operator that was not dirty. *)
Lemma dirty_first op op' hist saved d :
  (forall side, dirty_of op side = ∅) -> (forall side, dirty_of op' side = dirty_of op side ∪ dirty_rows (d side)) ->
  (forall side, hist_known (d side) side) ->
  (forall side k b, U side k b -> (0 <? hw (hist side) k b) = (0 <? hw (saved side) k b) \/
     exists r, r ∈ d side /\ s_key r = k /\ s_bytes r = b) -> dirty_ok op' hist saved.
Proof.
  intros Hemp Hd Hk Hcov. split.
  - intros side k i. rewrite Hd, Hemp, union_empty_l_L. intros (r & E & Hr)%elem_of_list_to_set%list_elem_of_fmap.
    apply pair_equal_spec in E as [-> ->]. specialize (Hk side). unfold hist_known in Hk. rewrite Forall_forall in Hk.
    destruct (Hk r Hr). eauto.
  - intros side k b HUb Hn. destruct (Hcov side k b HUb) as [?|(r & Hr & <- & <-)]; [done|]. exfalso. apply Hn.
    rewrite Hd, Hemp, union_empty_l_L. apply elem_of_list_to_set, list_elem_of_fmap. exists r. split; [|done].
    specialize (Hk side). unfold hist_known in Hk. rewrite Forall_forall in Hk. by destruct (Hk r Hr) as [_ ->].
Qed.

Definition all_ops (op : JoinOp) : list BatchOp := dirty_ops op Left ++ dirty_ops op Right.

Lemma dirty_op_elem op side bop : op_id op = id -> bop ∈ dirty_ops op side ->
  exists k i, (k, i) ∈ dirty_of op side /\ op_key bop = join_arr_key side id k i /\
    bop = match arr_of (state op) side !! k ≫= (fun b => b !! i) with
          | Some e => if 0 <? weight e then Put (join_arr_key side id k i) (row_bytes e) else Delete (join_arr_key side id k i)
          | None => Delete (join_arr_key side id k i)
          end.
Proof.
  intros <- ([k i] & -> & Hin%elem_of_elements)%list_elem_of_fmap. exists k, i. split; [done|]. split; [|done].
  by repeat case_match.
Qed.

Lemma dirty_ops_keys op side hist saved : op_id op = id -> dirty_ok op hist saved ->
  NoDup (op_key <$> dirty_ops op side) /\ point_writes (dirty_ops op side) /\
  Forall (fun bop => exists k b, U side k b /\ op_key bop = jkey side k b) (dirty_ops op side).
Proof.
  intros Hid Hd. split_and!.
  - unfold dirty_ops. rewrite <-list_fmap_compose.
    apply NoDup_fmap_2_strong; [|apply NoDup_elements].
    intros [k i] [k' i'] (b & _ & ->)%elem_of_elements%(do_known _ _ _ Hd) (b' & _ & ->)%elem_of_elements%(do_known _ _ _ Hd) E.
    cbn [compose] in E. assert (join_arr_key side (op_id op) k (stable_row_id id k b) =
      join_arr_key side (op_id op) k' (stable_row_id id k' b')) as E' by (by repeat case_match).
    apply join_arr_key_inj in E' as (_ & <- & ->); [done|apply stable_row_id_range..].
  - apply Forall_fmap, Forall_true. intros [k i]. cbn. by repeat case_match.
  - apply Forall_forall. intros bop (k & i & (b & HU & ->)%(do_known _ _ _ Hd) & -> & _)%dirty_op_elem; [|done]. by exists k, b.
Qed.

Lemma all_ops_keys op hist saved : op_id op = id -> dirty_ok op hist saved ->
  NoDup (op_key <$> all_ops op) /\ point_writes (all_ops op) /\
  Forall (fun bop => exists side k b, U side k b /\ op_key bop = jkey side k b) (all_ops op).
Proof.
  intros Hid Hd. destruct (dirty_ops_keys op Left hist saved Hid Hd) as (Hn1 & Hp1 & Hk1).
  destruct (dirty_ops_keys op Right hist saved Hid Hd) as (Hn2 & Hp2 & Hk2). unfold all_ops. split_and!.
  - rewrite fmap_app. apply NoDup_app. split_and!; [done| |done].
    intros key (b1 & -> & Hb1)%list_elem_of_fmap (b2 & E & Hb2)%list_elem_of_fmap.
    rewrite Forall_forall in Hk1, Hk2. destruct (Hk1 _ Hb1) as (k1 & r1 & _ & E1), (Hk2 _ Hb2) as (k2 & r2 & _ & E2).
    rewrite E1, E2 in E. by apply join_arr_key_inj in E as [? _]; [|apply stable_row_id_range..].
  - by apply Forall_app.
  - apply Forall_app. split; (eapply Forall_impl; [eassumption|]); intros bop (k & b & ? & ?); eauto.
Qed.

(** The batch of an operator brings the shard up to date. *)
Lemma all_ops_effect op hist saved d side k b :
  op_id op = id -> (forall side, arr_rep (U side) (stable_row_id id) (arr_of (state op) side) (hist side)) ->
  dirty_ok op hist saved -> shard_holds d saved -> U side k b ->
  view_after (view d) (all_ops op) (jkey side k b) = if 0 <? hw (hist side) k b then Some b else None.
Proof.
  intros Hid Hrep Hd Hsh HU. destruct (all_ops_keys op hist saved Hid Hd) as (Hnd & _ & _).
  destruct (decide ((k, stable_row_id id k b) ∈ dirty_of op side)) as [Hin|Hout].
  - pose proof (arr_lookup _ _ side k b (Hrep side) HU) as Hl.
    set (bop := match arr_of (state op) side !! k ≫= (fun bkt => bkt !! stable_row_id id k b) with
      | Some e => if 0 <? weight e then Put (jkey side k b) (row_bytes e) else Delete (jkey side k b)
      | None => Delete (jkey side k b) end).
    assert (op_key bop = jkey side k b) as Hkey by (unfold bop; by repeat case_match).
    assert (bop ∈ all_ops op) as Hbop.
    { assert (bop ∈ dirty_ops op side) as Hs; [|unfold all_ops; apply elem_of_app; destruct side; auto].
      apply list_elem_of_fmap. exists (k, stable_row_id id k b). split; [|by apply elem_of_elements].
      unfold bop, jkey. by rewrite Hid. }
    rewrite <-Hkey, (view_after_once _ _ _ Hnd Hbop). unfold bop.
    destruct (arr_of (state op) side !! k ≫= _) as [e|].
    + destruct Hl as [-> ->]. by destruct (0 <? hw (hist side) k b).
    + by rewrite Hl.
  - rewrite view_after_other; [rewrite (sh_rows _ _ Hsh) by done; by rewrite (do_covered _ _ _ Hd)|].
    intros bop Hbop E. apply Hout. unfold all_ops in Hbop.
    assert (exists s, bop ∈ dirty_ops op s) as [s Hs] by (apply elem_of_app in Hbop as []; eauto).
    apply dirty_op_elem in Hs as (k' & i & Hki & Ek & _); [|done]. rewrite Ek in E.
    destruct (do_known _ _ _ Hd _ _ _ Hki) as (b' & _ & ->).
    by apply join_arr_key_inj in E as (-> & -> & <-); [|apply stable_row_id_range..].
Qed.

Lemma jkey_props side k b : ordinary (jkey side k b) /\ jkey side k b <> frontier_key.
Proof. apply join_key_ordinary. Qed.

(** Writing a batch of rows' keys. *)
Lemma shard_holds_write d ops d' saved hist :
  open_shard d -> shard_holds d saved -> point_writes ops -> Forall (fun bop => ordinary (op_key bop)) ops ->
  write_batch d ops = Done (d', Ok tt) ->
  (forall side k b, U side k b ->
    view_after (view d) ops (jkey side k b) = if 0 <? hw (hist side) k b then Some b else None) ->
  (forall bop side, bop ∈ ops -> starts_with (op_key bop) (join_arr_op_prefix side id) = true ->
    exists k b, U side k b /\ op_key bop = jkey side k b) ->
  shard_holds d' hist.
Proof.
  intros Hd Hsh Hpt Ho Hw Heff Hkeys. destruct (write_batch_ok d ops d') as (_ & _ & Hv); [apply Hd|done|done|done|]. split.
  - intros side k b HU. rewrite Hv by apply jkey_props. by apply Heff.
  - intros side key v Hk Hst. assert (ordinary key) as Hok by (eapply ordinary_extend; [apply join_prefix_ordinary|exact Hst]).
    rewrite Hv in Hk by done. destruct (decide (Exists (fun bop => op_key bop = key) ops)) as [Hex|Hn].
    + apply Exists_exists in Hex as (bop & Hin & <-). by apply Hkeys.
    + rewrite view_after_other in Hk; [by apply (sh_keys _ _ Hsh _ _ v)|].
      intros bop Hin E. apply Hn, Exists_exists. eauto.
Qed.

Lemma jkey_side side side' k b : starts_with (jkey side' k b) (join_arr_op_prefix side id) = true -> side' = side.
Proof.
  intros (l & E)%starts_with_spec. unfold jkey in E. rewrite join_arr_key_shape in E.
  apply (f_equal (fun l => nth 2 l 0)) in E. by destruct side, side'.
Qed.

Lemma persist_ok op hist saved d :
  op_id op = id -> (forall side, arr_rep (U side) (stable_row_id id) (arr_of (state op) side) (hist side)) ->
  dirty_ok op hist saved -> shard_holds d saved -> open_shard d ->
  exists d', persist_state d op = Done (set_state op (state op) ∅ ∅, d', Ok tt) /\ open_shard d' /\ shard_holds d' hist.
Proof.
  intros Hid Hrep Hd Hsh Hop. unfold persist_state. cbn [append_state merge_from batch_new app]. fold (all_ops op).
  pose proof (fun side k b => all_ops_effect op hist saved d side k b Hid Hrep Hd Hsh) as Heff.
  destruct (all_ops_keys op hist saved Hid Hd) as (_ & Hpt & Hks). destruct (batch_is_empty (all_ops op)) eqn:Hem.
  - exists d. split_and!; [done|done|]. unfold batch_is_empty in Hem. apply Nat.eqb_eq, length_zero_iff_nil in Hem.
    rewrite Hem in Heff. split; [exact Heff|apply (sh_keys _ _ Hsh)].
  - destruct (write_batch_up d (all_ops op)) as (d' & Hw & Hop'); [done| |].
    { eapply Forall_impl; [exact Hks|]. intros bop (side & k & b & _ & ->). apply jkey_props. }
    rewrite Hw. cbn [mbind outcome_bind]. exists d'. split_and!; [done|done|].
    eapply (shard_holds_write d (all_ops op)); [done|done|done| |done|done|].
    + eapply Forall_impl; [exact Hks|]. intros bop (side & k & b & _ & ->). apply jkey_props.
    + intros bop side Hin Hst. rewrite Forall_forall in Hks. destruct (Hks bop Hin) as (s & k & b & HU & E).
      rewrite E in Hst. apply jkey_side in Hst as ->. eauto.
Qed.

(** *** Loading *)

(** The history a scan of an arrangement stands for: each row once. *)
Definition scanned (entries : list (bytes * bytes)) : list StagedRow :=
  (fun e => {| s_key := take (length e.1 - 27) (drop 11 e.1); s_row_id := key_row_id e.1; s_bytes := e.2; s_weight := 1 |})
    <$> entries.

Definition row_entry (side : JoinSide) (e : bytes * bytes) : Prop :=
  exists k, U side k e.2 /\ e.1 = jkey side k e.2.

Lemma jkey_decode side k b :
  (length (jkey side k b) <? 27)%nat = false /\
  take (length (jkey side k b) - 27) (drop 11 (jkey side k b)) = k /\ key_row_id (jkey side k b) = stable_row_id id k b.
Proof.
  pose proof (stable_row_id_range id k b) as Hr. unfold jkey. split_and!.
  - rewrite length_join_key by done. apply Nat.ltb_ge. lia.
  - by apply decode_join_key.
  - by apply decode_row_id.
Qed.

Lemma load_arrangement_ok side entries : forall arr h,
  NoDup entries.*1 -> Forall (row_entry side) entries ->
  (forall k b, jkey side k b ∈ entries.*1 -> U side k b -> bucket arr k !! stable_row_id id k b = None) ->
  arr_rep (U side) (stable_row_id id) arr h ->
  arr_rep (U side) (stable_row_id id) (load_arrangement entries arr) (h ++ scanned entries).
Proof.
  induction entries as [|[key v] entries IH]; intros arr h Hnd Hall Hnew Hrep; [by rewrite app_nil_r|].
  apply List.Forall_cons_iff in Hall as [(k & HU & Hkey) Hall]. cbn [fst snd] in *. subst key.
  rewrite fmap_cons in Hnd, Hnew. apply NoDup_cons in Hnd as [Hn Hnd]. cbn [fst] in *.
  unfold scanned. rewrite fmap_cons. cbn [fst snd]. destruct (jkey_decode side k v) as (_ & -> & ->). fold (scanned entries).
  rewrite (cons_middle _ h), app_assoc. unfold load_arrangement. cbn [foldl fst snd]. fold (load_arrangement entries).
  destruct (jkey_decode side k v) as (-> & -> & ->).
  assert (bucket arr k !! stable_row_id id k v = None) as Hnone by (apply Hnew; [by left|done]).
  apply IH; [done|done| |].
  - intros k' b' Hin HU'. rewrite bucket_insert. case_bool_decide as E; [subst k'|apply Hnew; [by right|done]].
    rewrite lookup_insert_ne; [apply Hnew; [by right|done]|]. intros E.
    apply (Hrid side k) in E; [|done|done]. by rewrite E in Hn.
  - eapply (arr_rep_step _ _ arr _ h {| s_key := k; s_row_id := stable_row_id id k v; s_bytes := v; s_weight := 1 |});
      [done|intros k'; apply bucket_insert| |].
    + apply bucket_ok_insert; [apply (ar_ids _ _ _ _ Hrep)|done|done].
    + intros f. unfold bucket_sum. rewrite map_sum_insert by done. cbn [row_bytes weight s_bytes s_key s_weight]. lia.
Qed.

Lemma scanned_hw side entries k b : NoDup entries.*1 -> Forall (row_entry side) entries -> U side k b ->
  hw (scanned entries) k b = if bool_decide (jkey side k b ∈ entries.*1) then 1 else 0.
Proof.
  intros Hnd Hall HU. induction Hall as [|[key v] entries (k' & HU' & Hkey) Hall IH]; [done|].
  cbn [fst snd] in *. subst key. rewrite fmap_cons in *. apply NoDup_cons in Hnd as [Hn Hnd]. cbn [fst] in *.
  unfold scanned. rewrite fmap_cons. cbn [fst snd]. destruct (jkey_decode side k' v) as (_ & -> & ->). fold (scanned entries).
  rewrite hw_cons, IH by done. cbn [s_key s_bytes s_weight].
  destruct (decide (k' = k /\ v = b)) as [[-> ->]|Hne].
  - rewrite !(bool_decide_eq_true_2 (_ = _)) by done. rewrite (bool_decide_eq_false_2 _ Hn), (bool_decide_eq_true_2 (_ ∈ _ :: _)) by left. done.
  - replace (bool_decide (k' = k) && bool_decide (v = b)) with false by (repeat case_bool_decide; naive_solver).
    rewrite (bool_decide_ext (jkey side k b ∈ _ :: _) (jkey side k b ∈ entries.*1)); [done|].
    rewrite elem_of_cons. split; [|by right]. intros [E|]; [|done]. exfalso. apply Hne.
    by apply (jkey_inj side) in E as [-> ->].
Qed.

(** What a scan of one side finds. *)
Lemma scan_side_ok d saved side : open_shard d -> shard_holds d saved -> hist_known (saved side) side ->
  exists l, scan_prefix d (join_arr_op_prefix side id) = Ok l /\
    arr_rep (U side) (stable_row_id id) (load_arrangement l ∅) (scanned l) /\ hist_known (scanned l) side /\
    forall k b, hw (scanned l) k b = if 0 <? hw (saved side) k b then 1 else 0.
Proof.
  intros Hd Hsh Hk. pose proof (join_prefix_ordinary side id) as Hp.
  destruct (scan_prefix_up d _ Hp Hd) as [l El]. exists l. split; [done|].
  destruct (scan_prefix_ok d _ l Hp (proj1 Hd) El) as [Hs%sorted_NoDup He].
  assert (Forall (row_entry side) l) as Hall.
  { apply Forall_forall. intros [key v] [Hv Hst]%He. destruct (sh_keys _ _ Hsh _ _ _ Hv Hst) as (k & b & HU & ->).
    rewrite (sh_rows _ _ Hsh) in Hv by done. destruct (0 <? _); [|done]. injection Hv as <-. by exists k. }
  assert (hist_known (scanned l) side) as Hks.
  { apply Forall_fmap. eapply Forall_impl; [exact Hall|]. intros [key v] (k & HU & Hkey). cbn [fst snd] in *. subst key.
    unfold compose. cbn [fst snd]. destruct (jkey_decode side k v) as (_ & -> & ->). done. }
  split_and!; [|done|].
  - apply (load_arrangement_ok side l ∅ []); [done|done| |apply arr_rep_empty].
    intros k b _ _. unfold bucket. by rewrite lookup_empty.
  - intros k b. destruct (0 <? hw (saved side) k b) eqn:Hpos.
    + assert (U side k b) as HU.
      { destruct (decide (Exists (fun r => s_key r = k /\ s_bytes r = b) (saved side))) as [Hex|Hn].
        - apply Exists_exists in Hex as (r & Hr & <- & <-). unfold hist_known in Hk. rewrite Forall_forall in Hk. by apply Hk.
        - rewrite hw_absent in Hpos; [done|]. intros r Hr Ek Eb. apply Hn, Exists_exists. eauto. }
      rewrite (scanned_hw side), bool_decide_eq_true_2; [done| |done|done|done].
      apply list_elem_of_fmap. exists (jkey side k b, b). split; [done|]. apply He.
      rewrite (sh_rows _ _ Hsh), Hpos by done. split; [done|]. by apply join_key_starts.
    + apply hw_absent. intros r Hr Ek Eb. apply list_elem_of_fmap in Hr as ([key v] & -> & Hin).
      rewrite Forall_forall in Hall. destruct (Hall _ Hin) as (k' & HU & Hkey). cbn [fst snd s_key s_bytes] in *. subst key v.
      destruct (jkey_decode side k' b) as (_ & Ek' & _). rewrite Ek' in Ek. subst k'.
      apply He in Hin as [Hv _]. rewrite (sh_rows _ _ Hsh), Hpos in Hv by done. done.
Qed.
End copy.

(* ------------------------------------------------------------------ *)
(** ** Restarts *)

Section restart.
Context `{ArrowOps} `{!ArrowLaws} `{!ArrowJoin} `{!ArrowJoinLaws} `{SlateDbLaws, !SlateDbUp}.
Context (id : Z) (lk rk : list nat) (sl sr : Schema).
Context (Hsl : int64_schema sl) (Hsr : int64_schema sr) (Hlk : cols_ok sl lk) (Hrk : cols_ok sr rk).
Context (U : JoinSide -> bytes -> bytes -> Prop).
Context (Hrid : forall side k b b', U side k b -> U side k b' -> stable_row_id id k b = stable_row_id id k b' -> b = b').
Context (HU : forall side k b, U side k b ->
  exists r, b = row_key r /\ i64_row r /\ length r = num_fields (side_schema sl sr side)).

Definition fresh_join : StoredJoin :=
  {| core := join_with_schema id lk rk (num_fields sl) (num_fields sr); attached := false; state_loaded := false;
     loaded_left_keys := ∅; loaded_right_keys := ∅ |}.

(** [y_hist] and [y_saved] are ghost state: the staged rows the arrangements
    hold, and those at the last write. *)
Record jsystem : Type := {
  y_join : StoredJoin;
  y_hist : JoinSide -> list StagedRow;
  y_db : ShardDb;
  y_saved : JoinSide -> list StagedRow
}.

Definition epoch_ok (e : ArrowZSet * ArrowZSet) : Prop := forall side,
  input_ok (side_schema sl sr side) (side_delta e side) /\ known id U side (delta_rows_of id lk rk side e).

(** Epochs, writes of the join's state, writes of other operators, restarts. *)
Inductive jstep : jsystem -> jsystem -> Prop :=
| Y_epoch s e op z :
    epoch_ok e -> in_budget (fun side => y_hist s side ++ delta_rows_of id lk rk side e) ->
    process_epoch (core (y_join s)) e = Done (op, Ok z) ->
    jstep s {| y_join := set_core (y_join s) op; y_hist := fun side => y_hist s side ++ delta_rows_of id lk rk side e;
               y_db := y_db s; y_saved := y_saved s |}
| Y_persist s op d' :
    persist_state (y_db s) (core (y_join s)) = Done (op, d', Ok tt) ->
    jstep s {| y_join := set_core (y_join s) op; y_hist := y_hist s; y_db := d'; y_saved := y_hist s |}
| Y_other s ops d' :
    point_writes ops ->
    Forall (fun bop => ordinary (op_key bop) /\
      forall side, starts_with (op_key bop) (join_arr_op_prefix side id) = false) ops ->
    write_batch (y_db s) ops = Done (d', Ok tt) ->
    jstep s {| y_join := y_join s; y_hist := y_hist s; y_db := d'; y_saved := y_saved s |}
| Y_restart s j rec :
    restore_join (y_db s) fresh_join = (j, Ok tt) ->
    (forall side, exists l, scan_prefix (y_db s) (join_arr_op_prefix side id) = Ok l /\ rec side = scanned l) ->
    jstep s {| y_join := j; y_hist := rec; y_db := y_db s; y_saved := y_saved s |}.

Record jinv (s : jsystem) : Prop := {
  ji_rep : join_rep id lk rk sl sr U (core (y_join s)) (y_hist s);
  ji_clean : clean (core (y_join s));
  ji_hist side : hist_known id U (y_hist s side) side;
  ji_saved side : hist_known id U (y_saved s side) side;
  ji_dirty : dirty_ok id U (core (y_join s)) (y_hist s) (y_saved s);
  ji_open : open_shard (y_db s);
  ji_shard : shard_holds id U (y_db s) (y_saved s)
}.

(** The rows of an epoch become dirty; no other weight changes. *)
Lemma dirty_epoch op op' hist saved d :
  dirty_ok id U op hist saved -> (forall side, hist_known id U (d side) side) ->
  (forall side, dirty_of op' side = dirty_of op side ∪ dirty_rows (d side)) ->
  dirty_ok id U op' (fun side => hist side ++ d side) saved.
Proof.
  intros [Hk Hc] Hd Heq. split.
  - intros side k i. rewrite Heq, elem_of_union. intros [Hin|Hin]; [by apply Hk|].
    apply elem_of_list_to_set, list_elem_of_fmap in Hin as (r & [= -> ->] & Hr).
    specialize (Hd side). unfold hist_known in Hd. rewrite Forall_forall in Hd. destruct (Hd r Hr) as [? ?]. eauto.
  - intros side k b HUb. rewrite Heq, not_elem_of_union. intros [Hn Hnd]. rewrite hw_app, (hw_absent (d side)), Z.add_0_r; [by apply Hc|].
    intros r Hr <- <-. apply Hnd, elem_of_list_to_set, list_elem_of_fmap. exists r. split; [|done].
    specialize (Hd side). unfold hist_known in Hd. rewrite Forall_forall in Hd. by destruct (Hd r Hr) as [_ ->].
Qed.

Lemma persisted_dirty op hist : dirty_ok id U (set_state op (state op) ∅ ∅) hist hist.
Proof. split; [|done]. intros [] k i Hin; by apply elem_of_empty in Hin. Qed.

Lemma restore_ok d saved : open_shard d -> shard_holds id U d saved -> (forall side, hist_known id U (saved side) side) ->
  exists j rec, restore_join d fresh_join = (j, Ok tt) /\ join_rep id lk rk sl sr U (core j) rec /\ clean (core j) /\
    (forall side, dirty_of (core j) side = ∅) /\ (forall side, hist_known id U (rec side) side) /\
    (forall side, exists l, scan_prefix d (join_arr_op_prefix side id) = Ok l /\ rec side = scanned l) /\
    forall side k b, hw (rec side) k b = if 0 <? hw (saved side) k b then 1 else 0.
Proof.
  intros Hd Hsh Hk. destruct (scan_side_ok id U Hrid d saved Left Hd Hsh (Hk Left)) as (ls & El & Hl & Hkl & Hwl).
  destruct (scan_side_ok id U Hrid d saved Right Hd Hsh (Hk Right)) as (rs & Er & Hr & Hkr & Hwr).
  unfold restore_join, load_state. cbn [core fresh_join op_id join_with_schema]. rewrite El, Er.
  eexists _, (fun side => match side with Left => scanned ls | Right => scanned rs end). split; [reflexivity|].
  split_and!; [|by intros []|by intros []|by intros []|intros []; eauto|intros [] k b; [apply Hwl|apply Hwr]].
  split; [done|by intros []|]. cbn. pose proof (hcost_nonneg (scanned ls)). pose proof (hcost_nonneg (scanned rs)). lia.
Qed.

Lemma other_write d ops d' saved :
  open_shard d -> shard_holds id U d saved -> point_writes ops ->
  Forall (fun bop => ordinary (op_key bop) /\
    forall side, starts_with (op_key bop) (join_arr_op_prefix side id) = false) ops ->
  write_batch d ops = Done (d', Ok tt) -> shard_holds id U d' saved.
Proof.
  intros Hd Hsh Hpt Ho Hw.
  assert (forall bop side, bop ∈ ops -> starts_with (op_key bop) (join_arr_op_prefix side id) <> true) as Hns
    by (intros bop side Hin; rewrite Forall_forall in Ho; destruct (Ho bop Hin) as [_ ->]; done).
  eapply (shard_holds_write id U d ops); [done|done|done| |done| |].
  - eapply Forall_impl; [exact Ho|]. by intros bop [? _].
  - intros side k b HUb. rewrite view_after_other; [by apply (sh_rows _ _ _ _ Hsh)|].
    intros bop Hin E. apply (Hns bop side Hin). rewrite E. apply join_key_starts.
  - intros bop side Hin Hst. by destruct (Hns bop side Hin).
Qed.

Lemma jstep_inv s s' : jstep s s' -> jinv s -> jinv s'.
Proof.
  intros Hst Hi. destruct Hst as [s e op z He Hb Hp|s op d' Hp|s ops d' Hpt Ho Hw|s j rec Hr Hrec].
  - destruct (process_epoch_ok id lk rk sl sr Hsl Hsr Hlk Hrk U Hrid HU (core (y_join s)) (y_hist s) e)
      as (op' & z' & ps & E & Hrep & Hcl & Hdirty & _); [apply Hi|apply Hi|apply He|apply He|done|].
    rewrite Hp in E. injection E as <- <-. split; cbn; try done; try apply Hi.
    + intros side. apply Forall_app. split; [apply Hi|apply He].
    + eapply dirty_epoch; [apply Hi|apply He|done].
  - destruct (persist_ok id U Hrid (core (y_join s)) (y_hist s) (y_saved s) (y_db s)) as (d1 & E & Hop & Hsh);
      [apply (jr_config _ _ _ _ _ _ _ _ (ji_rep _ Hi))|apply (jr_arr _ _ _ _ _ _ _ _ (ji_rep _ Hi))|apply Hi|apply Hi|apply Hi|].
    rewrite Hp in E. injection E as -> ->. destruct (ji_rep _ Hi) as [Hc Ha Hs].
    split; cbn [y_join y_hist y_db y_saved core set_core]; try done; try apply Hi; apply persisted_dirty.
  - split; cbn [y_join y_hist y_db y_saved]; try apply Hi; [by eapply write_batch_open; [|apply Hi]|].
    eapply other_write; [apply Hi|apply Hi|done|done|done].
  - destruct (restore_ok (y_db s) (y_saved s)) as (j' & rec' & E & Hrep & Hcl & Hdirty & Hk & Hrec' & Hhw); [apply Hi|apply Hi|apply Hi|].
    rewrite Hr in E. injection E as <-.
    assert (forall side, rec side = rec' side) as Heq.
    { intros side. destruct (Hrec side) as (l & E1 & ->), (Hrec' side) as (l' & E2 & ->). rewrite E1 in E2. by injection E2 as ->. }
    split; cbn [y_join y_hist y_db y_saved]; try apply Hi; [|done|by intros side; rewrite Heq|].
    + destruct Hrep as [Hc Ha Hs]. split; [done|by intros side; rewrite Heq|by rewrite !Heq].
    + split; intros side; rewrite ?Hdirty; [intros k i Hin; by apply elem_of_empty in Hin|].
      intros k b _ _. rewrite Heq, Hhw. by destruct (0 <? hw _ _ _).
Qed.

Definition jsystem_init (d : ShardDb) : jsystem :=
  {| y_join := fresh_join; y_hist := fun _ => []; y_db := d; y_saved := fun _ => [] |}.

Lemma jsystem_init_inv d : open_shard d ->
  (forall side k, starts_with k (join_arr_op_prefix side id) = true -> view d k = None) -> jinv (jsystem_init d).
Proof.
  intros Hd Hn. split; cbn [jsystem_init y_join y_hist y_db y_saved core fresh_join]; try (intros; by constructor).
  - split; [done|intros []; apply arr_rep_empty|done].
  - by intros [].
  - split; [intros [] k i Hin; by apply elem_of_empty in Hin|done].
  - done.
  - split; [intros side k b HUb; rewrite (Hn side); [done|apply join_key_starts]|].
    intros side k v Hv Hst. by rewrite (Hn side k Hst) in Hv.
Qed.

(** The change of the pair's weight that epochs make on top of histories. *)
Definition join_change (l r : list Z) (h : JoinSide -> list StagedRow) (es : list (ArrowZSet * ArrowZSet)) : Z :=
  let g := on_bytes sl sr (pair_ind l r) in
  bilin g (history id lk rk h es Left) (history id lk rk h es Right) - bilin g (h Left) (h Right).

Lemma join_change_ext l r h h' es : (forall side k b, hw (h side) k b = hw (h' side) k b) ->
  join_change l r h es = join_change l r h' es.
Proof.
  intros Heq. unfold join_change. apply (f_equal2 Z.sub); apply bilin_ext; intros k b; unfold history; rewrite ?hw_app; by rewrite Heq.
Qed.

(** C17: What a join recovers.  Take a join operator on an open shard that holds
    none of its keys and any sequence of epochs, writes of its dirty rows, writes
    of other operators and restarts from the shard.  A further restart succeeds,
    and the recovered arrangements hold exactly the rows whose weight was positive
    at the last write, each with weight one: the stored form has no multiplicity.
    From there any epochs emit the change of the join of the recovered rows; when
    all persisted weights were zero or one, that is the change an operator that
    never stopped would emit. *)
Theorem join_restart_recovers (d : ShardDb) (s : jsystem) :
  open_shard d -> (forall side k, starts_with k (join_arr_op_prefix side id) = true -> view d k = None) ->
  rtc jstep (jsystem_init d) s ->
  exists j rec, restore_join (y_db s) fresh_join = (j, Ok tt) /\
    (forall side k b, hw (rec side) k b = if 0 <? hw (y_saved s side) k b then 1 else 0) /\
    forall es, Forall epoch_ok es -> in_budget (history id lk rk rec es) ->
      exists op outs, run process_epoch (core j) es = Done (op, Ok outs) /\
        forall l r, length l = num_fields sl -> total outs (l ++ r) = join_change l r rec es /\
          ((forall side k b, 0 <= hw (y_saved s side) k b <= 1) -> total outs (l ++ r) = join_change l r (y_saved s) es).
Proof.
  intros Hd Hn Hrun. assert (jinv s) as Hi.
  { pose proof (jsystem_init_inv d Hd Hn) as Hini. revert Hini. generalize dependent (jsystem_init d).
    intros s0 Hrun. induction Hrun as [|s1 s2 s3 Hs _ IH]; [done|]. intros Hini. by eapply IH, jstep_inv. }
  destruct (restore_ok (y_db s) (y_saved s)) as (j & rec & E & Hrep & Hcl & _ & _ & _ & Hhw); [apply Hi|apply Hi|apply Hi|].
  exists j, rec. split_and!; [done|done|]. intros es Hes Hb.
  destruct (join_run_from id lk rk sl sr Hsl Hsr Hlk Hrk U Hrid HU es (core j) rec Hrep Hcl Hes Hb)
    as (op & outs & Er & _ & _ & _ & Ht).
  exists op, outs. split; [done|]. intros l r Hl. split; [by apply Ht|]. intros Hset.
  rewrite (join_change_ext l r (y_saved s) rec); [by apply Ht|]. intros side k b. rewrite Hhw.
  specialize (Hset side k b). destruct (Z.ltb_spec 0 (hw (y_saved s side) k b)); lia.
Qed.
End restart.

(* ------------------------------------------------------------------ *)
(** ** A concrete run *)

Import MapStore IntArrow IntJoin.

Definition join5 : StoredJoin := fresh_join 5 [0%nat] [0%nat] schema2 schema2.

Lemma cols1 : cols_ok schema2 [0%nat].
Proof. split_and!; [done|by repeat constructor|done]. Qed.

(** The rows of one epoch as a universe. *)
Section one_epoch.
Context (e : ArrowZSet * ArrowZSet).

Definition rows_in (side : JoinSide) : list StagedRow := delta_rows_of 5 [0%nat] [0%nat] side e.
Definition U_of (side : JoinSide) (k b : bytes) : Prop := exists r, r ∈ rows_in side /\ s_key r = k /\ s_bytes r = b.

Lemma U_of_ids : (forall side, one_row_per_key (rows_in side) = true) ->
  forall side k b b', U_of side k b -> U_of side k b' -> stable_row_id 5 k b = stable_row_id 5 k b' -> b = b'.
Proof.
  intros Hone side k b b' (r & Hr & <- & <-) (r' & Hr' & Hk & <-) E.
  apply (one_row_per_key_distinct _ (Hone side) r r' Hr Hr'); [done|].
  apply stage_elem in Hr as (_ & _ & _ & ->), Hr' as (_ & _ & _ & ->). by rewrite Hk.
Qed.

Lemma U_of_rows : (forall side, input_ok (side_schema schema2 schema2 side) (side_delta e side)) ->
  forall side k b, U_of side k b -> exists r, b = row_key r /\ i64_row r /\ length r = num_fields (side_schema schema2 schema2 side).
Proof.
  intros Hin side k b (r & Hr & _ & <-). apply stage_elem in Hr as (kr & Hkr & -> & _). exists (k_row kr). split; [done|].
  pose proof (keyed_rows_ok [0%nat] [0%nat] schema2 schema2 I I cols1 cols1 side _ (Hin side)) as Hall.
  rewrite Forall_forall in Hall. by apply Hall in Hkr as (_ & ? & ?).
Qed.

(** An epoch whose rows are among those of [e]. *)
Lemma U_of_known e' side : (forall r, r ∈ delta_rows_of 5 [0%nat] [0%nat] side e' -> exists r', r' ∈ rows_in side /\ s_key r' = s_key r /\ s_bytes r' = s_bytes r) ->
  known 5 U_of side (delta_rows_of 5 [0%nat] [0%nat] side e').
Proof.
  intros Hsub. apply Forall_forall. intros r Hr. split; [by apply Hsub|]. by apply stage_elem in Hr as (_ & _ & _ & ->).
Qed.
End one_epoch.

Abbreviation rows1 := (rows_in epoch1).
Abbreviation U1 := (U_of epoch1).

Lemma U1_ids side k b b' : U1 side k b -> U1 side k b' -> stable_row_id 5 k b = stable_row_id 5 k b' -> b = b'.
Proof. apply U_of_ids. by intros []; vm_compute. Qed.

Lemma U1_rows side k b : U1 side k b -> exists r, b = row_key r /\ i64_row r /\ length r = num_fields (side_schema schema2 schema2 side).
Proof. apply U_of_rows. by intros []. Qed.

Lemma epoch1_ok : epoch_ok 5 [0%nat] [0%nat] schema2 schema2 U1 epoch1.
Proof. intros side. split; [by destruct side|]. apply U_of_known. eauto. Qed.

Lemma rows1_budget : in_budget rows1.
Proof. split_and!; vm_compute; discriminate. Qed.

(** The left row (2, 20) is inserted twice and written; the restart has it once. *)
Lemma join_restart_recovers_witness :
  let k := values_bytes [Int64 2] in let b := row_key [2; 20] in
  hw (rows1 Left) k b = 2 /\
  exists op z d j rec, process_epoch (core join5) epoch1 = Done (op, Ok z) /\
    persist_state fresh_shard op = Done (set_state op (state op) ∅ ∅, d, Ok tt) /\
    restore_join d join5 = (j, Ok tt) /\ hw (rec Left) k b = 1.
Proof.
  intros k b. assert (hw (rows1 Left) k b = 2) as Hw2 by (vm_compute; reflexivity). split; [exact Hw2|].
  set (s0 := jsystem_init 5 [0%nat] [0%nat] schema2 schema2 fresh_shard).
  assert (open_shard fresh_shard) as Hopen by repeat split.
  assert (forall side key, starts_with key (join_arr_op_prefix side 5) = true -> view fresh_shard key = None) as Hempty
    by (intros side key _; exact (lookup_empty (M := gmap bytes) _)).
  assert (jinv 5 [0%nat] [0%nat] schema2 schema2 U1 s0) as Hi0 by (apply jsystem_init_inv; done).
  destruct (process_epoch_ok 5 [0%nat] [0%nat] schema2 schema2 I I cols1 cols1 U1 U1_ids U1_rows (core join5) (fun _ => []) epoch1)
    as (op & z & ps & Ep & _); [apply (ji_rep _ _ _ _ _ _ _ Hi0)|by intros []|apply epoch1_ok|apply epoch1_ok|exact rows1_budget|].
  set (s1 := {| y_join := set_core join5 op; y_hist := rows1; y_db := fresh_shard; y_saved := fun _ => [] |}).
  assert (jstep 5 [0%nat] [0%nat] schema2 schema2 U1 s0 s1) as Hs1
    by exact (Y_epoch 5 [0%nat] [0%nat] schema2 schema2 U1 s0 epoch1 op z epoch1_ok rows1_budget Ep).
  assert (jinv 5 [0%nat] [0%nat] schema2 schema2 U1 s1) as Hi1
    by exact (jstep_inv 5 [0%nat] [0%nat] schema2 schema2 I I cols1 cols1 U1 U1_ids U1_rows s0 s1 Hs1 Hi0).
  destruct (persist_ok 5 U1 U1_ids op rows1 (fun _ => []) fresh_shard) as (d & Ed & _);
    [apply (jr_config _ _ _ _ _ _ _ _ (ji_rep _ _ _ _ _ _ _ Hi1))|apply (jr_arr _ _ _ _ _ _ _ _ (ji_rep _ _ _ _ _ _ _ Hi1))
    |apply (ji_dirty _ _ _ _ _ _ _ Hi1)|apply (ji_shard _ _ _ _ _ _ _ Hi1)|done|].
  set (s2 := {| y_join := set_core join5 (set_state op (state op) ∅ ∅); y_hist := rows1; y_db := d; y_saved := rows1 |}).
  destruct (join_restart_recovers 5 [0%nat] [0%nat] schema2 schema2 I I cols1 cols1 U1 U1_ids U1_rows fresh_shard s2)
    as (j & rec & E & Hhw & _); [done|done| |].
  - eapply rtc_l; [exact Hs1|]. eapply (rtc_l _ _ s2); [|apply rtc_refl].
    exact (Y_persist 5 [0%nat] [0%nat] schema2 schema2 U1 s1 (set_state op (state op) ∅ ∅) d Ed).
  - exists op, z, d, j, rec. split_and!; [exact Ep|exact Ed|exact E|]. rewrite Hhw. change (y_saved s2 Left) with (rows1 Left).
    by rewrite Hw2.
Defined.

(* ------------------------------------------------------------------ *)
(** ** Two defects *)

(** C39: A failed write loses the rows.  The dirty rows are forgotten when they are
    appended to the batch; so when the write fails, [persist_state] reports the
    error once, and every later call reports success and writes nothing, on any
    shard. *)
Theorem failed_write_forgets_rows `{ArrowOps} `{SlateDb} (d d' : ShardDb) (op op' : JoinOp) (e : OpError) :
  persist_state d op = Done (op', d', Err e) ->
  dirty_of op Left ∪ dirty_of op Right <> ∅ /\ state op' = state op /\
  forall d2, persist_state d2 op' = Done (op', d2, Ok tt).
Proof.
  intros Hp. unfold persist_state in Hp. cbn [append_state merge_from batch_new app] in Hp.
  destruct (batch_is_empty _) eqn:Hem; [done|]. destruct (write_batch _ _) as [[d1 r]|]; [|done].
  injection Hp as <- _ Hr. split_and!; [|done|].
  - intros E. apply empty_union_L in E as [El Er]. unfold dirty_ops in Hem. rewrite El, Er in Hem. done.
  - intros d2. unfold persist_state. done.
Qed.

(** A shard that refuses writes, and an operator with a dirty row. *)
Definition failing_shard : ShardDb := set_fail_writes fresh_shard true.
Definition dirty_op : JoinOp := set_state (core join5) join_state_new {[([1], 7)]} ∅.

Lemma failed_write_forgets_rows_witness :
  exists op', persist_state failing_shard dirty_op = Done (op', failing_shard, Err OpOther) /\
    persist_state fresh_shard op' = Done (op', fresh_shard, Ok tt).
Proof.
  assert (exists op', persist_state failing_shard dirty_op = Done (op', failing_shard, Err OpOther)) as [op' E].
  { unfold persist_state, dirty_op. cbn [append_state merge_from batch_new app]. unfold dirty_ops.
    cbn [dirty_of dirty_left dirty_right set_state state]. rewrite elements_singleton, elements_empty. eexists. reflexivity. }
  exists op'. split; [exact E|]. apply (failed_write_forgets_rows failing_shard failing_shard dirty_op op' OpOther E).
Defined.

(** *** Rows that were never loaded *)

Lemma set_state_same op : set_state op (state op) (dirty_left op) (dirty_right op) = op.
Proof. by destruct op. Qed.

Section unloaded.
Context `{ArrowOps} `{!ArrowJoin} `{SlateDbLaws, !SlateDbUp}.
Context (id : Z) (U : JoinSide -> bytes -> bytes -> Prop).

Lemma scan_nothing d saved side k : open_shard d -> shard_holds id U d saved ->
  (forall k b, U side k b -> hw (saved side) k b <= 0) -> scan_prefix d (join_arr_key_prefix side id k) = Ok [].
Proof.
  intros Hd Hsh Hz. assert (ordinary (join_arr_key_prefix side id k)) as Hp by (eexists 1, _; split; [reflexivity|done]).
  destruct (scan_prefix_up d _ Hp Hd) as [l El]. destruct (scan_prefix_ok d _ l Hp (proj1 Hd) El) as [_ He].
  rewrite El. f_equal. destruct l as [|[key v] l]; [done|]. exfalso.
  destruct (proj1 (He key v)) as [Hv (rest & ->)%starts_with_spec]; [by left|].
  assert (starts_with (join_arr_key_prefix side id k ++ rest) (join_arr_op_prefix side id) = true) as Hst.
  { unfold join_arr_key_prefix, join_arr_op_prefix. apply starts_with_spec. exists (k ++ rest). by rewrite <-!app_assoc. }
  destruct (sh_keys _ _ _ _ Hsh _ _ _ Hv Hst) as (k' & b & HU & E). rewrite E, (sh_rows _ _ _ _ Hsh) in Hv by done.
  specialize (Hz k' b HU). destruct (Z.ltb_spec 0 (hw (saved side) k' b)); [lia|done].
Qed.

(** Probing a key with no stored rows changes nothing but the loaded keys. *)
Lemma ensure_nothing d j side ks : (forall k, scan_prefix d (join_arr_key_prefix side (op_id (core j)) k) = Ok []) ->
  exists j', ensure_keys d j side ks = Done (j', Ok tt) /\ core j' = core j /\
    attached j' = attached j /\ state_loaded j' = state_loaded j.
Proof.
  intros Hscan. revert j Hscan. induction ks as [|k ks IH]; intros j Hscan; [by exists j|].
  cbn [ensure_keys]. unfold ensure_arrangement_key_loaded. rewrite Hscan. cbn [load_scanned mbind outcome_bind].
  destruct (_ || _ || _); cbn [mbind outcome_bind]; [by apply IH|].
  rewrite set_state_same. destruct (IH (mark_loaded (set_core j (core j)) side k)) as (j' & E & Hc & Ha & Hl); [done|].
  exists j'. split_and!; done.
Qed.

Lemma load_keys_nothing d j side delta cols ks :
  (forall k, scan_prefix d (join_arr_key_prefix side (op_id (core j)) k) = Ok []) ->
  delta_keys (data delta) 0 (num_rows delta) cols = Done (Ok ks) ->
  exists j', load_arrangement_keys d j side delta cols = Done (j', Ok tt) /\ core j' = core j /\
    attached j' = attached j /\ state_loaded j' = state_loaded j.
Proof.
  intros Hscan Hks. unfold load_arrangement_keys. destruct (_ || _); [by exists j|].
  rewrite Hks. cbn [mbind outcome_bind]. by apply ensure_nothing.
Qed.
End unloaded.

Definition no_rows : ArrowZSet := zset2 [] [] [] 0 eq_refl.
Definition left_row (w : Z) : ArrowZSet := zset2 [1] [10] [w] 1 eq_refl.
Definition right_row (w : Z) : ArrowZSet := zset2 [1] [7] [w] 1 eq_refl.

Definition staged1 (row : list Z) (w : Z) : StagedRow :=
  let k := values_bytes [Int64 1] in
  {| s_key := k; s_row_id := stable_row_id 5 k (row_key row); s_bytes := row_key row; s_weight := w |}.

Lemma left_rows w right : rows_in (left_row w, right) Left = [staged1 [1; 10] w].
Proof. vm_compute. reflexivity. Qed.
Lemma right_rows left w : rows_in (left, right_row w) Right = [staged1 [1; 7] w].
Proof. vm_compute. reflexivity. Qed.
Lemma no_left_rows right : rows_in (no_rows, right) Left = [].
Proof. vm_compute. reflexivity. Qed.
Lemma no_right_rows left : rows_in (left, no_rows) Right = [].
Proof. vm_compute. reflexivity. Qed.

Abbreviation U2 := (U_of (left_row 1, right_row 1)).

Lemma U2_ids side k b b' : U2 side k b -> U2 side k b' -> stable_row_id 5 k b = stable_row_id 5 k b' -> b = b'.
Proof. apply U_of_ids. intros []; rewrite ?left_rows, ?right_rows; vm_compute; reflexivity. Qed.

Lemma U2_rows side k b : U2 side k b -> exists r, b = row_key r /\ i64_row r /\ length r = num_fields (side_schema schema2 schema2 side).
Proof. apply U_of_rows. by intros []. Qed.

Lemma left_epoch_ok w : epoch_ok 5 [0%nat] [0%nat] schema2 schema2 U2 (left_row w, no_rows).
Proof.
  intros side. split; [by destruct side|]. apply U_of_known. intros r Hr. fold (rows_in (left_row w, no_rows) side) in Hr.
  destruct side; [rewrite left_rows in *|rewrite no_right_rows in Hr; by apply not_elem_of_nil in Hr].
  apply list_elem_of_singleton in Hr. subst r. exists (staged1 [1; 10] 1). split; [by left|]. by split.
Qed.

Lemma right_epoch_ok w : epoch_ok 5 [0%nat] [0%nat] schema2 schema2 U2 (no_rows, right_row w).
Proof.
  intros side. split; [by destruct side|]. apply U_of_known. intros r Hr. fold (rows_in (no_rows, right_row w) side) in Hr.
  destruct side; [rewrite no_left_rows in Hr; by apply not_elem_of_nil in Hr|rewrite right_rows in *].
  apply list_elem_of_singleton in Hr. subst r. exists (staged1 [1; 7] 1). split; [by left|]. by split.
Qed.

(** One epoch on an operator whose rows are those of [U2]. *)
Lemma epoch2_ok op h e : let h' := fun side => h side ++ rows_in e side in
  join_rep 5 [0%nat] [0%nat] schema2 schema2 U2 op h -> clean op ->
  epoch_ok 5 [0%nat] [0%nat] schema2 schema2 U2 e -> in_budget h' ->
  exists op' z ps, process_epoch op e = Done (op', Ok z) /\ join_rep 5 [0%nat] [0%nat] schema2 schema2 U2 op' h' /\ clean op' /\
    (forall side, dirty_of op' side = dirty_of op side ∪ dirty_rows (rows_in e side)) /\
    rows_of z = weighted <$> ps /\ emits_change schema2 schema2 ps h h'.
Proof.
  intros h' Hrep Hcl He Hb.
  destruct (process_epoch_ok 5 [0%nat] [0%nat] schema2 schema2 I I cols1 cols1 U2 U2_ids U2_rows op h e Hrep Hcl
    (fun side => proj1 (He side)) (fun side => proj2 (He side)) Hb) as (op' & z & ps & E & Hrep' & Hcl' & Hd & _ & Hr & Hch).
  by exists op', z, ps.
Qed.

Lemma fresh_rep : join_rep 5 [0%nat] [0%nat] schema2 schema2 U2 (core join5) (fun _ => []) /\ clean (core join5).
Proof. split; [split; [done|intros []; apply arr_rep_empty|done]|by intros []]. Qed.

(** Nothing is stored under a side without positive rows. *)
Lemma storage_epoch d j e h ksl ksr :
  state_loaded j = false -> attached j = true -> op_id (core j) = 5 ->
  (forall k, scan_prefix d (join_arr_key_prefix Right 5 k) = Ok []) \/ ksl = [] ->
  (forall k, scan_prefix d (join_arr_key_prefix Left 5 k) = Ok []) \/ ksr = [] ->
  delta_keys (data e.1) 0 (num_rows e.1) (left_key_cols (core j)) = Done (Ok ksl) ->
  delta_keys (data e.2) 0 (num_rows e.2) (right_key_cols (core j)) = Done (Ok ksr) ->
  process_epoch (core j) e = h ->
  exists j', core j' = core j /\ attached j' = true /\ state_loaded j' = false /\
    process_epoch_with_storage d j e = ('(op, r) ← h; Done (set_core j' op, r)).
Proof.
  intros Hl Ha Hid HR HL Hkl Hkr Hp. unfold process_epoch_with_storage.
  assert (exists j1, load_arrangement_keys d j Right e.1 (left_key_cols (core j)) = Done (j1, Ok tt) /\ core j1 = core j /\
    attached j1 = attached j /\ state_loaded j1 = state_loaded j) as (j1 & -> & Hc1 & Ha1 & Hl1).
  { destruct HR as [HR| ->]; [eapply load_keys_nothing; [by rewrite Hid|done]|].
    exists j. unfold load_arrangement_keys. rewrite Hl, Ha, Hkl. done. }
  cbn [mbind outcome_bind]. rewrite Hc1.
  assert (exists j2, load_arrangement_keys d j1 Left e.2 (right_key_cols (core j)) = Done (j2, Ok tt) /\ core j2 = core j1 /\
    attached j2 = attached j1 /\ state_loaded j2 = state_loaded j1) as (j2 & -> & Hc2 & Ha2 & Hl2).
  { destruct HL as [HL| ->]; [eapply load_keys_nothing; [by rewrite Hc1, Hid|done]|].
    exists j1. unfold load_arrangement_keys. rewrite Hl1, Ha1, Hl, Ha, Hkr. done. }
  cbn [mbind outcome_bind]. rewrite Hc2, Hc1, Hp. exists j2. split_and!; congruence.
Qed.

Lemma row_keys w : delta_keys (data (left_row w)) 0 (num_rows (left_row w)) [0%nat] = Done (Ok [values_bytes [Int64 1]]) /\
  delta_keys (data (right_row w)) 0 (num_rows (right_row w)) [0%nat] = Done (Ok [values_bytes [Int64 1]]) /\
  delta_keys (data no_rows) 0 (num_rows no_rows) [0%nat] = Done (Ok []).
Proof. split; [reflexivity|split; reflexivity]. Qed.

Lemma U2_left k b : U2 Left k b -> k = values_bytes [Int64 1] /\ b = row_key [1; 10].
Proof. intros (r & Hr & <- & <-). rewrite left_rows in Hr. by apply list_elem_of_singleton in Hr as ->. Qed.

(** The stored row, after a first operator has inserted and written it. *)
Lemma stored_left_row : exists op z d,
  process_epoch (core join5) (left_row 1, no_rows) = Done (op, Ok z) /\
  persist_state fresh_shard op = Done (set_state op (state op) ∅ ∅, d, Ok tt) /\
  open_shard d /\ shard_holds 5 U2 d (rows_in (left_row 1, no_rows)).
Proof.
  destruct fresh_rep as [Hrep Hcl]. set (e := (left_row 1, no_rows)).
  destruct (epoch2_ok (core join5) (fun _ => []) e Hrep Hcl (left_epoch_ok 1)) as (op & z & ps & E & Hrep' & _ & Hd & _);
    [split_and!; vm_compute; discriminate|].
  destruct (persist_ok 5 U2 U2_ids op (rows_in e) (fun _ => []) fresh_shard) as (d & Ed & Ho & Hsh).
  - apply (jr_config _ _ _ _ _ _ _ _ Hrep').
  - apply (jr_arr _ _ _ _ _ _ _ _ Hrep').
  - apply (dirty_first 5 U2 (core join5) op _ _ (rows_in e)); [by intros []|exact Hd|apply (left_epoch_ok 1)|].
    intros [] k b HUb; [right|left; unfold e; rewrite no_right_rows; reflexivity]. apply U2_left in HUb as [-> ->].
    exists (staged1 [1; 10] 1). unfold e. rewrite left_rows. split; [by left|]. split; reflexivity.
  - split; [done|]. intros side key v Hv. exfalso. revert Hv. unfold view. cbn. by rewrite lookup_empty.
  - repeat split.
  - exists op, z, d. split; [exact E|]. split; [exact Ed|]. by split.
Qed.

(** The retraction by an operator that has not loaded the row: in memory its
    weight is -1, and in the shard it is gone. *)
Lemma unloaded_retraction d : open_shard d -> shard_holds 5 U2 d (rows_in (left_row 1, no_rows)) ->
  exists j z d', let h := rows_in (left_row (-1), no_rows) in
    process_epoch_with_storage d (join_set_db join5) (left_row (-1), no_rows) = Done (j, Ok z) /\
    persist_state d (core j) = Done (set_state (core j) (state (core j)) ∅ ∅, d', Ok tt) /\
    attached j = true /\ state_loaded j = false /\ open_shard d' /\ shard_holds 5 U2 d' h /\
    join_rep 5 [0%nat] [0%nat] schema2 schema2 U2 (core j) h /\ clean (core j).
Proof.
  intros Ho Hsh. destruct fresh_rep as [Hrep Hcl]. set (e := (left_row (-1), no_rows)).
  destruct (epoch2_ok (core join5) (fun _ => []) e Hrep Hcl (left_epoch_ok (-1))) as (op & z & ps & E & Hrep' & Hcl' & Hd & _);
    [split_and!; vm_compute; discriminate|].
  destruct (storage_epoch d (join_set_db join5) e (Done (op, Ok z)) [values_bytes [Int64 1]] []) as (j & _ & Ha & Hl & Ej);
    [done|done|done| |by right|apply (row_keys (-1))|apply (row_keys 0)|done|].
  { left. intros k. eapply (scan_nothing 5 U2); [done|done|]. intros k' b' _. by rewrite no_right_rows. }
  destruct (persist_ok 5 U2 U2_ids op (rows_in e) (rows_in (left_row 1, no_rows)) d) as (d' & Ed & Ho' & Hsh');
    [apply (jr_config _ _ _ _ _ _ _ _ Hrep')|apply (jr_arr _ _ _ _ _ _ _ _ Hrep')| |done|done|].
  - apply (dirty_first 5 U2 (core join5) op _ _ (rows_in e)); [by intros []|exact Hd|apply (left_epoch_ok (-1))|].
    intros [] k b HUb; [right|left; unfold e; rewrite !no_right_rows; reflexivity]. apply U2_left in HUb as [-> ->].
    exists (staged1 [1; 10] (-1)). unfold e. rewrite left_rows. split; [by left|]. split; reflexivity.
  - exists (set_core j op), z, d'. split; [exact Ej|]. split; [exact Ed|]. by repeat (split; [assumption|]).
Qed.

(** C34: An operator that is attached to a shard but not restored corrupts the
    join.  An epoch loads the stored rows that its deltas probe, not those they
    change: one operator inserts a left row and writes it; a second one, attached
    to the shard, retracts the row and writes; when a matching right row then
    arrives, the second operator emits their pair with weight -1, although the
    left input is empty and the join of all inputs has no such pair. *)
Theorem unloaded_retraction_leaves_phantom :
  exists op0 z0 d1 j1 z1 d2 j2 z2,
    process_epoch (core join5) (left_row 1, no_rows) = Done (op0, Ok z0) /\
    persist_state fresh_shard op0 = Done (set_state op0 (state op0) ∅ ∅, d1, Ok tt) /\
    process_epoch_with_storage d1 (join_set_db join5) (left_row (-1), no_rows) = Done (j1, Ok z1) /\
    persist_state d1 (core j1) = Done (set_state (core j1) (state (core j1)) ∅ ∅, d2, Ok tt) /\
    process_epoch_with_storage d2 (set_core j1 (set_state (core j1) (state (core j1)) ∅ ∅)) (no_rows, right_row 1)
      = Done (j2, Ok z2) /\
    total [z2] ([1; 10] ++ [1; 7]) = -1 /\
    join_weight (keyed_rows [0%nat] (left_row 1) ++ keyed_rows [0%nat] (left_row (-1)))
      (keyed_rows [0%nat] (right_row 1)) [1; 10] [1; 7] = 0.
Proof.
  destruct stored_left_row as (op0 & z0 & d1 & E0 & Ep0 & Ho1 & Hsh1).
  destruct (unloaded_retraction d1 Ho1 Hsh1) as (j1 & z1 & d2 & E1 & Ep1 & Ha & Hl & Ho2 & Hsh2 & Hrep & Hcl).
  set (op1 := set_state (core j1) (state (core j1)) ∅ ∅) in *. set (h := rows_in (left_row (-1), no_rows)) in *.
  assert (join_rep 5 [0%nat] [0%nat] schema2 schema2 U2 op1 h) as Hrep1 by (destruct Hrep; by split).
  destruct (epoch2_ok op1 h (no_rows, right_row 1) Hrep1) as (op2 & z2 & ps & E2 & _ & _ & _ & Hrows & Hch);
    [by intros side; specialize (Hcl side); destruct side|apply right_epoch_ok|split_and!; vm_compute; discriminate|].
  destruct (jr_config _ _ _ _ _ _ _ _ Hrep1) as (Hid & Hlk & Hrk & _).
  destruct (storage_epoch d2 (set_core j1 op1) (no_rows, right_row 1) (Done (op2, Ok z2)) [] [values_bytes [Int64 1]])
    as (j2 & _ & _ & _ & Ej); [done|done|done|by right| |cbn [core set_core]; rewrite Hlk; apply (row_keys 0)
    |cbn [core set_core]; rewrite Hrk; apply (row_keys 1)|done|].
  { left. intros k. eapply (scan_nothing 5 U2); [done|done|]. intros k' b' [-> ->]%U2_left. unfold h. rewrite left_rows. done. }
  exists op0, z0, d1, j1, z1, d2, (set_core j2 op2), z2.
  split; [exact E0|]. split; [exact Ep0|]. split; [exact E1|]. split; [exact Ep1|]. split; [exact Ej|].
  split; [|vm_compute; reflexivity]. cbn [total foldr]. rewrite Hrows, (emits_change_sum schema2 schema2 ps h _ [1; 10] [1; 7] Hch) by done.
  vm_compute. reflexivity.
Qed.
