(* ===== verification/FrontierAgg.v ===== *)
(** The control plane's frontier aggregator (rockstream-control/src/frontier.rs,
    lines 53-446 and 646-727): membership changes, admission of frontier reports
    and the cluster frontier published from them.

    A method that takes the lock and returns [Result] is a function from the
    guarded state to [result AggregatorError (Inner * _)]: every early return of
    the source comes before its first assignment, so an error leaves the state
    as it was.  The publisher lease and the durable store are in LeaseStore.v. *)
From Stdlib Require Import Ascii String.
From stdpp Require Import base tactics list gmap numbers option fin_maps relations sorting.
From Stdlib Require Import ZArith Lia ZifyBool.
From S2P Require Import Prelude Kernels Progress.
Local Open Scope Z_scope.

Definition MAX_REGISTERED_SHARDS : Z := 100000.

Inductive AggregatorError : Type :=
| RegistryFull
| LegacyReportRejected
| MembershipNotConfigured
| UnsupportedReportVersion (version : Z)
| ScopeMismatch
| GenerationMismatch (expected actual : Z)
| InactiveShard (shard_id : ShardId)
| IncarnationMismatch (shard_id : ShardId)
| ActivationNotCaughtUp (bootstrap published : Epoch)
| GenerationExhausted.

(** The publisher wiring of an aggregator; the store it points to is shared. *)
Record LeaseWiring : Type := {
  aggregator_id : Z;
  is_publisher : bool;
  lease_token : Z
}.

Record Inner : Type := {
  shard_epochs : gmap Z Z;
  published : option Epoch;
  membership : option FrontierMembership;
  membership_epochs : gmap Z (option Z);
  lease : option LeaseWiring
}.

Definition inner_new : Inner := {|
  shard_epochs := ∅; published := None; membership := None; membership_epochs := ∅; lease := None
|}.

(** [values().copied().min()] *)
Definition compute_meet (inner : Inner) : option Epoch :=
  match (map_to_list (shard_epochs inner)).*2 with
  | [] => None
  | e :: es => Some (foldl Z.min e es)
  end.

(** [try_fold] of the minimum over the remaining members' epochs. *)
Fixpoint fold_meet (minimum : Epoch) (epochs : list (option Epoch)) : option Epoch :=
  match epochs with
  | [] => Some minimum
  | epoch :: rest =>
      value ← epoch;
      fold_meet (FrontierK.fixed_membership_meet minimum value) rest
  end.

Definition meet_of (epochs : list (option Epoch)) : option Epoch :=
  match epochs with
  | [] => None
  | first :: rest => minimum ← first; fold_meet minimum rest
  end.

(** [membership_epochs.get(shard_id).copied().flatten()] *)
Definition member_epoch (inner : Inner) (shard_id : ShardId) : option Epoch :=
  mjoin (membership_epochs inner !! shard_id).

Definition compute_membership_meet (inner : Inner) : option Epoch :=
  m ← membership inner;
  if bool_decide (fm_active m = ∅) then None
  else meet_of (member_epoch inner <$> btree_keys (fm_active m)).

Definition set_published (inner : Inner) (p : option Epoch) : Inner := {|
  shard_epochs := shard_epochs inner; published := p; membership := membership inner;
  membership_epochs := membership_epochs inner; lease := lease inner
|}.

Definition recompute_membership_publication (inner : Inner) : Inner :=
  match compute_membership_meet inner with
  | None =>
      match membership inner with
      | Some m => if bool_decide (fm_active m = ∅) then set_published inner None else inner
      | None => inner
      end
  | Some meet => set_published inner (Some (FrontierK.advance_publication (published inner) meet))
  end.

Definition with_membership (m : FrontierMembership) : Inner := {|
  shard_epochs := ∅; published := None; membership := Some m;
  membership_epochs := (fun _ => None) <$> fm_active m; lease := None
|}.

(** The configuration installed by a membership change. *)
Definition set_membership (inner : Inner) (m : FrontierMembership) (epochs : gmap Z (option Z)) : Inner := {|
  shard_epochs := shard_epochs inner; published := published inner; membership := Some m;
  membership_epochs := epochs; lease := lease inner
|}.

Definition next_membership (m : FrontierMembership) (generation : Z) (active : gmap Z Z)
    : FrontierMembership :=
  {| fm_scope := fm_scope m; fm_generation := generation; fm_active := active |}.

Definition check_caught_up (published : option Epoch) (bootstrap_epoch : Epoch)
    : result AggregatorError unit :=
  match published with
  | Some p =>
      if negb (FrontierK.activation_preserves_publication (Some p) bootstrap_epoch)
      then Err (ActivationNotCaughtUp bootstrap_epoch p) else Ok tt
  | None => Ok tt
  end.

Definition activate_shard (inner : Inner) (shard_id : ShardId) (incarnation : Z) (bootstrap_epoch : Epoch)
    : result AggregatorError (Inner * Z) :=
  m ← ok_or (membership inner) MembershipNotConfigured;
  if bool_decide (is_Some (fm_active m !! shard_id)) then Err (InactiveShard shard_id)
  else
    _ ← check_caught_up (published inner) bootstrap_epoch;
    generation ← ok_or (checked_u64 (fm_generation m + 1)) GenerationExhausted;
    let next := next_membership m generation (<[shard_id := incarnation]> (fm_active m)) in
    let inner := set_membership inner next
                   (<[shard_id := Some bootstrap_epoch]> (membership_epochs inner)) in
    Ok (recompute_membership_publication inner, generation).

Definition retire_shard (inner : Inner) (shard_id : ShardId) : result AggregatorError (Inner * Z) :=
  m ← ok_or (membership inner) MembershipNotConfigured;
  if negb (bool_decide (is_Some (fm_active m !! shard_id))) then Err (InactiveShard shard_id)
  else
    generation ← ok_or (checked_u64 (fm_generation m + 1)) GenerationExhausted;
    let next := next_membership m generation (delete shard_id (fm_active m)) in
    let inner := set_membership inner next (delete shard_id (membership_epochs inner)) in
    Ok (recompute_membership_publication inner, generation).

Definition replace_shard (inner : Inner) (old_shard_id new_shard_id : ShardId)
    (new_incarnation : Z) (bootstrap_epoch : Epoch) : result AggregatorError (Inner * Z) :=
  m ← ok_or (membership inner) MembershipNotConfigured;
  if negb (bool_decide (is_Some (fm_active m !! old_shard_id)))
     || (negb (new_shard_id =? old_shard_id) && bool_decide (is_Some (fm_active m !! new_shard_id)))
  then Err (InactiveShard old_shard_id)
  else
    _ ← check_caught_up (published inner) bootstrap_epoch;
    generation ← ok_or (checked_u64 (fm_generation m + 1)) GenerationExhausted;
    let next := next_membership m generation
                  (<[new_shard_id := new_incarnation]> (delete old_shard_id (fm_active m))) in
    let inner := set_membership inner next
                   (<[new_shard_id := Some bootstrap_epoch]>
                      (delete old_shard_id (membership_epochs inner))) in
    Ok (recompute_membership_publication inner, generation).

Definition ingest_membership_report (inner : Inner) (report : MembershipFrontierReport)
    : result AggregatorError Inner :=
  m ← ok_or (membership inner) MembershipNotConfigured;
  if negb (mfr_version report =? FRONTIER_REPORT_VERSION)
  then Err (UnsupportedReportVersion (mfr_version report))
  else if negb (bool_decide (mfr_scope report = fm_scope m)) then Err ScopeMismatch
  else
    let generation_matches := mfr_generation report =? fm_generation m in
    let expected_incarnation := fm_active m !! mfr_shard_id report in
    let active := bool_decide (is_Some expected_incarnation) in
    let incarnation_matches := bool_decide (expected_incarnation = Some (mfr_incarnation report)) in
    let current_epoch := default 0 (member_epoch inner (mfr_shard_id report)) in
    match FrontierK.admit_frontier_report (mfr_version report) active generation_matches
            incarnation_matches current_epoch (mfr_epoch report) with
    | Some next_epoch =>
        Ok (recompute_membership_publication
              (set_membership inner m
                 (<[mfr_shard_id report := Some next_epoch]> (membership_epochs inner))))
    | None =>
        Err (if negb (mfr_version report =? 1) then UnsupportedReportVersion (mfr_version report)
             else if negb generation_matches
             then GenerationMismatch (fm_generation m) (mfr_generation report)
             else if negb active then InactiveShard (mfr_shard_id report)
             else IncarnationMismatch (mfr_shard_id report))
    end.

(** The compatibility path without membership.  The assertion of the source
    stands under its own condition and cannot fail. *)
Definition ingest (inner : Inner) (report : ShardFrontierReport) : result AggregatorError Inner :=
  if bool_decide (is_Some (membership inner)) then Err LegacyReportRejected
  else if bool_decide (shard_epochs inner !! sfr_shard_id report = None)
          && (MAX_REGISTERED_SHARDS <=? Z.of_nat (size (shard_epochs inner)))
  then Err RegistryFull
  else
    let entry := default 0 (shard_epochs inner !! sfr_shard_id report) in
    let entry := if entry <? sfr_epoch report then sfr_epoch report else entry in
    let inner := {| shard_epochs := <[sfr_shard_id report := entry]> (shard_epochs inner);
                    published := published inner; membership := membership inner;
                    membership_epochs := membership_epochs inner; lease := lease inner |} in
    match compute_meet inner with
    | None => Ok inner
    | Some meet =>
        match published inner with
        | None => Ok (set_published inner (Some meet))
        | Some old => if old <? meet then Ok (set_published inner (Some meet)) else Ok inner
        end
    end.

Definition cluster_frontier (inner : Inner) : ClusterFrontier := {| cf_epoch := published inner |}.

(** [FrontierFillLevel]: registered shards and capacity. *)
Definition fill_level (inner : Inner) : Z * Z :=
  (Z.of_nat (size (shard_epochs inner)), MAX_REGISTERED_SHARDS).

(* ------------------------------------------------------------------ *)
(** ** The meet *)

Lemma fold_meet_spec mn l m : fold_meet mn l = Some m <->
  Forall is_Some l /\ m <= mn /\ Forall (fun e => forall x, e = Some x -> m <= x) l /\ (m = mn \/ Some m ∈ l).
Proof.
  revert mn. induction l as [|e l IH]; intros mn; cbn [fold_meet].
  - split; [intros [= ->]|intros (_ & ? & _ & [->|Hin%not_elem_of_nil])]; try done.
    split_and!; try constructor; (lia || done).
  - rewrite !Forall_cons, elem_of_cons. destruct e as [x|]; cbn [mbind option_bind].
    2:{ split; [done|]. by intros ([[? ?] _] & _). }
    rewrite IH, FrontierK.fixed_membership_meet_min. split.
    + intros (Hs & Hle & Hall & Hor). split_and!; try done; try lia.
      * intros ? [= <-]. lia.
      * destruct Hor as [->|]; [|by auto]. destruct (Z.min_spec mn x) as [[? ->]|[? ->]]; auto.
    + intros ([_ Hs] & Hle & [Hx Hall] & Hor). specialize (Hx x eq_refl). split_and!; try done; [lia|].
      destruct Hor as [->|[[= ->]|]]; [left; lia..|by right].
Qed.

Lemma meet_of_spec l m : meet_of l = Some m <->
  Forall (fun e => exists x, e = Some x /\ m <= x) l /\ Some m ∈ l.
Proof.
  destruct l as [|e l]; cbn [meet_of].
  { split; [done|]. by intros [_ ?%not_elem_of_nil]. }
  rewrite Forall_cons, elem_of_cons. destruct e as [x|]; cbn [mbind option_bind].
  2:{ split; [done|]. by intros [[(? & ? & _) _] _]. }
  rewrite fold_meet_spec. split.
  - intros (Hs & Hle & Hall & Hor). split_and!; [by eexists| |destruct Hor as [->|]; auto].
    apply Forall_forall. intros e He. rewrite Forall_forall in Hs, Hall.
    destruct (Hs e He) as [y ->]. exists y. split; [done|]. by apply (Hall (Some y)).
  - intros ([(y & [= <-] & Hy) Hall] & Hor). split_and!.
    + eapply Forall_impl; [exact Hall|]. by intros ? (? & -> & _).
    + done.
    + eapply Forall_impl; [exact Hall|]. by intros ? (? & -> & ?) ? [= <-].
    + destruct Hor as [[= ->]|]; auto.
Qed.

(** The publication is covered: every active member has reported at least [p]. *)
Definition covers (inner : Inner) (p : Epoch) : Prop :=
  forall m k, membership inner = Some m -> is_Some (fm_active m !! k) ->
    exists e, member_epoch inner k = Some e /\ p <= e.

Lemma membership_meet_spec inner m mt : membership inner = Some m ->
  compute_membership_meet inner = Some mt <->
  covers inner mt /\ exists k, is_Some (fm_active m !! k) /\ member_epoch inner k = Some mt.
Proof.
  intros Hm. unfold compute_membership_meet. rewrite Hm. cbn [mbind option_bind].
  case_bool_decide as He.
  { split; [done|]. intros [_ (k & [? Hk] & _)]. by rewrite He, lookup_empty in Hk. }
  rewrite meet_of_spec, Forall_fmap, Forall_forall, list_elem_of_fmap. split.
  - intros [Hall (k & Hk & Hin)]. split.
    + intros m' k' [= <-]%(eq_trans (eq_sym Hm)) Hact.
      apply (Hall k'), elem_of_btree_keys, Hact.
    + exists k. split; [by apply elem_of_btree_keys|done].
  - intros [Hc (k & Hk & Hmt)]. split.
    + intros k' Hin. apply (Hc m k' Hm), elem_of_btree_keys, Hin.
    + exists k. split; [done|by apply elem_of_btree_keys].
Qed.

Lemma fold_meet_is_Some mn l : Forall is_Some l -> is_Some (fold_meet mn l).
Proof.
  intros Hl. revert mn. induction Hl as [|e l [x ->] _ IH]; intros mn; [by eexists|]. apply IH.
Qed.

(** A covered publication of a non-empty membership is at most the meet. *)
Lemma covered_meet inner m p : membership inner = Some m -> fm_active m <> ∅ -> covers inner p ->
  exists mt, compute_membership_meet inner = Some mt /\ p <= mt.
Proof.
  intros Hm Hne Hc. assert (is_Some (compute_membership_meet inner)) as [mt Hmt].
  { unfold compute_membership_meet. rewrite Hm. cbn [mbind option_bind].
    rewrite bool_decide_eq_false_2 by done.
    assert (Forall is_Some (member_epoch inner <$> btree_keys (fm_active m))) as Hall.
    { apply Forall_fmap, Forall_forall. intros k Hk%elem_of_btree_keys.
      destruct (Hc m k Hm Hk) as (e & E & _). by exists e. }
    destruct (btree_keys (fm_active m)) as [|k ks] eqn:Ek.
    - apply map_choose in Hne as (k & v & Hk). assert (k ∈ []) as []%not_elem_of_nil.
      rewrite <-Ek. apply elem_of_btree_keys. by exists v.
    - rewrite fmap_cons in *. apply Forall_cons in Hall as [[x Hx] Hall]. cbn [meet_of].
      rewrite Hx. by apply fold_meet_is_Some. }
  exists mt. split; [done|]. apply (membership_meet_spec _ _ _ Hm) in Hmt as [_ (k & Hk & E)].
  destruct (Hc m k Hm Hk) as (e & E' & Hle). by simplify_eq.
Qed.

Lemma recompute_membership inner :
  membership (recompute_membership_publication inner) = membership inner /\
  membership_epochs (recompute_membership_publication inner) = membership_epochs inner /\
  lease (recompute_membership_publication inner) = lease inner.
Proof. unfold recompute_membership_publication. repeat case_match; done. Qed.

Lemma meet_same inner inner' :
  membership inner = membership inner' -> membership_epochs inner = membership_epochs inner' ->
  compute_membership_meet inner = compute_membership_meet inner'.
Proof. intros E1 E2. unfold compute_membership_meet, member_epoch. by rewrite E1, E2. Qed.

(** Recomputing a covered publication makes it the meet, and never lowers it
    unless no member is left. *)
Lemma recompute_exact inner m :
  membership inner = Some m -> (forall p, published inner = Some p -> covers inner p) ->
  let inner' := recompute_membership_publication inner in
  published inner' = compute_membership_meet inner' /\
  forall p, published inner = Some p -> fm_active m <> ∅ ->
    exists p', published inner' = Some p' /\ p <= p'.
Proof.
  intros Hm Hc inner'. destruct (recompute_membership inner) as (Em & Ee & _).
  rewrite (meet_same inner' inner Em Ee). unfold inner', recompute_membership_publication.
  destruct (compute_membership_meet inner) as [mt|] eqn:Emt.
  - cbn [published set_published]. destruct (published inner) as [p|] eqn:Ep; [|done].
    apply (membership_meet_spec _ _ _ Hm) in Emt as [_ (k & Hk & E)].
    destruct (Hc p eq_refl m k Hm Hk) as (e & E' & Hle). simplify_eq. cbn [FrontierK.advance_publication].
    destruct (Z.ltb_spec p mt); (split; [f_equal; lia|intros ? [= <-] _; eexists; split; [done|lia]]).
  - rewrite Hm. case_bool_decide as He; [by split|]. destruct (published inner) as [p|] eqn:Ep; [|by split].
    destruct (covered_meet inner m p Hm He (Hc p eq_refl)) as (mt & E & _). congruence.
Qed.

(* ------------------------------------------------------------------ *)
(** ** Runs of the membership-aware aggregator *)

Inductive agg_step : Inner -> Inner -> Prop :=
| A_activate s k inc b s' g : activate_shard s k inc b = Ok (s', g) -> agg_step s s'
| A_retire s k s' g : retire_shard s k = Ok (s', g) -> agg_step s s'
| A_replace s k k' inc b s' g : replace_shard s k k' inc b = Ok (s', g) -> agg_step s s'
| A_report s r s' : ingest_membership_report s r = Ok s' -> agg_step s s'
| A_legacy s r s' : ingest s r = Ok s' -> agg_step s s'.

(** What a publication may be after a membership-aware step from [s]. *)
Definition advances (s s' : Inner) : Prop :=
  forall p, published s = Some p ->
    (exists p', published s' = Some p' /\ p <= p') \/
    (exists m, membership s' = Some m /\ fm_active m = ∅ /\ published s' = None).

Definition exact (s : Inner) : Prop :=
  is_Some (membership s) /\ published s = compute_membership_meet s.

Lemma exact_covers s p : exact s -> published s = Some p -> covers s p.
Proof.
  intros [[m Hm] He] Hp. rewrite He in Hp. by apply (membership_meet_spec _ _ _ Hm) in Hp as [? _].
Qed.

(** The common part of the four operations. *)
Lemma install_exact s m epochs :
  (forall p, published s = Some p -> covers (set_membership s m epochs) p) ->
  let s' := recompute_membership_publication (set_membership s m epochs) in
  exact s' /\ advances s s' /\ membership s' = Some m.
Proof.
  intros Hc s'. destruct (recompute_membership (set_membership s m epochs)) as (Em & _ & _).
  destruct (recompute_exact (set_membership s m epochs) m eq_refl Hc) as [He Hadv].
  split_and!; [split; [unfold s'; by rewrite Em|done]| |done].
  intros p Hp. destruct (decide (fm_active m = ∅)) as [Ha|Ha].
  - right. exists m. split; [done|]. split; [done|].
    change (published s') with (published (recompute_membership_publication (set_membership s m epochs))).
    unfold recompute_membership_publication, compute_membership_meet. cbn [membership set_membership].
    cbn [mbind option_bind]. by rewrite bool_decide_eq_true_2.
  - left. by apply (Hadv p).
Qed.

Lemma check_caught_up_ok p b : check_caught_up p b = Ok tt -> forall x, p = Some x -> x <= b.
Proof.
  unfold check_caught_up. destruct p as [p|]; [|done]. cbn [FrontierK.activation_preserves_publication].
  destruct (Z.leb_spec p b); [|done]. by intros _ x [= <-].
Qed.

(** Members other than the changed one keep their epoch. *)
Lemma covers_insert s m m' k b p :
  membership s = Some m -> covers s p -> p <= b ->
  (forall k', k' <> k -> is_Some (fm_active m' !! k') -> is_Some (fm_active m !! k')) ->
  forall epochs, (forall k', k' <> k -> is_Some (fm_active m' !! k') ->
                    epochs !! k' = membership_epochs s !! k') ->
  covers (set_membership s m' (<[k := Some b]> epochs)) p.
Proof.
  intros Hm Hc Hb Hsub epochs Hep m0 k0 [= <-] Hk0. unfold member_epoch. cbn [membership_epochs set_membership].
  destruct (decide (k0 = k)) as [->|Hne]; [rewrite lookup_insert_eq; by exists b|].
  rewrite lookup_insert_ne, (Hep _ Hne Hk0) by done. by apply (Hc m k0 Hm), Hsub.
Qed.

Section steps.
Context (s : Inner) (m : FrontierMembership) (Hm : membership s = Some m) (Hex : exact s).

Lemma activate_exact k inc b s' g : activate_shard s k inc b = Ok (s', g) ->
  exact s' /\ advances s s' /\ membership s' = Some (next_membership m g (<[k := inc]> (fm_active m))).
Proof.
  unfold activate_shard. rewrite Hm. cbn [ok_or mbind result_bind].
  case_bool_decide as Hk; [done|]. destruct (check_caught_up _ _) as [[]|] eqn:Ec; [|done].
  cbn [mbind result_bind]. destruct (checked _ _ _) as [g'|]; [|done]. intros [= <- <-].
  apply install_exact. intros p Hp.
  eapply covers_insert; [done|by apply exact_covers|by eapply check_caught_up_ok| |done].
  intros k' Hne Hk'. cbn [fm_active next_membership] in Hk'. by rewrite lookup_insert_ne in Hk'.
Qed.

Lemma retire_exact k s' g : retire_shard s k = Ok (s', g) ->
  exact s' /\ advances s s' /\ membership s' = Some (next_membership m g (delete k (fm_active m))).
Proof.
  unfold retire_shard. rewrite Hm. cbn [ok_or mbind result_bind].
  case_bool_decide as Hk; [|done]. cbn [negb]. destruct (checked _ _ _) as [g'|]; [|done].
  intros [= <- <-]. apply install_exact.
  intros p Hp m0 k0 [= <-] Hk0. cbn [fm_active next_membership] in Hk0.
  destruct Hk0 as [i [Hne Hi]%lookup_delete_Some].
  unfold member_epoch. cbn [membership_epochs set_membership]. rewrite lookup_delete_ne by done.
  apply (exact_covers s p Hex Hp m k0 Hm). by exists i.
Qed.

Lemma replace_exact k k' inc b s' g : replace_shard s k k' inc b = Ok (s', g) ->
  exact s' /\ advances s s' /\
  membership s' = Some (next_membership m g (<[k' := inc]> (delete k (fm_active m)))).
Proof.
  unfold replace_shard. rewrite Hm. cbn [ok_or mbind result_bind].
  destruct (_ || _); [done|]. destruct (check_caught_up _ _) as [[]|] eqn:Ec; [|done].
  cbn [mbind result_bind]. destruct (checked _ _ _) as [g'|]; [|done]. intros [= <- <-].
  apply install_exact. intros p Hp.
  eapply covers_insert; [done|by apply exact_covers|by eapply check_caught_up_ok| |];
    cbn [fm_active next_membership]; intros k0 Hne [i Hi];
    rewrite lookup_insert_ne in Hi by done; apply lookup_delete_Some in Hi as [Hk Hi]; [by exists i|].
  by rewrite lookup_delete_ne.
Qed.

(** A report is admitted exactly when it names the current version, scope,
    generation and incarnation of an active member; it then raises that
    member's epoch and nothing else. *)
Lemma report_admitted r s' : ingest_membership_report s r = Ok s' ->
  mfr_version r = FRONTIER_REPORT_VERSION /\ mfr_scope r = fm_scope m /\
  mfr_generation r = fm_generation m /\ fm_active m !! mfr_shard_id r = Some (mfr_incarnation r) /\
  s' = recompute_membership_publication (set_membership s m
         (<[mfr_shard_id r := Some (Z.max (default 0 (member_epoch s (mfr_shard_id r))) (mfr_epoch r))]>
            (membership_epochs s))).
Proof.
  unfold ingest_membership_report. rewrite Hm. cbn [ok_or mbind result_bind].
  destruct (Z.eqb_spec (mfr_version r) FRONTIER_REPORT_VERSION) as [Hv|]; [|done]. cbn [negb].
  case_bool_decide as Hs; [|done]. cbn [negb].
  destruct (FrontierK.admit_frontier_report _ _ _ _ _ _) as [e|] eqn:Ea; [|done]. intros [= <-].
  by apply FrontierK.admit_frontier_report_Some in Ea
    as (_ & _ & ?%Z.eqb_eq & ?%bool_decide_eq_true & ->).
Qed.

Lemma report_exact r s' : ingest_membership_report s r = Ok s' ->
  exact s' /\ advances s s' /\ membership s' = Some m.
Proof.
  intros (_ & _ & _ & Ha & ->)%report_admitted. apply install_exact. intros p Hp.
  eapply covers_insert; [done|by apply exact_covers| |done|done].
  destruct (exact_covers s p Hex Hp m (mfr_shard_id r) Hm) as (e & -> & Hle); [by eexists|]. cbn. lia.
Qed.
End steps.

Lemma agg_step_exact s s' : agg_step s s' -> exact s -> exact s' /\ advances s s'.
Proof.
  intros Hst Hex. pose proof Hex as [[m Hm] _].
  destruct Hst as [s k inc b s' g E|s k s' g E|s k k' inc b s' g E|s r s' E|s r s' E].
  - by destruct (activate_exact s m Hm Hex _ _ _ _ _ E) as (? & ? & _).
  - by destruct (retire_exact s m Hm Hex _ _ _ E) as (? & ? & _).
  - by destruct (replace_exact s m Hm Hex _ _ _ _ _ _ E) as (? & ? & _).
  - by destruct (report_exact s m Hm Hex _ _ E) as (? & ? & _).
  - unfold ingest in E. rewrite Hm, bool_decide_eq_true_2 in E; done.
Qed.

Lemma with_membership_exact m : exact (with_membership m).
Proof.
  split; [by exists m|]. destruct (compute_membership_meet _) as [mt|] eqn:E; [|done]. exfalso.
  apply (membership_meet_spec (with_membership m) m mt eq_refl) in E as [_ (k & Hk & E)].
  unfold member_epoch in E. cbn [membership_epochs with_membership] in E. rewrite lookup_fmap in E.
  destruct Hk as [i Hi]. by rewrite Hi in E.
Qed.

Lemma agg_steps_exact s s' : rtc agg_step s s' -> exact s -> exact s'.
Proof. induction 1 as [|s s1 s' Hst _ IH]; intros He; [done|]. by apply IH, (agg_step_exact s s1). Qed.

(** C11: The published cluster frontier is exactly the meet of the active
    members' frontiers.  From any configured membership, through any sequence
    of activations, retirements, replacements and reports: an epoch is published
    if and only if every active member has a known durable epoch and the
    published one is the least of them; a step never lowers a published epoch,
    and withdraws it only when no active member is left; and a report is
    admitted only if it carries the current version, scope, generation and the
    incarnation of an active member. *)
Theorem publication_is_meet m0 s :
  rtc agg_step (with_membership m0) s ->
  exists m, membership s = Some m /\
    (forall p, published s = Some p <->
       (forall k, is_Some (fm_active m !! k) -> exists e, member_epoch s k = Some e /\ p <= e) /\
       exists k, is_Some (fm_active m !! k) /\ member_epoch s k = Some p) /\
    (forall s' p, agg_step s s' -> published s = Some p ->
       (exists p', published s' = Some p' /\ p <= p') \/
       (exists m', membership s' = Some m' /\ fm_active m' = ∅ /\ published s' = None)) /\
    (forall r s', ingest_membership_report s r = Ok s' ->
       mfr_version r = FRONTIER_REPORT_VERSION /\ mfr_scope r = fm_scope m /\
       mfr_generation r = fm_generation m /\ fm_active m !! mfr_shard_id r = Some (mfr_incarnation r)).
Proof.
  intros Hst. apply agg_steps_exact in Hst as Hex; [|apply with_membership_exact].
  pose proof Hex as [[m Hm] He]. exists m. split_and!; [done| | |].
  - intros p. rewrite He, (membership_meet_spec s m p Hm). unfold covers. rewrite Hm. split.
    + intros [Hc Hk]. split; [|done]. intros k. by apply Hc.
    + intros [Hc Hk]. split; [|done]. intros ? k [= <-]. by apply Hc.
  - intros s' p Hs Hp. by apply (agg_step_exact s s' Hs Hex).
  - intros r s' E. by destruct (report_admitted s m Hm r s' E) as (? & ? & ? & ? & _).
Qed.

(* ------------------------------------------------------------------ *)
(** ** Concrete aggregators *)

Definition two_shards : FrontierMembership :=
  with_active (with_active (membership_new "q" 7) 1 100) 2 200.

Definition ok_state (s : Inner) (r : result AggregatorError Inner) : Inner :=
  match r with Ok s' => s' | Err _ => s end.

(** Both shards have reported, the first one at 5 and the second at 9. *)
Definition reported : Inner :=
  let s0 := with_membership two_shards in
  let s1 := ok_state s0 (ingest_membership_report s0 (membership_report_new "q" 7 1 100 3 5)) in
  ok_state s1 (ingest_membership_report s1 (membership_report_new "q" 7 2 200 4 9)).

Lemma publication_is_meet_witness :
  rtc agg_step (with_membership two_shards) reported /\
  published reported = Some 5 /\
  exists m, membership reported = Some m /\ exists e, member_epoch reported 2 = Some e /\ 5 <= e.
Proof.
  assert (rtc agg_step (with_membership two_shards) reported) as Hst.
  { eapply rtc_l; [apply (A_report _ (membership_report_new "q" 7 1 100 3 5)); reflexivity|].
    eapply rtc_l; [apply (A_report _ (membership_report_new "q" 7 2 200 4 9)); reflexivity|].
    apply rtc_refl. }
  split; [exact Hst|]. split; [reflexivity|].
  destruct (publication_is_meet two_shards reported Hst) as (m & Hm & Hp & _).
  exists m. split; [exact Hm|]. destruct (proj1 (Hp 5) eq_refl) as [Hall _]. apply Hall.
  assert (membership reported = Some two_shards) as E by reflexivity. rewrite E in Hm.
  injection Hm as <-. exists 200. reflexivity.
Defined.

(** Without membership, a shard that registers late with a low epoch is below
    the frontier already published. *)
Lemma late_shard_below_frontier :
  let s1 := ok_state inner_new (ingest inner_new {| sfr_shard_id := 1; sfr_epoch := 10 |}) in
  let s2 := ok_state s1 (ingest s1 {| sfr_shard_id := 2; sfr_epoch := 3 |}) in
  published s2 = Some 10 /\ compute_meet s2 = Some 3.
Proof. split; reflexivity. Qed.
