(* ===== verification/LeaseStore.v ===== *)
(** The durable frontier-lease store and the publisher election of the frontier
    aggregators (rockstream-control/src/frontier.rs, lines 448-644 and 735-1125).

    The store's methods run under its own lock and are functions of the store;
    the asynchronous methods [acquire_lease] and [try_publish] of an aggregator
    release the lock at every await, so they are given segment by segment
    ([Task], [run_task]) and interleaved by a step relation over all aggregators
    of a process, which can also crash and be opened again. *)
From Stdlib Require Import Ascii String.
From stdpp Require Import base tactics list gmap numbers option fin_maps relations strings.
From Stdlib Require Import ZArith Lia ZifyBool.
From S2P Require Import Prelude Progress Store ShardDb FrontierAgg.
Local Open Scope Z_scope.

Definition LEASE_KEY : bytes := str_bytes "frontier/leader".
Definition PUBLISHED_FRONTIER_KEY : bytes := str_bytes "frontier/published".

(** [Display] of a [u64]: at most twenty decimal digits. *)
Fixpoint decimal (fuel : nat) (n : Z) (acc : bytes) : bytes :=
  match fuel with
  | O => acc
  | S fuel =>
      let acc := (0x30 + n mod 10) :: acc in
      if n <? 10 then acc else decimal fuel (n / 10) acc
  end.
Definition display_u64 (n : Z) : bytes := decimal 20 n [].

(** [{byte:02x}] *)
Definition hex2 (byte : Z) : bytes := [hex_digit (byte / 16); hex_digit (byte mod 16)].

Definition published_frontier_generation_key (scope : string) (generation : Z) : bytes :=
  let scope_hex := concat (hex2 <$> str_bytes scope) in
  str_bytes "frontier/published/" ++ scope_hex ++ str_bytes "/" ++ display_u64 generation.

(** The assertions: [Panic] when they fail. *)
Definition assert_valid_publisher (token current_fence_token : Z) : outcome unit :=
  if token =? current_fence_token then Done tt else Panic.

Definition assert_flush_before_lease_handoff_read (has_published_value last_write_synced : bool)
    : outcome unit :=
  if negb has_published_value || last_write_synced then Done tt else Panic.

Section lease_store.
Context `{SlateDb}.

Inductive FrontierLeaseError : Type :=
| StaleFenceToken (provided current : Z)
| LeaseStorage (e : SlateError).

Record LeaseState : Type := {
  fence_token : Z;
  holder : option Z;
  ls_published : option Epoch;
  published_by_generation : gmap (string * Z) Z;
  last_write_synced : bool
}.

Record FrontierLeaseStore : Type := { ls_db : Db; ls_state : LeaseState }.

Definition read_lease_record (db : Db) : result FrontierLeaseError (Z * option Z) :=
  match slate_get db LEASE_KEY with
  | Err e => Err (LeaseStorage e)
  | Ok (Some bytes) =>
      if (length bytes =? 16)%nat then Ok (of_be (take 8 bytes), Some (of_be (drop 8 bytes)))
      else Ok (0, None)
  | Ok None => Ok (0, None)
  end.

Definition read_published_key (db : Db) (key : bytes) : result FrontierLeaseError (option Epoch) :=
  match slate_get db key with
  | Err e => Err (LeaseStorage e)
  | Ok (Some bytes) => if (length bytes =? 8)%nat then Ok (Some (of_be (take 8 bytes))) else Ok None
  | Ok None => Ok None
  end.

Definition read_published (db : Db) : result FrontierLeaseError (option Epoch) :=
  read_published_key db PUBLISHED_FRONTIER_KEY.

Definition store_open (db : Db) : result FrontierLeaseError FrontierLeaseStore :=
  '(fence_token, holder) ← read_lease_record db;
  published ← read_published db;
  Ok {| ls_db := db;
        ls_state := {| fence_token := fence_token; holder := holder; ls_published := published;
                       published_by_generation := ∅;
                       last_write_synced := bool_decide (is_Some published) |} |}.

Definition current_fence_token (st : FrontierLeaseStore) : Z := fence_token (ls_state st).

(** [db.write(batch)] and [db.flush()], with the error mapping of the source. *)
Definition write_and_flush (db : Db) (batch : list BatchOp) : Db * result FrontierLeaseError unit :=
  match slate_write db batch with
  | (db1, Err e) => (db1, Err (LeaseStorage e))
  | (db1, Ok _) =>
      match slate_flush db1 with
      | (db2, Err e) => (db2, Err (LeaseStorage e))
      | (db2, Ok _) => (db2, Ok tt)
      end
  end.

(** The outer [outcome] is the [expect] on the token counter. *)
Definition acquire_publisher_lease (st : FrontierLeaseStore) (aggregator_id current_token : Z)
    : outcome (FrontierLeaseStore * result FrontierLeaseError Z) :=
  let state := ls_state st in
  if negb (current_token =? fence_token state)
  then Done (st, Err (StaleFenceToken current_token (fence_token state)))
  else
    new_token ← expect (checked_u64 (fence_token state + 1));
    let record := be_bytes 8 new_token ++ be_bytes 8 aggregator_id in
    match write_and_flush (ls_db st) [Put LEASE_KEY record] with
    | (db', Err e) => Done ({| ls_db := db'; ls_state := state |}, Err e)
    | (db', Ok _) =>
        Done ({| ls_db := db';
                 ls_state := {| fence_token := new_token; holder := Some aggregator_id;
                                ls_published := ls_published state;
                                published_by_generation := published_by_generation state;
                                last_write_synced := last_write_synced state |} |}, Ok new_token)
    end.

(** The cached value a publication is compared with. *)
Definition cached_frontier (state : LeaseState) (mk : option (string * Z)) : option Epoch :=
  match mk with
  | Some mk => published_by_generation state !! mk
  | None => ls_published state
  end.

Definition set_cached (state : LeaseState) (mk : option (string * Z)) (frontier : Epoch) : LeaseState :=
  match mk with
  | Some mk => {| fence_token := fence_token state; holder := holder state;
                  ls_published := ls_published state;
                  published_by_generation := <[mk := frontier]> (published_by_generation state);
                  last_write_synced := true |}
  | None => {| fence_token := fence_token state; holder := holder state;
               ls_published := Some frontier;
               published_by_generation := published_by_generation state;
               last_write_synced := true |}
  end.

Definition publish_frontier_inner (st : FrontierLeaseStore) (token : Z) (mk : option (string * Z))
    (frontier : Epoch) (key : bytes) : outcome (FrontierLeaseStore * result FrontierLeaseError unit) :=
  let state := ls_state st in
  _ ← assert_valid_publisher token (fence_token state);
  if match cached_frontier state mk with Some current => frontier <? current | None => false end
  then Done (st, Ok tt)
  else
    match write_and_flush (ls_db st) [Put key (be_bytes 8 frontier)] with
    | (db', Err e) => Done ({| ls_db := db'; ls_state := state |}, Err e)
    | (db', Ok _) => Done ({| ls_db := db'; ls_state := set_cached state mk frontier |}, Ok tt)
    end.

Definition frontier_key_of (mk : option (string * Z)) : bytes :=
  match mk with
  | Some (scope, generation) => published_frontier_generation_key scope generation
  | None => PUBLISHED_FRONTIER_KEY
  end.

Definition publish_frontier (st : FrontierLeaseStore) (token : Z) (frontier : Epoch)
    : outcome (FrontierLeaseStore * result FrontierLeaseError unit) :=
  publish_frontier_inner st token None frontier PUBLISHED_FRONTIER_KEY.

Definition publish_frontier_for_generation (st : FrontierLeaseStore) (scope : string) (token generation : Z)
    (frontier : Epoch) : outcome (FrontierLeaseStore * result FrontierLeaseError unit) :=
  publish_frontier_inner st token (Some (scope, generation)) frontier
    (published_frontier_generation_key scope generation).

Definition read_published_frontier_after_handoff (st : FrontierLeaseStore) : outcome (option Epoch) :=
  _ ← assert_flush_before_lease_handoff_read (bool_decide (is_Some (ls_published (ls_state st))))
        (last_write_synced (ls_state st));
  Done (ls_published (ls_state st)).

Definition read_published_frontier_after_handoff_for_generation (st : FrontierLeaseStore)
    (scope : string) (generation : Z)
    : outcome (FrontierLeaseStore * result FrontierLeaseError (option Epoch)) :=
  let state := ls_state st in
  match published_by_generation state !! (scope, generation) with
  | Some frontier =>
      _ ← assert_flush_before_lease_handoff_read true (last_write_synced state);
      Done (st, Ok (Some frontier))
  | None =>
      match read_published_key (ls_db st) (published_frontier_generation_key scope generation) with
      | Err e => Done (st, Err e)
      | Ok (Some frontier) =>
          let state := set_cached state (Some (scope, generation)) frontier in
          _ ← assert_flush_before_lease_handoff_read true (last_write_synced state);
          Done ({| ls_db := ls_db st; ls_state := state |}, Ok (Some frontier))
      | Ok None =>
          _ ← assert_flush_before_lease_handoff_read false (last_write_synced state);
          Done (st, Ok None)
      end
  end.
End lease_store.

(* ------------------------------------------------------------------ *)
(** ** The aggregators' asynchronous methods *)

Section election.
Context `{SlateDb}.

(** The membership key of an aggregator's reads and publications. *)
Definition membership_key (inner : Inner) : option (string * Z) :=
  (fun m => (fm_scope m, fm_generation m)) <$> membership inner.

Definition set_lease (inner : Inner) (l : LeaseWiring) : Inner := {|
  shard_epochs := shard_epochs inner; published := published inner; membership := membership inner;
  membership_epochs := membership_epochs inner; lease := Some l
|}.

Definition demote (inner : Inner) : outcome Inner :=
  l ← expect (lease inner);
  Done (set_lease inner {| aggregator_id := aggregator_id l; is_publisher := false;
                           lease_token := lease_token l |}).

(** [if inner.published.map(|p| epoch > p).unwrap_or(true)] *)
Definition raise_published (inner : Inner) (epoch : Epoch) : Inner :=
  match published inner with
  | Some p => if p <? epoch then set_published inner (Some epoch) else inner
  | None => set_published inner (Some epoch)
  end.

(** Where a suspended call continues: the state of [acquire_lease] and
    [try_publish] at each await, and after a lost race. *)
Inductive Task : Type :=
| AcquirePeek (mk : option (string * Z))
| AcquireCas (mk : option (string * Z)) (current : Z)
| AcquireRead (mk : option (string * Z)) (token : Z)
| AcquireFinish (mk : option (string * Z)) (token : Z) (read : option Epoch)
| AcquireLost
| PublishPeek (held : Z) (mk : option (string * Z)) (meet : Epoch)
| PublishLost
| PublishWrite (held : Z) (mk : option (string * Z)) (meet : Epoch)
| PublishFinish (mk : option (string * Z)) (meet : Epoch).

Inductive Progress : Type :=
| Continue (t : Task)
| Return (r : result FrontierLeaseError bool).

(** The first segment of each method. *)
Definition acquire_lease_start (inner : Inner) : outcome Progress :=
  _ ← expect (lease inner);
  Done (Continue (AcquirePeek (membership_key inner))).

Definition current_meet (inner : Inner) : option Epoch :=
  if bool_decide (is_Some (membership inner)) then compute_membership_meet inner else compute_meet inner.

Definition try_publish_start (inner : Inner) : outcome Progress :=
  l ← expect (lease inner);
  if negb (is_publisher l) then Done (Return (Ok false))
  else
    match current_meet inner with
    | None => Done (Return (Ok false))
    | Some meet => Done (Continue (PublishPeek (lease_token l) (membership_key inner) meet))
    end.

(** The handoff read chosen by the membership. *)
Definition handoff_read (st : FrontierLeaseStore) (mk : option (string * Z))
    : outcome (FrontierLeaseStore * result FrontierLeaseError (option Epoch)) :=
  match mk with
  | Some (scope, generation) => read_published_frontier_after_handoff_for_generation st scope generation
  | None => r ← read_published_frontier_after_handoff st; Done (st, Ok r)
  end.

Definition publish_under (st : FrontierLeaseStore) (held : Z) (mk : option (string * Z)) (meet : Epoch)
    : outcome (FrontierLeaseStore * result FrontierLeaseError unit) :=
  match mk with
  | Some (scope, generation) => publish_frontier_for_generation st scope held generation meet
  | None => publish_frontier st held meet
  end.

(** The next segment of a suspended call of the aggregator with state [inner]. *)
Definition run_task (st : FrontierLeaseStore) (inner : Inner) (t : Task)
    : outcome (FrontierLeaseStore * Inner * Progress) :=
  match t with
  | AcquirePeek mk => Done (st, inner, Continue (AcquireCas mk (current_fence_token st)))
  | AcquireCas mk current =>
      l ← expect (lease inner);
      '(st, r) ← acquire_publisher_lease st (aggregator_id l) current;
      Done (st, inner, match r with
                       | Ok token => Continue (AcquireRead mk token)
                       | Err (StaleFenceToken _ _) => Continue AcquireLost
                       | Err e => Return (Err e)
                       end)
  | AcquireRead mk token =>
      '(st, r) ← handoff_read st mk;
      Done (st, inner, match r with
                       | Ok read => Continue (AcquireFinish mk token read)
                       | Err e => Return (Err e)
                       end)
  | AcquireFinish mk token read =>
      let inner := if bool_decide (membership_key inner = mk)
                   then match read with Some epoch => raise_published inner epoch | None => inner end
                   else inner in
      l ← expect (lease inner);
      Done (st, set_lease inner {| aggregator_id := aggregator_id l; is_publisher := true;
                                   lease_token := token |}, Return (Ok true))
  | AcquireLost => inner ← demote inner; Done (st, inner, Return (Ok false))
  | PublishPeek held mk meet =>
      if negb (current_fence_token st =? held) then Done (st, inner, Continue PublishLost)
      else Done (st, inner, Continue (PublishWrite held mk meet))
  | PublishLost => inner ← demote inner; Done (st, inner, Return (Ok false))
  | PublishWrite held mk meet =>
      '(st, r) ← publish_under st held mk meet;
      Done (st, inner, match r with
                       | Ok _ => Continue (PublishFinish mk meet)
                       | Err e => Return (Err e)
                       end)
  | PublishFinish mk meet =>
      let inner := if bool_decide (membership_key inner = mk) then raise_published inner meet else inner in
      Done (st, inner, Return (Ok true))
  end.

(** A call that nothing interrupts; [acquire_lease] has five segments and
    [try_publish] four. *)
Fixpoint run_call (fuel : nat) (st : FrontierLeaseStore) (inner : Inner) (p : Progress)
    : outcome (FrontierLeaseStore * Inner * option (result FrontierLeaseError bool)) :=
  match p with
  | Return r => Done (st, inner, Some r)
  | Continue t =>
      match fuel with
      | O => Done (st, inner, None)
      | S fuel => '(st, inner, p) ← run_task st inner t; run_call fuel st inner p
      end
  end.

Definition acquire_lease (st : FrontierLeaseStore) (inner : Inner)
    : outcome (FrontierLeaseStore * Inner * option (result FrontierLeaseError bool)) :=
  p ← acquire_lease_start inner; run_call 4 st inner p.

Definition try_publish (st : FrontierLeaseStore) (inner : Inner)
    : outcome (FrontierLeaseStore * Inner * option (result FrontierLeaseError bool)) :=
  p ← try_publish_start inner; run_call 3 st inner p.

(** One control-plane process: the shared store, the aggregators by id and the
    suspended calls. *)
Record Process : Type := {
  p_store : FrontierLeaseStore;
  p_aggs : gmap Z Inner;
  p_tasks : list (Z * Task)
}.

Definition add_task (i : Z) (p : Progress) (ts : list (Z * Task)) : list (Z * Task) :=
  match p with Continue t => (i, t) :: ts | Return _ => ts end.

(** An aggregator as constructed by [with_lease_store] or
    [with_membership_and_lease_store]. *)
Definition fresh_agg (i : Z) (s : Inner) : Prop :=
  lease s = Some {| aggregator_id := i; is_publisher := false; lease_token := 0 |}.

(** All epochs and the generation are [u64]. *)
Definition epochs_typed (s : Inner) : Prop :=
  map_Forall (fun _ e => in_u64 e) (shard_epochs s) /\
  map_Forall (fun _ o => forall e, o = Some e -> in_u64 e) (membership_epochs s) /\
  forall m, membership s = Some m -> in_u64 (fm_generation m).

(** What happens in a process between two restarts. *)
Inductive live_step : Process -> Process -> Prop :=
| P_local p i s s' :
    p_aggs p !! i = Some s -> agg_step s s' -> epochs_typed s' ->
    live_step p {| p_store := p_store p; p_aggs := <[i := s']> (p_aggs p); p_tasks := p_tasks p |}
| P_start p i s pr :
    p_aggs p !! i = Some s ->
    acquire_lease_start s = Done pr \/ try_publish_start s = Done pr ->
    live_step p {| p_store := p_store p; p_aggs := p_aggs p; p_tasks := add_task i pr (p_tasks p) |}
| P_run p i s t ts1 ts2 st' s' pr :
    p_aggs p !! i = Some s -> p_tasks p = ts1 ++ (i, t) :: ts2 ->
    run_task (p_store p) s t = Done (st', s', pr) ->
    live_step p {| p_store := st'; p_aggs := <[i := s']> (p_aggs p);
                   p_tasks := add_task i pr (ts1 ++ ts2) |}
| P_panic p i s t ts1 ts2 :
    p_aggs p !! i = Some s -> p_tasks p = ts1 ++ (i, t) :: ts2 ->
    run_task (p_store p) s t = Panic ->
    live_step p {| p_store := p_store p; p_aggs := p_aggs p; p_tasks := ts1 ++ ts2 |}.

(** A restart may come at any point, with the database left as it is. *)
Inductive process_step : Process -> Process -> Prop :=
| P_live p p' : live_step p p' -> process_step p p'
| P_crash p st' aggs :
    store_open (ls_db (p_store p)) = Ok st' ->
    map_Forall fresh_agg aggs -> map_Forall (fun _ s => epochs_typed s) aggs ->
    process_step p {| p_store := st'; p_aggs := aggs; p_tasks := [] |}.
End election.

(* ------------------------------------------------------------------ *)
(** ** The store on disk *)

Lemma lease_key_not_frontier mk : frontier_key_of mk <> LEASE_KEY.
Proof.
  destruct mk as [[scope generation]|]; [|by vm_compute]. intros E. apply (f_equal length) in E. revert E.
  cbn [frontier_key_of]. unfold published_frontier_generation_key. rewrite length_app.
  change (length LEASE_KEY) with 15%nat. change (length (str_bytes "frontier/published/")) with 19%nat. lia.
Qed.

Lemma generation_key_not_scalar mk : frontier_key_of (Some mk) <> PUBLISHED_FRONTIER_KEY.
Proof.
  destruct mk as [scope generation]. intros E. apply (f_equal length) in E. revert E.
  cbn [frontier_key_of]. unfold published_frontier_generation_key. rewrite length_app.
  change (length PUBLISHED_FRONTIER_KEY) with 18%nat.
  change (length (str_bytes "frontier/published/")) with 19%nat. lia.
Qed.

(** A membership key is well typed when its generation is a [u64]. *)
Definition mk_typed (mk : option (string * Z)) : Prop := forall sc g, mk = Some (sc, g) -> in_u64 g.

Definition decimal_value (a : Z) (l : bytes) : Z := foldl (fun a d => a * 10 + (d - 0x30)) a l.

Lemma decimal_value_spec fuel n acc : 0 <= n < 10 ^ Z.of_nat fuel ->
  decimal_value 0 (decimal fuel n acc) = decimal_value n acc.
Proof.
  revert n acc. induction fuel as [|fuel IH]; intros n acc Hn; [cbn in *; by replace n with 0 by lia|].
  rewrite Nat2Z.inj_succ, Z.pow_succ_r in Hn by lia. cbn [decimal].
  destruct (Z.ltb_spec n 10).
  - unfold decimal_value. cbn [foldl]. rewrite Z.mod_small by lia. f_equal. lia.
  - rewrite IH by (split; [apply Z.div_pos|apply Z.div_lt_upper_bound]; lia).
    unfold decimal_value. cbn [foldl]. f_equal. pose proof (Z.div_mod n 10). lia.
Qed.

Lemma display_u64_inj a b : in_u64 a -> in_u64 b -> display_u64 a = display_u64 b -> a = b.
Proof.
  intros Ha Hb E. apply (f_equal (decimal_value 0)) in E. unfold display_u64 in E.
  rewrite !decimal_value_spec in E by rlia. exact E.
Qed.

Lemma hex_digit_inj a b : 0 <= a < 16 -> 0 <= b < 16 -> hex_digit a = hex_digit b -> a = b.
Proof. unfold hex_digit. destruct (Z.ltb_spec a 10), (Z.ltb_spec b 10); lia. Qed.

Lemma hex_range b : byte_ok b -> 0 <= b / 16 < 16 /\ 0 <= b mod 16 < 16.
Proof.
  unfold byte_ok. intros Hb. split; [|apply Z.mod_pos_bound; lia].
  split; [apply Z.div_pos|apply Z.div_lt_upper_bound]; lia.
Qed.

Lemma str_bytes_inj s1 s2 : str_bytes s1 = str_bytes s2 -> s1 = s2.
Proof.
  unfold str_bytes. intros E.
  assert (Inj eq eq (fun c => Z.of_N (N_of_ascii c))) as Hi.
  { intros c1 c2 Ec. apply N2Z.inj in Ec. by rewrite <-(ascii_N_embedding c1), Ec, ascii_N_embedding. }
  apply (inj (fmap (fun c => Z.of_N (N_of_ascii c)))) in E.
  by rewrite <-(string_of_list_ascii_of_string s1), E, string_of_list_ascii_of_string.
Qed.

Lemma str_bytes_range s : Forall byte_ok (str_bytes s).
Proof.
  apply Forall_fmap, Forall_forall. intros c _. cbn. pose proof (N_ascii_bounded c). unfold byte_ok. lia.
Qed.

Lemma hex_bytes_inj l1 l2 : Forall byte_ok l1 -> Forall byte_ok l2 ->
  concat (hex2 <$> l1) = concat (hex2 <$> l2) -> l1 = l2.
Proof.
  intros H1. revert l2. induction H1 as [|a l1 Ha _ IH]; intros [|b l2] H2; try done.
  apply Forall_cons in H2 as [Hb H2]. rewrite !fmap_cons. cbn [concat hex2 app]. intros E.
  injection E as Ea Eb E.
  assert (a / 16 = b / 16) as Hq by (apply hex_digit_inj; [by apply hex_range..|exact Ea]).
  assert (a mod 16 = b mod 16) as Hr by (apply hex_digit_inj; [by apply hex_range..|exact Eb]).
  f_equal; [rewrite (Z.div_mod a 16), (Z.div_mod b 16) by lia; congruence|by apply IH].
Qed.

Lemma hex_bytes_no_slash l : Forall byte_ok l -> Forall (fun b => b <> 0x2F) (concat (hex2 <$> l)).
Proof.
  induction 1 as [|b l Hb _ IH]; [constructor|]. rewrite fmap_cons. cbn [concat hex2 app].
  destruct (hex_range b Hb). do 2 (apply Forall_cons; split; [unfold hex_digit; case_match; lia|]). done.
Qed.

Lemma split_at_slash (l1 l2 r1 r2 : bytes) :
  Forall (fun b => b <> 0x2F) l1 -> Forall (fun b => b <> 0x2F) l2 ->
  l1 ++ 0x2F :: r1 = l2 ++ 0x2F :: r2 -> l1 = l2 /\ r1 = r2.
Proof.
  intros H1. revert l2. induction H1 as [|a l1 Ha _ IH]; intros [|b l2] H2 E; cbn [app] in E; injection E.
  - by intros ->.
  - intros _ <-. by apply Forall_cons in H2 as [? _].
  - by intros _ ->.
  - intros E' ->. apply Forall_cons in H2 as [_ H2]. by destruct (IH l2 H2 E') as [-> ->].
Qed.

(** Different memberships and generations publish under different keys. *)
Lemma frontier_key_inj mk mk' : mk_typed mk -> mk_typed mk' ->
  frontier_key_of mk = frontier_key_of mk' -> mk = mk'.
Proof.
  intros Ht Ht'. destruct mk as [[sc g]|], mk' as [[sc' g']|]; [|..|done].
  2,3: intros E; exfalso; by (eapply generation_key_not_scalar; first [exact E|symmetry; exact E]).
  cbn [frontier_key_of]. unfold published_frontier_generation_key. intros E%app_inv_head.
  apply split_at_slash in E as [E1 E2]; [|apply hex_bytes_no_slash, str_bytes_range..].
  apply hex_bytes_inj, str_bytes_inj in E1 as ->; [|apply str_bytes_range..].
  apply display_u64_inj in E2 as ->; [done|by eapply Ht|by eapply Ht'].
Qed.

(** The values a newly opened store starts from. *)
Definition disk_fence (m : gmap bytes bytes) : Z :=
  match m !! LEASE_KEY with
  | Some b => if (length b =? 16)%nat then of_be (take 8 b) else 0
  | None => 0
  end.

Definition disk_frontier (m : gmap bytes bytes) (mk : option (string * Z)) : option Epoch :=
  b ← m !! frontier_key_of mk; if (length b =? 8)%nat then Some (of_be (take 8 b)) else None.

Lemma disk_fence_put m t a : in_u64 t -> disk_fence (<[LEASE_KEY := be_bytes 8 t ++ be_bytes 8 a]> m) = t.
Proof.
  intros Ht. unfold disk_fence. rewrite lookup_insert_eq, length_app, !length_be_bytes. cbn [Nat.eqb Nat.add].
  rewrite take_app_length' by (by rewrite length_be_bytes). apply of_be_be_bytes_id. rlia.
Qed.

Lemma disk_fence_other m k v : k <> LEASE_KEY -> disk_fence (<[k := v]> m) = disk_fence m.
Proof. intros Hk. unfold disk_fence. by rewrite lookup_insert_ne. Qed.

Lemma disk_frontier_put m mk f : in_u64 f ->
  disk_frontier (<[frontier_key_of mk := be_bytes 8 f]> m) mk = Some f.
Proof.
  intros Hf. unfold disk_frontier. rewrite lookup_insert_eq. cbn [mbind option_bind].
  rewrite length_be_bytes. cbn [Nat.eqb]. rewrite take_ge by (by rewrite length_be_bytes).
  f_equal. apply of_be_be_bytes_id. rlia.
Qed.

Lemma disk_frontier_other m mk k v : k <> frontier_key_of mk ->
  disk_frontier (<[k := v]> m) mk = disk_frontier m mk.
Proof. intros Hk. unfold disk_frontier. by rewrite lookup_insert_ne. Qed.

Section store_laws.
Context `{SlateDbLaws}.
Implicit Types st : FrontierLeaseStore.

Lemma write_and_flush_spec db k v db' r : write_and_flush db [Put k v] = (db', r) ->
  (r = Ok tt -> contents db' = <[k := v]> (contents db)) /\
  (contents db' = contents db \/ contents db' = <[k := v]> (contents db)).
Proof.
  unfold write_and_flush. destruct (slate_write db [Put k v]) as [db1 [[]|e]] eqn:Ew.
  - apply slate_write_ok in Ew; [|by repeat constructor]. cbn in Ew.
    destruct (slate_flush db1) as [db2 [[]|e]] eqn:Ef; apply slate_flush_spec in Ef;
      intros [= <- <-]; rewrite Ef, Ew; auto.
  - apply slate_write_err in Ew; [|by repeat constructor]. cbn in Ew. intros [= <- <-].
    split; [done|by destruct Ew; auto].
Qed.

(** The cached state is covered by what is on disk. *)
Definition store_ok st : Prop :=
  fence_token (ls_state st) <= disk_fence (contents (ls_db st)) /\
  (forall mk p, mk_typed mk -> cached_frontier (ls_state st) mk = Some p ->
     exists d, disk_frontier (contents (ls_db st)) mk = Some d /\ p <= d) /\
  (is_Some (ls_published (ls_state st)) \/ published_by_generation (ls_state st) <> ∅ ->
     last_write_synced (ls_state st) = true).

(** The fence and the scalar frontier of [st'] are not behind those of [st]. *)
Definition store_le st st' : Prop :=
  fence_token (ls_state st) <= fence_token (ls_state st') /\
  forall p, ls_published (ls_state st) = Some p ->
    exists p', ls_published (ls_state st') = Some p' /\ p <= p'.

(** Without a restart no cached frontier is behind, of any membership generation. *)
Definition live_le st st' : Prop :=
  fence_token (ls_state st) <= fence_token (ls_state st') /\
  forall mk p, cached_frontier (ls_state st) mk = Some p ->
    exists p', cached_frontier (ls_state st') mk = Some p' /\ p <= p'.

Lemma live_le_store st st' : live_le st st' -> store_le st st'.
Proof. intros [Hf Hp]. split; [done|]. exact (Hp None). Qed.

Lemma live_le_refl st : live_le st st.
Proof. split; [lia|]. intros mk p Hp. exists p. split; [done|lia]. Qed.

Lemma live_le_trans st1 st2 st3 : live_le st1 st2 -> live_le st2 st3 -> live_le st1 st3.
Proof.
  intros [H1 F1] [H2 F2]. split; [lia|]. intros mk p Hp. destruct (F1 mk p Hp) as (p' & Hp' & ?).
  destruct (F2 mk p' Hp') as (p'' & ? & ?). exists p''. split; [done|lia].
Qed.

Lemma store_le_refl st : store_le st st.
Proof. apply live_le_store, live_le_refl. Qed.

Lemma store_le_trans st1 st2 st3 : store_le st1 st2 -> store_le st2 st3 -> store_le st1 st3.
Proof.
  intros [H1 F1] [H2 F2]. split; [lia|]. intros p Hp. destruct (F1 p Hp) as (p' & Hp' & ?).
  destruct (F2 p' Hp') as (p'' & ? & ?). exists p''. split; [done|lia].
Qed.

Lemma read_lease_record_spec db f h : read_lease_record db = Ok (f, h) -> f = disk_fence (contents db).
Proof.
  unfold read_lease_record, disk_fence. destruct (slate_get db LEASE_KEY) as [o|] eqn:E; [|done].
  apply slate_get_spec in E as <-. destruct o; [case_match|]; by intros [= <- _].
Qed.

Lemma read_published_key_spec db mk p :
  read_published_key db (frontier_key_of mk) = Ok p -> p = disk_frontier (contents db) mk.
Proof.
  unfold read_published_key, disk_frontier. destruct (slate_get db _) as [o|] eqn:E; [|done].
  apply slate_get_spec in E as <-. destruct o; cbn [mbind option_bind]; [case_match|]; by intros [= <-].
Qed.

Lemma store_open_ok db st : store_open db = Ok st ->
  store_ok st /\ ls_db st = db /\ fence_token (ls_state st) = disk_fence (contents db) /\
  ls_published (ls_state st) = disk_frontier (contents db) None.
Proof.
  unfold store_open. destruct (read_lease_record db) as [[f h]|] eqn:E1; [|done]. cbn [mbind result_bind].
  destruct (read_published db) as [p|] eqn:E2; [|done]. intros [= <-].
  apply read_lease_record_spec in E1 as ->. apply (read_published_key_spec db None) in E2 as ->.
  split_and!; [|done..]. split_and!; cbn.
  - lia.
  - intros [mk|] p _ Hp; cbn [cached_frontier published_by_generation ls_published] in Hp;
      [by apply lookup_empty_Some in Hp|]. rewrite Hp. exists p. split; [done|lia].
  - intros [Hp|Hp]; [by apply bool_decide_eq_true_2|done].
Qed.

Lemma acquire_store st a c st' r : acquire_publisher_lease st a c = Done (st', r) -> store_ok st ->
  store_ok st' /\ live_le st st' /\
  match r with
  | Ok t => c = fence_token (ls_state st) /\ t = fence_token (ls_state st) + 1 /\
            fence_token (ls_state st') = t /\ holder (ls_state st') = Some a
  | Err _ => ls_state st' = ls_state st
  end.
Proof.
  unfold acquire_publisher_lease. intros E Hok. pose proof Hok as (Hf & Hp & Hs).
  destruct (Z.eqb_spec c (fence_token (ls_state st))) as [->|]; cbn [negb] in E.
  2:{ injection E as <- <-. split_and!; [by split_and!|apply live_le_refl|done]. }
  destruct (checked _ _ _) as [t|] eqn:Et; [|done]. cbn [expect mbind outcome_bind] in E.
  apply checked_Some in Et as [-> Ht]. destruct (write_and_flush _ _) as [db' r'] eqn:Ew.
  apply write_and_flush_spec in Ew as [Hok' Hor].
  assert (forall mk, disk_frontier (contents db') mk = disk_frontier (contents (ls_db st)) mk) as Hfr.
  { intros mk. destruct Hor as [->| ->]; [done|]. apply disk_frontier_other. intros E'. by eapply lease_key_not_frontier. }
  destruct r' as [[]|e]; injection E as <- <-; unfold store_ok, live_le; cbn; setoid_rewrite Hfr.
  - rewrite Hok', disk_fence_put by done. split_and!; try done; try lia.
    intros mk p Hp'. exists p. split; [done|lia].
  - split_and!; try done; try lia.
    + destruct Hor as [->| ->]; [done|]. rewrite disk_fence_put by done. lia.
    + intros mk p Hp'. exists p. split; [done|lia].
Qed.

Lemma cached_set_cached state mk mk' f :
  cached_frontier (set_cached state mk f) mk' =
  if bool_decide (mk' = mk) then Some f else cached_frontier state mk'.
Proof.
  destruct mk as [mk|], mk' as [mk'|]; cbn; case_bool_decide as E; simplify_eq; try done.
  - by rewrite lookup_insert_eq.
  - rewrite lookup_insert_ne; [done|congruence].
Qed.

Lemma set_cached_fence state mk f : fence_token (set_cached state mk f) = fence_token state.
Proof. by destruct mk. Qed.
Lemma set_cached_holder state mk f : holder (set_cached state mk f) = holder state.
Proof. by destruct mk. Qed.

(** The cached value only grows when a publication is accepted. *)
Lemma publish_store st held mk f st' r : in_u64 f -> mk_typed mk ->
  publish_under st held mk f = Done (st', r) -> store_ok st ->
  store_ok st' /\ live_le st st' /\ held = fence_token (ls_state st) /\
  fence_token (ls_state st') = fence_token (ls_state st) /\ holder (ls_state st') = holder (ls_state st).
Proof.
  intros Hf Hmk E (Hfe & Hp & Hs).
  assert (publish_frontier_inner st held mk f (frontier_key_of mk) = Done (st', r)) as E'
    by (by destruct mk as [[scope generation]|]).
  unfold publish_frontier_inner, assert_valid_publisher in E'.
  destruct (Z.eqb_spec held (fence_token (ls_state st))) as [->|]; [|done]. cbn [mbind outcome_bind] in E'.
  destruct (match cached_frontier _ _ with Some _ => _ | None => _ end) eqn:Hlt.
  { injection E' as <- <-. split_and!; [by split_and!|apply live_le_refl|done..]. }
  destruct (write_and_flush _ _) as [db' r'] eqn:Ew. apply write_and_flush_spec in Ew as [Hok' Hor].
  assert (disk_fence (contents db') = disk_fence (contents (ls_db st))) as Hfe'.
  { destruct Hor as [->| ->]; [done|]. apply disk_fence_other, lease_key_not_frontier. }
  assert (forall mk' p, mk_typed mk' -> cached_frontier (ls_state st) mk' = Some p ->
            exists d, disk_frontier (contents db') mk' = Some d /\ p <= d) as Hp'.
  { intros mk' p Hmk' E0. destruct (Hp mk' p Hmk' E0) as (d & Ed & Hd). destruct Hor as [->| ->]; [by exists d|].
    destruct (decide (mk = mk')) as [<-|Hne].
    - exists f. rewrite disk_frontier_put by done. split; [done|]. rewrite E0 in Hlt. lia.
    - exists d. rewrite disk_frontier_other; [done|]. intros Ek. by apply Hne, frontier_key_inj. }
  destruct r' as [[]|e]; injection E' as <- <-; unfold store_ok, live_le; cbn [ls_db ls_state].
  - rewrite set_cached_fence, set_cached_holder, Hfe'. split_and!; try done; try lia.
    + intros mk' p Hmk'. rewrite cached_set_cached. case_bool_decide as Hm; [|by apply Hp'].
      intros [= <-]. subst mk'. rewrite Hok' by done. exists f. rewrite disk_frontier_put by done. split; [done|lia].
    + intros _. by destruct mk.
    + intros mk' p E0. rewrite cached_set_cached. case_bool_decide as Hm; [|exists p; split; [done|lia]].
      subst mk'. exists f. split; [done|]. rewrite E0 in Hlt. lia.
  - rewrite Hfe'. split_and!; try done; try lia. intros mk' p E0. exists p. split; [done|lia].
Qed.

Lemma handoff_store st mk : store_ok st ->
  exists st' r, handoff_read st mk = Done (st', r) /\ store_ok st' /\ live_le st st' /\
    fence_token (ls_state st') = fence_token (ls_state st) /\ holder (ls_state st') = holder (ls_state st).
Proof.
  intros Hok. pose proof Hok as (Hfe & Hp & Hs). unfold handoff_read. destruct mk as [[scope generation]|].
  - unfold read_published_frontier_after_handoff_for_generation, assert_flush_before_lease_handoff_read.
    destruct (published_by_generation _ !! _) as [f|] eqn:Ec.
    + rewrite Hs by (right; intros E0; by rewrite E0, lookup_empty in Ec). cbn.
      eexists _, _. split_and!; [done|done|apply live_le_refl|done..].
    + destruct (read_published_key _ _) as [[f|]|e] eqn:Er; cbn [assert_flush_before_lease_handoff_read
        negb orb last_write_synced set_cached mbind outcome_bind]; eexists _, _; (split; [done|]);
        [|split_and!; [done|apply live_le_refl|done..]..].
      split_and!; [| |done..].
      2:{ split; [cbn; lia|]. intros mk' p E0.
          change (exists p', cached_frontier (set_cached (ls_state st) (Some (scope, generation)) f) mk' = Some p' /\ p <= p').
          rewrite cached_set_cached. case_bool_decide as Hm; [subst mk'; cbn in E0; congruence|exists p; split; [done|lia]]. }
      split_and!; [done| |done]. intros mk' p Hmk' E0. change (cached_frontier (set_cached (ls_state st) (Some (scope, generation)) f) mk' = Some p) in E0.
      rewrite cached_set_cached in E0. case_bool_decide as Hm; [|by apply Hp]. injection E0 as <-. subst mk'.
      apply (read_published_key_spec (ls_db st) (Some (scope, generation))) in Er. exists f. split; [done|lia].
  - unfold read_published_frontier_after_handoff, assert_flush_before_lease_handoff_read.
    assert (negb (bool_decide (is_Some (ls_published (ls_state st)))) || last_write_synced (ls_state st) = true) as ->.
    { case_bool_decide; [rewrite Hs; auto|done]. }
    cbn. eexists _, _. split_and!; [done|done|apply live_le_refl|done..].
Qed.
End store_laws.

(* ------------------------------------------------------------------ *)
(** ** Invariant of a process *)

Lemma recompute_lease s m epochs :
  lease (recompute_membership_publication (set_membership s m epochs)) = lease s.
Proof. apply (recompute_membership (set_membership s m epochs)). Qed.

(** Follow a membership operation to its successful end. *)
Ltac open_change E :=
  repeat match type of E with
         | context [match ?x with _ => _ end] => destruct x; try discriminate E
         end;
  first [injection E as <- _; apply recompute_lease | injection E as <-; reflexivity].

Lemma agg_step_lease s s' : agg_step s s' -> lease s' = lease s.
Proof.
  destruct 1 as [s k inc b s' g E|s k s' g E|s k k' inc b s' g E|s r s' E|s r s' E].
  - unfold activate_shard, ok_or, mbind, result_bind in E. open_change E.
  - unfold retire_shard, ok_or, mbind, result_bind in E. open_change E.
  - unfold replace_shard, ok_or, mbind, result_bind in E. open_change E.
  - destruct (membership s) as [m|] eqn:Hm; [|unfold ingest_membership_report in E; by rewrite Hm in E].
    destruct (report_admitted s m Hm r s' E) as (_ & _ & _ & _ & ->). apply recompute_lease.
  - unfold ingest in E. open_change E.
Qed.

Lemma foldl_min_elem l e : foldl Z.min e l ∈ e :: l.
Proof.
  revert e. induction l as [|x l IH]; intros e; cbn [foldl]; [by left|].
  specialize (IH (Z.min e x)). apply elem_of_cons in IH as [->|Hin]; [|by do 2 right].
  destruct (Z.min_spec e x) as [[_ ->]|[_ ->]]; [by left|by right; left].
Qed.

Lemma compute_meet_typed s e : epochs_typed s -> compute_meet s = Some e -> in_u64 e.
Proof.
  intros (Ht & _). unfold compute_meet. destruct (map_to_list (shard_epochs s)).*2 as [|x l] eqn:El; [done|].
  intros [= <-]. pose proof (foldl_min_elem l x) as Hin. rewrite <-El in Hin.
  apply list_elem_of_fmap in Hin as ([k v] & -> & Hin%elem_of_map_to_list). exact (Ht k v Hin).
Qed.

Lemma membership_meet_typed s e : epochs_typed s -> compute_membership_meet s = Some e -> in_u64 e.
Proof.
  intros (_ & Ht & _) E. destruct (membership s) as [m|] eqn:Hm.
  2:{ unfold compute_membership_meet in E. by rewrite Hm in E. }
  destruct (proj1 (membership_meet_spec s m e Hm) E) as [_ (k & _ & E')].
  unfold member_epoch in E'. destruct (membership_epochs s !! k) as [o|] eqn:Ek; [|done]. exact (Ht k o Ek e E').
Qed.

Lemma current_meet_typed s e : epochs_typed s -> current_meet s = Some e -> in_u64 e.
Proof.
  intros Ht. unfold current_meet. case_bool_decide; [by apply membership_meet_typed|by apply compute_meet_typed].
Qed.

(** The token a suspended call holds, and the epoch it is to publish. *)
Definition task_token (t : Task) : option Z :=
  match t with
  | AcquireRead _ token | AcquireFinish _ token _ => Some token
  | PublishPeek held _ _ | PublishWrite held _ _ => Some held
  | _ => None
  end.

Definition task_meet (t : Task) : option Epoch :=
  match t with PublishPeek _ _ meet | PublishWrite _ _ meet => Some meet | _ => None end.

Definition task_key (t : Task) : option (string * Z) :=
  match t with PublishPeek _ mk _ | PublishWrite _ mk _ => mk | _ => None end.

Lemma membership_key_typed s : epochs_typed s -> mk_typed (membership_key s).
Proof.
  intros (_ & _ & Ht) sc g E. unfold membership_key in E. destruct (membership s) as [m|]; [|done].
  injection E as _ <-. by apply Ht.
Qed.

Section process.
Context `{SlateDbLaws}.
Implicit Types p : Process.
(** Which aggregator was granted which token since the process started. *)
Implicit Types log : gmap Z Z.

Definition task_ok log (i : Z) (t : Task) : Prop :=
  (forall tok, task_token t = Some tok -> log !! tok = Some i) /\
  (forall e, task_meet t = Some e -> in_u64 e) /\ mk_typed (task_key t).

Definition agg_ok log (i : Z) (s : Inner) : Prop :=
  epochs_typed s /\
  exists l, lease s = Some l /\ aggregator_id l = i /\
    (is_publisher l = true -> log !! lease_token l = Some i).

Definition fence_ok log (st : FrontierLeaseStore) : Prop :=
  store_ok st /\
  (forall t i, log !! t = Some i -> t <= fence_token (ls_state st)) /\
  (forall i, log !! fence_token (ls_state st) = Some i -> holder (ls_state st) = Some i).

Definition process_inv log p : Prop :=
  fence_ok log (p_store p) /\
  map_Forall (agg_ok log) (p_aggs p) /\
  Forall (fun it => task_ok log it.1 it.2) (p_tasks p).

Definition progress_ok log (i : Z) (pr : Progress) : Prop :=
  match pr with Continue t => task_ok log i t | Return _ => True end.

Lemma fence_ok_same log st st' :
  store_ok st' -> fence_token (ls_state st') = fence_token (ls_state st) ->
  holder (ls_state st') = holder (ls_state st) -> fence_ok log st -> fence_ok log st'.
Proof. intros Hok Ef Eh (_ & Hle & Hh). split; [done|]. by rewrite Ef, Eh. Qed.

Lemma agg_ok_lease log i s s' :
  shard_epochs s' = shard_epochs s -> membership_epochs s' = membership_epochs s ->
  membership s' = membership s -> lease s' = lease s -> agg_ok log i s -> agg_ok log i s'.
Proof. intros E1 E2 E3 E4 [Ht Hl]. split; [by unfold epochs_typed; rewrite E1, E2, E3|by rewrite E4]. Qed.

Lemma raise_published_lease s e :
  shard_epochs (raise_published s e) = shard_epochs s /\
  membership_epochs (raise_published s e) = membership_epochs s /\
  membership (raise_published s e) = membership s /\
  lease (raise_published s e) = lease s.
Proof. unfold raise_published. by repeat case_match. Qed.

Lemma demote_ok log i s s' : demote s = Done s' -> agg_ok log i s -> agg_ok log i s'.
Proof.
  unfold demote. intros E [Ht (l & El & Hi & _)]. rewrite El in E. injection E as <-.
  split; [done|]. eexists. split_and!; [done|done|done].
Qed.

(** A grant extends the log with a token above all earlier ones. *)
Lemma grant_ok log st st' i : fence_ok log st -> store_ok st' ->
  fence_token (ls_state st') = fence_token (ls_state st) + 1 -> holder (ls_state st') = Some i ->
  let log' := <[fence_token (ls_state st') := i]> log in
  fence_ok log' st' /\ log ⊆ log' /\ log' !! fence_token (ls_state st') = Some i.
Proof.
  intros (_ & Hle & _) Hok' Ef Eh log'. split_and!.
  - split; [done|]. split.
    + intros t j [[<- _]|[_ Ht]]%lookup_insert_Some; [lia|]. specialize (Hle t j Ht). lia.
    + intros j. unfold log'. rewrite lookup_insert_eq. by intros [= <-].
  - apply insert_subseteq. destruct (log !! _) as [j|] eqn:E; [|done]. specialize (Hle _ _ E). lia.
  - apply lookup_insert_eq.
Qed.

Lemma agg_ok_mono log log' i s : log ⊆ log' -> agg_ok log i s -> agg_ok log' i s.
Proof.
  intros Hsub [Ht (l & El & Hi & Hp)]. split; [done|]. exists l. split_and!; [done|done|].
  intros Hpub. eapply lookup_weaken; [by apply Hp|done].
Qed.

Lemma task_ok_mono log log' i t : log ⊆ log' -> task_ok log i t -> task_ok log' i t.
Proof.
  intros Hsub [Ht Hm]. split; [|done]. intros tok E. eapply lookup_weaken; [by apply Ht|done].
Qed.

Definition segment_ok log log' i (st st' : FrontierLeaseStore) (s' : Inner) (pr : Progress) : Prop :=
  log ⊆ log' /\ fence_ok log' st' /\ agg_ok log' i s' /\ progress_ok log' i pr /\ live_le st st'.

(** A segment that leaves the store's lease alone keeps the log. *)
Lemma segment_same log i st s' pr :
  fence_ok log st -> agg_ok log i s' -> progress_ok log i pr ->
  exists log', segment_ok log log' i st st s' pr.
Proof. intros Hf Ha Hp. exists log. split_and!; try done. apply live_le_refl. Qed.

Lemma acquire_segment log i st s mk c st' s' pr :
  fence_ok log st -> agg_ok log i s -> run_task st s (AcquireCas mk c) = Done (st', s', pr) ->
  exists log', segment_ok log log' i st st' s' pr.
Proof.
  intros Hf Ha E. cbn [run_task] in E. pose proof Ha as [_ (l & El & Hi & _)].
  rewrite El in E. cbn [expect mbind outcome_bind] in E. rewrite Hi in E.
  destruct (acquire_publisher_lease st i c) as [[st1 r]|] eqn:Ea; [|done]. cbn [mbind outcome_bind] in E.
  injection E as <- <- <-. destruct (acquire_store _ _ _ _ _ Ea (proj1 Hf)) as (Hok & Hle & Hr).
  destruct r as [t|e].
  - destruct Hr as (_ & Et & Ef & Eh). destruct (grant_ok log st st1 i) as (Hf' & Hsub & Hlog); try done; [lia|].
    eexists. split_and!; try done; [by eapply agg_ok_mono|]. split; [|done]. intros ? [= <-]. by rewrite <-Ef.
  - exists log. split_and!; try done.
    + apply (fence_ok_same log st st1); by rewrite ?Hr.
    + by destruct e.
Qed.

Lemma lease_task_ok log i st s t st' s' pr :
  fence_ok log st -> agg_ok log i s -> task_ok log i t -> run_task st s t = Done (st', s', pr) ->
  exists log', segment_ok log log' i st st' s' pr.
Proof.
  intros Hf Ha (Ht & Hm & Hk) E. destruct t as [mk|mk c|mk tok|mk tok rd| |held mk meet| |held mk meet|mk meet];
    [| by eapply acquire_segment|..]; cbn [run_task] in E.
  - injection E as <- <- <-. by apply segment_same.
  - destruct (handoff_store st mk (proj1 Hf)) as (st1 & r & Eh & Hok & Hle & Ef & Ehd). rewrite Eh in E.
    injection E as <- <- <-. exists log. split_and!; try done; [by apply (fence_ok_same log st)|].
    destruct r; [|done]. split; [|done]. intros ? [= <-]. by apply Ht.
  - set (s1 := if bool_decide _ then _ else _) in E.
    assert (agg_ok log i s1) as Hs1.
    { unfold s1. case_bool_decide; [|done]. destruct rd as [e|]; [|done].
      destruct (raise_published_lease s e) as (E1 & E2 & E3 & E4). by eapply agg_ok_lease. }
    destruct Hs1 as [Hty (l & El & Hi & _)]. rewrite El in E. injection E as <- <- <-.
    apply segment_same; [done| |done]. split; [done|]. eexists. split_and!; [done|done|].
    intros _. by apply Ht.
  - destruct (demote s) as [s1|] eqn:Ed; [|done]. injection E as <- <- <-.
    apply segment_same; [done|by eapply demote_ok|done].
  - case_match; injection E as <- <- <-; by apply segment_same.
  - destruct (demote s) as [s1|] eqn:Ed; [|done]. injection E as <- <- <-.
    apply segment_same; [done|by eapply demote_ok|done].
  - destruct (publish_under st held mk meet) as [[st1 r]|] eqn:Ep; [|done]. cbn [mbind outcome_bind] in E.
    injection E as <- <- <-.
    destruct (publish_store st held mk meet st1 r (Hm meet eq_refl) Hk Ep (proj1 Hf)) as (Hok & Hle & _ & Ef & Ehd).
    exists log. split_and!; try done; [by apply (fence_ok_same log st)|by destruct r].
  - injection E as <- <- <-. apply segment_same; [done| |done]. case_bool_decide; [|done].
    destruct (raise_published_lease s meet) as (E1 & E2 & E3 & E4). by eapply agg_ok_lease.
Qed.

Lemma lease_start_ok log i s pr : agg_ok log i s ->
  acquire_lease_start s = Done pr \/ try_publish_start s = Done pr -> progress_ok log i pr.
Proof.
  intros [Hty (l & El & Hi & Hp)]. unfold acquire_lease_start, try_publish_start. rewrite El.
  cbn [expect mbind outcome_bind]. intros [[= <-]|E]; [done|].
  destruct (is_publisher l) eqn:Epub; [|by injection E as <-]. cbn [negb] in E.
  destruct (current_meet s) as [meet|] eqn:Em; injection E as <-; [|done].
  split_and!; [intros ? [= <-]; by apply Hp| |by apply membership_key_typed].
  intros ? [= <-]. by eapply current_meet_typed.
Qed.

Lemma add_task_ok log i pr ts : progress_ok log i pr -> Forall (fun it => task_ok log it.1 it.2) ts ->
  Forall (fun it => task_ok log it.1 it.2) (add_task i pr ts).
Proof. intros Hp Hts. destruct pr; [by constructor|done]. Qed.

Lemma live_step_inv log p p' : live_step p p' -> process_inv log p ->
  exists log', process_inv log' p' /\ live_le (p_store p) (p_store p').
Proof.
  intros Hst (Hf & Ha & Ht).
  destruct Hst as [p i s s' Hi Hs Hty|p i s pr Hi Hs|p i s t ts1 ts2 st' s' pr Hi Hts Hr|
    p i s t ts1 ts2 Hi Hts Hr].
  - exists log. split; [|apply live_le_refl]. split_and!; [done| |done].
    apply map_Forall_insert_2; [|done]. destruct (Ha i s Hi) as [_ Hl]. split; [done|].
    by rewrite (agg_step_lease s s' Hs).
  - exists log. split; [|apply live_le_refl]. split_and!; [done|done|].
    apply add_task_ok; [|done]. eapply lease_start_ok; [by apply Ha|done].
  - rewrite Hts in Ht. apply Forall_app in Ht as [Ht1 Ht2]. apply Forall_cons in Ht2 as [Hti Ht2].
    destruct (lease_task_ok log i _ s t _ _ _ Hf (Ha i s Hi) Hti Hr) as (log' & Hsub & Hf' & Ha' & Hp' & Hle).
    exists log'. split; [|done]. split_and!; [done| |].
    + apply map_Forall_insert_2; [done|]. intros j sj Hj. eapply agg_ok_mono; [done|by apply Ha].
    + apply add_task_ok; [done|]. apply Forall_app. split; (eapply Forall_impl; [eassumption|]);
        intros; by eapply task_ok_mono.
  - exists log. split; [|apply live_le_refl]. split_and!; [done|done|].
    rewrite Hts in Ht. apply Forall_app in Ht as [Ht1 Ht2]. apply Forall_cons in Ht2 as [_ Ht2].
    by apply Forall_app.
Qed.

Lemma process_step_inv log p p' : process_step p p' -> process_inv log p ->
  exists log', process_inv log' p' /\ store_le (p_store p) (p_store p').
Proof.
  intros [p1 p1' Hl|p1 st' aggs Ho Hfr Hty].
  - intros Hi. destruct (live_step_inv log _ _ Hl Hi) as (log' & ? & ?%live_le_store). by exists log'.
  - intros (Hf & Ha & Ht). destruct (store_open_ok _ _ Ho) as (Hok & Hdb & Ef & Ep). destruct Hf as ((Hfe & Hpub & _) & _).
    exists ∅. split.
    + split_and!; [|intros i s Hi|by constructor].
      * split; [done|]. by setoid_rewrite lookup_empty.
      * split; [exact (Hty i s Hi)|]. rewrite (Hfr i s Hi). eexists. by split_and!.
    + split; [cbn; by rewrite Ef|]. intros q Hq. cbn. rewrite Ep. by apply (Hpub None q).
Qed.

Lemma process_steps_inv p p' : rtc process_step p p' -> (exists log, process_inv log p) ->
  (exists log, process_inv log p') /\ store_le (p_store p) (p_store p').
Proof.
  induction 1 as [|p p1 p' Hs _ IH]; intros [log Hi]; [split; [by exists log|apply store_le_refl]|].
  destruct (process_step_inv log p p1 Hs Hi) as (log' & Hi' & Hle).
  destruct IH as [? ?]; [by exists log'|]. split; [done|]. by eapply store_le_trans.
Qed.

Lemma live_steps_inv p p' : rtc live_step p p' -> (exists log, process_inv log p) ->
  (exists log, process_inv log p') /\ live_le (p_store p) (p_store p').
Proof.
  induction 1 as [|p p1 p' Hs _ IH]; intros [log Hi]; [split; [by exists log|apply live_le_refl]|].
  destruct (live_step_inv log p p1 Hs Hi) as (log' & Hi' & Hle).
  destruct IH as [? ?]; [by exists log'|]. split; [done|]. by eapply live_le_trans.
Qed.

(** A process just started on a database. *)
Definition booted (db : Db) (p : Process) : Prop :=
  store_open db = Ok (p_store p) /\ map_Forall fresh_agg (p_aggs p) /\
  map_Forall (fun _ s => epochs_typed s) (p_aggs p) /\ p_tasks p = [].

Lemma booted_inv db p : booted db p -> process_inv ∅ p.
Proof.
  intros (Ho & Hfr & Hty & Ht). destruct (store_open_ok _ _ Ho) as (Hok & _).
  split_and!; [|intros i s Hi|by rewrite Ht].
  - split; [done|]. by setoid_rewrite lookup_empty.
  - split; [exact (Hty i s Hi)|]. rewrite (Hfr i s Hi). eexists. by split_and!.
Qed.

(** Aggregator [i] believes it is the publisher and holds the current token. *)
Definition current_publisher (p : Process) (i : Z) : Prop :=
  exists s l, p_aggs p !! i = Some s /\ lease s = Some l /\ is_publisher l = true /\
    lease_token l = current_fence_token (p_store p).

Lemma current_publisher_holder log p i : process_inv log p -> current_publisher p i ->
  log !! current_fence_token (p_store p) = Some i.
Proof.
  intros (_ & Ha & _) (s & l & Hi & El & Hp & Ht). destruct (Ha i s Hi) as [_ (l' & El' & _ & Hlog)].
  simplify_eq. rewrite <-Ht. by apply Hlog.
Qed.

(** C4: Fencing of the frontier publisher.  In any interleaving of the
    aggregators' calls, with storage errors of unknown outcome, panics and
    restarts of the process: at most one aggregator that believes itself the
    publisher holds the current token, and it is the recorded holder; a
    suspended publication goes through only if its token is still the current
    one, and then its aggregator is the recorded holder; every lease granted
    carries a token above all tokens seen before; the fence token never goes back,
    also across a restart; the frontier published without a membership generation
    never goes back, also across a restart; between two restarts the frontier of a
    membership generation, once published or read back, never goes back, and the
    database holds it or a later one; and a handoff read never trips the flush
    assertion.  Across a restart the frontier of a generation can go back
    ([restarted_generation_frontier_retreats]). *)
Theorem lease_fencing db p0 p :
  booted db p0 -> rtc process_step p0 p ->
  (forall i j, current_publisher p i -> current_publisher p j ->
     i = j /\ holder (ls_state (p_store p)) = Some i) /\
  (forall i s held mk meet st' s' pr,
     p_aggs p !! i = Some s -> (i, PublishWrite held mk meet) ∈ p_tasks p ->
     run_task (p_store p) s (PublishWrite held mk meet) = Done (st', s', pr) ->
     held = current_fence_token (p_store p) /\ holder (ls_state (p_store p)) = Some i) /\
  (forall s mk mk' c st' s' tok,
     run_task (p_store p) s (AcquireCas mk c) = Done (st', s', Continue (AcquireRead mk' tok)) ->
     current_fence_token (p_store p) < tok /\ current_fence_token st' = tok) /\
  (forall p', rtc process_step p p' ->
     current_fence_token (p_store p) <= current_fence_token (p_store p') /\
     forall e, ls_published (ls_state (p_store p)) = Some e ->
       exists e', ls_published (ls_state (p_store p')) = Some e' /\ e <= e') /\
  (forall p' mk e, rtc live_step p p' -> mk_typed mk -> cached_frontier (ls_state (p_store p)) mk = Some e ->
     exists e' d, cached_frontier (ls_state (p_store p')) mk = Some e' /\
       disk_frontier (contents (ls_db (p_store p'))) mk = Some d /\ e <= e' <= d) /\
  (forall mk, handoff_read (p_store p) mk <> Panic).
Proof.
  intros Hb Hst. destruct (process_steps_inv _ _ Hst) as [[log Hinv] _]; [exists ∅; by eapply booted_inv|].
  pose proof Hinv as ((Hok & _ & Hh) & _ & Ht). split_and!.
  - intros i j Hi Hj. apply (current_publisher_holder log) in Hi, Hj; [|done..].
    split; [congruence|by apply Hh].
  - intros i s held mk meet st' s' pr Hi Hin E. rewrite Forall_forall in Ht.
    destruct (Ht _ Hin) as (Htok & Hm & Hk). cbn [run_task] in E.
    destruct (publish_under _ _ _ _) as [[st1 r]|] eqn:Ep; [|done].
    destruct (publish_store _ _ _ _ _ _ (Hm meet eq_refl) Hk Ep Hok) as (_ & _ & -> & _).
    split; [done|]. apply Hh, (Htok _ eq_refl).
  - intros s mk mk' c st' s' tok E. cbn [run_task] in E.
    destruct (expect (lease s)) as [l|]; [|done]. cbn [mbind outcome_bind] in E.
    destruct (acquire_publisher_lease _ _ _) as [[st1 r]|] eqn:Ea; [|done].
    destruct (acquire_store _ _ _ _ _ Ea Hok) as (_ & _ & Hr).
    destruct r as [t|[]]; injection E; try done. intros <- _ _ <-. destruct Hr as (_ & Et & Ef & _).
    unfold current_fence_token. lia.
  - intros p' Hst'. by destruct (process_steps_inv _ _ Hst') as [_ [? ?]]; [exists log|].
  - intros p' mk e Hst' Hmk He.
    destruct (live_steps_inv _ _ Hst') as [[log' ((Hok' & _) & _)] [_ Hle]]; [by exists log|].
    destruct (Hle mk e He) as (e' & He' & ?). destruct Hok' as (_ & Hd & _).
    destruct (Hd mk e' Hmk He') as (d & ? & ?). by exists e', d.
  - intros mk E. destruct (handoff_store (p_store p) mk Hok) as (? & ? & E' & _). congruence.
Qed.
End process.

(* ------------------------------------------------------------------ *)
(** ** With the engine up *)

Section up.
Context `{SlateDbLaws, !SlateDbUp}.

Lemma write_and_flush_up db ops : exists db', write_and_flush db ops = (db', Ok tt).
Proof.
  unfold write_and_flush. destruct (up_write db ops) as [db1 ->].
  destruct (up_flush db1) as [db2 ->]. by exists db2.
Qed.

Lemma acquire_up st a : 0 <= current_fence_token st < u64_max ->
  exists st', acquire_publisher_lease st a (current_fence_token st) = Done (st', Ok (current_fence_token st + 1)).
Proof.
  intros Hf. unfold acquire_publisher_lease, current_fence_token in *. rewrite Z.eqb_refl. cbn [negb].
  rewrite checked_in by lia. cbn [expect mbind outcome_bind].
  destruct (write_and_flush_up (ls_db st) [Put LEASE_KEY
    (be_bytes 8 (fence_token (ls_state st) + 1) ++ be_bytes 8 a)]) as [db' ->]. by eexists.
Qed.

Lemma read_key_up db k : exists o, read_published_key db k = Ok o.
Proof.
  unfold read_published_key. destruct (up_get db k) as [[b|] ->]; [case_match|]; by eexists.
Qed.

Lemma handoff_up st mk st' r : handoff_read st mk = Done (st', r) -> exists o, r = Ok o.
Proof.
  unfold handoff_read. destruct mk as [[scope g]|].
  - unfold read_published_frontier_after_handoff_for_generation.
    destruct (published_by_generation _ !! _).
    { destruct (assert_flush_before_lease_handoff_read _ _); [|done]. intros [= _ <-]. by eexists. }
    destruct (read_key_up (ls_db st) (published_frontier_generation_key scope g)) as [[v|] ->];
      (destruct (assert_flush_before_lease_handoff_read _ _); [|done]); intros [= _ <-]; by eexists.
  - destruct (read_published_frontier_after_handoff st); [|done]. intros [= _ <-]. by eexists.
Qed.

Lemma acquire_lease_up st s l : store_ok st -> lease s = Some l -> 0 <= current_fence_token st < u64_max ->
  exists st' s', acquire_lease st s = Done (st', s', Some (Ok true)) /\ store_ok st' /\
    lease s' = Some {| aggregator_id := aggregator_id l; is_publisher := true;
                       lease_token := current_fence_token st' |}.
Proof.
  intros Hok El Hf. unfold acquire_lease, acquire_lease_start. rewrite El.
  cbn [expect mbind outcome_bind run_call run_task]. rewrite El. cbn [expect mbind outcome_bind].
  destruct (acquire_up st (aggregator_id l) Hf) as [st1 Ea]. rewrite Ea. cbn [mbind outcome_bind run_call run_task].
  destruct (acquire_store _ _ _ _ _ Ea Hok) as (Hok1 & _ & _ & _ & Ef1 & _).
  destruct (handoff_store st1 (membership_key s) Hok1) as (st2 & r & Eh & Hok2 & _ & Ef2 & _). rewrite Eh.
  destruct (handoff_up _ _ _ _ Eh) as [o ->]. cbn [mbind outcome_bind run_call run_task].
  rewrite bool_decide_eq_true_2 by done.
  set (s1 := match o with Some _ => _ | None => _ end).
  assert (lease s1 = Some l) as ->
    by (unfold s1; destruct o as [e|]; [by rewrite (proj2 (proj2 (proj2 (raise_published_lease s e))))|done]).
  cbn [expect mbind outcome_bind]. eexists _, _. split_and!; [done|done|].
  unfold current_fence_token in *. cbn. by rewrite Ef2, Ef1.
Qed.

Lemma raise_published_ge s e : exists p, published (raise_published s e) = Some p /\ e <= p.
Proof.
  unfold raise_published. destruct (published s) as [p|] eqn:E; [|exists e; split; [done|lia]].
  destruct (Z.ltb_spec p e); [exists e; split; [done|lia]|by exists p].
Qed.

Lemma publish_up st mk e : in_u64 e -> mk_typed mk -> store_ok st ->
  exists st', publish_under st (current_fence_token st) mk e = Done (st', Ok tt) /\
    exists d, disk_frontier (contents (ls_db st')) mk = Some d /\ e <= d.
Proof.
  intros He Hmk (_ & Hc & _).
  assert (publish_under st (current_fence_token st) mk e =
    publish_frontier_inner st (current_fence_token st) mk e (frontier_key_of mk)) as ->
    by (by destruct mk as [[scope g]|]).
  unfold publish_frontier_inner, assert_valid_publisher, current_fence_token. rewrite Z.eqb_refl.
  cbn [mbind outcome_bind]. destruct (write_and_flush_up (ls_db st) [Put (frontier_key_of mk) (be_bytes 8 e)]) as [db' Ew].
  rewrite Ew. apply write_and_flush_spec in Ew as [Ew _]. specialize (Ew eq_refl).
  destruct (cached_frontier (ls_state st) mk) as [c|] eqn:Ec.
  - destruct (Z.ltb_spec e c); eexists; (split; [done|]).
    + destruct (Hc mk c Hmk Ec) as (d & Ed & Hd). exists d. split; [done|lia].
    + cbn. rewrite Ew, disk_frontier_put by done. exists e. split; [done|lia].
  - eexists. split; [done|]. cbn. rewrite Ew, disk_frontier_put by done. exists e. split; [done|lia].
Qed.

(** C29: An uncontended election makes progress.  From every reachable state of
    a process whose storage engine is up, a call of [acquire_lease] by any of
    its aggregators that is not interleaved with another one returns true and
    leaves it the publisher under the current token; and from then on, as long
    as it keeps its lease, a call of [try_publish] with a meet to publish
    returns true after the database holds a frontier at least as high under the
    key of its membership, and the aggregator has published it locally. *)
Theorem uncontended_publication_succeeds db p0 p i s :
  booted db p0 -> rtc process_step p0 p -> p_aggs p !! i = Some s ->
  0 <= current_fence_token (p_store p) < u64_max ->
  exists st1 s1, acquire_lease (p_store p) s = Done (st1, s1, Some (Ok true)) /\
    (exists l, lease s1 = Some l /\ is_publisher l = true /\ lease_token l = current_fence_token st1) /\
    forall s2 e, lease s2 = lease s1 -> epochs_typed s2 -> current_meet s2 = Some e ->
      exists st2 s3, try_publish st1 s2 = Done (st2, s3, Some (Ok true)) /\
        (exists d, disk_frontier (contents (ls_db st2)) (membership_key s2) = Some d /\ e <= d) /\
        (exists p, published s3 = Some p /\ e <= p).
Proof.
  intros Hb Hst Hi Hf. destruct (process_steps_inv _ _ Hst) as [[log Hinv] _]; [exists ∅; by eapply booted_inv|].
  destruct Hinv as ((Hok & _) & Ha & _). destruct (Ha i s Hi) as [_ (l & El & _)].
  destruct (acquire_lease_up (p_store p) s l Hok El Hf) as (st1 & s1 & E1 & Hok1 & El1).
  exists st1, s1. split; [done|]. split; [eexists; split_and!; [exact El1|done..]|].
  intros s2 e El2 Hty Hm. unfold try_publish, try_publish_start. rewrite El2, El1.
  cbn [expect mbind outcome_bind is_publisher negb]. rewrite Hm.
  cbn [run_call run_task mbind outcome_bind lease_token]. rewrite Z.eqb_refl.
  cbn [negb mbind outcome_bind run_call run_task].
  destruct (publish_up st1 (membership_key s2) e) as (st2 & Ep & Hd); [by eapply current_meet_typed|
    by apply membership_key_typed|done|]. rewrite Ep.
  cbn [mbind outcome_bind run_call run_task]. rewrite bool_decide_eq_true_2 by done.
  eexists _, _. split; [done|]. split; [done|]. apply raise_published_ge.
Qed.

(** A frontier published for a membership generation can go back after a
    restart.  A store opened on any database, whatever frontier the database
    holds for a generation, accepts as the first publication for that
    generation any epoch, and the database then holds that epoch: the values of
    earlier runs are not read back before they are overwritten. *)
Theorem restarted_generation_frontier_retreats db st scope g e :
  store_open db = Ok st -> in_u64 e ->
  exists st', publish_frontier_for_generation st scope (current_fence_token st) g e = Done (st', Ok tt) /\
    disk_frontier (contents (ls_db st')) (Some (scope, g)) = Some e.
Proof.
  intros Ho He. unfold publish_frontier_for_generation, publish_frontier_inner, assert_valid_publisher.
  unfold current_fence_token. rewrite Z.eqb_refl. cbn [mbind outcome_bind cached_frontier].
  assert (published_by_generation (ls_state st) = ∅) as ->.
  { unfold store_open in Ho. destruct (read_lease_record db) as [[f h]|]; [|done]. cbn [mbind result_bind] in Ho.
    destruct (read_published db) as [o|]; [|done]. by injection Ho as <-. }
  rewrite lookup_empty. destruct (write_and_flush_up (ls_db st)
    [Put (published_frontier_generation_key scope g) (be_bytes 8 e)]) as [db' Ew]. rewrite Ew.
  apply write_and_flush_spec in Ew as [Ew _]. eexists. split; [done|]. cbn [ls_db]. rewrite Ew by done.
  by apply (disk_frontier_put (contents (ls_db st)) (Some (scope, g))).
Qed.
End up.

(* ------------------------------------------------------------------ *)
(** ** A concrete process *)

Import MapStore.

Definition store0 : FrontierLeaseStore := {|
  ls_db := (∅ : gmap bytes bytes);
  ls_state := {| fence_token := 0; holder := None; ls_published := None; published_by_generation := ∅;
                 last_write_synced := false |}
|}.

(** An aggregator that has already seen one shard at epoch 5. *)
Definition agg0 (i : Z) : Inner := {|
  shard_epochs := {[ 1 := 5 ]}; published := Some 5; membership := None; membership_epochs := ∅;
  lease := Some {| aggregator_id := i; is_publisher := false; lease_token := 0 |}
|}.

Definition process0 : Process :=
  {| p_store := store0; p_aggs := <[1 := agg0 1]> (<[2 := agg0 2]> ∅); p_tasks := [] |}.

Lemma agg0_typed i : epochs_typed (agg0 i).
Proof.
  split; [|split; [|discriminate]].
  - apply map_Forall_singleton. split; unfold u64_max; lia.
  - apply map_Forall_empty.
Qed.

Lemma process0_booted : booted (ls_db store0) process0.
Proof.
  split; [reflexivity|]. split; [|split; [|reflexivity]].
  - apply map_Forall_insert_2; [reflexivity|]. apply map_Forall_insert_2; [reflexivity|]. apply map_Forall_empty.
  - apply map_Forall_insert_2; [apply agg0_typed|]. apply map_Forall_insert_2; [apply agg0_typed|].
    apply map_Forall_empty.
Qed.

(** Aggregator 1 runs an election to its end, segment by segment. *)
Definition after_run (p : Process) (t : Task) : Process :=
  match p_aggs p !! 1 with
  | Some s =>
      match run_task (p_store p) s t with
      | Done (st', s', pr) => {| p_store := st'; p_aggs := <[1 := s']> (p_aggs p); p_tasks := add_task 1 pr [] |}
      | Panic => p
      end
  | None => p
  end.

Definition elected : Process :=
  let p1 := {| p_store := store0; p_aggs := p_aggs process0; p_tasks := [(1, AcquirePeek None)] |} in
  let p2 := after_run p1 (AcquirePeek None) in
  let p3 := after_run p2 (AcquireCas None 0) in
  let p4 := after_run p3 (AcquireRead None 1) in
  after_run p4 (AcquireFinish None 1 None).

Lemma elected_reachable : rtc process_step process0 elected.
Proof.
  eapply rtc_l; [apply P_live, (P_start process0 1 (agg0 1) (Continue (AcquirePeek None)));
    [reflexivity|left; reflexivity]|].
  do 4 (eapply rtc_l; [apply P_live; eapply (P_run _ 1 _ _ [] []); reflexivity|]). apply rtc_refl.
Qed.

Lemma lease_fencing_witness :
  current_publisher elected 1 /\ holder (ls_state (p_store elected)) = Some 1.
Proof.
  assert (current_publisher elected 1) as Hc.
  { eexists _, _. split; [reflexivity|]. split; [reflexivity|]. split; reflexivity. }
  split; [exact Hc|].
  destruct (lease_fencing (ls_db store0) process0 elected process0_booted elected_reachable) as (Hone & _).
  exact (proj2 (Hone 1 1 Hc Hc)).
Defined.

Lemma uncontended_publication_succeeds_witness :
  exists st1 s1, acquire_lease store0 (agg0 1) = Done (st1, s1, Some (Ok true)) /\
    exists st2 s3, try_publish st1 s1 = Done (st2, s3, Some (Ok true)) /\
      exists d, disk_frontier (contents (ls_db st2)) None = Some d /\ 5 <= d.
Proof.
  destruct (uncontended_publication_succeeds (ls_db store0) process0 process0 1 (agg0 1) process0_booted
    (rtc_refl _ _)) as (st1 & s1 & E & _ & Hpub); [reflexivity|split; reflexivity|].
  exists st1, s1. split; [exact E|].
  assert (s1 = set_lease (agg0 1) {| aggregator_id := 1; is_publisher := true; lease_token := 1 |}) as Es
    by (injection E; intros <- _; reflexivity).
  destruct (Hpub s1 5 eq_refl) as (st2 & s3 & E2 & Hd & _); [subst s1; apply agg0_typed|subst s1; reflexivity|].
  exists st2, s3. split; [exact E2|]. subst s1. exact Hd.
Defined.

Definition db10 : @Db map_store :=
  (<[published_frontier_generation_key "q" 2 := be_bytes 8 10]> ∅ : gmap bytes bytes).

Lemma restarted_generation_frontier_retreats_witness :
  disk_frontier (contents db10) (Some ("q"%string, 2)) = Some 10 /\
  exists st st', store_open db10 = Ok st /\
    publish_frontier_for_generation st "q" (current_fence_token st) 2 3 = Done (st', Ok tt) /\
    disk_frontier (contents (ls_db st')) (Some ("q"%string, 2)) = Some 3.
Proof.
  split; [vm_compute; reflexivity|].
  destruct (store_open db10) as [st|] eqn:E; [|discriminate E].
  destruct (restarted_generation_frontier_retreats db10 st "q" 2 3 E) as (st' & E1 & E2); [split; reflexivity || discriminate|].
  exists st, st'. split; [reflexivity|]. split; [exact E1|exact E2].
Defined.
