(* ===== verification/PhysicalCommit.v ===== *)
(** The physical commit driver (rockstream-ops/src/group_commit/physical.rs):
    epochs are staged under admission bounds, taken into one flight at a time,
    written and flushed with bounded retries, and acknowledged.

    The guarded [State] and the flight owned by the driver are records; a method
    that locks the state is a function on it, an [expect] or [assert!] is a
    [Panic].  Waiting callers hold reply slots: a reply is an output.  Durability
    of the committed epochs and the shutdown loop are in CommitDurability.v. *)
From stdpp Require Import base tactics list gmap numbers option fin_maps relations sorting.
From Stdlib Require Import ZArith Lia ZifyBool.
From S2P Require Import Prelude Kernels Progress Keys Store ShardDb.
Local Open Scope Z_scope.

Definition PHYSICAL_COMMIT_GROUP_MAX_EPOCHS : Z := 64.
Definition MAX_GROUP_COMMIT_PENDING_BYTES : Z := 8 * 1024 * 1024.
Definition MAX_GROUP_COMMIT_WAITERS : Z := 1024.
Definition DEFAULT_GROUP_COMMIT_MAX_DELAY_MS : Z := 10.
Definition MAX_GROUP_COMMIT_RETRY_COUNT : nat := 3.
Definition MAX_GROUP_COMMIT_OPERATIONS : Z := 131072.

Section physical.
Context `{SlateDb}.

(** [waiter] says whether the entry still holds a reply slot; instants are
    milliseconds. *)
Record Entry : Type := {
  batch : list BatchOp;
  e_bytes : Z;
  operations : Z;
  staged_at : Z;
  waiter : bool
}.

(** [requests] holds the ids of the flush requests with an open reply slot. *)
Record State : Type := {
  pending : gmap Z Entry;
  uncertain : gmap Z Entry;
  requests : gset Z;
  next_request : Z;
  retained_bytes : Z;
  retained_epochs : Z;
  retained_operations : Z;
  last_committed : option Epoch;
  sealed_epoch : option Epoch;
  in_flight : bool;
  force_flush : bool;
  retry_required : bool;
  write_outcome_unknown : bool;
  closing : bool
}.

Record Config : Type := { max_delay : Z; max_bytes : Z; max_epochs : Z }.

Definition default_config : Config := {|
  max_delay := DEFAULT_GROUP_COMMIT_MAX_DELAY_MS;
  max_bytes := MAX_GROUP_COMMIT_PENDING_BYTES;
  max_epochs := PHYSICAL_COMMIT_GROUP_MAX_EPOCHS
|}.

Record Flight : Type := { f_entries : gmap Z Entry; f_requests : list Z; f_source : Z }.

(** The messages sent to callers. *)
Inductive Diagnostic : Type :=
| DriverStopped
| WriteTimedOut
| WriteError (e : StorageError)
| FlushTimedOut
| FlushError (e : StorageError)
| NoAttempt
| OutcomeUnknown.

Inductive Reply : Type :=
| EpochReply (epoch : Epoch) (r : result Diagnostic unit)
| FlushReply (id : Z) (r : result Diagnostic (list Epoch)).

Inductive CommitError : Type :=
| AdmissionStopped
| EpochNotNewer (epoch : Epoch) (sealed : option Epoch)
| CapacityBytes (current limit : Z)
| CapacityEpochs (current limit : Z)
| CapacityOperations (current limit : Z)
| CapacityWaiters (current limit : Z)
| RequestsExhausted
| FrontierMalformed
| FrontierTimedOut
| FrontierStorage (e : StorageError).

(** A state without work whose committed and sealed epochs are [frontier];
    [State::default()] has none. *)
Definition state_recovered (frontier : option Epoch) : State := {|
  pending := ∅; uncertain := ∅; requests := ∅; next_request := 0; retained_bytes := 0;
  retained_epochs := 0; retained_operations := 0; last_committed := frontier; sealed_epoch := frontier;
  in_flight := false; force_flush := false; retry_required := false;
  write_outcome_unknown := false; closing := false
|}.
Definition state_default : State := state_recovered None.

(** [open]: the persisted frontier is recovered before work is admitted. *)
Definition group_open (d : ShardDb) (timed_out : bool) : outcome (ShardDb * result CommitError State) :=
  if timed_out then Done (d, Err FrontierTimedOut)
  else
    '(d, r) ← get d frontier_key;
    Done (d, match r with
             | Err e => Err (FrontierStorage e)
             | Ok None => Ok state_default
             | Ok (Some value) =>
                 if (length value =? 8)%nat then Ok (state_recovered (Some (of_be value)))
                 else Err FrontierMalformed
             end).

(** [WaiterSlot::acquire]; the exchange loop ends with the counter it last read. *)
Definition waiter_acquire (active : Z) : result CommitError Z :=
  if MAX_GROUP_COMMIT_WAITERS <=? active then Err (CapacityWaiters active MAX_GROUP_COMMIT_WAITERS)
  else Ok (active + 1).

Definition stage (cfg : Config) (now : Z) (st : State) (epoch : Epoch) (b : list BatchOp) (w : bool)
    : result CommitError State :=
  let bytes := byte_size b in
  let ops := Z.of_nat (batch_len b) in
  if closing st || retry_required st then Err AdmissionStopped
  else if match sealed_epoch st with Some sealed => epoch <=? sealed | None => false end
          || bool_decide (is_Some (pending st !! epoch))
  then Err (EpochNotNewer epoch (sealed_epoch st))
  else
    proposed ← ok_or (checked_usize (retained_bytes st + bytes)) (CapacityBytes usize_max (max_bytes cfg));
    if max_bytes cfg <? proposed then Err (CapacityBytes proposed (max_bytes cfg))
    else if max_epochs cfg <=? retained_epochs st
    then Err (CapacityEpochs (retained_epochs st) (max_epochs cfg))
    else
      proposed_operations ← ok_or (checked_usize (retained_operations st + ops))
                              (CapacityOperations usize_max MAX_GROUP_COMMIT_OPERATIONS);
      if MAX_GROUP_COMMIT_OPERATIONS <? proposed_operations
      then Err (CapacityOperations proposed_operations MAX_GROUP_COMMIT_OPERATIONS)
      else
        Ok {| pending := <[epoch := {| batch := b; e_bytes := bytes; operations := ops;
                                       staged_at := now; waiter := w |}]> (pending st);
              uncertain := uncertain st; requests := requests st; next_request := next_request st;
              retained_bytes := proposed; retained_epochs := retained_epochs st + 1;
              retained_operations := proposed_operations; last_committed := last_committed st;
              sealed_epoch := sealed_epoch st; in_flight := in_flight st;
              force_flush := force_flush st || (proposed =? max_bytes cfg)
                             || (retained_epochs st + 1 =? max_epochs cfg);
              retry_required := retry_required st;
              write_outcome_unknown := write_outcome_unknown st; closing := closing st |}.

Definition set_requests (st : State) (rs : gset Z) (next : Z) : State := {|
  pending := pending st; uncertain := uncertain st; requests := rs; next_request := next;
  retained_bytes := retained_bytes st; retained_epochs := retained_epochs st;
  retained_operations := retained_operations st; last_committed := last_committed st;
  sealed_epoch := sealed_epoch st; in_flight := in_flight st; force_flush := force_flush st;
  retry_required := retry_required st; write_outcome_unknown := write_outcome_unknown st;
  closing := closing st
|}.

(** The registration of a flush request and its cancellation ([FlushRequest]'s
    [Drop]). *)
Definition request_flush (st : State) : result CommitError (State * Z) :=
  let id := next_request st in
  next ← ok_or (checked_u64 (id + 1)) RequestsExhausted;
  Ok (set_requests st ({[ id ]} ∪ requests st) next, id).

Definition drop_request (st : State) (id : Z) : State :=
  set_requests st (requests st ∖ {[ id ]}) (next_request st).

Definition set_closing (st : State) : State := {|
  pending := pending st; uncertain := uncertain st; requests := requests st;
  next_request := next_request st; retained_bytes := retained_bytes st;
  retained_epochs := retained_epochs st; retained_operations := retained_operations st;
  last_committed := last_committed st; sealed_epoch := sealed_epoch st; in_flight := in_flight st;
  force_flush := force_flush st; retry_required := retry_required st;
  write_outcome_unknown := write_outcome_unknown st; closing := true
|}.

(** [sum::<usize>()] over the entries of a flight. *)
Definition sum_usize (f : Entry -> Z) (m : gmap Z Entry) : outcome Z :=
  expect (checked_usize (map_sum (fun _ e => f e) m)).

(** The reply slots of the entries, in epoch order, answered with [r]. *)
Definition epoch_replies (m : gmap Z Entry) (r : result Diagnostic unit) : list Reply :=
  omap (fun ke : Z * Entry => if waiter ke.2 then Some (EpochReply ke.1 r) else None) (btree_entries m).

Definition take_waiters (m : gmap Z Entry) : gmap Z Entry :=
  (fun e => {| batch := batch e; e_bytes := e_bytes e; operations := operations e;
               staged_at := staged_at e; waiter := false |}) <$> m.

(** The requests of a flight that are still open, and their replies. *)
Definition flush_replies (st : State) (ids : list Z) (r : result Diagnostic (list Epoch)) : list Reply :=
  (fun id => FlushReply id r) <$> base.filter (fun id => id ∈ requests st) ids.

Definition drop_requests (st : State) (ids : list Z) : State :=
  set_requests st (requests st ∖ list_to_set ids) (next_request st).

(** The fields the transition of a finished flight sets. *)
Definition settle (st : State) (p u : gmap Z Entry) (epochs bytes ops : Z) (frontier : option Epoch)
    (retry unknown : bool) : State := {|
  pending := p; uncertain := u; requests := requests st; next_request := next_request st;
  retained_bytes := bytes; retained_epochs := epochs; retained_operations := ops;
  last_committed := frontier; sealed_epoch := sealed_epoch st; in_flight := false;
  force_flush := force_flush st; retry_required := retry; write_outcome_unknown := unknown;
  closing := closing st
|}.

(** [assert!] *)
Definition assert (b : bool) : outcome unit := if b then Done tt else Panic.

(** [Drop for Flight]: the driver was cancelled or unwound during storage I/O. *)
Definition drop_flight (st : State) (f : Flight) : outcome (State * list Reply) :=
  let entries := take_waiters (f_entries f) in
  bytes ← sum_usize e_bytes entries;
  ops ← sum_usize operations entries;
  last ← expect (last (btree_keys (f_entries f)));
  '(next_owner, epochs', bytes', ops', frontier, ack) ←
    expect (PhysicalCommitK.finish_transition (f_source f) PhysicalCommitK.OUTCOME_UNKNOWN
              (retained_epochs st) (Z.of_nat (size entries)) (retained_bytes st) bytes
              (retained_operations st) ops (last_committed st) last);
  _ ← assert (next_owner =? PhysicalCommitK.UNCERTAIN);
  _ ← assert (negb ack);
  let st' := settle st (pending st) (entries ∪ uncertain st) epochs' bytes' ops' frontier true true in
  Done (drop_requests st' (f_requests f),
        epoch_replies (f_entries f) (Err DriverStopped) ++
        flush_replies st (f_requests f) (Err DriverStopped)).

Inductive Outcome : Type :=
| Durable
| WriteFailed (d : Diagnostic)
| FlushUnknown (d : Diagnostic)
| WriteUnknown (d : Diagnostic).

(** What the clock does to one storage call: it returns in time, or the timeout
    fires, and then a write may have taken effect or not. *)
Inductive Fate : Type :=
| Completes
| TimesOut (applied : bool).

Definition next_fate (fates : list Fate) : Fate := default Completes (head fates).

(** The merged batch: the entries' batches in epoch order, then the frontier. *)
Definition merged_batch (entries : gmap Z Entry) : list BatchOp :=
  concat ((fun ke : Z * Entry => batch ke.2) <$> btree_entries entries) ++
  match last (btree_keys entries) with
  | Some last => [Put frontier_key (be_bytes 8 last)]
  | None => []
  end.

(** The write attempts; [None] leaves the loop to the flush. *)
Fixpoint write_attempts (n : nat) (merged : list BatchOp) (d : ShardDb) (fates : list Fate)
    : outcome (ShardDb * list Fate * option Outcome) :=
  match n with
  | O => Done (d, fates, None)
  | S n' =>
      '(d', r) ← write_batch d merged;
      match next_fate fates with
      | TimesOut applied => Done (if applied then set_db d (db d') else d, tail fates, Some (WriteUnknown WriteTimedOut))
      | Completes =>
          match r with
          | Ok _ => Done (d', tail fates, None)
          | Err e =>
              if (n' =? 0)%nat then Done (d', tail fates, Some (WriteFailed (WriteError e)))
              else write_attempts n' merged d' (tail fates)
          end
      end
  end.

Fixpoint flush_attempts (n : nat) (d : ShardDb) (fates : list Fate) : ShardDb * Outcome :=
  match n with
  | O => (d, WriteUnknown NoAttempt)
  | S n' =>
      let '(d', r) := flush d in
      let error := match next_fate fates, r with
                   | TimesOut _, _ => Some FlushTimedOut
                   | Completes, Err e => Some (FlushError e)
                   | Completes, Ok _ => None
                   end in
      match error with
      | None => (d', Durable)
      | Some error =>
          if (n' =? 0)%nat then (d', FlushUnknown error) else flush_attempts n' d' (tail fates)
      end
  end.

Definition persist (d : ShardDb) (f : Flight) (fates : list Fate) : outcome (ShardDb * Outcome) :=
  '(d, fates, r) ← (if negb (f_source f =? PhysicalCommitK.FLIGHT_UNCERTAIN)
                    then write_attempts MAX_GROUP_COMMIT_RETRY_COUNT (merged_batch (f_entries f)) d fates
                    else Done (d, fates, None));
  match r with
  | Some o => Done (d, o)
  | None => Done (flush_attempts MAX_GROUP_COMMIT_RETRY_COUNT d fates)
  end.

Definition outcome_kind (o : Outcome) : Z * option Diagnostic :=
  match o with
  | Durable => (PhysicalCommitK.DURABLE, None)
  | WriteFailed error => (PhysicalCommitK.WRITE_FAILED, Some error)
  | FlushUnknown error | WriteUnknown error => (PhysicalCommitK.OUTCOME_UNKNOWN, Some error)
  end.

(** [frontier >= state.last_committed] on options: [None] is least. *)
Definition option_le (a b : option Epoch) : bool :=
  match a, b with
  | None, _ => true
  | Some _, None => false
  | Some a, Some b => a <=? b
  end.

Definition finish (st : State) (f : Flight) (o : Outcome) : outcome (State * list Reply) :=
  let epochs := btree_keys (f_entries f) in
  let entries := take_waiters (f_entries f) in
  bytes ← sum_usize e_bytes entries;
  ops ← sum_usize operations entries;
  let unknown := match o with WriteUnknown _ => true | _ => false end in
  let '(kind, error) := outcome_kind o in
  last ← expect (last epochs);
  '(owner, epochs', bytes', ops', frontier, ack) ←
    expect (PhysicalCommitK.finish_transition (f_source f) kind (retained_epochs st)
              (Z.of_nat (length epochs)) (retained_bytes st) bytes (retained_operations st) ops
              (last_committed st) last);
  _ ← assert (option_le (last_committed st) frontier);
  '(st', result) ←
    (if ack : bool then
       _ ← assert (owner =? PhysicalCommitK.COMMITTED);
       Done (settle st (pending st) (uncertain st) epochs' bytes' ops' frontier false unknown, Ok epochs)
     else
       error ← expect error;
       if owner =? PhysicalCommitK.PENDING then
         Done (settle st (entries ∪ pending st) (uncertain st) epochs' bytes' ops' frontier true unknown, Err error)
       else
         _ ← assert (owner =? PhysicalCommitK.UNCERTAIN);
         Done (settle st (pending st) (entries ∪ uncertain st) epochs' bytes' ops' frontier true unknown, Err error));
  Done (drop_requests st' (f_requests f),
        epoch_replies (f_entries f) (match result with Ok _ => Ok tt | Err e => Err e end) ++
        flush_replies st (f_requests f) result).

(** The decision of one turn of the driver under the lock, at time [now]. *)
Definition set_flight (st : State) (p u : gmap Z Entry) (sealed : option Epoch) : State := {|
  pending := p; uncertain := u; requests := requests st; next_request := next_request st;
  retained_bytes := retained_bytes st; retained_epochs := retained_epochs st;
  retained_operations := retained_operations st; last_committed := last_committed st;
  sealed_epoch := sealed; in_flight := true; force_flush := false;
  retry_required := retry_required st; write_outcome_unknown := write_outcome_unknown st;
  closing := closing st
|}.

Definition oldest_staged (m : gmap Z Entry) : option Z :=
  match (fun ke : Z * Entry => staged_at ke.2) <$> btree_entries m with
  | [] => None
  | t :: ts => Some (foldl Z.min t ts)
  end.

(** All open requests are answered with [r]. *)
Definition answer_all (st : State) (r : result Diagnostic (list Epoch)) : State * list Reply :=
  (set_requests st ∅ (next_request st), (fun id => FlushReply id r) <$> elements (requests st)).

Definition drive_begin (cfg : Config) (now : Z) (st : State) : outcome (State * list Reply * option Flight) :=
  let '(st, sent) := if write_outcome_unknown st && negb (bool_decide (requests st = ∅))
                     then answer_all st (Err OutcomeUnknown) else (st, []) in
  let due := match oldest_staged (pending st) with
             | Some oldest => max_delay cfg <=? saturating_sub now oldest
             | None => false
             end in
  let requested := negb (bool_decide (requests st = ∅)) in
  let ready := requested || (negb (retry_required st) && (due || force_flush st)) in
  if ready && (negb (bool_decide (pending st = ∅)) || negb (bool_decide (uncertain st = ∅)))
     && negb (write_outcome_unknown st)
  then
    source ← expect (PhysicalCommitK.begin_owner (negb (bool_decide (pending st = ∅)))
                       (negb (bool_decide (uncertain st = ∅))) (write_outcome_unknown st));
    let from_uncertain := source =? PhysicalCommitK.FLIGHT_UNCERTAIN in
    let entries := if from_uncertain then uncertain st else pending st in
    let sealed := match last (btree_keys entries) with Some l => Some l | None => sealed_epoch st end in
    let st' := set_flight st (if from_uncertain then pending st else ∅)
                 (if from_uncertain then ∅ else uncertain st) sealed in
    Done (st', sent, Some {| f_entries := entries; f_requests := elements (requests st); f_source := source |})
  else if requested && bool_decide (pending st = ∅) && bool_decide (uncertain st = ∅)
  then let '(st', sent') := answer_all st (Ok []) in Done (st', sent ++ sent', None)
  else Done (st, sent, None).

(** One turn of [drive]: the decision and, for a flight, the storage calls and
    their completion.  A panic of the storage layer unwinds the driver and
    drops the flight; only the first write attempt can panic, before it has
    changed anything. *)
Definition drive_turn (cfg : Config) (now : Z) (st : State) (d : ShardDb) (fates : list Fate)
    : outcome (State * ShardDb * list Reply) :=
  '(st, sent, flight) ← drive_begin cfg now st;
  match flight with
  | None => Done (st, d, sent)
  | Some f =>
      '(st', d', sent') ← match persist d f fates with
                          | Done (d', o) => '(st', sent') ← finish st f o; Done (st', d', sent')
                          | Panic => '(st', sent') ← drop_flight st f; Done (st', d, sent')
                          end;
      Done (st', d', sent ++ sent')
  end.
End physical.

(* ------------------------------------------------------------------ *)
(** ** The commit group as a transition system *)

Section group.
Context `{SlateDb}.

(** The guarded state, the flight owned by the driver, the shard and the
    counter of live waiter slots.  [g_log] records, for the statements only, the
    epochs that were reported durable, with their batches. *)
Record Group : Type := {
  g_state : State;
  g_flight : option Flight;
  g_db : ShardDb;
  g_active : Z;
  g_log : list (Z * list BatchOp)
}.

Definition entry_log (m : gmap Z Entry) : list (Z * list BatchOp) := btree_entries (batch <$> m).

(** The steps, with the replies they send.  While a flight is out, the shard is
    touched by the driver only, so the storage calls are taken together with
    their completion; a cancelled flight leaves the shard as it was or as the
    calls it made left it. *)
Inductive group_step (cfg : Config) : Group -> list Reply -> Group -> Prop :=
| G_add g now epoch b st' :
    in_u64 epoch -> stage cfg now (g_state g) epoch b false = Ok st' ->
    group_step cfg g [] {| g_state := st'; g_flight := g_flight g; g_db := g_db g; g_active := g_active g; g_log := g_log g |}
| G_commit g now epoch b active st' :
    in_u64 epoch -> waiter_acquire (g_active g) = Ok active ->
    stage cfg now (g_state g) epoch b true = Ok st' ->
    group_step cfg g [] {| g_state := st'; g_flight := g_flight g; g_db := g_db g; g_active := active; g_log := g_log g |}
| G_flush g active st' id :
    waiter_acquire (g_active g) = Ok active -> request_flush (g_state g) = Ok (st', id) ->
    group_step cfg g [] {| g_state := st'; g_flight := g_flight g; g_db := g_db g; g_active := active; g_log := g_log g |}
| G_cancel g id :
    group_step cfg g [] {| g_state := drop_request (g_state g) id; g_flight := g_flight g;
                           g_db := g_db g; g_active := g_active g; g_log := g_log g |}
| G_release g :
    0 < g_active g ->
    group_step cfg g [] {| g_state := g_state g; g_flight := g_flight g; g_db := g_db g;
                           g_active := g_active g - 1; g_log := g_log g |}
| G_close g :
    group_step cfg g [] {| g_state := set_closing (g_state g); g_flight := g_flight g;
                           g_db := g_db g; g_active := g_active g; g_log := g_log g |}
| G_begin g now st' sent fl :
    g_flight g = None -> drive_begin cfg now (g_state g) = Done (st', sent, fl) ->
    group_step cfg g sent {| g_state := st'; g_flight := fl; g_db := g_db g; g_active := g_active g; g_log := g_log g |}
| G_end g f fates d' o st' sent :
    g_flight g = Some f -> persist (g_db g) f fates = Done (d', o) -> finish (g_state g) f o = Done (st', sent) ->
    group_step cfg g sent {| g_state := st'; g_flight := None; g_db := d'; g_active := g_active g;
                           g_log := match o with Durable => g_log g ++ entry_log (f_entries f) | _ => g_log g end |}
| G_drop g f fates d' st' sent :
    g_flight g = Some f -> d' = g_db g \/ (exists o, persist (g_db g) f fates = Done (d', o)) ->
    drop_flight (g_state g) f = Done (st', sent) ->
    group_step cfg g sent {| g_state := st'; g_flight := None; g_db := d'; g_active := g_active g; g_log := g_log g |}.

(** A group just created on a shard, empty or with a recovered frontier. *)
Definition group_started (g : Group) : Prop :=
  g_flight g = None /\ g_active g = 0 /\
  (g_state g = state_default \/
   exists d0 t, group_open d0 t = Done (g_db g, Ok (g_state g))).

Definition group_reach (cfg : Config) (g0 g : Group) : Prop :=
  rtc (fun g g' => exists sent, group_step cfg g sent g') g0 g.

(* ------------------------------------------------------------------ *)
(** ** Accounting *)

Definition entry_wf (e : Entry) : Prop :=
  e_bytes e = byte_size (batch e) /\ operations e = Z.of_nat (batch_len (batch e)).

Definition flight_entries (fl : option Flight) : gmap Z Entry :=
  match fl with Some f => f_entries f | None => ∅ end.

(** The work retained by the group: pending, uncertain and in flight. *)
Definition retained (f : Entry -> Z) (st : State) (fl : option Flight) : Z :=
  map_sum (fun _ e => f e) (pending st) + map_sum (fun _ e => f e) (uncertain st) +
  map_sum (fun _ e => f e) (flight_entries fl).

(** Epochs that were already sealed into a write. *)
Definition sealed_key (st : State) (fl : option Flight) (k : Z) : Prop :=
  is_Some (flight_entries fl !! k) \/ is_Some (uncertain st !! k).

Record commit_inv (cfg : Config) (st : State) (fl : option Flight) : Prop := {
  ci_wf : map_Forall (fun _ => entry_wf) (pending st) /\ map_Forall (fun _ => entry_wf) (uncertain st) /\
          map_Forall (fun _ => entry_wf) (flight_entries fl);
  ci_bytes : retained_bytes st = retained e_bytes st fl;
  ci_epochs : retained_epochs st = retained (fun _ => 1) st fl;
  ci_ops : retained_operations st = retained operations st fl;
  ci_bound : retained_bytes st <= max_bytes cfg /\ retained_epochs st <= max_epochs cfg /\
             retained_operations st <= MAX_GROUP_COMMIT_OPERATIONS;
  ci_flight : forall f, fl = Some f -> f_entries f <> ∅ /\ uncertain st = ∅ /\
                (f_source f = PhysicalCommitK.FLIGHT_PENDING \/ f_source f = PhysicalCommitK.FLIGHT_UNCERTAIN);
  ci_order : forall k k', sealed_key st fl k -> is_Some (pending st !! k') -> k < k';
  ci_sealed : forall k, sealed_key st fl k -> exists s, sealed_epoch st = Some s /\ k <= s;
  ci_committed : forall c, last_committed st = Some c ->
    (exists s, sealed_epoch st = Some s /\ c <= s) /\
    (forall k, is_Some (pending st !! k) \/ sealed_key st fl k -> c < k)
}.

Definition config_ok (cfg : Config) : Prop := 0 <= max_bytes cfg <= usize_max /\ 0 <= max_epochs cfg.

Lemma entry_wf_nonneg e : entry_wf e -> 0 <= e_bytes e /\ 0 <= operations e.
Proof. intros [-> ->]. split; [apply byte_size_nonneg|lia]. Qed.

Lemma sum_nonneg (f : Entry -> Z) (m : gmap Z Entry) :
  (forall e, entry_wf e -> 0 <= f e) -> map_Forall (fun _ => entry_wf) m -> 0 <= map_sum (fun _ e => f e) m.
Proof. intros Hf Hm. apply map_sum_nonneg. intros k v Hk. by apply Hf, (Hm k). Qed.

Ltac sums_nonneg Hp Hu Hf :=
  pose proof (sum_nonneg e_bytes _ (fun e He => proj1 (entry_wf_nonneg e He)) Hp);
  pose proof (sum_nonneg e_bytes _ (fun e He => proj1 (entry_wf_nonneg e He)) Hu);
  pose proof (sum_nonneg e_bytes _ (fun e He => proj1 (entry_wf_nonneg e He)) Hf);
  pose proof (sum_nonneg operations _ (fun e He => proj2 (entry_wf_nonneg e He)) Hp);
  pose proof (sum_nonneg operations _ (fun e He => proj2 (entry_wf_nonneg e He)) Hu);
  pose proof (sum_nonneg operations _ (fun e He => proj2 (entry_wf_nonneg e He)) Hf).

Lemma stage_inv cfg now st fl epoch b w st' :
  stage cfg now st epoch b w = Ok st' -> commit_inv cfg st fl -> commit_inv cfg st' fl.
Proof.
  unfold stage. intros E Hi. destruct (closing st || retry_required st); [done|].
  destruct (_ || _) eqn:Hs; [done|]. apply orb_false_iff in Hs as [Hs Hk%bool_decide_eq_false].
  apply eq_None_not_Some in Hk.
  destruct (checked _ _ (retained_bytes st + _)) as [pb|] eqn:Eb; [|done]. apply checked_Some in Eb as [-> _].
  cbn [ok_or mbind result_bind] in E. destruct (Z.ltb_spec (max_bytes cfg) (retained_bytes st + byte_size b)); [done|].
  destruct (Z.leb_spec (max_epochs cfg) (retained_epochs st)); [done|].
  destruct (checked _ _ (retained_operations st + _)) as [po|] eqn:Eo; [|done]. apply checked_Some in Eo as [-> _].
  cbn [ok_or mbind result_bind] in E.
  destruct (Z.ltb_spec MAX_GROUP_COMMIT_OPERATIONS (retained_operations st + Z.of_nat (batch_len b))); [done|].
  injection E as <-. destruct Hi as [(Wp & Wu & Wf) Hb He Ho _ Hfl Hord Hsl Hc].
  assert (forall s, sealed_epoch st = Some s -> s < epoch) as Hnew by (intros s Es; rewrite Es in Hs; lia).
  split; cbn; unfold retained in *; cbn; try (rewrite map_sum_insert by done; cbn; lia).
  - split_and!; [|done..]. by apply map_Forall_insert_2.
  - lia.
  - done.
  - intros k k' Hsk Hk'. destruct (decide (k' = epoch)) as [->|Hne].
    + destruct (Hsl k Hsk) as (s & Es & Hle). specialize (Hnew s Es). lia.
    + rewrite lookup_insert_ne in Hk' by done. by apply Hord.
  - exact Hsl.
  - intros c Ec. destruct (Hc c Ec) as [(s & Es & Hle) Hlt]. split; [by exists s|].
    intros k [Hk'|Hsk]; [|by apply Hlt; right]. destruct (decide (k = epoch)) as [->|Hne].
    + specialize (Hnew s Es). lia.
    + rewrite lookup_insert_ne in Hk' by done. by apply Hlt; left.
Qed.

(** Only the requests change. *)
Lemma requests_inv cfg st fl rs next : commit_inv cfg st fl -> commit_inv cfg (set_requests st rs next) fl.
Proof. intros []. by split. Qed.

Lemma closing_inv cfg st fl : commit_inv cfg st fl -> commit_inv cfg (set_closing st) fl.
Proof. intros []. by split. Qed.

Lemma last_key_some {A} (m : gmap Z A) : m <> ∅ -> exists l, last (btree_keys m) = Some l.
Proof.
  intros Hm. destruct (last (btree_keys m)) as [l|] eqn:E; [by exists l|].
  apply last_None in E. unfold btree_keys in E. apply fmap_nil_inv, btree_entries_nil in E. done.
Qed.

Lemma last_key_max {A} (m : gmap Z A) l : last (btree_keys m) = Some l ->
  is_Some (m !! l) /\ forall k, is_Some (m !! k) -> k <= l.
Proof.
  intros E. split.
  - apply elem_of_btree_keys. by apply last_Some_elem_of.
  - intros k Hk%elem_of_btree_keys. pose proof (sorted_last _ _ (btree_keys_sorted m) E) as Hall.
    rewrite Forall_forall in Hall. by apply Hall.
Qed.

(** Taking the uncertain or else the pending entries into a flight. *)
Lemma flight_inv cfg st (from_uncertain : bool) rs src :
  commit_inv cfg st None -> src = (if from_uncertain then PhysicalCommitK.FLIGHT_UNCERTAIN else PhysicalCommitK.FLIGHT_PENDING) ->
  (if from_uncertain then uncertain st <> ∅ else uncertain st = ∅ /\ pending st <> ∅) ->
  let entries := if from_uncertain then uncertain st else pending st in
  commit_inv cfg
    (set_flight st (if from_uncertain then pending st else ∅) (if from_uncertain then ∅ else uncertain st)
       (match last (btree_keys entries) with Some l => Some l | None => sealed_epoch st end))
    (Some {| f_entries := entries; f_requests := rs; f_source := src |}).
Proof.
  intros [(Wp & Wu & _) Hb He Ho Hbd _ Hord Hsl Hc] -> Hne entries.
  assert (entries <> ∅) as Hen by (unfold entries; destruct from_uncertain; tauto).
  destruct (last_key_some entries Hen) as [l El]. rewrite El. destruct (last_key_max _ _ El) as [Hl Hmax].
  unfold sealed_key in *. unfold retained in *. cbn [flight_entries] in *.
  destruct from_uncertain; unfold entries in *; [|destruct Hne as [Hu Hp]; rewrite ?Hu in *];
    split; unfold retained, sealed_key; cbn [set_flight pending uncertain sealed_epoch last_committed retained_bytes retained_epochs
      retained_operations flight_entries f_entries f_source]; rewrite ?map_sum_empty in *;
    try lia; try done; try (split_and!; done || apply map_Forall_empty).
  - intros f [= <-]. split_and!; [done|done|by right].
  - intros k k' [Hk|[? Hk]] Hk'; [|by rewrite lookup_empty in Hk]. apply Hord; auto.
  - intros k [Hk|[? Hk]]; [|by rewrite lookup_empty in Hk]. exists l. auto.
  - intros c Ec. destruct (Hc c Ec) as [_ Hlt]. split; [exists l; split; [done|]|].
    + specialize (Hlt l ltac:(by right; right)). lia.
    + intros k [Hk|[Hk|[? Hk]]]; [by apply Hlt; left|by apply Hlt; right; right|by rewrite lookup_empty in Hk].
  - intros f [= <-]. split_and!; [done|done|by left].
  - intros k k' _ [? Hk]. by rewrite lookup_empty in Hk.
  - intros k [Hk|[? Hk]]; [|by rewrite lookup_empty in Hk]. exists l. auto.
  - intros c Ec. destruct (Hc c Ec) as [_ Hlt]. split; [exists l; split; [done|]|].
    + specialize (Hlt l ltac:(by left)). lia.
    + intros k [[? Hk]|[Hk|[? Hk]]]; [by rewrite lookup_empty in Hk|by apply Hlt; left|by rewrite lookup_empty in Hk].
Qed.

(** What a turn of the driver decides: nothing but answering requests, or a
    flight of all uncertain entries, or of all pending ones if none is
    uncertain. *)
Definition idle_turn (st st' : State) : Prop := exists rs, st' = set_requests st rs (next_request st).

Definition flight_turn (st st' : State) (f : Flight) : Prop :=
  write_outcome_unknown st = false /\
  exists from_uncertain : bool,
    (if from_uncertain then uncertain st <> ∅ else uncertain st = ∅ /\ pending st <> ∅) /\
    f_source f = (if from_uncertain then PhysicalCommitK.FLIGHT_UNCERTAIN else PhysicalCommitK.FLIGHT_PENDING) /\
    f_entries f = (if from_uncertain then uncertain st else pending st) /\
    f_requests f = elements (requests st) /\
    st' = set_flight st (if from_uncertain then pending st else ∅) (if from_uncertain then ∅ else uncertain st)
            (match last (btree_keys (f_entries f)) with Some l => Some l | None => sealed_epoch st end).

Lemma idle_refl st : idle_turn st st.
Proof. exists (requests st). by destruct st. Qed.

Lemma drive_begin_spec cfg now st :
  exists st' sent fl, drive_begin cfg now st = Done (st', sent, fl) /\
    match fl with None => idle_turn st st' | Some f => flight_turn st st' f end.
Proof.
  unfold drive_begin. destruct (write_outcome_unknown st) eqn:Hu; cbn [andb].
  - set (r := if negb _ then _ else _). assert (idle_turn st r.1 /\ write_outcome_unknown r.1 = true) as [Hr Hw].
    { unfold r. case_bool_decide; cbn [negb]; [split; [apply idle_refl|done]|]. split; [by eexists|done]. }
    destruct r as [st1 sent1]. cbn [fst] in Hr, Hw. rewrite Hw, andb_false_r. cbn [negb].
    destruct (_ && _ && _); [|by eexists _, _, _].
    eexists _, _, _. split; [done|]. destruct Hr as [rs ->]. by exists ∅.
  - destruct (_ && _ && _) eqn:Hready.
    + apply andb_true_iff in Hready as [[_ Hne]%andb_true_iff _].
      unfold PhysicalCommitK.begin_owner. rewrite Hu. cbn [orb].
      repeat case_bool_decide; try done; cbn [negb andb expect mbind outcome_bind]; eexists _, _, _;
        (split; [done|]); (split; [done|]);
        [by exists true|by exists false|by exists true].
    + clear Hready. destruct (_ && _ && _); [|eexists _, _, _; split; [done|apply idle_refl]].
      eexists _, _, _. split; [done|]. by eexists.
Qed.

Lemma begin_inv cfg now st st' sent fl :
  drive_begin cfg now st = Done (st', sent, fl) -> commit_inv cfg st None ->
  commit_inv cfg st' fl /\ last_committed st' = last_committed st.
Proof.
  intros E Hi. destruct (drive_begin_spec cfg now st) as (st1 & sent1 & fl1 & E1 & Hsp).
  rewrite E1 in E. injection E as <- <- <-. destruct fl1 as [f|].
  - destruct Hsp as (_ & fu & Hne & Hsrc & Hent & Hreq & ->). destruct f as [entries rs src].
    cbn [f_entries f_source f_requests] in *. subst. split; [|done]. by apply flight_inv.
  - destruct Hsp as [rs ->]. split; [by apply requests_inv|done].
Qed.

(* ------------------------------------------------------------------ *)
(** *** The end of a flight *)

Lemma take_waiters_sum f (g : Entry -> Z) (m : gmap Z Entry) :
  (forall e, g {| batch := batch e; e_bytes := e_bytes e; operations := operations e;
                  staged_at := staged_at e; waiter := false |} = f e) ->
  map_sum (fun _ e => g e) (take_waiters m) = map_sum (fun _ e => f e) m.
Proof. intros Hg. unfold take_waiters. rewrite map_sum_fmap. apply map_sum_ext. intros. apply Hg. Qed.

Lemma take_waiters_key m k : is_Some (take_waiters m !! k) <-> is_Some (m !! k).
Proof. unfold take_waiters. by rewrite lookup_fmap, fmap_is_Some. Qed.

Lemma take_waiters_wf m : map_Forall (fun _ => entry_wf) m -> map_Forall (fun _ => entry_wf) (take_waiters m).
Proof.
  intros Hm k e. unfold take_waiters. rewrite lookup_fmap. intros (e' & He & ->)%fmap_Some.
  exact (Hm k e' He).
Qed.

Section ending.
Context (cfg : Config) (st : State) (f : Flight) (Hcfg : config_ok cfg) (Hi : commit_inv cfg st (Some f)).

(** The sums of a flight do not overflow and are within what is retained. *)
Lemma flight_sums :
  let b := map_sum (fun _ e => e_bytes e) (f_entries f) in
  let o := map_sum (fun _ e => operations e) (f_entries f) in
  sum_usize e_bytes (take_waiters (f_entries f)) = Done b /\
  sum_usize operations (take_waiters (f_entries f)) = Done o /\
  b <= retained_bytes st /\ o <= retained_operations st /\
  Z.of_nat (size (f_entries f)) <= retained_epochs st /\ size (f_entries f) <> 0%nat.
Proof.
  destruct Hi as [(Wp & Wu & Wf) Hb He Ho (Hbb & Hbe & Hbo) Hfl _ _ _].
  destruct (Hfl f eq_refl) as (Hne & Hu & _). cbn [flight_entries] in *.
  sums_nonneg Wp Wu Wf. unfold retained in *. cbn [flight_entries] in *.
  cbn zeta. unfold sum_usize. rewrite (take_waiters_sum e_bytes e_bytes), (take_waiters_sum operations operations) by done.
  rewrite !checked_in; cbn [expect].
  - split_and!; try done; try lia.
    + rewrite !map_sum_const in He. lia.
    + by apply map_size_non_empty_iff.
  - destruct Hcfg as [? ?]. unfold MAX_GROUP_COMMIT_OPERATIONS in *. rlia.
  - destruct Hcfg as [? ?]. rlia.
Qed.

Lemma flight_last : exists l, last (btree_keys (f_entries f)) = Some l /\
  (forall c, last_committed st = Some c -> c < l).
Proof.
  destruct Hi as [_ _ _ _ _ Hfl _ _ Hc]. destruct (Hfl f eq_refl) as (Hne & _ & _).
  destruct (last_key_some _ Hne) as [l El]. exists l. split; [done|]. intros c Ec.
  apply (Hc c Ec). right; left. by apply last_key_max.
Qed.

(** The state a finished flight settles in, and the result it reports. *)
Definition settled (o : Outcome) (l : Epoch) : State :=
  let entries := take_waiters (f_entries f) in
  match o with
  | Durable => settle st (pending st) (uncertain st) (retained_epochs st - Z.of_nat (size (f_entries f)))
                 (retained_bytes st - map_sum (fun _ e => e_bytes e) (f_entries f))
                 (retained_operations st - map_sum (fun _ e => operations e) (f_entries f))
                 (Some l) false false
  | WriteFailed _ => settle st (entries ∪ pending st) (uncertain st) (retained_epochs st) (retained_bytes st)
                       (retained_operations st) (last_committed st) true false
  | FlushUnknown _ => settle st (pending st) (entries ∪ uncertain st) (retained_epochs st) (retained_bytes st)
                        (retained_operations st) (last_committed st) true false
  | WriteUnknown _ => settle st (pending st) (entries ∪ uncertain st) (retained_epochs st) (retained_bytes st)
                        (retained_operations st) (last_committed st) true true
  end.

Definition outcome_result (o : Outcome) : result Diagnostic (list Epoch) :=
  match o with
  | Durable => Ok (btree_keys (f_entries f))
  | WriteFailed e | FlushUnknown e | WriteUnknown e => Err e
  end.

Lemma option_le_refl c : option_le c c = true.
Proof. destruct c; cbn; lia. Qed.

(** The kernel's transition on a flight of the group. *)
Lemma transition kind l :
  (forall c, last_committed st = Some c -> c < l) ->
  kind = PhysicalCommitK.DURABLE \/ kind = PhysicalCommitK.OUTCOME_UNKNOWN \/
    (kind = PhysicalCommitK.WRITE_FAILED /\ f_source f = PhysicalCommitK.FLIGHT_PENDING) ->
  PhysicalCommitK.finish_transition (f_source f) kind (retained_epochs st) (Z.of_nat (size (f_entries f)))
    (retained_bytes st) (map_sum (fun _ e => e_bytes e) (f_entries f))
    (retained_operations st) (map_sum (fun _ e => operations e) (f_entries f)) (last_committed st) l =
  if kind =? PhysicalCommitK.DURABLE then
    Some (PhysicalCommitK.COMMITTED, retained_epochs st - Z.of_nat (size (f_entries f)),
          retained_bytes st - map_sum (fun _ e => e_bytes e) (f_entries f),
          retained_operations st - map_sum (fun _ e => operations e) (f_entries f), Some l, true)
  else Some (if kind =? PhysicalCommitK.WRITE_FAILED then PhysicalCommitK.PENDING else PhysicalCommitK.UNCERTAIN,
             retained_epochs st, retained_bytes st, retained_operations st, last_committed st, false).
Proof.
  intros Hc Hk. destruct flight_sums as (_ & _ & Hb & Ho & He & Hn).
  destruct Hi as [_ _ _ _ _ Hfl _ _ _]. destruct (Hfl f eq_refl) as (_ & _ & Hsrc).
  unfold PhysicalCommitK.finish_transition.
  assert ((Z.of_nat (size (f_entries f)) =? 0) = false) as -> by lia.
  assert ((retained_epochs st <? Z.of_nat (size (f_entries f))) = false) as -> by lia.
  assert ((retained_bytes st <? map_sum (fun _ e => e_bytes e) (f_entries f)) = false) as -> by lia.
  assert ((retained_operations st <? map_sum (fun _ e => operations e) (f_entries f)) = false) as -> by lia.
  assert (match last_committed st with Some c => l <? c | None => false end = false) as ->.
  { destruct (last_committed st) as [c|]; [|done]. specialize (Hc c eq_refl). lia. }
  rewrite !orb_false_r.
  destruct Hk as [->|[->|[-> ->]]]; [destruct Hsrc as [->| ->]..|]; done.
Qed.

Lemma finish_spec o : (forall e, o = WriteFailed e -> f_source f = PhysicalCommitK.FLIGHT_PENDING) ->
  exists l, last (btree_keys (f_entries f)) = Some l /\
    finish st f o = Done (drop_requests (settled o l) (f_requests f),
      epoch_replies (f_entries f) (match outcome_result o with Ok _ => Ok tt | Err e => Err e end) ++
      flush_replies st (f_requests f) (outcome_result o)).
Proof.
  intros Hw. destruct flight_last as (l & El & Hc). exists l. split; [done|].
  destruct flight_sums as (E1 & E2 & _). unfold finish. rewrite E1, E2, El.
  assert (length (btree_keys (f_entries f)) = size (f_entries f)) as ->
    by (unfold btree_keys; by rewrite length_fmap, length_btree_entries).
  assert (option_le (last_committed st) (Some l) = true) as Hle.
  { destruct (last_committed st) as [c|]; [|done]. specialize (Hc c eq_refl). cbn. lia. }
  cbn [mbind outcome_bind expect].
  destruct o as [|e|e|e]; cbn [outcome_kind]; rewrite transition by (done || eauto);
    cbn -[option_le]; rewrite ?Hle, ?option_le_refl; done.
Qed.

Lemma drop_spec : exists l, last (btree_keys (f_entries f)) = Some l /\
  drop_flight st f = Done (drop_requests (settled (WriteUnknown DriverStopped) l) (f_requests f),
    epoch_replies (f_entries f) (Err DriverStopped) ++ flush_replies st (f_requests f) (Err DriverStopped)).
Proof.
  destruct flight_last as (l & El & Hc). exists l. split; [done|].
  destruct flight_sums as (E1 & E2 & _). unfold drop_flight. rewrite E1, E2, El.
  assert (size (take_waiters (f_entries f)) = size (f_entries f)) as -> by apply map_size_fmap.
  cbn [mbind outcome_bind expect]. rewrite transition by (done || auto). done.
Qed.

Lemma flight_disjoint : take_waiters (f_entries f) ##ₘ pending st.
Proof.
  destruct Hi as [_ _ _ _ _ _ Hord _ _]. apply map_disjoint_spec. intros k e e' Hk Hk'.
  assert (is_Some (f_entries f !! k)) as Hf by (apply take_waiters_key; by eexists).
  enough (k < k) by lia. apply Hord; [by left|by eexists].
Qed.

Lemma no_key k (P : Prop) : is_Some ((∅ : gmap Z Entry) !! k) -> P.
Proof. intros [? Hk]. by rewrite lookup_empty in Hk. Qed.

(** Unfold the invariant of a settled state into sums over the maps. *)
Ltac settle_goals Hu :=
  split; unfold sealed_key, retained; cbn [settle pending uncertain sealed_epoch last_committed retained_bytes
    retained_epochs retained_operations flight_entries];
  rewrite ?Hu, ?map_union_empty, ?map_sum_union, ?map_sum_empty by done;
  rewrite ?(take_waiters_sum e_bytes e_bytes), ?(take_waiters_sum operations operations),
    ?(take_waiters_sum (fun _ => 1) (fun _ => 1)) by done.

Lemma durable_inv l : last (btree_keys (f_entries f)) = Some l -> commit_inv cfg (settled Durable l) None.
Proof.
  intros El. destruct (last_key_max _ _ El) as [Hl _].
  pose proof Hi as [(Wp & Wu & Wf) Hb He Ho (Hbb & Hbe & Hbo) Hfl Hord Hsl Hc].
  destruct (Hfl f eq_refl) as (_ & Hu & _). sums_nonneg Wp Wu Wf. pose proof (map_sum_const (f_entries f)) as Hsz.
  unfold sealed_key, retained in *. cbn [flight_entries] in *. rewrite Hu, map_sum_empty in *.
  cbn [settled]. settle_goals Hu; try lia; try done.
  - intros k k' [Hk|Hk]; by apply (no_key k).
  - intros k [Hk|Hk]; by apply (no_key k).
  - intros c [= <-]. split; [destruct (Hsl l (or_introl Hl)) as (s & Es & Hs); by exists s|].
    intros k [Hk|[Hk|Hk]]; [apply Hord; auto|by apply (no_key k)..].
Qed.

Lemma returned_inv : commit_inv cfg (settle st (take_waiters (f_entries f) ∪ pending st) (uncertain st)
  (retained_epochs st) (retained_bytes st) (retained_operations st) (last_committed st) true false) None.
Proof.
  pose proof flight_disjoint as Hd. pose proof Hi as [(Wp & Wu & Wf) Hb He Ho Hbd Hfl Hord Hsl Hc].
  destruct (Hfl f eq_refl) as (_ & Hu & _). unfold sealed_key, retained in *. cbn [flight_entries] in *.
  rewrite Hu, map_sum_empty in *. settle_goals Hu; try lia; try done.
  - split_and!; [apply map_Forall_union_2; [by apply take_waiters_wf|done]|apply map_Forall_empty..].
  - intros k k' [Hk|Hk]; by apply (no_key k).
  - intros k [Hk|Hk]; by apply (no_key k).
  - intros c Ec. destruct (Hc c Ec) as [Hs Hlt]. split; [done|]. intros k [Hk|[Hk|Hk]]; [|by apply (no_key k)..].
    apply lookup_union_is_Some in Hk as [Hk|Hk]; apply Hlt; [right; left; by apply take_waiters_key|by left].
Qed.

Lemma doubtful_inv unknown : commit_inv cfg (settle st (pending st) (take_waiters (f_entries f) ∪ uncertain st)
  (retained_epochs st) (retained_bytes st) (retained_operations st) (last_committed st) true unknown) None.
Proof.
  pose proof Hi as [(Wp & Wu & Wf) Hb He Ho Hbd Hfl Hord Hsl Hc].
  destruct (Hfl f eq_refl) as (_ & Hu & _). unfold sealed_key, retained in *. cbn [flight_entries] in *.
  rewrite Hu, map_sum_empty in *. settle_goals Hu; try lia; try done.
  - split_and!; [done|by apply take_waiters_wf|apply map_Forall_empty].
  - intros k k' [Hk|Hk] Hk'; [by apply (no_key k)|]. apply Hord; [left; by apply take_waiters_key|done].
  - intros k [Hk|Hk]; [by apply (no_key k)|]. apply Hsl. left. by apply take_waiters_key.
  - intros c Ec. destruct (Hc c Ec) as [Hs Hlt]. split; [done|]. intros k [Hk|[Hk|Hk]].
    + by apply Hlt; left.
    + by apply (no_key k).
    + apply Hlt. right; left. by apply take_waiters_key.
Qed.

Lemma settled_inv o l : last (btree_keys (f_entries f)) = Some l -> commit_inv cfg (settled o l) None.
Proof. destruct o; [apply durable_inv|intros _; apply returned_inv|intros _; apply doubtful_inv..]. Qed.
End ending.

Lemma flush_attempts_outcome n d fates d' o : flush_attempts n d fates = (d', o) ->
  forall e, o <> WriteFailed e.
Proof.
  revert d fates. induction n as [|n IH]; intros d fates; cbn [flush_attempts]; [by intros [= _ <-]|].
  destruct (flush d) as [d1 r]. destruct (match next_fate fates with Completes => _ | TimesOut _ => _ end); [|by intros [= _ <-]].
  destruct (_ =? 0)%nat; [by intros [= _ <-]|apply IH].
Qed.

(** A flight of uncertain entries is only flushed, never written again. *)
Lemma persist_failed cfg st d f fates d' o e : commit_inv cfg st (Some f) ->
  persist d f fates = Done (d', o) -> o = WriteFailed e -> f_source f = PhysicalCommitK.FLIGHT_PENDING.
Proof.
  intros [_ _ _ _ _ Hfl _ _ _] E ->. destruct (Hfl f eq_refl) as (_ & _ & [Hs|Hs]); [done|].
  unfold persist in E. rewrite Hs in E. change (Done (flush_attempts MAX_GROUP_COMMIT_RETRY_COUNT d fates) = Done (d', WriteFailed e)) in E.
  by destruct (flush_attempts_outcome _ _ _ _ _ (inj Done _ _ E) e).
Qed.

Definition group_inv (cfg : Config) (g : Group) : Prop :=
  commit_inv cfg (g_state g) (g_flight g) /\ 0 <= g_active g <= MAX_GROUP_COMMIT_WAITERS.

Lemma recovered_inv cfg frontier : config_ok cfg -> commit_inv cfg (state_recovered frontier) None.
Proof.
  intros [Hb He]. split; unfold sealed_key, retained; cbn [state_recovered pending uncertain flight_entries
    retained_bytes retained_epochs retained_operations sealed_epoch last_committed]; rewrite ?map_sum_empty; try done.
  - unfold MAX_GROUP_COMMIT_OPERATIONS. split_and!; lia.
  - intros k k' [Hk|Hk]; by apply (no_key k).
  - intros k [Hk|Hk]; by apply (no_key k).
  - intros c ->. split; [exists c; split; [done|lia]|]. intros k [Hk|[Hk|Hk]]; by apply (no_key k).
Qed.

Lemma started_inv cfg g : config_ok cfg -> group_started g -> group_inv cfg g.
Proof.
  intros Hcfg (Hf & Ha & Hs). split; [|rewrite Ha; unfold MAX_GROUP_COMMIT_WAITERS; lia]. rewrite Hf.
  destruct Hs as [->|(d0 & t & E)]; [by apply recovered_inv|]. unfold group_open in E.
  destruct t; [done|]. destruct (get d0 frontier_key) as [[d1 r]|]; [|done]. cbn [mbind outcome_bind] in E.
  destruct r as [[v|]|]; [destruct (_ =? 8)%nat; [|done]| |done]; injection E as _ <-; by apply recovered_inv.
Qed.

(** The frontier of [st'] is not behind that of [st]. *)
Definition frontier_le (st st' : State) : Prop :=
  forall c, last_committed st = Some c -> exists c', last_committed st' = Some c' /\ c <= c'.

Lemma frontier_le_same st st' : last_committed st' = last_committed st -> frontier_le st st'.
Proof. intros E c Ec. rewrite E. exists c. split; [done|lia]. Qed.

Lemma stage_frontier cfg now st epoch b w st' :
  stage cfg now st epoch b w = Ok st' -> last_committed st' = last_committed st.
Proof.
  unfold stage. repeat (case_match || cbn [ok_or mbind result_bind]); try done;
    unfold ok_or, mbind, result_bind; repeat case_match; intros; simplify_eq; done.
Qed.

Lemma waiter_acquire_bound a a' : 0 <= a -> waiter_acquire a = Ok a' -> 0 <= a' <= MAX_GROUP_COMMIT_WAITERS.
Proof. unfold waiter_acquire. case_match; [done|]. intros ? [= <-]. lia. Qed.

Lemma group_step_inv cfg g sent g' : config_ok cfg -> group_step cfg g sent g' -> group_inv cfg g ->
  group_inv cfg g' /\ frontier_le (g_state g) (g_state g').
Proof.
  intros Hcfg Hst [Hi Ha]. destruct Hst as [g now epoch b st' He E|g now epoch b a st' He Ea E|g a st' id Ea E|g id|
    g Hpos|g|g now st' sent fl Hf E|g f fates d' o st' sent Hf Ep E|g f fates d' st' sent Hf Hd E]; unfold group_inv; cbn.
  - split; [split; [by eapply stage_inv|done]|]. by eapply frontier_le_same, stage_frontier.
  - split; [split; [by eapply stage_inv|apply (waiter_acquire_bound (g_active g)); [lia|done]]|]. by eapply frontier_le_same, stage_frontier.
  - unfold request_flush in E. destruct (checked _ _ _); [|done]. injection E as <- _.
    split; [split; [by apply requests_inv|apply (waiter_acquire_bound (g_active g)); [lia|done]]|by apply frontier_le_same].
  - split; [split; [by apply requests_inv|done]|by apply frontier_le_same].
  - split; [split; [done|lia]|by apply frontier_le_same].
  - split; [split; [by apply closing_inv|done]|by apply frontier_le_same].
  - rewrite Hf in Hi. destruct (begin_inv _ _ _ _ _ _ E Hi) as [Hi' Hl].
    split; [by split|by apply frontier_le_same].
  - rewrite Hf in Hi. destruct (finish_spec cfg _ f Hcfg Hi o) as (l & El & E').
    { intros e. by eapply persist_failed. }
    rewrite E' in E. injection E as <- _. split; [split; [by apply requests_inv, (settled_inv cfg)|done]|].
    intros c Ec. destruct (flight_last cfg _ f Hi) as (l' & El' & Hlt). rewrite El in El'. injection El' as <-.
    destruct o; [exists l; split; [done|specialize (Hlt c Ec); lia]|exists c; split; [done|lia]..].
  - rewrite Hf in Hi. destruct (drop_spec cfg _ f Hcfg Hi) as (l & El & E').
    rewrite E' in E. injection E as <- _.
    split; [split; [by apply requests_inv, (doubtful_inv cfg)|done]|by apply frontier_le_same].
Qed.

Lemma group_reach_inv cfg g0 g : config_ok cfg -> group_reach cfg g0 g -> group_inv cfg g0 -> group_inv cfg g.
Proof.
  intros Hcfg. induction 1 as [|g g1 g2 [sent Hs] _ IH]; intros Hi; [done|].
  apply IH. by destruct (group_step_inv _ _ _ _ Hcfg Hs Hi).
Qed.

(** C19: The commit driver accounts for all the work it retains and stays within
    its bounds.  In every reachable state of a group, in any interleaving of
    staging, flush requests, cancellations, flights, storage failures, timeouts
    and cancelled drivers: the counters of bytes, epochs and operations equal the
    sums over the pending, uncertain and in-flight epochs; they and the number of
    waiters are within their limits; the driver's decision, the completion of a
    flight with any outcome of its storage calls and the recovery of a cancelled
    flight never panic; and no step moves the committed frontier back. *)
Theorem commit_bounds cfg g0 g :
  config_ok cfg -> group_started g0 -> group_reach cfg g0 g ->
  let st := g_state g in
  (retained_bytes st = retained e_bytes st (g_flight g) /\
   retained_epochs st = retained (fun _ => 1) st (g_flight g) /\
   retained_operations st = retained operations st (g_flight g)) /\
  (retained_bytes st <= max_bytes cfg /\ retained_epochs st <= max_epochs cfg /\
   retained_operations st <= MAX_GROUP_COMMIT_OPERATIONS /\ 0 <= g_active g <= MAX_GROUP_COMMIT_WAITERS) /\
  (forall now, drive_begin cfg now st <> Panic) /\
  (forall f fates d' o, g_flight g = Some f -> persist (g_db g) f fates = Done (d', o) -> finish st f o <> Panic) /\
  (forall f, g_flight g = Some f -> drop_flight st f <> Panic) /\
  (forall sent g' c, group_step cfg g sent g' -> last_committed st = Some c ->
     exists c', last_committed (g_state g') = Some c' /\ c <= c').
Proof.
  intros Hcfg Hs Hr st. pose proof (group_reach_inv _ _ _ Hcfg Hr (started_inv _ _ Hcfg Hs)) as Hinv.
  pose proof Hinv as [Hi Ha]. pose proof Hi as [_ Hb He Ho (Hbb & Hbe & Hbo) _ _ _ _]. split_and!; try done; try lia.
  - intros now E. destruct (drive_begin_spec cfg now st) as (? & ? & ? & E' & _). congruence.
  - intros f fates d' o Hf Ep E. rewrite Hf in Hi. destruct (finish_spec cfg st f Hcfg Hi o) as (? & _ & E').
    { intros e. by eapply persist_failed. }
    congruence.
  - intros f Hf E. rewrite Hf in Hi. destruct (drop_spec cfg st f Hcfg Hi) as (? & _ & E'). congruence.
  - intros sent g' c Hst Ec. by destruct (group_step_inv _ _ _ _ Hcfg Hst Hinv) as [_ Hle]; apply Hle.
Qed.
End group.

(* ------------------------------------------------------------------ *)
(** ** A concrete group *)

Import MapStore.

Definition fresh_group : Group := {|
  g_state := state_default; g_flight := None;
  g_db := {| db := (∅ : gmap bytes bytes); last_epoch := 0; allocated_epoch := 0; format_version := 3;
             migration_pending := false; fail_writes := false; fail_flushes := false; fail_scans := false |};
  g_active := 0; g_log := []
|}.

(** Epoch 5 is staged with a waiter. *)
Definition staged_state : State :=
  match stage default_config 100 state_default 5 [Put [1; 7] [10]] true with Ok st => st | Err _ => state_default end.

Definition staged_group : Group := {|
  g_state := staged_state; g_flight := None; g_db := g_db fresh_group; g_active := 1; g_log := []
|}.

Lemma default_config_ok : config_ok default_config.
Proof. split; [split; discriminate|discriminate]. Qed.

Lemma fresh_group_started : group_started fresh_group.
Proof. split; [reflexivity|]. split; [reflexivity|]. left. reflexivity. Qed.

Lemma staged_group_step : group_step default_config fresh_group [] staged_group.
Proof.
  apply (G_commit default_config fresh_group 100 5 [Put [1; 7] [10]] 1 staged_state);
    [split; discriminate|reflexivity|reflexivity].
Qed.

Lemma commit_bounds_witness :
  group_reach default_config fresh_group staged_group /\
  retained_bytes staged_state = 3 /\ retained e_bytes staged_state None = 3.
Proof.
  assert (group_reach default_config fresh_group staged_group) as Hr
    by (apply rtc_once; exists []; exact staged_group_step).
  split; [exact Hr|].
  destruct (commit_bounds default_config fresh_group staged_group default_config_ok fresh_group_started Hr)
    as ((Hb & _) & _).
  split; [reflexivity|]. symmetry. exact Hb.
Defined.
