(* ===== verification/CommitDurability.v ===== *)
(** What the physical commit driver makes durable (rockstream-ops
    group_commit/physical.rs on rockstream-storage shard_db.rs): the shard holds
    exactly the batches of the committed epochs, applied in epoch order, with
    those still in doubt after them; and draining the group terminates. *)
From stdpp Require Import base tactics list gmap numbers option fin_maps relations sorting.
From Stdlib Require Import ZArith Lia ZifyBool.
From S2P Require Import Prelude Kernels Progress Keys Store ShardDb PhysicalCommit.
Local Open Scope Z_scope.

(* ------------------------------------------------------------------ *)
(** ** Replaying writes *)

Definition touches (k : bytes) (ops : list BatchOp) : Prop := exists op, op ∈ ops /\ op_key op = k.

Lemma touches_cons k op ops : touches k (op :: ops) <-> op_key op = k \/ touches k ops.
Proof.
  unfold touches. split.
  - intros (op' & [->|Hin]%elem_of_cons & E); eauto.
  - intros [E|(op' & Hin & E)]; [exists op|exists op']; split; try done; by constructor.
Qed.

Lemma untouched k ops a : ~ touches k ops -> foldl (op_effect k) a ops = a.
Proof.
  revert a. induction ops as [|op ops IH]; intros a Hn; [done|]. rewrite touches_cons in Hn.
  cbn [foldl]. unfold op_effect at 2. rewrite bool_decide_eq_false_2 by tauto. apply IH. tauto.
Qed.

(** The last write wins, whatever was there before. *)
Lemma overwritten k ops a b : point_writes ops -> touches k ops ->
  foldl (op_effect k) a ops = foldl (op_effect k) b ops.
Proof.
  intros Hp. revert a b. induction Hp as [|op ops Ho _ IH]; intros a b Ht.
  { destruct Ht as (? & []%not_elem_of_nil & _). }
  cbn [foldl]. apply touches_cons in Ht as [E|Ht]; [|by apply IH]. f_equal.
  unfold op_effect. rewrite bool_decide_eq_true_2 by done. by destruct op.
Qed.

(** A batch replayed by one that writes the same keys leaves no trace. *)
Lemma replayed v ops ops' k : point_writes ops' -> (touches k ops -> touches k ops') ->
  view_after (view_after v ops) ops' k = view_after v ops' k.
Proof.
  intros Hp Hsub. unfold view_after.
  destruct (decide (Exists (fun op => op_key op = k) ops')) as [Ht|Hn].
  - apply Exists_exists in Ht as (op & Hin & E). apply overwritten; [done|]. by exists op.
  - assert (~ touches k ops') as Hn' by (intros (op & Hin & E); apply Hn, Exists_exists; eauto).
    rewrite !(untouched _ ops') by done. apply untouched. tauto.
Qed.

Lemma batches_view_app v ops ops' k : view_after v (ops ++ ops') k = view_after (view_after v ops) ops' k.
Proof. unfold view_after. by rewrite foldl_app. Qed.

Lemma view_after_ext v v' ops k : v k = v' k -> view_after v ops k = view_after v' ops k.
Proof. unfold view_after. by intros ->. Qed.

(** Batches an operator may stage: point writes of ordinary keys that leave the
    frontier to the driver. *)
Definition batch_ok (b : list BatchOp) : Prop :=
  point_writes b /\ Forall (fun op => ordinary (op_key op) /\ op_key op <> frontier_key) b.

Definition log_ops (l : list (Z * list BatchOp)) : list BatchOp := concat l.*2.

Lemma log_ops_app l l' : log_ops (l ++ l') = log_ops l ++ log_ops l'.
Proof. unfold log_ops. by rewrite fmap_app, concat_app. Qed.

Lemma log_ops_ok l : Forall (fun e => batch_ok e.2) l -> batch_ok (log_ops l).
Proof.
  induction 1 as [|[k b] l [Hp Hk] _ [IHp IHk]]; [by split; constructor|].
  unfold log_ops. rewrite fmap_cons. cbn [concat snd]. split; apply Forall_app; done.
Qed.

Lemma touches_app k l l' : touches k (l ++ l') <-> touches k l \/ touches k l'.
Proof.
  unfold touches. setoid_rewrite elem_of_app. split; [|intros [(op & ? & ?)|(op & ? & ?)]; eauto].
  intros (op & [Hin|Hin] & E); eauto.
Qed.

Lemma touches_log k l : touches k (log_ops l) <-> exists e, e ∈ l /\ touches k e.2.
Proof.
  induction l as [|e l IH].
  - split; [intros (? & []%not_elem_of_nil & _)|intros (? & []%not_elem_of_nil & _)].
  - unfold log_ops in *. rewrite fmap_cons. cbn [concat]. rewrite touches_app, IH.
    setoid_rewrite elem_of_cons. split; [intros [Ht|(e' & ? & ?)]; eauto|].
    intros (e' & [->|?] & ?); eauto.
Qed.

Section storage.
Context `{SlateDbLaws}.
Implicit Types d : ShardDb.

(** The parts of a shard the driver does not change. *)
Definition same_shape d d' : Prop :=
  format_version d' = format_version d /\ migration_pending d' = migration_pending d.

(** The possible effects of writing [ops]: none, or all of it. *)
Definition wrote d d' (ops : list BatchOp) (applied : bool) : Prop :=
  same_shape d d' /\
  forall k, ordinary k -> view d' k = if applied then view_after (view d) ops k else view d k.

Lemma wrote_refl d ops : wrote d d ops false.
Proof. by split. Qed.

(** Writing the same batch again. *)
Lemma wrote_again d d1 d2 ops a b : point_writes ops ->
  wrote d d1 ops a -> wrote d1 d2 ops b -> wrote d d2 ops (a || b).
Proof.
  intros Hp [[Hf1 Hm1] H1] [[Hf2 Hm2] H2]. split; [split; congruence|]. intros k Hk. rewrite H2 by done.
  destruct b; [|by rewrite orb_false_r; apply H1]. rewrite orb_true_r.
  rewrite (view_after_ext (view d1) (if a then view_after (view d) ops else view d) ops k)
    by (rewrite H1 by done; by destruct a).
  destruct a; [|done]. by apply replayed.
Qed.

Lemma view_contents d d' k : same_shape d d' -> view d' k = contents (db d') !! physical_key d k.
Proof. intros [Hf _]. unfold view, physical_key. by rewrite Hf. Qed.

Lemma write_batch_wrote d ops d' r :
  point_writes ops -> Forall (fun op => ordinary (op_key op)) ops -> write_batch d ops = Done (d', r) ->
  exists a, wrote d d' ops a /\ wrote d (set_db d (db d')) ops a /\ (r = Ok tt -> a = true).
Proof.
  intros Hp Ho Hw. unfold write_batch in Hw.
  destruct (_ || _); [injection Hw as <- <-; exists false; split_and!; (by apply wrote_refl) || done|].
  destruct (check_frontier_puts _ _ _) as [wf|]; [|done]. cbn [mbind outcome_bind] in Hw.
  assert (forall db' d1 (a : bool), same_shape d d1 -> db d1 = db' ->
    contents db' = (if a then apply_ops (contents (db d)) (physical_op d <$> ops) else contents (db d)) ->
    wrote d d1 ops a) as Hk.
  { intros db' d1 a Hsh <- Hc. split; [done|]. intros k Hk. rewrite (view_contents d d1 k Hsh), Hc.
    destruct a; [|done]. rewrite apply_ops_view. unfold view_after. by rewrite view_after_physical. }
  destruct (slate_write _ _) as [db' [[]|e]] eqn:E; injection Hw as <- <-.
  - apply slate_write_ok in E; [|by apply physical_op_points]. exists true.
    destruct wf; split_and!; (by apply (Hk db' _ true)) || done.
  - apply slate_write_err in E; [|by apply physical_op_points]. destruct E as [E|E];
      [exists false; split_and!; [by apply (Hk db' _ false)..|done]|exists true; split_and!; [by apply (Hk db' _ true)..|done]].
Qed.

Lemma flush_wrote d d' r ops : flush d = (d', r) -> wrote d d' ops false.
Proof.
  unfold flush. destruct (fail_flushes d); [intros [= <- _]; apply wrote_refl|].
  destruct (slate_flush (db d)) as [db' r'] eqn:E. intros [= <- _]. apply slate_flush_spec in E.
  split; [done|]. intros k Hk. unfold view. cbn. by rewrite E.
Qed.

Lemma write_attempts_wrote n ops d fates d' fates' r :
  point_writes ops -> Forall (fun op => ordinary (op_key op)) ops -> (n <> 0)%nat ->
  write_attempts n ops d fates = Done (d', fates', r) ->
  exists a, wrote d d' ops a /\ (r = None -> a = true).
Proof.
  intros Hp Ho. revert d fates. induction n as [|n IH]; intros d fates Hn E; [done|]. cbn [write_attempts] in E.
  destruct (write_batch d ops) as [[d1 r1]|] eqn:Ew; [|done]. cbn [mbind outcome_bind] in E.
  destruct (write_batch_wrote _ _ _ _ Hp Ho Ew) as (a & Ha & Ha' & Hr).
  destruct (next_fate fates) as [|applied].
  - destruct r1 as [[]|e]; [injection E as <- _ <-; exists a; auto|].
    destruct (Nat.eqb_spec n 0) as [->|Hn']; [injection E as <- _ <-; exists a; done|].
    destruct (IH d1 (tail fates) Hn' E) as (b & Hb & Hr'). exists (a || b).
    split; [exact (wrote_again d d1 d' ops a b Hp Ha Hb)|]. intros ->. rewrite Hr' by done. apply orb_true_r.
  - injection E as <- _ <-. destruct applied; [by exists a|by exists false].
Qed.

Lemma write_attempts_outcome n ops d fates d' fates' o :
  write_attempts n ops d fates = Done (d', fates', Some o) ->
  (exists e, o = WriteFailed e) \/ (exists e, o = WriteUnknown e).
Proof.
  revert d fates. induction n as [|n IH]; intros d fates E; cbn [write_attempts] in E; [done|].
  destruct (write_batch d ops) as [[d1 r1]|]; [|done]. cbn [mbind outcome_bind] in E.
  destruct (next_fate fates); [|injection E as _ _ <-; eauto].
  destruct r1 as [?|e]; [done|]. destruct (_ =? 0)%nat; [injection E as _ _ <-; eauto|by eapply IH].
Qed.

Lemma flush_attempts_wrote n d fates d' o ops : flush_attempts n d fates = (d', o) -> wrote d d' ops false.
Proof.
  revert d fates. induction n as [|n IH]; intros d fates; cbn [flush_attempts]; [intros [= <- _]; apply wrote_refl|].
  destruct (flush d) as [d1 r] eqn:Ef. pose proof (flush_wrote _ _ _ ops Ef) as [Hs1 H1].
  destruct (match next_fate fates with Completes => _ | TimesOut _ => _ end);
    [destruct (_ =? 0)%nat|]; [by intros [= <- _]| |by intros [= <- _]].
  intros E. destruct (IH _ _ E) as [[Hf Hm] Hv]. destruct Hs1 as [Hf1 Hm1].
  split; [split; congruence|]. intros k Hk. by rewrite Hv, H1.
Qed.
End storage.

(* ------------------------------------------------------------------ *)
(** ** Flights *)

Section flights.
Context `{SlateDbLaws}.
Implicit Types (d : ShardDb) (m : gmap Z Entry).

Definition batches m : gmap Z (list BatchOp) := batch <$> m.

Definition ok_entries m : Prop := map_Forall (fun k e => in_u64 k /\ batch_ok (batch e)) m.

Lemma batches_take_waiters m : batches (take_waiters m) = batches m.
Proof. unfold batches, take_waiters. rewrite <-map_fmap_compose. apply map_fmap_ext. done. Qed.

Lemma ok_take_waiters m : ok_entries m -> ok_entries (take_waiters m).
Proof.
  intros Hm k e. unfold take_waiters. rewrite lookup_fmap. intros (e' & He & ->)%fmap_Some. exact (Hm k e' He).
Qed.

Lemma merged_log m :
  merged_batch m = log_ops (entry_log m) ++
    match last (btree_keys m) with Some l => [Put frontier_key (be_bytes 8 l)] | None => [] end.
Proof.
  unfold merged_batch, log_ops, entry_log. rewrite btree_entries_fmap, <-list_fmap_compose. done.
Qed.

Lemma entry_log_ok m : ok_entries m -> batch_ok (log_ops (entry_log m)).
Proof.
  intros Hm. apply log_ops_ok, Forall_forall. intros [k b] Hin%elem_of_btree_entries. cbn.
  rewrite lookup_fmap in Hin. apply fmap_Some in Hin as (e & He & ->). by apply (Hm k e).
Qed.

Lemma frontier_ordinary : ordinary frontier_key.
Proof. eexists _, _. split; [reflexivity|]. discriminate. Qed.

Lemma merged_ok m : ok_entries m ->
  point_writes (merged_batch m) /\ Forall (fun op => ordinary (op_key op)) (merged_batch m).
Proof.
  intros Hm. destruct (entry_log_ok m Hm) as [Hp Hk]. rewrite merged_log. split; apply Forall_app; split; try done.
  - destruct (last _); by repeat constructor.
  - eapply Forall_impl; [exact Hk|]. by intros ? [? _].
  - destruct (last _); [|constructor]. constructor; [apply frontier_ordinary|constructor].
Qed.

Lemma merged_data m v k : k <> frontier_key ->
  view_after v (merged_batch m) k = view_after v (log_ops (entry_log m)) k.
Proof.
  intros Hk. rewrite merged_log, batches_view_app. apply untouched. destruct (last _) as [l|].
  - rewrite touches_cons. intros [E|(? & []%not_elem_of_nil & _)]. by apply Hk.
  - intros (? & []%not_elem_of_nil & _).
Qed.

Lemma merged_frontier m v l : last (btree_keys m) = Some l ->
  view_after v (merged_batch m) frontier_key = Some (be_bytes 8 l).
Proof.
  intros El. rewrite merged_log, El, batches_view_app. unfold view_after. cbn [foldl]. unfold op_effect at 1.
  by rewrite bool_decide_eq_true_2.
Qed.

(** The effect of a flight on the shard. *)
Lemma persist_wrote d f fates d' o : ok_entries (f_entries f) -> persist d f fates = Done (d', o) ->
  exists a, wrote d d' (merged_batch (f_entries f)) a /\
    (f_source f = PhysicalCommitK.FLIGHT_UNCERTAIN -> a = false) /\
    (f_source f <> PhysicalCommitK.FLIGHT_UNCERTAIN ->
       match o with Durable | FlushUnknown _ => a = true | _ => True end).
Proof.
  intros Hm E. destruct (merged_ok _ Hm) as [Hp Ho]. unfold persist in E.
  destruct (Z.eqb_spec (f_source f) PhysicalCommitK.FLIGHT_UNCERTAIN) as [Hs|Hs]; cbn [negb] in E.
  - change (Done (flush_attempts MAX_GROUP_COMMIT_RETRY_COUNT d fates) = Done (d', o)) in E.
    exists false. split_and!; [exact (flush_attempts_wrote _ _ _ _ _ _ (inj Done _ _ E))|done|done].
  - destruct (write_attempts _ _ _ _) as [[[d1 fates1] r]|] eqn:Ew; [|done]. cbn [mbind outcome_bind] in E.
    destruct (write_attempts_wrote MAX_GROUP_COMMIT_RETRY_COUNT _ _ _ _ _ _ Hp Ho ltac:(done) Ew) as (a & Ha & Hr).
    destruct r as [o'|].
    + injection E as <- <-. exists a. split_and!; [done|done|]. intros _.
      destruct (write_attempts_outcome _ _ _ _ _ _ _ Ew) as [(e & ->)|(e & ->)]; done.
    + rewrite Hr in Ha by done. exists true. split_and!; [|done|by destruct o].
      exact (wrote_again d d1 d' _ true false Hp Ha (flush_attempts_wrote _ _ _ _ _ _ (inj Done _ _ E))).
Qed.
End flights.

(* ------------------------------------------------------------------ *)
(** ** Committed epochs on the shard *)

Section durability.
Context `{SlateDbLaws}.
Implicit Types (d : ShardDb) (m : gmap Z Entry) (g : Group) (D : gmap Z (list BatchOp)).

(** The view of the shard when the group started. *)
Context (v0 : bytes -> option bytes).

Definition data_ok d (log : list (Z * list BatchOp)) : Prop :=
  forall k, ordinary k -> k <> frontier_key -> view d k = view_after v0 (log_ops log) k.

(** Writing a flight over a part of it that may already be there. *)
Lemma wrote_data d d' m log D a :
  ok_entries m -> D ⊆ batches m -> wrote d d' (merged_batch m) a -> data_ok d (log ++ btree_entries D) ->
  data_ok d' (log ++ btree_entries (if a then batches m else D)).
Proof.
  intros Hm HD [_ Hw] Hd k Hk Hf. rewrite Hw by done. destruct a; [|by apply Hd].
  rewrite merged_data by done.
  rewrite (view_after_ext (view d) (view_after (view_after v0 (log_ops log)) (log_ops (btree_entries D))))
    by (rewrite Hd, log_ops_app, batches_view_app by done; done).
  rewrite log_ops_app, batches_view_app.
  apply replayed; [by apply (entry_log_ok m)|]. intros ([k' b] & Hin & Ht)%touches_log. apply touches_log.
  exists (k', b). split; [|done]. apply elem_of_btree_entries in Hin. apply elem_of_btree_entries.
  by eapply lookup_weaken.
Qed.

Lemma stored_view d : stored_epoch d = view d frontier_key ≫= epoch_of.
Proof. unfold stored_epoch, view. by rewrite physical_frontier. Qed.

Lemma wrote_frontier d d' m l a : ok_entries m -> last (btree_keys m) = Some l ->
  wrote d d' (merged_batch m) a -> stored_epoch d' = if a then Some l else stored_epoch d.
Proof.
  intros Hm El [_ Hw]. rewrite !stored_view, Hw by apply frontier_ordinary. destruct a; [|done].
  rewrite (merged_frontier m _ l El). cbn [mbind option_bind]. apply epoch_of_be.
  destruct (last_key_max _ _ El) as [[e He] _]. exact (proj1 (Hm l e He)).
Qed.

(** All of [m] is on the shard, and so is a frontier that covers it. *)
Definition written d m D : Prop :=
  D = batches m /\ exists x, stored_epoch d = Some x /\ forall k, is_Some (m !! k) -> k <= x.

(** Which retained epochs may be on the shard already. *)
Definition doubt_ok (st : State) d (fl : option Flight) D : Prop :=
  match fl with
  | Some f => D ⊆ batches (f_entries f) /\
              (f_source f = PhysicalCommitK.FLIGHT_UNCERTAIN -> written d (f_entries f) D)
  | None =>
      (uncertain st = ∅ -> D ⊆ batches (pending st) /\ (retry_required st = false -> D = ∅)) /\
      (uncertain st <> ∅ -> retry_required st = true /\ D ⊆ batches (uncertain st) /\
         (write_outcome_unknown st = false -> written d (uncertain st) D))
  end.

Record dur_inv g : Prop := {
  di_ok : ok_entries (pending (g_state g)) /\ ok_entries (uncertain (g_state g)) /\
          ok_entries (flight_entries (g_flight g));
  di_log : StronglySorted Z.lt (g_log g).*1 /\
           forall e, e ∈ (g_log g).*1 -> exists c, last_committed (g_state g) = Some c /\ e <= c;
  di_front : forall c, last_committed (g_state g) = Some c ->
               exists x, stored_epoch (g_db g) = Some x /\ c <= x;
  di_data : exists D, doubt_ok (g_state g) (g_db g) (g_flight g) D /\ data_ok (g_db g) (g_log g ++ btree_entries D)
}.

(** Steps that touch none of the fields the invariant speaks about. *)
Lemma dur_inv_same g st' active :
  pending st' = pending (g_state g) -> uncertain st' = uncertain (g_state g) ->
  last_committed st' = last_committed (g_state g) -> retry_required st' = retry_required (g_state g) ->
  write_outcome_unknown st' = write_outcome_unknown (g_state g) -> dur_inv g ->
  dur_inv {| g_state := st'; g_flight := g_flight g; g_db := g_db g; g_active := active; g_log := g_log g |}.
Proof.
  intros E1 E2 E3 E4 E5 [Hok Hlog Hfr (D & HD & Hdata)].
  split; cbn; rewrite ?E1, ?E2, ?E3; try done. exists D. split; [|done].
  unfold doubt_ok in *. by rewrite E1, E2, E4, E5.
Qed.

Lemma stage_fields cfg now st epoch b w st' : stage cfg now st epoch b w = Ok st' ->
  (exists e, pending st' = <[epoch := e]> (pending st) /\ batch e = b) /\ pending st !! epoch = None /\
  uncertain st' = uncertain st /\ last_committed st' = last_committed st /\
  retry_required st' = retry_required st /\ write_outcome_unknown st' = write_outcome_unknown st.
Proof.
  unfold stage. destruct (closing st || retry_required st); [done|].
  destruct (_ || _) eqn:Hs; [done|]. apply orb_false_iff in Hs as [_ Hk%bool_decide_eq_false].
  apply eq_None_not_Some in Hk. destruct (checked _ _ (retained_bytes st + _)); [|done].
  cbn [ok_or mbind result_bind]. destruct (_ <? _); [done|]. destruct (_ <=? _); [done|].
  destruct (checked _ _ (retained_operations st + _)); [|done]. cbn [ok_or mbind result_bind].
  destruct (_ <? _); [done|]. intros [= <-]. split_and!; try done. by eexists.
Qed.

Lemma stage_dur cfg now g epoch b w st' active : in_u64 epoch -> batch_ok b ->
  stage cfg now (g_state g) epoch b w = Ok st' -> dur_inv g ->
  dur_inv {| g_state := st'; g_flight := g_flight g; g_db := g_db g; g_active := active; g_log := g_log g |}.
Proof.
  intros He Hb E [(Hp & Hu & Hf) Hlog Hfr (D & HD & Hdata)].
  destruct (stage_fields _ _ _ _ _ _ _ E) as ((e & Ep & Eb) & Hk & Eu & El & Er & Ew).
  split; cbn; rewrite ?Eu, ?El; try done.
  - split_and!; [|done..]. rewrite Ep. apply map_Forall_insert_2; [|done]. by rewrite Eb.
  - exists D. split; [|done]. unfold doubt_ok in *. rewrite Eu, Er, Ew. destruct (g_flight g); [done|].
    destruct HD as [HD1 HD2]. split; [|done]. intros Hu0. destruct (HD1 Hu0) as [Hsub Hr]. split; [|done].
    rewrite Ep. unfold batches. rewrite fmap_insert. etrans; [exact Hsub|]. apply insert_subseteq.
    by rewrite lookup_fmap, Hk.
Qed.

Lemma begin_dur cfg now g st' sent fl : g_flight g = None ->
  drive_begin cfg now (g_state g) = Done (st', sent, fl) -> dur_inv g ->
  dur_inv {| g_state := st'; g_flight := fl; g_db := g_db g; g_active := g_active g; g_log := g_log g |}.
Proof.
  intros Hfl E Hi. destruct (drive_begin_spec cfg now (g_state g)) as (st1 & sent1 & fl1 & E1 & Hsp).
  rewrite E1 in E. injection E as -> -> ->. destruct fl as [f|].
  2:{ destruct Hsp as [rs ->]. rewrite <-Hfl. by apply dur_inv_same. }
  destruct Hi as [(Hp & Hu & _) Hlog Hfr (D & HD & Hdata)]. rewrite Hfl in HD. destruct HD as [HD1 HD2].
  destruct Hsp as (Hwu & fu & Hne & Hsrc & Hent & _ & ->).
  split; cbn [g_state g_flight g_db g_log set_flight pending uncertain last_committed flight_entries]; try done.
  - rewrite Hent. destruct fu; split_and!; try done; apply map_Forall_empty.
  - exists D. split; [|done]. cbn [doubt_ok]. rewrite Hent, Hsrc. destruct fu.
    + destruct (HD2 Hne) as (_ & Hsub & Heq). split; [done|]. intros _. by apply Heq.
    + destruct Hne as [Hu0 _]. destruct (HD1 Hu0) as [Hsub _]. by split.
Qed.

(** What a flight leaves on the shard. *)
Lemma flight_data cfg g f fates d' o l :
  commit_inv cfg (g_state g) (Some f) -> g_flight g = Some f -> last (btree_keys (f_entries f)) = Some l ->
  persist (g_db g) f fates = Done (d', o) -> dur_inv g ->
  exists D, D ⊆ batches (f_entries f) /\ data_ok d' (g_log g ++ btree_entries D) /\
    (match o with Durable | FlushUnknown _ => written d' (f_entries f) D | _ => True end) /\
    (forall c, last_committed (g_state g) = Some c -> exists x, stored_epoch d' = Some x /\ c <= x).
Proof.
  intros Hci Hfl El Ep [(_ & _ & Hok) _ Hfr (D & HD & Hdata)]. rewrite Hfl in HD, Hok. cbn [doubt_ok flight_entries] in *.
  destruct HD as [Hsub Hwr]. destruct (persist_wrote _ _ _ _ _ Hok Ep) as (a & Hw & Hunc & Hpend).
  pose proof (wrote_frontier _ _ _ _ _ Hok El Hw) as Hst. destruct (last_key_max _ _ El) as [Hl Hmax].
  destruct (ci_flight _ _ _ Hci f eq_refl) as (_ & _ & Hsrc).
  exists (if a then batches (f_entries f) else D). split_and!.
  - by destruct a.
  - by eapply wrote_data.
  - destruct Hsrc as [Hs|Hs].
    + specialize (Hpend ltac:(by rewrite Hs)). destruct o; try done; subst a; (split; [done|]); by exists l.
    + rewrite (Hunc Hs) in Hst |- *. destruct (Hwr Hs) as [ED (x & Ex & Hx)].
      assert (written d' (f_entries f) D) by (split; [done|]; exists x; by rewrite Hst). by destruct o.
  - intros c Ec. rewrite Hst. destruct a; [|by apply Hfr]. exists l. split; [done|].
    destruct (ci_committed _ _ _ Hci c Ec) as [_ Hlt]. specialize (Hlt l ltac:(by right; left)). lia.
Qed.

Lemma take_waiters_nonempty m l : is_Some (m !! l) -> take_waiters m <> ∅.
Proof. intros Hl E. apply take_waiters_key in Hl. rewrite E in Hl. by apply (no_key l). Qed.

Lemma written_take_waiters d m D : written d m D -> written d (take_waiters m) D.
Proof.
  intros [-> (x & Ex & Hx)]. split; [by rewrite batches_take_waiters|]. exists x. split; [done|].
  intros k Hk. apply Hx. by apply take_waiters_key.
Qed.

(** The log grows by later epochs. *)
Lemma log_extend cfg g f l :
  commit_inv cfg (g_state g) (Some f) -> last (btree_keys (f_entries f)) = Some l ->
  StronglySorted Z.lt (g_log g).*1 ->
  (forall e, e ∈ (g_log g).*1 -> exists c, last_committed (g_state g) = Some c /\ e <= c) ->
  StronglySorted Z.lt (g_log g ++ entry_log (f_entries f)).*1 /\
  forall e, e ∈ (g_log g ++ entry_log (f_entries f)).*1 -> exists c, Some l = Some c /\ e <= c.
Proof.
  intros Hci El Hs Hle. destruct (last_key_max _ _ El) as [Hl Hmax].
  assert ((entry_log (f_entries f)).*1 = btree_keys (f_entries f)) as Ek.
  { unfold entry_log, btree_keys. rewrite btree_entries_fmap, <-list_fmap_compose. done. }
  rewrite fmap_app, Ek. assert (forall x y, x ∈ (g_log g).*1 -> is_Some (f_entries f !! y) -> x < y) as Hlt.
  { intros x y (c & Ec & Hx)%Hle Hy. destruct (ci_committed _ _ _ Hci c Ec) as [_ Hk].
    specialize (Hk y ltac:(by right; left)). lia. }
  split.
  - apply sorted_app; [done|apply btree_keys_sorted|]. intros x y Hx Hy%elem_of_btree_keys. by apply Hlt.
  - intros e [He|He%elem_of_btree_keys]%elem_of_app; exists l; (split; [done|]); [|by apply Hmax].
    specialize (Hlt e l He Hl). lia.
Qed.

Lemma ok_union m m' : ok_entries m -> ok_entries m' -> ok_entries (m ∪ m').
Proof. apply map_Forall_union_2. Qed.

Lemma batches_union m m' : batches (m ∪ m') = batches m ∪ batches m'.
Proof. apply map_fmap_union. Qed.

Lemma end_dur cfg g f fates d' o st' sent : config_ok cfg ->
  commit_inv cfg (g_state g) (Some f) -> g_flight g = Some f ->
  persist (g_db g) f fates = Done (d', o) -> finish (g_state g) f o = Done (st', sent) -> dur_inv g ->
  dur_inv {| g_state := st'; g_flight := None; g_db := d'; g_active := g_active g;
             g_log := match o with Durable => g_log g ++ entry_log (f_entries f) | _ => g_log g end |}.
Proof.
  intros Hcfg Hci Hfl Ep E Hi. destruct (finish_spec cfg _ f Hcfg Hci o) as (l & El & E').
  { intros e. by eapply persist_failed. }
  rewrite E' in E. injection E as <- _.
  destruct (flight_data _ _ _ _ _ _ _ Hci Hfl El Ep Hi) as (D & Hsub & Hdata & Hwr & Hfr).
  destruct Hi as [(Hp & Hu & Hok) [Hs Hle] _ _]. rewrite Hfl in Hok. cbn [flight_entries] in Hok.
  destruct (ci_flight _ _ _ Hci f eq_refl) as (_ & Hu0 & _). pose proof (ok_take_waiters _ Hok) as Htw.
  pose proof (batches_take_waiters (f_entries f)) as Hbt. destruct (last_key_max _ _ El) as [Hl Hmax].
  destruct o as [|e|e|e]; split; cbn [g_state g_flight g_db g_log drop_requests set_requests settled settle pending
    uncertain last_committed flight_entries]; rewrite ?Hu0, ?map_union_empty; try done;
    try (split_and!; try done; apply map_Forall_empty || by apply ok_union).
  - apply (log_extend cfg); done.
  - intros c [= <-]. destruct Hwr as [_ (x & Ex & Hx)]. exists x. split; [done|by apply Hx].
  - exists ∅. split.
    + split; [|done]. intros _. split; [apply map_empty_subseteq|done].
    + destruct Hwr as [-> _]. rewrite btree_entries_empty, app_nil_r. done.
  - exists D. split; [|done]. split; [|done]. intros _. split; [|done].
    cbn [pending drop_requests set_requests settled settle]. rewrite batches_union, Hbt. etrans; [exact Hsub|]. apply map_union_subseteq_l.
  - exists D. split; [|done]. split; cbn [uncertain drop_requests set_requests settled settle retry_required
      write_outcome_unknown]; rewrite ?Hu0, ?map_union_empty.
    + intros Hz. exfalso. by apply (take_waiters_nonempty (f_entries f) l).
    + intros _. split_and!; [done|by rewrite Hbt|]. intros _. by apply written_take_waiters.
  - exists D. split; [|done]. split; cbn [uncertain drop_requests set_requests settled settle retry_required
      write_outcome_unknown]; rewrite ?Hu0, ?map_union_empty.
    + intros Hz. exfalso. by apply (take_waiters_nonempty (f_entries f) l).
    + intros _. split_and!; [done|by rewrite Hbt|done].
Qed.

Lemma drop_dur cfg g f fates d' st' sent : config_ok cfg ->
  commit_inv cfg (g_state g) (Some f) -> g_flight g = Some f ->
  d' = g_db g \/ (exists o, persist (g_db g) f fates = Done (d', o)) ->
  drop_flight (g_state g) f = Done (st', sent) -> dur_inv g ->
  dur_inv {| g_state := st'; g_flight := None; g_db := d'; g_active := g_active g; g_log := g_log g |}.
Proof.
  intros Hcfg Hci Hfl Hd E Hi. destruct (drop_spec cfg _ f Hcfg Hci) as (l & El & E').
  rewrite E' in E. injection E as <- _.
  assert (exists D, D ⊆ batches (f_entries f) /\ data_ok d' (g_log g ++ btree_entries D) /\
    (forall c, last_committed (g_state g) = Some c -> exists x, stored_epoch d' = Some x /\ c <= x))
    as (D & Hsub & Hdata & Hfr).
  { destruct Hd as [->|[o Ep]].
    - destruct Hi as [_ _ Hfr (D & HD & Hdata)]. rewrite Hfl in HD. exists D. by destruct HD.
    - destruct (flight_data _ _ _ _ _ _ _ Hci Hfl El Ep Hi) as (D & ? & ? & _ & ?). by exists D. }
  destruct Hi as [(Hp & Hu & Hok) Hlog _ _]. rewrite Hfl in Hok. cbn [flight_entries] in Hok.
  destruct (ci_flight _ _ _ Hci f eq_refl) as (_ & Hu0 & _). destruct (last_key_max _ _ El) as [Hl _].
  split; cbn [g_state g_flight g_db g_log drop_requests set_requests settled settle pending
    uncertain last_committed flight_entries]; rewrite ?Hu0, ?map_union_empty; try done.
  - split_and!; [done|by apply ok_take_waiters|apply map_Forall_empty].
  - exists D. split; [|done]. split; cbn [uncertain drop_requests set_requests settled settle retry_required
      write_outcome_unknown]; rewrite ?Hu0, ?map_union_empty.
    + intros Hz. exfalso. by apply (take_waiters_nonempty (f_entries f) l).
    + intros _. split_and!; [done|by rewrite batches_take_waiters|done].
Qed.

(** A step that stages only admissible batches. *)
Definition dur_step cfg g g' : Prop :=
  (exists sent, group_step cfg g sent g') /\
  map_Forall (fun _ e => batch_ok (batch e)) (pending (g_state g')).

Lemma dur_step_inv cfg g g' : config_ok cfg -> dur_step cfg g g' -> group_inv cfg g -> dur_inv g -> dur_inv g'.
Proof.
  intros Hcfg [[sent Hst] Hb] [Hci _] Hi.
  assert (forall now epoch b w st', stage cfg now (g_state g) epoch b w = Ok st' ->
    map_Forall (fun _ e => batch_ok (batch e)) (pending st') -> batch_ok b) as Hbok.
  { intros now epoch b w st' E Hall. destruct (stage_fields _ _ _ _ _ _ _ E) as ((e & Ep & <-) & _).
    apply (Hall epoch e). rewrite Ep. apply lookup_insert_eq. }
  destruct Hst as [g now epoch b st' He E|g now epoch b a st' He Ea E|g a st' id Ea E|g id|
    g Hpos|g|g now st' sent fl Hf E|g f fates d' o st' sent Hf Ep E|g f fates d' st' sent Hf Hd E].
  - eapply stage_dur; [done|by eapply Hbok|done|done].
  - eapply stage_dur; [done|by eapply Hbok|done|done].
  - unfold request_flush in E. destruct (checked _ _ _); [|done]. injection E as <- _. by apply dur_inv_same.
  - by apply dur_inv_same.
  - by apply dur_inv_same.
  - by apply dur_inv_same.
  - by eapply begin_dur.
  - rewrite Hf in Hci. by eapply end_dur.
  - rewrite Hf in Hci. by eapply drop_dur.
Qed.

Lemma dur_steps_inv cfg g0 g : config_ok cfg -> rtc (dur_step cfg) g0 g -> group_inv cfg g0 -> dur_inv g0 ->
  group_inv cfg g /\ dur_inv g.
Proof.
  intros Hcfg. induction 1 as [|g g1 g2 Hs _ IH]; intros Hg Hi; [done|]. pose proof Hs as [[sent Hs'] _].
  apply IH; [by destruct (group_step_inv _ _ _ _ Hcfg Hs' Hg)|by eapply dur_step_inv].
Qed.
End durability.

Section theorems.
Context `{SlateDbLaws}.
Implicit Types g : Group.

Lemma opened_frontier d0 d v : get d0 frontier_key = Done (d, Ok (Some v)) -> length v = 8%nat ->
  stored_epoch d = Some (of_be v).
Proof.
  unfold get. intros E Hl. destruct (read_value d0 frontier_key) as [o|] eqn:Er; [|done].
  apply read_frontier in Er. destruct (observe_frontier _ _ _) as [d1|] eqn:Eo; [|done].
  injection E as -> ->. assert (db d = db d0) as Edb.
  { unfold observe_frontier in Eo. repeat case_match; try done; by injection Eo as <-. }
  unfold stored_epoch. rewrite Edb, <-Er. cbn. unfold epoch_of. by rewrite Hl.
Qed.

Lemma started_dur g : group_started g -> g_log g = [] -> dur_inv (view (g_db g)) g.
Proof.
  intros (Hf & _ & Hs) Hlog.
  assert (exists fr, g_state g = state_recovered fr /\
    forall c, fr = Some c -> exists x, stored_epoch (g_db g) = Some x /\ c <= x) as (fr & Est & Hfr).
  { destruct Hs as [->|(d0 & t & E)]; [by exists None|]. unfold group_open in E. destruct t; [done|].
    destruct (get d0 frontier_key) as [[d1 r]|] eqn:Eg; [|done]. cbn [mbind outcome_bind] in E.
    destruct r as [[v|]|]; [| |done].
    - destruct (Nat.eqb_spec (length v) 8) as [Hl|]; [|done]. injection E as <- <-. eexists. split; [done|].
      intros c [= <-]. rewrite (opened_frontier _ _ _ Eg Hl). eexists. split; [done|lia].
    - injection E as <- <-. by exists None. }
  split; rewrite ?Hf, ?Est, ?Hlog; cbn.
  - split_and!; apply map_Forall_empty.
  - split; [constructor|]. by intros e ?%not_elem_of_nil.
  - exact Hfr.
  - exists ∅. split.
    + split; [|done]. intros _. split; [apply map_empty_subseteq|done].
    + rewrite btree_entries_empty. done.
Qed.

(** The replies of the driver's decision acknowledge nothing. *)
Lemma begin_replies cfg now st st' sent fl : drive_begin cfg now st = Done (st', sent, fl) ->
  Forall (fun rp => exists id r, rp = FlushReply id r /\ (r = Err OutcomeUnknown \/ r = Ok [])) sent.
Proof.
  unfold drive_begin.
  assert (forall s r, r = Err OutcomeUnknown \/ r = Ok [] ->
    Forall (fun rp => exists id r, rp = FlushReply id r /\ (r = Err OutcomeUnknown \/ r = Ok [])) (answer_all s r).2) as Ha.
  { intros s r Hr. cbn. apply Forall_fmap, Forall_forall. intros id _. by exists id, r. }
  destruct (if _ && _ then _ else _) as [st1 sent1] eqn:E1.
  assert (Forall (fun rp => exists id r, rp = FlushReply id r /\ (r = Err OutcomeUnknown \/ r = Ok [])) sent1) as H1.
  { destruct (_ && _) in E1; injection E1 as <- <-; [apply (Ha st); by left|constructor]. }
  destruct (_ && _ && _).
  { destruct (PhysicalCommitK.begin_owner _ _ _); [|done]. by intros [= _ <- _]. }
  destruct (_ && _ && _); intros [= _ <- _]; [|done]. apply Forall_app. split; [done|]. apply (Ha st1). by right.
Qed.

Lemma epoch_replies_elem m r rp : rp ∈ epoch_replies m r -> exists e, rp = EpochReply e r /\ is_Some (m !! e).
Proof.
  unfold epoch_replies. intros ([k e] & Hin%elem_of_btree_entries & E)%list_elem_of_omap. cbn in E.
  destruct (waiter e); [|done]. injection E as <-. exists k. split; [done|by eexists].
Qed.

Lemma flush_replies_elem st ids r rp : rp ∈ flush_replies st ids r -> exists id, rp = FlushReply id r.
Proof. unfold flush_replies. intros (id & -> & _)%list_elem_of_fmap. by exists id. Qed.

Lemma entry_log_keys m e : e ∈ (entry_log m).*1 <-> is_Some (m !! e).
Proof.
  unfold entry_log. change ((btree_entries (batch <$> m)).*1) with (btree_keys (batch <$> m)).
  by rewrite elem_of_btree_keys, lookup_fmap, fmap_is_Some.
Qed.

(** A reply that acknowledges an epoch comes with its entry in the log. *)
Definition acks (rp : Reply) (e : Epoch) : Prop :=
  match rp with
  | EpochReply e' (Ok _) => e' = e
  | FlushReply _ (Ok es) => e ∈ es
  | _ => False
  end.

Lemma step_acks cfg g sent g' rp e : config_ok cfg -> group_inv cfg g -> group_step cfg g sent g' ->
  rp ∈ sent -> acks rp e -> e ∈ (g_log g').*1.
Proof.
  intros Hcfg [Hci _] Hst Hin Hack. destruct Hst as [| | | | | |g now st' sent fl Hf E|g f fates d' o st' sent Hf Ep E|
    g f fates d' st' sent Hf Hd E]; try by apply not_elem_of_nil in Hin.
  - apply begin_replies in E. rewrite Forall_forall in E. destruct (E rp Hin) as (id & r & -> & [->| ->]); [done|].
    by apply not_elem_of_nil in Hack.
  - rewrite Hf in Hci. destruct (finish_spec cfg _ f Hcfg Hci o) as (l & El & E').
    { intros x. by eapply persist_failed. }
    rewrite E' in E. injection E as _ <-. cbn [g_log].
    apply elem_of_app in Hin as [(k & -> & Hk)%epoch_replies_elem|(id & ->)%flush_replies_elem];
      destruct o; cbn in Hack; try done; rewrite fmap_app; apply elem_of_app; right; apply entry_log_keys.
    + by rewrite <-Hack.
    + by apply elem_of_btree_keys.
  - rewrite Hf in Hci. destruct (drop_spec cfg _ f Hcfg Hci) as (l & El & E').
    rewrite E' in E. injection E as _ <-.
    by apply elem_of_app in Hin as [(k & -> & Hk)%epoch_replies_elem|(id & ->)%flush_replies_elem].
Qed.

(** The batch of an epoch the group still holds. *)
Definition retained_batch g (e : Epoch) (b : list BatchOp) : Prop :=
  exists en, batch en = b /\
    (pending (g_state g) !! e = Some en \/ uncertain (g_state g) !! e = Some en \/
     flight_entries (g_flight g) !! e = Some en).

Lemma batches_lookup (m : gmap Z Entry) D e b : D ⊆ batches m -> D !! e = Some b ->
  exists en, m !! e = Some en /\ batch en = b.
Proof.
  intros Hsub Hb. eapply lookup_weaken in Hb; [|done]. unfold batches in Hb. rewrite lookup_fmap in Hb.
  apply fmap_Some in Hb as (en & ? & ->). by exists en.
Qed.

(** C1: An acknowledged epoch is durable, and the shard holds exactly the
    committed epochs.  For batches of point writes, in any interleaving of
    staging, flights, retried writes, ambiguous storage errors, timeouts and
    cancelled drivers: the log of committed epochs is strictly increasing; a
    caller is told that an epoch committed only if it is in the log; the
    frontier stored in the shard covers every epoch of the log; and the data of
    the shard is what it was at the start with the batches of the log applied in
    epoch order, followed by those of epochs in doubt, all of which the group
    still retains, and none of which exist when no flight is out and no retry is
    required. *)
Theorem committed_epochs_durable cfg g0 g :
  config_ok cfg -> group_started g0 -> g_log g0 = [] -> rtc (dur_step cfg) g0 g ->
  StronglySorted Z.lt (g_log g).*1 /\
  (forall sent g' rp e, group_step cfg g sent g' -> rp ∈ sent -> acks rp e -> e ∈ (g_log g').*1) /\
  (forall e, e ∈ (g_log g).*1 -> exists x, stored_epoch (g_db g) = Some x /\ e <= x) /\
  exists D : gmap Z (list BatchOp),
    (forall e b, D !! e = Some b -> retained_batch g e b) /\
    (g_flight g = None -> retry_required (g_state g) = false -> D = ∅) /\
    forall k, ordinary k -> k <> frontier_key ->
      view (g_db g) k = view_after (view (g_db g0)) (log_ops (g_log g ++ btree_entries D)) k.
Proof.
  intros Hcfg Hs Hlog Hr.
  destruct (dur_steps_inv (view (g_db g0)) _ _ _ Hcfg Hr (started_inv _ _ Hcfg Hs) (started_dur _ Hs Hlog)) as [Hg Hi].
  pose proof Hi as [_ [Hsort Hle] Hfr (D & HD & Hdata)]. split_and!; [done| | |].
  - intros. by eapply step_acks.
  - intros e (c & Ec & Hec)%Hle. destruct (Hfr c Ec) as (x & Ex & Hx). exists x. split; [done|lia].
  - exists D. split_and!; [| |exact Hdata].
    + intros e b Hb. unfold retained_batch, doubt_ok in *. destruct (g_flight g) as [f|] eqn:Hf.
      * destruct (batches_lookup _ _ _ _ (proj1 HD) Hb) as (en & Hen & Eb). exists en. auto.
      * destruct HD as [HD1 HD2]. destruct (decide (uncertain (g_state g) = ∅)) as [Hu|Hu].
        -- destruct (batches_lookup _ _ _ _ (proj1 (HD1 Hu)) Hb) as (en & Hen & Eb). exists en. auto.
        -- destruct (batches_lookup _ _ _ _ (proj1 (proj2 (HD2 Hu))) Hb) as (en & Hen & Eb). exists en. auto.
    + intros Hf Hret. rewrite Hf in HD. destruct HD as [HD1 HD2].
      destruct (decide (uncertain (g_state g) = ∅)) as [Hu|Hu]; [by apply (HD1 Hu)|].
      destruct (HD2 Hu) as [Hx _]. congruence.
Qed.
End theorems.

(* ------------------------------------------------------------------ *)
(** ** Draining a group *)

Section shutdown.
Context `{SlateDb}.

(** The reply to one flush request among the messages of a turn. *)
Fixpoint reply_of (id : Z) (sent : list Reply) : option (result Diagnostic (list Epoch)) :=
  match sent with
  | [] => None
  | FlushReply i r :: rest => if i =? id then Some r else reply_of id rest
  | EpochReply _ _ :: rest => reply_of id rest
  end.

(** [flush] of a caller while no flight is out: the request is registered, the
    driver takes one turn, and the request is dropped when the call returns.
    [None] would be a caller left waiting. *)
Definition flush_call (cfg : Config) (now : Z) (fates : list Fate) (active : Z) (st : State) (d : ShardDb)
    : outcome (State * ShardDb * result CommitError (option (result Diagnostic (list Epoch)))) :=
  match waiter_acquire active with
  | Err e => Done (st, d, Err e)
  | Ok _ =>
      match request_flush st with
      | Err e => Done (st, d, Err e)
      | Ok (st1, id) =>
          '(st2, d2, sent) ← drive_turn cfg now st1 d fates;
          Done (drop_request st2 id, d2, Ok (reply_of id sent))
      end
  end.

Inductive ShutdownError : Type :=
| ShutdownRefused (e : CommitError)
| ShutdownFailed (e : Diagnostic).

(** The loop of [shutdown]; turn [n] runs at time [now n] with the storage
    behaving as [fates n] says.  The outer [None] is a loop that has not ended. *)
Fixpoint drain (fuel : nat) (cfg : Config) (now : nat -> Z) (fates : nat -> list Fate) (active : Z)
    (st : State) (d : ShardDb) : outcome (State * ShardDb * option (result ShutdownError unit)) :=
  if retained_epochs st =? 0 then Done (st, d, Some (Ok tt))
  else
    match fuel with
    | O => Done (st, d, None)
    | S n =>
        '(st', d', r) ← flush_call cfg (now n) (fates n) active st d;
        match r with
        | Err e => Done (st', d', Some (Err (ShutdownRefused e)))
        | Ok None => Done (st', d', None)
        | Ok (Some (Err e)) => Done (st', d', Some (Err (ShutdownFailed e)))
        | Ok (Some (Ok _)) => drain n cfg now fates active st' d'
        end
    end.

Definition shutdown (fuel : nat) (cfg : Config) (now : nat -> Z) (fates : nat -> list Fate) (active : Z)
    (st : State) (d : ShardDb) : outcome (State * ShardDb * option (result ShutdownError unit)) :=
  drain fuel cfg now fates active (set_closing st) d.

Lemma reply_of_app id l l' : reply_of id (l ++ l') =
  match reply_of id l with Some r => Some r | None => reply_of id l' end.
Proof.
  induction l as [|[e r|i r] l IH]; [done|apply IH|]. cbn. destruct (i =? id); [done|apply IH].
Qed.

Lemma reply_of_epochs id m r : reply_of id (epoch_replies m r) = None.
Proof.
  unfold epoch_replies. induction (btree_entries m) as [|[k e] l IH]; [done|]. cbn. by destruct (waiter e).
Qed.

Lemma reply_of_flush id ids r : id ∈ ids -> reply_of id ((fun i => FlushReply i r) <$> ids) = Some r.
Proof.
  induction ids as [|i ids IH]; [by intros ?%not_elem_of_nil|]. intros Hin. rewrite fmap_cons. cbn.
  destruct (Z.eqb_spec i id); [done|]. apply IH. by apply elem_of_cons in Hin as [->|].
Qed.

Lemma reply_of_flight id st ids r : id ∈ ids -> id ∈ requests st -> reply_of id (flush_replies st ids r) = Some r.
Proof. intros Hin Hr. apply reply_of_flush, list_elem_of_filter. done. Qed.

(** What a turn decides when a request is open. *)
Lemma begin_requested cfg now st id : id ∈ requests st ->
  exists st' sent fl, drive_begin cfg now st = Done (st', sent, fl) /\
    match fl with
    | Some f => flight_turn st st' f /\ sent = []
    | None => idle_turn st st' /\
              ((exists e, reply_of id sent = Some (Err e)) \/
               (reply_of id sent = Some (Ok []) /\ pending st = ∅ /\ uncertain st = ∅))
    end.
Proof.
  intros Hid. destruct (drive_begin_spec cfg now st) as (st1 & sent1 & fl1 & E1 & Hsp).
  exists st1, sent1, fl1. split; [done|]. unfold drive_begin in E1.
  assert (bool_decide (requests st = ∅) = false) as Hreq by (apply bool_decide_eq_false_2; set_solver).
  rewrite Hreq in E1. destruct (write_outcome_unknown st) eqn:Hu; cbn [andb negb answer_all] in E1.
  - cbn [write_outcome_unknown set_requests requests] in E1. rewrite Hu, andb_false_r in E1. cbn [negb] in E1.
    rewrite bool_decide_eq_true_2 in E1 by done. cbn [negb andb] in E1. injection E1 as <- <- <-.
    split; [done|]. left. exists OutcomeUnknown. apply reply_of_flush. by apply elem_of_elements.
  - rewrite Hreq, Hu in E1. cbn [negb orb andb] in E1. rewrite andb_true_r in E1.
    destruct (negb (bool_decide (pending st = ∅)) || negb (bool_decide (uncertain st = ∅))) eqn:Hne.
    + destruct (PhysicalCommitK.begin_owner _ _ _); [|done]. injection E1 as <- <- <-. done.
    + apply orb_false_iff in Hne as [Hp%negb_false_iff Hn%negb_false_iff]. rewrite Hp, Hn in E1.
      cbn [andb] in E1. injection E1 as <- <- <-. apply bool_decide_eq_true in Hp, Hn.
      split; [done|]. right. split; [|done]. apply reply_of_flush. by apply elem_of_elements.
Qed.

Definition held (st : State) (e : Epoch) : Prop := is_Some (pending st !! e) \/ is_Some (uncertain st !! e).

(** No epoch is lost: it is still held or the frontier has passed it. *)
Definition conserved (st st' : State) : Prop :=
  frontier_le st st' /\
  forall e, held st e -> held st' e \/ exists c, last_committed st' = Some c /\ e <= c.

Lemma conserved_trans st1 st2 st3 : conserved st1 st2 -> conserved st2 st3 -> conserved st1 st3.
Proof.
  intros [F1 H1] [F2 H2]. split.
  - intros c Hc. destruct (F1 c Hc) as (c' & Hc' & ?). destruct (F2 c' Hc') as (c'' & ? & ?).
    exists c''. split; [done|lia].
  - intros e He. destruct (H1 e He) as [He'|(c & Hc & ?)]; [by apply H2|].
    destruct (F2 c Hc) as (c' & ? & ?). right. exists c'. split; [done|lia].
Qed.

Lemma conserved_same st st' : pending st' = pending st -> uncertain st' = uncertain st ->
  last_committed st' = last_committed st -> conserved st st'.
Proof.
  intros E1 E2 E3. split; [by apply frontier_le_same|]. intros e He. left. unfold held. by rewrite E1, E2.
Qed.

Lemma settled_conserved cfg st f o l : commit_inv cfg st (Some f) -> last (btree_keys (f_entries f)) = Some l ->
  frontier_le st (settled st f o l) /\
  forall e, is_Some (f_entries f !! e) \/ held st e ->
    held (settled st f o l) e \/ exists c, last_committed (settled st f o l) = Some c /\ e <= c.
Proof.
  intros Hci El. destruct (last_key_max _ _ El) as [Hl Hmax]. destruct (flight_last cfg st f Hci) as (l' & El' & Hlt).
  rewrite El in El'. injection El' as <-. split.
  - intros c Hc. specialize (Hlt c Hc).
    destruct o; [exists l; split; [done|lia]|exists c; split; [done|lia]..].
  - intros e He. unfold held in *. destruct o; cbn [settled settle pending uncertain last_committed];
      rewrite ?lookup_union_is_Some, ?take_waiters_key; [|tauto..].
    destruct He as [He|He]; [right; exists l; auto|tauto].
Qed.

Lemma finish_flight cfg st f ids : config_ok cfg -> commit_inv cfg st (Some f) -> f_requests f = ids ->
  forall (fin : outcome (State * list Reply)) o id, id ∈ ids -> id ∈ requests st ->
  (exists l, last (btree_keys (f_entries f)) = Some l /\
     fin = Done (drop_requests (settled st f o l) (f_requests f),
       epoch_replies (f_entries f) (match outcome_result f o with Ok _ => Ok tt | Err e => Err e end) ++
       flush_replies st (f_requests f) (outcome_result f o))) ->
  exists st' sent, fin = Done (st', sent) /\ reply_of id sent = Some (outcome_result f o) /\ commit_inv cfg st' None /\
    (frontier_le st st' /\ forall e, is_Some (f_entries f !! e) \/ held st e ->
       held st' e \/ exists c, last_committed st' = Some c /\ e <= c) /\
    (forall es, outcome_result f o = Ok es -> uncertain st' = ∅ /\ pending st' = pending st).
Proof.
  intros Hcfg Hci <- fin o id Hid Hreq (l & El & ->). eexists _, _. split; [done|]. split_and!.
  - rewrite reply_of_app, reply_of_epochs. by apply reply_of_flight.
  - by apply requests_inv, (settled_inv cfg).
  - exact (proj1 (settled_conserved cfg st f o l Hci El)).
  - exact (proj2 (settled_conserved cfg st f o l Hci El)).
  - intros es Hes. destruct o; try done. cbn. by destruct (ci_flight _ _ _ Hci f eq_refl) as (_ & -> & _).
Qed.

(** One turn of the driver answers every open request, loses nothing, and a
    positive answer means that one of the two maps has been emptied. *)
Lemma turn_spec cfg now st d fates id : config_ok cfg -> commit_inv cfg st None -> id ∈ requests st ->
  exists st' d' sent r, drive_turn cfg now st d fates = Done (st', d', sent) /\ reply_of id sent = Some r /\
    commit_inv cfg st' None /\ conserved st st' /\
    (forall es, r = Ok es -> uncertain st' = ∅ /\ (uncertain st = ∅ -> pending st' = ∅)).
Proof.
  intros Hcfg Hci Hid. destruct (begin_requested cfg now st id Hid) as (st1 & sent1 & fl & E1 & Hsp).
  unfold drive_turn. rewrite E1. cbn [mbind outcome_bind]. destruct (begin_inv _ _ _ _ _ _ E1 Hci) as [Hci1 El1].
  destruct fl as [f|].
  - destruct Hsp as [(_ & fu & Hne & Hsrc & Hent & Hrq & Est1) ->].
    assert (id ∈ elements (requests st)) as Hin by (by apply elem_of_elements).
    assert (id ∈ requests st1) as Hid1 by (by rewrite Est1).
    assert (forall e, held st e -> is_Some (f_entries f !! e) \/ held st1 e) as Hsplit.
    { intros e He. unfold held in *. rewrite Hent, Est1. cbn [pending uncertain set_flight]. destruct fu; tauto. }
    assert (exists st' d' sent o, match persist d f fates with
        | Done (d', o) => '(st', sent') ← finish st1 f o; Done (st', d', sent')
        | Panic => '(st', sent') ← drop_flight st1 f; Done (st', d, sent')
        end = Done (st', d', sent) /\ reply_of id sent = Some (outcome_result f o) /\ commit_inv cfg st' None /\
        (frontier_le st1 st' /\ forall e, is_Some (f_entries f !! e) \/ held st1 e ->
           held st' e \/ exists c, last_committed st' = Some c /\ e <= c) /\
        (forall es, outcome_result f o = Ok es -> uncertain st' = ∅ /\ pending st' = pending st1))
      as (st' & d' & sent & o & -> & Hrep & Hci' & [Hfl Hcons] & Hok).
    { destruct (persist d f fates) as [[d' o]|] eqn:Ep.
      - destruct (finish_flight cfg st1 f _ Hcfg Hci1 Hrq (finish st1 f o) o id Hin Hid1) as (st' & sent & -> & Hx).
        { apply (finish_spec cfg); [done..|]. intros e. by eapply persist_failed. }
        by exists st', d', sent, o.
      - destruct (finish_flight cfg st1 f _ Hcfg Hci1 Hrq (drop_flight st1 f) (WriteUnknown DriverStopped) id Hin Hid1)
          as (st' & sent & -> & Hx); [by apply (drop_spec cfg)|].
        by exists st', d, sent, (WriteUnknown DriverStopped). }
    cbn [mbind outcome_bind app]. exists st', d', sent, (outcome_result f o). split_and!; [done|done|done| |].
    + split; [intros c Hc; apply Hfl; by rewrite El1|]. intros e He. by apply Hcons, Hsplit.
    + intros es Hes. destruct (Hok es Hes) as [Hu Hp]. split; [done|]. intros Hu0. rewrite Hp, Est1.
      destruct fu; [done|done].
  - destruct Hsp as [[rs ->] Hr]. assert (conserved st (set_requests st rs (next_request st))) as Hc by (by apply conserved_same).
    destruct Hr as [(e & Hr)|(Hr & Hp & Hu)].
    + eexists _, _, _, (Err e). by split_and!.
    + eexists _, _, _, (Ok []). by split_and!.
Qed.

Lemma drained_zero cfg st : commit_inv cfg st None ->
  retained_epochs st = 0 <-> pending st = ∅ /\ uncertain st = ∅.
Proof.
  intros [_ _ He _ _ _ _ _ _]. unfold retained in He. cbn [flight_entries] in He.
  rewrite map_sum_empty, !map_sum_const in He. split.
  - intros Hz. split; apply map_size_empty_iff; lia.
  - intros [Hp Hu]. rewrite Hp, Hu, map_size_empty in He. lia.
Qed.

(** One [flush] of the loop. *)
Lemma flush_call_spec cfg now fates active st d : config_ok cfg -> commit_inv cfg st None ->
  exists st' d' r, flush_call cfg now fates active st d = Done (st', d', r) /\ r <> Ok None /\
    commit_inv cfg st' None /\ conserved st st' /\
    (forall es, r = Ok (Some (Ok es)) -> uncertain st' = ∅ /\ (uncertain st = ∅ -> pending st' = ∅)).
Proof.
  intros Hcfg Hci. unfold flush_call. assert (conserved st st) as Hrefl by (by apply conserved_same).
  destruct (waiter_acquire active); [|eexists _, _, _; by split_and!].
  unfold request_flush. destruct (checked _ _ _) as [next|]; [|eexists _, _, _; by split_and!].
  cbn [ok_or mbind result_bind]. set (st1 := set_requests st _ next).
  destruct (turn_spec cfg now st1 d fates (next_request st)) as (st2 & d2 & sent & r & -> & Hr & Hci2 & Hc & Hok);
    [done|by apply requests_inv|set_solver|].
  cbn [mbind outcome_bind]. rewrite Hr. eexists _, _, _. split_and!; [done|done|by apply requests_inv| |].
  - by apply (conserved_trans st st1); [apply conserved_same|].
  - intros es [= ->]. by apply (Hok es).
Qed.

Definition drained (st : State) (out : outcome (State * ShardDb * option (result ShutdownError unit))) : Prop :=
  exists st' d' r, out = Done (st', d', Some r) /\ conserved st st' /\
    (r = Ok tt -> pending st' = ∅ /\ uncertain st' = ∅ /\ retained_epochs st' = 0).

(** A loop that needs [n] more successful calls at most. *)
Lemma drain_spec cfg now fates active n st d : config_ok cfg -> commit_inv cfg st None ->
  (n = 2%nat \/ (n = 1%nat /\ uncertain st = ∅) \/ (n = 0%nat /\ uncertain st = ∅ /\ pending st = ∅)) ->
  drained st (drain n cfg now fates active st d).
Proof.
  intros Hcfg. revert st d. induction n as [|n IH]; intros st d Hci Hn; cbn [drain].
  - destruct (Z.eqb_spec (retained_epochs st) 0) as [Hz|Hz].
    + eexists _, _, _. split; [done|]. split; [by apply conserved_same|]. intros _.
      by destruct (proj1 (drained_zero cfg st Hci) Hz).
    + exfalso. apply Hz, (drained_zero cfg st Hci). destruct Hn as [?|[[? _]|(_ & ? & ?)]]; done.
  - destruct (Z.eqb_spec (retained_epochs st) 0) as [Hz|Hz].
    { eexists _, _, _. split; [done|]. split; [by apply conserved_same|]. intros _.
      by destruct (proj1 (drained_zero cfg st Hci) Hz). }
    destruct (flush_call_spec cfg (now n) (fates n) active st d Hcfg Hci)
      as (st' & d' & r & -> & Hnone & Hci' & Hcons & Hok). cbn [mbind outcome_bind].
    destruct r as [[[es|e]|]|e]; [|by eexists _, _, _|done|by eexists _, _, _].
    destruct (Hok es eq_refl) as [Hu Hp]. destruct (IH st' d' Hci') as (st'' & d'' & r & E & Hc & Hd).
    { destruct Hn as [[= ->]|[[[= ->] Hu0]|([=] & _)]]; [right; left; auto|right; right; auto]. }
    exists st'', d'', r. split_and!; [done|by eapply conserved_trans|done].
Qed.

(** C20: Shutting a commit group down terminates.  From every reachable state of
    a group with no flight out, whatever the storage does (errors, timeouts,
    panics) and at whatever times the driver runs: the loop of [shutdown] ends
    after at most two flushes, none of which leaves its caller waiting; if it
    reports success nothing is retained any more; and in every case no accepted
    epoch is lost: it is still held or the committed frontier has passed it. *)
Theorem shutdown_terminates cfg g0 g now fates active :
  config_ok cfg -> group_started g0 -> group_reach cfg g0 g -> g_flight g = None ->
  exists st' d' r, shutdown 2 cfg now fates active (g_state g) (g_db g) = Done (st', d', Some r) /\
    (r = Ok tt -> pending st' = ∅ /\ uncertain st' = ∅ /\ retained_epochs st' = 0) /\
    (forall e, held (g_state g) e -> held st' e \/ exists c, last_committed st' = Some c /\ e <= c).
Proof.
  intros Hcfg Hs Hr Hf. destruct (group_reach_inv _ _ _ Hcfg Hr (started_inv _ _ Hcfg Hs)) as [Hci _].
  rewrite Hf in Hci. destruct (drain_spec cfg now fates active 2 (set_closing (g_state g)) (g_db g) Hcfg
    (closing_inv _ _ _ Hci) (or_introl eq_refl)) as (st' & d' & r & E & [_ Hc] & Hd).
  exists st', d', r. split_and!; [done|done|exact Hc].
Qed.
End shutdown.

(* ------------------------------------------------------------------ *)
(** ** A concrete commit *)

Import MapStore.

Definition begun : State * Flight :=
  match drive_begin default_config 200 staged_state with
  | Done (st, _, Some f) => (st, f)
  | _ => (staged_state, {| f_entries := ∅; f_requests := []; f_source := 0 |})
  end.

Definition stored : ShardDb :=
  match persist (g_db staged_group) begun.2 [] with Done (d, _) => d | Panic => g_db staged_group end.

Definition ended : State :=
  match finish begun.1 begun.2 Durable with Done (st, _) => st | Panic => staged_state end.

Definition flying : Group :=
  {| g_state := begun.1; g_flight := Some begun.2; g_db := g_db staged_group; g_active := 1; g_log := [] |}.

Definition committed_group : Group :=
  {| g_state := ended; g_flight := None; g_db := stored; g_active := 1;
     g_log := entry_log (f_entries begun.2) |}.

Lemma staged_ok : map_Forall (fun _ e => batch_ok (batch e)) (pending staged_state).
Proof.
  apply map_Forall_insert_2; [|apply map_Forall_empty]. split; [repeat constructor|].
  constructor; [|constructor]. split; [exists 1, [7]; split; [reflexivity|discriminate]|discriminate].
Qed.

Lemma committed_reach : rtc (dur_step default_config) fresh_group committed_group.
Proof.
  eapply rtc_l; [split; [exists []; exact staged_group_step|exact staged_ok]|].
  eapply rtc_l; [split; [exists []; exact (G_begin default_config staged_group 200 begun.1 [] (Some begun.2)
    eq_refl eq_refl)|apply map_Forall_empty]|].
  eapply rtc_l; [split; [eexists; exact (G_end default_config flying begun.2 [] stored Durable ended _
    eq_refl eq_refl eq_refl)|apply map_Forall_empty]|].
  apply rtc_refl.
Qed.

Lemma committed_epochs_durable_witness :
  (g_log committed_group).*1 = [5] /\ (exists x, stored_epoch stored = Some x /\ 5 <= x) /\
  view stored [1; 7] = Some [10].
Proof.
  destruct (committed_epochs_durable default_config fresh_group committed_group default_config_ok
    fresh_group_started eq_refl committed_reach) as (_ & _ & Hst & D & _ & HD & Hv).
  assert ((g_log committed_group).*1 = [5]) as El by reflexivity. split; [exact El|]. split.
  - apply (Hst 5). rewrite El. constructor.
  - assert (ordinary [1; 7]) as Ho by (exists 1, [7]; split; [reflexivity|discriminate]).
    change (view stored [1; 7]) with (view (g_db committed_group) [1; 7]).
    rewrite (Hv [1; 7] Ho ltac:(discriminate)), (HD eq_refl eq_refl), btree_entries_empty, app_nil_r. reflexivity.
Defined.

Lemma shutdown_terminates_witness :
  exists st' d' r, shutdown 2 default_config (fun _ => 300) (fun _ => []) 0 staged_state (g_db staged_group) =
      Done (st', d', Some r) /\ (held st' 5 \/ exists c, last_committed st' = Some c /\ 5 <= c).
Proof.
  destruct (shutdown_terminates default_config fresh_group staged_group (fun _ => 300) (fun _ => []) 0
    default_config_ok fresh_group_started) as (st' & d' & r & E & _ & Hc);
    [apply rtc_once; exists []; exact staged_group_step|reflexivity|].
  exists st', d', r. split; [exact E|]. apply Hc. left. eexists. reflexivity.
Defined.
