(* ===== verification/FlowControl.v ===== *)
(** Exchange flow control (rockstream-runtime/src/exchange/flow_control.rs):
    batch permits, acknowledgement accounting, row credits and the futures that
    wait for them.

    The controller's shared cells are one record; a critical section of the
    channel lock (or of the notifier lock, or one atomic operation) is a function
    on it.  A caller is a [Task] whose program counter names the point it has
    reached between two such sections, so the sections of concurrent callers
    interleave as [flow_step] allows.  [Arc] identities are allocation numbers
    ([next_id]): a live [Arc] is never reallocated.  Counters updated by
    [fetch_add]/[fetch_sub] wrap as the atomics do; that they never do is part of
    [flow_accounting].  A [Notified] future that has been enabled is completed by
    every later [notify_waiters] on its [Notify], and by nothing else. *)
From stdpp Require Import base tactics list gmap numbers option fin_maps relations.
From Stdlib Require Import ZArith Lia ZifyBool.
From S2P Require Import Prelude Kernels.
Local Open Scope Z_scope.

Definition DEFAULT_MAX_INFLIGHT_BATCHES : Z := 64.
Definition DEFAULT_MAX_INFLIGHT_BYTES : Z := 64 * 1024 * 1024.
Definition DEFAULT_MAX_BATCH_BYTES : Z := 16 * 1024 * 1024.
Definition DEFAULT_MAX_PENDING_REQUESTS : Z := 256.

(** (exchange, source shard, target shard) *)
Definition CreditKey : Type := Z * Z * Z.

Record ChannelCreditState : Type := {
  owner : Z;
  had_delivery : bool;
  available_rows : Z;
  max_rows : Z;
  rows_in_flight : Z;
  batches_in_flight : Z;
  bytes_in_flight : Z;
  awaiting_ack : list ((Z * Z) * (Z * Z));
}.

Definition new_channel (o max_rows : Z) : ChannelCreditState := {|
  owner := o; had_delivery := false; available_rows := max_rows; max_rows := max_rows;
  rows_in_flight := 0; batches_in_flight := 0; bytes_in_flight := 0; awaiting_ack := [];
|}.

(** [ChannelNotifier]: the identity of the [Notify] and its waiter count. *)
Record ChannelNotifier : Type := { notify : Z; waiters : Z }.

Record FlowPermit : Type := {
  p_key : CreditKey;
  p_owner : Z;
  p_batch_bytes : Z;
  p_row_count : Z;
}.

Record FlowController : Type := {
  budget_cell : Z;
  max_inflight_batches : Z;
  max_inflight_bytes : Z;
  max_batch_bytes : Z;
  max_pending_requests : Z;
  live : gmap CreditKey ChannelCreditState;
  retired : gset CreditKey;
  notifiers : gmap CreditKey ChannelNotifier;
  aggregate_bytes : Z;
  pending_requests : Z;
  queued_credit_waiters : Z;
  next_id : Z;
}.

(** The messages of the error strings, in the order the code checks them. *)
Inductive FlowError : Type :=
  | FrameTooLarge | FrameExceedsInflight | RowsExceedBudget | ChannelRetired
  | PendingExhausted | BytesExhausted | BatchesExhausted | RowsExhausted | WaitersExhausted.

(** [err.contains("RESOURCE_EXHAUSTED")] *)
Definition resource_exhausted (e : FlowError) : bool :=
  match e with
  | PendingExhausted | BytesExhausted | BatchesExhausted | RowsExhausted | WaitersExhausted => true
  | _ => false
  end.

(* ------------------------------------------------------------------ *)
(** ** Construction *)

Definition with_row_budget (row_budget : Z) : FlowController := {|
  budget_cell := Z.max row_budget 1;
  max_inflight_batches := DEFAULT_MAX_INFLIGHT_BATCHES;
  max_inflight_bytes := DEFAULT_MAX_INFLIGHT_BYTES;
  max_batch_bytes := DEFAULT_MAX_BATCH_BYTES;
  max_pending_requests := DEFAULT_MAX_PENDING_REQUESTS;
  live := ∅; retired := ∅; notifiers := ∅;
  aggregate_bytes := 0; pending_requests := 0; queued_credit_waiters := 0; next_id := 0;
|}.

(** [with_max_inflight_batches], [with_max_inflight_bytes],
    [with_max_batch_bytes] and [with_max_pending_requests] in one. *)
Definition with_limits (batches inflight batch pending : Z) (c : FlowController) : FlowController := {|
  budget_cell := budget_cell c;
  max_inflight_batches := Z.max batches 1;
  max_inflight_bytes := Z.max inflight 1;
  max_batch_bytes := Z.max batch 1;
  max_pending_requests := Z.max pending 1;
  live := live c; retired := retired c; notifiers := notifiers c;
  aggregate_bytes := aggregate_bytes c; pending_requests := pending_requests c;
  queued_credit_waiters := queued_credit_waiters c; next_id := next_id c;
|}.

(** Field updates. *)
Definition set_channels (c : FlowController) (m : gmap CreditKey ChannelCreditState) (next : Z) : FlowController := {|
  budget_cell := budget_cell c; max_inflight_batches := max_inflight_batches c;
  max_inflight_bytes := max_inflight_bytes c; max_batch_bytes := max_batch_bytes c;
  max_pending_requests := max_pending_requests c;
  live := m; retired := retired c; notifiers := notifiers c;
  aggregate_bytes := aggregate_bytes c; pending_requests := pending_requests c;
  queued_credit_waiters := queued_credit_waiters c; next_id := next;
|}.

Definition set_totals (c : FlowController) (nbytes pending : Z) : FlowController := {|
  budget_cell := budget_cell c; max_inflight_batches := max_inflight_batches c;
  max_inflight_bytes := max_inflight_bytes c; max_batch_bytes := max_batch_bytes c;
  max_pending_requests := max_pending_requests c;
  live := live c; retired := retired c; notifiers := notifiers c;
  aggregate_bytes := nbytes; pending_requests := pending;
  queued_credit_waiters := queued_credit_waiters c; next_id := next_id c;
|}.

Definition set_waiting (c : FlowController) (ns : gmap CreditKey ChannelNotifier) (queued next : Z) : FlowController := {|
  budget_cell := budget_cell c; max_inflight_batches := max_inflight_batches c;
  max_inflight_bytes := max_inflight_bytes c; max_batch_bytes := max_batch_bytes c;
  max_pending_requests := max_pending_requests c;
  live := live c; retired := retired c; notifiers := ns;
  aggregate_bytes := aggregate_bytes c; pending_requests := pending_requests c;
  queued_credit_waiters := queued; next_id := next;
|}.

(* ------------------------------------------------------------------ *)
(** ** Queries *)

Definition row_budget (c : FlowController) : Z := Z.max (budget_cell c) 1.

Definition batches_in_flight_of (c : FlowController) (k : CreditKey) : Z :=
  from_option batches_in_flight 0 (live c !! k).

Definition rows_in_flight_of (c : FlowController) (k : CreditKey) : Z :=
  from_option rows_in_flight 0 (live c !! k).

Definition get_credits (c : FlowController) (k : CreditKey) : Z :=
  from_option available_rows (row_budget c) (live c !! k).

(* ------------------------------------------------------------------ *)
(** ** Critical sections *)

Definition check_frame_size (c : FlowController) (batch_bytes : Z) : result FlowError unit :=
  if max_batch_bytes c <? batch_bytes then Err FrameTooLarge
  else if max_inflight_bytes c <? batch_bytes then Err FrameExceedsInflight
  else Ok tt.

(** [entry(key).or_insert_with(|| ChannelCreditState::new(max_rows))]: the
    channel, and the controller that holds it. *)
Definition channel_entry (c : FlowController) (k : CreditKey) (rows : Z)
    : FlowController * ChannelCreditState :=
  match live c !! k with
  | Some st => (c, st)
  | None =>
    let st := new_channel (next_id c) rows in
    (set_channels c (<[k := st]> (live c)) (next_id c + 1), st)
  end.

Definition channel_state (c : FlowController) (k : CreditKey) : FlowController * ChannelCreditState :=
  channel_entry c k (row_budget c).

Definition put_channel (c : FlowController) (k : CreditKey) (st : ChannelCreditState) : FlowController :=
  set_channels c (<[k := st]> (live c)) (next_id c).

(** What a caller of [acquire_batch_permit] asks for. *)
Record Request : Type := { r_key : CreditKey; r_bytes : Z; r_rows : Z }.

(** The part of [try_acquire_batch_permit] before the lock: [row_count] is at
    least one and the row budget read here is the [max_rows] of the rest. *)
Definition try_acquire_load (c : FlowController) (r : Request) : result FlowError Z :=
  _ ← check_frame_size c (r_bytes r);
  let m := row_budget c in
  if m <? Z.max (r_rows r) 1 then Err RowsExceedBudget else Ok m.

Definition charge_channel (st : ChannelCreditState) (nbytes rows : Z) : ChannelCreditState := {|
  owner := owner st; had_delivery := had_delivery st;
  available_rows := available_rows st - rows; max_rows := max_rows st;
  rows_in_flight := saturating_add u32_max (rows_in_flight st) rows;
  batches_in_flight := batches_in_flight st + 1;
  bytes_in_flight := bytes_in_flight st + nbytes;
  awaiting_ack := awaiting_ack st;
|}.

(** The part under the lock. *)
Definition try_acquire_locked (c : FlowController) (r : Request) (m : Z)
    : FlowController * result FlowError FlowPermit :=
  let row_count := Z.max (r_rows r) 1 in
  if bool_decide (r_key r ∈ retired c) then (c, Err ChannelRetired)
  else if max_pending_requests c <=? pending_requests c then (c, Err PendingExhausted)
  else if max_inflight_bytes c <? saturating_add usize_max (aggregate_bytes c) (r_bytes r)
  then (c, Err BytesExhausted)
  else
    let '(c, st) := channel_entry c (r_key r) m in
    if max_inflight_batches c <=? batches_in_flight st then (c, Err BatchesExhausted)
    else if available_rows st <? row_count then (c, Err RowsExhausted)
    else
      let c := put_channel c (r_key r) (charge_channel st (r_bytes r) row_count) in
      (set_totals c (as_u64 (aggregate_bytes c + r_bytes r)) (as_u64 (pending_requests c + 1)),
       Ok {| p_key := r_key r; p_owner := owner st;
             p_batch_bytes := r_bytes r; p_row_count := row_count |}).

(** [reserve_credit_waiter]: the compare-exchange loop ends with one successful
    exchange or with the refusal. *)
Definition reserve_credit_waiter (c : FlowController) : result FlowError FlowController :=
  if max_pending_requests c <=? queued_credit_waiters c then Err WaitersExhausted
  else Ok (set_waiting c (notifiers c) (queued_credit_waiters c + 1) (next_id c)).

(** [Drop for CreditWaiterSlot] *)
Definition drop_credit_waiter (c : FlowController) : FlowController :=
  set_waiting c (notifiers c) (as_u64 (queued_credit_waiters c - 1)) (next_id c).

(** The notifier-lock section of [reserve_channel_waiter]; returns the identity
    of the channel's [Notify]. *)
Definition reserve_channel_notifier (c : FlowController) (k : CreditKey) : FlowController * Z :=
  let '(channel, next) :=
    match notifiers c !! k with
    | Some n => (n, next_id c)
    | None => ({| notify := next_id c; waiters := 0 |}, next_id c + 1)
    end in
  (set_waiting c (<[k := {| notify := notify channel; waiters := waiters channel + 1 |}]> (notifiers c))
     (queued_credit_waiters c) next, notify channel).

(** [Drop for ChannelWaiterSlot] *)
Definition drop_channel_waiter (c : FlowController) (k : CreditKey) (n : Z) : FlowController :=
  match notifiers c !! k with
  | Some entry =>
    if negb (notify entry =? n) then c
    else if waiters entry <=? 1
    then set_waiting c (delete k (notifiers c)) (queued_credit_waiters c) (next_id c)
    else set_waiting c (<[k := {| notify := n; waiters := waiters entry - 1 |}]> (notifiers c))
           (queued_credit_waiters c) (next_id c)
  | None => c
  end.

(** [FlowPermit::handoff]: [true] when the reservation now belongs to the
    channel; otherwise the permit is still active and is dropped. *)
Definition handoff (c : FlowController) (p : FlowPermit) (epoch seq : Z) : FlowController * bool :=
  match live c !! p_key p with
  | Some st =>
    if Ownership.same_owner (owner st) (p_owner p) then
      (put_channel c (p_key p) {|
         owner := owner st; had_delivery := true;
         available_rows := available_rows st; max_rows := max_rows st;
         rows_in_flight := rows_in_flight st; batches_in_flight := batches_in_flight st;
         bytes_in_flight := bytes_in_flight st;
         awaiting_ack := awaiting_ack st ++ [((epoch, seq), (p_batch_bytes p, p_row_count p))] |},
       true)
    else (c, false)
  | None => (c, false)
  end.

(** The lock section of [release_batch_permit]. *)
Definition release_batch_permit (c : FlowController) (k : CreditKey) (o nbytes row_count : Z)
    : FlowController :=
  let '(matches, rows, batches, cbytes) :=
    match live c !! k with
    | Some st =>
      (Ownership.same_owner (owner st) o, rows_in_flight st, batches_in_flight st, bytes_in_flight st)
    | None => (false, 0, 0, 0)
    end in
  let '(next_rows, next_batches, next_channel_bytes, new_bytes, new_pending) :=
    Ownership.release_accounting matches rows batches cbytes
      (aggregate_bytes c) (pending_requests c) row_count nbytes in
  let c :=
    match live c !! k with
    | Some st =>
      if matches then
        put_channel c k {|
          owner := owner st; had_delivery := had_delivery st;
          available_rows := saturating_sub (max_rows st) next_rows; max_rows := max_rows st;
          rows_in_flight := next_rows; batches_in_flight := next_batches;
          bytes_in_flight := next_channel_bytes; awaiting_ack := awaiting_ack st |}
      else c
    | None => c
    end in
  set_totals c new_bytes new_pending.

Definition awaiting_bytes (st : ChannelCreditState) : Z :=
  zsum (fun a => (a.2).1) (awaiting_ack st).

Definition awaiting_count (st : ChannelCreditState) : Z := Z.of_nat (length (awaiting_ack st)).

(** The lock section of [teardown_exchange]: [retain] drops the exchange's
    channels, subtracting the reservations they hold for acknowledgement. *)
Definition teardown_channels (c : FlowController) (ex : Z) : FlowController :=
  let gone := filter (fun e => e.1.1.1 = ex) (live c) in
  let c := set_totals c
    (as_u64 (aggregate_bytes c - map_sum (fun _ => awaiting_bytes) gone))
    (as_u64 (pending_requests c - map_sum (fun _ => awaiting_count) gone)) in
  {| budget_cell := budget_cell c; max_inflight_batches := max_inflight_batches c;
     max_inflight_bytes := max_inflight_bytes c; max_batch_bytes := max_batch_bytes c;
     max_pending_requests := max_pending_requests c;
     live := filter (fun e => e.1.1.1 <> ex) (live c);
     retired := retired c ∪ dom (filter (fun e => had_delivery e.2 = true) gone);
     notifiers := notifiers c;
     aggregate_bytes := aggregate_bytes c; pending_requests := pending_requests c;
     queued_credit_waiters := queued_credit_waiters c; next_id := next_id c |}.

(** The notifier-lock section of [teardown_exchange]: the identities of the
    removed notifiers. *)
Definition teardown_notifiers (c : FlowController) (ex : Z) : FlowController * list Z :=
  (set_waiting c (filter (fun e => e.1.1.1 <> ex) (notifiers c))
     (queued_credit_waiters c) (next_id c),
   notify ∘ snd <$> map_to_list (filter (fun e => e.1.1.1 = ex) (notifiers c))).

Record ShuffleAck : Type := {
  ack_key : CreditKey;
  ack_epoch : Z;
  ack_seq : Z;
  credit_grant : Z;
}.

(** [rows_in_flight -= n.min(rows_in_flight)] and the refreshed availability. *)
Definition uncharge_rows (st : ChannelCreditState) (n : Z) : ChannelCreditState :=
  let rows := rows_in_flight st - Z.min n (rows_in_flight st) in {|
  owner := owner st; had_delivery := had_delivery st;
  available_rows := saturating_sub (max_rows st) rows; max_rows := max_rows st;
  rows_in_flight := rows; batches_in_flight := batches_in_flight st;
  bytes_in_flight := bytes_in_flight st; awaiting_ack := awaiting_ack st;
|}.

(** What [handle_ack] does after its lock section. *)
Inductive AckOutcome : Type :=
  | AckRetired
  | AckReserved (o nbytes rows : Z)
  | AckLegacy.

Definition handle_ack (c : FlowController) (ack : ShuffleAck) : FlowController * AckOutcome :=
  if bool_decide (ack_key ack ∈ retired c) then (c, AckRetired)
  else
    let '(c, st) := channel_state c (ack_key ack) in
    match list_find (fun a => a.1 = (ack_epoch ack, ack_seq ack)) (awaiting_ack st) with
    | Some (index, (_, (nbytes, rows))) =>
      (put_channel c (ack_key ack) {|
         owner := owner st; had_delivery := had_delivery st;
         available_rows := available_rows st; max_rows := max_rows st;
         rows_in_flight := rows_in_flight st; batches_in_flight := batches_in_flight st;
         bytes_in_flight := bytes_in_flight st;
         awaiting_ack := delete index (awaiting_ack st) |},
       AckReserved (owner st) nbytes rows)
    | None =>
      ((if batches_in_flight st =? 0
        then put_channel c (ack_key ack) (uncharge_rows st (credit_grant ack)) else c), AckLegacy)
    end.

(** The lock section of [release_credit]; [false] for a retired channel. *)
Definition release_credit (c : FlowController) (k : CreditKey) (row_count : Z) : FlowController * bool :=
  if bool_decide (k ∈ retired c) then (c, false)
  else let '(c, st) := channel_state c k in (put_channel c k (uncharge_rows st row_count), true).

Definition set_credits (c : FlowController) (k : CreditKey) (amount : Z) : FlowController :=
  if bool_decide (k ∈ retired c) then c
  else match live c !! k with
  | Some st =>
    if negb (rows_in_flight st =? 0) || negb (batches_in_flight st =? 0)
       || negb (bool_decide (awaiting_ack st = []))
    then c
    else put_channel c k {|
      owner := owner st; had_delivery := had_delivery st;
      available_rows := amount; max_rows := Z.max amount 1;
      rows_in_flight := rows_in_flight st; batches_in_flight := batches_in_flight st;
      bytes_in_flight := bytes_in_flight st; awaiting_ack := awaiting_ack st |}
  | None =>
    set_channels c (<[k := {|
      owner := next_id c; had_delivery := false;
      available_rows := amount; max_rows := Z.max amount 1;
      rows_in_flight := 0; batches_in_flight := 0; bytes_in_flight := 0;
      awaiting_ack := [] |}]> (live c)) (next_id c + 1)
  end.

Definition try_acquire_rows (c : FlowController) (k : CreditKey) (row_count : Z)
    : FlowController * result FlowError bool :=
  if bool_decide (k ∈ retired c) then (c, Err ChannelRetired)
  else
    let '(c, st) := channel_state c k in
    if available_rows st <? row_count then (c, Ok false)
    else
      (put_channel c k {|
         owner := owner st; had_delivery := true;
         available_rows := available_rows st - row_count; max_rows := max_rows st;
         rows_in_flight := saturating_add u32_max (rows_in_flight st) row_count;
         batches_in_flight := batches_in_flight st; bytes_in_flight := bytes_in_flight st;
         awaiting_ack := awaiting_ack st |},
       Ok true).

Definition rebudget (m : Z) (st : ChannelCreditState) : ChannelCreditState := {|
  owner := owner st; had_delivery := had_delivery st;
  available_rows := saturating_sub m (rows_in_flight st); max_rows := m;
  rows_in_flight := rows_in_flight st; batches_in_flight := batches_in_flight st;
  bytes_in_flight := bytes_in_flight st; awaiting_ack := awaiting_ack st;
|}.

(** The lock section of [set_row_budget]. *)
Definition set_row_budget (c : FlowController) (budget : Z) : FlowController :=
  let m := Z.max budget 1 in {|
  budget_cell := m; max_inflight_batches := max_inflight_batches c;
  max_inflight_bytes := max_inflight_bytes c; max_batch_bytes := max_batch_bytes c;
  max_pending_requests := max_pending_requests c;
  live := rebudget m <$> live c; retired := retired c; notifiers := notifiers c;
  aggregate_bytes := aggregate_bytes c; pending_requests := pending_requests c;
  queued_credit_waiters := queued_credit_waiters c; next_id := next_id c;
|}.

(* ------------------------------------------------------------------ *)
(** ** Concurrent callers *)

(** Where a caller of [try_acquire_batch_permit] or [acquire_batch_permit] is.
    [n] says whether its enabled [Notified] future has completed. *)
Inductive AcquirePc : Type :=
  | Head
  | Enabled (n : bool)
  | Loaded (n : bool) (m : Z)
  | Exhausted (n : bool)
  | Parked (n : bool).

(** Where a caller of [acquire_credit] is; [id] is the [Notify] it subscribed to. *)
Inductive RowsPc : Type :=
  | RFirst
  | RReserve
  | RSlot
  | RLoop (id : Z)
  | REnabled (id : Z) (n : bool)
  | RParked (id : Z) (n : bool)
  | RDrop (id : Z).

Inductive Task : Type :=
  (** [try_acquire_batch_permit] ([once]) or [acquire_batch_permit]; [slot] says
      whether the future holds a [CreditWaiterSlot] *)
  | Acquire (r : Request) (once slot : bool) (pc : AcquirePc)
  (** an active [FlowPermit] *)
  | Permit (p : FlowPermit)
  (** a call of [release_batch_permit] before its lock section *)
  | Release (k : CreditKey) (o nbytes rows : Z)
  (** [notify_waiters], before the global and before the channel notification *)
  | NotifyGlobal (k : CreditKey)
  | NotifyChannel (k : CreditKey)
  (** [teardown_exchange] after its first and after its second section *)
  | Teardown (ex : Z)
  | TeardownNotify (ids : list Z)
  (** [set_row_budget], before its global and before its channel notifications *)
  | BudgetGlobal
  | BudgetChannels
  (** [acquire_credit] *)
  | Rows (k : CreditKey) (n : Z) (pc : RowsPc)
  (** a [CreditWaiterSlot] being dropped *)
  | QuotaDrop.

Inductive Wake : Type := WakeNone | WakeGlobal | WakeIds (ids : list Z).

(** [notify_waiters] completes the futures enabled on that [Notify]. *)
Definition wake_global (pc : AcquirePc) : AcquirePc :=
  match pc with
  | Head => Head
  | Enabled _ => Enabled true
  | Loaded _ m => Loaded true m
  | Exhausted _ => Exhausted true
  | Parked _ => Parked true
  end.

Definition wake_rows (ids : list Z) (pc : RowsPc) : RowsPc :=
  match pc with
  | REnabled id n => REnabled id (n || bool_decide (id ∈ ids))
  | RParked id n => RParked id (n || bool_decide (id ∈ ids))
  | _ => pc
  end.

Definition wake (w : Wake) (t : Task) : Task :=
  match w, t with
  | WakeGlobal, Acquire r once slot pc => Acquire r once slot (wake_global pc)
  | WakeIds ids, Rows k n pc => Rows k n (wake_rows ids pc)
  | _, _ => t
  end.

(** What the holder of a task may choose: go on, drop a pending future, or hand
    a permit off to acknowledgement accounting. *)
Inductive action : Type := Run | Cancel | Handoff (epoch seq : Z).

(** Leaving [acquire_batch_permit] drops its waiter slot. *)
Definition leave (slot : bool) : list Task := if slot then [QuotaDrop] else [].

Definition run_acquire (c : FlowController) (r : Request) (once slot : bool) (pc : AcquirePc)
    : option (FlowController * list Task) :=
  match pc with
  | Head => Some (c, [Acquire r once slot (Enabled false)])
  | Enabled n =>
    match try_acquire_load c r with
    | Ok m => Some (c, [Acquire r once slot (Loaded n m)])
    | Err _ => Some (c, leave slot)
    end
  | Loaded n m =>
    match try_acquire_locked c r m with
    | (c, Ok p) => Some (c, Permit p :: leave slot)
    | (c, Err e) =>
      if resource_exhausted e && negb once then Some (c, [Acquire r once slot (Exhausted n)])
      else Some (c, leave slot)
    end
  | Exhausted n =>
    if slot then Some (c, [Acquire r once slot (Parked n)])
    else match reserve_credit_waiter c with
         | Ok c => Some (c, [Acquire r once true (Parked n)])
         | Err _ => Some (c, [])
         end
  | Parked true => Some (c, [Acquire r once slot Head])
  | Parked false => None
  end.

Definition run_rows (c : FlowController) (k : CreditKey) (n : Z) (pc : RowsPc)
    : option (FlowController * list Task) :=
  match pc with
  | RFirst =>
    match try_acquire_rows c k n with
    | (c, Ok false) => Some (c, [Rows k n RReserve])
    | (c, _) => Some (c, [])
    end
  | RReserve =>
    match reserve_credit_waiter c with
    | Ok c => Some (c, [Rows k n RSlot])
    | Err _ => Some (c, [])
    end
  | RSlot => let '(c, id) := reserve_channel_notifier c k in Some (c, [Rows k n (RLoop id)])
  | RLoop id => Some (c, [Rows k n (REnabled id false)])
  | REnabled id b =>
    match try_acquire_rows c k n with
    | (c, Ok false) => Some (c, [Rows k n (RParked id b)])
    | (c, _) => Some (c, [Rows k n (RDrop id)])
    end
  | RParked id true => Some (c, [Rows k n (RLoop id)])
  | RParked id false => None
  | RDrop id => Some (drop_channel_waiter c k id, [QuotaDrop])
  end.

(** One atomic segment of a task: the controller after it, the tasks that
    replace the task, and the notification it sends. *)
Definition run_task (c : FlowController) (t : Task) (a : action)
    : option (FlowController * list Task * Wake) :=
  match t, a with
  | Acquire r once slot pc, Run => (., WakeNone) <$> run_acquire c r once slot pc
  | Acquire r once slot (Parked _), Cancel => Some (c, leave slot, WakeNone)
  | Permit p, Run =>
    Some (c, [Release (p_key p) (p_owner p) (p_batch_bytes p) (p_row_count p)], WakeNone)
  | Permit p, Handoff epoch seq =>
    let '(c, done) := handoff c p epoch seq in
    Some (c, (if done : bool then []
              else [Release (p_key p) (p_owner p) (p_batch_bytes p) (p_row_count p)]), WakeNone)
  | Release k o nbytes rows, Run =>
    Some (release_batch_permit c k o nbytes rows, [NotifyGlobal k], WakeNone)
  | NotifyGlobal k, Run => Some (c, [NotifyChannel k], WakeGlobal)
  | NotifyChannel k, Run =>
    Some (c, [], WakeIds (from_option (fun n => [notify n]) [] (notifiers c !! k)))
  | Teardown ex, Run =>
    let '(c, ids) := teardown_notifiers c ex in Some (c, [TeardownNotify ids], WakeNone)
  | TeardownNotify (id :: ids), Run => Some (c, [TeardownNotify ids], WakeIds [id])
  | TeardownNotify [], Run => Some (c, [], WakeGlobal)
  | BudgetGlobal, Run => Some (c, [BudgetChannels], WakeGlobal)
  | BudgetChannels, Run =>
    Some (c, [], WakeIds (notify ∘ snd <$> map_to_list (notifiers c)))
  | Rows k n pc, Run => (., WakeNone) <$> run_rows c k n pc
  | Rows k n (RParked id _), Cancel => Some (c, [Rows k n (RDrop id)], WakeNone)
  | QuotaDrop, Run => Some (drop_credit_waiter c, [], WakeNone)
  | _, _ => None
  end.

(** The public entry points, each with what runs before its first suspension
    or lock release. *)
Inductive call : Type :=
  | CallTry (r : Request)
  | CallAcquire (r : Request)
  | CallAck (ack : ShuffleAck)
  | CallTeardown (ex : Z)
  | CallSetBudget (budget : Z)
  | CallAcquireCredit (k : CreditKey) (rows : Z)
  | CallReleaseCredit (k : CreditKey) (rows : Z)
  | CallSetCredits (k : CreditKey) (amount : Z).

Definition start (c : FlowController) (call : call) : FlowController * list Task :=
  match call with
  | CallTry r => (c, [Acquire r true false (Enabled false)])
  | CallAcquire r =>
    match try_acquire_load c r with
    | Ok _ => (c, [Acquire r false false Head])
    | Err _ => (c, [])
    end
  | CallAck ack =>
    match handle_ack c ack with
    | (c, AckRetired) => (c, [])
    | (c, AckReserved o nbytes rows) => (c, [Release (ack_key ack) o nbytes rows])
    | (c, AckLegacy) => (c, [NotifyGlobal (ack_key ack)])
    end
  | CallTeardown ex => (teardown_channels c ex, [Teardown ex])
  | CallSetBudget budget => (set_row_budget c budget, [BudgetGlobal])
  | CallAcquireCredit k rows =>
    let n := Z.max rows 1 in
    if row_budget c <? n then (c, []) else (c, [Rows k n RFirst])
  | CallReleaseCredit k rows =>
    match release_credit c k rows with
    | (c, true) => (c, [NotifyGlobal k])
    | (c, false) => (c, [])
    end
  | CallSetCredits k amount => (set_credits c k amount, [])
  end.

Definition System : Type := FlowController * list Task.

(** Arguments are machine integers. *)
Definition call_ok (call : call) : Prop :=
  match call with
  | CallTry r | CallAcquire r => 0 <= r_bytes r <= usize_max /\ in_u32 (r_rows r)
  | CallAck ack => in_u32 (credit_grant ack)
  | CallSetBudget n | CallAcquireCredit _ n | CallReleaseCredit _ n | CallSetCredits _ n => in_u32 n
  | CallTeardown _ => True
  end.

(** The entry points the shuffle path uses; the others are the row-credit ones
    and the budget change. *)
Definition batch_call (call : call) : bool :=
  match call with
  | CallTry _ | CallAcquire _ | CallAck _ | CallTeardown _ => true
  | _ => false
  end.

(** [allowed] restricts which entry points are called. *)
Inductive flow_step (allowed : call -> bool) : System -> System -> Prop :=
  | step_call c ts call c' ts' :
      allowed call = true -> call_ok call -> start c call = (c', ts') ->
      flow_step allowed (c, ts) (c', ts' ++ ts)
  | step_task c l1 t l2 a c' ts' w :
      run_task c t a = Some (c', ts', w) ->
      flow_step allowed (c, l1 ++ t :: l2) (c', ts' ++ (wake w <$> l1 ++ l2)).

(* ------------------------------------------------------------------ *)
(** ** The accounting invariant *)

(** The reservation a task is answerable for. *)
Definition charge (t : Task) : option FlowPermit :=
  match t with
  | Permit p => Some p
  | Release k o nbytes rows =>
    Some {| p_key := k; p_owner := o; p_batch_bytes := nbytes; p_row_count := rows |}
  | _ => None
  end.

Definition charges (ts : list Task) : list FlowPermit := omap charge ts.

(** Whether a task holds a [CreditWaiterSlot]. *)
Definition holds_slot (t : Task) : bool :=
  match t with
  | Acquire _ _ slot _ => slot
  | Rows _ _ (RFirst | RReserve) => false
  | Rows _ _ _ | QuotaDrop => true
  | _ => false
  end.

Definition slots (ts : list Task) : Z := zsum (fun t => if holds_slot t then 1 else 0) ts.

(** Reservations of channel [k] made under owner [o]. *)
Definition mine (k : CreditKey) (o : Z) (p : FlowPermit) : bool :=
  bool_decide (p_key p = k) && (p_owner p =? o).

Definition held (f : FlowPermit -> Z) (k : CreditKey) (o : Z) (cs : list FlowPermit) : Z :=
  zsum (fun p => if mine k o p then f p else 0) cs.

Definition awaiting_rows (st : ChannelCreditState) : Z :=
  zsum (fun a => (a.2).2) (awaiting_ack st).

(** [strict] adds the exact row accounting that holds when only the batch entry
    points are used. *)
Record chan_ok (strict : Prop) (c : FlowController) (cs : list FlowPermit)
    (k : CreditKey) (st : ChannelCreditState) : Prop := {
  co_batches : batches_in_flight st = held (fun _ => 1) k (owner st) cs + awaiting_count st;
  co_bytes : bytes_in_flight st = held p_batch_bytes k (owner st) cs + awaiting_bytes st;
  co_limit : batches_in_flight st <= max_inflight_batches c;
  co_owner : owner st < next_id c;
  co_max : 1 <= max_rows st <= u32_max;
  co_rows : 0 <= rows_in_flight st <= u32_max;
  co_avail : 0 <= available_rows st <= saturating_sub (max_rows st) (rows_in_flight st);
  co_await : Forall (fun a => 0 <= (a.2).1 /\ 1 <= (a.2).2) (awaiting_ack st);
  co_strict : strict ->
    max_rows st = row_budget c /\
    rows_in_flight st = held p_row_count k (owner st) cs + awaiting_rows st /\
    available_rows st = max_rows st - rows_in_flight st;
}.

Definition charge_ok (c : FlowController) (p : FlowPermit) : Prop :=
  0 <= p_batch_bytes p /\ 1 <= p_row_count p /\ p_owner p < next_id c.

(** An in-flight limit of [usize::MAX] itself would let the saturating check
    pass on a sum that does not fit. *)
Definition config_ok (c : FlowController) : Prop :=
  1 <= max_inflight_batches c /\ 1 <= max_inflight_bytes c < usize_max /\
  1 <= max_pending_requests c <= usize_max /\ 1 <= budget_cell c <= u32_max.

Record flow_inv (strict : Prop) (c : FlowController) (cs : list FlowPermit) : Prop := {
  fi_config : config_ok c;
  fi_bytes : aggregate_bytes c =
    zsum p_batch_bytes cs + map_sum (fun _ => awaiting_bytes) (live c);
  fi_pending : pending_requests c =
    Z.of_nat (length cs) + map_sum (fun _ => awaiting_count) (live c);
  fi_max_bytes : aggregate_bytes c <= max_inflight_bytes c;
  fi_max_pending : pending_requests c <= max_pending_requests c;
  fi_charges : Forall (charge_ok c) cs;
  fi_channels : map_Forall (chan_ok strict c cs) (live c);
}.

Section held.
Context (f : FlowPermit -> Z) (k : CreditKey) (o : Z).

Lemma held_cons p cs : held f k o (p :: cs) = (if mine k o p then f p else 0) + held f k o cs.
Proof. done. Qed.

Lemma held_perm cs cs' : cs ≡ₚ cs' -> held f k o cs = held f k o cs'.
Proof. apply zsum_perm. Qed.

Lemma held_other cs p : p_key p <> k \/ p_owner p <> o -> held f k o (p :: cs) = held f k o cs.
Proof.
  intros Hp. rewrite held_cons. unfold mine.
  case_bool_decide; destruct (Z.eqb_spec (p_owner p) o); simpl; try lia. by destruct Hp.
Qed.

Lemma held_mine cs p : p_key p = k -> p_owner p = o -> held f k o (p :: cs) = f p + held f k o cs.
Proof.
  intros Hk Ho. rewrite held_cons. unfold mine. by rewrite bool_decide_true, Ho, Z.eqb_refl.
Qed.

Lemma held_fresh cs : Forall (fun p => p_owner p < o) cs -> held f k o cs = 0.
Proof.
  intros Hc. apply zsum_zero. eapply Forall_impl; [done|]. intros p Hp. simpl in Hp.
  unfold mine. destruct (Z.eqb_spec (p_owner p) o); [lia|]. by rewrite andb_false_r.
Qed.

Lemma held_none cs : held (fun _ => 1) k o cs <= 0 -> held f k o cs = 0.
Proof.
  unfold held. induction cs as [|p cs IH]; [done|]. rewrite !zsum_cons.
  assert (0 <= zsum (fun p => if mine k o p then 1 else 0) cs) by
    (apply zsum_nonneg, Forall_true; intros q; by destruct (mine k o q)).
  destruct (mine k o p); intros; [lia|]. rewrite IH; lia.
Qed.

Lemma held_nonneg cs : Forall (fun p => 0 <= f p) cs -> 0 <= held f k o cs.
Proof. intros Hc. apply zsum_nonneg. eapply Forall_impl; [done|]. intros p ?. by destruct (mine k o p). Qed.
End held.

Lemma awaiting_nonneg strict c cs k st :
  chan_ok strict c cs k st -> 0 <= awaiting_bytes st /\ 0 <= awaiting_rows st /\ 0 <= awaiting_count st.
Proof.
  intros Hok. pose proof (co_await _ _ _ _ _ Hok) as Ha.
  split_and!; [..|unfold awaiting_count; lia];
    apply zsum_nonneg; (eapply Forall_impl; [exact Ha|]); intros a ?; simpl in *; lia.
Qed.

Section inv.
Context (strict : Prop).
Implicit Types (c : FlowController) (cs : list FlowPermit) (st : ChannelCreditState).

Lemma chan_ok_frame c c' cs cs' k st :
  chan_ok strict c cs k st ->
  (forall f, held f k (owner st) cs' = held f k (owner st) cs) ->
  max_inflight_batches c' = max_inflight_batches c -> budget_cell c' = budget_cell c ->
  next_id c <= next_id c' ->
  chan_ok strict c' cs' k st.
Proof.
  intros [] Hh Hm Hb Hn. split; rewrite ?Hh, ?Hm; try done; [lia|].
  unfold row_budget in *. by rewrite Hb.
Qed.

Lemma flow_inv_perm c cs cs' : cs ≡ₚ cs' -> flow_inv strict c cs -> flow_inv strict c cs'.
Proof.
  intros Hp []. split; try done.
  - by rewrite <-(zsum_perm _ _ _ Hp).
  - by rewrite <-(Permutation_length Hp).
  - by rewrite <-Hp.
  - intros k st Hk. eapply chan_ok_frame; eauto; try done. intros f. symmetry. by apply held_perm.
Qed.

Lemma channels_update c c' cs cs' k st :
  map_Forall (chan_ok strict c cs) (live c) -> chan_ok strict c' cs' k st ->
  (forall f k' o, k <> k' -> held f k' o cs' = held f k' o cs) ->
  max_inflight_batches c' = max_inflight_batches c -> budget_cell c' = budget_cell c ->
  next_id c <= next_id c' ->
  map_Forall (chan_ok strict c' cs') (<[k := st]> (live c)).
Proof.
  intros Hm Hok Hh ? ? ? k' st'. rewrite lookup_insert_Some. intros [[<- <-]|[Hne Hk']]; [done|].
  eapply chan_ok_frame; [by apply Hm|intros f; by apply Hh|done..].
Qed.

(** Replacing a channel's state without touching its reservations. *)
Lemma inv_put c cs k st st' :
  flow_inv strict c cs -> live c !! k = Some st ->
  awaiting_ack st' = awaiting_ack st -> chan_ok strict c cs k st' ->
  flow_inv strict (put_channel c k st') cs.
Proof.
  intros [] Hk Ha Hok. split; try done.
  - simpl. rewrite (map_sum_update _ _ k st) by done. unfold awaiting_bytes in *. rewrite Ha. lia.
  - simpl. rewrite (map_sum_update _ _ k st) by done. unfold awaiting_count in *. rewrite Ha. lia.
  - apply map_Forall_insert_2; [by eapply chan_ok_frame|].
    eapply map_Forall_impl; [done|]. intros. by eapply chan_ok_frame.
Qed.

(** Inserting a channel under a fresh owner. *)
Lemma inv_fresh c cs k st :
  flow_inv strict c cs -> live c !! k = None ->
  owner st = next_id c -> rows_in_flight st = 0 -> batches_in_flight st = 0 ->
  bytes_in_flight st = 0 -> awaiting_ack st = [] ->
  1 <= max_rows st <= u32_max -> 0 <= available_rows st <= max_rows st ->
  (strict -> max_rows st = row_budget c /\ available_rows st = max_rows st) ->
  flow_inv strict (set_channels c (<[k := st]> (live c)) (next_id c + 1)) cs.
Proof.
  intros Hinv Hk Ho Hr Hb Hy Ha Hm Hv Hs. destruct Hinv.
  assert (forall f, held f k (owner st) cs = 0) as Hh.
  { intros f. apply held_fresh. eapply Forall_impl; [done|]. intros p (_ & _ & ?). lia. }
  assert (awaiting_bytes st = 0 /\ awaiting_count st = 0 /\ awaiting_rows st = 0) as (Hab & Hac & Har)
    by (unfold awaiting_bytes, awaiting_count, awaiting_rows; by rewrite Ha).
  split; try done.
  - simpl. rewrite map_sum_insert by done. lia.
  - simpl. rewrite map_sum_insert by done. lia.
  - eapply Forall_impl; [done|]. intros p (? & ? & ?). unfold charge_ok. simpl. lia.
  - apply map_Forall_insert_2.
    + split; rewrite ?Hh, ?Ha; simpl; try lia; try done.
      * destruct fi_config0. lia.
      * rewrite Hr. rlia.
      * intros [-> ->]%Hs. split_and!; [done|lia|lia].
    + eapply map_Forall_impl; [done|]. intros. eapply chan_ok_frame; try done. simpl. lia.
Qed.

Lemma budget_range c cs : flow_inv strict c cs -> 1 <= row_budget c <= u32_max.
Proof. intros [(_ & _ & _ & ?)]. unfold row_budget. lia. Qed.

(** [c'] is [c] with other channels. *)
Definition same_but_channels c c' : Prop := c' = set_channels c (live c') (next_id c').

Lemma entry_inv c cs k m c' st :
  flow_inv strict c cs -> 1 <= m <= u32_max -> (strict -> m = row_budget c) ->
  channel_entry c k m = (c', st) ->
  flow_inv strict c' cs /\ live c' !! k = Some st /\ same_but_channels c c'.
Proof.
  intros Hinv Hm Hs. unfold channel_entry. destruct (live c !! k) as [st0|] eqn:Hk.
  - intros [= <- <-]. split_and!; [done..|]. by destruct c.
  - intros [= <- <-]. split_and!; [|apply lookup_insert_eq|done].
    apply inv_fresh; simpl; try done; [lia..|]. intros; split; auto.
Qed.

Lemma inv_charge c cs k st nbytes n :
  flow_inv strict c cs -> live c !! k = Some st ->
  0 <= nbytes -> aggregate_bytes c + nbytes <= max_inflight_bytes c ->
  pending_requests c < max_pending_requests c ->
  batches_in_flight st < max_inflight_batches c -> 1 <= n <= available_rows st ->
  flow_inv strict
    (set_totals (put_channel c k (charge_channel st nbytes n))
       (aggregate_bytes c + nbytes) (pending_requests c + 1))
    ({| p_key := k; p_owner := owner st; p_batch_bytes := nbytes; p_row_count := n |} :: cs).
Proof.
  intros Hinv Hk Hn Hagg Hpend Hbat Hrows. destruct Hinv.
  pose proof (fi_channels0 k st Hk) as Hok. destruct Hok. split; try done; simpl.
  - rewrite zsum_cons, (map_sum_update _ _ k st) by done. unfold awaiting_bytes in *. simpl. lia.
  - rewrite (map_sum_update _ _ k st) by done. unfold awaiting_count in *. simpl. lia.
  - lia.
  - constructor; [unfold charge_ok; simpl; lia|]. done.
  - apply (channels_update c _ cs); try done; [|intros f k' o ?; by apply held_other; left].
    split; rewrite ?held_mine by done; simpl; try done; unfold awaiting_count, awaiting_bytes,
      awaiting_rows in *; simpl; try rlia.
    intros (Hm & Hr & Hv)%co_strict0. split_and!; [done|rlia|rlia].
Qed.

Lemma inv_handoff c cs p epoch seq c' :
  flow_inv strict c (p :: cs) -> handoff c p epoch seq = (c', true) -> flow_inv strict c' cs.
Proof.
  intros Hinv. unfold handoff, Ownership.same_owner. destruct (live c !! p_key p) as [st|] eqn:Hk; [|done].
  destruct (Z.eqb_spec (owner st) (p_owner p)) as [Ho|]; [|done]. intros [= <-].
  destruct Hinv. apply Forall_cons in fi_charges0 as [(? & ? & ?) ?].
  pose proof (fi_channels0 _ st Hk) as []. rewrite ?zsum_cons, ?length_cons in *.
  rewrite ?held_mine in * by done. split; try done; simpl.
  - rewrite (map_sum_update _ _ _ st) by done. unfold awaiting_bytes in *. simpl.
    rewrite zsum_snoc. simpl. lia.
  - rewrite (map_sum_update _ _ _ st) by done. unfold awaiting_count in *. simpl.
    rewrite length_app. simpl. lia.
  - apply (channels_update c _ (p :: cs)); try done; [|intros f k' o ?; symmetry; by apply held_other; left].
    split; simpl; try done; unfold awaiting_count, awaiting_bytes, awaiting_rows in *; simpl;
      rewrite ?length_app, ?zsum_snoc; simpl; try lia.
    + apply Forall_app_2; [done|]. repeat constructor; simpl; lia.
    + intros (? & ? & ?)%co_strict0. split_and!; [done|lia|lia].
Qed.

Lemma inv_take c cs k st i id nbytes rows :
  flow_inv strict c cs -> live c !! k = Some st -> awaiting_ack st !! i = Some (id, (nbytes, rows)) ->
  flow_inv strict
    (put_channel c k {|
       owner := owner st; had_delivery := had_delivery st;
       available_rows := available_rows st; max_rows := max_rows st;
       rows_in_flight := rows_in_flight st; batches_in_flight := batches_in_flight st;
       bytes_in_flight := bytes_in_flight st; awaiting_ack := delete i (awaiting_ack st) |})
    ({| p_key := k; p_owner := owner st; p_batch_bytes := nbytes; p_row_count := rows |} :: cs).
Proof.
  intros Hinv Hk Hi. destruct Hinv. pose proof (fi_channels0 k st Hk) as [].
  pose proof (length_delete (awaiting_ack st) i (mk_is_Some _ _ Hi)) as Hl.
  apply lookup_lt_Some in Hi as Hlt.
  pose proof (proj1 (Forall_lookup _ _) co_await0 _ _ Hi) as [? ?]. simpl in *.
  split; try done; simpl.
  - rewrite zsum_cons, (map_sum_update _ _ k st) by done. unfold awaiting_bytes in *. simpl.
    erewrite zsum_delete by done. simpl. lia.
  - rewrite (map_sum_update _ _ k st) by done. unfold awaiting_count in *. simpl. lia.
  - constructor; [unfold charge_ok; simpl; lia|done].
  - apply (channels_update c _ cs); try done; [|intros f k' o ?; by apply held_other; left].
    split; rewrite ?held_mine by done; simpl; try done;
      unfold awaiting_count, awaiting_bytes, awaiting_rows in *; simpl;
      erewrite ?zsum_delete by done; simpl; try lia.
    + by apply Forall_delete.
    + intros (? & ? & ?)%co_strict0. split_and!; [done|lia|lia].
Qed.

Lemma charges_nonneg c cs :
  Forall (charge_ok c) cs ->
  0 <= zsum p_batch_bytes cs /\
  (forall k o, 0 <= held (fun _ => 1) k o cs /\ 0 <= held p_batch_bytes k o cs /\
     0 <= held p_row_count k o cs).
Proof.
  intros Hc. split; [|intros k o; split_and!; apply held_nonneg].
  1: apply zsum_nonneg.
  all: eapply Forall_impl; [done|]; intros p (? & ? & _); lia.
Qed.

Lemma awaiting_sums_nonneg c cs m :
  map_Forall (chan_ok strict c cs) m ->
  0 <= map_sum (fun _ => awaiting_bytes) m /\ 0 <= map_sum (fun _ => awaiting_count) m.
Proof.
  intros Hm. split; apply map_sum_nonneg; intros k st Hk; by eapply awaiting_nonneg, Hm.
Qed.

(** The reservation of a channel that is gone, or was replaced. *)
Lemma inv_release_stale c cs p :
  flow_inv strict c (p :: cs) ->
  (forall st, live c !! p_key p = Some st -> owner st <> p_owner p) ->
  flow_inv strict
    (set_totals c (saturating_sub (aggregate_bytes c) (p_batch_bytes p))
       (saturating_sub (pending_requests c) 1)) cs.
Proof.
  intros Hinv Hst. destruct Hinv. apply Forall_cons in fi_charges0 as [(? & ? & ?) Hcs].
  destruct (charges_nonneg c cs Hcs) as [? _].
  destruct (awaiting_sums_nonneg c (p :: cs) (live c)) as [? ?]; [done|].
  rewrite ?zsum_cons, ?length_cons in *. split; try done; simpl; try rlia.
  intros k' st' Hk'. eapply chan_ok_frame; [by apply fi_channels0|..]; try done.
  intros f. symmetry. apply held_other.
  destruct (decide (p_key p = k')) as [<-|]; [right|by left]. intros ?. by apply (Hst st').
Qed.

Lemma inv_release c cs p :
  flow_inv strict c (p :: cs) ->
  flow_inv strict
    (release_batch_permit c (p_key p) (p_owner p) (p_batch_bytes p) (p_row_count p)) cs.
Proof.
  intros Hinv. unfold release_batch_permit, Ownership.release_accounting, Ownership.same_owner.
  destruct (live c !! p_key p) as [st|] eqn:Hk;
    [|apply inv_release_stale; [done|]; intros st ?; congruence].
  destruct (Z.eqb_spec (owner st) (p_owner p)) as [Ho|Ho];
    [|apply inv_release_stale; [done|]; intros st' ?; congruence].
  destruct Hinv. apply Forall_cons in fi_charges0 as [(? & ? & ?) Hcs].
  destruct (charges_nonneg c cs Hcs) as [? Hh]. specialize (Hh (p_key p) (owner st)).
  destruct (awaiting_sums_nonneg c (p :: cs) (live c)) as [? ?]; [done|].
  pose proof (fi_channels0 _ st Hk) as Hok. pose proof (awaiting_nonneg _ _ _ _ _ Hok) as (? & ? & ?).
  destruct Hok. rewrite ?zsum_cons, ?length_cons, ?held_mine in * by done.
  split; try done; simpl; try rlia.
  - rewrite (map_sum_update _ _ _ st) by done. unfold awaiting_bytes in *. simpl. rlia.
  - rewrite (map_sum_update _ _ _ st) by done. unfold awaiting_count in *. simpl. rlia.
  - apply (channels_update c _ (p :: cs)); try done; [|intros f k' o ?; symmetry; by apply held_other; left].
    split; simpl; try done; unfold awaiting_count, awaiting_bytes, awaiting_rows in *; simpl; try rlia.
    intros (? & ? & ?)%co_strict0. split_and!; [done|rlia|rlia].
Qed.

Lemma inv_teardown c cs ex : flow_inv strict c cs -> flow_inv strict (teardown_channels c ex) cs.
Proof.
  intros []. destruct fi_config0 as (? & ? & ? & ?).
  destruct (charges_nonneg c cs) as [? _]; [done|].
  set (gone := filter (fun e => e.1.1.1 = ex) (live c)).
  set (kept := filter (fun e => e.1.1.1 <> ex) (live c)).
  assert (forall f, map_sum f (live c) = map_sum f gone + map_sum f kept) as Hsplit.
  { intros f. rewrite <-map_sum_union by apply map_disjoint_filter_complement.
    unfold gone, kept. by rewrite map_filter_union_complement. }
  destruct (awaiting_sums_nonneg c cs gone) as [? ?];
    [intros k st [? _]%map_lookup_filter_Some; by apply fi_channels0|].
  destruct (awaiting_sums_nonneg c cs kept) as [? ?];
    [intros k st [? _]%map_lookup_filter_Some; by apply fi_channels0|].
  rewrite !Hsplit in *. split; simpl; fold gone kept; try done;
    rewrite ?(as_u64_id) by rlia; try rlia.
  intros k st [Hk _]%map_lookup_filter_Some. by eapply chan_ok_frame; [apply fi_channels0|..].
Qed.

Lemma inv_waiting c cs ns queued next :
  flow_inv strict c cs -> next_id c <= next -> flow_inv strict (set_waiting c ns queued next) cs.
Proof.
  intros [] Hn. split; try done.
  - eapply Forall_impl; [done|]. intros p (? & ? & ?). unfold charge_ok. simpl. lia.
  - eapply map_Forall_impl; [done|]. intros. by eapply chan_ok_frame.
Qed.

Lemma inv_try c cs r m c' res :
  flow_inv strict c cs -> 0 <= r_bytes r -> 1 <= m <= u32_max -> (strict -> m = row_budget c) ->
  try_acquire_locked c r m = (c', res) ->
  match res with Ok p => flow_inv strict c' (p :: cs) | Err _ => flow_inv strict c' cs end.
Proof.
  intros Hinv Hb Hm Hs. unfold try_acquire_locked.
  case_bool_decide; [by intros [= <- <-]|].
  destruct (Z.leb_spec (max_pending_requests c) (pending_requests c)); [by intros [= <- <-]|].
  destruct (Z.ltb_spec (max_inflight_bytes c) (saturating_add usize_max (aggregate_bytes c) (r_bytes r)));
    [by intros [= <- <-]|].
  destruct (channel_entry c (r_key r) m) as [c1 st] eqn:He.
  destruct (entry_inv c cs _ _ _ _ Hinv Hm Hs He) as (Hinv1 & Hk & Hc).
  destruct (Z.leb_spec (max_inflight_batches c1) (batches_in_flight st)); [by intros [= <- <-]|].
  destruct (Z.ltb_spec (available_rows st) (Z.max (r_rows r) 1)); [by intros [= <- <-]|].
  intros [= <- <-]. unfold same_but_channels in Hc.
  assert (max_pending_requests c1 = max_pending_requests c /\ max_inflight_bytes c1 = max_inflight_bytes c /\
    pending_requests c1 = pending_requests c /\ aggregate_bytes c1 = aggregate_bytes c)
    as (? & ? & ? & ?) by (by rewrite Hc).
  pose proof Hinv1 as [(? & ? & ? & ?) ? ? ? ? Hcs ?].
  destruct (charges_nonneg c1 cs Hcs) as [? _].
  destruct (awaiting_sums_nonneg c1 cs (live c1)) as [? ?]; [done|].
  change (aggregate_bytes (put_channel _ _ _)) with (aggregate_bytes c1).
  change (pending_requests (put_channel _ _ _)) with (pending_requests c1).
  rewrite !as_u64_id by rlia. apply inv_charge; rlia || done.
Qed.

(** Row accounting alone changes; under [strict] the channel has no batch. *)
Lemma chan_ok_uncharge c cs k st n :
  Forall (charge_ok c) cs -> chan_ok strict c cs k st -> 0 <= n ->
  (strict -> batches_in_flight st = 0) -> chan_ok strict c cs k (uncharge_rows st n).
Proof.
  intros Hcs Hok Hn Hb. pose proof (awaiting_nonneg _ _ _ _ _ Hok) as (? & ? & ?).
  destruct (charges_nonneg c cs Hcs) as [_ Hh]. specialize (Hh k (owner st)).
  destruct Hok. split; simpl; try done; try rlia.
  intros Hs. destruct (co_strict0 Hs) as (? & ? & ?). specialize (Hb Hs).
  rewrite (held_none p_row_count) in * by lia.
  assert (awaiting_ack st = []) as Ha by (apply nil_length_inv; unfold awaiting_count in *; lia).
  unfold awaiting_rows in *. simpl. rewrite Ha in *. unfold zsum in *. simpl in *.
  split_and!; [done|rlia|rlia].
Qed.

Lemma inv_ack c cs ack c' out :
  flow_inv strict c cs -> in_u32 (credit_grant ack) -> handle_ack c ack = (c', out) ->
  match out with
  | AckReserved o nbytes rows => flow_inv strict c'
      ({| p_key := ack_key ack; p_owner := o; p_batch_bytes := nbytes; p_row_count := rows |} :: cs)
  | _ => flow_inv strict c' cs
  end.
Proof.
  intros Hinv Hg. unfold handle_ack, channel_state. case_bool_decide; [by intros [= <- <-]|].
  destruct (channel_entry c (ack_key ack) (row_budget c)) as [c1 st] eqn:He.
  destruct (entry_inv c cs _ _ _ _ Hinv (budget_range _ _ Hinv) (fun _ => eq_refl) He) as (Hinv1 & Hk & _).
  destruct (list_find _ _) as [[i [id [nbytes rows]]]|] eqn:Hf.
  - intros [= <- <-]. apply list_find_Some in Hf as (Hi & _). by eapply inv_take.
  - intros [= <- <-]. destruct (Z.eqb_spec (batches_in_flight st) 0); [|done].
    eapply inv_put; [done..|]. apply chan_ok_uncharge; try done; [apply Hinv1|by apply Hinv1|lia].
Qed.
End inv.

(** The legacy entry points keep the accounting without the row equation. *)
Section legacy.
Implicit Types (c : FlowController) (cs : list FlowPermit).

Lemma entry_inv_budget c cs k c' st :
  flow_inv False c cs -> channel_state c k = (c', st) ->
  flow_inv False c' cs /\ live c' !! k = Some st.
Proof.
  intros Hinv He.
  destruct (entry_inv False c cs _ _ _ _ Hinv (budget_range _ _ _ Hinv) (fun _ => eq_refl) He)
    as (? & ? & _). done.
Qed.

Lemma inv_release_credit c cs k n c' b :
  flow_inv False c cs -> in_u32 n -> release_credit c k n = (c', b) -> flow_inv False c' cs.
Proof.
  intros Hinv Hn. unfold release_credit. case_bool_decide; [by intros [= <- <-]|].
  destruct (channel_state c k) as [c1 st] eqn:He. intros [= <- <-].
  destruct (entry_inv_budget _ _ _ _ _ Hinv He) as [Hinv1 Hk].
  eapply inv_put; [done..|]. apply chan_ok_uncharge; try done; [apply Hinv1|by apply Hinv1|lia].
Qed.

Lemma inv_try_rows c cs k n c' res :
  flow_inv False c cs -> 1 <= n -> try_acquire_rows c k n = (c', res) -> flow_inv False c' cs.
Proof.
  intros Hinv Hn. unfold try_acquire_rows. case_bool_decide; [by intros [= <- <-]|].
  destruct (channel_state c k) as [c1 st] eqn:He.
  destruct (entry_inv_budget _ _ _ _ _ Hinv He) as [Hinv1 Hk].
  destruct (Z.ltb_spec (available_rows st) n); intros [= <- <-]; [done|].
  eapply inv_put; [done..|]. destruct (fi_channels _ _ _ Hinv1 k st Hk).
  split; simpl; try done; rlia.
Qed.

Lemma inv_set_credits c cs k n :
  flow_inv False c cs -> in_u32 n -> flow_inv False (set_credits c k n) cs.
Proof.
  intros Hinv Hn. unfold set_credits. case_bool_decide; [done|].
  destruct (live c !! k) as [st|] eqn:Hk.
  - destruct (Z.eqb_spec (rows_in_flight st) 0), (Z.eqb_spec (batches_in_flight st) 0); try done.
    case_bool_decide; try done. simpl.
    eapply inv_put; [done..|]. destruct (fi_channels _ _ _ Hinv k st Hk).
    split; simpl; try done; rlia.
  - by apply inv_fresh; simpl; try done; rlia.
Qed.

Lemma inv_set_budget c cs n :
  flow_inv False c cs -> in_u32 n -> flow_inv False (set_row_budget c n) cs.
Proof.
  intros [(? & ? & ? & ?)] Hn. split; try done.
  - unfold config_ok. simpl. rlia.
  - simpl. by rewrite map_sum_fmap.
  - simpl. by rewrite map_sum_fmap.
  - intros k st'. simpl. rewrite lookup_fmap_Some. intros (st & <- & Hk).
    destruct (fi_channels0 k st Hk). split; simpl; try done; rlia.
Qed.
End legacy.

(* ------------------------------------------------------------------ *)
(** ** Steps keep the accounting *)

(** Sections of the channel lock leave the limits, the budget and the waiter
    quota alone. *)
Definition frame (c c' : FlowController) : Prop :=
  max_inflight_batches c' = max_inflight_batches c /\ max_inflight_bytes c' = max_inflight_bytes c /\
  max_batch_bytes c' = max_batch_bytes c /\ max_pending_requests c' = max_pending_requests c /\
  budget_cell c' = budget_cell c /\ queued_credit_waiters c' = queued_credit_waiters c.

Lemma frame_entry c k m : frame c (channel_entry c k m).1.
Proof. unfold channel_entry. by destruct (live c !! k). Qed.

Lemma frame_locked c r m : frame c (try_acquire_locked c r m).1.
Proof.
  unfold try_acquire_locked. pose proof (frame_entry c (r_key r) m) as Hf.
  destruct (channel_entry c (r_key r) m) as [c1 st]. simpl in Hf. by repeat case_match.
Qed.

Lemma frame_ack c ack : frame c (handle_ack c ack).1.
Proof.
  unfold handle_ack, channel_state. pose proof (frame_entry c (ack_key ack) (row_budget c)) as Hf.
  destruct (channel_entry c _ _) as [c1 st]. simpl in Hf.
  case_bool_decide; [done|]. destruct (list_find _ _) as [[? [? [? ?]]]|]; [done|].
  by destruct (_ =? _).
Qed.

Lemma frame_try_rows c k n : frame c (try_acquire_rows c k n).1.
Proof.
  unfold try_acquire_rows, channel_state. pose proof (frame_entry c k (row_budget c)) as Hf.
  destruct (channel_entry c k _) as [c1 st]. simpl in Hf. by repeat case_match.
Qed.

Lemma frame_release_credit c k n : frame c (release_credit c k n).1.
Proof.
  unfold release_credit, channel_state. pose proof (frame_entry c k (row_budget c)) as Hf.
  destruct (channel_entry c k _) as [c1 st]. simpl in Hf. by case_match.
Qed.

Lemma frame_set_credits c k n : frame c (set_credits c k n).
Proof. unfold set_credits. by repeat case_match. Qed.

Lemma frame_handoff c p e s : frame c (handoff c p e s).1.
Proof. unfold handoff. by repeat case_match. Qed.

Lemma frame_release c k o b n : frame c (release_batch_permit c k o b n).
Proof. unfold release_batch_permit, Ownership.release_accounting. by repeat case_match; simplify_eq. Qed.

Definition task_ok (strict : Prop) (c : FlowController) (t : Task) : Prop :=
  match t with
  | Acquire r _ _ pc =>
    0 <= r_bytes r /\
    match pc with Loaded _ m => 1 <= m <= u32_max /\ (strict -> m = row_budget c) | _ => True end
  | Rows _ n _ => 1 <= n /\ ~ strict
  | _ => True
  end.

Record sys_inv (strict : Prop) (s : System) : Prop := {
  si_flow : flow_inv strict s.1 (charges s.2);
  si_tasks : Forall (task_ok strict s.1) s.2;
  si_quota : queued_credit_waiters s.1 = slots s.2;
  si_quota_max : queued_credit_waiters s.1 <= max_pending_requests s.1;
}.

(** The limits and the budget are the same and [d] more waiter slots are held. *)
Definition moved (c c' : FlowController) (d : Z) : Prop :=
  max_inflight_batches c' = max_inflight_batches c /\ max_inflight_bytes c' = max_inflight_bytes c /\
  max_batch_bytes c' = max_batch_bytes c /\ max_pending_requests c' = max_pending_requests c /\
  budget_cell c' = budget_cell c /\ queued_credit_waiters c' = queued_credit_waiters c + d.

Lemma moved_frame c c' : frame c c' -> moved c c' 0.
Proof. unfold frame, moved. intros (? & ? & ? & ? & ? & ->). split_and!; try done. lia. Qed.

Lemma slots_cons t ts : slots (t :: ts) = (if holds_slot t then 1 else 0) + slots ts.
Proof. done. Qed.

Lemma slots_one t : slots [t] = if holds_slot t then 1 else 0.
Proof. unfold slots, zsum. simpl. by destruct (holds_slot t). Qed.

Lemma slots_app ts ts' : slots (ts ++ ts') = slots ts + slots ts'.
Proof. apply zsum_app. Qed.

Lemma slots_nonneg ts : 0 <= slots ts.
Proof. apply zsum_nonneg, Forall_true. intros t. by destruct (holds_slot t). Qed.

Lemma charges_app ts ts' : charges (ts ++ ts') = charges ts ++ charges ts'.
Proof. apply omap_app. Qed.

Lemma charges_wake w ts : charges (wake w <$> ts) = charges ts.
Proof.
  induction ts as [|t ts IH]; [done|]. rewrite fmap_cons.
  change (charges (?a :: ?b)) with (charges ([a] ++ b)). rewrite !charges_app, IH.
  by destruct w, t.
Qed.

Lemma slots_wake w ts : slots (wake w <$> ts) = slots ts.
Proof.
  induction ts as [|t ts IH]; [done|]. rewrite fmap_cons, !slots_cons, IH. f_equal.
  by destruct w, t as [| | | | | | | | |? ? []|].
Qed.

Lemma task_ok_wake strict c w t : task_ok strict c t -> task_ok strict c (wake w t).
Proof. by destruct w, t as [? ? ? []| | | | | | | | | |]. Qed.

Lemma task_ok_budget strict c c' t :
  (strict -> budget_cell c' = budget_cell c) -> task_ok strict c t -> task_ok strict c' t.
Proof.
  intros Hb. destruct t as [r ? ? []| | | | | | | | | |]; simpl; try done.
  intros (? & ? & Hm). split; [done|]. split; [done|]. intros Hs. unfold row_budget. rewrite Hb by done. auto.
Qed.

(** What one segment of task [t] leaves: the accounting of its successors beside
    the reservations [cs] of all other tasks. *)
Record seg_ok (strict : Prop) (c : FlowController) (t : Task) (cs : list FlowPermit)
    (c' : FlowController) (ts' : list Task) : Prop := {
  sg_flow : flow_inv strict c' (charges ts' ++ cs);
  sg_tasks : Forall (task_ok strict c') ts';
  sg_moved : moved c c' (slots ts' - slots [t]);
  sg_quota : queued_credit_waiters c' <= max_pending_requests c';
}.

(** Well-formedness of a short list of tasks. *)
Ltac tasks_ok :=
  lazymatch goal with
  | |- Forall _ _ => repeat (apply Forall_cons_2; [simpl; tauto|]); by apply Forall_nil_2
  end.

Section steps.
Context (strict : Prop).

(** The usual segment: the quota is not touched. *)
Lemma seg_frame c t cs c' ts' :
  flow_inv strict c' (charges ts' ++ cs) -> Forall (task_ok strict c') ts' ->
  frame c c' -> slots ts' = slots [t] ->
  queued_credit_waiters c <= max_pending_requests c -> seg_ok strict c t cs c' ts'.
Proof.
  intros Hf Ht Hfr Hs Hq. split; try done.
  - rewrite Hs, Z.sub_diag. by apply moved_frame.
  - destruct Hfr as (_ & _ & _ & -> & _ & ->). done.
Qed.

Lemma leave_slots r once slot pc : slots (leave slot) = slots [Acquire r once slot pc].
Proof. by destruct slot. Qed.

Lemma charges_leave slot : charges (leave slot) = [].
Proof. by destruct slot. Qed.

Lemma leave_ok c slot : Forall (task_ok strict c) (leave slot).
Proof. destruct slot; by repeat constructor. Qed.

Lemma reserve_ok c c1 cs :
  flow_inv strict c cs -> reserve_credit_waiter c = Ok c1 ->
  flow_inv strict c1 cs /\ moved c c1 1 /\ queued_credit_waiters c1 <= max_pending_requests c1.
Proof.
  intros Hf. unfold reserve_credit_waiter.
  destruct (Z.leb_spec (max_pending_requests c) (queued_credit_waiters c)); [done|]. intros [= <-].
  split_and!; [by apply inv_waiting|done|simpl; lia].
Qed.

Lemma flow_load_ok c cs r m :
  flow_inv strict c cs -> try_acquire_load c r = Ok m -> 1 <= m <= u32_max /\ m = row_budget c.
Proof.
  intros Hf. unfold try_acquire_load. destruct (check_frame_size _ _); [|done]. simpl.
  case_match; [done|]. intros [= <-]. split; [by eapply budget_range|done].
Qed.

Lemma run_acquire_ok c r once slot pc cs c' ts' :
  flow_inv strict c cs -> task_ok strict c (Acquire r once slot pc) ->
  queued_credit_waiters c <= max_pending_requests c ->
  run_acquire c r once slot pc = Some (c', ts') ->
  seg_ok strict c (Acquire r once slot pc) cs c' ts'.
Proof.
  intros Hf [Hb Hpc] Hq. destruct pc as [|n|n m|n|[]]; simpl; try done.
  - intros [= <- <-]. by apply seg_frame; try tasks_ok.
  - destruct (try_acquire_load c r) as [m|] eqn:Hl; intros [= <- <-].
    + apply flow_load_ok with (cs := cs) in Hl; [|done]. apply seg_frame; try done.
      apply Forall_singleton. simpl. tauto.
    + apply seg_frame; rewrite ?charges_leave; try done; [apply leave_ok|apply leave_slots].
  - destruct Hpc as [Hm Hs]. pose proof (frame_locked c r m) as Hfr.
    destruct (try_acquire_locked c r m) as [c1 res] eqn:Hl. simpl in Hfr.
    pose proof (inv_try strict c cs r m c1 res Hf Hb Hm Hs Hl) as Hi. destruct res as [p|e].
    + intros [= <- <-]. apply seg_frame; try done.
      * change (charges (Permit p :: leave slot)) with (p :: charges (leave slot)).
        by rewrite charges_leave.
      * constructor; [done|apply leave_ok].
      * rewrite slots_cons. simpl. apply leave_slots.
    + destruct (_ && _); intros [= <- <-]; apply seg_frame; rewrite ?charges_leave; try done;
        [tasks_ok|apply leave_ok|apply leave_slots].
  - destruct slot.
    { intros [= <- <-]. by apply seg_frame; try tasks_ok. }
    destruct (reserve_credit_waiter c) as [c1|] eqn:Hr; intros [= <- <-].
    + destruct (reserve_ok c c1 cs Hf Hr) as (? & ? & ?). by split; try tasks_ok.
    + by apply seg_frame; try tasks_ok.
  - intros [= <- <-]. by apply seg_frame; try tasks_ok.
Qed.

Lemma quota_drop_ok c cs t :
  flow_inv strict c cs -> holds_slot t = true ->
  1 <= queued_credit_waiters c <= max_pending_requests c ->
  seg_ok strict c t cs (drop_credit_waiter c) [].
Proof.
  intros Hf Ht Hq. pose proof (fi_config _ _ _ Hf) as (_ & _ & ? & _).
  assert (as_u64 (queued_credit_waiters c - 1) = queued_credit_waiters c - 1) as Hd
    by (apply as_u64_id; rlia).
  split; try done.
  - by apply inv_waiting.
  - unfold moved, drop_credit_waiter. simpl. rewrite Hd, slots_cons, Ht. split_and!; done.
  - simpl. lia.
Qed.

Lemma flow_inv_weaken (s s' : Prop) c cs : (s' -> s) -> flow_inv s c cs -> flow_inv s' c cs.
Proof.
  intros Hs []. split; try done. eapply map_Forall_impl; [done|].
  intros k st []. split; try done. auto.
Qed.

Lemma rows_try_ok c k n cs c1 res :
  ~ strict -> flow_inv strict c cs -> 1 <= n -> try_acquire_rows c k n = (c1, res) ->
  flow_inv strict c1 cs /\ frame c c1.
Proof.
  intros Hs Hf Hn Ht. pose proof (frame_try_rows c k n) as Hfr. rewrite Ht in Hfr. split; [|done].
  apply (flow_inv_weaken False); [done|]. eapply inv_try_rows; [|done..].
  by apply (flow_inv_weaken strict).
Qed.

Lemma run_rows_ok c k n pc cs c' ts' :
  flow_inv strict c cs -> task_ok strict c (Rows k n pc) ->
  queued_credit_waiters c <= max_pending_requests c ->
  run_rows c k n pc = Some (c', ts') -> seg_ok strict c (Rows k n pc) cs c' ts'.
Proof.
  intros Hf [Hn Hs] Hq. destruct pc as [| | |id|id b|id []|id]; simpl; try done.
  - destruct (try_acquire_rows c k n) as [c1 res] eqn:Ht.
    destruct (rows_try_ok _ _ _ _ _ _ Hs Hf Hn Ht). intros E. apply seg_frame; try done;
      destruct res as [[]|]; simplify_eq/=; try tasks_ok; done.
  - destruct (reserve_credit_waiter c) as [c1|] eqn:Hr; intros [= <- <-].
    + destruct (reserve_ok c c1 cs Hf Hr) as (? & ? & ?). by split; try tasks_ok.
    + by apply seg_frame; try tasks_ok.
  - unfold reserve_channel_notifier. destruct (notifiers c !! k) as [ch|]; intros [= <- <-];
      apply seg_frame; try tasks_ok; try done; apply inv_waiting; (done || lia).
  - intros [= <- <-]. by apply seg_frame; try tasks_ok.
  - destruct (try_acquire_rows c k n) as [c1 res] eqn:Ht.
    destruct (rows_try_ok _ _ _ _ _ _ Hs Hf Hn Ht). intros E. apply seg_frame; try done;
      destruct res as [[]|]; simplify_eq/=; try tasks_ok; done.
  - intros [= <- <-]. by apply seg_frame; try tasks_ok.
  - intros [= <- <-]. unfold drop_channel_waiter.
    apply seg_frame; try tasks_ok; try done; repeat case_match; try done; by apply inv_waiting.
Qed.

Lemma run_task_acquire c r once slot pc :
  run_task c (Acquire r once slot pc) Run = (., WakeNone) <$> run_acquire c r once slot pc.
Proof. by destruct pc. Qed.

Lemma run_task_rows c k n pc :
  run_task c (Rows k n pc) Run = (., WakeNone) <$> run_rows c k n pc.
Proof. by destruct pc. Qed.

Lemma run_task_ok c t a cs c' ts' w :
  flow_inv strict c (charges [t] ++ cs) -> task_ok strict c t ->
  slots [t] <= queued_credit_waiters c <= max_pending_requests c ->
  run_task c t a = Some (c', ts', w) -> seg_ok strict c t cs c' ts'.
Proof.
  intros Hf Ht [Hq0 Hq] E.
  destruct t as [r once slot pc|p|k o nb n|k|k|ex|ids| | |k n pc|]; simpl in Hf.
  - destruct a; [|destruct pc; try done|by destruct pc].
    + rewrite run_task_acquire in E. apply fmap_Some in E as ([c1 ts1] & Hr & [= -> -> ->]).
      by apply run_acquire_ok.
    + simplify_eq/=. apply seg_frame; rewrite ?charges_leave; try done;
        [apply leave_ok|apply leave_slots].
  - destruct a as [| |e s]; simpl in E; [|done|].
    + simplify_eq. apply seg_frame; try tasks_ok; try done. by destruct p.
    + destruct (handoff c p e s) as [c1 []] eqn:Hh; simplify_eq;
        pose proof (frame_handoff c p e s) as Hfr; rewrite Hh in Hfr; apply seg_frame; try tasks_ok; try done.
      * by eapply inv_handoff.
      * unfold handoff in Hh. repeat case_match; simplify_eq; by destruct p.
  - destruct a; try done. simplify_eq/=. apply seg_frame; try tasks_ok; try done.
    + by apply (inv_release strict c cs
        {| p_key := k; p_owner := o; p_batch_bytes := nb; p_row_count := n |}).
    + apply frame_release.
  - destruct a; try done. simplify_eq/=. by apply seg_frame; try tasks_ok.
  - destruct a; try done. simplify_eq/=. by apply seg_frame; try tasks_ok.
  - destruct a; try done. simplify_eq/=. apply seg_frame; try tasks_ok; try done. by apply inv_waiting.
  - destruct ids, a; simplify_eq/=; by apply seg_frame; try tasks_ok.
  - destruct a; try done. simplify_eq/=. by apply seg_frame; try tasks_ok.
  - destruct a; try done. simplify_eq/=. by apply seg_frame; try tasks_ok.
  - destruct a; [|destruct pc; try done|by destruct pc].
    + rewrite run_task_rows in E. apply fmap_Some in E as ([c1 ts1] & Hr & [= -> -> ->]).
      by apply run_rows_ok.
    + simplify_eq/=. by apply seg_frame; try tasks_ok.
  - destruct a; try done. simplify_eq/=. by apply quota_drop_ok.
Qed.

Lemma start_ok c call cs c' ts' :
  flow_inv strict c cs -> call_ok call -> (strict -> batch_call call = true) ->
  start c call = (c', ts') ->
  flow_inv strict c' (charges ts' ++ cs) /\ Forall (task_ok strict c') ts' /\ slots ts' = 0 /\
  queued_credit_waiters c' = queued_credit_waiters c /\
  max_pending_requests c' = max_pending_requests c /\ (strict -> budget_cell c' = budget_cell c).
Proof.
  intros Hf Hok Hb E.
  assert (batch_call call = false -> ~ strict) as Hns by (intros Hc Hs; specialize (Hb Hs); congruence).
  assert (batch_call call = false -> flow_inv False c cs) as Hf'
    by (intros _; by apply (flow_inv_weaken strict)).
  assert (forall c1, batch_call call = false -> flow_inv False c1 cs -> flow_inv strict c1 cs) as Hback
    by (intros c1 Hc; apply flow_inv_weaken; intros Hs; by apply Hns).
  destruct call as [r|r|ack|ex|n|k n|k n|k n]; simpl in *.
  - simplify_eq. split_and!; try done. apply Forall_singleton. simpl. tauto.
  - destruct (try_acquire_load c r); simplify_eq; split_and!; try done; try tasks_ok.
  - pose proof (frame_ack c ack) as (_ & _ & _ & Hm & Hbc & Hq).
    destruct (handle_ack c ack) as [c1 out] eqn:Ha.
    pose proof (inv_ack strict c cs ack c1 out Hf Hok Ha) as Hi.
    destruct out; simplify_eq; split_and!; try tasks_ok; done.
  - simplify_eq. split_and!; try tasks_ok; try done. by apply inv_teardown.
  - simplify_eq. split_and!; try tasks_ok; try done.
    + apply Hback; [done|]. apply inv_set_budget; [by apply Hf'|done].
    + intros Hs. by specialize (Hb Hs).
  - destruct (_ <? _); simplify_eq; split_and!; try tasks_ok; try done.
    apply Forall_singleton. simpl. split; [lia|by apply Hns].
  - pose proof (frame_release_credit c k n) as (_ & _ & _ & Hm & Hbc & Hq).
    destruct (release_credit c k n) as [c1 b] eqn:Hr.
    assert (flow_inv strict c1 cs) by
      (apply Hback; [done|]; eapply inv_release_credit; [by apply Hf'|done..]).
    destruct b; simplify_eq; split_and!; try tasks_ok; done.
  - simplify_eq. pose proof (frame_set_credits c k n) as (_ & _ & _ & Hm & Hbc & Hq).
    split_and!; try tasks_ok; try done. apply Hback; [done|].
    apply inv_set_credits; [by apply Hf'|done].
Qed.

Lemma sys_inv_segment c l1 t l2 a c' ts' w :
  sys_inv strict (c, l1 ++ t :: l2) -> run_task c t a = Some (c', ts', w) ->
  flow_inv strict c (charges [t] ++ charges (l1 ++ l2)) /\ task_ok strict c t /\
  Forall (task_ok strict c) (l1 ++ l2) /\
  queued_credit_waiters c = slots [t] + slots (l1 ++ l2) /\
  seg_ok strict c t (charges (l1 ++ l2)) c' ts'.
Proof.
  intros [Hf Ht Hq Hqm] E. simpl in *.
  apply Forall_app in Ht as [Ht1 [Ht Ht2]%Forall_cons]. rewrite slots_app, slots_cons in Hq.
  assert (flow_inv strict c (charges [t] ++ charges (l1 ++ l2))) as Hf'.
  { eapply flow_inv_perm; [|exact Hf]. rewrite <-charges_app. unfold charges. apply omap_Permutation.
    symmetry. apply (Permutation_middle l1 l2 t). }
  rewrite slots_one, slots_app. pose proof (slots_nonneg l1). pose proof (slots_nonneg l2).
  split_and!; [done..|by apply Forall_app_2|lia|].
  eapply run_task_ok; [done..| |done]. rewrite slots_one. lia.
Qed.

Lemma sys_inv_step (allowed : call -> bool) s s' :
  (forall call, allowed call = true -> strict -> batch_call call = true) ->
  sys_inv strict s -> flow_step allowed s s' -> sys_inv strict s'.
Proof.
  intros Hall Hinv Hstep. destruct Hstep as [c ts call c' ts' Ha Hok E|c l1 t l2 a c' ts' w E].
  - destruct Hinv as [Hf Ht Hq Hqm]; simpl in *.
    destruct (start_ok c call (charges ts) c' ts') as (? & ? & ? & Hq' & Hm' & ?); try done; [by apply Hall|].
    split; simpl; rewrite ?charges_app, ?slots_app, ?Hq', ?Hm'; try done; [|lia].
    apply Forall_app_2; [done|]. eapply Forall_impl; [exact Ht|]. intros. by eapply task_ok_budget.
  - destruct (sys_inv_segment _ _ _ _ _ _ _ _ Hinv E) as (_ & _ & Hrest & Hq & [Hf' Ht' Hmv Hqm']).
    destruct Hmv as (_ & _ & _ & Hm & Hb & Hq').
    split; simpl; rewrite ?charges_app, ?charges_wake, ?slots_app, ?slots_wake; [done| |lia|done].
    apply Forall_app_2; [done|]. apply Forall_fmap. eapply Forall_impl; [exact Hrest|].
    intros t' Hok. by apply task_ok_wake, (task_ok_budget strict c).
Qed.
End steps.

Definition limits (c : FlowController) : Z * Z * Z * Z :=
  (max_inflight_batches c, max_inflight_bytes c, max_batch_bytes c, max_pending_requests c).

Lemma limits_frame c c' : frame c c' -> limits c' = limits c.
Proof. intros (? & ? & ? & ? & _). unfold limits. congruence. Qed.

Lemma limits_start c call c' ts' : start c call = (c', ts') -> limits c' = limits c.
Proof.
  destruct call as [r|r|ack|ex|n|k n|k n|k n]; simpl.
  - by intros [= <- <-].
  - by destruct (try_acquire_load c r); intros [= <- <-].
  - pose proof (limits_frame _ _ (frame_ack c ack)) as Hl.
    destruct (handle_ack c ack) as [c1 []]; by intros [= <- <-].
  - by intros [= <- <-].
  - by intros [= <- <-].
  - by destruct (_ <? _); intros [= <- <-].
  - pose proof (limits_frame _ _ (frame_release_credit c k n)) as Hl.
    destruct (release_credit c k n) as [c1 []]; by intros [= <- <-].
  - intros [= <- <-]. apply limits_frame, frame_set_credits.
Qed.

Lemma limits_step strict allowed s s' :
  sys_inv strict s -> flow_step allowed s s' -> limits s'.1 = limits s.1.
Proof.
  intros Hinv Hstep. destruct Hstep as [c ts call c' ts' Ha Hok E|c l1 t l2 a c' ts' w E];
    [by eapply limits_start|].
  destruct (sys_inv_segment _ _ _ _ _ _ _ _ _ Hinv E) as (_ & _ & _ & _ & [_ _ (? & ? & ? & ? & _) _]).
  unfold limits. simpl. congruence.
Qed.

(** A controller as a worker builds it. *)
Definition configured (batches inflight batch pending budget : Z) : FlowController :=
  with_limits batches inflight batch pending (with_row_budget budget).

Definition settings_ok (batches inflight batch pending budget : Z) : Prop :=
  in_u64 batches /\ 0 <= inflight < usize_max /\ in_u64 batch /\ in_u64 pending /\ in_u32 budget.

Lemma sys_inv_init strict b i m p n :
  settings_ok b i m p n -> sys_inv strict (configured b i m p n, []).
Proof.
  intros (? & ? & ? & ? & ?). split; simpl; try done; [|lia].
  split; simpl; try done; [|lia..]. unfold config_ok. simpl. rlia.
Qed.

Lemma sys_inv_reachable strict allowed b i m p n s :
  settings_ok b i m p n ->
  (forall call, allowed call = true -> strict -> batch_call call = true) ->
  rtc (flow_step allowed) (configured b i m p n, []) s ->
  sys_inv strict s /\ limits s.1 = (Z.max b 1, Z.max i 1, Z.max m 1, Z.max p 1).
Proof.
  intros Hok Hall Hr.
  assert (sys_inv strict (configured b i m p n, [])) as H0 by (by apply sys_inv_init).
  assert (limits (configured b i m p n) = (Z.max b 1, Z.max i 1, Z.max m 1, Z.max p 1)) as Hl by done.
  revert H0 Hl. change (configured b i m p n) with ((configured b i m p n, @nil Task).1) at 2.
  induction Hr as [s|s1 s2 s3 Hs Hr IH]; intros Hinv Hl; [done|].
  apply IH; [by eapply sys_inv_step|]. rewrite <-Hl. by eapply limits_step.
Qed.

(** C12: Credit accounting is exact and bounded under every interleaving of
    acquirers, acknowledgements, permit drops, hand-offs, teardowns, budget
    changes and row-credit calls: the aggregate byte and request counters are
    the sums over the reservations really outstanding (permits, releases in
    progress and frames awaiting acknowledgement), each channel's counters are
    the sums over its own reservations under its current owner, the waiter count
    is the number of live waiter slots, and none exceeds its configured limit;
    a channel never offers more rows than its budget leaves. *)
Theorem flow_accounting b i m p n c ts :
  settings_ok b i m p n ->
  rtc (flow_step (fun _ => true)) (configured b i m p n, []) (c, ts) ->
  aggregate_bytes c = zsum p_batch_bytes (charges ts) + map_sum (fun _ => awaiting_bytes) (live c) /\
  aggregate_bytes c <= Z.max i 1 /\
  pending_requests c =
    Z.of_nat (length (charges ts)) + map_sum (fun _ => awaiting_count) (live c) /\
  pending_requests c <= Z.max p 1 /\
  queued_credit_waiters c = slots ts /\ queued_credit_waiters c <= Z.max p 1 /\
  map_Forall (fun k st =>
    batches_in_flight st = held (fun _ => 1) k (owner st) (charges ts) + awaiting_count st /\
    batches_in_flight st <= Z.max b 1 /\
    bytes_in_flight st = held p_batch_bytes k (owner st) (charges ts) + awaiting_bytes st /\
    0 <= available_rows st <= saturating_sub (max_rows st) (rows_in_flight st)) (live c).
Proof.
  intros Hok Hr. destruct (sys_inv_reachable False (fun _ => true) b i m p n (c, ts)) as [[Hf _ Hq Hqm] Hl];
    [done|by intros|done|].
  unfold limits in Hl. simpl in *. injection Hl as Hb Hi Hm Hp. destruct Hf.
  split_and!; try lia; try done.
  intros k st Hk. destruct (fi_channels0 k st Hk). split_and!; lia.
Qed.

(* ------------------------------------------------------------------ *)
(** ** Schedules *)

(** A call, or one segment of the [i]-th task. *)
Inductive move : Type := Do (call : call) | Go (i : nat) (a : action).

Definition exec1 (s : System) (mv : move) : option System :=
  match mv with
  | Do call => let '(c', ts') := start s.1 call in Some (c', ts' ++ s.2)
  | Go i a =>
    t ← s.2 !! i;
    '(c', ts', w) ← run_task s.1 t a;
    Some (c', ts' ++ (wake w <$> delete i s.2))
  end.

Fixpoint exec (s : System) (mvs : list move) : option System :=
  match mvs with
  | [] => Some s
  | mv :: mvs => s' ← exec1 s mv; exec s' mvs
  end.

Definition move_ok (allowed : call -> bool) (mv : move) : Prop :=
  match mv with Do call => allowed call = true /\ call_ok call | Go _ _ => True end.

Lemma exec1_step allowed s mv s' :
  move_ok allowed mv -> exec1 s mv = Some s' -> flow_step allowed s s'.
Proof.
  destruct s as [c ts], mv as [call|i a]; simpl.
  - intros [Ha Hok]. destruct (start c call) as [c' ts'] eqn:E. intros [= <-]. by econstructor.
  - intros _. rewrite bind_Some. intros (t & Hi & (((c' & ts') & w) & Hr & [= <-])%bind_Some).
    rewrite delete_take_drop. rewrite <-(take_drop_middle ts i t Hi) at 1. by eapply step_task.
Qed.

Lemma exec_reaches allowed s mvs s' :
  Forall (move_ok allowed) mvs -> exec s mvs = Some s' -> rtc (flow_step allowed) s s'.
Proof.
  intros Hok. revert s. induction Hok as [|mv mvs Hmv _ IH]; intros s; simpl; [by intros [= <-]|].
  rewrite bind_Some. intros (s1 & Hs1 & Hs). eapply rtc_l; [by eapply exec1_step|by apply IH].
Qed.

(** The calls of a concrete schedule are allowed and well-typed. *)
Ltac moves_ok :=
  repeat apply Forall_cons_2; try apply Forall_nil_2; try exact I;
  (split; [reflexivity|cbn; rlia]).

(** A frame is admitted and handed off; another is admitted. *)
Definition two_frames : list move :=
  [Do (CallTry {| r_key := (1, 0, 1); r_bytes := 7; r_rows := 3 |});
   Go 0 Run; Go 0 Run; Go 0 (Handoff 1 1);
   Do (CallTry {| r_key := (1, 0, 1); r_bytes := 5; r_rows := 2 |});
   Go 0 Run; Go 0 Run].

Lemma two_frames_total :
  (fun s => aggregate_bytes s.1) <$> exec (configured 2 100 50 4 10, []) two_frames = Some 12.
Proof. vm_compute. reflexivity. Qed.

Lemma flow_accounting_witness :
  exists c ts, rtc (flow_step (fun _ => true)) (configured 2 100 50 4 10, []) (c, ts) /\
    aggregate_bytes c = 12 /\
    12 = zsum p_batch_bytes (charges ts) + map_sum (fun _ => awaiting_bytes) (live c).
Proof.
  pose proof two_frames_total as ([c ts] & E & Ha)%fmap_Some.
  assert (rtc (flow_step (fun _ => true)) (configured 2 100 50 4 10, []) (c, ts)) as Hr.
  { eapply exec_reaches; [|exact E]. moves_ok. }
  exists c, ts. split; [exact Hr|]. split; [symmetry; exact Ha|]. rewrite Ha.
  apply (flow_accounting 2 100 50 4 10 c ts); [|exact Hr].
  unfold settings_ok. rlia.
Defined.
