(* ===== verification/FlowWaiters.v ===== *)
(** Waiting for exchange credit (rockstream-runtime/src/exchange/flow_control.rs):
    that an acquirer of a batch permit is never left asleep while nothing is in
    flight, and the interleavings of the budget change and of the row-credit
    calls that do leave one asleep.  The model is FlowControl.v. *)
From stdpp Require Import base tactics list gmap numbers option fin_maps relations.
From Stdlib Require Import ZArith Lia ZifyBool.
From S2P Require Import Prelude Kernels FlowControl.
Local Open Scope Z_scope.

(* ------------------------------------------------------------------ *)
(** ** Waiting acquirers *)

(** The task has still to call [global_notify.notify_waiters]. *)
Definition will_notify (t : Task) : bool :=
  match t with
  | NotifyGlobal _ | Teardown _ | TeardownNotify _ | BudgetGlobal => true
  | _ => false
  end.

(** An acquirer whose last attempt failed and whose future is not completed. *)
Definition waiting (t : Task) : option Request :=
  match t with
  | Acquire r _ _ (Exhausted false | Parked false) => Some r
  | _ => None
  end.

(** Some limit refuses the request now. *)
Definition blocked (c : FlowController) (r : Request) : Prop :=
  max_pending_requests c <= pending_requests c \/
  max_inflight_bytes c < aggregate_bytes c + r_bytes r \/
  exists st, live c !! r_key r = Some st /\
    (max_inflight_batches c <= batches_in_flight st \/ available_rows st < Z.max (r_rows r) 1).

(** No request is refused by [c] and admitted by [c']. *)
Definition tighter (c c' : FlowController) : Prop :=
  limits c' = limits c /\ pending_requests c <= pending_requests c' /\
  aggregate_bytes c <= aggregate_bytes c' /\
  (forall k st, live c !! k = Some st -> exists st', live c' !! k = Some st' /\
     batches_in_flight st <= batches_in_flight st' /\ available_rows st' <= available_rows st).

Lemma blocked_tighter c c' r : tighter c c' -> blocked c r -> blocked c' r.
Proof.
  intros (Hl & Hp & Ha & Hc). unfold limits in Hl. injection Hl as Hb Hi _ Hm.
  intros [?|[?|(st & Hk & Hst)]]; [left; lia|right; left; lia|]. right. right.
  destruct (Hc _ _ Hk) as (st' & Hk' & ? & ?). exists st'. split; [done|lia].
Qed.

Lemma tighter_refl c : tighter c c.
Proof. split_and!; try done. intros k st Hk. by exists st. Qed.

Lemma tighter_trans c1 c2 c3 : tighter c1 c2 -> tighter c2 c3 -> tighter c1 c3.
Proof.
  intros (? & ? & ? & Hc1) (? & ? & ? & Hc2). split_and!; [congruence|lia|lia|].
  intros k st Hk. destruct (Hc1 k st Hk) as (st1 & Hk1 & ? & ?).
  destruct (Hc2 k st1 Hk1) as (st2 & ? & ? & ?). exists st2. split; [done|lia].
Qed.

Lemma tighter_entry c k m c' st : channel_entry c k m = (c', st) -> tighter c c' /\ live c' !! k = Some st.
Proof.
  unfold channel_entry. destruct (live c !! k) as [st0|] eqn:Hk; intros [= <- <-].
  - split; [apply tighter_refl|done].
  - split; [|apply lookup_insert_eq]. split_and!; try done. intros k' st' Hk'. exists st'.
    simpl. rewrite lookup_insert_ne by congruence. done.
Qed.

Lemma tighter_put c k st st' :
  live c !! k = Some st -> batches_in_flight st <= batches_in_flight st' ->
  available_rows st' <= available_rows st -> tighter c (put_channel c k st').
Proof.
  intros Hk Hb Ha. split_and!; try done. intros k1 st1 Hk1. simpl.
  destruct (decide (k = k1)) as [<-|Hne]; [|exists st1; by rewrite lookup_insert_ne].
  simplify_eq. exists st'. by rewrite lookup_insert_eq.
Qed.

Lemma tighter_locked strict c cs r m :
  flow_inv strict c cs -> 0 <= r_bytes r -> tighter c (try_acquire_locked c r m).1.
Proof.
  intros Hf Hb. unfold try_acquire_locked.
  case_bool_decide; [apply tighter_refl|].
  destruct (Z.leb_spec (max_pending_requests c) (pending_requests c)); [apply tighter_refl|].
  destruct (Z.ltb_spec (max_inflight_bytes c) (saturating_add usize_max (aggregate_bytes c) (r_bytes r)));
    [apply tighter_refl|].
  destruct (channel_entry c (r_key r) m) as [c1 st] eqn:He.
  destruct (tighter_entry _ _ _ _ _ He) as [Ht Hk].
  destruct (_ <=? _); [done|]. destruct (_ <? _); [done|]. simpl.
  apply (tighter_trans _ _ _ Ht).
  assert (pending_requests c1 = pending_requests c /\ aggregate_bytes c1 = aggregate_bytes c) as [Hp1 Ha1].
  { unfold channel_entry in He. by destruct (live c !! r_key r); simplify_eq. }
  pose proof Hf as [(? & ? & ? & ?) ? ? ? ? Hcs ?]. destruct (charges_nonneg c cs Hcs) as [? _].
  destruct (awaiting_sums_nonneg strict c cs (live c)) as [? ?]; [done|].
  rewrite Hp1, Ha1, !as_u64_id by rlia.
  destruct (tighter_put c1 (r_key r) st (charge_channel st (r_bytes r) (Z.max (r_rows r) 1))) as (? & ? & ? & ?);
    [done|simpl; lia..|]. split_and!; try done; simpl; lia.
Qed.

Lemma locked_blocked strict c cs r m c' e :
  flow_inv strict c cs -> 0 <= r_bytes r ->
  try_acquire_locked c r m = (c', Err e) -> resource_exhausted e = true -> blocked c' r.
Proof.
  intros Hf Hb. unfold try_acquire_locked, blocked.
  case_bool_decide; [by intros [= <- <-]|].
  destruct (Z.leb_spec (max_pending_requests c) (pending_requests c)); [intros [= <- <-]; by left|].
  destruct (Z.ltb_spec (max_inflight_bytes c) (saturating_add usize_max (aggregate_bytes c) (r_bytes r))).
  { intros [= <- <-] _. right. left. rlia. }
  destruct (channel_entry c (r_key r) m) as [c1 st] eqn:He.
  destruct (tighter_entry _ _ _ _ _ He) as [_ Hk].
  destruct (Z.leb_spec (max_inflight_batches c1) (batches_in_flight st)).
  { intros [= <- <-] _. right. right. exists st. by split; [|left]. }
  destruct (Z.ltb_spec (available_rows st) (Z.max (r_rows r) 1)); intros [= <- <-] _.
  right. right. exists st. by split; [|right].
Qed.

(** A request that has passed the size checks. *)
Definition admissible (c : FlowController) (t : Task) : Prop :=
  match t with
  | Acquire r _ _ (Loaded _ _ | Exhausted _ | Parked _) =>
    r_bytes r <= max_inflight_bytes c /\ Z.max (r_rows r) 1 <= row_budget c
  | _ => True
  end.

Definition waits_blocked (c : FlowController) (t : Task) : Prop :=
  forall r, waiting t = Some r -> blocked c r.

Record wait_inv (s : System) : Prop := {
  wi_sys : sys_inv True s;
  wi_admissible : Forall (admissible s.1) s.2;
  wi_waiting : Exists (fun t => will_notify t = true) s.2 \/ Forall (waits_blocked s.1) s.2;
}.

Lemma load_admissible c r m once slot n :
  try_acquire_load c r = Ok m -> admissible c (Acquire r once slot (Loaded n m)).
Proof.
  unfold try_acquire_load, check_frame_size.
  destruct (Z.ltb_spec (max_batch_bytes c) (r_bytes r)); [done|].
  destruct (Z.ltb_spec (max_inflight_bytes c) (r_bytes r)); [done|]. simpl.
  destruct (Z.ltb_spec (row_budget c) (Z.max (r_rows r) 1)); [done|]. intros _. by split; lia.
Qed.

Lemma admissible_frame c c' t :
  max_inflight_bytes c' = max_inflight_bytes c -> budget_cell c' = budget_cell c ->
  admissible c t -> admissible c' t.
Proof.
  intros Hi Hb. destruct t as [r ? ? []| | | | | | | | | |]; try done; simpl; unfold row_budget;
    by rewrite Hi, Hb.
Qed.

Lemma admissible_wake c w t : admissible c t -> admissible c (wake w t).
Proof. by destruct w, t as [? ? ? []| | | | | | | | | |]. Qed.

Lemma waits_tighter c c' t : tighter c c' -> waits_blocked c t -> waits_blocked c' t.
Proof. intros Ht Hw r Hr. eapply blocked_tighter; eauto. Qed.

Lemma waits_wake c w t : waits_blocked c t -> waits_blocked c (wake w t).
Proof. by destruct w, t as [? ? ? []| | | | | | | | | |]. Qed.

Lemma waits_woken c t : waits_blocked c (wake WakeGlobal t).
Proof. by destruct t as [? ? ? []| | | | | | | | | |]. Qed.

Lemma notify_wake w t : will_notify (wake w t) = will_notify t.
Proof. by destruct w, t. Qed.

(** What one segment of task [t] does to the waiting acquirers: it wakes them,
    leaves a task that will, or keeps them refused. *)
Record seg_wait (c : FlowController) (t : Task) (c' : FlowController) (ts' : list Task) (w : Wake) : Prop := {
  sw_admissible : Forall (admissible c') ts';
  sw_waiting :
    (w = WakeGlobal /\ Forall (waits_blocked c') ts') \/
    Exists (fun t => will_notify t = true) ts' \/
    (will_notify t = false /\ tighter c c' /\
     (waits_blocked c t -> Forall (waits_blocked c') ts'));
}.

(** Tasks that are not acquirers past their budget check. *)
Definition idle_task (t : Task) : bool :=
  match t with Acquire _ _ _ (Loaded _ _ | Exhausted _ | Parked _) => false | _ => true end.

Lemma idle_admissible c ts : forallb idle_task ts = true -> Forall (admissible c) ts.
Proof.
  intros Hi%Is_true_eq_left%forallb_True. eapply Forall_impl; [exact Hi|].
  by intros [? ? ? []| | | | | | | | | |] ?.
Qed.

Lemma idle_waits c ts : forallb idle_task ts = true -> Forall (waits_blocked c) ts.
Proof.
  intros Hi%Is_true_eq_left%forallb_True. eapply Forall_impl; [exact Hi|].
  by intros [? ? ? []| | | | | | | | | |] ?.
Qed.

Lemma seg_quiet c t c' ts' w :
  will_notify t = false -> tighter c c' -> forallb idle_task ts' = true -> seg_wait c t c' ts' w.
Proof.
  intros Ht Hc Hi. split; [by apply idle_admissible|]. right. right. split_and!; [done..|].
  intros _. by apply idle_waits.
Qed.

Lemma idle_leave slot : forallb idle_task (leave slot) = true.
Proof. by destruct slot. Qed.

Lemma tighter_waiting c ns q n : tighter c (set_waiting c ns q n).
Proof. split_and!; try done. intros k st Hk. by exists st. Qed.

Lemma acquire_seg_wait c r once slot pc cs c' ts' :
  flow_inv True c cs -> task_ok True c (Acquire r once slot pc) ->
  admissible c (Acquire r once slot pc) ->
  run_acquire c r once slot pc = Some (c', ts') ->
  seg_wait c (Acquire r once slot pc) c' ts' WakeNone.
Proof.
  intros Hf [Hb _] Ha. destruct pc as [|n|n m|n|[]]; simpl; try done.
  - intros [= <- <-]. by apply seg_quiet; [|apply tighter_refl|].
  - destruct (try_acquire_load c r) as [m|] eqn:Hl; intros [= <- <-];
      [|apply seg_quiet; [done|apply tighter_refl|apply idle_leave]].
    split; [apply Forall_singleton; by apply load_admissible|]. right. right.
    split_and!; [done|apply tighter_refl|]. intros _. by apply Forall_singleton.
  - pose proof (tighter_locked True c cs r m Hf Hb) as Ht. pose proof (frame_locked c r m) as Hfr.
    destruct (try_acquire_locked c r m) as [c1 [p|e]] eqn:Hl; simpl in Ht.
    { intros [= <- <-]. apply seg_quiet; [done..|]. simpl. apply idle_leave. }
    destruct (resource_exhausted e) eqn:He; simpl;
      [|intros [= <- <-]; apply seg_quiet; [done..|apply idle_leave]].
    destruct (negb once); intros [= <- <-]; [|apply seg_quiet; [done..|apply idle_leave]].
    destruct Hfr as (_ & Hi & _ & _ & Hbc & _). split.
    + apply Forall_singleton. by apply (admissible_frame c c1 (Acquire r once slot (Exhausted n)) Hi Hbc).
    + right. right. split_and!; [done..|]. intros _. apply Forall_singleton. intros r' Hr.
      destruct n; simplify_eq/=. by eapply locked_blocked.
  - assert (forall sl c1, tighter c c1 -> max_inflight_bytes c1 = max_inflight_bytes c ->
      budget_cell c1 = budget_cell c ->
      seg_wait c (Acquire r once slot (Exhausted n)) c1 [Acquire r once sl (Parked n)] WakeNone) as Hp.
    { intros sl c1 Ht Hi Hbc. split.
      - apply Forall_singleton. by apply (admissible_frame c c1 (Acquire r once sl (Parked n))).
      - right. right. split_and!; [done..|]. intros Hw. apply Forall_singleton. intros r' Hr.
        destruct n; simplify_eq/=. eapply blocked_tighter; [done|]. by apply Hw. }
    destruct slot; [intros [= <- <-]; by apply Hp; [apply tighter_refl|..]|].
    unfold reserve_credit_waiter. destruct (_ <=? _); intros [= <- <-];
      [by apply seg_quiet; [|apply tighter_refl|]|]. by apply Hp; [apply tighter_waiting|..].
  - intros [= <- <-]. by apply seg_quiet; [|apply tighter_refl|].
Qed.

Lemma tighter_handoff c p e s : tighter c (handoff c p e s).1.
Proof.
  unfold handoff. destruct (live c !! p_key p) as [st|] eqn:Hk; [|apply tighter_refl].
  destruct (Ownership.same_owner _ _); [|apply tighter_refl]. by eapply tighter_put.
Qed.

Lemma run_seg_wait c t a cs c' ts' w :
  flow_inv True c (charges [t] ++ cs) -> task_ok True c t -> admissible c t ->
  run_task c t a = Some (c', ts', w) -> seg_wait c t c' ts' w.
Proof.
  intros Hf Ht Ha E. destruct t as [r once slot pc|p|k o nb n|k|k|ex|ids| | |k n pc|].
  - destruct a; [|destruct pc; try done|by destruct pc].
    + rewrite run_task_acquire in E. apply fmap_Some in E as ([c1 ts1] & Hr & [= -> -> ->]).
      by eapply acquire_seg_wait.
    + simplify_eq/=. apply seg_quiet; [done|apply tighter_refl|apply idle_leave].
  - destruct a as [| |e s]; simpl in E; [|done|].
    + simplify_eq. by apply seg_quiet; [|apply tighter_refl|].
    + pose proof (tighter_handoff c p e s). destruct (handoff c p e s) as [c1 []]; simplify_eq;
        by apply seg_quiet.
  - destruct a; try done. simplify_eq/=. split; [by apply Forall_singleton|].
    right. left. by apply Exists_cons_hd.
  - destruct a; try done. simplify_eq/=. split; [by apply Forall_singleton|]. left. by split; [|apply Forall_singleton].
  - destruct a; try done. simplify_eq/=. by apply seg_quiet; [|apply tighter_refl|].
  - destruct a; try done. simplify_eq/=. split; [by apply Forall_singleton|].
    right. left. by apply Exists_cons_hd.
  - destruct ids, a; simplify_eq/=.
    + split; [done|]. by left.
    + split; [by apply Forall_singleton|]. right. left. by apply Exists_cons_hd.
  - destruct a; try done. simplify_eq/=. split; [by apply Forall_singleton|]. left. by split; [|apply Forall_singleton].
  - destruct a; try done. simplify_eq/=. by apply seg_quiet; [|apply tighter_refl|].
  - destruct Ht as [_ []]. done.
  - destruct a; try done. simplify_eq/=. by apply seg_quiet; [|apply tighter_waiting|].
Qed.

Lemma ack_reserved_tighter c ack c' o nb n :
  handle_ack c ack = (c', AckReserved o nb n) -> tighter c c'.
Proof.
  unfold handle_ack, channel_state. case_bool_decide; [done|].
  destruct (channel_entry c _ _) as [c1 st] eqn:He. destruct (tighter_entry _ _ _ _ _ He) as [Ht Hk].
  destruct (list_find _ _) as [[i [id [nb' n']]]|]; intros [= <- <- <- <-].
  eapply tighter_trans; [exact Ht|]. by eapply tighter_put.
Qed.

Lemma start_wait c call c' ts' :
  batch_call call = true -> start c call = (c', ts') ->
  forallb idle_task ts' = true /\ max_inflight_bytes c' = max_inflight_bytes c /\
  budget_cell c' = budget_cell c /\
  (Exists (fun t => will_notify t = true) ts' \/ tighter c c').
Proof.
  intros Hb E. destruct call as [r|r|ack|ex|n|k n|k n|k n]; try done; simpl in E.
  - simplify_eq. split_and!; try done. right. apply tighter_refl.
  - destruct (try_acquire_load c r); simplify_eq; split_and!; try done; right; apply tighter_refl.
  - pose proof (frame_ack c ack) as (_ & Hi & _ & _ & Hbc & _).
    destruct (handle_ack c ack) as [c1 [|o nb n|]] eqn:Ha; simplify_eq; split_and!; try done.
    + right. unfold handle_ack in Ha. case_bool_decide; [simplify_eq; apply tighter_refl|].
      destruct (channel_state _ _) as [c1 st]. by destruct (list_find _ _) as [[? [? [? ?]]]|].
    + right. by eapply ack_reserved_tighter.
    + left. by apply Exists_cons_hd.
  - simplify_eq. split_and!; try done. left. by apply Exists_cons_hd.
Qed.

Lemma wait_inv_step s s' : wait_inv s -> flow_step batch_call s s' -> wait_inv s'.
Proof.
  intros [Hsys Hadm Hw] Hstep.
  assert (sys_inv True s') as Hsys' by (by eapply (sys_inv_step True batch_call)).
  destruct Hstep as [c ts call c' ts' Hcall Hok E|c l1 t l2 a c' ts' w E]; simpl in *.
  - destruct (start_wait _ _ _ _ Hcall E) as (Hi & Him & Hbc & Hcase). split; [done|..]; simpl.
    + apply Forall_app_2; [by apply idle_admissible|].
      eapply Forall_impl; [exact Hadm|]. intros t. by apply admissible_frame.
    + destruct Hcase as [Hn|Ht]; [left; apply Exists_app; by left|].
      destruct Hw as [Hw|Hw]; [left; apply Exists_app; by right|]. right.
      apply Forall_app_2; [by apply idle_waits|].
      eapply Forall_impl; [exact Hw|]. intros t. by apply waits_tighter.
  - destruct (sys_inv_segment _ _ _ _ _ _ _ _ _ Hsys E) as (Hf & Ht & _ & _ & [_ _ Hmv _]).
    destruct Hmv as (_ & Him & _ & _ & Hbc & _).
    rewrite Forall_app, Forall_cons in Hadm. destruct Hadm as (Ha1 & Ha & Ha2).
    destruct (run_seg_wait _ _ _ _ _ _ _ Hf Ht Ha E) as [Hadm' Hcase]. split; [done|..]; simpl.
    + apply Forall_app_2; [done|]. apply Forall_fmap, Forall_app_2;
        (eapply Forall_impl; [eassumption|]); intros t' ?; by apply admissible_wake, (admissible_frame c).
    + rewrite Exists_app, Forall_app, Exists_fmap, Forall_fmap, Exists_app, Forall_app.
      destruct Hcase as [[-> Hts]|[Hn|(Hnt & Htight & Hts)]]; [|by left; left|].
      { right. split_and!; [done|apply Forall_true..]; intros t'; apply waits_woken. }
      rewrite Exists_app, Exists_cons, Forall_app, Forall_cons in Hw.
      destruct Hw as [Hw|(Hw1 & Hwt & Hw2)].
      * left. right. destruct Hw as [Hw|[Hw|Hw]]; [left|congruence|right];
          (eapply Exists_impl; [exact Hw|]); intros t' ?; simpl; by rewrite notify_wake.
      * right. split_and!; [by apply Hts|..]; (eapply Forall_impl; [eassumption|]);
          intros t' ?; by apply waits_wake, (waits_tighter c).
Qed.

(* ------------------------------------------------------------------ *)
(** ** Waking up without further calls *)

(** Tasks run; nobody calls in. *)
Abbreviation settle := (rtc (flow_step (fun _ => false))).

Definition woken (r : Request) (once slot : bool) (s : System) : Prop :=
  exists s', settle s s' /\ Acquire r once slot (Parked true) ∈ s'.2.

Lemma woken_step r once slot s s' :
  flow_step (fun _ => false) s s' -> woken r once slot s' -> woken r once slot s.
Proof. intros Hs (s'' & Hr & Hin). exists s''. split; [by eapply rtc_l|done]. Qed.

(** One segment of another task leaves the acquirer where it was, or woken. *)
Lemma run_beside c ts t c' ts' w x :
  t ∈ ts -> x ∈ ts -> x <> t -> run_task c t Run = Some (c', ts', w) ->
  exists l, flow_step (fun _ => false) (c, ts) (c', ts' ++ l) /\ wake w x ∈ l.
Proof.
  intros (l1 & l2 & ->)%list_elem_of_split Hx Hne E. exists (wake w <$> l1 ++ l2).
  split; [by eapply step_task|]. apply list_elem_of_fmap_2.
  rewrite elem_of_app, elem_of_cons in Hx. rewrite elem_of_app. tauto.
Qed.

Lemma global_wakes c ts t c' ts' r once slot :
  t ∈ ts -> Acquire r once slot (Parked false) ∈ ts -> Acquire r once slot (Parked false) <> t ->
  run_task c t Run = Some (c', ts', WakeGlobal) -> woken r once slot (c, ts).
Proof.
  intros Ht Hx Hne E. destruct (run_beside _ _ _ _ _ _ _ Ht Hx Hne E) as (l & Hs & Hin).
  exists (c', ts' ++ l). split; [by apply rtc_once|]. apply elem_of_app. by right.
Qed.

(** A segment that sends nothing to acquirers and leaves task [t']. *)
Lemma quiet_wakes c ts t c' t' w r once slot :
  t ∈ ts -> Acquire r once slot (Parked false) ∈ ts -> Acquire r once slot (Parked false) <> t ->
  run_task c t Run = Some (c', [t'], w) -> w <> WakeGlobal ->
  (forall ts', t' ∈ ts' -> Acquire r once slot (Parked false) ∈ ts' -> woken r once slot (c', ts')) ->
  woken r once slot (c, ts).
Proof.
  intros Ht Hx Hne E Hw Hrest. destruct (run_beside _ _ _ _ _ _ _ Ht Hx Hne E) as (l & Hs & Hin).
  eapply woken_step; [exact Hs|]. apply Hrest; [by left|]. right. by destruct w.
Qed.

Lemma notifier_wakes c ts t r once slot :
  t ∈ ts -> will_notify t = true -> Acquire r once slot (Parked false) ∈ ts -> woken r once slot (c, ts).
Proof.
  intros Ht Hn Hx.
  assert (forall ids c ts, TeardownNotify ids ∈ ts -> Acquire r once slot (Parked false) ∈ ts ->
    woken r once slot (c, ts)) as Htear.
  { clear. induction ids as [|id ids IH]; intros c ts Ht Hx.
    - by eapply (global_wakes c ts (TeardownNotify [])).
    - eapply (quiet_wakes c ts (TeardownNotify (id :: ids))); [done..|]. intros. by apply IH. }
  destruct t as [| | |k| |ex|ids| | | |]; try done.
  - by eapply (global_wakes c ts (NotifyGlobal k)).
  - eapply (quiet_wakes c ts (Teardown ex)); [done..|]. intros. by eapply Htear.
  - by eapply Htear.
  - by eapply (global_wakes c ts BudgetGlobal).
Qed.

Lemma charge_wakes c ts r once slot :
  charges ts <> [] -> Acquire r once slot (Parked false) ∈ ts -> woken r once slot (c, ts).
Proof.
  intros Hc Hx.
  assert (forall ts k o nb n, Release k o nb n ∈ ts -> Acquire r once slot (Parked false) ∈ ts ->
    woken r once slot (c, ts)) as Hrel.
  { clear. intros ts k o nb n Ht Hx.
    eapply (quiet_wakes c ts (Release k o nb n)); [done..|].
    intros. by apply (notifier_wakes _ _ (NotifyGlobal k)). }
  destruct (charges ts) as [|p ps] eqn:Hp; [done|].
  assert (p ∈ charges ts) as (t & Ht & Hch)%list_elem_of_omap by (rewrite Hp; by left).
  destruct t as [|q|k o nb n| | | | | | | |]; try done.
  - eapply (quiet_wakes c ts (Permit q)); [done..|]. intros. by eapply Hrel.
  - by eapply Hrel.
Qed.

Lemma wait_inv_reachable b i m p n s :
  settings_ok b i m p n -> rtc (flow_step batch_call) (configured b i m p n, []) s -> wait_inv s.
Proof.
  intros Hok Hr.
  assert (wait_inv (configured b i m p n, [])) as H0.
  { split; [by apply sys_inv_init|done|by right]. }
  revert H0. induction Hr as [|s1 s2 s3 Hs Hr IH]; [done|]. intros Hinv.
  apply IH. by eapply wait_inv_step.
Qed.

(** A refused, admissible request has a reason: something is in flight. *)
Lemma blocked_in_flight c cs r :
  flow_inv True c cs -> r_bytes r <= max_inflight_bytes c ->
  Z.max (r_rows r) 1 <= row_budget c -> blocked c r -> cs = [] ->
  exists k st, live c !! k = Some st /\ awaiting_ack st <> [].
Proof.
  intros Hf Hb Hn Hbl ->.
  destruct (decide (map_Forall (fun _ st => awaiting_ack st = []) (live c))) as [Hall|Hex].
  2: { rewrite map_not_Forall in Hex by apply _. destruct Hex as (k & st & ? & ?). eauto. }
  exfalso. destruct Hf as [(? & ? & ? & ?) Ha Hp _ _ _ Hch].
  unfold awaiting_bytes, awaiting_count in Ha, Hp. rewrite map_sum_zero in Ha, Hp.
  2-3: intros k st Hk; by rewrite (Hall k st Hk).
  unfold zsum in Ha. simpl in Ha, Hp.
  destruct Hbl as [?|[?|(st & Hk & Hst)]]; [lia..|].
  destruct (Hch _ _ Hk) as [Hbat _ _ _ _ _ _ _ Hs]. destruct (Hs I) as (? & Hrows & ?).
  unfold held, awaiting_count, awaiting_rows, zsum in Hbat, Hrows.
  rewrite (Hall _ _ Hk) in Hbat, Hrows. simpl in Hbat, Hrows. lia.
Qed.

(** C28: No acquirer of a batch permit is left asleep without cause.  As long as
    only the batch entry points are used, row accounting is exact (a channel
    offers precisely its budget less the rows reserved on it, so a stale
    acknowledgement frees nothing), and for every acquirer parked on its
    notification either the tasks already running will wake it, without any
    further call, or a delivered frame is still awaiting its acknowledgement. *)
Theorem acquirers_not_stranded b i m p n c ts :
  settings_ok b i m p n ->
  rtc (flow_step batch_call) (configured b i m p n, []) (c, ts) ->
  map_Forall (fun k st =>
    rows_in_flight st = held p_row_count k (owner st) (charges ts) + awaiting_rows st /\
    available_rows st = row_budget c - rows_in_flight st) (live c) /\
  forall r once slot, Acquire r once slot (Parked false) ∈ ts ->
    woken r once slot (c, ts) \/
    exists k st, live c !! k = Some st /\ awaiting_ack st <> [].
Proof.
  intros Hok Hr. pose proof (wait_inv_reachable _ _ _ _ _ _ Hok Hr) as [[Hf _ _ _] Hadm Hw]; simpl in *.
  split.
  { intros k st Hk. destruct (co_strict _ _ _ _ _ (fi_channels _ _ _ Hf k st Hk) I) as (? & ? & ?). lia. }
  intros r once slot Hin. destruct Hw as [(t & Ht & Hn)%Exists_exists|Hw];
    [left; by apply (notifier_wakes c ts t)|].
  destruct (decide (charges ts = [])) as [Hc|Hc]; [right|left; by apply charge_wakes].
  rewrite Forall_forall in Hadm, Hw. pose proof (Hadm _ Hin) as [? ?].
  eapply blocked_in_flight; [done..| |done]. by apply (Hw _ Hin).
Qed.

(* ------------------------------------------------------------------ *)
(** ** Interleavings that strand a waiter *)

Definition wide (rows : Z) : Request := {| r_key := (1, 0, 1); r_bytes := 8; r_rows := rows |}.

Definition park : list move := [Go 0 Run; Go 0 Run; Go 0 Run; Go 0 Run].

(** A permit is released and its notifications are sent. *)
Definition release_at (i : nat) : list move := [Go i Run; Go 0 Run; Go 0 Run; Go 0 Run].

(** An attempt reads the budget 10 and creates the channel after the budget was
    raised to 20; an acquirer of 15 rows finds 5, parks, and after the release
    finds 10. *)
Definition stale_budget_run : list move :=
  [Do (CallTry (wide 5)); Go 0 Run; Do (CallSetBudget 20); Go 0 Run; Go 0 Run; Go 0 Run]
  ++ [Do (CallAcquire (wide 15))] ++ park ++ release_at 1 ++ [Go 0 Run] ++ park.

(** An acquirer parks on a channel that [set_credits] holds at zero, and
    [set_credits] then grants enough. *)
Definition set_credits_run : list move :=
  [Do (CallSetCredits (1, 0, 1) 0); Do (CallAcquire (wide 5))] ++ park
  ++ [Do (CallSetCredits (1, 0, 1) 9)].

(** A row waiter's notifier is removed by a teardown; it is woken, finds the
    new channel charged, and sleeps on the removed notifier. *)
Definition orphaned_run : list move :=
  [Do (CallTry (wide 10)); Go 0 Run; Go 0 Run;
   Do (CallAcquireCredit (1, 0, 1) 10)] ++ park ++ [Go 0 Run;
   Do (CallTeardown 1); Go 0 Run; Go 0 Run; Go 0 Run;
   Do (CallTry (wide 10)); Go 0 Run; Go 0 Run;
   Go 1 Run; Go 0 Run; Go 0 Run]
  ++ release_at 1 ++ release_at 1.

(** The only task left sleeps with nothing in flight and no notification due,
    although its channel and the budget would admit it. *)
Definition asleep_for_nothing (rows : Z) (s : System) : bool :=
  match s.2 with
  | [Acquire r _ _ (Parked false)] => Z.max (r_rows r) 1 =? rows
  | [Rows _ n (RParked _ false)] => n =? rows
  | _ => false
  end && (pending_requests s.1 =? 0) && (rows_in_flight_of s.1 (1, 0, 1) =? 0)
  && (rows <=? row_budget s.1).

Definition start_state : System := (configured 64 1000 500 16 10, []).

(** A schedule that ends in such a state, for a request of [rows] rows. *)
Definition strands (rows : Z) (mvs : list move) : Prop :=
  exists s, exec start_state mvs = Some s /\
    rtc (flow_step (fun _ => true)) start_state s /\ asleep_for_nothing rows s = true.

Lemma strands_exec rows mvs :
  Forall (move_ok (fun _ => true)) mvs ->
  asleep_for_nothing rows <$> exec start_state mvs = Some true ->
  strands rows mvs.
Proof.
  intros Hok (s & Hs & Ha)%fmap_Some. exists s. split_and!; [done|by eapply exec_reaches|done].
Qed.

(** Three interleavings outside the batch entry points leave a waiter
    asleep with nothing in flight, no notification due and a request within the
    row budget: an attempt that read the row budget before [set_row_budget] and
    creates its channel after it, so the channel keeps the old budget; a
    [set_credits] that raises a channel's credits and notifies nobody; and a
    row waiter woken by a teardown that goes back to sleep on the notifier the
    teardown removed. *)
Theorem legacy_calls_strand_waiters :
  strands 15 stale_budget_run /\ strands 5 set_credits_run /\ strands 10 orphaned_run.
Proof.
  split_and!; (apply strands_exec; [|vm_compute; reflexivity]); moves_ok.
Qed.

(** An acquirer waits behind a permit. *)
Definition parked_run : list move :=
  [Do (CallTry (wide 8)); Go 0 Run; Go 0 Run; Do (CallAcquire (wide 4))] ++ park.

Lemma parked_run_waits :
  snd <$> exec start_state parked_run =
  Some [Acquire (wide 4) false true (Parked false);
        Permit {| p_key := (1, 0, 1); p_owner := 0; p_batch_bytes := 8; p_row_count := 8 |}].
Proof. vm_compute. reflexivity. Qed.

Lemma acquirers_not_stranded_witness :
  exists c ts, rtc (flow_step batch_call) start_state (c, ts) /\
    (woken (wide 4) false true (c, ts) \/
     exists k st, live c !! k = Some st /\ awaiting_ack st <> []).
Proof.
  pose proof parked_run_waits as ([c ts] & E & Hts)%fmap_Some. cbn [snd] in Hts.
  assert (rtc (flow_step batch_call) start_state (c, ts)) as Hr.
  { eapply exec_reaches; [|exact E]. moves_ok. }
  exists c, ts. split; [exact Hr|].
  apply (acquirers_not_stranded 64 1000 500 16 10 c ts); [unfold settings_ok; rlia|exact Hr|].
  rewrite <-Hts. apply list_elem_of_here.
Defined.
