(* ===== verification/Raft.v ===== *)
(** Control-plane leader election (rockstream-control/src/raft.rs): votes,
    heartbeats, the election driver and the leader lease.

    A node's guarded [RaftInner] is a record; the part of a handler under the
    write lock is a function on it.  A cluster is a map of nodes with a list of
    RPCs in flight; a step is one critical section, one durable write, one
    delivery, a loss, a timeout, a crash, a restart or the passing of time.  All
    changes of term and vote hold the transition lock until their write returns,
    so a node with a write in flight runs no other transition; the write can fail
    with unknown outcome, which panics the task.  Instants are milliseconds of
    one clock.  The stored object is the state itself (its JSON form is serde's),
    and a write that was in flight at a crash takes effect before the restart or
    never. *)
From stdpp Require Import base tactics list gmap numbers option fin_maps relations sets.
From Stdlib Require Import ZArith Lia ZifyBool.
From S2P Require Import Prelude.
Local Open Scope Z_scope.

(* ------------------------------------------------------------------ *)
(** ** One node *)

Definition DEFAULT_ELECTION_TIMEOUT_MIN : Z := 150.
Definition DEFAULT_ELECTION_TIMEOUT_MAX : Z := 300.
Definition DEFAULT_HEARTBEAT_INTERVAL : Z := 50.
Definition DEFAULT_RPC_TIMEOUT : Z := 75.

Inductive RaftRole : Type := Follower | Candidate | Leader.

#[global] Instance RaftRole_eq_dec : EqDecision RaftRole.
Proof. solve_decision. Defined.

Record RaftPersistentState : Type := { current_term : Z; voted_for : option Z }.

Definition default_state : RaftPersistentState := {| current_term := 0; voted_for := None |}.

Record RaftInner : Type := {
  node_id : Z;
  persistent : RaftPersistentState;
  role : RaftRole;
  current_leader : option Z;
  last_contact : Z;
  last_quorum_contact : Z;
  leader_quorum_timeout : Z;
}.

Record RaftConfig : Type := {
  cfg_peers : list Z;
  bootstrap : bool;
  election_timeout_min : Z;
  election_timeout_max : Z;
  heartbeat_interval : Z;
  rpc_timeout : Z;
}.

Definition config_new (peers : list Z) (boot : bool) : RaftConfig := {|
  cfg_peers := peers; bootstrap := boot;
  election_timeout_min := DEFAULT_ELECTION_TIMEOUT_MIN;
  election_timeout_max := DEFAULT_ELECTION_TIMEOUT_MAX;
  heartbeat_interval := DEFAULT_HEARTBEAT_INTERVAL;
  rpc_timeout := DEFAULT_RPC_TIMEOUT;
|}.

(** [spawn_raft_node]: the state of a process that has loaded [initial]. *)
Definition spawn_inner (cfg : RaftConfig) (id now : Z) (initial : RaftPersistentState) : RaftInner := {|
  node_id := id; persistent := initial; role := Follower; current_leader := None;
  last_contact := now; last_quorum_contact := now;
  leader_quorum_timeout :=
    Z.max (saturating_sub (election_timeout_min cfg) (heartbeat_interval cfg / 2))
      (heartbeat_interval cfg);
|}.

Definition has_live_leader_quorum (now : Z) (g : RaftInner) : bool :=
  bool_decide (role g = Leader) && (now - last_quorum_contact g <? leader_quorum_timeout g).

(** [RaftHandle::is_leader] *)
Definition is_leader (now : Z) (g : RaftInner) : bool := has_live_leader_quorum now g.

Definition require_leader (now : Z) (g : RaftInner) : option Z :=
  if has_live_leader_quorum now g then Some (current_term (persistent g)) else None.

(** [term << 16] drops the bits that leave the word; the assertion is a panic. *)
Definition control_leader_epoch (term leader_id : Z) : outcome Z :=
  if leader_id <? Z.shiftl 1 16
  then Done (Z.lor (as_u64 (Z.shiftl term 16)) (Z.land leader_id 65535))
  else Panic.

Definition leader_epoch (now : Z) (g : RaftInner) : option (outcome Z) :=
  if has_live_leader_quorum now g
  then Some (control_leader_epoch (current_term (persistent g)) (node_id g)) else None.

Definition set_role (g : RaftInner) (r : RaftRole) (leader : option Z) : RaftInner := {|
  node_id := node_id g; persistent := persistent g; role := r; current_leader := leader;
  last_contact := last_contact g; last_quorum_contact := last_quorum_contact g;
  leader_quorum_timeout := leader_quorum_timeout g;
|}.

Definition step_down (g : RaftInner) : RaftInner := set_role g Follower None.

(** A new term with no vote, as a follower. *)
Definition adopt_term (g : RaftInner) (term : Z) (leader : option Z) : RaftInner := {|
  node_id := node_id g; persistent := {| current_term := term; voted_for := None |};
  role := Follower; current_leader := leader;
  last_contact := last_contact g; last_quorum_contact := last_quorum_contact g;
  leader_quorum_timeout := leader_quorum_timeout g;
|}.

Definition record_vote (g : RaftInner) (cand now : Z) : RaftInner := {|
  node_id := node_id g;
  persistent := {| current_term := current_term (persistent g); voted_for := Some cand |};
  role := role g; current_leader := current_leader g;
  last_contact := now; last_quorum_contact := last_quorum_contact g;
  leader_quorum_timeout := leader_quorum_timeout g;
|}.

Record RequestVoteResponse : Type := { rv_term : Z; vote_granted : bool }.

(** [handle_request_vote] under the write lock; the state after it is what is
    saved before the response is sent. *)
Definition handle_request_vote (now term candidate_id : Z) (g : RaftInner)
    : RaftInner * RequestVoteResponse :=
  let g :=
    if current_term (persistent g) <? term then adopt_term g term (current_leader g) else g in
  let can_vote :=
    (term =? current_term (persistent g))
    && (bool_decide (voted_for (persistent g) = None)
        || bool_decide (voted_for (persistent g) = Some candidate_id)) in
  let g := if can_vote then record_vote g candidate_id now else g in
  (g, {| rv_term := current_term (persistent g); vote_granted := can_vote |}).

(** [handle_heartbeat] under the write lock: the state, whether it has to be
    saved, and the term of the response. *)
Definition handle_heartbeat (now term leader_id : Z) (g : RaftInner) : RaftInner * bool * Z :=
  if current_term (persistent g) <=? term then
    let term_advanced := current_term (persistent g) <? term in
    let g := {|
      node_id := node_id g;
      persistent := {| current_term := term;
        voted_for := if term_advanced then None else voted_for (persistent g) |};
      role := Follower; current_leader := Some leader_id;
      last_contact := now; last_quorum_contact := last_quorum_contact g;
      leader_quorum_timeout := leader_quorum_timeout g |} in
    (g, term_advanced, current_term (persistent g))
  else (g, false, current_term (persistent g)).

(** [peers.len().div_ceil(2) + 1] *)
Definition majority (peers : list Z) : Z := (Z.of_nat (length peers) + 1) / 2 + 1.

(** The first section of [start_election]; the term overflow panics. *)
Definition election_begin (now : Z) (g : RaftInner) : option RaftInner :=
  term ← checked_u64 (current_term (persistent g) + 1);
  Some {|
    node_id := node_id g; persistent := {| current_term := term; voted_for := Some (node_id g) |};
    role := Candidate; current_leader := current_leader g;
    last_contact := now; last_quorum_contact := last_quorum_contact g;
    leader_quorum_timeout := leader_quorum_timeout g |}.

(** The responses of one round, with the peer each came from; [None] is an RPC
    that failed or timed out. *)
Definition round_results : Type := list (Z * option RequestVoteResponse).

Definition responses (rs : round_results) : list RequestVoteResponse := omap snd rs.

Definition tally_votes (term : Z) (rs : round_results) : Z :=
  1 + Z.of_nat (length (filter (fun r => vote_granted r = true /\ rv_term r = term) (responses rs))).

Definition highest_term (term : Z) (rs : round_results) : Z :=
  foldl (fun h r => if h <? rv_term r then rv_term r else h) term (responses rs).

(** The last section of [start_election]: the state, and whether it is saved. *)
Definition election_outcome (cfg : RaftConfig) (now term : Z) (rs : round_results) (g : RaftInner)
    : RaftInner * bool :=
  if negb (bool_decide (role g = Candidate)) || negb (current_term (persistent g) =? term)
  then (g, false)
  else if term <? highest_term term rs
  then (adopt_term g (highest_term term rs) (current_leader g), true)
  else if majority (cfg_peers cfg) <=? tally_votes term rs
  then ({| node_id := node_id g; persistent := persistent g; role := Leader;
           current_leader := Some (node_id g);
           last_contact := last_contact g; last_quorum_contact := now;
           leader_quorum_timeout := leader_quorum_timeout g |}, false)
  else (g, false).

(** A heartbeat response carries only a term. *)
Definition acknowledgements (term : Z) (rs : round_results) : Z :=
  1 + Z.of_nat (length (filter (fun r => rv_term r = term) (responses rs))).

(** The end of [send_heartbeats] when a higher term was seen (under the
    transition lock). *)
Definition heartbeat_overtaken (term : Z) (rs : round_results) (g : RaftInner) : RaftInner * bool :=
  if bool_decide (role g = Leader) && (current_term (persistent g) <? highest_term term rs)
  then (adopt_term g (highest_term term rs) None, true)
  else (g, false).

(** ... and when none was. *)
Definition heartbeat_confirmed (cfg : RaftConfig) (now term : Z) (rs : round_results) (g : RaftInner)
    : RaftInner :=
  if bool_decide (role g = Leader) && (current_term (persistent g) =? term) then
    if majority (cfg_peers cfg) <=? acknowledgements term rs then
      {| node_id := node_id g; persistent := persistent g; role := role g;
         current_leader := current_leader g;
         last_contact := last_contact g; last_quorum_contact := now;
         leader_quorum_timeout := leader_quorum_timeout g |}
    else if negb (has_live_leader_quorum now g) then set_role g Follower None
    else g
  else g.

(* ------------------------------------------------------------------ *)
(** ** A cluster *)

Inductive RaftRpcRequest : Type :=
  | RequestVote (term candidate_id : Z)
  | Heartbeat (term leader_id : Z).

(** One peer connection: [round] identifies the call that opened it, [reply] is
    there once the server has written it.  A heartbeat's reply is a
    [RequestVoteResponse] without a grant. *)
Record Rpc : Type := {
  src : Z;
  dst : Z;
  round : Z;
  request : RaftRpcRequest;
  reply : option RequestVoteResponse;
}.

(** Where [driver_loop] is: at the loop head, about to start an election, saving
    its own vote, collecting votes, about to send heartbeats, collecting
    acknowledgements, saving a step-down, or gone after a panic. *)
Inductive Driver : Type :=
  | DIdle
  | DElect
  | DElecting
  | DVoting (term rnd : Z) (rs : round_results)
  | DSawLeader
  | DBeat (term rnd : Z) (rs : round_results)
  | DSaving
  | DDead.

(** What follows a durable write. *)
Inductive SaveCont : Type :=
  | SReply (r : Rpc) (resp : RequestVoteResponse)
  | SSelfVote
  | SStepDown.

Record Node : Type := {
  up : bool;
  inner : RaftInner;
  durable : RaftPersistentState;
  saving : option SaveCont;
  driver : Driver;
}.

(** [votes] and [elected] are history: the votes whose write returned, as voter,
    term and candidate, and the elections won. *)
Record Cluster : Type := {
  now : Z;
  nodes : gmap Z Node;
  rpcs : list Rpc;
  next_round : Z;
  votes : list (Z * Z * Z);
  elected : list (Z * Z);
}.

Inductive event : Type :=
  | Tick (d : Z)
  | Turn (v timeout : Z)
  | Begin (v : Z)
  | Saved (v : Z)
  | SaveFailed (v : Z) (applied : bool)
  | Serve (i : nat)
  | Deliver (i : nat)
  | Lose (i : nat)
  | TimedOut (v peer : Z)
  | Finish (v : Z)
  | Beat (v : Z)
  | StepDown (v : Z)
  | Crash (v : Z) (applied : bool)
  | Restart (v : Z).

Definition with_node (c : Cluster) (v : Z) (n : Node) : Cluster := {|
  now := now c; nodes := <[v := n]> (nodes c); rpcs := rpcs c; next_round := next_round c;
  votes := votes c; elected := elected c;
|}.

Definition with_rpcs (c : Cluster) (rs : list Rpc) : Cluster := {|
  now := now c; nodes := nodes c; rpcs := rs; next_round := next_round c;
  votes := votes c; elected := elected c;
|}.

Definition log_vote (c : Cluster) (voter term cand : Z) : Cluster := {|
  now := now c; nodes := nodes c; rpcs := rpcs c; next_round := next_round c;
  votes := (voter, term, cand) :: votes c; elected := elected c;
|}.

Definition log_elected (c : Cluster) (v term : Z) : Cluster := {|
  now := now c; nodes := nodes c; rpcs := rpcs c; next_round := next_round c;
  votes := votes c; elected := (v, term) :: elected c;
|}.

Definition set_inner (n : Node) (g : RaftInner) (s : option SaveCont) (d : Driver) : Node := {|
  up := up n; inner := g; durable := durable n; saving := s; driver := d;
|}.

(** What a write in flight stores: term and vote in memory do not change before
    it returns. *)
Definition persisted (n : Node) : RaftPersistentState := persistent (inner n).

Definition set_durable (n : Node) (p : RaftPersistentState) (s : option SaveCont) (d : Driver) : Node := {|
  up := up n; inner := inner n; durable := p; saving := s; driver := d;
|}.

Section cluster.
Context (cfg : Z -> RaftConfig).

(** [join_all] over the peers: one RPC each, under a new round. *)
Definition open_round (c : Cluster) (v : Z) (req : RaftRpcRequest) : Cluster := {|
  now := now c; nodes := nodes c;
  rpcs := ((fun p => {| src := v; dst := p; round := next_round c; request := req; reply := None |})
             <$> cfg_peers (cfg v)) ++ rpcs c;
  next_round := next_round c + 1; votes := votes c; elected := elected c;
|}.

Definition all_resolved (v : Z) (rs : round_results) : bool :=
  forallb (fun p => bool_decide (p ∈ rs.*1)) (cfg_peers (cfg v)).

(** One iteration of [driver_loop]: a leader sends heartbeats, any other node
    whose last contact is [timeout] ago starts an election. *)
Definition turn (c : Cluster) (v timeout : Z) (n : Node) : option Node :=
  match driver n with
  | DIdle =>
    if bool_decide (role (inner n) = Leader) then Some (set_inner n (inner n) (saving n) DSawLeader)
    else if (election_timeout_min (cfg v) <=? timeout) && (timeout <? election_timeout_max (cfg v))
         && (timeout <=? now c - last_contact (inner n))
    then Some (set_inner n (inner n) (saving n) DElect)
    else None
  | _ => None
  end.

(** A write has returned. *)
Definition save_done (c : Cluster) (v : Z) (n : Node) (k : SaveCont) : Cluster :=
  let p := persisted n in
  match k with
  | SReply r resp =>
    let c := with_node c v (set_durable n p None (driver n)) in
    let c := with_rpcs c ({| src := src r; dst := dst r; round := round r; request := request r;
                             reply := Some resp |} :: rpcs c) in
    match request r with
    | RequestVote term cand => if vote_granted resp then log_vote c v term cand else c
    | Heartbeat _ _ => c
    end
  | SSelfVote =>
    let term := current_term p in
    let c := log_vote (with_node c v (set_durable n p None (DVoting term (next_round c) []))) v term v in
    open_round c v (RequestVote term v)
  | SStepDown => with_node c v (set_durable n p None DIdle)
  end.

(** A write has failed: its effect is unknown and the task that asked panics. *)
Definition save_failed (c : Cluster) (v : Z) (n : Node) (k : SaveCont) (applied : bool) : Cluster :=
  with_node c v (set_durable n (if applied then persisted n else durable n) None
    (match k with SReply _ _ => driver n | _ => DDead end)).

(** [handle_peer_connection] up to its durable write. *)
Definition serve (c : Cluster) (r : Rpc) (n : Node) : Node * option RequestVoteResponse :=
  match request r with
  | RequestVote term cand =>
    let '(g, resp) := handle_request_vote (now c) term cand (inner n) in
    (set_inner n g (Some (SReply r resp)) (driver n), None)
  | Heartbeat term leader =>
    let '(g, save, t) := handle_heartbeat (now c) term leader (inner n) in
    let resp := {| rv_term := t; vote_granted := false |} in
    if save : bool then (set_inner n g (Some (SReply r resp)) (driver n), None)
    else (set_inner n g None (driver n), Some resp)
  end.

(** A response, or the lack of one, reaches the round that is waiting for it. *)
Definition resolve (d : Driver) (rnd peer : Z) (resp : option RequestVoteResponse) : option Driver :=
  match d with
  | DVoting t r rs =>
    if (r =? rnd) && negb (bool_decide (peer ∈ rs.*1)) then Some (DVoting t r ((peer, resp) :: rs)) else None
  | DBeat t r rs =>
    if (r =? rnd) && negb (bool_decide (peer ∈ rs.*1)) then Some (DBeat t r ((peer, resp) :: rs)) else None
  | _ => None
  end.

(** The end of a round; a node with a write in flight waits for the transition
    lock, except where the code does not take it. *)
Definition finish (c : Cluster) (v : Z) (n : Node) : option Cluster :=
  let free := bool_decide (saving n = None) in
  match driver n with
  | DVoting term _ rs =>
    if negb (all_resolved v rs && free) then None
    else
      let '(g, save) := election_outcome (cfg v) (now c) term rs (inner n) in
      let c := with_node c v (if save : bool then set_inner n g (Some SStepDown) DSaving
                              else set_inner n g None DIdle) in
      Some (if bool_decide (role (inner n) = Candidate) && bool_decide (role g = Leader)
            then log_elected c v term else c)
  | DBeat term _ rs =>
    if negb (all_resolved v rs) then None
    else if term <? highest_term term rs then
      if negb free then None
      else
        let '(g, save) := heartbeat_overtaken term rs (inner n) in
        Some (with_node c v (if save : bool then set_inner n g (Some SStepDown) DSaving
                             else set_inner n g None DIdle))
    else Some (with_node c v (set_inner n (heartbeat_confirmed (cfg v) (now c) term rs (inner n))
                                (saving n) DIdle))
  | _ => None
  end.

Definition running (c : Cluster) (v : Z) : option Node :=
  n ← nodes c !! v; if up n then Some n else None.

Definition exec_event (c : Cluster) (e : event) : option Cluster :=
  match e with
  | Tick d => if 0 <=? d then Some {| now := now c + d; nodes := nodes c; rpcs := rpcs c;
      next_round := next_round c; votes := votes c; elected := elected c |} else None
  | Turn v timeout => n ← running c v; n' ← turn c v timeout n; Some (with_node c v n')
  | Begin v =>
    n ← running c v;
    match driver n, saving n with
    | DElect, None =>
      Some (with_node c v
        match election_begin (now c) (inner n) with
        | Some g => set_inner n g (Some SSelfVote) DElecting
        | None => set_inner n (set_role (inner n) Candidate (current_leader (inner n))) None DDead
        end)
    | _, _ => None
    end
  | Saved v => n ← running c v; k ← saving n; Some (save_done c v n k)
  | SaveFailed v applied => n ← running c v; k ← saving n; Some (save_failed c v n k applied)
  | Serve i =>
    r ← rpcs c !! i;
    n ← running c (dst r);
    if bool_decide (reply r = None) && bool_decide (saving n = None) then
      let '(n', resp) := serve c r n in
      let c := with_node (with_rpcs c (delete i (rpcs c))) (dst r) n' in
      Some match resp with
           | Some _ => with_rpcs c ({| src := src r; dst := dst r; round := round r;
                                       request := request r; reply := resp |} :: rpcs c)
           | None => c
           end
    else None
  | Deliver i =>
    r ← rpcs c !! i;
    resp ← reply r;
    n ← running c (src r);
    d ← resolve (driver n) (round r) (dst r) (Some resp);
    Some (with_node (with_rpcs c (delete i (rpcs c))) (src r) (set_inner n (inner n) (saving n) d))
  | Lose i => _ ← rpcs c !! i; Some (with_rpcs c (delete i (rpcs c)))
  | TimedOut v peer =>
    n ← running c v;
    rnd ← match driver n with DVoting _ r _ | DBeat _ r _ => Some r | _ => None end;
    _ ← guard (peer ∈ cfg_peers (cfg v));
    d ← resolve (driver n) rnd peer None;
    Some (with_node c v (set_inner n (inner n) (saving n) d))
  | Finish v => n ← running c v; finish c v n
  | Beat v =>
    n ← running c v;
    match driver n with
    | DSawLeader =>
      let term := current_term (persistent (inner n)) in
      Some (open_round (with_node c v (set_inner n (inner n) (saving n) (DBeat term (next_round c) [])))
              v (Heartbeat term v))
    | _ => None
    end
  | StepDown v => n ← running c v; Some (with_node c v (set_inner n (step_down (inner n)) (saving n) (driver n)))
  | Crash v applied =>
    n ← running c v;
    Some (with_node c v {| up := false; inner := inner n;
      durable := if bool_decide (saving n <> None) && applied then persisted n else durable n;
      saving := None; driver := DDead |})
  | Restart v =>
    n ← nodes c !! v;
    if up n then None
    else Some (with_node c v {| up := true; inner := spawn_inner (cfg v) v (now c) (durable n);
      durable := durable n; saving := None; driver := if bootstrap (cfg v) then DElect else DIdle |})
  end.

(** No node has started; each holds what a first boot loads. *)
Definition fresh_cluster (members : list Z) : Cluster := {|
  now := 0;
  nodes := list_to_map ((fun v => (v, {| up := false; inner := spawn_inner (cfg v) v 0 default_state;
                                         durable := default_state; saving := None; driver := DDead |}))
                          <$> members);
  rpcs := []; next_round := 0; votes := []; elected := [];
|}.

Fixpoint exec_events (c : Cluster) (es : list event) : option Cluster :=
  match es with
  | [] => Some c
  | e :: es => c' ← exec_event c e; exec_events c' es
  end.

Definition raft_step (c c' : Cluster) : Prop := exists e, exec_event c e = Some c'.

(** [assert_single_control_leader] over every running node. *)
Definition leaders_at (c : Cluster) (term : Z) : list Z :=
  (fun e => node_id (inner e.2)) <$>
    filter (fun e => up e.2 = true /\ role (inner e.2) = Leader
                     /\ current_term (persistent (inner e.2)) = term)
      (map_to_list (nodes c)).

Definition assert_single_control_leader (c : Cluster) : bool :=
  forallb (fun e => bool_decide (length (leaders_at c (current_term (persistent (inner e.2)))) <= 1)%nat)
    (filter (fun e => up e.2 = true /\ role (inner e.2) = Leader) (map_to_list (nodes c))).

(* ------------------------------------------------------------------ *)
(** ** The election invariant *)

(** The state remembers the vote: it is in the vote's term with that vote, or in
    a later term. *)
Definition covers (p : RaftPersistentState) (term cand : Z) : Prop :=
  term < current_term p \/ (current_term p = term /\ voted_for p = Some cand).

Definition is_vote (req : RaftRpcRequest) (term cand : Z) : Prop := req = RequestVote term cand.

(** A vote response that grants is backed by a recorded vote. *)
Definition grant_backed (c : Cluster) (voter : Z) (req : RaftRpcRequest) (resp : RequestVoteResponse) : Prop :=
  vote_granted resp = true ->
  exists cand, req = RequestVote (rv_term resp) cand /\ (voter, rv_term resp, cand) ∈ votes c.

(** A round that collects votes owns its RPCs. *)
Definition rpc_of_round (c : Cluster) (r : Rpc) : Prop :=
  forall n term rnd rs, nodes c !! src r = Some n -> driver n = DVoting term rnd rs ->
  rnd = round r -> request r = RequestVote term (src r).

Record rpc_ok (c : Cluster) (r : Rpc) : Prop := {
  ro_round : round r < next_round c;
  ro_dst : dst r ∈ cfg_peers (cfg (src r));
  ro_request : rpc_of_round c r;
  ro_reply : forall resp, reply r = Some resp -> grant_backed c (dst r) (request r) resp;
}.

Definition saving_ok (c : Cluster) (v : Z) (n : Node) : Prop :=
  match saving n with
  | Some (SReply r resp) =>
    dst r = v /\ rpc_ok c r /\
    (vote_granted resp = true -> exists cand, request r = RequestVote (rv_term resp) cand /\
       persistent (inner n) = {| current_term := rv_term resp; voted_for := Some cand |})
  | Some SSelfVote => voted_for (persistent (inner n)) = Some v
  | _ => True
  end.

Definition driver_ok (c : Cluster) (v : Z) (n : Node) : Prop :=
  match driver n with
  | DVoting term rnd rs =>
    rnd < next_round c /\ (v, term, v) ∈ votes c /\ NoDup rs.*1 /\
    Forall (fun e => e.1 ∈ cfg_peers (cfg v) /\
      forall resp, e.2 = Some resp -> vote_granted resp = true -> rv_term resp = term ->
        (e.1, term, v) ∈ votes c) rs
  | DBeat _ rnd _ => rnd < next_round c
  | _ => True
  end.

Record node_inv (c : Cluster) (v : Z) (n : Node) : Prop := {
  ni_id : node_id (inner n) = v;
  ni_durable : forall t x, (v, t, x) ∈ votes c -> covers (durable n) t x;
  ni_memory : up n = true -> forall t x, (v, t, x) ∈ votes c -> covers (persistent (inner n)) t x;
  ni_leader : up n = true -> role (inner n) = Leader ->
    (v, current_term (persistent (inner n))) ∈ elected c;
  ni_saving : saving_ok c v n;
  ni_driver : driver_ok c v n;
}.

(** A majority of the members voted for the winner. *)
Definition won (c : Cluster) (v term : Z) : Prop :=
  exists q, NoDup q /\ v ∈ q /\ majority (cfg_peers (cfg v)) <= Z.of_nat (length q) /\
    forall u, u ∈ q -> (u = v \/ u ∈ cfg_peers (cfg v)) /\ (u, term, v) ∈ votes c.

Record raft_inv (c : Cluster) : Prop := {
  ri_nodes : map_Forall (node_inv c) (nodes c);
  ri_rpcs : Forall (rpc_ok c) (rpcs c);
  ri_unique : forall u t x y, (u, t, x) ∈ votes c -> (u, t, y) ∈ votes c -> x = y;
  ri_voters : forall u t x, (u, t, x) ∈ votes c -> is_Some (nodes c !! u);
  ri_elected : forall v t, (v, t) ∈ elected c -> won c v t;
}.

(** [c'] continues [c]: history grows, with new votes only by [v]; a vote round
    that is new in [c'] has a new number. *)
Record grows (v : Z) (c c' : Cluster) : Prop := {
  gr_round : next_round c <= next_round c';
  gr_votes : forall e, e ∈ votes c -> e ∈ votes c';
  gr_others : forall u t x, (u, t, x) ∈ votes c' -> u <> v -> (u, t, x) ∈ votes c;
  gr_elected : forall e, e ∈ elected c -> e ∈ elected c';
  gr_drivers : forall u n' term rnd rs, nodes c' !! u = Some n' -> driver n' = DVoting term rnd rs ->
    next_round c <= rnd \/ exists n rs0, nodes c !! u = Some n /\ driver n = DVoting term rnd rs0;
}.

Lemma grant_backed_grows v c c' u req resp :
  grows v c c' -> grant_backed c u req resp -> grant_backed c' u req resp.
Proof. intros Hg Hb Hr. destruct (Hb Hr) as (x & ? & ?). exists x. split; [done|by apply (gr_votes _ _ _ Hg)]. Qed.

Lemma rpc_ok_grows v c c' r : grows v c c' -> rpc_ok c r -> rpc_ok c' r.
Proof.
  intros Hg [Hr Hd Hq Hb]. pose proof (gr_round _ _ _ Hg). split; [lia|done|..].
  - intros n term rnd rs Hn Hdr ->. destruct (gr_drivers _ _ _ Hg _ _ _ _ _ Hn Hdr) as [?|(n0 & rs0 & Hn0 & Hd0)];
      [lia|]. by eapply Hq.
  - intros resp Hre. eapply grant_backed_grows; [done|]. by apply Hb.
Qed.

Lemma node_inv_grows v c c' u n : grows v c c' -> u <> v -> node_inv c u n -> node_inv c' u n.
Proof.
  intros Hg Hne [Hid Hdu Hm Hl Hs Hd]. split; try done.
  - intros t x Hv. by apply Hdu, (gr_others _ _ _ Hg).
  - intros Hup t x Hv. by apply Hm, (gr_others _ _ _ Hg).
  - intros ? ?. by apply (gr_elected _ _ _ Hg), Hl.
  - unfold saving_ok in *. destruct (saving n) as [[r resp| |]|]; try done.
    destruct Hs as (? & ? & ?). split_and!; [done|by eapply rpc_ok_grows|done].
  - unfold driver_ok in *. pose proof (gr_round _ _ _ Hg). destruct (driver n); try done; [|lia].
    destruct Hd as (? & ? & ? & Hrs). split_and!; [lia|by apply (gr_votes _ _ _ Hg)|done|].
    eapply Forall_impl; [exact Hrs|]. intros e [? He]. split; [done|].
    intros. by eapply (gr_votes _ _ _ Hg), He.
Qed.

Lemma won_grows v c c' u t : grows v c c' -> won c u t -> won c' u t.
Proof.
  intros Hg (q & ? & ? & ? & Hq). exists q. split_and!; [done..|]. intros x Hx.
  destruct (Hq x Hx). split; [done|by apply (gr_votes _ _ _ Hg)].
Qed.

(** One node changes. *)
Lemma raft_inv_node c c' v n' :
  raft_inv c -> grows v c c' -> nodes c' = <[v := n']> (nodes c) -> node_inv c' v n' ->
  (forall r, r ∈ rpcs c' -> r ∈ rpcs c \/ rpc_ok c' r) ->
  (forall t x y, (v, t, x) ∈ votes c' -> (v, t, y) ∈ votes c' -> x = y) ->
  (forall u t, (u, t) ∈ elected c' -> (u, t) ∈ elected c \/ won c' u t) ->
  raft_inv c'.
Proof.
  intros [Hn Hr Hu Hvs He] Hg Hns Hv Hr' Hu' He'. split.
  - rewrite Hns. intros u n. rewrite lookup_insert_Some. intros [[<- <-]|[Hne Hun]]; [done|].
    eapply node_inv_grows; [done|by apply not_eq_sym|by apply Hn].
  - rewrite Forall_forall in *. intros r Hin. destruct (Hr' r Hin); [|done].
    eapply rpc_ok_grows; [done|]. by apply Hr.
  - intros u t x y Hx Hy. destruct (decide (u = v)) as [->|Hne]; [by eapply Hu'|].
    eapply Hu; by eapply (gr_others _ _ _ Hg).
  - intros u t x Hx. rewrite Hns. destruct (decide (v = u)) as [->|Hne]; [by rewrite lookup_insert_eq|].
    rewrite lookup_insert_ne by done. eapply Hvs. eapply (gr_others _ _ _ Hg); [done|by apply not_eq_sym].
  - intros u t Hin. destruct (He' u t Hin); [|done]. eapply won_grows; [done|]. by apply He.
Qed.

(** Terms never go back and a vote is not changed within its term. *)
Definition advances (p p' : RaftPersistentState) : Prop :=
  current_term p < current_term p' \/
  (current_term p = current_term p' /\ (voted_for p = None \/ voted_for p' = voted_for p)).

Lemma covers_advances p p' t x : advances p p' -> covers p t x -> covers p' t x.
Proof.
  unfold covers. intros [?|[Ht Hv]] [?|[Hc Hx]]; [left; lia..|left; lia|].
  right. split; [lia|]. destruct Hv as [Hv|Hv]; congruence.
Qed.

Lemma advances_refl p : advances p p.
Proof. right. split; [done|by right]. Qed.

(** What a transition may do to the guarded state: advance it, keep the identity
    and not make a leader out of a node that was none, nor keep one over a
    change of term. *)
Record transition (g g' : RaftInner) : Prop := {
  tr_id : node_id g' = node_id g;
  tr_advances : advances (persistent g) (persistent g');
  tr_leader : role g' = Leader ->
    role g = Leader /\ current_term (persistent g') = current_term (persistent g);
}.

Lemma transition_refl g : transition g g.
Proof. split; [done|apply advances_refl|done]. Qed.

Lemma adopt_transition g term leader :
  current_term (persistent g) < term -> transition g (adopt_term g term leader).
Proof. intros Ht. split; [done|left; simpl; lia|done]. Qed.

Lemma request_vote_transition t_now term cand g g' resp :
  handle_request_vote t_now term cand g = (g', resp) ->
  transition g g' /\
  (vote_granted resp = true -> rv_term resp = term /\
     persistent g' = {| current_term := term; voted_for := Some cand |}).
Proof.
  unfold handle_request_vote.
  set (g1 := if _ <? _ then _ else g). intros [= <- <-]. cbn [vote_granted rv_term].
  assert (transition g g1) as [Hid Ha Hl].
  { unfold g1. destruct (Z.ltb_spec (current_term (persistent g)) term);
      [by apply adopt_transition|apply transition_refl]. }
  destruct (Z.eqb_spec term (current_term (persistent g1))) as [Ht|Ht]; simpl; [|by split].
  destruct (_ || _) eqn:Hv; simpl; [|by split].
  split; [|intros _; split; [done|by rewrite Ht]].
  apply orb_true_iff in Hv. rewrite !bool_decide_eq_true in Hv. split; [done|..|done].
  destruct Ha as [?|[Hta Hva]]; [left; simpl; lia|]. right. simpl. split; [done|].
  destruct Hva as [Hva|Hva]; [by left|]. rewrite Hva in Hv. destruct Hv as [Hv|Hv]; rewrite Hv; auto.
Qed.

Lemma heartbeat_transition t_now term leader g g' save t :
  handle_heartbeat t_now term leader g = (g', save, t) -> transition g g'.
Proof.
  unfold handle_heartbeat. destruct (Z.leb_spec (current_term (persistent g)) term); intros [= <- <- <-];
    [|apply transition_refl].
  split; [done|..|done]. unfold advances. simpl.
  destruct (Z.ltb_spec (current_term (persistent g)) term); [left; lia|]. right. split; [lia|by right].
Qed.

Lemma begin_transition t_now g g' :
  election_begin t_now g = Some g' ->
  transition g g' /\ role g' = Candidate /\
  persistent g' = {| current_term := current_term (persistent g) + 1; voted_for := Some (node_id g) |}.
Proof.
  unfold election_begin. rewrite bind_Some. intros (t & Ht & [= <-]).
  apply checked_Some in Ht as [-> _]. split; [|done]. split; [done|left; simpl; lia|done].
Qed.

Lemma highest_ge term rs : term <= highest_term term rs.
Proof.
  unfold highest_term. induction (responses rs) as [|r l IH] using rev_ind; [done|].
  rewrite foldl_app. simpl. destruct (Z.ltb_spec (foldl (fun h r => if h <? rv_term r then rv_term r else h) term l) (rv_term r)); lia.
Qed.

(** A new leader comes only out of a candidate of the round's term with a
    majority of grants. *)
Lemma outcome_transition cf t_now term rs g g' save :
  election_outcome cf t_now term rs g = (g', save) ->
  transition g g' \/
  (role g = Candidate /\ role g' = Leader /\ save = false /\ node_id g' = node_id g /\
   persistent g' = persistent g /\ current_term (persistent g) = term /\
   majority (cfg_peers cf) <= tally_votes term rs).
Proof.
  unfold election_outcome. destruct (_ || _) eqn:Hc; [intros [= <- <-]; left; apply transition_refl|].
  apply orb_false_iff in Hc as [Hr Ht]. apply negb_false_iff, bool_decide_eq_true in Hr.
  apply negb_false_iff, Z.eqb_eq in Ht.
  destruct (Z.ltb_spec term (highest_term term rs)).
  { intros [= <- <-]. left. apply adopt_transition. lia. }
  destruct (Z.leb_spec (majority (cfg_peers cf)) (tally_votes term rs)); intros [= <- <-];
    [by right|left; apply transition_refl].
Qed.

Lemma overtaken_transition term rs g g' save :
  heartbeat_overtaken term rs g = (g', save) -> transition g g'.
Proof.
  unfold heartbeat_overtaken. destruct (_ && _) eqn:Hc; intros [= <- <-]; [|apply transition_refl].
  apply andb_true_iff in Hc as [_ ?]. apply adopt_transition. lia.
Qed.

Lemma confirmed_transition cf t_now term rs g :
  let g' := heartbeat_confirmed cf t_now term rs g in
  transition g g' /\ persistent g' = persistent g.
Proof.
  unfold heartbeat_confirmed. repeat case_match; (split; [split; try done; apply advances_refl|done]).
Qed.

Definition same_round (n n' : Node) : Prop :=
  forall term rnd rs, driver n' = DVoting term rnd rs -> exists rs0, driver n = DVoting term rnd rs0.

Lemma grows_node c c' v n n' :
  nodes c !! v = Some n -> nodes c' = <[v := n']> (nodes c) -> next_round c <= next_round c' ->
  (forall e, e ∈ votes c -> e ∈ votes c') ->
  (forall u t x, (u, t, x) ∈ votes c' -> u <> v -> (u, t, x) ∈ votes c) ->
  (forall e, e ∈ elected c -> e ∈ elected c') ->
  (same_round n n' \/ forall term rnd rs, driver n' = DVoting term rnd rs -> next_round c <= rnd) ->
  grows v c c'.
Proof.
  intros Hv Hns Hr Hvo Hot He Hd. split; try done. rewrite Hns. intros u m term rnd rs.
  rewrite lookup_insert_Some. intros [[<- <-]|[Hne Hu]] Hdr; [|right; eauto].
  destruct Hd as [Hd|Hd]; [right|left; by eapply Hd]. destruct (Hd _ _ _ Hdr) as (rs0 & ?). eauto.
Qed.

(** A node changes and no vote is recorded and no election won. *)
Lemma raft_inv_quiet c c' v n n' :
  raft_inv c -> nodes c !! v = Some n -> nodes c' = <[v := n']> (nodes c) ->
  next_round c' = next_round c -> votes c' = votes c -> elected c' = elected c ->
  same_round n n' -> node_inv c v n' ->
  (forall r, r ∈ rpcs c' -> r ∈ rpcs c \/ rpc_ok c r) -> raft_inv c'.
Proof.
  intros Hinv Hv Hns Hr Hvo He Hd [Hid Hdu Hm Hl Hs Hdr] Hrp.
  assert (grows v c c') as Hg.
  { eapply grows_node; try done; [lia|by rewrite Hvo|by rewrite Hvo|by rewrite He|by left]. }
  eapply raft_inv_node; try done.
  - split; rewrite ?Hvo, ?He; try done.
    + unfold saving_ok in *. destruct (saving n') as [[r resp| |]|]; try done.
      destruct Hs as (? & ? & ?). split_and!; [done|by eapply rpc_ok_grows|done].
    + unfold driver_ok in *. by rewrite Hr, Hvo.
  - intros r Hin. destruct (Hrp r Hin); [by left|right]. by eapply rpc_ok_grows.
  - rewrite Hvo. by apply Hinv.
  - rewrite He. by left.
Qed.

Lemma raft_inv_same c c' :
  raft_inv c -> nodes c' = nodes c -> next_round c' = next_round c -> votes c' = votes c ->
  elected c' = elected c -> (forall r, r ∈ rpcs c' -> r ∈ rpcs c) -> raft_inv c'.
Proof.
  intros [Hn Hr Hu Hvs He] Hns Hnr Hvo Hel Hrp.
  assert (forall r, rpc_ok c r -> rpc_ok c' r) as Hro.
  { intros r [? ? Hq Hb]. split; [by rewrite Hnr|done|..].
    - intros n. rewrite Hns. by apply Hq.
    - unfold grant_backed in *. by rewrite Hvo. }
  split.
  - rewrite Hns. eapply map_Forall_impl; [exact Hn|]. intros v n [? ? ? ? Hs Hd].
    split; rewrite ?Hvo, ?Hel; try done.
    + unfold saving_ok in *. destruct (saving n) as [[r resp| |]|]; try done.
      destruct Hs as (? & ? & ?). split_and!; auto.
    + unfold driver_ok in *. by rewrite Hnr, Hvo.
  - rewrite Forall_forall in *. auto.
  - by rewrite Hvo.
  - by rewrite Hvo, Hns.
  - rewrite Hel. unfold won. rewrite Hvo. done.
Qed.

Lemma running_Some c v n : running c v = Some n <-> nodes c !! v = Some n /\ up n = true.
Proof.
  unfold running. rewrite bind_Some. split.
  - intros (n0 & Hn & Hu). destruct (up n0) eqn:?; [|done]. by simplify_eq.
  - intros [Hn Hu]. exists n. by rewrite Hu.
Qed.

(** The guarded state moves by a transition; the rest of the node follows. *)
Lemma node_inv_transition c v n g s d :
  node_inv c v n -> up n = true -> transition (inner n) g ->
  saving_ok c v (set_inner n g s d) -> driver_ok c v (set_inner n g s d) ->
  node_inv c v (set_inner n g s d).
Proof.
  intros [Hid Hdu Hm Hl _ _] Hup [Htid Hta Htl] Hs Hd. split; simpl; try done.
  - congruence.
  - intros _ t x Hv. eapply covers_advances; [done|]. by apply Hm.
  - intros _ Hr. destruct (Htl Hr) as [? ->]. by apply Hl.
Qed.

Lemma node_inv_driver c v n d :
  node_inv c v n -> up n = true -> driver_ok c v (set_inner n (inner n) (saving n) d) ->
  node_inv c v (set_inner n (inner n) (saving n) d).
Proof.
  intros Hn Hup Hd. apply node_inv_transition; try done; [apply transition_refl|]. apply Hn.
Qed.

Lemma turn_inv c v t n n' :
  raft_inv c -> nodes c !! v = Some n -> up n = true -> turn c v t n = Some n' ->
  raft_inv (with_node c v n').
Proof.
  intros Hinv Hv Hup Ht. pose proof (ri_nodes _ Hinv v n Hv) as Hn.
  assert (exists d, n' = set_inner n (inner n) (saving n) d /\ (d = DSawLeader \/ d = DElect)) as (d & -> & Hd).
  { unfold turn in Ht. destruct (driver n); try done. case_bool_decide; [simplify_eq; eauto|].
    destruct (_ && _); simplify_eq. eauto. }
  eapply raft_inv_quiet; try done; [by destruct Hd; subst|..|by left].
  apply node_inv_driver; try done. by destruct Hd; subst.
Qed.

Lemma raft_begin_inv c v n :
  raft_inv c -> nodes c !! v = Some n -> up n = true ->
  raft_inv (with_node c v
    match election_begin (now c) (inner n) with
    | Some g => set_inner n g (Some SSelfVote) DElecting
    | None => set_inner n (set_role (inner n) Candidate (current_leader (inner n))) None DDead
    end).
Proof.
  intros Hinv Hv Hup. pose proof (ri_nodes _ Hinv v n Hv) as Hn.
  destruct (election_begin (now c) (inner n)) as [g|] eqn:Hb.
  - apply begin_transition in Hb as (Ht & Hr & Hp).
    eapply raft_inv_quiet; try done; [..|by left]. apply node_inv_transition; try done.
    unfold saving_ok. simpl. rewrite Hp. simpl. by rewrite (ni_id _ _ _ Hn).
  - eapply raft_inv_quiet; try done; [..|by left]. apply node_inv_transition; try done.
    split; [done|apply advances_refl|done].
Qed.

Lemma save_failed_inv c v n k applied :
  raft_inv c -> nodes c !! v = Some n -> up n = true -> saving n = Some k ->
  raft_inv (save_failed c v n k applied).
Proof.
  intros Hinv Hv Hup Hk. pose proof (ri_nodes _ Hinv v n Hv) as [Hid Hdu Hm Hl Hs Hd].
  eapply raft_inv_quiet; [done..| | |by left].
  - intros term rnd rs. destruct k; simpl; try done. eauto.
  - split; simpl; try done.
    + destruct applied; [|done]. by apply Hm.
    + by destruct k.
Qed.

Lemma saved_stepdown_inv c v n :
  raft_inv c -> nodes c !! v = Some n -> up n = true ->
  raft_inv (with_node c v (set_durable n (persisted n) None DIdle)).
Proof.
  intros Hinv Hv Hup. pose proof (ri_nodes _ Hinv v n Hv) as [Hid Hdu Hm Hl Hs Hd].
  eapply raft_inv_quiet; try done; [|by left]. split; simpl; try done. by apply Hm.
Qed.

(** A vote whose state has been written is the only one of its term. *)
Lemma unique_after c v p term cand :
  raft_inv c -> (forall t x, (v, t, x) ∈ votes c -> covers p t x) ->
  current_term p = term -> voted_for p = Some cand ->
  (forall t x, (v, t, x) ∈ (v, term, cand) :: votes c -> covers p t x) /\
  (forall t x y, (v, t, x) ∈ (v, term, cand) :: votes c -> (v, t, y) ∈ (v, term, cand) :: votes c -> x = y).
Proof.
  intros Hinv Hc Ht Hv. split.
  { intros t x [[= -> ->]|?]%elem_of_cons; [by right|by apply Hc]. }
  intros t x y [[= -> ->]|Hx]%elem_of_cons [[= Ey]|Hy]%elem_of_cons; try congruence.
  - destruct (Hc _ _ Hy) as [?|[? ?]]; [lia|congruence].
  - subst. destruct (Hc _ _ Hx) as [?|[? ?]]; [lia|congruence].
  - by eapply Hinv.
Qed.

Lemma saved_selfvote_inv c v n :
  raft_inv c -> nodes c !! v = Some n -> up n = true -> saving n = Some SSelfVote ->
  raft_inv (save_done c v n SSelfVote).
Proof.
  intros Hinv Hv Hup Hk. pose proof (ri_nodes _ Hinv v n Hv) as [Hid Hdu Hm Hl Hs Hd].
  unfold saving_ok in Hs. rewrite Hk in Hs.
  destruct (unique_after c v (persistent (inner n)) _ v Hinv (Hm Hup) eq_refl Hs) as [Hm' Hu'].
  eapply (raft_inv_node c _ v); [done|..|reflexivity| | |exact Hu'|by left].
  - eapply grows_node; try done; simpl; [lia|by right|..|].
    + intros u t x [[= -> _ _]|?]%elem_of_cons; done.
    + right. intros ? ? ? [= _ <- _]. lia.
  - split; simpl; try done. split_and!; simpl; [lia|by left|by constructor|by constructor].
  - intros r [(p & -> & Hp)%list_elem_of_fmap|?]%elem_of_app; [right|by left].
    split; simpl; [lia|done|..|done]. intros m t rnd rs. simpl. rewrite lookup_insert_eq.
    intros [= <-] [= <- <- <-] _. done.
Qed.

Lemma saved_reply_inv c v n r resp :
  raft_inv c -> nodes c !! v = Some n -> up n = true -> saving n = Some (SReply r resp) ->
  raft_inv (save_done c v n (SReply r resp)).
Proof.
  intros Hinv Hv Hup Hk. pose proof (ri_nodes _ Hinv v n Hv) as [Hid Hdu Hm Hl Hs Hd].
  unfold saving_ok in Hs. rewrite Hk in Hs. destruct Hs as (Hdst & Hr & Hgr).
  set (r' := {| src := src r; dst := dst r; round := round r; request := request r; reply := Some resp |}).
  set (n' := set_durable n (persisted n) None (driver n)).
  assert (same_round n n') as Hsr by (intros ? ? ? ?; simpl; eauto).
  destruct (vote_granted resp) eqn:Hg.
  2: { assert (raft_inv (with_rpcs (with_node c v n') (r' :: rpcs c))) as Hq.
       { eapply raft_inv_quiet; [done..| |].
         - split; simpl; try done. by apply Hm.
         - intros q [->|?]%elem_of_cons; [right|by left]. destruct Hr. split; try done.
           intros resp' [= <-] Hg'. congruence. }
       unfold save_done. rewrite Hg. by destruct (request r). }
  destruct (Hgr eq_refl) as (cand & Hreq & Hp). unfold save_done. rewrite Hreq, Hg.
  destruct (unique_after c v (persistent (inner n)) (rv_term resp) cand) as [Hm' Hu'];
    [done|by apply Hm|by rewrite Hp..|].
  eapply (raft_inv_node c _ v n'); [done|..|reflexivity| | |exact Hu'|by left].
  - eapply grows_node; try done; simpl; [by right|..|by left].
    intros u t x [[= -> _ _]|?]%elem_of_cons; done.
  - split; simpl; try done. unfold driver_ok in *. simpl. destruct (driver n); try done.
    destruct Hd as (? & ? & ? & Hrs). split_and!; [done|by right|done|].
    eapply Forall_impl; [exact Hrs|]. intros e [? He]. split; [done|]. intros. right. by eapply He.
  - intros q [->|?]%elem_of_cons; [right|by left]. destruct Hr as [? ? Hq ?]. split; try done.
    + intros m t rnd rs. simpl. rewrite <-Hreq, lookup_insert_Some.
      intros [[Hsv <-]|[? ?]] Hdr Hrd; [|by eapply Hq].
      apply (Hq n t rnd rs); [by rewrite <-Hsv|done..].
    + intros resp' [= <-] _. exists cand. split; [done|]. rewrite Hdst. by left.
Qed.

Lemma serve_inv c i r n :
  raft_inv c -> rpcs c !! i = Some r -> nodes c !! dst r = Some n -> up n = true ->
  let '(n', resp) := serve c r n in
  let c' := with_node (with_rpcs c (delete i (rpcs c))) (dst r) n' in
  raft_inv match resp with
           | Some _ => with_rpcs c' ({| src := src r; dst := dst r; round := round r;
                                        request := request r; reply := resp |} :: rpcs c')
           | None => c'
           end.
Proof.
  intros Hinv Hi Hv Hup. pose proof (ri_nodes _ Hinv _ n Hv) as Hn.
  assert (rpc_ok c r) as Hr.
  { pose proof (ri_rpcs _ Hinv) as Hall. rewrite Forall_forall in Hall.
    apply Hall. by eapply list_elem_of_lookup_2. }
  assert (forall q, q ∈ delete i (rpcs c) -> q ∈ rpcs c) as Hdel.
  { intros q. apply elem_of_delete. }
  unfold serve. destruct (request r) as [term cand|term leader] eqn:Hreq.
  - destruct (handle_request_vote (now c) term cand (inner n)) as [g resp] eqn:Hh.
    apply request_vote_transition in Hh as [Ht Hgr].
    eapply raft_inv_quiet; try done; [by intros ? ? ? ?; eauto| |by intros q ?; left; apply Hdel].
    apply node_inv_transition; try done; [|apply Hn]. unfold saving_ok. simpl.
    split_and!; [done..|]. intros Hg. destruct (Hgr Hg) as [-> ->]. by exists cand.
  - destruct (handle_heartbeat (now c) term leader (inner n)) as [[g save] t] eqn:Hh.
    apply heartbeat_transition in Hh. destruct save.
    + eapply raft_inv_quiet; try done; [by intros ? ? ? ?; eauto| |by intros q ?; left; apply Hdel].
      apply node_inv_transition; try done. apply Hn.
    + eapply raft_inv_quiet; try done; [by intros ? ? ? ?; eauto|..].
      * apply node_inv_transition; try done. apply Hn.
      * intros q [->|?]%elem_of_cons; [right|left; by apply Hdel]. destruct Hr. split; try done; simpl.
        -- intros m t0 rnd rs Hm Hdr Hrd. simpl. rewrite <-Hreq. by apply (ro_request0 m t0 rnd rs).
        -- by intros resp [= <-].
Qed.

Lemma resolve_inv c v n rnd peer resp d rs' :
  raft_inv c -> nodes c !! v = Some n -> up n = true ->
  resolve (driver n) rnd peer resp = Some d -> peer ∈ cfg_peers (cfg v) ->
  (forall term rs, driver n = DVoting term rnd rs -> forall a, resp = Some a -> vote_granted a = true ->
     rv_term a = term -> (peer, term, v) ∈ votes c) ->
  (forall r, r ∈ rs' -> r ∈ rpcs c) ->
  raft_inv (with_node (with_rpcs c rs') v (set_inner n (inner n) (saving n) d)).
Proof.
  intros Hinv Hv Hup Hres Hp Hvote Hrs. pose proof (ri_nodes _ Hinv _ n Hv) as Hn.
  pose proof (ni_driver _ _ _ Hn) as Hd. unfold driver_ok in Hd. unfold resolve in Hres.
  eapply raft_inv_quiet; try done; [..|by intros r ?; left; apply Hrs].
  - intros term rd rs Hdr. simpl in Hdr. subst d.
    destruct (driver n); try done; destruct (_ && _); simplify_eq; eauto.
  - apply node_inv_driver; try done. unfold driver_ok. simpl.
    destruct (driver n) as [| | |t r rs| |t r rs| |]; try done;
      (destruct (Z.eqb_spec r rnd) as [->|]; [|done]); simpl in Hres;
      case_bool_decide as Hin; try done; simplify_eq/=; [|done].
    destruct Hd as (? & ? & ? & Hall). split_and!; [done|done|by constructor|].
    constructor; [|done]. simpl. split; [done|]. by eapply Hvote.
Qed.

Lemma beat_inv c v n :
  raft_inv c -> nodes c !! v = Some n -> up n = true ->
  let term := current_term (persistent (inner n)) in
  raft_inv (open_round (with_node c v (set_inner n (inner n) (saving n) (DBeat term (next_round c) [])))
              v (Heartbeat term v)).
Proof.
  intros Hinv Hv Hup term. pose proof (ri_nodes _ Hinv _ n Hv) as Hn.
  assert (grows v c (open_round (with_node c v (set_inner n (inner n) (saving n)
    (DBeat term (next_round c) []))) v (Heartbeat term v))) as Hg.
  { eapply grows_node; try done; simpl; [lia|by left]. }
  eapply (raft_inv_node c _ v); [done|exact Hg|reflexivity|..].
  - destruct Hn as [Hid Hdu Hm Hl Hs Hd]. split; simpl; try done; [|unfold driver_ok; simpl; lia].
    unfold saving_ok in *. simpl. destruct (saving n) as [[r resp| |]|]; try done.
    destruct Hs as (? & ? & ?). split_and!; [done|by eapply rpc_ok_grows|done].
  - simpl. intros r [(p & -> & Hp)%list_elem_of_fmap|?]%elem_of_app; [right|by left].
    split; simpl; [lia|done|..|done]. intros m t rnd rs. simpl. rewrite lookup_insert_eq.
    by intros [= <-].
  - intros t x y. simpl. by apply Hinv.
  - by left.
Qed.

Lemma crash_inv c v n (applied : bool) :
  raft_inv c -> nodes c !! v = Some n -> up n = true ->
  raft_inv (with_node c v {| up := false; inner := inner n;
    durable := if bool_decide (saving n <> None) && applied then persisted n else durable n;
    saving := None; driver := DDead |}).
Proof.
  intros Hinv Hv Hup. pose proof (ri_nodes _ Hinv _ n Hv) as [Hid Hdu Hm Hl Hs Hd].
  eapply raft_inv_quiet; try done; [|by left]. split; simpl; try done.
  destruct (_ && _); [by apply Hm|done].
Qed.

Lemma restart_inv c v n :
  raft_inv c -> nodes c !! v = Some n ->
  raft_inv (with_node c v {| up := true; inner := spawn_inner (cfg v) v (now c) (durable n);
    durable := durable n; saving := None; driver := if bootstrap (cfg v) then DElect else DIdle |}).
Proof.
  intros Hinv Hv. pose proof (ri_nodes _ Hinv _ n Hv) as [Hid Hdu Hm Hl Hs Hd].
  eapply raft_inv_quiet; try done; [..|by left].
  - intros term rnd rs. simpl. by destruct (bootstrap (cfg v)).
  - split; simpl; try done. unfold driver_ok. simpl. by destruct (bootstrap (cfg v)).
Qed.

(** The peers that granted their vote. *)
Definition voters (term : Z) (rs : round_results) : list Z :=
  omap (fun e => match e.2 with
                 | Some r => if vote_granted r && (rv_term r =? term) then Some e.1 else None
                 | None => None
                 end) rs.

Lemma voters_length term rs : tally_votes term rs = 1 + Z.of_nat (length (voters term rs)).
Proof.
  unfold tally_votes. f_equal. f_equal. induction rs as [|[u [r|]] rs IH]; [done| |done].
  assert (voters term ((u, Some r) :: rs) =
    if vote_granted r && (rv_term r =? term) then u :: voters term rs else voters term rs) as ->
    by (unfold voters; simpl; by destruct (_ && _)).
  change (responses ((u, Some r) :: rs)) with (r :: responses rs). rewrite filter_cons.
  destruct (decide _) as [[Hg Ht]|Hn]; [by rewrite Hg, Ht, Z.eqb_refl; simpl; rewrite IH|].
  destruct (vote_granted r) eqn:Hg; simpl; [|done].
  destruct (Z.eqb_spec (rv_term r) term); [|done]. by destruct Hn.
Qed.

Lemma elem_of_voters term rs u :
  u ∈ voters term rs <->
  exists r, (u, Some r) ∈ rs /\ vote_granted r = true /\ rv_term r = term.
Proof.
  unfold voters. rewrite list_elem_of_omap. split.
  - intros ([u' [r|]] & Hin & He); simpl in He; [|done].
    destruct (vote_granted r) eqn:?, (Z.eqb_spec (rv_term r) term); simplify_eq/=. eauto.
  - intros (r & Hin & Hg & Ht). exists (u, Some r). split; [done|]. simpl.
    by rewrite Hg, Ht, Z.eqb_refl.
Qed.

Lemma voters_NoDup term rs : NoDup rs.*1 -> NoDup (voters term rs).
Proof.
  induction rs as [|[u o] rs IH]; [constructor|]. rewrite fmap_cons, NoDup_cons. intros [Hu Hnd].
  assert (voters term ((u, o) :: rs) = voters term [(u, o)] ++ voters term rs) as ->
    by apply (omap_app _ [(u, o)] rs).
  apply NoDup_app. split_and!; [|..|by apply IH].
  - unfold voters. simpl. destruct o as [r|]; [|constructor]. destruct (_ && _); repeat constructor; set_solver.
  - intros x (r & [[= -> <-]|Hx]%elem_of_cons & _)%elem_of_voters (r' & Hin & _)%elem_of_voters.
    + apply Hu. by apply (list_elem_of_fmap_2 fst) in Hin.
    + by apply not_elem_of_nil in Hx.
Qed.

Context (not_own_peer : forall v, v ∉ cfg_peers (cfg v)).

Lemma round_won c v term rnd rs n :
  driver_ok c v n -> driver n = DVoting term rnd rs ->
  majority (cfg_peers (cfg v)) <= tally_votes term rs -> won c v term.
Proof.
  unfold driver_ok. intros Hd Hdr Hmaj. rewrite Hdr in Hd. destruct Hd as (_ & Hself & Hnd & Hrs).
  rewrite Forall_forall in Hrs. exists (v :: voters term rs). split_and!.
  - constructor; [|by apply voters_NoDup]. intros (r & Hin & _)%elem_of_voters.
    destruct (Hrs _ Hin) as [Hp _]. by apply (not_own_peer v).
  - by left.
  - rewrite voters_length in Hmaj. simpl. lia.
  - intros u [->|(r & Hin & Hg & Ht)%elem_of_voters]%elem_of_cons; [by split; [left|]|].
    destruct (Hrs _ Hin) as [Hp Hv]. split; [by right|]. by eapply Hv.
Qed.

Lemma finish_inv c v n c' :
  raft_inv c -> nodes c !! v = Some n -> up n = true -> finish c v n = Some c' -> raft_inv c'.
Proof.
  intros Hinv Hv Hup. pose proof (ri_nodes _ Hinv _ n Hv) as Hn. unfold finish.
  destruct (driver n) as [| | |term rnd rs| |term rnd rs| |] eqn:Hd; try done.
  - destruct (_ && _); [|done]. simpl.
    destruct (election_outcome (cfg v) (now c) term rs (inner n)) as [g save] eqn:Ho.
    destruct (outcome_transition _ _ _ _ _ _ _ Ho) as [Ht|(Hr & Hr' & -> & Hid & Hp & Hct & Hmaj)]; intros [= <-].
    + assert (bool_decide (role (inner n) = Candidate) && bool_decide (role g = Leader) = false) as ->.
      { apply andb_false_iff. rewrite !bool_decide_eq_false. destruct (decide (role g = Leader)) as [Hl|]; [|by right].
        left. apply (tr_leader _ _ Ht) in Hl as [-> _]. done. }
      eapply raft_inv_quiet; try done; [by destruct save|..|by left].
      destruct save; by apply node_inv_transition.
    + rewrite !bool_decide_true by done. simpl.
      pose proof (round_won c v term rnd rs n (ni_driver _ _ _ Hn) Hd Hmaj) as Hw.
      destruct Hn as [Hnid Hdu Hm Hl Hs Hdr].
      eapply (raft_inv_node c _ v); [done| |reflexivity| |by left|apply Hinv|].
      * eapply grows_node; try done; simpl; [by right|by left].
      * split; simpl; try done; [congruence|rewrite Hp; by apply Hm|].
        intros _ _. rewrite Hp, Hct. by left.
      * simpl. intros u t [[= -> ->]|?]%elem_of_cons; [by right|by left].
  - destruct (all_resolved v rs); [|done]. simpl. destruct (term <? highest_term term rs).
    + case_bool_decide; [|done]. simpl.
      destruct (heartbeat_overtaken term rs (inner n)) as [g save] eqn:Ho. intros [= <-].
      apply overtaken_transition in Ho. eapply raft_inv_quiet; try done; [by destruct save|..|by left].
      destruct save; by apply node_inv_transition.
    + intros [= <-]. destruct (confirmed_transition (cfg v) (now c) term rs (inner n)) as [Ht Hp].
      eapply raft_inv_quiet; try done; [..|by left]. apply node_inv_transition; try done.
      pose proof (ni_saving _ _ _ Hn) as Hs. unfold saving_ok in *. simpl. rewrite Hp. done.
Qed.

Lemma exec_event_inv c e c' : raft_inv c -> exec_event c e = Some c' -> raft_inv c'.
Proof.
  intros Hinv.
  assert (forall r i, rpcs c !! i = Some r -> rpc_ok c r) as Hrpc.
  { intros r i Hi. pose proof (ri_rpcs _ Hinv) as Hall. rewrite Forall_forall in Hall.
    by eapply Hall, list_elem_of_lookup_2. }
  destruct e as [d|v t|v|v|v applied|i|i|i|v peer|v|v|v|v applied|v]; simpl; rewrite ?bind_Some.
  - destruct (0 <=? d); intros [= <-]. by apply (raft_inv_same c).
  - intros (n & [Hv Hup]%running_Some & (n' & Ht & [= <-])%bind_Some). by eapply turn_inv.
  - intros (n & [Hv Hup]%running_Some & Hb). destruct (driver n); try done.
    destruct (saving n); simplify_eq. by apply raft_begin_inv.
  - intros (n & [Hv Hup]%running_Some & (k & Hk & [= <-])%bind_Some). destruct k.
    + by apply saved_reply_inv.
    + by apply saved_selfvote_inv.
    + by apply saved_stepdown_inv.
  - intros (n & [Hv Hup]%running_Some & (k & Hk & [= <-])%bind_Some). by apply save_failed_inv.
  - intros (r & Hi & (n & [Hv Hup]%running_Some & Hs)%bind_Some).
    destruct (_ && _); [|done]. pose proof (serve_inv c i r n Hinv Hi Hv Hup) as Hq.
    destruct (serve c r n) as [n' resp]. by destruct resp; simplify_eq.
  - intros (r & Hi & (resp & Hre & (n & [Hv Hup]%running_Some & (d & Hd & [= <-])%bind_Some)%bind_Some)%bind_Some).
    pose proof (Hrpc r i Hi) as [? Hdst Hq Hb]. eapply resolve_inv; try done.
    + intros term rs Hdr a [= <-] Hg Ht. destruct (Hb resp Hre Hg) as (cand & Hreq & Hin).
      rewrite (Hq n term (round r) rs Hv Hdr eq_refl) in Hreq. by simplify_eq.
    + intros q. apply elem_of_delete.
  - intros (r & Hi & [= <-]). apply (raft_inv_same c); try done. intros q. apply elem_of_delete.
  - intros (n & [Hv Hup]%running_Some & (rnd & Hrnd & (? & Hp & (d & Hd & [= <-])%bind_Some)%bind_Some)%bind_Some).
    case_guard as Hpeer; [|done]. by apply (resolve_inv c v n rnd peer None d (rpcs c)).
  - intros (n & [Hv Hup]%running_Some & Hf). by eapply finish_inv.
  - intros (n & [Hv Hup]%running_Some & Hb). destruct (driver n); simplify_eq. by apply beat_inv.
  - intros (n & [Hv Hup]%running_Some & [= <-]). pose proof (ri_nodes _ Hinv _ n Hv) as Hn.
    eapply raft_inv_quiet; try done; [by intros ? ? ? ?; eauto|..|by left].
    apply node_inv_transition; try done; [|apply Hn..]. split; [done|apply advances_refl|done].
  - intros (n & [Hv Hup]%running_Some & [= <-]). by apply crash_inv.
  - intros (n & Hv & Hr). destruct (up n); simplify_eq. by apply restart_inv.
Qed.

Lemma exec_event_dom c e c' : exec_event c e = Some c' -> dom (nodes c') = dom (nodes c).
Proof.
  assert (forall v n n', nodes c !! v = Some n -> dom (<[v := n']> (nodes c)) = dom (nodes c)) as Hi.
  { intros v n n' Hv. rewrite dom_insert_lookup_L by eauto. done. }
  assert (forall v n' rs, is_Some (running c v) -> dom (nodes (with_node (with_rpcs c rs) v n')) = dom (nodes c)) as Hw.
  { intros v n' rs [n [Hv _]%running_Some]. simpl. by eapply Hi. }
  destruct e as [d|v t|v|v|v applied|i|i|i|v peer|v|v|v|v applied|v]; simpl; rewrite ?bind_Some.
  - destruct (0 <=? d); by intros [= <-].
  - intros (n & [Hv _]%running_Some & (n' & _ & [= <-])%bind_Some). by eapply Hi.
  - intros (n & [Hv _]%running_Some & Hb). destruct (driver n), (saving n); simplify_eq. by eapply Hi.
  - intros (n & [Hv _]%running_Some & (k & _ & [= <-])%bind_Some). unfold save_done.
    destruct k as [r resp| |]; simpl; [|by eapply Hi..].
    destruct (request r); [destruct (vote_granted resp)|]; by eapply Hi.
  - intros (n & [Hv _]%running_Some & (k & _ & [= <-])%bind_Some). by eapply Hi.
  - intros (r & _ & (n & [Hv _]%running_Some & Hs)%bind_Some). destruct (_ && _); [|done].
    destruct (serve c r n) as [n' []]; simplify_eq/=; by eapply Hi.
  - intros (r & _ & (resp & _ & (n & [Hv _]%running_Some & (d & _ & [= <-])%bind_Some)%bind_Some)%bind_Some).
    by eapply Hi.
  - by intros (r & _ & [= <-]).
  - intros (n & [Hv _]%running_Some & (rnd & _ & (? & _ & (d & _ & [= <-])%bind_Some)%bind_Some)%bind_Some).
    by eapply Hi.
  - intros (n & [Hv _]%running_Some & Hf). unfold finish in Hf.
    destruct (driver n); try done; repeat case_match; simplify_eq/=; by eapply Hi.
  - intros (n & [Hv _]%running_Some & Hb). destruct (driver n); simplify_eq/=. by eapply Hi.
  - intros (n & [Hv _]%running_Some & [= <-]). by eapply Hi.
  - intros (n & [Hv _]%running_Some & [= <-]). by eapply Hi.
  - intros (n & Hv & Hr). destruct (up n); simplify_eq/=. by eapply Hi.
Qed.

Lemma fresh_inv members : raft_inv (fresh_cluster members).
Proof.
  split; simpl; [|constructor|intros ? ? ? ? []%not_elem_of_nil|intros ? ? ? []%not_elem_of_nil
    |intros ? ? []%not_elem_of_nil].
  intros v n (w & [= -> ->] & _)%elem_of_list_to_map_2%list_elem_of_fmap.
  split; simpl; try done. intros ? ? []%not_elem_of_nil.
Qed.

Lemma fresh_dom members : dom (nodes (fresh_cluster members)) = list_to_set members.
Proof.
  simpl. induction members as [|v vs IH]; [by apply dom_empty_L|].
  rewrite fmap_cons. simpl. by rewrite dom_insert_L, IH.
Qed.

Lemma raft_reachable members c :
  rtc raft_step (fresh_cluster members) c -> raft_inv c /\ dom (nodes c) = list_to_set members.
Proof.
  intros Hr. assert (raft_inv (fresh_cluster members) /\
    dom (nodes (fresh_cluster members)) = list_to_set members) as H0
    by (split; [apply fresh_inv|apply fresh_dom]).
  revert H0. generalize (list_to_set members : gset Z) as D. intros D.
  induction Hr as [|c1 c2 c3 [e He] _ IH]; [done|]. intros [Hinv Hd].
  apply IH. split; [by eapply exec_event_inv|]. by rewrite (exec_event_dom _ _ _ He).
Qed.
End cluster.

(** Two lists without repetition that are together longer than a set they are
    drawn from share an element. *)
Lemma quorums_meet (q q' m : list Z) :
  NoDup q -> NoDup q' -> (forall u, u ∈ q -> u ∈ m) -> (forall u, u ∈ q' -> u ∈ m) ->
  (length m < length q + length q')%nat -> exists u, u ∈ q /\ u ∈ q'.
Proof.
  intros Hq Hq' Hs Hs' Hlen.
  destruct (decide (Exists (fun u => u ∈ q') q)) as [(u & ? & ?)%Exists_exists|Hn]; [by exists u|].
  exfalso. rewrite <-Forall_Exists_neg, Forall_forall in Hn.
  assert (q ++ q' ⊆+ m) as Hsub%submseteq_length.
  { apply NoDup_submseteq; [by apply NoDup_app|]. intros u [?|?]%elem_of_app; auto. }
  rewrite length_app in Hsub. lia.
Qed.

(** Every node of the group lists all the others. *)
Definition control_group (cfg : Z -> RaftConfig) (members : list Z) : Prop :=
  NoDup members /\ forall v, cfg_peers (cfg v) = filter (fun u => u <> v) members.

Lemma control_group_not_own cfg members v : control_group cfg members -> v ∉ cfg_peers (cfg v).
Proof. intros [_ ->] [? _]%list_elem_of_filter. done. Qed.

Lemma control_group_size cfg members v :
  control_group cfg members -> v ∈ members -> length members = S (length (cfg_peers (cfg v))).
Proof.
  intros [Hnd ->] Hv. induction Hnd as [|u l Hu Hnd IH]; [by apply not_elem_of_nil in Hv|].
  rewrite filter_cons. apply elem_of_cons in Hv as [->|Hv].
  - destruct (decide _) as [[]|]; [done|]. simpl. f_equal.
    rewrite list_filter_all; [done|]. by intros x Hx ->.
  - destruct (decide _) as [|Hn]; [simpl; f_equal; by apply IH|].
    destruct (decide (u = v)); [by subst|done].
Qed.

(** Two majorities of one group share a voter, who votes once per term. *)
Lemma won_unique cfg members c v v' t :
  control_group cfg members -> raft_inv cfg c -> dom (nodes c) = list_to_set members ->
  won cfg c v t -> won cfg c v' t -> v = v'.
Proof.
  intros Hcfg Hinv Hdom (q & Hq & Hvq & Hm & Hall) (q' & Hq' & Hvq' & Hm' & Hall').
  assert (forall w u, (u, t, w) ∈ votes c -> u ∈ members) as Hmem.
  { intros w u Hu. destruct (ri_voters _ _ Hinv _ _ _ Hu) as [n Hn%elem_of_dom_2].
    rewrite Hdom in Hn. by apply elem_of_list_to_set in Hn. }
  destruct (quorums_meet q q' members) as (u & Hu & Hu'); try done.
  - intros u Hu. destruct (Hall u Hu). by eapply Hmem.
  - intros u Hu. destruct (Hall' u Hu). by eapply Hmem.
  - destruct (Hall v Hvq) as [_ Hv%Hmem]. destruct (Hall' v' Hvq') as [_ Hv'%Hmem].
    pose proof (control_group_size _ _ _ Hcfg Hv) as Hl.
    pose proof (control_group_size _ _ _ Hcfg Hv') as Hl'. unfold majority in *.
    pose proof (Z.div_mod (Z.of_nat (length (cfg_peers (cfg v))) + 1) 2).
    pose proof (Z.mod_pos_bound (Z.of_nat (length (cfg_peers (cfg v))) + 1) 2).
    replace (length (cfg_peers (cfg v'))) with (length (cfg_peers (cfg v))) in * by lia. lia.
  - destruct (Hall u Hu), (Hall' u Hu'). by eapply Hinv.
Qed.

Lemma epoch_packs term id :
  0 <= term < 2 ^ 48 -> 0 <= id < 2 ^ 16 ->
  control_leader_epoch term id = Done (term * 2 ^ 16 + id).
Proof.
  intros Ht Hi. unfold control_leader_epoch.
  change (Z.shiftl 1 16) with (2 ^ 16). rewrite (proj2 (Z.ltb_lt id (2 ^ 16))) by lia.
  change 65535 with (Z.ones 16). rewrite Z.land_ones, (Z.mod_small id), Z.shiftl_mul_pow2 by lia.
  rewrite as_u64_id by (unfold u64_max; lia). f_equal.
  assert (Z.land (term * 2 ^ 16) id = 0) as Hz.
  { rewrite <-(Z.mod_small id (2 ^ 16)), <-Z.land_ones by lia.
    rewrite (Z.land_comm id), Z.land_assoc, Z.land_ones by lia.
    by rewrite Z.mod_mul, Z.land_0_l by lia. }
  pose proof (Z.add_lor_land (term * 2 ^ 16) id). lia.
Qed.

Lemma single_leader_check c :
  (forall v v' n n', nodes c !! v = Some n -> up n = true -> role (inner n) = Leader ->
     nodes c !! v' = Some n' -> up n' = true -> role (inner n') = Leader ->
     current_term (persistent (inner n)) = current_term (persistent (inner n')) -> v = v') ->
  assert_single_control_leader c = true.
Proof.
  intros Hone. unfold assert_single_control_leader. apply Is_true_eq_true, forallb_True, Forall_forall.
  intros [v n] _. apply Is_true_eq_left, bool_decide_eq_true. unfold leaders_at. rewrite length_fmap.
  set (l := filter _ _). assert (NoDup l) as Hnd by apply NoDup_filter, NoDup_map_to_list.
  assert (forall e, e ∈ l -> nodes c !! e.1 = Some e.2 /\ up e.2 = true /\ role (inner e.2) = Leader /\
    current_term (persistent (inner e.2)) = current_term (persistent (inner n))) as Hl.
  { intros [u m] [(? & ? & ?) ?%elem_of_map_to_list]%list_elem_of_filter. done. }
  destruct l as [|[a na] [|[b nb] l]]; simpl; try lia. exfalso.
  destruct (Hl (a, na)) as (Ha & ? & ? & Hta); [by left|].
  destruct (Hl (b, nb)) as (Hb & ? & ? & Htb); [by right; left|]. simpl in *.
  assert (a = b) as -> by (eapply Hone; try done; congruence). simplify_eq.
  apply NoDup_cons in Hnd as [Hnot _]. apply Hnot. by left.
Qed.

(** C2: At most one leader per term, across any interleaving of elections, votes,
    heartbeats, message losses, failed durable writes, crashes and restarts: two
    elections of one term were won by the same node, two running leaders of the
    same term are the same node, so [assert_single_control_leader] never fires;
    a node that passes [require_leader] won the election of the term it returns;
    and, while terms fit in 48 bits and ids in 16, the leader of the higher term
    carries the higher fence epoch. *)
Theorem election_safety (cfg : Z -> RaftConfig) (members : list Z) (c : Cluster) :
  control_group cfg members -> rtc (raft_step cfg) (fresh_cluster cfg members) c ->
  (forall v v' t, (v, t) ∈ elected c -> (v', t) ∈ elected c -> v = v') /\
  assert_single_control_leader c = true /\
  (forall v n t, nodes c !! v = Some n -> up n = true -> require_leader (now c) (inner n) = Some t ->
     (v, t) ∈ elected c) /\
  (forall v v' n n' t t' e e',
     nodes c !! v = Some n -> up n = true -> require_leader (now c) (inner n) = Some t ->
     nodes c !! v' = Some n' -> up n' = true -> require_leader (now c) (inner n') = Some t' ->
     0 <= v < 2 ^ 16 -> 0 <= v' < 2 ^ 16 -> 0 <= t < 2 ^ 48 -> 0 <= t' < 2 ^ 48 ->
     leader_epoch (now c) (inner n) = Some (Done e) ->
     leader_epoch (now c) (inner n') = Some (Done e') ->
     (e = e' -> v = v') /\ (t < t' -> e < e')).
Proof.
  intros Hcfg Hr. destruct (raft_reachable cfg) with members c as [Hinv Hdom];
    [intros v; by eapply control_group_not_own|done|].
  assert (forall v v' t, (v, t) ∈ elected c -> (v', t) ∈ elected c -> v = v') as Hone.
  { intros v v' t Hv Hv'. by eapply won_unique; [..|apply Hinv|apply Hinv]. }
  assert (forall v n t, nodes c !! v = Some n -> up n = true ->
    require_leader (now c) (inner n) = Some t -> (v, t) ∈ elected c /\ leader_epoch (now c) (inner n) =
      Some (control_leader_epoch t v)) as Hreq.
  { intros v n t Hv Hup. destruct (ri_nodes _ _ Hinv v n Hv) as [Hid _ _ Hl _ _].
    unfold require_leader, leader_epoch, has_live_leader_quorum. case_bool_decide; [|done]. simpl.
    destruct (_ <? _); intros [= <-]. rewrite Hid. split; [by apply Hl|done]. }
  split_and!; [done| |intros; by eapply Hreq|].
  2: { intros v v' n n' t t' e e' Hv Hup Ht Hv' Hup' Ht' Hb Hb' Hbt Hbt' He He'.
       destruct (Hreq _ _ _ Hv Hup Ht) as [Hel Ee]. destruct (Hreq _ _ _ Hv' Hup' Ht') as [Hel' Ee'].
       rewrite Ee, epoch_packs in He by done. rewrite Ee', epoch_packs in He' by done.
       simplify_eq. split; [|lia]. intros Heq. apply (Hone v v' t); [done|].
       replace t with t' by lia. done. }
  apply single_leader_check. intros v v' n n' Hv Hup Hrole Hv' Hup' Hrole' Ht.
  apply (Hone v v' (current_term (persistent (inner n)))); [by apply (ri_nodes _ _ Hinv v n Hv)|].
  rewrite Ht. by apply (ri_nodes _ _ Hinv v' n' Hv').
Qed.

(* ------------------------------------------------------------------ *)
(** ** Schedules of a three-node group *)

Definition trio : list Z := [1; 2; 3].
Definition trio_cfg (v : Z) : RaftConfig := config_new (filter (fun u => u <> v) trio) false.

Lemma trio_group : control_group trio_cfg trio.
Proof. split; [|done]. unfold trio. repeat constructor; set_solver. Qed.

Lemma exec_events_steps cfg c es c' : exec_events cfg c es = Some c' -> rtc (raft_step cfg) c c'.
Proof.
  revert c. induction es as [|e es IH]; intros c; simpl; [by intros [= <-]|].
  rewrite bind_Some. intros (c1 & Hc1 & Hrest). eapply rtc_l; [by exists e|by apply IH].
Qed.

(** All nodes boot; node 1 is the first to time out and wins term 1 with the
    votes of both peers. *)
Definition first_election : list event :=
  [Restart 1; Restart 2; Restart 3; Tick 150; Turn 1 150; Begin 1; Saved 1;
   Serve 0; Saved 2; Deliver 0; Serve 0; Saved 3; Deliver 0; Finish 1].

(** Node 1 cannot reach node 3.  It renews its lease with node 2; node 3 times
    out and wins term 2 with the vote of node 2. *)
Definition partial_partition : list event :=
  first_election ++
  [Tick 140; Turn 1 150; Beat 1; Serve 0; Deliver 0; TimedOut 1 3; Finish 1; Lose 0;
   Tick 10; Turn 3 150; Begin 3; Saved 3; Serve 1; Saved 2; Deliver 0; TimedOut 3 1; Finish 3].

(** Node 1 has seen that it leads and is about to send heartbeats when it votes
    for node 3 in term 2, so the heartbeat carries term 2; node 3 wins term 2 and
    receives it. *)
Definition stale_leadership : list event :=
  first_election ++
  [Tick 150; Turn 3 150; Begin 3; Saved 3; Turn 1 150; Serve 0; Saved 1; Beat 1;
   Deliver 2; TimedOut 3 2; Finish 3; Serve 1].

Definition trio_run (es : list event) : option Cluster :=
  exec_events trio_cfg (fresh_cluster trio_cfg trio) es.

Definition node_view (c : Cluster) (v : Z) : option (bool * RaftRole * RaftPersistentState * option Z * bool) :=
  (fun n => (up n, role (inner n), persistent (inner n), current_leader (inner n),
             is_leader (now c) (inner n))) <$> nodes c !! v.

Lemma node_view_Some c v u r p l b :
  node_view c v = Some (u, r, p, l, b) ->
  exists n, nodes c !! v = Some n /\ up n = u /\ role (inner n) = r /\ persistent (inner n) = p /\
    current_leader (inner n) = l /\ is_leader (now c) (inner n) = b.
Proof. intros (n & Hn & [= -> -> -> -> ->])%fmap_Some. by exists n. Qed.

Lemma partial_partition_views :
  (fun c => (node_view c 1, node_view c 3)) <$> trio_run partial_partition =
  Some (Some (true, Leader, {| current_term := 1; voted_for := Some 1 |}, Some 1, true),
        Some (true, Leader, {| current_term := 2; voted_for := Some 3 |}, Some 3, true)).
Proof. vm_compute. reflexivity. Qed.

Lemma stale_leadership_views :
  (fun c => (node_view c 3, elected c)) <$> trio_run stale_leadership =
  Some (Some (true, Follower, {| current_term := 2; voted_for := Some 3 |}, Some 1, false),
        [(3, 2); (1, 1)]).
Proof. vm_compute. reflexivity. Qed.

(** The leader lease does not keep a deposed leader from acting: with the
    default timeouts a group of three reaches a state in which two running nodes
    both pass the leadership check, in different terms.  A follower that has just
    acknowledged the leader's heartbeat grants its vote to a peer that cannot
    hear the leader, so the old lease, renewed by that acknowledgement, is still
    running when the new leader is elected. *)
Theorem lease_does_not_exclude_new_leader :
  exists c n n',
    rtc (raft_step trio_cfg) (fresh_cluster trio_cfg trio) c /\
    nodes c !! 1 = Some n /\ up n = true /\ is_leader (now c) (inner n) = true /\
    nodes c !! 3 = Some n' /\ up n' = true /\ is_leader (now c) (inner n') = true /\
    current_term (persistent (inner n)) < current_term (persistent (inner n')).
Proof.
  pose proof partial_partition_views as (c & Hc & [= H1 H3])%fmap_Some.
  destruct (node_view_Some _ _ _ _ _ _ _ (eq_sym H1)) as (n & ? & ? & _ & Hp & _ & ?).
  destruct (node_view_Some _ _ _ _ _ _ _ (eq_sym H3)) as (n' & ? & ? & _ & Hp' & _ & ?).
  exists c, n, n'. split; [exact (exec_events_steps _ _ _ _ Hc)|]. rewrite Hp, Hp'.
  split_and!; first [done|cbn; lia].
Qed.

(** C40: A node that is no longer leader can depose the leader that replaced it:
    the driver reads its role and its term in two steps, so a vote for a higher
    term in between makes it send a heartbeat of that term.  The elected leader
    of the term then follows a node that never won it. *)
Theorem stale_heartbeat_deposes_leader :
  exists c n,
    rtc (raft_step trio_cfg) (fresh_cluster trio_cfg trio) c /\
    nodes c !! 3 = Some n /\ up n = true /\ (3, 2) ∈ elected c /\ (1, 2) ∉ elected c /\
    current_term (persistent (inner n)) = 2 /\
    role (inner n) = Follower /\ current_leader (inner n) = Some 1.
Proof.
  pose proof stale_leadership_views as (c & Hc & [= H3 He])%fmap_Some.
  destruct (node_view_Some _ _ _ _ _ _ _ (eq_sym H3)) as (n & ? & ? & ? & Hp & ? & _).
  exists c, n. split; [exact (exec_events_steps _ _ _ _ Hc)|]. rewrite <-He, Hp.
  split_and!; [done|done|by left| |done..].
  by intros [|[|[]%not_elem_of_nil]%elem_of_cons]%elem_of_cons.
Qed.

(** A leader whose lease runs out between two reads passes [require_leader] and
    then has no epoch. *)
Lemma authority_lapses_between_reads g t1 t2 term :
  require_leader t1 g = Some term -> leader_quorum_timeout g <= t2 - last_quorum_contact g ->
  leader_epoch t2 g = None.
Proof.
  unfold require_leader, leader_epoch, has_live_leader_quorum. intros _ Hl.
  destruct (Z.ltb_spec (t2 - last_quorum_contact g) (leader_quorum_timeout g)); [lia|].
  by rewrite andb_false_r.
Qed.

Lemma election_safety_witness :
  exists c, trio_run partial_partition = Some c /\ assert_single_control_leader c = true.
Proof.
  pose proof partial_partition_views as (c & Hc & _)%fmap_Some. exists c. split; [exact Hc|].
  exact (proj1 (proj2 (election_safety trio_cfg trio c trio_group (exec_events_steps _ _ _ _ Hc)))).
Defined.
