(* ===== verification/ShardLeases.v ===== *)
(** Shard write leases (rockstream-control/src/shard.rs, rockstream-types/src/
    lease.rs, and the token decoder of rockstream-runtime/src/fence.rs): fencing
    tokens, the lease table and its snapshots.  The handlers that use them are in
    the file on the control plane's leases.

    The guarded [ShardManagerInner] is a record; every method is a function on
    it, a failed [assert!] a [Panic].  The stored object is the snapshot itself
    (its JSON form is serde's).  Time stamps are an argument; the floating-point
    factor of [LeaseHeatHint::decay] is a parameter. *)
From Stdlib Require Import String.
From stdpp Require Import base tactics list gmap numbers option fin_maps relations strings.
From Stdlib Require Import ZArith Lia ZifyBool Sorted.
From S2P Require Import Prelude.
Local Open Scope Z_scope.

(* ------------------------------------------------------------------ *)
(** ** Leases *)

Record LeaseHeatHint : Type := {
  hot_key_prefixes : list bytes;
  hot_sst_ids : list string;
  hot_block_ranges : list (Z * Z);
  expected_read_rate : Z;
}.

#[global] Instance LeaseHeatHint_eq_dec : EqDecision LeaseHeatHint.
Proof. solve_decision. Defined.

Definition default_heat : LeaseHeatHint := {|
  hot_key_prefixes := []; hot_sst_ids := []; hot_block_ranges := []; expected_read_rate := 0;
|}.

Definition MAX_ENTRIES : nat := 64.

Definition bounded (h : LeaseHeatHint) : LeaseHeatHint := {|
  hot_key_prefixes := take MAX_ENTRIES (hot_key_prefixes h);
  hot_sst_ids := take MAX_ENTRIES (hot_sst_ids h);
  hot_block_ranges := take MAX_ENTRIES (hot_block_ranges h);
  expected_read_rate := expected_read_rate h;
|}.

(** [scale rate elapsed half_life] is the rate times one half to the power of
    [elapsed / half_life], in floating point and truncated. *)
Definition decay (scale : Z -> Z -> Z -> Z) (h : LeaseHeatHint) (elapsed half_life : Z) : LeaseHeatHint := {|
  hot_key_prefixes := hot_key_prefixes h; hot_sst_ids := hot_sst_ids h;
  hot_block_ranges := hot_block_ranges h;
  expected_read_rate :=
    if half_life =? 0 then 0 else scale (expected_read_rate h) elapsed half_life;
|}.

Record ShardLease : Type := {
  shard_id : Z;
  worker_id : Z;
  lease_token : Z;
  acquired_at_ms : Z;
  heat_hint : LeaseHeatHint;
}.

#[global] Instance ShardLease_eq_dec : EqDecision ShardLease.
Proof. solve_decision. Defined.

(** [ShardLease::new(..).with_heat_hint(heat)] *)
Definition new_lease (now shard worker token : Z) (heat : LeaseHeatHint) : ShardLease := {|
  shard_id := shard; worker_id := worker; lease_token := token; acquired_at_ms := now;
  heat_hint := bounded heat;
|}.

Definition set_heat (l : ShardLease) (h : LeaseHeatHint) : ShardLease := {|
  shard_id := shard_id l; worker_id := worker_id l; lease_token := lease_token l;
  acquired_at_ms := acquired_at_ms l; heat_hint := h;
|}.

(** Of these, the manager's methods return the first only. *)
Inductive LeaseError : Type :=
| AlreadyLeased (shard holder : Z)
| StaleToken (shard provided current : Z)
| NoLease (shard : Z).

(* ------------------------------------------------------------------ *)
(** ** The manager *)

Record ShardManagerInner : Type := {
  leases : gmap Z ShardLease;
  next_token : Z;
  leader_epoch : Z;
}.

Definition manager_new : ShardManagerInner := {| leases := ∅; next_token := 1; leader_epoch := 0 |}.

Definition with_leases (g : ShardManagerInner) (m : gmap Z ShardLease) : ShardManagerInner := {|
  leases := m; next_token := next_token g; leader_epoch := leader_epoch g;
|}.

(** [(leader_epoch << 32) | next_token], below the counter's bound. *)
Definition mint_token (g : ShardManagerInner) : outcome (ShardManagerInner * Z) :=
  if next_token g <? Z.shiftl 1 32
  then Done ({| leases := leases g; next_token := next_token g + 1; leader_epoch := leader_epoch g |},
             Z.lor (as_u64 (Z.shiftl (leader_epoch g) 32)) (next_token g))
  else Panic.

Definition set_leader_epoch (g : ShardManagerInner) (epoch : Z) : outcome ShardManagerInner :=
  if epoch <? Z.shiftl 1 32
  then Done {| leases := leases g; next_token := next_token g; leader_epoch := epoch |}
  else Panic.

Definition acquire_with_heat (now : Z) (g : ShardManagerInner) (shard worker : Z) (heat : LeaseHeatHint)
    : outcome (ShardManagerInner * result LeaseError ShardLease) :=
  let held := leases g !! shard in
  match held with
  | Some l =>
    if negb (worker_id l =? worker) then Done (g, Err (AlreadyLeased shard (worker_id l)))
    else
      '(g, token) ← mint_token g;
      let lease := new_lease now shard worker token (heat_hint l) in
      Done (with_leases g (<[shard := lease]> (leases g)), Ok lease)
  | None =>
    '(g, token) ← mint_token g;
    let lease := new_lease now shard worker token heat in
    Done (with_leases g (<[shard := lease]> (leases g)), Ok lease)
  end.

Definition acquire (now : Z) (g : ShardManagerInner) (shard worker : Z)
    : outcome (ShardManagerInner * result LeaseError ShardLease) :=
  acquire_with_heat now g shard worker default_heat.

(** [force_acquire_with_heat]; the second component is the evicted holder. *)
Definition force_acquire_with_heat (now : Z) (g : ShardManagerInner) (shard worker : Z) (heat : LeaseHeatHint)
    : outcome (ShardManagerInner * (ShardLease * option Z)) :=
  let evicted := worker_id <$> leases g !! shard in
  '(g, token) ← mint_token g;
  let lease := new_lease now shard worker token heat in
  Done (with_leases g (<[shard := lease]> (leases g)), (lease, evicted)).

Definition force_acquire (now : Z) (g : ShardManagerInner) (shard worker : Z)
    : outcome (ShardManagerInner * (ShardLease * option Z)) :=
  force_acquire_with_heat now g shard worker (from_option heat_hint default_heat (leases g !! shard)).

Definition transfer_if_owner (now : Z) (g : ShardManagerInner) (expected : ShardLease) (worker : Z)
    : outcome (ShardManagerInner * option ShardLease) :=
  if negb (bool_decide (leases g !! shard_id expected = Some expected)) then Done (g, None)
  else
    '(g, token) ← mint_token g;
    let lease := new_lease now (shard_id expected) worker token (heat_hint expected) in
    Done (with_leases g (<[shard_id expected := lease]> (leases g)), Some lease).

Definition update_heat (g : ShardManagerInner) (shard : Z) (heat : LeaseHeatHint) : ShardManagerInner * bool :=
  match leases g !! shard with
  | Some l => (with_leases g (<[shard := set_heat l (bounded heat)]> (leases g)), true)
  | None => (g, false)
  end.

Definition decay_heat (scale : Z -> Z -> Z -> Z) (g : ShardManagerInner) (shard elapsed half_life : Z)
    : ShardManagerInner * bool :=
  match leases g !! shard with
  | Some l => (with_leases g (<[shard := set_heat l (decay scale (heat_hint l) elapsed half_life)]> (leases g)), true)
  | None => (g, false)
  end.

Definition is_valid_writer (g : ShardManagerInner) (shard token : Z) : bool :=
  from_option (fun l => lease_token l =? token) false (leases g !! shard).

Definition release (g : ShardManagerInner) (shard token : Z) : ShardManagerInner * bool :=
  if is_valid_writer g shard token then (with_leases g (delete shard (leases g)), true) else (g, false).

(** The freed shards come in the map's iteration order. *)
Definition release_worker (g : ShardManagerInner) (worker : Z) : ShardManagerInner * list Z :=
  (with_leases g (filter (fun e => worker_id e.2 <> worker) (leases g)),
   (filter (fun e => worker_id e.2 = worker) (map_to_list (leases g))).*1).

(** [ShardManagerSnapshot] has the manager's fields; its default has none. *)
Definition default_snapshot : ShardManagerInner := {| leases := ∅; next_token := 0; leader_epoch := 0 |}.

Definition snapshot (g : ShardManagerInner) : ShardManagerInner := g.

Definition restore (g s : ShardManagerInner) : ShardManagerInner := {|
  leases := leases s; next_token := next_token s; leader_epoch := leader_epoch s;
|}.

(** [ShardPersistentStore::load]: [None] is an object that is missing,
    unreadable or malformed. *)
Definition load (object : option ShardManagerInner) : ShardManagerInner :=
  default default_snapshot object.

(** [control_leader_epoch_of]: the epoch a token carries. *)
Definition control_leader_epoch_of (token : Z) : Z := Z.shiftr token 32.

(* ------------------------------------------------------------------ *)
(** ** Sequences of method calls

    Each method holds the lock from its first read to its last write, so
    concurrent use of one manager is a sequence of calls. *)

Inductive call : Type :=
| Acquire (now shard worker : Z) (heat : LeaseHeatHint)
| ForceAcquire (now shard worker : Z)
| ForceAcquireWithHeat (now shard worker : Z) (heat : LeaseHeatHint)
| TransferIfOwner (now : Z) (expected : ShardLease) (worker : Z)
| UpdateHeat (shard : Z) (heat : LeaseHeatHint)
| DecayHeat (shard elapsed half_life : Z)
| Release (shard token : Z)
| ReleaseWorker (worker : Z)
| SetLeaderEpoch (epoch : Z)
| Restore (snap : ShardManagerInner).

(** The new state and the lease a call issues. *)
Definition run_call (scale : Z -> Z -> Z -> Z) (g : ShardManagerInner) (c : call)
    : outcome (ShardManagerInner * option ShardLease) :=
  match c with
  | Acquire now s w h =>
    '(g, r) ← acquire_with_heat now g s w h;
    Done (g, match r with Ok l => Some l | Err _ => None end)
  | ForceAcquire now s w => '(g, (l, _)) ← force_acquire now g s w; Done (g, Some l)
  | ForceAcquireWithHeat now s w h => '(g, (l, _)) ← force_acquire_with_heat now g s w h; Done (g, Some l)
  | TransferIfOwner now x w => transfer_if_owner now g x w
  | UpdateHeat s h => Done ((update_heat g s h).1, None)
  | DecayHeat s e h => Done ((decay_heat scale g s e h).1, None)
  | Release s t => Done ((release g s t).1, None)
  | ReleaseWorker w => Done ((release_worker g w).1, None)
  | SetLeaderEpoch e => g ← set_leader_epoch g e; Done (g, None)
  | Restore snap => Done (restore g snap, None)
  end.

(** The manager and the (shard, token) pairs it has issued, newest first. *)
Definition managed : Type := ShardManagerInner * list (Z * Z).

Definition issue (l : ShardLease) : Z * Z := (shard_id l, lease_token l).

Definition recorded (o : option ShardLease) (issued : list (Z * Z)) : list (Z * Z) :=
  from_option (fun l => issue l :: issued) issued o.

(** The newest token issued for a shard. *)
Fixpoint latest (issued : list (Z * Z)) (s : Z) : option Z :=
  match issued with
  | [] => None
  | (s', t) :: rest => if s' =? s then Some t else latest rest s
  end.

Definition token_bound (g : ShardManagerInner) : Z := leader_epoch g * 2 ^ 32 + next_token g.

(** A snapshot that is not behind what the manager has issued: its next token is
    above all of them, and each of its leases is one the manager has or carries a
    token above all of them. *)
Record not_behind (g : ShardManagerInner) (issued : list (Z * Z)) (snap : ShardManagerInner) : Prop := {
  nb_epoch : 0 <= leader_epoch snap < 2 ^ 32;
  nb_next : 0 <= next_token snap <= 2 ^ 32;
  nb_below : Forall (fun t => t < token_bound snap) issued.*2;
  nb_lease s l : leases snap !! s = Some l -> shard_id l = s /\
    ((exists l', leases g !! s = Some l' /\ issue l = issue l') \/ Forall (fun t => t < lease_token l) issued.*2);
}.

(** What callers are trusted with, which the methods do not check: leader epochs
    do not decrease, and a restored snapshot is not behind. *)
Definition trusted (restores : bool) (g : ShardManagerInner) (issued : list (Z * Z)) (c : call) : Prop :=
  match c with
  | SetLeaderEpoch e => leader_epoch g <= e
  | Restore snap => restores = true /\ not_behind g issued snap
  | _ => True
  end.

(** [restores] tells whether snapshots are restored at all. *)
Inductive call_step (scale : Z -> Z -> Z -> Z) (restores : bool) : managed -> managed -> Prop :=
| call_step_intro g issued c g' o :
    trusted restores g issued c -> run_call scale g c = Done (g', o) ->
    call_step scale restores (g, issued) (g', recorded o issued).

Record managed_ok (g : ShardManagerInner) (issued : list (Z * Z)) : Prop := {
  mo_epoch : 0 <= leader_epoch g < 2 ^ 32;
  mo_next : 0 <= next_token g <= 2 ^ 32;
  mo_sorted : StronglySorted Z.gt issued.*2;
  mo_below : Forall (fun t => t < token_bound g) issued.*2;
  mo_lease s l : leases g !! s = Some l -> shard_id l = s /\
    (latest issued s = Some (lease_token l) \/ forall t, (s, t) ∈ issued -> t < lease_token l);
}.

(** Every lease was issued by this manager. *)
Definition owned (g : ShardManagerInner) (issued : list (Z * Z)) : Prop :=
  forall s l, leases g !! s = Some l -> latest issued s = Some (lease_token l).

Lemma is_valid_writer_spec g s t :
  is_valid_writer g s t = true <-> exists l, leases g !! s = Some l /\ lease_token l = t.
Proof. unfold is_valid_writer. destruct (leases g !! s) as [l|]; simpl.
  - rewrite Z.eqb_eq. split; [eauto|by intros (? & [= <-] & ?)].
  - split; [done|by intros (? & ? & _)].
Qed.

Lemma latest_elem issued s t : latest issued s = Some t -> (s, t) ∈ issued.
Proof.
  induction issued as [|[s' t'] rest IH]; simpl; [done|].
  destruct (Z.eqb_spec s' s); [intros; simplify_eq; by left|right; auto].
Qed.

Lemma token_packs epoch n :
  0 <= epoch < 2 ^ 32 -> 0 <= n < 2 ^ 32 ->
  Z.lor (as_u64 (Z.shiftl epoch 32)) n = epoch * 2 ^ 32 + n.
Proof.
  intros He Hn. rewrite Z.shiftl_mul_pow2, as_u64_id by (unfold u64_max; lia).
  assert (Z.land (epoch * 2 ^ 32) n = 0) as Hz.
  { rewrite <-(Z.mod_small n (2 ^ 32)), <-Z.land_ones by lia.
    rewrite (Z.land_comm n), Z.land_assoc, Z.land_ones by lia.
    by rewrite Z.mod_mul, Z.land_0_l by lia. }
  pose proof (Z.add_lor_land (epoch * 2 ^ 32) n). lia.
Qed.

Lemma mint_token_Done g g' t issued :
  managed_ok g issued -> mint_token g = Done (g', t) ->
  t = token_bound g /\ leases g' = leases g /\ leader_epoch g' = leader_epoch g /\
  next_token g' = next_token g + 1 /\ next_token g < 2 ^ 32.
Proof.
  intros Hok. unfold mint_token. change (Z.shiftl 1 32) with (2 ^ 32).
  destruct (Z.ltb_spec (next_token g) (2 ^ 32)); [|done]. intros [= <- <-]. simpl.
  rewrite token_packs; [done|apply Hok|]. destruct (mo_next _ _ Hok). lia.
Qed.

(** The decoder recovers the epoch a token was minted under. *)
Lemma token_epoch g g' t issued :
  managed_ok g issued -> mint_token g = Done (g', t) -> control_leader_epoch_of t = leader_epoch g.
Proof.
  intros Hok Hm. destruct (mint_token_Done _ _ _ _ Hok Hm) as (-> & _ & _ & _ & Hlt).
  pose proof (mo_next _ _ Hok). unfold control_leader_epoch_of, token_bound.
  rewrite Z.shiftr_div_pow2, Z.div_add_l, Z.div_small by lia. lia.
Qed.

(** A call that installs a fresh lease. *)
Definition issues (g g' : ShardManagerInner) (l : ShardLease) : Prop :=
  exists now s w h gm, mint_token g = Done (gm, lease_token l) /\
    l = new_lease now s w (lease_token l) h /\ g' = with_leases gm (<[s := l]> (leases gm)).

(** A call that issues nothing: it keeps, changes the heat of, or drops leases. *)
Definition keeps (g g' : ShardManagerInner) : Prop :=
  next_token g' = next_token g /\
  (forall s l, leases g' !! s = Some l ->
     exists l', leases g !! s = Some l' /\ issue l = issue l').

Lemma keeps_refl g : keeps g g.
Proof. split; [done|eauto]. Qed.

Lemma keeps_heat g s l h :
  leases g !! s = Some l -> keeps g (with_leases g (<[s := set_heat l h]> (leases g))).
Proof.
  intros Hl. split; [done|]. simpl. intros s' l'.
  destruct (decide (s = s')) as [->|]; [rewrite lookup_insert_eq|rewrite lookup_insert_ne by done].
  - intros [= <-]. eauto.
  - eauto.
Qed.

Lemma issues_intro now g gm t s w h :
  mint_token g = Done (gm, t) ->
  issues g (with_leases gm (<[s := new_lease now s w t h]> (leases gm))) (new_lease now s w t h).
Proof. intros Hm. by exists now, s, w, h, gm. Qed.

Lemma run_call_cases scale g c g' o :
  run_call scale g c = Done (g', o) ->
  match o with
  | Some l => issues g g' l
  | None =>
      match c with
      | Restore snap => g' = restore g snap
      | SetLeaderEpoch e => keeps g g' /\ leader_epoch g' = e /\ e < 2 ^ 32
      | _ => keeps g g' /\ leader_epoch g' = leader_epoch g
      end
  end.
Proof.
  destruct c as [now s w h|now s w|now s w h|now x w|s h|s e h|s t|w|e|snap]; simpl.
  - unfold acquire_with_heat. destruct (leases g !! s) as [l|]; [case_match|].
    + intros [= <- <-]. auto using keeps_refl.
    + destruct (mint_token g) as [[gm t]|] eqn:Hm; [|done]. intros [= <- <-]. by apply issues_intro.
    + destruct (mint_token g) as [[gm t]|] eqn:Hm; [|done]. intros [= <- <-]. by apply issues_intro.
  - unfold force_acquire, force_acquire_with_heat.
    destruct (mint_token g) as [[gm t]|] eqn:Hm; [|done]. intros [= <- <-]. by apply issues_intro.
  - unfold force_acquire_with_heat.
    destruct (mint_token g) as [[gm t]|] eqn:Hm; [|done]. intros [= <- <-]. by apply issues_intro.
  - unfold transfer_if_owner. case_match; [intros [= <- <-]; auto using keeps_refl|].
    destruct (mint_token g) as [[gm t]|] eqn:Hm; [|done]. intros [= <- <-]. by apply issues_intro.
  - unfold update_heat. destruct (leases g !! s) eqn:?; intros [= <- <-]; auto using keeps_refl, keeps_heat.
  - unfold decay_heat. destruct (leases g !! s) eqn:?; intros [= <- <-]; auto using keeps_refl, keeps_heat.
  - unfold release. case_match; intros [= <- <-]; [|by auto using keeps_refl].
    split; [split; [done|]|done]. simpl. intros s' l [_ ?]%lookup_delete_Some. eauto.
  - intros [= <- <-]. split; [split; [done|]|done]. simpl.
    intros s' l [? _]%map_lookup_filter_Some. eauto.
  - unfold set_leader_epoch. change (Z.shiftl 1 32) with (2 ^ 32).
    destruct (Z.ltb_spec e (2 ^ 32)); [|done]. intros [= <- <-]. split_and!; [|done..]. split; [done|eauto].
  - by intros [= <- <-].
Qed.

Lemma managed_ok_new : managed_ok manager_new [].
Proof. split; simpl; try lia; try constructor. all: by rewrite lookup_empty in H. Qed.

Lemma managed_ok_issues g g' l issued :
  managed_ok g issued -> issues g g' l -> managed_ok g' (issue l :: issued).
Proof.
  intros Hok (now & s & w & h & gm & Hm & Hl & ->).
  destruct (mint_token_Done _ _ _ _ Hok Hm) as (Ht & Hls & He & Hn & Hlt).
  pose proof (mo_next _ _ Hok). pose proof (mo_below _ _ Hok) as Hb.
  assert (shard_id l = s) as Hs by by rewrite Hl.
  split; simpl; rewrite ?He, ?Hn; [apply Hok|lia|..].
  - constructor; [apply Hok|]. eapply Forall_impl; [exact Hb|]. simpl. lia.
  - unfold token_bound in *. simpl. rewrite He, Hn. constructor; [lia|].
    eapply Forall_impl; [exact Hb|]. simpl. lia.
  - intros s' l'. rewrite Hs, Hls. destruct (Z.eqb_spec s s') as [->|].
    + rewrite lookup_insert_eq. intros [= <-]. split; [done|by left].
    + rewrite lookup_insert_ne by done. intros Hl'. destruct (mo_lease _ _ Hok s' l' Hl') as [? Hor]. split; [done|].
      destruct Hor as [?|Hlt']; [by left|right]. intros t [[= ? ?]|Hin]%elem_of_cons; [congruence|by apply Hlt'].
Qed.

Lemma owned_issues g g' l issued : owned g issued -> issues g g' l -> owned g' (issue l :: issued).
Proof.
  intros Ho (now & s & w & h & gm & Hm & Hl & ->) s' l'. assert (shard_id l = s) as Hs by by rewrite Hl.
  assert (leases gm = leases g) as ->.
  { unfold mint_token in Hm. destruct (next_token g <? Z.shiftl 1 32); [|done]. by injection Hm as <- _. }
  simpl. rewrite Hs. destruct (Z.eqb_spec s s') as [->|].
  - rewrite lookup_insert_eq. by intros [= <-].
  - rewrite lookup_insert_ne by done. apply Ho.
Qed.

Lemma owned_keeps g g' issued : owned g issued -> keeps g g' -> owned g' issued.
Proof. intros Ho [_ Hk] s l (l' & Hl' & Hi)%Hk. injection Hi as _ ->. by apply Ho. Qed.

(** Restoring a snapshot that is not behind keeps the invariant. *)
Lemma managed_ok_restore g snap issued : managed_ok g issued -> not_behind g issued snap -> managed_ok (restore g snap) issued.
Proof.
  intros Hok [He Hn Hb Hl]. split; simpl; [done|done|apply Hok|done|]. intros s l Hs.
  destruct (Hl s l Hs) as [Hid [(l' & Hl' & Hi)|Hlt]]; (split; [done|]).
  - injection Hi as _ ->. by apply (mo_lease _ _ Hok).
  - right. intros t Hin. apply (proj1 (Forall_forall _ _) Hlt), list_elem_of_fmap. by exists (s, t).
Qed.

Lemma managed_ok_keeps g g' issued :
  managed_ok g issued -> keeps g g' -> leader_epoch g <= leader_epoch g' < 2 ^ 32 -> managed_ok g' issued.
Proof.
  intros Hok [Hn Hl] He. pose proof (mo_epoch _ _ Hok).
  split; rewrite ?Hn; [lia|apply Hok|apply Hok|..].
  - eapply Forall_impl; [apply Hok|]. unfold token_bound. simpl. rewrite Hn. nia.
  - intros s l (l' & Hl' & Hi)%Hl. injection Hi as Hs Ht. rewrite Hs, Ht. by apply Hok.
Qed.

Lemma call_step_ok scale restores x y :
  call_step scale restores x y -> managed_ok x.1 x.2 -> managed_ok y.1 y.2.
Proof.
  intros [g issued c g' o Htr Hrun] Hok; simpl in *. apply run_call_cases in Hrun.
  destruct o as [l|]; simpl; [by eapply managed_ok_issues|].
  pose proof (mo_epoch _ _ Hok). destruct c; simpl in *;
    try (destruct Hrun as [Hk He]; apply (managed_ok_keeps g); [done|done|rewrite He; lia]).
  - destruct Hrun as (Hk & He & Hb). apply (managed_ok_keeps g); [done|done|lia].
  - subst g'. apply managed_ok_restore; [done|apply Htr].
Qed.

Lemma call_steps_ok scale restores x y :
  rtc (call_step scale restores) x y -> managed_ok x.1 x.2 -> managed_ok y.1 y.2.
Proof. induction 1; eauto using call_step_ok. Qed.

Lemma call_step_owned scale x y : call_step scale false x y -> owned x.1 x.2 -> owned y.1 y.2.
Proof.
  intros [g issued c g' o Htr Hrun] Ho; simpl in *. apply run_call_cases in Hrun.
  destruct o as [l|]; simpl; [by eapply owned_issues|].
  destruct c; simpl in *; try (destruct Hrun as [Hk _]; by eapply owned_keeps). by destruct Htr.
Qed.

Lemma call_steps_owned scale x y : rtc (call_step scale false) x y -> owned x.1 x.2 -> owned y.1 y.2.
Proof. induction 1; eauto using call_step_owned. Qed.

Lemma issued_below g issued s t : managed_ok g issued -> (s, t) ∈ issued -> t < token_bound g.
Proof. intros Hok Hin. apply (proj1 (Forall_forall _ _) (mo_below _ _ Hok)), list_elem_of_fmap. by exists (s, t). Qed.

(** An issued token that is not valid does not become valid. *)
Lemma call_step_stale scale restores x y s t :
  call_step scale restores x y -> managed_ok x.1 x.2 -> (s, t) ∈ x.2 ->
  is_valid_writer x.1 s t = false -> (s, t) ∈ y.2 /\ is_valid_writer y.1 s t = false.
Proof.
  intros [g issued c g' o Htr Hrun] Hok Hin Hv; simpl in *. apply run_call_cases in Hrun.
  pose proof (issued_below _ _ _ _ Hok Hin) as Ht.
  rewrite <-not_true_iff_false, is_valid_writer_spec in *. destruct o as [l|]; simpl.
  { destruct Hrun as (now & s' & w & h & gm & Hm & Hl & ->).
    destruct (mint_token_Done _ _ _ _ Hok Hm) as (Htok & Hls & _). split; [by right|]. simpl. rewrite Hls.
    intros (l' & Hl' & Hlt). apply lookup_insert_Some in Hl' as [[-> <-]|[_ Hl']]; [lia|eauto]. }
  split; [done|]. assert (keeps g g' -> ~ exists l, leases g' !! s = Some l /\ lease_token l = t) as Hkeep.
  { intros [_ Hk] (l & (l' & Hl' & Hi)%Hk & <-). injection Hi as _ Hi. apply Hv. eauto. }
  destruct c; simpl in *; try (apply Hkeep, Hrun). subst g'. destruct Htr as [_ Hnb].
  intros (l & Hl & <-). destruct (nb_lease _ _ _ Hnb s l Hl) as [_ [(l' & Hl' & Hi)|Hlt]].
  - injection Hi as _ Hi. apply Hv. eauto.
  - assert (lease_token l < lease_token l); [|lia]. apply (proj1 (Forall_forall _ _) Hlt), list_elem_of_fmap.
    by exists (s, lease_token l).
Qed.

Lemma call_steps_stale scale restores x y s t :
  rtc (call_step scale restores) x y -> managed_ok x.1 x.2 -> (s, t) ∈ x.2 ->
  is_valid_writer x.1 s t = false -> is_valid_writer y.1 s t = false.
Proof.
  induction 1 as [|x y z Hxy _ IH]; [done|]. intros Hok Ht Hv.
  destruct (call_step_stale _ _ _ _ _ _ Hxy Hok Ht Hv). apply IH; eauto using call_step_ok.
Qed.

(** C10: Shard fencing.  Take any sequence of calls of the lease manager's
    methods, [restore] included, in which leader epochs do not decrease and every
    restored snapshot is not behind the manager: its next token is above every
    token the manager issued, and each of its leases is one the manager still has
    or carries a token above all it issued.  Neither condition is checked by the
    methods, and an older snapshot does break the fence
    ([older_snapshot_revives_token]).  Then the tokens issued, for all shards
    together, strictly increase; a token that passes the write fence of a shard is
    the newest one issued for that shard, or came with a restored snapshot and is
    above all issued for that shard, and without restores it is the newest one
    issued; and an issued token that fails the fence, because it was superseded,
    released, its worker was dropped or a restored snapshot does not have it, never
    passes it again, whatever is called later. *)
Theorem shard_tokens_fence scale restores g issued :
  rtc (call_step scale restores) (manager_new, []) (g, issued) ->
  StronglySorted Z.gt issued.*2 /\
  (forall s t, is_valid_writer g s t = true ->
     latest issued s = Some t \/ (restores = true /\ forall t', (s, t') ∈ issued -> t' < t)) /\
  (forall s t g' issued', (s, t) ∈ issued -> is_valid_writer g s t = false ->
     rtc (call_step scale restores) (g, issued) (g', issued') -> is_valid_writer g' s t = false).
Proof.
  intros Hrun. pose proof (call_steps_ok _ _ _ _ Hrun managed_ok_new) as Hok. simpl in Hok.
  split_and!; [apply Hok| |].
  - intros s t (l & Hl & <-)%is_valid_writer_spec. destruct restores.
    + destruct (mo_lease _ _ Hok s l Hl) as [_ [?|?]]; [by left|by right].
    + left. apply (call_steps_owned _ _ _ Hrun); [|done]. intros s' l'. simpl. by rewrite lookup_empty.
  - intros s t g' issued' Hin Hv Hlater. by eapply (call_steps_stale _ _ _ _ s t Hlater).
Qed.

Definition no_scale (rate elapsed half_life : Z) : Z := rate.

(** Worker 7 takes shard 1 and renews it; the shard is then moved to worker 8. *)
Definition sample_calls : list call :=
  [SetLeaderEpoch 65537; Acquire 0 1 7 default_heat; Acquire 1 1 7 default_heat; ForceAcquire 2 1 8].

Fixpoint run_calls (scale : Z -> Z -> Z -> Z) (x : managed) (cs : list call) : option managed :=
  match cs with
  | [] => Some x
  | c :: rest =>
    match run_call scale x.1 c with
    | Done (g, o) => run_calls scale (g, recorded o x.2) rest
    | Panic => None
    end
  end.

Lemma run_calls_steps scale x cs y :
  run_calls scale x cs = Some y ->
  Forall (fun c => match c with SetLeaderEpoch _ | Restore _ => False | _ => True end) cs ->
  rtc (call_step scale false) x y.
Proof.
  revert x. induction cs as [|c rest IH]; intros [g issued]; simpl.
  - by intros [= ->].
  - destruct (run_call scale g c) as [[g' o]|] eqn:Hc; [|done]. intros Hr [Hf Hrest]%Forall_cons.
    eapply rtc_l; [apply (call_step_intro _ _ g issued c g' o)|by apply IH]; [by destruct c|done].
Qed.

(** After a snapshot of another manager is adopted, in which worker 9 holds the
    shard by a later token, worker 8's token fails and a renewal is higher still. *)
Definition later_snapshot : ShardManagerInner := {|
  leases := {[1 := new_lease 5 1 9 (65538 * 2 ^ 32 + 4) default_heat]}; next_token := 5; leader_epoch := 65538;
|}.

Lemma sample_steps : exists g, run_calls no_scale ({| leases := ∅; next_token := 1; leader_epoch := 65537 |}, []) (tail sample_calls)
    = Some (g, [(1, 65537 * 2 ^ 32 + 3); (1, 65537 * 2 ^ 32 + 2); (1, 65537 * 2 ^ 32 + 1)]).
Proof. eexists. vm_compute. reflexivity. Qed.

Lemma shard_tokens_fence_witness :
  exists g issued, rtc (call_step no_scale true) (manager_new, []) (g, issued) /\
    is_valid_writer g 1 (65538 * 2 ^ 32 + 4) = true /\ StronglySorted Z.gt issued.*2.
Proof.
  destruct sample_steps as [g Hrun]. set (issued := [(1, 65537 * 2 ^ 32 + 3); (1, 65537 * 2 ^ 32 + 2); (1, 65537 * 2 ^ 32 + 1)]) in *.
  assert (rtc (call_step no_scale true) (manager_new, []) (restore g later_snapshot, issued)) as Hr.
  { eapply rtc_l; [apply (call_step_intro _ _ _ _ (SetLeaderEpoch 65537)
      {| leases := ∅; next_token := 1; leader_epoch := 65537 |} None); [simpl; lia|reflexivity]|].
    eapply rtc_r; [|apply (call_step_intro _ _ g issued (Restore later_snapshot) _ None); [|reflexivity]].
    - apply run_calls_steps in Hrun; [|repeat constructor].
      eapply rtc_subrel; [|exact Hrun]. intros x y [? ? c ? ? Ht Hc]. econstructor; [|exact Hc]. by destruct c; try by destruct Ht.
    - split; [reflexivity|]. split; simpl; [lia|lia|repeat constructor|].
      intros s l [<- <-]%lookup_singleton_Some. split; [reflexivity|right]. repeat constructor. }
  exists (restore g later_snapshot), issued. split; [exact Hr|]. split; [vm_compute; reflexivity|].
  apply (shard_tokens_fence no_scale true _ issued Hr).
Defined.

(** A snapshot taken before a shard was moved, restored later, lets the token of
    the former holder pass again, and its counter issues the next token twice. *)
Lemma older_snapshot_revives_token :
  let run cs := run_calls no_scale (manager_new, []) cs in
  exists g1 t1 g2 i2 g3 i3,
    run [Acquire 0 1 7 default_heat] = Some (g1, [(1, t1)]) /\
    run [Acquire 0 1 7 default_heat; ForceAcquire 1 1 8] = Some (g2, i2) /\ is_valid_writer g2 1 t1 = false /\
    run [Acquire 0 1 7 default_heat; ForceAcquire 1 1 8; Restore (snapshot g1); Acquire 2 2 9 default_heat] = Some (g3, i3) /\
    is_valid_writer g3 1 t1 = true /\ ~ NoDup i3.*2.
Proof.
  eexists _, _, _, _, _, _. split; [vm_compute; reflexivity|]. split; [vm_compute; reflexivity|].
  split; [vm_compute; reflexivity|]. split; [vm_compute; reflexivity|]. split; [vm_compute; reflexivity|].
  vm_compute. intros Hn. apply NoDup_cons in Hn as [Hn _]. apply Hn. by left.
Qed.
