(* ===== verification/ControlLeases.v ===== *)
(** Shard leases under replicated control (the [RequestShard], [FenceWrite] and
    [Deregister] arms of rockstream-control/src/service.rs, with
    [ensure_shard_state_synced] and [persist_shard_state]): control processes that
    share one snapshot object, run by the leaders that the election of the file on
    leader election provides.

    The deployment has an election and a snapshot store configured.  A handler is
    one step, from its leadership check to its reply; the checks of [RequestShard]
    on the worker catalog that come before the leadership check are left to the
    caller.  A failed [save] is a panic before the reply. *)
From Stdlib Require Import String.
From stdpp Require Import base tactics list gmap numbers option fin_maps relations.
From Stdlib Require Import ZArith Lia ZifyBool Sorted.
From S2P Require Import Prelude Raft ShardLeases.
Local Open Scope Z_scope.

(** A control process: its lease manager and the epoch it was last synced for. *)
Record Process : Type := { manager : ShardManagerInner; synced_epoch : option Z }.

Definition fresh_process : Process := {| manager := manager_new; synced_epoch := None |}.

(** The shared snapshot object. *)
Definition Object : Type := option ShardManagerInner.

Definition ensure_shard_state_synced (p : Process) (object : Object) (epoch : Z) : outcome Process :=
  if bool_decide (synced_epoch p <> Some epoch) then
    g ← set_leader_epoch (restore (manager p) (load object)) epoch;
    Done {| manager := g; synced_epoch := Some epoch |}
  else Done p.

Definition persist_shard_state (p : Process) : Object := Some (snapshot (manager p)).

Inductive Reply : Type :=
| NotLeader
| ShardAssigned (lease : ShardLease)
| Denied (e : LeaseError).

(** [gate] is whether [require_leader] succeeds, [epoch] what [leader_epoch]
    then returns; a missing epoch fails the [expect]. *)
Definition request_shard (now : Z) (gate : bool) (epoch : option (outcome Z)) (p : Process) (object : Object)
    (shard worker : Z) : outcome (Process * Object * Reply) :=
  if negb gate then Done (p, object, NotLeader)
  else
    epoch ← expect epoch;
    epoch ← epoch;
    p ← ensure_shard_state_synced p object epoch;
    '(g, r) ← acquire now (manager p) shard worker;
    let p := {| manager := g; synced_epoch := synced_epoch p |} in
    match r with
    | Ok lease => Done (p, persist_shard_state p, ShardAssigned lease)
    | Err e => Done (p, object, Denied e)
    end.

(** The process and the [valid] flag of the [FenceAck]. *)
Definition fence_write (gate : bool) (epoch : option (outcome Z)) (p : Process) (object : Object)
    (shard token : Z) : outcome (Process * bool) :=
  p ← match epoch with
      | Some epoch => epoch ← epoch; ensure_shard_state_synced p object epoch
      | None => Done p
      end;
  Done (p, gate && is_valid_writer (manager p) shard token).

(** The lease part of [Deregister]; the list is the shards revoked. *)
Definition deregister (p : Process) (object : Object) (worker : Z) : Process * Object * list Z :=
  let '(g, freed) := release_worker (manager p) worker in
  let p := {| manager := g; synced_epoch := synced_epoch p |} in
  (p, if bool_decide (freed <> []) then persist_shard_state p else object, freed).

(* ------------------------------------------------------------------ *)
(** ** Leaders in succession

    One leader at a time, each with a higher epoch than the one before.  Processes
    crash at any point; the others keep what they had in memory. *)

Record Succession : Type := {
  processes : gmap Z Process;
  object : Object;
  leader : Z;
  epoch : Z;
  issued : list (Z * Z);
}.

Definition start : Succession := {| processes := ∅; object := None; leader := 0; epoch := 0; issued := [] |}.

Definition process (x : Succession) (v : Z) : Process := default fresh_process (processes x !! v).

(** A request handled by process [v]. *)
Definition update (x : Succession) (v : Z) (p : Process) (o : Object) (new : option ShardLease) : Succession := {|
  processes := <[v := p]> (processes x); object := o; leader := leader x; epoch := epoch x;
  issued := recorded new (issued x);
|}.

Inductive happening : Type :=
| ElectedAs (v e : Z)
| CrashOf (v : Z)
| Requested (now shard worker : Z)
| Fenced (shard token : Z)
| Deregistered (v worker : Z).

(** Shard requests and fence checks of other processes fail their leadership
    check and change nothing.  [Deregister] has no such check: any process
    handles it, with whatever it has in memory. *)
Inductive succession_step (x : Succession) : happening -> Succession -> Prop :=
| S_elected v e :
    epoch x < e < 2 ^ 32 ->
    succession_step x (ElectedAs v e)
      {| processes := processes x; object := object x; leader := v; epoch := e; issued := issued x |}
| S_crashed v :
    succession_step x (CrashOf v)
      {| processes := delete v (processes x); object := object x; leader := leader x; epoch := epoch x; issued := issued x |}
| S_requested now s w p o r :
    request_shard now true (Some (Done (epoch x))) (process x (leader x)) (object x) s w = Done (p, o, r) ->
    succession_step x (Requested now s w) (update x (leader x) p o match r with ShardAssigned l => Some l | _ => None end)
| S_fenced s t p b :
    fence_write true (Some (Done (epoch x))) (process x (leader x)) (object x) s t = Done (p, b) ->
    succession_step x (Fenced s t) (update x (leader x) p (object x) None)
| S_deregistered v w p o freed :
    deregister (process x v) (object x) w = (p, o, freed) ->
    succession_step x (Deregistered v w) (update x v p o None).



(** The leader's answer to [FenceWrite]. *)
Definition fence_answer (x : Succession) (s t : Z) : outcome bool :=
  '(_, b) ← fence_write true (Some (Done (epoch x))) (process x (leader x)) (object x) s t; Done b.






















(* ------------------------------------------------------------------ *)
(** ** The control group with its elections *)

Record Plane : Type := {
  cluster : Cluster;
  members : gmap Z Process;
  stored : Object;
}.

Inductive plane_event : Type :=
| Election (e : event)
| Request (v shard worker : Z)
| Fence (v shard token : Z)
| Deregister (v worker : Z).

Definition member (x : Plane) (v : Z) : Process := default fresh_process (members x !! v).

(** What a running node's election state tells its handlers. *)
Definition gate_of (x : Plane) (n : Node) : bool :=
  bool_decide (is_Some (require_leader (now (cluster x)) (inner n))).
Definition epoch_of (x : Plane) (n : Node) : option (outcome Z) :=
  Raft.leader_epoch (now (cluster x)) (inner n).

Definition returned {A} (o : outcome A) : option A := match o with Done a => Some a | Panic => None end.

Definition request_at (x : Plane) (v shard worker : Z) : option (Process * Object * Reply) :=
  n ← running (cluster x) v;
  returned (request_shard (now (cluster x)) (gate_of x n) (epoch_of x n) (member x v) (stored x) shard worker).

Definition fence_at (x : Plane) (v shard token : Z) : option (Process * bool) :=
  n ← running (cluster x) v;
  returned (fence_write (gate_of x n) (epoch_of x n) (member x v) (stored x) shard token).

Definition with_member (x : Plane) (v : Z) (p : Process) (o : Object) : Plane := {|
  cluster := cluster x; members := <[v := p]> (members x); stored := o;
|}.

(** Steps in which no handler panics; a crash loses the process's memory. *)
Definition exec_plane (cfg : Z -> RaftConfig) (x : Plane) (e : plane_event) : option Plane :=
  match e with
  | Election e =>
    c ← exec_event cfg (cluster x) e;
    Some {| cluster := c; stored := stored x;
            members := match e with Crash v _ => delete v (members x) | _ => members x end |}
  | Request v s w => '(p, o, _) ← request_at x v s w; Some (with_member x v p o)
  | Fence v s t => '(p, _) ← fence_at x v s t; Some (with_member x v p (stored x))
  | Deregister v w =>
    _ ← running (cluster x) v;
    let '(p, o, _) := deregister (member x v) (stored x) w in Some (with_member x v p o)
  end.

Definition plane_step (cfg : Z -> RaftConfig) (x y : Plane) : Prop := exists e, exec_plane cfg x e = Some y.

Fixpoint exec_plane_all (cfg : Z -> RaftConfig) (x : Plane) (es : list plane_event) : option Plane :=
  match es with
  | [] => Some x
  | e :: es => y ← exec_plane cfg x e; exec_plane_all cfg y es
  end.

Definition fresh_plane (cfg : Z -> RaftConfig) (ids : list Z) : Plane := {|
  cluster := fresh_cluster cfg ids; members := ∅; stored := None;
|}.

Lemma exec_plane_steps cfg x es y : exec_plane_all cfg x es = Some y -> rtc (plane_step cfg) x y.
Proof.
  revert x. induction es as [|e es IH]; intros x; simpl; [by intros [= <-]|].
  rewrite bind_Some. intros (x1 & Hx1 & Hrest). eapply rtc_l; [by exists e|by apply IH].
Qed.

(** Node 1 leads term 1 and grants shard 1 to worker 7; node 3 wins term 2 while
    node 1's lease runs, syncs, drops worker 7 and grants the shard to worker 8. *)
Definition overlapping_leaders : list plane_event :=
  (Election <$> first_election) ++ [Request 1 1 7] ++
  (Election <$> drop (length first_election) partial_partition) ++
  [Fence 3 1 0; Deregister 3 7; Request 3 1 8].

Definition first_token : Z := 65537 * 2 ^ 32.
Definition second_token : Z := (2 * 2 ^ 16 + 3) * 2 ^ 32 + 1.

Definition trio_plane (es : list plane_event) : option Plane :=
  exec_plane_all trio_cfg (fresh_plane trio_cfg trio) es.

(** The answers of [FenceWrite] at a node. *)
Definition certifies (x : Plane) (v shard token : Z) : bool :=
  from_option snd false (fence_at x v shard token).

(** C27: Two control nodes certify two different writers of one shard at the same
    time.  In a group of three, with the default timeouts, a state is reached in
    which node 1 answers [FenceWrite] with valid for the token it granted in term
    1, although node 3, leader of term 2, has released that lease, no longer
    accepts it, and certifies the token it granted to another worker.  Node 1
    passes the leadership check and was synced for its own epoch before, so it
    answers from its memory. *)
Theorem two_writers_certified :
  exists x, rtc (plane_step trio_cfg) (fresh_plane trio_cfg trio) x /\
    first_token <> second_token /\
    certifies x 1 1 first_token = true /\
    certifies x 3 1 first_token = false /\ certifies x 3 1 second_token = true.
Proof.
  assert ((fun x => (certifies x 1 1 first_token, certifies x 3 1 first_token, certifies x 3 1 second_token))
    <$> trio_plane overlapping_leaders = Some (true, false, true)) as Hrun by (vm_compute; reflexivity).
  apply fmap_Some in Hrun as (x & Hx & Hv). injection Hv as H1 H2 H3. exists x.
  split; [exact (exec_plane_steps _ _ _ _ Hx)|]. split; [by vm_compute|]. auto.
Qed.

(** Node 3 leads term 2, node 1 follows it; node 3 grants shard 3 to worker 9;
    worker 7 deregisters at node 1. *)
Definition follower_deregisters : list plane_event :=
  (Election <$> first_election) ++ [Request 1 1 7] ++
  (Election <$> drop (length first_election) partial_partition ++ [Turn 3 150; Beat 3; Serve 0; Saved 1]) ++
  [Request 3 3 9; Deregister 1 7].

Definition ninth_token : Z := (2 * 2 ^ 16 + 3) * 2 ^ 32 + 1.

(** The worker the next leader, of epoch [e], gives a shard to. *)
Definition next_leader_grants (x : Plane) (e shard worker : Z) : option Z :=
  match request_shard 0 true (Some (Done e)) fresh_process (stored x) shard worker with
  | Done (_, _, ShardAssigned l) => Some (worker_id l)
  | _ => None
  end.

(** C33: [Deregister] has no leadership check: handled by a node that is not the
    leader, it saves that node's old lease table over the leader's.  A state is
    reached in which worker 9 holds shard 3 by a token that the leader, node 3,
    certifies, node 1 is not a leader, and yet the snapshot that node 1 has just
    saved lets the next leader grant shard 3 to worker 10. *)
Theorem follower_deregister_loses_lease :
  exists x n, rtc (plane_step trio_cfg) (fresh_plane trio_cfg trio) x /\
    nodes (cluster x) !! 1 = Some n /\ require_leader (now (cluster x)) (inner n) = None /\
    certifies x 3 3 ninth_token = true /\
    next_leader_grants x (3 * 2 ^ 16 + 2) 3 10 = Some 10.
Proof.
  assert ((fun x => ((fun n => require_leader (now (cluster x)) (inner n)) <$> nodes (cluster x) !! 1,
      certifies x 3 3 ninth_token, next_leader_grants x (3 * 2 ^ 16 + 2) 3 10))
    <$> trio_plane follower_deregisters = Some (Some None, true, Some 10)) as Hrun by (vm_compute; reflexivity).
  apply fmap_Some in Hrun as (x & Hx & Hv). injection Hv as H1 H2 H3.
  symmetry in H1. apply fmap_Some in H1 as (n & Hn & Hl).
  exists x, n. split; [exact (exec_plane_steps _ _ _ _ Hx)|]. auto.
Qed.

(** The width of lease epochs.  A token keeps 32 bits for the leader's epoch,
    of which 16 are the node id: a live leader of a term below 2^16 always syncs
    under its own epoch, and one of a later term panics on every shard request. *)
Theorem lease_epoch_width (clock : Z) (g : RaftInner) (p : Process) (o : Object) (s w : Z) :
  has_live_leader_quorum clock g = true ->
  0 <= node_id g < 2 ^ 16 -> 0 <= current_term (persistent g) < 2 ^ 48 ->
  (forall e, synced_epoch p = Some e -> e < 2 ^ 32) ->
  let e := current_term (persistent g) * 2 ^ 16 + node_id g in
  (current_term (persistent g) < 2 ^ 16 ->
     exists q, ensure_shard_state_synced p o e = Done q /\ synced_epoch q = Some e) /\
  (2 ^ 16 <= current_term (persistent g) ->
     request_shard clock (bool_decide (is_Some (require_leader clock g)))
       (Raft.leader_epoch clock g) p o s w = Panic).
Proof.
  intros Hl Hid Ht Hs e. split; intros Hterm.
  - unfold ensure_shard_state_synced. case_bool_decide as Hp; [|by exists p].
    unfold set_leader_epoch. change (Z.shiftl 1 32) with (2 ^ 32).
    rewrite (proj2 (Z.ltb_lt e _)) by (unfold e; lia). simpl. eauto.
  - unfold request_shard, require_leader, Raft.leader_epoch. rewrite Hl, epoch_packs by done.
    rewrite bool_decide_true by eauto. simpl. fold e. unfold ensure_shard_state_synced.
    rewrite bool_decide_true by (intros He; specialize (Hs _ He); unfold e in Hs; lia).
    unfold set_leader_epoch. change (Z.shiftl 1 32) with (2 ^ 32).
    by rewrite (proj2 (Z.ltb_ge e _)) by (unfold e; lia).
Qed.

Definition late_leader : RaftInner := {|
  node_id := 1; persistent := {| current_term := 65536; voted_for := Some 1 |}; role := Leader;
  current_leader := Some 1; last_contact := 0; last_quorum_contact := 0; leader_quorum_timeout := 100;
|}.

Lemma lease_epoch_width_witness :
  has_live_leader_quorum 0 late_leader = true /\
  request_shard 0 (bool_decide (is_Some (require_leader 0 late_leader))) (Raft.leader_epoch 0 late_leader)
    fresh_process None 1 7 = Panic.
Proof.
  split; [reflexivity|].
  apply (lease_epoch_width 0 late_leader fresh_process None 1 7); simpl; try lia; reflexivity || done.
Defined.

(** Steps run one after another. *)
Definition exec_happening (x : Succession) (h : happening) : option Succession :=
  match h with
  | ElectedAs v e =>
      if (epoch x <? e) && (e <? 2 ^ 32)
      then Some {| processes := processes x; object := object x; leader := v; epoch := e; issued := issued x |} else None
  | CrashOf v =>
      Some {| processes := delete v (processes x); object := object x; leader := leader x; epoch := epoch x; issued := issued x |}
  | Requested now s w =>
      '(p, o, r) ← returned (request_shard now true (Some (Done (epoch x))) (process x (leader x)) (object x) s w);
      Some (update x (leader x) p o match r with ShardAssigned l => Some l | _ => None end)
  | Fenced s t =>
      '(p, _) ← returned (fence_write true (Some (Done (epoch x))) (process x (leader x)) (object x) s t);
      Some (update x (leader x) p (object x) None)
  | Deregistered v w => let '(p, o, _) := deregister (process x v) (object x) w in Some (update x v p o None)
  end.

Lemma exec_happening_step x h y : exec_happening x h = Some y -> succession_step x h y.
Proof.
  destruct h as [v e|v|now s w|s t|v w]; simpl.
  - destruct (_ && _) eqn:E; [|done]. intros [= <-]. constructor. lia.
  - intros [= <-]. constructor.
  - destruct (request_shard now true (Some (Done (epoch x))) (process x (leader x)) (object x) s w)
      as [[[p o] r]|] eqn:E; [|done]. intros [= <-]. by econstructor.
  - destruct (fence_write true (Some (Done (epoch x))) (process x (leader x)) (object x) s t) as [[p b]|] eqn:E; [|done]. intros [= <-]. by econstructor.
  - destruct (deregister (process x v) (object x) w) as [[p o] f] eqn:E. intros [= <-]. by econstructor.
Qed.

Fixpoint exec_happenings (x : Succession) (hs : list happening) : option Succession :=
  match hs with [] => Some x | h :: hs => y ← exec_happening x h; exec_happenings y hs end.

Definition any_step (x y : Succession) : Prop := exists h, succession_step x h y.

Lemma exec_happenings_steps x hs y : exec_happenings x hs = Some y -> rtc any_step x y.
Proof.
  revert x. induction hs as [|h hs IH]; intros x; simpl; [by intros [= <-]|].
  rewrite bind_Some. intros (x1 & Hx1 & Hrest). eapply rtc_l; [|by apply IH]. exists h. by apply exec_happening_step.
Qed.

(** Node 1 leads and grants shards 1 and 2; node 2 succeeds it and moves shard 1
    from worker 7 to worker 8; node 1 is elected again and handles the
    [Deregister] of worker 9 before anything makes it sync. *)
Definition moved_shard : list happening :=
  [ElectedAs 1 65537; Requested 0 1 7; Requested 0 2 9; ElectedAs 2 131074; Fenced 1 0; Deregistered 2 7; Requested 0 1 8].

(** The condition of [orderly] is needed.  A new leader that handles [Deregister]
    before it has synced saves the table it had in memory: a token that the leader
    before it had rejected is accepted again, and the token of the worker that
    holds the shard is rejected. *)
Lemma unsynced_deregister_revives_token :
  exists x y t1 t2, rtc any_step start x /\ rtc any_step x y /\
    issued x = [(1, t2); (2, t1 + 1); (1, t1)] /\
    fence_answer x 1 t1 = Done false /\ fence_answer x 1 t2 = Done true /\
    leader y = 1 /\ fence_answer y 1 t1 = Done true /\ fence_answer y 1 t2 = Done false.
Proof.
  assert (exists x y, exec_happenings start moved_shard = Some x /\
    exec_happenings x [ElectedAs 1 196609; Deregistered 1 9] = Some y /\
    (issued x, leader y) = ([(1, 131074 * 2 ^ 32 + 2); (2, 65537 * 2 ^ 32 + 1); (1, 65537 * 2 ^ 32)], 1) /\
    fence_answer x 1 (65537 * 2 ^ 32) = Done false /\ fence_answer x 1 (131074 * 2 ^ 32 + 2) = Done true /\
    fence_answer y 1 (65537 * 2 ^ 32) = Done true /\ fence_answer y 1 (131074 * 2 ^ 32 + 2) = Done false)
    as (x & y & Hx & Hy & E & F1 & F2 & F3 & F4).
  { eexists _, _. split; [vm_compute; reflexivity|]. split; [vm_compute; reflexivity|]. repeat split; vm_compute; reflexivity. }
  injection E as E1 E2. exists x, y, (65537 * 2 ^ 32), (131074 * 2 ^ 32 + 2).
  split; [exact (exec_happenings_steps _ _ _ Hx)|]. split; [exact (exec_happenings_steps _ _ _ Hy)|].
  split; [exact E1|]. split; [exact F1|]. split; [exact F2|]. split; [exact E2|]. split; [exact F3|exact F4].
Qed.




