(* ===== verification/WorkerBudget.v ===== *)
(** The worker memory ledger (rockstream-types/src/state_budget.rs,
    [WorkerBudgetLedger] and [MemoryPermit]): admission of memory permits against
    one atomic counter, with a counter per category beside it.

    An atomic operation is one step and the threads interleave between them, so a
    compare-exchange loop is a load, which remembers what it saw, and an exchange
    that succeeds, sees a change and starts over, or fails spuriously.  Threads see
    the atomics in one order.  [fetch_add] and [fetch_sub] wrap. *)
From stdpp Require Import base tactics list numbers option relations functions.
From Stdlib Require Import ZArith Lia ZifyBool.
From S2P Require Import Prelude.
Local Open Scope Z_scope.

Inductive MemoryCategory : Type :=
| SlateDbWriteBuffers
| BlockAndMetadataCaches
| OperatorState
| SourceBuffers
| ExchangeBuffers
| QueryWorkMemory
| CheckpointStaging
| MigrationBuffers.

#[global] Instance MemoryCategory_eq_dec : EqDecision MemoryCategory.
Proof. solve_decision. Defined.

Definition all_categories : list MemoryCategory :=
  [SlateDbWriteBuffers; BlockAndMetadataCaches; OperatorState; SourceBuffers;
   ExchangeBuffers; QueryWorkMemory; CheckpointStaging; MigrationBuffers].

Record WorkerBudgetLedger : Type := {
  total_budget_bytes : Z;
  foreground_reservation_bytes : Z;
  allocator_overhead_pct : Z;
  allocated_bytes : Z;
  categories : MemoryCategory -> Z;
}.

Definition ledger_new (total foreground : Z) : WorkerBudgetLedger := {|
  total_budget_bytes := total; foreground_reservation_bytes := foreground;
  allocator_overhead_pct := 10; allocated_bytes := 0; categories := fun _ => 0;
|}.

Definition set_allocated (l : WorkerBudgetLedger) (n : Z) : WorkerBudgetLedger := {|
  total_budget_bytes := total_budget_bytes l; foreground_reservation_bytes := foreground_reservation_bytes l;
  allocator_overhead_pct := allocator_overhead_pct l; allocated_bytes := n; categories := categories l;
|}.

Definition set_category (l : WorkerBudgetLedger) (c : MemoryCategory) (n : Z) : WorkerBudgetLedger := {|
  total_budget_bytes := total_budget_bytes l; foreground_reservation_bytes := foreground_reservation_bytes l;
  allocator_overhead_pct := allocator_overhead_pct l; allocated_bytes := allocated_bytes l;
  categories := <[c := n]> (categories l);
|}.

Definition gross_bytes (l : WorkerBudgetLedger) (allocated : Z) : Z :=
  allocated + allocated * allocator_overhead_pct l / 100.

Definition available_background_bytes (l : WorkerBudgetLedger) : Z :=
  saturating_sub (saturating_sub (total_budget_bytes l) (foreground_reservation_bytes l))
    (gross_bytes l (allocated_bytes l)).

Definition available_foreground_bytes (l : WorkerBudgetLedger) : Z :=
  saturating_sub (total_budget_bytes l) (gross_bytes l (allocated_bytes l)).

(** The budget an admission is checked against. *)
Definition max_budget (l : WorkerBudgetLedger) (is_foreground : bool) : Z :=
  if is_foreground then total_budget_bytes l
  else saturating_sub (total_budget_bytes l) (foreground_reservation_bytes l).

(** A thread inside a call, or a permit it left behind. *)
Inductive Task : Type :=
(** [try_acquire] before its load and before its exchange *)
| Loading (c : MemoryCategory) (bytes limit : Z)
| Swapping (c : MemoryCategory) (bytes limit current : Z)
(** [try_acquire] before it adds to the category *)
| Publishing (c : MemoryCategory) (bytes : Z)
(** an active permit, and bytes whose permit was defused *)
| Held (c : MemoryCategory) (bytes : Z)
| Defused (c : MemoryCategory) (bytes : Z)
(** [release] before its load, before its exchange and before the subtraction *)
| Releasing (c : MemoryCategory) (bytes : Z)
| Reswapping (c : MemoryCategory) (bytes current : Z)
| Subtracting (bytes : Z).

(** The entry of [try_acquire]; [None] is the oversized request. *)
Definition begin_acquire (l : WorkerBudgetLedger) (c : MemoryCategory) (bytes : Z) (is_foreground : bool)
    : option Task :=
  if bytes =? 0 then Some (Held c 0)
  else if max_budget l is_foreground <? bytes then None
  else Some (Loading c bytes (max_budget l is_foreground)).

(** The next atomic operation of a thread; it is over at [None]. *)
Definition advance (l : WorkerBudgetLedger) (t : Task) : WorkerBudgetLedger * option Task :=
  match t with
  | Loading c bytes limit => (l, Some (Swapping c bytes limit (allocated_bytes l)))
  | Swapping c bytes limit current =>
    match checked_u64 (current + bytes) with
    | None => (l, None)
    | Some proposed =>
      if limit <? gross_bytes l proposed then (l, None)
      else if allocated_bytes l =? current then (set_allocated l proposed, Some (Publishing c bytes))
      else (l, Some (Loading c bytes limit))
    end
  | Publishing c bytes => (set_category l c (as_u64 (categories l c + bytes)), Some (Held c bytes))
  | Held c bytes | Defused c bytes => (l, Some t)
  | Releasing c bytes => (l, Some (Reswapping c bytes (categories l c)))
  | Reswapping c bytes current =>
    let released := Z.min current bytes in
    if released =? 0 then (l, None)
    else if categories l c =? current then (set_category l c (current - released), Some (Subtracting released))
    else (l, Some (Releasing c bytes))
  | Subtracting bytes => (set_allocated l (as_u64 (allocated_bytes l - bytes)), None)
  end.

(** A weak exchange that fails although the value is the expected one. *)
Definition retry (t : Task) : Task :=
  match t with
  | Swapping c bytes limit _ => Loading c bytes limit
  | Reswapping c bytes _ => Releasing c bytes
  | _ => t
  end.

(** Dropping a permit, which releases only a positive number of bytes. *)
Definition drop_permit (c : MemoryCategory) (bytes : Z) : list Task :=
  if 0 <? bytes then [Releasing c bytes] else [].

(** [direct] says whether [release] may be called other than by a permit. *)
Inductive ledger_step (direct : bool) : WorkerBudgetLedger * list Task -> WorkerBudgetLedger * list Task -> Prop :=
| StepAcquire l ts c bytes fg t :
    0 <= bytes <= u64_max -> begin_acquire l c bytes fg = Some t ->
    ledger_step direct (l, ts) (l, t :: ts)
| StepAdvance l ts i t l' t' :
    ts !! i = Some t -> advance l t = (l', t') ->
    ledger_step direct (l, ts) (l', option_list t' ++ delete i ts)
| StepRetry l ts i t :
    ts !! i = Some t -> ledger_step direct (l, ts) (l, retry t :: delete i ts)
| StepDrop l ts i c bytes :
    ts !! i = Some (Held c bytes) -> ledger_step direct (l, ts) (l, drop_permit c bytes ++ delete i ts)
| StepDefuse l ts i c bytes :
    ts !! i = Some (Held c bytes) -> ledger_step direct (l, ts) (l, Defused c bytes :: delete i ts)
| StepRelease l ts c bytes :
    direct = true -> 0 <= bytes <= u64_max -> ledger_step direct (l, ts) (l, Releasing c bytes :: ts).

(* ------------------------------------------------------------------ *)
(** ** Accounting *)

(** Bytes in the total that no category shows. *)
Definition in_transit (t : Task) : Z :=
  match t with Publishing _ b | Subtracting b => b | _ => 0 end.

(** Bytes of a category a task accounts for. *)
Definition owns (c : MemoryCategory) (t : Task) : Z :=
  match t with
  | Held c' b | Defused c' b | Releasing c' b | Reswapping c' b _ => if decide (c = c') then b else 0
  | _ => 0
  end.

Definition category_total (l : WorkerBudgetLedger) : Z := zsum (categories l) all_categories.

Definition task_ok (direct : bool) (l : WorkerBudgetLedger) (t : Task) : Prop :=
  match t with
  | Loading _ b limit => 0 < b /\ limit <= total_budget_bytes l
  | Swapping _ b limit current => 0 < b /\ limit <= total_budget_bytes l /\ 0 <= current
  | Publishing _ b | Held _ b | Defused _ b | Releasing _ b | Subtracting b => 0 <= b
  | Reswapping _ b current => 0 <= b /\ 0 <= current /\ (direct = false -> b <= current)
  end.

Record ledger_inv (direct : bool) (l : WorkerBudgetLedger) (ts : list Task) : Prop := {
  li_total : 0 <= total_budget_bytes l <= u64_max;
  li_reserved : 0 <= foreground_reservation_bytes l;
  li_pct : allocator_overhead_pct l = 10;
  li_tasks : Forall (task_ok direct l) ts;
  li_cats c : 0 <= categories l c;
  li_sum : allocated_bytes l = category_total l + zsum in_transit ts;
  li_bound : gross_bytes l (allocated_bytes l) <= total_budget_bytes l;
  li_exact c : direct = false -> categories l c = zsum (owns c) ts;
}.

Lemma zsum_replace {A} (f : A -> Z) (ts new : list A) i t :
  ts !! i = Some t -> zsum f (new ++ delete i ts) = zsum f ts - f t + zsum f new.
Proof. intros Hi. rewrite zsum_app, (zsum_delete f ts i t Hi). lia. Qed.

Lemma category_total_set l c n : category_total (set_category l c n) = category_total l + n - categories l c.
Proof. unfold category_total, set_category, zsum, insert, fn_insert. destruct c; simpl; lia. Qed.

Lemma category_set_eq l c n : categories (set_category l c n) c = n.
Proof. apply fn_lookup_insert. Qed.

Lemma category_set_ne l c c' n : c <> c' -> categories (set_category l c n) c' = categories l c'.
Proof. apply fn_lookup_insert_ne. Qed.

Lemma gross_mono l a b :
  allocator_overhead_pct l = 10 -> 0 <= a <= b -> gross_bytes l a <= gross_bytes l b.
Proof. intros Hp Hab. unfold gross_bytes. rewrite Hp. assert (a * 10 / 100 <= b * 10 / 100) by (apply Z.div_le_mono; lia). lia. Qed.

Lemma gross_ge l a : allocator_overhead_pct l = 10 -> 0 <= a -> a <= gross_bytes l a.
Proof. intros Hp Ha. unfold gross_bytes. rewrite Hp. assert (0 <= a * 10 / 100) by (apply Z.div_pos; lia). lia. Qed.

#[local] Arguments set_category : simpl never.

Section Preservation.
Context (direct : bool).

Lemma task_ok_owns l c t : task_ok direct l t -> 0 <= owns c t.
Proof. destruct t; simpl; try case_decide; lia. Qed.

Lemma task_ok_transit l t : task_ok direct l t -> 0 <= in_transit t.
Proof. destruct t; simpl; lia. Qed.

Lemma inv_nonneg l ts : ledger_inv direct l ts -> 0 <= category_total l /\ 0 <= zsum in_transit ts.
Proof.
  intros Hinv. split.
  - apply zsum_nonneg, Forall_true. apply Hinv.
  - apply zsum_nonneg. eapply Forall_impl; [apply task_ok_transit|exact (li_tasks _ _ _ Hinv)].
Qed.

Lemma category_le_total l ts c : ledger_inv direct l ts -> categories l c <= category_total l.
Proof.
  intros Hinv. pose proof (li_cats _ _ _ Hinv) as Hc. unfold category_total, zsum.
  pose proof (Hc SlateDbWriteBuffers). pose proof (Hc BlockAndMetadataCaches). pose proof (Hc OperatorState).
  pose proof (Hc SourceBuffers). pose proof (Hc ExchangeBuffers). pose proof (Hc QueryWorkMemory).
  pose proof (Hc CheckpointStaging). pose proof (Hc MigrationBuffers). destruct c; cbn; lia.
Qed.

Lemma transit_le l ts i t : ledger_inv direct l ts -> ts !! i = Some t -> in_transit t <= zsum in_transit ts.
Proof.
  intros Hinv Hi. pose proof (zsum_delete in_transit ts i t Hi).
  assert (0 <= zsum in_transit (delete i ts)); [|lia].
  apply zsum_nonneg, Forall_delete. eapply Forall_impl; [apply task_ok_transit|exact (li_tasks _ _ _ Hinv)].
Qed.

Lemma owns_le l ts i t c : ledger_inv direct l ts -> ts !! i = Some t -> owns c t <= zsum (owns c) ts.
Proof.
  intros Hinv Hi. pose proof (zsum_delete (owns c) ts i t Hi).
  assert (0 <= zsum (owns c) (delete i ts)); [|lia].
  apply zsum_nonneg, Forall_delete. eapply Forall_impl; [intros x; apply task_ok_owns|exact (li_tasks _ _ _ Hinv)].
Qed.

Lemma allocated_u64 l ts : ledger_inv direct l ts -> 0 <= allocated_bytes l <= u64_max.
Proof.
  intros Hinv. destruct (inv_nonneg _ _ Hinv). pose proof (li_sum _ _ _ Hinv).
  pose proof (gross_ge l (allocated_bytes l) (li_pct _ _ _ Hinv)). pose proof (li_bound _ _ _ Hinv).
  pose proof (li_total _ _ _ Hinv). lia.
Qed.

(** Replacing task [i] by [new] while the ledger becomes [l']. *)
Lemma inv_replace l ts i t l' new :
  ledger_inv direct l ts -> ts !! i = Some t ->
  total_budget_bytes l' = total_budget_bytes l -> allocator_overhead_pct l' = allocator_overhead_pct l ->
  foreground_reservation_bytes l' = foreground_reservation_bytes l ->
  Forall (task_ok direct l) new -> (forall c, 0 <= categories l' c) ->
  allocated_bytes l' - allocated_bytes l =
    category_total l' - category_total l + zsum in_transit new - in_transit t ->
  gross_bytes l' (allocated_bytes l') <= total_budget_bytes l ->
  (forall c, direct = false -> categories l' c - categories l c = zsum (owns c) new - owns c t) ->
  ledger_inv direct l' (new ++ delete i ts).
Proof.
  intros Hinv Hi Ht Hp Hf Hnew Hc Hsum Hb Hex.
  assert (forall x, task_ok direct l x -> task_ok direct l' x) as Hok by (intros []; simpl; rewrite ?Ht; done).
  split; rewrite ?Ht, ?Hp, ?Hf; [apply Hinv|apply Hinv|apply Hinv| |done| |done|].
  - apply Forall_app. split; (eapply Forall_impl; [exact Hok|]); [done|]. apply Forall_delete, Hinv.
  - rewrite (zsum_replace _ _ _ _ t Hi). pose proof (li_sum _ _ _ Hinv). lia.
  - intros c Hd. rewrite (zsum_replace _ _ _ _ t Hi). pose proof (li_exact _ _ _ Hinv c Hd).
    specialize (Hex c Hd). lia.
Qed.

(** Steps that leave the ledger alone. *)
Lemma inv_replace_same l ts i t new :
  ledger_inv direct l ts -> ts !! i = Some t -> Forall (task_ok direct l) new ->
  zsum in_transit new = in_transit t ->
  (forall c, direct = false -> zsum (owns c) new = owns c t) ->
  ledger_inv direct l (new ++ delete i ts).
Proof.
  intros Hinv Hi Hnew Htr Hex. apply (inv_replace l ts i t); try done; [apply Hinv|lia|apply Hinv|].
  intros c Hd. rewrite (Hex c Hd). lia.
Qed.

Lemma inv_swap l ts i c b limit current proposed :
  ledger_inv direct l ts -> ts !! i = Some (Swapping c b limit current) ->
  current + b = proposed -> gross_bytes l proposed <= limit -> allocated_bytes l = current ->
  ledger_inv direct (set_allocated l proposed) (Publishing c b :: delete i ts).
Proof.
  intros Hinv Hi Hp Hg Ha. pose proof (proj1 (Forall_lookup _ _) (li_tasks _ _ _ Hinv) i _ Hi) as (Hb & Hl & _).
  apply (inv_replace l ts i _ _ [Publishing c b] Hinv Hi); try done.
  - repeat constructor. simpl. lia.
  - apply Hinv.
  - rewrite zsum_cons. unfold category_total, zsum at 3. simpl. lia.
  - change (gross_bytes l proposed <= total_budget_bytes l). lia.
  - intros c' _. rewrite zsum_cons. unfold zsum. simpl. lia.
Qed.

Lemma inv_publish l ts i c b :
  ledger_inv direct l ts -> ts !! i = Some (Publishing c b) ->
  ledger_inv direct (set_category l c (as_u64 (categories l c + b))) (Held c b :: delete i ts).
Proof.
  intros Hinv Hi. pose proof (proj1 (Forall_lookup _ _) (li_tasks _ _ _ Hinv) i _ Hi) as Hb. simpl in Hb.
  pose proof (transit_le _ _ _ _ Hinv Hi) as Htr. simpl in Htr.
  pose proof (category_le_total _ _ c Hinv). pose proof (li_sum _ _ _ Hinv).
  pose proof (li_cats _ _ _ Hinv c). pose proof (allocated_u64 _ _ Hinv).
  rewrite as_u64_id by lia.
  apply (inv_replace l ts i _ _ [Held c b] Hinv Hi); try done.
  - by repeat constructor.
  - intros c'. destruct (decide (c = c')) as [<-|Hne]; [rewrite category_set_eq; lia|].
    rewrite category_set_ne by done. apply Hinv.
  - rewrite category_total_set, zsum_cons. unfold zsum. simpl. lia.
  - apply (li_bound _ _ _ Hinv).
  - intros c' _. rewrite zsum_cons. unfold zsum. destruct (decide (c' = c)) as [->|Hne].
    + rewrite category_set_eq. simpl. rewrite decide_True by done. lia.
    + rewrite category_set_ne by done. simpl. rewrite decide_False by done. lia.
Qed.

Lemma inv_reswap l ts i c b current :
  ledger_inv direct l ts -> ts !! i = Some (Reswapping c b current) -> categories l c = current ->
  ledger_inv direct (set_category l c (current - Z.min current b))
    (Subtracting (Z.min current b) :: delete i ts).
Proof.
  intros Hinv Hi Hc. pose proof (proj1 (Forall_lookup _ _) (li_tasks _ _ _ Hinv) i _ Hi) as (Hb & Hcur & Hd).
  apply (inv_replace l ts i _ _ [Subtracting (Z.min current b)] Hinv Hi); try done.
  - repeat constructor. simpl. lia.
  - intros c'. destruct (decide (c = c')) as [<-|Hne]; [rewrite category_set_eq; lia|].
    rewrite category_set_ne by done. apply Hinv.
  - rewrite category_total_set, zsum_cons. unfold zsum. simpl. lia.
  - apply (li_bound _ _ _ Hinv).
  - intros c' Hdir. specialize (Hd Hdir). rewrite zsum_cons. unfold zsum. destruct (decide (c' = c)) as [->|Hne].
    + rewrite category_set_eq. simpl. rewrite decide_True by done. lia.
    + rewrite category_set_ne by done. simpl. rewrite decide_False by done. lia.
Qed.

Lemma inv_subtract l ts i n :
  ledger_inv direct l ts -> ts !! i = Some (Subtracting n) ->
  ledger_inv direct (set_allocated l (as_u64 (allocated_bytes l - n))) (delete i ts).
Proof.
  intros Hinv Hi. pose proof (proj1 (Forall_lookup _ _) (li_tasks _ _ _ Hinv) i _ Hi) as Hn. simpl in Hn.
  pose proof (transit_le _ _ _ _ Hinv Hi) as Htr. simpl in Htr. pose proof (li_sum _ _ _ Hinv).
  destruct (inv_nonneg _ _ Hinv). pose proof (allocated_u64 _ _ Hinv). rewrite as_u64_id by lia.
  apply (inv_replace l ts i _ _ [] Hinv Hi); try done.
  - apply Hinv.
  - unfold category_total, zsum at 3. simpl. lia.
  - change (gross_bytes l (allocated_bytes l - n) <= total_budget_bytes l).
    etrans; [|apply (li_bound _ _ _ Hinv)]. apply gross_mono; [apply Hinv|lia].
  - intros c _. unfold zsum. simpl. lia.
Qed.

Lemma advance_inv l ts i t l' t' :
  ledger_inv direct l ts -> ts !! i = Some t -> advance l t = (l', t') ->
  ledger_inv direct l' (option_list t' ++ delete i ts).
Proof.
  intros Hinv Hi. pose proof (proj1 (Forall_lookup _ _) (li_tasks _ _ _ Hinv) i _ Hi) as Hok.
  pose proof (allocated_u64 _ _ Hinv) as Ha.
  assert (forall new, Forall (task_ok direct l) new -> zsum in_transit new = in_transit t ->
    (forall c, direct = false -> zsum (owns c) new = owns c t) -> ledger_inv direct l (new ++ delete i ts)) as Hsame.
  { intros new. by apply inv_replace_same. }
  destruct t as [c b limit|c b limit cur|c b|c b|c b|c b|c b cur|n]; simpl in Hok |- *.
  - intros [= <- <-]. apply Hsame; [|done..]. repeat constructor; simpl; lia.
  - destruct (checked_u64 (cur + b)) as [p|] eqn:Hc; [|intros [= <- <-]; by apply Hsame].
    destruct (Z.ltb_spec limit (gross_bytes l p)); [intros [= <- <-]; by apply Hsame|].
    destruct (Z.eqb_spec (allocated_bytes l) cur); intros [= <- <-].
    + eapply (inv_swap _ _ _ _ _ limit cur); [done..| |done|done]. apply checked_Some in Hc. lia.
    + apply Hsame; [|done..]. repeat constructor; simpl; lia.
  - intros [= <- <-]. by apply inv_publish.
  - intros [= <- <-]. apply Hsame; [by repeat constructor|done|]. intros c' _. unfold zsum. simpl. lia.
  - intros [= <- <-]. apply Hsame; [by repeat constructor|done|]. intros c' _. unfold zsum. simpl. lia.
  - intros [= <- <-]. apply Hsame; [|done|].
    + repeat constructor; simpl; [lia|apply Hinv|]. intros Hd. rewrite (li_exact _ _ _ Hinv c Hd).
      pose proof (owns_le _ _ _ _ c Hinv Hi) as Ho. simpl in Ho. by rewrite decide_True in Ho.
    + intros c' _. unfold zsum. simpl. lia.
  - destruct Hok as (Hb & Hcur & Hd). destruct (Z.eqb_spec (Z.min cur b) 0).
    + intros [= <- <-]. apply Hsame; [done..|]. intros c' Hdir. specialize (Hd Hdir). unfold zsum. simpl.
      case_decide; lia.
    + destruct (Z.eqb_spec (categories l c) cur); intros [= <- <-]; [by apply inv_reswap|].
      apply Hsame; [by repeat constructor|done|]. intros c' _. unfold zsum. simpl. lia.
  - intros [= <- <-]. by apply inv_subtract.
Qed.

(** A new thread whose bytes are not yet counted. *)
Lemma inv_cons l ts t :
  ledger_inv direct l ts -> task_ok direct l t -> in_transit t = 0 ->
  (direct = false -> forall c, owns c t = 0) -> ledger_inv direct l (t :: ts).
Proof.
  intros Hinv Hok Htr Hex. split; try apply Hinv.
  - constructor; [done|apply Hinv].
  - rewrite zsum_cons, Htr. pose proof (li_sum _ _ _ Hinv). lia.
  - intros c Hd. rewrite zsum_cons, (Hex Hd c). pose proof (li_exact _ _ _ Hinv c Hd). lia.
Qed.

Lemma begin_inv_cons l ts c b fg t :
  ledger_inv direct l ts -> 0 <= b <= u64_max -> begin_acquire l c b fg = Some t ->
  0 <= foreground_reservation_bytes l -> ledger_inv direct l (t :: ts).
Proof.
  intros Hinv Hb Hbeg Hf. unfold begin_acquire in Hbeg.
  destruct (Z.eqb_spec b 0); [|destruct (Z.ltb_spec (max_budget l fg) b)]; simplify_eq.
  - apply inv_cons; simpl; [done..|]. intros _ c'. by case_decide.
  - apply inv_cons; simpl; [done| |done|done]. pose proof (li_total _ _ _ Hinv).
    unfold max_budget, saturating_sub. destruct fg; lia.
Qed.
End Preservation.

Lemma ledger_step_inv direct l ts l' ts' :
  ledger_step direct (l, ts) (l', ts') -> ledger_inv direct l ts -> ledger_inv direct l' ts'.
Proof.
  intros Hstep Hinv. inversion Hstep as [? ? c b fg t Hb Hbeg|? ? i t ? t' Hi Hadv|? ? i t Hi|? ? i c b Hi|? ? i c b Hi|? ? c b Hd Hb]; subst.
  - apply (begin_inv_cons direct l' ts c b fg); [done..|apply Hinv].
  - by eapply advance_inv.
  - apply (inv_replace_same direct l' _ i t [retry t]); [done..| | |].
    + apply Forall_singleton. pose proof (proj1 (Forall_lookup _ _) (li_tasks _ _ _ Hinv) i _ Hi) as Hok.
      destruct t; simpl in *; tauto.
    + rewrite zsum_cons. unfold zsum. destruct t; simpl; lia.
    + intros c _. rewrite zsum_cons. unfold zsum. destruct t; simpl; lia.
  - pose proof (proj1 (Forall_lookup _ _) (li_tasks _ _ _ Hinv) i _ Hi) as Hok. simpl in Hok.
    apply (inv_replace_same direct l' _ i (Held c b) (drop_permit c b)); [done..| | |]; unfold drop_permit.
    + case_match; by repeat constructor.
    + by case_match.
    + intros c' _. destruct (Z.ltb_spec 0 b); [rewrite zsum_cons|]; unfold zsum; simpl; case_decide; lia.
  - pose proof (proj1 (Forall_lookup _ _) (li_tasks _ _ _ Hinv) i _ Hi) as Hok.
    apply (inv_replace_same direct l' _ i (Held c b) [Defused c b]); [done..|by apply Forall_singleton|done|].
    intros c' _. rewrite zsum_cons. unfold zsum. simpl. lia.
  - apply inv_cons; [done|simpl; lia|done|done].
Qed.

Lemma ledger_steps_inv direct x y :
  rtc (ledger_step direct) x y -> ledger_inv direct x.1 x.2 -> ledger_inv direct y.1 y.2.
Proof. induction 1 as [|[] [] ? Hs]; [done|]. intros Hinv. by eauto using ledger_step_inv. Qed.

Lemma ledger_total_constant direct x y :
  rtc (ledger_step direct) x y -> total_budget_bytes y.1 = total_budget_bytes x.1.
Proof.
  induction 1 as [|x y z Hs _ IH]; [done|]. rewrite IH. destruct Hs as [| l ts i t l' t' _ Ha | | | |]; try done.
  simpl. unfold advance in Ha. by repeat (case_match; simplify_eq/=).
Qed.

Lemma ledger_inv_new direct total foreground :
  0 <= total <= u64_max -> 0 <= foreground -> ledger_inv direct (ledger_new total foreground) [].
Proof. intros. split; try done. change (0 <= total). lia. Qed.

(** C13: The worker memory ledger under any interleaving of admissions, permit drops,
    defused permits and releases.  What is allocated, with the allocator's overhead,
    never exceeds the worker's budget and no counter wraps; the total is what the
    categories show plus what is on its way into or out of them, so the two agree
    when no call is running; and when only permits release, each category holds
    exactly the bytes of its live and defused permits and of releases in progress,
    so dropping every permit returns all memory. *)
Theorem worker_ledger_accounting (direct : bool) (total foreground : Z) l ts :
  0 <= total <= u64_max -> 0 <= foreground ->
  rtc (ledger_step direct) (ledger_new total foreground, []) (l, ts) ->
  total_budget_bytes l = total /\
  0 <= allocated_bytes l /\ gross_bytes l (allocated_bytes l) <= total /\
  (forall c, 0 <= categories l c <= allocated_bytes l) /\
  allocated_bytes l = category_total l + zsum in_transit ts /\
  (direct = false -> forall c, categories l c = zsum (owns c) ts) /\
  (direct = false -> ts = [] -> allocated_bytes l = 0).
Proof.
  intros Ht Hf Hrun.
  pose proof (ledger_steps_inv _ _ _ Hrun (ledger_inv_new direct total foreground Ht Hf)) as Hinv. simpl in Hinv.
  pose proof (ledger_total_constant _ _ _ Hrun) as Htot. simpl in Htot.
  destruct (inv_nonneg _ _ _ Hinv). pose proof (li_sum _ _ _ Hinv). rewrite <-Htot.
  split_and!; [done|apply (allocated_u64 _ _ _ Hinv)|apply Hinv| |done|intros ? c; by apply Hinv|].
  - intros c. pose proof (category_le_total _ _ _ c Hinv). pose proof (li_cats _ _ _ Hinv c). lia.
  - intros Hd ->. assert (category_total l = 0) as Hz; [|unfold zsum in *; simpl in *; lia].
    apply zsum_zero, Forall_true. intros c. by rewrite (li_exact _ _ _ Hinv c Hd).
Qed.

(** One background admission of 300 bytes. *)
Lemma worker_ledger_accounting_witness :
  exists l ts, rtc (ledger_step false) (ledger_new 1000 200, []) (l, ts) /\
    allocated_bytes l = 300 /\ categories l OperatorState = 300 /\
    gross_bytes l (allocated_bytes l) <= 1000.
Proof.
  eassert (rtc (ledger_step false) (ledger_new 1000 200, []) _) as Hr.
  { eapply rtc_l; [apply (StepAcquire _ _ _ OperatorState 300 false); [unfold u64_max; lia|reflexivity]|].
    eapply rtc_l; [eapply (StepAdvance _ _ _ 0); reflexivity|].
    eapply rtc_l; [eapply (StepAdvance _ _ _ 0); reflexivity|].
    eapply rtc_l; [eapply (StepAdvance _ _ _ 0); reflexivity|]. apply rtc_refl. }
  eexists _, _. split; [exact Hr|]. split; [reflexivity|]. split; [reflexivity|].
  refine (proj1 (proj2 (proj2 (worker_ledger_accounting false 1000 200 _ _ _ _ Hr)))); unfold u64_max; lia.
Defined.
