(* ===== verification/Checkpoints.v ===== *)
(** * The checkpoint coordinator ([rockstream-control/src/checkpoint.rs],
    [rockstream-types/src/checkpoint.rs])

    Rounds of cluster checkpoints: a round is begun, every shard confirms, and the
    last confirmation builds the manifest and commits it through a callback.  The
    methods are called from many threads; each is split where it gives up its
    lock, and an atomic credit operation is a step of its own.  Instants are
    numbers given to the steps that read the clock.  Metrics and log messages are
    left out, and so is the display of alignment snapshots. *)
From stdpp Require Import base tactics list gmap numbers option fin_maps relations.
From Stdlib Require Import ZArith Lia ZifyBool.
From S2P Require Import Prelude.
Local Open Scope Z_scope.

(* ------------------------------------------------------------------ *)
(** ** Records *)

Definition checked_next (id : Z) : option Z := checked_u64 (id + 1).

Record PerShardCheckpoint : Type := {
  psc_checkpoint_id : Z;
  shard_checkpoint_id : Z;
  snapshot_id : option bytes
}.

Record ClusterCheckpoint : Type := {
  cc_checkpoint_id : Z;
  cc_shards : gmap Z PerShardCheckpoint
}.

Definition cluster_new (id : Z) : ClusterCheckpoint := {| cc_checkpoint_id := id; cc_shards := ∅ |}.
Definition record_shard (m : ClusterCheckpoint) (shard : Z) (psc : PerShardCheckpoint) : ClusterCheckpoint :=
  {| cc_checkpoint_id := cc_checkpoint_id m; cc_shards := <[shard := psc]> (cc_shards m) |}.
Definition is_complete (m : ClusterCheckpoint) (expected : list Z) : bool :=
  forallb (fun s => bool_decide (is_Some (cc_shards m !! s))) expected.

Inductive StateMutation : Type :=
| MMerge (key : bytes) (law law_version : Z) (operand : bytes)
| MPut (key value : bytes)
| MDelete (key : bytes).

Record EpochStateDelta : Type := { mutations : list StateMutation; dirty_key_count : Z; logical_delta_bytes : Z }.

Record ChangelogCheckpointContribution : Type := { cb_checkpoint_id : Z; delta : EpochStateDelta }.

Inductive CoordinatorError : Type :=
| AlignmentBufferFull (used max : nat)
| AlignmentTimeout
| CheckpointIdOverflow
| UnknownShard (shard : Z)
| StaleConfirmation (shard expected got : Z)
| StaleChangelogContribution (shard expected got : Z).

(** One turn of the credit tracker's compare-and-swap loops. *)
Definition acquire (max_credits used : nat) : result CoordinatorError nat :=
  if (max_credits <=? used)%nat then Err (AlignmentBufferFull used max_credits) else Ok (S used).
Definition release (used : nat) : nat := (used - 1)%nat.

(* ------------------------------------------------------------------ *)
(** ** The coordinator under its lock *)

Record InProgressRound : Type := {
  round_id : Z;
  started_at : Z;
  barrier_arrivals : gmap Z Z;
  confirmations : gmap Z PerShardCheckpoint;
  changelog_contributions : gmap Z ChangelogCheckpointContribution;
  pending : list Z;
  credits_held : nat
}.

Record CoordinatorInner : Type := {
  shards : list Z;
  next_checkpoint_id : Z;
  in_progress : option InProgressRound;
  committed : gmap Z ClusterCheckpoint;
  retention_horizon : Z;
  alignment_timeout : Z
}.

Definition DEFAULT_ALIGNMENT_TIMEOUT : Z := 60.

Definition with_config (shards : list Z) (retention : Z) : CoordinatorInner := {|
  shards := shards; next_checkpoint_id := 1; in_progress := None; committed := ∅;
  retention_horizon := retention; alignment_timeout := DEFAULT_ALIGNMENT_TIMEOUT
|}.

Definition set_round (i : CoordinatorInner) (r : option InProgressRound) : CoordinatorInner := {|
  shards := shards i; next_checkpoint_id := next_checkpoint_id i; in_progress := r; committed := committed i;
  retention_horizon := retention_horizon i; alignment_timeout := alignment_timeout i
|}.

Definition set_committed (i : CoordinatorInner) (c : gmap Z ClusterCheckpoint) : CoordinatorInner := {|
  shards := shards i; next_checkpoint_id := next_checkpoint_id i; in_progress := in_progress i; committed := c;
  retention_horizon := retention_horizon i; alignment_timeout := alignment_timeout i
|}.

(** How [begin_checkpoint] goes on after its first look at the state. *)
Inductive BeginEnter : Type :=
| BTimedOut (held : nat)
| BError (e : CoordinatorError)
| BStart (id next : Z) (n : nat).

Definition begin_enter (i : CoordinatorInner) (now : Z) : BeginEnter :=
  match in_progress i with
  | Some round =>
    if alignment_timeout i <? now - started_at round then BTimedOut (credits_held round) else BError AlignmentTimeout
  | None =>
    match checked_next (next_checkpoint_id i) with
    | None => BError CheckpointIdOverflow
    | Some next => BStart (next_checkpoint_id i) next (length (shards i))
    end
  end.

(** The round is recorded once all credits are held and the barriers sent. *)
Definition begin_install (i : CoordinatorInner) (id next now : Z) (acquired : nat) : CoordinatorInner := {|
  shards := shards i; next_checkpoint_id := next;
  in_progress := Some {| round_id := id; started_at := now; barrier_arrivals := ∅; confirmations := ∅;
    changelog_contributions := ∅; pending := shards i; credits_held := acquired |};
  committed := committed i; retention_horizon := retention_horizon i; alignment_timeout := alignment_timeout i
|}.

Definition stage_contribution (i : CoordinatorInner) (shard : Z) (psc : PerShardCheckpoint)
    (c : ChangelogCheckpointContribution) : result CoordinatorError CoordinatorInner :=
  match in_progress i with
  | None => Err (UnknownShard shard)
  | Some r =>
    if negb (bool_decide (shard ∈ pending r)) then Err (UnknownShard shard)
    else if negb (psc_checkpoint_id psc =? round_id r) then Err (StaleConfirmation shard (round_id r) (psc_checkpoint_id psc))
    else if negb (cb_checkpoint_id c =? round_id r)
      then Err (StaleChangelogContribution shard (round_id r) (cb_checkpoint_id c))
    else Ok (set_round i (Some {| round_id := round_id r; started_at := started_at r;
      barrier_arrivals := barrier_arrivals r; confirmations := confirmations r;
      changelog_contributions := <[shard := c]> (changelog_contributions r);
      pending := pending r; credits_held := credits_held r |}))
  end.

Definition record_shard_barrier_received (i : CoordinatorInner) (shard id arrival_ms : Z)
    : result CoordinatorError CoordinatorInner :=
  match in_progress i with
  | None => Err (UnknownShard shard)
  | Some r =>
    if negb (id =? round_id r) then Err (StaleConfirmation shard (round_id r) id)
    else if negb (bool_decide (shard ∈ pending r)) && negb (bool_decide (is_Some (confirmations r !! shard)))
      then Err (UnknownShard shard)
    else Ok (set_round i (Some {| round_id := round_id r; started_at := started_at r;
      barrier_arrivals := <[shard := arrival_ms]> (barrier_arrivals r); confirmations := confirmations r;
      changelog_contributions := changelog_contributions r; pending := pending r; credits_held := credits_held r |}))
  end.

(** What the last confirmation takes out of the lock: the manifest, the
    contributions and the credits still to release. *)
Record Closed : Type := {
  manifest : ClusterCheckpoint;
  contributions : gmap Z ChangelogCheckpointContribution;
  remaining : nat
}.

Definition close_round (r : InProgressRound) (confirmed : gmap Z PerShardCheckpoint) : Closed :=
  let m := foldl (fun m e => record_shard m e.1 e.2) (cluster_new (round_id r)) (map_to_list confirmed) in
  {| manifest := m; contributions := changelog_contributions r; remaining := (credits_held r - size (cc_shards m))%nat |}.

(** The locked part of [record_shard_checkpoint_with_contributions]; on success
    one credit is released. *)
Definition record_confirmation (i : CoordinatorInner) (shard : Z) (psc : PerShardCheckpoint)
    : result CoordinatorError (CoordinatorInner * option Closed) :=
  match in_progress i with
  | None => Err (UnknownShard shard)
  | Some r =>
    if negb (psc_checkpoint_id psc =? round_id r) then Err (StaleConfirmation shard (round_id r) (psc_checkpoint_id psc))
    else if negb (bool_decide (shard ∈ pending r)) && negb (bool_decide (is_Some (confirmations r !! shard)))
      then Err (UnknownShard shard)
    else
      let pending' := base.filter (fun s => s <> shard) (pending r) in
      let confirmed := <[shard := psc]> (confirmations r) in
      match pending' with
      | [] => Ok (set_round i None, Some (close_round r confirmed))
      | _ => Ok (set_round i (Some {| round_id := round_id r; started_at := started_at r;
          barrier_arrivals := barrier_arrivals r; confirmations := confirmed;
          changelog_contributions := changelog_contributions r; pending := pending'; credits_held := credits_held r |}), None)
      end
  end.

Definition gc_before (latest retention : Z) (c : gmap Z ClusterCheckpoint) : gmap Z ClusterCheckpoint :=
  if retention <? latest then base.filter (fun e => latest - retention <= e.1) c else c.

Definition commit_insert (i : CoordinatorInner) (m : ClusterCheckpoint) : CoordinatorInner :=
  set_committed i (gc_before (cc_checkpoint_id m) (retention_horizon i) (<[cc_checkpoint_id m := m]> (committed i))).

(** The greatest committed id, 0 when there is none. *)
Definition latest_id (c : gmap Z ClusterCheckpoint) : Z := map_fold (fun k _ acc => Z.max k acc) 0 c.

Definition gc_old_checkpoints (i : CoordinatorInner) : CoordinatorInner :=
  if bool_decide (committed i = ∅) then i
  else set_committed i (gc_before (latest_id (committed i)) (retention_horizon i) (committed i)).

Definition latest_committed (i : CoordinatorInner) : option ClusterCheckpoint := committed i !! latest_id (committed i).

(* ------------------------------------------------------------------ *)
(** ** Interleavings *)

(** Where a call is.  [Acquiring] and [RollingBack] hold the lock; [changelog]
    tells which of the two recording methods runs the callback. *)
Inductive task : Type :=
| Begin
| Draining (held : nat)
| Acquiring (id next : Z) (todo acquired : nat)
| RollingBack (acquired : nat)
| Changelog (shard : Z) (psc : PerShardCheckpoint) (c : ChangelogCheckpointContribution)
| Record_ (changelog : bool) (shard : Z) (psc : PerShardCheckpoint)
| Releasing (changelog : bool) (c : Closed)
| Committing (changelog : bool) (c : Closed)
| Inserting (m : ClusterCheckpoint)
| Panicked
| Ended.

(** The lock is held by at most one task.  [log] is ghost state: what was handed
    to the commit callbacks. *)
Record csystem : Type := {
  inner : CoordinatorInner;
  credits_used : nat;
  lock : option nat;
  tasks : list task;
  log : list (ClusterCheckpoint * gmap Z ChangelogCheckpointContribution)
}.

Definition go (s : csystem) (t : nat) (k : task) : csystem :=
  {| inner := inner s; credits_used := credits_used s; lock := lock s; tasks := <[t := k]> (tasks s); log := log s |}.
Definition with_inner (s : csystem) (i : CoordinatorInner) : csystem :=
  {| inner := i; credits_used := credits_used s; lock := lock s; tasks := tasks s; log := log s |}.
Definition with_credits (s : csystem) (u : nat) : csystem :=
  {| inner := inner s; credits_used := u; lock := lock s; tasks := tasks s; log := log s |}.
Definition with_lock (s : csystem) (l : option nat) : csystem :=
  {| inner := inner s; credits_used := credits_used s; lock := l; tasks := tasks s; log := log s |}.
Definition with_log (s : csystem) (e : ClusterCheckpoint * gmap Z ChangelogCheckpointContribution) : csystem :=
  {| inner := inner s; credits_used := credits_used s; lock := lock s; tasks := tasks s; log := log s ++ [e] |}.

Definition is_call (k : task) : Prop :=
  match k with Begin | Changelog _ _ _ | Record_ false _ _ => True | _ => False end.

Section steps.
Context (max_credits : nat).

Inductive cstep : csystem -> csystem -> Prop :=
| C_call s k : is_call k ->
    cstep s {| inner := inner s; credits_used := credits_used s; lock := lock s; tasks := tasks s ++ [k]; log := log s |}
| C_begin_timed_out s t now held :
    tasks s !! t = Some Begin -> lock s = None -> begin_enter (inner s) now = BTimedOut held ->
    cstep s (go s t (Draining held))
| C_begin_error s t now e :
    tasks s !! t = Some Begin -> lock s = None -> begin_enter (inner s) now = BError e -> cstep s (go s t Ended)
| C_begin_start s t now id next n :
    tasks s !! t = Some Begin -> lock s = None -> begin_enter (inner s) now = BStart id next n ->
    cstep s (with_lock (go s t (Acquiring id next n 0)) (Some t))
| C_acquire s t id next todo acquired u :
    tasks s !! t = Some (Acquiring id next (S todo) acquired) -> acquire max_credits (credits_used s) = Ok u ->
    cstep s (with_credits (go s t (Acquiring id next todo (S acquired))) u)
| C_acquire_full s t id next todo acquired e :
    tasks s !! t = Some (Acquiring id next (S todo) acquired) -> acquire max_credits (credits_used s) = Err e ->
    cstep s (go s t (RollingBack acquired))
| C_roll_back s t acquired :
    tasks s !! t = Some (RollingBack (S acquired)) ->
    cstep s (with_credits (go s t (RollingBack acquired)) (release (credits_used s)))
| C_rolled_back s t : tasks s !! t = Some (RollingBack 0) -> cstep s (with_lock (go s t Ended) None)
| C_install s t id next acquired now :
    tasks s !! t = Some (Acquiring id next 0 acquired) ->
    cstep s (with_lock (with_inner (go s t Ended) (begin_install (inner s) id next now acquired)) None)
| C_drain s t held :
    tasks s !! t = Some (Draining (S held)) -> cstep s (with_credits (go s t (Draining held)) (release (credits_used s)))
| C_drained s t :
    tasks s !! t = Some (Draining 0) -> lock s = None -> cstep s (with_inner (go s t Ended) (set_round (inner s) None))
| C_changelog s t shard psc c i :
    tasks s !! t = Some (Changelog shard psc c) -> lock s = None -> stage_contribution (inner s) shard psc c = Ok i ->
    cstep s (with_inner (go s t (Record_ true shard psc)) i)
| C_changelog_error s t shard psc c e :
    tasks s !! t = Some (Changelog shard psc c) -> lock s = None -> stage_contribution (inner s) shard psc c = Err e ->
    cstep s (go s t Ended)
| C_record s t ch shard psc i :
    tasks s !! t = Some (Record_ ch shard psc) -> lock s = None ->
    record_confirmation (inner s) shard psc = Ok (i, None) ->
    cstep s (with_credits (with_inner (go s t Ended) i) (release (credits_used s)))
| C_record_last s t ch shard psc i c :
    tasks s !! t = Some (Record_ ch shard psc) -> lock s = None ->
    record_confirmation (inner s) shard psc = Ok (i, Some c) ->
    cstep s (with_credits (with_inner (go s t (Releasing ch c)) i) (release (credits_used s)))
| C_record_error s t ch shard psc e :
    tasks s !! t = Some (Record_ ch shard psc) -> lock s = None -> record_confirmation (inner s) shard psc = Err e ->
    cstep s (go s t Ended)
| C_release s t ch c rest :
    tasks s !! t = Some (Releasing ch c) -> remaining c = S rest ->
    cstep s (with_credits (go s t (Releasing ch {| manifest := manifest c; contributions := contributions c; remaining := rest |}))
      (release (credits_used s)))
| C_released s t ch c :
    tasks s !! t = Some (Releasing ch c) -> remaining c = O -> cstep s (go s t (Committing ch c))
| C_assert_fails s t c :
    tasks s !! t = Some (Committing true c) -> size (cc_shards (manifest c)) <> size (contributions c) -> cstep s (go s t Panicked)
| C_commit s t ch c (ok : bool) :
    tasks s !! t = Some (Committing ch c) -> (ch = true -> size (cc_shards (manifest c)) = size (contributions c)) ->
    cstep s (with_log (go s t (if ok then Inserting (manifest c) else Ended)) (manifest c, contributions c))
| C_insert s t m :
    tasks s !! t = Some (Inserting m) -> lock s = None -> cstep s (with_inner (go s t Ended) (commit_insert (inner s) m))
| C_barrier s shard id ms i :
    lock s = None -> record_shard_barrier_received (inner s) shard id ms = Ok i -> cstep s (with_inner s i)
| C_gc s : lock s = None -> cstep s (with_inner s (gc_old_checkpoints (inner s))).
End steps.

Definition csystem_init (sh : list Z) (retention : Z) : csystem :=
  {| inner := with_config sh retention; credits_used := 0; lock := None; tasks := []; log := [] |}.

(* ------------------------------------------------------------------ *)
(** ** The invariant *)

(** A manifest of a round: every registered shard, each with a checkpoint of
    that round. *)
Definition manifest_ok (sh : list Z) (next : Z) (m : ClusterCheckpoint) : Prop :=
  1 <= cc_checkpoint_id m < next /\ (forall x, is_Some (cc_shards m !! x) <-> x ∈ sh) /\
  map_Forall (fun _ psc => psc_checkpoint_id psc = cc_checkpoint_id m) (cc_shards m).

Definition contributions_ok (sh : list Z) (id : Z) (c : gmap Z ChangelogCheckpointContribution) : Prop :=
  map_Forall (fun x cb => x ∈ sh /\ cb_checkpoint_id cb = id) c.

Definition round_ok (sh : list Z) (next : Z) (r : InProgressRound) : Prop :=
  1 <= round_id r < next /\ (forall x, x ∈ sh <-> x ∈ pending r \/ is_Some (confirmations r !! x)) /\
  map_Forall (fun _ psc => psc_checkpoint_id psc = round_id r) (confirmations r) /\
  contributions_ok sh (round_id r) (changelog_contributions r).

Lemma foldl_record_shard m l :
  foldl (fun m (e : Z * PerShardCheckpoint) => record_shard m e.1 e.2) m l =
  {| cc_checkpoint_id := cc_checkpoint_id m; cc_shards := foldl (fun g e => <[e.1 := e.2]> g) (cc_shards m) l |}.
Proof. revert m. induction l as [|e l IH]; intros m; [by destruct m|]. cbn [foldl]. by rewrite IH. Qed.

Lemma foldl_insert_map (g : gmap Z PerShardCheckpoint) : foldl (fun g e => <[e.1 := e.2]> g) ∅ (map_to_list g) = g.
Proof.
  assert (forall l : list (Z * PerShardCheckpoint), foldl (fun g e => <[e.1 := e.2]> g) (∅ : gmap Z PerShardCheckpoint) (reverse l) = list_to_map l) as Hl.
  { induction l as [|[k v] l IH]; [done|]. by rewrite reverse_cons, foldl_snoc, IH. }
  rewrite <-(reverse_involutive (map_to_list g)), Hl. rewrite <-(list_to_map_to_list g) at 2.
  apply list_to_map_proper; [|apply reverse_Permutation].
  rewrite fmap_reverse, reverse_Permutation. apply NoDup_fst_map_to_list.
Qed.

Lemma close_round_shards r confirmed :
  manifest (close_round r confirmed) = {| cc_checkpoint_id := round_id r; cc_shards := confirmed |}.
Proof. unfold close_round. cbn [manifest]. rewrite foldl_record_shard. cbn. by rewrite foldl_insert_map. Qed.

Section invariant.
Context (sh : list Z).

(** [closed] is the history of closed rounds, by id. *)
Implicit Types closed : gmap Z ClusterCheckpoint.

Record inner_ok (i : CoordinatorInner) closed : Prop := {
  io_shards : shards i = sh;
  io_next : 1 <= next_checkpoint_id i;
  io_round r : in_progress i = Some r -> round_ok sh (next_checkpoint_id i) r /\ closed !! round_id r = None;
  io_closed : map_Forall (fun id m => cc_checkpoint_id m = id /\ manifest_ok sh (next_checkpoint_id i) m) closed;
  io_committed : map_Forall (fun id m => closed !! id = Some m) (committed i)
}.

Definition closed_ok closed (m : ClusterCheckpoint) : Prop := closed !! cc_checkpoint_id m = Some m.
Definition take_ok closed (m : ClusterCheckpoint) (c : gmap Z ChangelogCheckpointContribution) : Prop :=
  closed_ok closed m /\ contributions_ok sh (cc_checkpoint_id m) c.

Definition task_ok (s : csystem) closed (t : nat) (k : task) : Prop :=
  match k with
  | Acquiring id next _ _ =>
    lock s = Some t /\ in_progress (inner s) = None /\ id = next_checkpoint_id (inner s) /\ next = id + 1
  | RollingBack _ => lock s = Some t
  | Releasing _ c | Committing _ c => take_ok closed (manifest c) (contributions c)
  | Inserting m => closed_ok closed m
  | _ => True
  end.

Record cinv (s : csystem) closed : Prop := {
  ci_inner : inner_ok (inner s) closed;
  ci_log : Forall (fun e => take_ok closed e.1 e.2) (log s);
  ci_tasks t k : tasks s !! t = Some k -> task_ok s closed t k
}.

Lemma take_ok_mono closed closed' m c : closed ⊆ closed' -> take_ok closed m c -> take_ok closed' m c.
Proof. intros Hsub [Hm Hc]. split; [|done]. by eapply lookup_weaken. Qed.

(** With the lock free no task relies on the coordinator's state. *)
Lemma task_ok_free s s' closed closed' t k :
  lock s = None -> closed ⊆ closed' -> task_ok s closed t k -> task_ok s' closed' t k.
Proof.
  intros Hl Hsub. destruct k; cbn; rewrite ?Hl; try done.
  - by intros [? _].
  - by apply take_ok_mono.
  - by apply take_ok_mono.
  - intros Hm. by eapply lookup_weaken.
Qed.

(** The tasks after one of them has moved. *)
Lemma tasks_moved s s' closed closed' t k :
  (forall t' k', tasks s !! t' = Some k' -> t' <> t -> task_ok s' closed' t' k') -> task_ok s' closed' t k ->
  tasks s' = <[t := k]> (tasks s) -> forall t' k', tasks s' !! t' = Some k' -> task_ok s' closed' t' k'.
Proof.
  intros Ho Ht -> t' k' Hk. destruct (decide (t' = t)) as [->|Hne].
  - destruct (decide (t < length (tasks s))%nat) as [Hlt|Hge].
    + rewrite list_lookup_insert_eq in Hk by done. by injection Hk as <-.
    + apply lookup_lt_Some in Hk. rewrite length_insert in Hk. lia.
  - rewrite list_lookup_insert_ne in Hk by done. by apply Ho.
Qed.

(** A step that moves one task and perhaps the credits. *)
Lemma cinv_go s closed t k u : cinv s closed -> task_ok s closed t k -> cinv (with_credits (go s t k) u) closed.
Proof.
  intros [Hi Hl Ht] Hk. split; [done|done|]. apply (tasks_moved s _ closed closed t k); [|by destruct k|done].
  intros t' k' Hk' _. apply Ht in Hk'. by destruct k'.
Qed.

Lemma cinv_move s closed t k : cinv s closed -> task_ok s closed t k -> cinv (go s t k) closed.
Proof. intros Hi Hk. exact (cinv_go s closed t k (credits_used s) Hi Hk). Qed.

(** A step under the free lock that changes the coordinator. *)
Lemma cinv_inner s closed closed' t k i u :
  cinv s closed -> lock s = None -> closed ⊆ closed' -> inner_ok i closed' ->
  (forall s', lock s' = None -> task_ok s' closed' t k) ->
  cinv (with_credits (with_inner (go s t k) i) u) closed'.
Proof.
  intros [Hi Hl Ht] Hlk Hsub Hi' Hk. split; [done| |].
  - eapply Forall_impl; [exact Hl|]. intros e. by apply take_ok_mono.
  - apply (tasks_moved s _ closed closed' t k); [|by apply Hk|done].
    intros t' k' Hk' _. eapply task_ok_free; [exact Hlk|exact Hsub|by apply Ht].
Qed.

Lemma inner_ok_round i closed r : inner_ok i closed ->
  (forall r', r = Some r' -> round_ok sh (next_checkpoint_id i) r' /\ closed !! round_id r' = None) ->
  inner_ok (set_round i r) closed.
Proof. intros [H1 H2 H3 H4 H5] Hr. by split. Qed.

Lemma inner_ok_committed i closed c : inner_ok i closed ->
  map_Forall (fun id m => closed !! id = Some m) c -> inner_ok (set_committed i c) closed.
Proof. intros [H1 H2 H3 H4 H5] Hc. by split. Qed.

Lemma gc_before_ok closed latest retention c : map_Forall (fun id m => closed !! id = Some m) c ->
  map_Forall (fun id m => closed !! id = Some m) (gc_before latest retention c).
Proof.
  intros Hc. unfold gc_before. case_match; [|done]. intros id m [Hm _]%map_lookup_filter_Some. by apply Hc.
Qed.

Lemma stage_contribution_ok i i' closed shard psc c : inner_ok i closed -> stage_contribution i shard psc c = Ok i' -> inner_ok i' closed.
Proof.
  intros Hi. unfold stage_contribution. destruct (in_progress i) as [r|] eqn:Hr; [|done].
  destruct (io_round _ _ Hi r Hr) as [(Hid & Hcov & Hconf & Hcon) Hcl].
  case_bool_decide as Hp; [|done]. cbn [negb]. destruct (Z.eqb_spec (psc_checkpoint_id psc) (round_id r)); [|done].
  cbn [negb]. destruct (Z.eqb_spec (cb_checkpoint_id c) (round_id r)) as [Ec|]; [|done]. cbn [negb]. intros [= <-].
  apply inner_ok_round; [done|]. intros r' [= <-]. split; [|done]. split; [done|]. split; [done|]. split; [done|].
  apply map_Forall_insert_2; [|done]. split; [|done]. apply Hcov. by left.
Qed.

Lemma barrier_ok i i' closed shard id ms : inner_ok i closed -> record_shard_barrier_received i shard id ms = Ok i' -> inner_ok i' closed.
Proof.
  intros Hi. unfold record_shard_barrier_received. destruct (in_progress i) as [r|] eqn:Hr; [|done].
  destruct (io_round _ _ Hi r Hr) as [Hok Hcl]. destruct (negb _); [done|]. destruct (_ && _); [done|]. intros [= <-].
  apply inner_ok_round; [done|]. intros r' [= <-]. done.
Qed.

(** A confirmation keeps the round or closes it with a complete manifest. *)
Lemma record_confirmation_ok i i' closed shard psc o : inner_ok i closed -> record_confirmation i shard psc = Ok (i', o) ->
  match o with
  | None => inner_ok i' closed
  | Some c => exists closed', closed ⊆ closed' /\ inner_ok i' closed' /\ take_ok closed' (manifest c) (contributions c)
  end.
Proof.
  intros Hi. unfold record_confirmation. destruct (in_progress i) as [r|] eqn:Hr; [|done].
  destruct (io_round _ _ Hi r Hr) as [(Hid & Hcov & Hconf & Hcon) Hcl].
  destruct (Z.eqb_spec (psc_checkpoint_id psc) (round_id r)) as [Epsc|]; [|done]. cbn [negb].
  destruct (negb (bool_decide (shard ∈ pending r)) && negb (bool_decide (is_Some (confirmations r !! shard)))) eqn:Hkn; [done|].
  assert (shard ∈ sh) as Hsh by (apply Hcov; repeat case_bool_decide; auto; done).
  set (conf := <[shard := psc]> (confirmations r)).
  assert (forall x, x ∈ sh <-> x ∈ base.filter (fun s => s <> shard) (pending r) \/ is_Some (conf !! x)) as Hcov'.
  { intros x. rewrite list_elem_of_filter. unfold conf. destruct (decide (x = shard)) as [->|Hne].
    - rewrite lookup_insert_eq. split; [by eauto|done].
    - rewrite lookup_insert_ne, Hcov by done. tauto. }
  assert (map_Forall (fun _ p => psc_checkpoint_id p = round_id r) conf) as Hconf' by (by apply map_Forall_insert_2).
  destruct (base.filter (fun s => s <> shard) (pending r)) as [|p ps] eqn:Hf; intros [= <- <-].
  - rewrite close_round_shards. set (m := {| cc_checkpoint_id := round_id r; cc_shards := conf |}).
    assert (manifest_ok sh (next_checkpoint_id i) m) as Hm.
    { split; [done|]. split; [|done]. intros x. rewrite Hcov'. split; [by right|]. intros [[]%not_elem_of_nil|]; done. }
    exists (<[round_id r := m]> closed). split_and!; [by apply insert_subseteq| |split; [apply lookup_insert_eq|done]].
    destruct Hi as [H1 H2 H3 H4 H5]. split; cbn; try done.
    + by apply map_Forall_insert_2.
    + intros id m' Hm'. specialize (H5 id m' Hm'). rewrite lookup_insert_ne; [done|]. intros <-. by rewrite Hcl in H5.
  - apply inner_ok_round; [done|]. intros r' [= <-]. done.
Qed.

Lemma begin_install_ok i closed now acquired : inner_ok i closed -> in_progress i = None ->
  inner_ok (begin_install i (next_checkpoint_id i) (next_checkpoint_id i + 1) now acquired) closed.
Proof.
  intros [H1 H2 H3 H4 H5] Hn.
  assert (forall m, manifest_ok sh (next_checkpoint_id i) m -> manifest_ok sh (next_checkpoint_id i + 1) m) as Hmono
    by (intros m ([? ?] & ?); split; [lia|done]).
  split; cbn; [done|lia| |intros id m Hm; destruct (H4 id m Hm) as [? ?]; auto|done].
  intros r [= <-]. split.
  - split_and!; cbn; [lia|lia| |done|done]. intros x. rewrite H1, lookup_empty. split; [by left|]. intros [?|[? ?]]; done.
  - destruct (closed !! round_id _) as [m|] eqn:E; [|done]. cbn in E. destruct (H4 _ _ E) as [Em ([_ Hlt] & _)]. lia.
Qed.

Lemma unlock_tasks s closed t k i : cinv s closed -> lock s = Some t ->
  (forall s', task_ok s' closed t k) -> inner_ok i closed ->
  cinv (with_lock (with_inner (go s t k) i) None) closed.
Proof.
  intros [Hi Hl Ht] Hlk Hk Hi'. split; [done|done|]. apply (tasks_moved s _ closed closed t k); [|apply Hk|done].
  intros t' k' Hk' Hne. apply Ht in Hk'. destruct k'; cbn in *; try done; rewrite Hlk in Hk'.
  - destruct Hk' as [[= ->] _]. done.
  - by injection Hk' as ->.
Qed.

Lemma cstep_inv max s s' closed : cstep max s s' -> cinv s closed -> exists closed', cinv s' closed'.
Proof.
  intros Hst Hi. destruct Hst as
    [s k Hc|s t now held Hk Hl He|s t now e Hk Hl He|s t now id next n Hk Hl He|s t id next todo acq u Hk Ha|s t id next todo acq e Hk Ha
    |s t acq Hk|s t Hk|s t id next acq now Hk|s t held Hk|s t Hk Hl|s t shard psc c i Hk Hl He|s t shard psc c e Hk Hl He
    |s t ch shard psc i Hk Hl He|s t ch shard psc i c Hk Hl He|s t ch shard psc e Hk Hl He|s t ch c rest Hk Hr|s t ch c Hk Hr
    |s t c Hk Hne|s t ch c ok Hk Hsz|s t m Hk Hl|s shard id ms i Hl He|s Hl].
  1:{ exists closed. destruct Hi as [Hi Hlg Ht]. split; [done|done|]. intros t' k' Hk'.
      apply lookup_app_Some in Hk' as [Hk'|[_ Hk']]; [apply Ht in Hk'; by destruct k'|].
      apply list_lookup_singleton_Some in Hk' as [_ <-]. by destruct k. }
  all: try (exists closed; apply cinv_move; [exact Hi|exact I]).
  all: try (pose proof (ci_tasks _ _ Hi _ _ Hk) as Htk; cbn in Htk).
  - unfold begin_enter in He. destruct (in_progress (inner s)) as [r|] eqn:Hr; [by destruct (_ <? _)|].
    destruct (checked_next _) as [nx|] eqn:En; [|done]. injection He as <- <- <-. exists closed.
    unfold checked_next in En. apply checked_Some in En as [-> _].
    destruct Hi as [Hi Hlg Ht]. split; [done|done|].
    apply (tasks_moved s _ closed closed t (Acquiring (next_checkpoint_id (inner s)) (next_checkpoint_id (inner s) + 1) (length (shards (inner s))) 0)); [|done|done].
    intros t' k' Hk' _. eapply task_ok_free; [exact Hl|done|by apply Ht].
  - exists closed. by apply cinv_go.
  - exists closed. apply (cinv_go s closed t (RollingBack acq) (credits_used s)); [done|apply Htk].
  - exists closed. by apply cinv_go.
  - exists closed. apply (unlock_tasks s closed t Ended (inner s)); [done|done|done|apply Hi].
  - exists closed. destruct Htk as (Hlk & Hn & -> & ->). apply unlock_tasks; [done|done|done|]. apply begin_install_ok; [apply Hi|done].
  - exists closed. by apply cinv_go.
  - exists closed. apply (cinv_inner s closed closed t Ended (set_round (inner s) None) (credits_used s)); try done.
    apply inner_ok_round; [apply Hi|done].
  - exists closed. apply (cinv_inner s closed closed t (Record_ true shard psc) i (credits_used s)); try done.
    by eapply stage_contribution_ok; [apply Hi|].
  - exists closed. apply cinv_inner with closed; try done. exact (record_confirmation_ok _ _ _ _ _ None (ci_inner _ _ Hi) He).
  - destruct (record_confirmation_ok _ _ _ _ _ (Some c) (ci_inner _ _ Hi) He) as (closed' & Hsub & Hi' & Htk').
    exists closed'. apply cinv_inner with closed; try done.
  - exists closed. by apply cinv_go.
  - exists closed. apply (cinv_go s closed t (Committing ch c) (credits_used s)); done.
  - exists closed. destruct Hi as [Hi Hlg Ht]. split; [done|apply Forall_app; split; [done|by constructor]|].
    apply (tasks_moved s _ closed closed t (if ok then Inserting (manifest c) else Ended)); [|by destruct ok; [apply Htk|]|done].
    intros t' k' Hk' _. apply Ht in Hk'. by destruct k'.
  - exists closed. apply (cinv_inner s closed closed t Ended (commit_insert (inner s) m) (credits_used s)); try done.
    apply inner_ok_committed; [apply Hi|].
    apply gc_before_ok, map_Forall_insert_2; [done|apply (io_committed _ _ (ci_inner _ _ Hi))].
  - exists closed. destruct Hi as [Hi Hlg Ht]. split; [by eapply barrier_ok|done|].
    intros t' k' Hk'. eapply task_ok_free; [exact Hl|done|by apply Ht].
  - exists closed. destruct Hi as [Hi Hlg Ht]. split; [|done|].
    + cbn. unfold gc_old_checkpoints. case_bool_decide; [done|]. apply inner_ok_committed; [done|]. apply gc_before_ok, Hi.
    + intros t' k' Hk'. eapply task_ok_free; [exact Hl|done|by apply Ht].
Qed.
End invariant.

(* ------------------------------------------------------------------ *)
(** ** Committed checkpoints *)

(** What is committed, or about to be, went through a callback. *)
Record logged (s : csystem) : Prop := {
  lg_tasks t m : tasks s !! t = Some (Inserting m) -> m ∈ (log s).*1;
  lg_committed id m : committed (inner s) !! id = Some m -> cc_checkpoint_id m = id /\ m ∈ (log s).*1
}.

Lemma gc_before_lookup latest retention c id m : gc_before latest retention c !! id = Some m -> c !! id = Some m.
Proof. unfold gc_before. case_match; [|done]. by intros [? _]%map_lookup_filter_Some. Qed.

Lemma logged_go s s' t k : logged s -> tasks s' = <[t := k]> (tasks s) -> committed (inner s') = committed (inner s) ->
  (forall m, m ∈ (log s).*1 -> m ∈ (log s').*1) -> (forall m, k = Inserting m -> m ∈ (log s').*1) -> logged s'.
Proof.
  intros [Ht Hc] Et Ec Hlog Hk. split.
  - intros t' m. rewrite Et. intros Hl. destruct (decide (t' = t)) as [->|Hne].
    + destruct (tasks s !! t) as [k0|] eqn:E0.
      * rewrite list_lookup_insert_eq in Hl by (by eapply lookup_lt_Some). injection Hl as ->. by apply Hk.
      * apply lookup_lt_Some in Hl. rewrite length_insert in Hl. by apply lookup_ge_None in E0; lia.
    + rewrite list_lookup_insert_ne in Hl by done. by eapply Hlog, Ht.
  - intros id m. rewrite Ec. intros Hm. destruct (Hc id m Hm). auto.
Qed.

Lemma inner_calls_committed i : 
  (forall shard psc c i', stage_contribution i shard psc c = Ok i' -> committed i' = committed i) /\
  (forall shard psc i' o, record_confirmation i shard psc = Ok (i', o) -> committed i' = committed i) /\
  (forall shard id ms i', record_shard_barrier_received i shard id ms = Ok i' -> committed i' = committed i).
Proof.
  unfold stage_contribution, record_confirmation, record_shard_barrier_received. split_and!; intros *; repeat case_match; try done;
    intros E; injection E; intros; by subst.
Qed.

Lemma logged_step max s s' : cstep max s s' -> logged s -> logged s'.
Proof.
  intros Hst Hlg. pose proof (inner_calls_committed (inner s)) as (Hstage & Hrec & Hbar).
  destruct Hst as
    [s k Hc|s t now held Hk Hl He|s t now e Hk Hl He|s t now id next n Hk Hl He|s t id next todo acq u Hk Ha|s t id next todo acq e Hk Ha
    |s t acq Hk|s t Hk|s t id next acq now Hk|s t held Hk|s t Hk Hl|s t shard psc c i Hk Hl He|s t shard psc c e Hk Hl He
    |s t ch shard psc i Hk Hl He|s t ch shard psc i c Hk Hl He|s t ch shard psc e Hk Hl He|s t ch c rest Hk Hr|s t ch c Hk Hr
    |s t c Hk Hne|s t ch c ok Hk Hsz|s t m Hk Hl|s shard id ms i Hl He|s Hl].
  all: try (eapply logged_go; [exact Hlg|reflexivity|reflexivity|done|done]).
  - destruct Hlg as [Ht Hcm]. split; [|done]. intros t m [?|[_ [_ E]%list_lookup_singleton_Some]]%lookup_app_Some; [by eapply Ht|].
    by subst k.
  - eapply logged_go; [exact Hlg|reflexivity|by eapply Hstage|done|done].
  - eapply logged_go; [exact Hlg|reflexivity|by eapply Hrec|done|done].
  - eapply logged_go; [exact Hlg|reflexivity|by eapply Hrec|done|done].
  - eapply logged_go; [exact Hlg|reflexivity|done| |].
    + intros m Hm. cbn. rewrite fmap_app. apply elem_of_app. by left.
    + intros m Hm. cbn. rewrite fmap_app. apply elem_of_app. right. destruct ok; [|done]. injection Hm as <-. by left.
  - destruct Hlg as [Ht Hcm]. split.
    + intros t' m' Hk'. cbn in Hk'. destruct (decide (t' = t)) as [->|Hne].
      * rewrite list_lookup_insert_eq in Hk' by (by eapply lookup_lt_Some). done.
      * rewrite list_lookup_insert_ne in Hk' by done. by eapply Ht.
    + intros id m' Hm'%gc_before_lookup. apply lookup_insert_Some in Hm' as [[<- <-]|[_ Hm']]; [|by apply Hcm].
      split; [done|]. by eapply Ht.
  - destruct Hlg as [Ht Hcm]. split; [done|]. intros id' m Hm. cbn in Hm. rewrite (Hbar _ _ _ _ He) in Hm. by apply Hcm.
  - destruct Hlg as [Ht Hcm]. split; [done|]. intros id m Hm. apply Hcm. cbn in Hm. unfold gc_old_checkpoints in Hm.
    case_bool_decide; [done|]. by apply gc_before_lookup in Hm.
Qed.

Lemma latest_insert (c : gmap Z ClusterCheckpoint) k m : c !! k = None -> latest_id (<[k := m]> c) = Z.max k (latest_id c).
Proof.
  intros Hk. unfold latest_id. apply (map_fold_insert_L (fun k _ acc => Z.max k acc)); [|done]. intros. lia.
Qed.

Lemma latest_nonneg c : 0 <= latest_id c.
Proof. induction c as [|k m c Hk IH] using map_ind; [done|]. rewrite latest_insert by done. lia. Qed.

Lemma latest_ge c k m : c !! k = Some m -> k <= latest_id c.
Proof.
  revert k m. induction c as [|k' m' c Hk IH] using map_ind; intros k m; [by rewrite lookup_empty|].
  rewrite latest_insert by done. intros [[-> _]|[_ Hl]]%lookup_insert_Some; [lia|]. apply IH in Hl. lia.
Qed.

Lemma latest_present c : latest_id c = 0 \/ is_Some (c !! latest_id c).
Proof.
  induction c as [|k m c Hk IH] using map_ind; [by left|]. rewrite latest_insert by done.
  destruct (Z.le_gt_cases (latest_id c) k) as [Hle|Hgt].
  - right. rewrite Z.max_l, lookup_insert_eq by done. eauto.
  - rewrite Z.max_r by lia. destruct IH as [?|IH]; [by left|right]. rewrite lookup_insert_ne by lia. done.
Qed.

Lemma latest_mono c c' : (is_Some (c !! latest_id c) -> exists k, latest_id c <= k /\ is_Some (c' !! k)) -> latest_id c <= latest_id c'.
Proof.
  intros Hk. destruct (latest_present c) as [-> |Hs]; [apply latest_nonneg|].
  destruct (Hk Hs) as (k & Hle & [m Hm]). apply latest_ge in Hm. lia.
Qed.

Lemma gc_keeps latest retention c k : 0 <= retention -> latest <= k -> is_Some (c !! k) -> is_Some (gc_before latest retention c !! k).
Proof.
  intros Hr Hk [m Hm]. unfold gc_before. case_match; [|eauto]. exists m. apply map_lookup_filter_Some. split; [done|]. cbn. lia.
Qed.

(** Neither a commit nor a clean-up loses the latest checkpoint. *)
Lemma latest_commit i m : 0 <= retention_horizon i -> latest_id (committed i) <= latest_id (committed (commit_insert i m)).
Proof.
  intros Hr. apply latest_mono. intros Hs. cbn. exists (Z.max (latest_id (committed i)) (cc_checkpoint_id m)). split; [lia|].
  apply gc_keeps; [done|lia|]. destruct (Z.le_gt_cases (latest_id (committed i)) (cc_checkpoint_id m)).
  - rewrite Z.max_r, lookup_insert_eq by done. eauto.
  - rewrite Z.max_l, lookup_insert_ne by lia. done.
Qed.

Lemma latest_gc i : 0 <= retention_horizon i -> latest_id (committed i) <= latest_id (committed (gc_old_checkpoints i)).
Proof.
  intros Hr. unfold gc_old_checkpoints. case_bool_decide; [lia|]. apply latest_mono. intros Hs. exists (latest_id (committed i)).
  split; [lia|]. cbn. apply gc_keeps; [done|lia|done].
Qed.

Lemma inner_calls_config i :
  (forall shard psc c i', stage_contribution i shard psc c = Ok i' -> retention_horizon i' = retention_horizon i) /\
  (forall shard psc i' o, record_confirmation i shard psc = Ok (i', o) -> retention_horizon i' = retention_horizon i) /\
  (forall shard id ms i', record_shard_barrier_received i shard id ms = Ok i' -> retention_horizon i' = retention_horizon i).
Proof.
  unfold stage_contribution, record_confirmation, record_shard_barrier_received. split_and!; intros *; repeat case_match; try done;
    intros E; injection E; intros; by subst.
Qed.

Lemma cstep_bounds max s s' : cstep max s s' -> 0 <= retention_horizon (inner s) -> (credits_used s <= max)%nat ->
  retention_horizon (inner s') = retention_horizon (inner s) /\ (credits_used s' <= max)%nat /\
  latest_id (committed (inner s)) <= latest_id (committed (inner s')).
Proof.
  intros Hst Hr Hu. pose proof (inner_calls_committed (inner s)) as (Hstage & Hrec & Hbar).
  pose proof (inner_calls_config (inner s)) as (Hstage' & Hrec' & Hbar').
  assert (release (credits_used s) <= max)%nat by (unfold release; lia).
  destruct Hst; cbn; try (split_and!; [done|lia|lia]).
  - split_and!; [done| |lia]. unfold acquire in *. destruct (Nat.leb_spec max (credits_used s)); [done|].
    match goal with E : Ok _ = Ok _ |- _ => injection E as <- end. lia.
  - split_and!; [by eapply Hstage'|done|]. match goal with E : stage_contribution _ _ _ _ = _ |- _ => rewrite (Hstage _ _ _ _ E) end. lia.
  - split_and!; [by eapply Hrec'|done|]. match goal with E : record_confirmation _ _ _ = _ |- _ => rewrite (Hrec _ _ _ _ E) end. lia.
  - split_and!; [by eapply Hrec'|done|]. match goal with E : record_confirmation _ _ _ = _ |- _ => rewrite (Hrec _ _ _ _ E) end. lia.
  - split_and!; [done|done|]. by apply latest_commit.
  - split_and!; [by eapply Hbar'|done|]. match goal with E : record_shard_barrier_received _ _ _ _ = _ |- _ => rewrite (Hbar _ _ _ _ E) end. lia.
  - split_and!; [unfold gc_old_checkpoints; by case_bool_decide|done|]. by apply latest_gc.
Qed.

(** C5: Checkpoints are complete and consistent cuts.  In any interleaving of
    calls that begin rounds, report barriers, stage changelog contributions,
    confirm shards, commit and clean up, with rounds timing out at any moment and
    commits failing: every manifest handed to a commit callback names exactly the
    registered shards, each with a shard checkpoint taken for that manifest's id;
    contributions belong to the same round; there is at most one manifest per id;
    a committed checkpoint was handed to a callback first; the latest committed
    id never goes back; and never more than the configured credits are in use. *)
Theorem checkpoint_manifests_complete (max_credits : nat) (sh : list Z) (retention : Z) (s : csystem) :
  0 <= retention -> rtc (cstep max_credits) (csystem_init sh retention) s ->
  Forall (fun e => manifest_ok sh (next_checkpoint_id (inner s)) e.1 /\ contributions_ok sh (cc_checkpoint_id e.1) e.2) (log s) /\
  (forall e e', e ∈ log s -> e' ∈ log s -> cc_checkpoint_id e.1 = cc_checkpoint_id e'.1 -> e.1 = e'.1) /\
  (forall id m, committed (inner s) !! id = Some m -> cc_checkpoint_id m = id /\ m ∈ (log s).*1) /\
  (credits_used s <= max_credits)%nat /\
  (forall s', cstep max_credits s s' -> latest_id (committed (inner s)) <= latest_id (committed (inner s'))).
Proof.
  intros Hr Hrun.
  assert (exists closed, cinv sh s closed /\ logged s /\ 0 <= retention_horizon (inner s) /\ (credits_used s <= max_credits)%nat)
    as (closed & [Hi Hlg Ht] & [_ Hc] & Hret & Hu).
  { remember (csystem_init sh retention) as s0 eqn:E0.
    assert (exists closed, cinv sh s0 closed /\ logged s0 /\ 0 <= retention_horizon (inner s0) /\ (credits_used s0 <= max_credits)%nat) as H0.
    { subst s0. exists ∅. split_and!; [|by split|done|cbn; lia]. by split. }
    clear E0. induction Hrun as [|s1 s2 s3 Hst _ IH]; [done|]. apply IH. destruct H0 as (closed & Hi & Hlg & Hret & Hu).
    destruct (cstep_inv sh _ _ _ _ Hst Hi) as [closed' Hi']. destruct (cstep_bounds _ _ _ Hst Hret Hu) as (-> & Hu' & _).
    exists closed'. split_and!; [done|by eapply logged_step|done|done]. }
  split_and!; [| |done|done|intros s' Hst; by apply (cstep_bounds _ _ _ Hst Hret Hu)].
  - eapply Forall_impl; [exact Hlg|]. intros e [Hm Hcb]. split; [|done]. apply (io_closed _ _ _ Hi) in Hm as [_ ?]. done.
  - rewrite Forall_forall in Hlg. intros e e' He He' E. destruct (Hlg e He) as [Hm _], (Hlg e' He') as [Hm' _].
    unfold closed_ok in *. rewrite E, Hm' in Hm. by injection Hm.
Qed.

Definition psc (id shard_cp : Z) : PerShardCheckpoint :=
  {| psc_checkpoint_id := id; shard_checkpoint_id := shard_cp; snapshot_id := None |}.

(** A call, and a step of a task, in a concrete run. *)
Ltac call k := eapply rtc_l; [apply (C_call _ _ k I)|].
Tactic Notation "cstep_by" uconstr(c) := eapply rtc_l; [eapply c; reflexivity|].

Lemma two_shard_run : exists s m, rtc (cstep 64) (csystem_init [3; 4] 3) s /\ committed (inner s) !! 1 = Some m.
Proof.
  do 2 eexists. split.
  - call Begin. eapply rtc_l; [apply (C_begin_start _ _ 0 10 1 2 2); reflexivity|].
    cstep_by (C_acquire 64 _ 0%nat). cstep_by (C_acquire 64 _ 0%nat).
    eapply rtc_l; [apply (C_install 64 _ 0%nat 1 2 2 10); reflexivity|].
    call (Record_ false 3 (psc 1 70)). cstep_by (C_record 64 _ 1%nat).
    call (Record_ false 4 (psc 1 80)). cstep_by (C_record_last 64 _ 2%nat).
    cstep_by (C_released 64 _ 2%nat).
    eapply rtc_l; [eapply (C_commit 64 _ 2%nat false _ true); [reflexivity|done]|].
    cstep_by (C_insert 64 _ 2%nat). apply rtc_refl.
  - reflexivity.
Qed.

Lemma checkpoint_manifests_complete_witness :
  exists s m, rtc (cstep 64) (csystem_init [3; 4] 3) s /\ committed (inner s) !! 1 = Some m /\ m ∈ (log s).*1.
Proof.
  destruct two_shard_run as (s & m & Hrun & Hm). exists s, m. split; [exact Hrun|]. split; [exact Hm|].
  destruct (checkpoint_manifests_complete 64 [3; 4] 3 s ltac:(lia) Hrun) as (_ & _ & Hc & _). apply (Hc 1 m Hm).
Defined.

(** C38: A late timeout handler cancels the next round.  Two callers can find the
    same round timed out; each then gives up the lock, releases its credits and,
    with the lock again, clears the round in progress, whichever it is.  So a
    round that was begun properly in between, and has not timed out, disappears:
    its credits are gone and its shards' confirmations are refused. *)
Theorem late_timeout_cancels_next_round :
  exists s s' r, rtc (cstep 64) (csystem_init [3] 3) s /\
    in_progress (inner s) = Some r /\ round_id r = 2 /\ begin_enter (inner s) (started_at r) = BError AlignmentTimeout /\
    cstep 64 s s' /\ in_progress (inner s') = None /\ credits_used s' = 0%nat /\
    record_confirmation (inner s') 3 (psc 2 70) = Err (UnknownShard 3).
Proof.
  do 3 eexists. split.
  - call Begin. eapply rtc_l; [apply (C_begin_start _ _ 0 0 1 2 1); reflexivity|].
    cstep_by (C_acquire 64 _ 0%nat). eapply rtc_l; [apply (C_install 64 _ 0%nat 1 2 1 0); reflexivity|].
    call Begin. eapply rtc_l; [apply (C_begin_timed_out _ _ 1 61 1); reflexivity|].
    call Begin. eapply rtc_l; [apply (C_begin_timed_out _ _ 2 61 1); reflexivity|].
    cstep_by (C_drain 64 _ 1%nat). cstep_by (C_drained 64 _ 1%nat).
    call Begin. eapply rtc_l; [apply (C_begin_start _ _ 3 62 2 3 1); reflexivity|].
    cstep_by (C_acquire 64 _ 3%nat). eapply rtc_l; [apply (C_install 64 _ 3%nat 2 3 1 62); reflexivity|].
    cstep_by (C_drain 64 _ 2%nat). apply rtc_refl.
  - split; [reflexivity|]. split; [reflexivity|]. split; [reflexivity|].
    split; [apply (C_drained 64 _ 2%nat); reflexivity|]. split; [reflexivity|]. split; reflexivity.
Qed.
