(* ===== verification/Handoff.v ===== *)
(** * Online bucket handoff between shards ([rockstream-control/src/migration.rs],
      [rockstream-types/src/migration.rs], [rockstream-runtime/src/migration.rs])

    A migration moves a set of buckets from donor shards to a recipient: a
    persisted [MigrationRecord] goes through a state machine, the donors'
    checkpoints are copied page by page, writes are routed to one or both shards,
    the two sides are compared, and the donor's rows are deleted.  The methods
    are programs of the monad [M], which threads the record, the record store,
    the shards and the checkpoint coordinator, and can fail or panic.

    Clock readings and elapsed times are arguments.  The object store and the
    JSON codec of the record are the class [RecordStore]; a path of the store is
    the migration it belongs to.  Audit entries, error texts, metrics and the
    floating-point estimate of the remaining time are left out. *)
From Stdlib Require Import Ascii String.
From stdpp Require Import base tactics list gmap numbers option fin_maps sorting functions.
From Stdlib Require Import ZArith Lia ZifyBool.
From stdpp Require Import list.
From S2P Require Import Progress ShardLeases Checkpoints LeaseStore Prelude Kernels Laws MergeOps Keys Store ShardDb Paging Reader.
Local Open Scope Z_scope.

(* ------------------------------------------------------------------ *)
(** ** The record *)

Inductive MigrationState : Type :=
| Planned | Snapshotting | Copying | DualWriting | CatchingUp | FencingOld | Cutover | Verifying
| GcEligible | Done_ | Aborted | Failed.

#[global] Instance MigrationState_eq_dec : EqDecision MigrationState.
Proof. solve_decision. Defined.

Definition MIGRATION_RECORD_VERSION : Z := 2.

(** The fields of the record fixed when it is made. *)
Record MigrationPlan : Type := {
  record_version : Z;
  migration_id : bytes;
  donor_shards : list Z;
  recipient_shard : Z;
  buckets : gset Z;
  planned_frontier : Epoch;
  target_bucket_map_version : Z;
  migration_epoch : Epoch;
  created_at_ms : Z;
  total_bytes : option Z;
  total_rows : option Z;
  estimated_rows : option Z
}.

(** The fields that follow the snapshot and the copy. *)
Record CopyProgress : Type := {
  donor_checkpoints : gmap Z Z;
  donor_checkpoint_snapshots : gmap Z bytes;
  copy_cursors : gmap Z Z;
  copy_intents : gmap Z Z;
  checkpoint_intents : gset Z;
  cluster_checkpoint_id : option Z;
  copied_bytes : option Z;
  copied_rows : option Z
}.

Record FrontierFields : Type := {
  donor_frontiers : gmap Z Epoch;
  donor_frontier : option Epoch;
  recipient_frontier : option Epoch;
  lag : option Epoch
}.

Record MigrationRecord : Type := {
  plan : MigrationPlan;
  state : MigrationState;
  copy : CopyProgress;
  frontiers : FrontierFields;
  cutover_epoch : option Epoch;
  verification_progress : option Z;
  cleanup_intent : bool;
  updated_at_ms : Z
}.

Definition record_new (now : Z) (id : bytes) (donors : list Z) (recipient : Z) (bs : gset Z)
    (frontier : Epoch) (version : Z) : MigrationRecord := {|
  plan := {| record_version := MIGRATION_RECORD_VERSION; migration_id := id; donor_shards := donors;
    recipient_shard := recipient; buckets := bs; planned_frontier := frontier;
    target_bucket_map_version := version; migration_epoch := frontier; created_at_ms := now;
    total_bytes := None; total_rows := None; estimated_rows := None |};
  state := Planned;
  copy := {| donor_checkpoints := ∅; donor_checkpoint_snapshots := ∅; copy_cursors := ∅; copy_intents := ∅;
    checkpoint_intents := ∅; cluster_checkpoint_id := None; copied_bytes := None; copied_rows := None |};
  frontiers := {| donor_frontiers := ∅; donor_frontier := None; recipient_frontier := None; lag := None |};
  cutover_epoch := None; verification_progress := None; cleanup_intent := false; updated_at_ms := now
|}.

Definition set_copy (r : MigrationRecord) (c : CopyProgress) : MigrationRecord := {|
  plan := plan r; state := state r; copy := c; frontiers := frontiers r; cutover_epoch := cutover_epoch r;
  verification_progress := verification_progress r; cleanup_intent := cleanup_intent r; updated_at_ms := updated_at_ms r
|}.

Definition set_frontiers (now : Z) (r : MigrationRecord) (f : FrontierFields) : MigrationRecord := {|
  plan := plan r; state := state r; copy := copy r; frontiers := f; cutover_epoch := cutover_epoch r;
  verification_progress := verification_progress r; cleanup_intent := cleanup_intent r; updated_at_ms := now
|}.

Definition set_cutover (r : MigrationRecord) (e : option Epoch) : MigrationRecord := {|
  plan := plan r; state := state r; copy := copy r; frontiers := frontiers r; cutover_epoch := e;
  verification_progress := verification_progress r; cleanup_intent := cleanup_intent r; updated_at_ms := updated_at_ms r
|}.

Definition set_cleanup_intent (r : MigrationRecord) : MigrationRecord := {|
  plan := plan r; state := state r; copy := copy r; frontiers := frontiers r; cutover_epoch := cutover_epoch r;
  verification_progress := verification_progress r; cleanup_intent := true; updated_at_ms := updated_at_ms r
|}.

(** [record_frontiers] after the assignment of [donor_frontiers]. *)
Definition record_frontiers (now : Z) (r : MigrationRecord) (per_donor : gmap Z Epoch)
    (donor recipient : Epoch) : MigrationRecord :=
  set_frontiers now r {| donor_frontiers := per_donor; donor_frontier := Some donor;
    recipient_frontier := Some recipient; lag := Some (saturating_sub donor recipient) |}.

Definition record_verification_progress (now : Z) (r : MigrationRecord) (progress : Z) : MigrationRecord := {|
  plan := plan r; state := state r; copy := copy r; frontiers := frontiers r; cutover_epoch := cutover_epoch r;
  verification_progress := Some (Z.min progress 100); cleanup_intent := cleanup_intent r; updated_at_ms := now
|}.

(** The bytes and rows of [record_progress]. *)
Definition progressed (current total : option Z) (copied : Z) : option Z :=
  Some (Z.min (Z.max (default 0 current) copied) (default u64_max total)).

Definition remaining_of (st : MigrationState) (total copied : option Z) : option Z :=
  match st with
  | Done_ | DualWriting | CatchingUp | FencingOld | Cutover | Verifying | GcEligible => Some 0
  | Aborted | Failed => None
  | Planned | Snapshotting => total
  | Copying =>
      match total, copied with
      | Some total, Some copied => Some (saturating_sub total copied)
      | Some total, None => Some total
      | None, _ => None
      end
  end.

Definition bytes_remaining (r : MigrationRecord) : option Z :=
  remaining_of (state r) (total_bytes (plan r)) (copied_bytes (copy r)).
Definition rows_remaining (r : MigrationRecord) : option Z :=
  remaining_of (state r) (total_rows (plan r)) (copied_rows (copy r)).

Definition is_terminal (st : MigrationState) : bool :=
  match st with Done_ | Aborted | Failed => true | _ => false end.

Definition can_transition_to (st next : MigrationState) : bool :=
  bool_decide (st = next) ||
  match st, next with
  | Planned, Snapshotting | Snapshotting, Copying | Copying, DualWriting | DualWriting, CatchingUp
  | CatchingUp, FencingOld | FencingOld, Cutover | Cutover, Verifying | Verifying, DualWriting
  | Verifying, GcEligible | GcEligible, Done_ => true
  | _, (Aborted | Failed) => negb (is_terminal st)
  | _, _ => false
  end.

(** [None] is [InvalidTransitionError]; the flag tells whether the state changed. *)
Definition apply_transition (now : Z) (r : MigrationRecord) (next : MigrationState)
    : option (MigrationRecord * bool) :=
  if negb (can_transition_to (state r) next) then None
  else if bool_decide (state r = next) then Some (r, false)
  else Some ({| plan := plan r; state := next; copy := copy r; frontiers := frontiers r;
    cutover_epoch :=
      if bool_decide (next = Cutover) && bool_decide (cutover_epoch r = None)
      then Some (planned_frontier (plan r)) else cutover_epoch r;
    verification_progress := verification_progress r; cleanup_intent := cleanup_intent r;
    updated_at_ms := now |}, true).

Definition donor_authoritative (st : MigrationState) : bool :=
  match st with
  | Planned | Snapshotting | Copying | DualWriting | CatchingUp | FencingOld | Aborted | Failed => true
  | _ => false
  end.
Definition recipient_authoritative (st : MigrationState) : bool :=
  match st with Cutover | Verifying | GcEligible | Done_ => true | _ => false end.

(* ------------------------------------------------------------------ *)
(** ** Buckets *)

(** A [BTreeSet] is visited in increasing order. *)
Definition bucket_list (bs : gset Z) : list Z := merge_sort Z.le (elements bs).

Definition bucket_key_prefix (bucket : Z) : bytes := str_bytes "bucket/" ++ display_u64 bucket ++ str_bytes "/".
Definition key_in_buckets (bs : gset Z) (key : bytes) : bool :=
  existsb (fun b => starts_with key (bucket_key_prefix b)) (bucket_list bs).
Definition hex_key (key : bytes) : bytes := concat (hex2 <$> key).

Definition MAX_VERIFY_SCAN_KEYS : nat := 1024.
Definition MAX_CONSUMER_FRONTIERS : nat := 1024.
Definition MAX_VERSION_OBSERVERS : nat := 64.
Definition MAX_ACTIVE_MIGRATIONS : nat := 1024.
Definition MAX_COPY_CHUNK_ROWS : nat := 256.
Definition MAX_COPY_CHUNK_BYTES : Z := 1024 * 1024.

Inductive MigrationError : Type :=
| IllegalTransition (from to : MigrationState)
| StateTimeout (st : MigrationState)
| VerifyWindowFull (used max : nat)
| BucketMapVersionMismatch (component : string) (expected got : Z)
| RegistryFull (used max : nat)
| ReclamationNotReady (st : MigrationState)
| VerificationDiverged (key_hex : bytes)
| MigrationStorage
| MigrationCheckpoint (e : option CoordinatorError).

(** The trackers of consumer frontiers and of observed bucket-map versions. *)
Definition observe (max : nat) (g : gmap string Z) (who : string) (value : Z)
    : result MigrationError (gmap string Z) :=
  if bool_decide (g !! who = None) && (max <=? size g)%nat then Err (RegistryFull (size g) max)
  else Ok (<[who := value]> g).

Definition minimum_frontier (g : gmap string Z) : option Epoch :=
  match map_to_list g with [] => None | (_, e) :: rest => Some (foldr Z.min e rest.*2) end.

Fixpoint all_observed (g : gmap string Z) (expected : Z) (required : list string) : result MigrationError bool :=
  match required with
  | [] => Ok true
  | component :: rest =>
      match g !! component with
      | Some got =>
          if got =? expected then all_observed g expected rest
          else Err (BucketMapVersionMismatch component expected got)
      | None => Ok false
      end
  end.

(* ------------------------------------------------------------------ *)
(** ** The record store *)

Inductive RecordPath : Type := ActivePath (id : bytes) | HistoryPath (id : bytes).

#[global] Instance RecordPath_eq_dec : EqDecision RecordPath.
Proof. solve_decision. Defined.
#[global] Instance RecordPath_countable : Countable RecordPath.
Proof.
  apply (inj_countable' (fun p => match p with ActivePath i => inl i | HistoryPath i => inr i end)
    (fun s => match s with inl i => ActivePath i | inr i => HistoryPath i end)).
  by intros [].
Defined.

Class RecordStore : Type := {
  Objects : Type;
  Json : Type;
  ObjectError : Type;
  is_not_found : ObjectError -> bool;
  stored : Objects -> gmap RecordPath Json;
  object_get : Objects -> RecordPath -> result ObjectError Json;
  object_put : Objects -> RecordPath -> Json -> Objects * result ObjectError unit;
  object_delete : Objects -> RecordPath -> Objects * result ObjectError unit;
  (** the migrations with a file under the active prefix *)
  object_list : Objects -> list (result ObjectError bytes);
  to_vec : MigrationRecord -> Json;
  from_slice : Json -> option MigrationRecord
}.

(** A call that reports an error may or may not have taken effect. *)
Class RecordStoreLaws `{RecordStore} : Prop := {
  from_slice_to_vec r : from_slice (to_vec r) = Some r;
  object_get_ok o p j : object_get o p = Ok j -> stored o !! p = Some j;
  object_get_missing o p e : object_get o p = Err e -> is_not_found e = true -> stored o !! p = None;
  object_put_spec o p j o' r : object_put o p j = (o', r) ->
    stored o' = <[p := j]> (stored o) \/ (stored o' = stored o /\ exists e, r = Err e);
  object_delete_spec o p o' r : object_delete o p = (o', r) ->
    stored o' = delete p (stored o) \/ (stored o' = stored o /\ exists e, r = Err e);
  object_delete_missing o p o' e : object_delete o p = (o', Err e) -> is_not_found e = true -> stored o' !! p = None
}.

Class RecordStoreUp `{RecordStore} : Prop := {
  up_put o p j : exists o', object_put o p j = (o', Ok tt)
}.

Section handoff.
Context `{SlateReader, RecordStore}.

(* ------------------------------------------------------------------ *)
(** ** Programs *)

(** The checkpoint coordinator with its credits, used by one caller at a time. *)
Record Coordinator : Type := { rounds : CoordinatorInner; used_credits : nat; all_credits : nat }.

(** [dbs] gives the open database of every storage path; [rec] is the caller's
    record. *)
Record Cluster : Type := {
  objs : Objects;
  dbs : bytes -> ShardDb;
  ckpt : Coordinator;
  rec : MigrationRecord
}.

Definition M (A : Type) : Type := Cluster -> outcome (Cluster * result MigrationError A).

#[global] Instance M_ret : MRet M := fun _ a s => Done (s, Ok a).
#[global] Instance M_bind : MBind M := fun _ _ f m s =>
  match m s with
  | Panic => Panic
  | Done (s', Err e) => Done (s', Err e)
  | Done (s', Ok a) => f a s'
  end.

Definition throw {A} (e : MigrationError) : M A := fun s => Done (s, Err e).
Definition aborts {A} : M A := fun _ => Panic.
Definition ask : M Cluster := fun s => Done (s, Ok s).
Definition get_rec : M MigrationRecord := fun s => Done (s, Ok (rec s)).
Definition of_outcome {A} (o : outcome A) : M A := fun s => a ← o; Done (s, Ok a).
(** [map_err(MigrationError::Storage)] *)
Definition storage {E A} (r : result E A) : M A := fun s =>
  Done (s, match r with Ok a => Ok a | Err _ => Err MigrationStorage end).

Definition with_objs (s : Cluster) (o : Objects) : Cluster :=
  {| objs := o; dbs := dbs s; ckpt := ckpt s; rec := rec s |}.
Definition with_db (s : Cluster) (path : bytes) (d : ShardDb) : Cluster :=
  {| objs := objs s; dbs := <[path := d]> (dbs s); ckpt := ckpt s; rec := rec s |}.
Definition with_ckpt (s : Cluster) (c : Coordinator) : Cluster :=
  {| objs := objs s; dbs := dbs s; ckpt := c; rec := rec s |}.
Definition with_rec (s : Cluster) (r : MigrationRecord) : Cluster :=
  {| objs := objs s; dbs := dbs s; ckpt := ckpt s; rec := r |}.

Definition set_rec (r : MigrationRecord) : M unit := fun s => Done (with_rec s r, Ok tt).

(** [db.write_batch(batch)] followed by [db.flush()] *)
Definition write_and_flush_shard (path : bytes) (ops : list BatchOp) : M unit := fun s =>
  match write_batch (dbs s path) ops with
  | Panic => Panic
  | Done (d, Err _) => Done (with_db s path d, Err MigrationStorage)
  | Done (d, Ok _) =>
      let '(d', r) := flush d in
      Done (with_db s path d', match r with Ok _ => Ok tt | Err _ => Err MigrationStorage end)
  end.

(* ------------------------------------------------------------------ *)
(** ** [MigrationPersistentStore] *)

Definition save (r : MigrationRecord) : M unit := fun s =>
  let '(o, res) := object_put (objs s) (ActivePath (migration_id (plan r))) (to_vec r) in
  Done (with_objs s o, match res with Ok _ => Ok tt | Err _ => Err MigrationStorage end).

Definition assert_single_authoritative (r : MigrationRecord) : M unit :=
  if negb (Bool.eqb (donor_authoritative (state r)) (recipient_authoritative (state r))) then mret tt else aborts.

(** [MigrationPersistentStore::transition] when [durable],
    [MigrationCoordinator::transition_record] otherwise. *)
Definition transition (durable : bool) (now : Z) (next : MigrationState) : M bool :=
  r ← get_rec;
  match apply_transition now r next with
  | None => throw (IllegalTransition (state r) next)
  | Some (next_record, changed) =>
      assert_single_authoritative next_record;;
      (if durable then save next_record else mret tt);;
      set_rec next_record;;
      mret changed
  end.

Definition archive : M unit := fun s =>
  let r := rec s in
  match object_put (objs s) (HistoryPath (migration_id (plan r))) (to_vec r) with
  | (o, Err _) => Done (with_objs s o, Err MigrationStorage)
  | (o, Ok _) =>
      let '(o', res) := object_delete o (ActivePath (migration_id (plan r))) in
      Done (with_objs s o',
        match res with
        | Ok _ => Ok tt
        | Err e => if is_not_found e then Ok tt else Err MigrationStorage
        end)
  end.

Inductive MigrationLoadError : Type :=
| Missing | Corrupt | Unavailable | UnsupportedVersion (found expected : Z).

Definition load_path (o : Objects) (p : RecordPath) : result MigrationLoadError MigrationRecord :=
  match object_get o p with
  | Err e => Err (if is_not_found e then Missing else Unavailable)
  | Ok j =>
      r ← ok_or (from_slice j) Corrupt;
      if negb (record_version (plan r) =? MIGRATION_RECORD_VERSION)
      then Err (UnsupportedVersion (record_version (plan r)) MIGRATION_RECORD_VERSION)
      else Ok r
  end.

Definition load (o : Objects) (id : bytes) : result MigrationLoadError MigrationRecord := load_path o (ActivePath id).
Definition load_history (o : Objects) (id : bytes) : result MigrationLoadError MigrationRecord :=
  load_path o (HistoryPath id).

Fixpoint load_listed (o : Objects) (ids : list (result ObjectError bytes)) (records : list MigrationRecord)
    : result MigrationLoadError (list MigrationRecord) :=
  match ids with
  | [] => Ok records
  | Err _ :: _ => Err Unavailable
  | Ok id :: rest =>
      if (length records =? MAX_ACTIVE_MIGRATIONS)%nat then Err Unavailable
      else r ← load_path o (ActivePath id); load_listed o rest (records ++ [r])
  end.

Definition record_le (r r' : MigrationRecord) : Prop := lex_cmp (migration_id (plan r)) (migration_id (plan r')) <> Gt.

#[global] Instance record_le_dec r r' : Decision (record_le r r').
Proof. unfold record_le. solve_decision. Defined.

Definition load_active (o : Objects) : result MigrationLoadError (list MigrationRecord) :=
  records ← load_listed o (object_list o) [];
  Ok (merge_sort record_le records).

(** [MigrationCoordinator::save_record] *)
Definition save_record (durable : bool) (r : MigrationRecord) : M unit :=
  (if durable then save r else mret tt);; set_rec r.

(* ------------------------------------------------------------------ *)
(** ** The checkpoint coordinator as one caller uses it *)

Definition release_n (n : nat) (used : nat) : nat := Nat.iter n Checkpoints.release used.

Fixpoint acquire_n (max n acquired used : nat) : nat * result CoordinatorError nat :=
  match n with
  | O => (used, Ok acquired)
  | S n' =>
      match Checkpoints.acquire max used with
      | Ok used' => acquire_n max n' (S acquired) used'
      | Err e => (release_n acquired used, Err e)
      end
  end.

Definition begin_checkpoint (c : Coordinator) (now : Z) : Coordinator * result CoordinatorError Z :=
  let mk i u := {| rounds := i; used_credits := u; all_credits := all_credits c |} in
  match begin_enter (rounds c) now with
  | BTimedOut held => (mk (set_round (rounds c) None) (release_n held (used_credits c)), Err AlignmentTimeout)
  | BError e => (c, Err e)
  | BStart id next n =>
      match acquire_n (all_credits c) n 0 (used_credits c) with
      | (u, Err e) => (mk (rounds c) u, Err e)
      | (u, Ok acquired) => (mk (begin_install (rounds c) id next now acquired) u, Ok id)
      end
  end.

(** With the commit callback [|_| Ok(())]. *)
Definition record_shard_checkpoint (c : Coordinator) (shard : Z) (psc : PerShardCheckpoint)
    : Coordinator * result CoordinatorError (option ClusterCheckpoint) :=
  let mk i u := {| rounds := i; used_credits := u; all_credits := all_credits c |} in
  match record_confirmation (rounds c) shard psc with
  | Err e => (c, Err e)
  | Ok (i, None) => (mk i (Checkpoints.release (used_credits c)), Ok None)
  | Ok (i, Some closed) =>
      (mk (commit_insert i (manifest closed)) (release_n (Checkpoints.remaining closed) (Checkpoints.release (used_credits c))),
       Ok (Some (manifest closed)))
  end.

(** A coordinator call with [map_err(checkpoint_error)]. *)
Definition coordinate {A} (f : Coordinator -> Coordinator * result CoordinatorError A) : M A := fun s =>
  let '(c, r) := f (ckpt s) in
  Done (with_ckpt s c, match r with Ok a => Ok a | Err e => Err (MigrationCheckpoint (Some e)) end).

(* ------------------------------------------------------------------ *)
(** ** [MigrationCoordinator] *)

Record MigrationShard : Type := { ms_shard_id : Z; ms_path : bytes; ms_frontier : Epoch }.

Record MigrationCoordinator : Type := {
  has_store : bool;
  snapshotting_timeout : Z;
  copying_timeout : Z;
  cutover_timeout : Z;
  cutover_lag_budget : Z
}.

(** Milliseconds. *)
Definition coordinator_new : MigrationCoordinator := {|
  has_store := false; snapshotting_timeout := 30000; copying_timeout := 300000; cutover_timeout := 60000;
  cutover_lag_budget := 100
|}.

Definition abort_on_timeout (c : MigrationCoordinator) (now : Z) (st : MigrationState) (elapsed budget : Z) : M unit :=
  if elapsed <=? budget then mret tt
  else transition (has_store c) now Aborted;; throw (StateTimeout st).

Definition create_donor_checkpoint (path : bytes) : M CheckpointHandle := fun s =>
  let '(d, r) := create_checkpoint (dbs s path) in
  Done (with_db s path d, match r with Ok h => Ok h | Err _ => Err MigrationStorage end).

Definition with_intent (c : CopyProgress) (shard : Z) : CopyProgress := {|
  donor_checkpoints := donor_checkpoints c; donor_checkpoint_snapshots := donor_checkpoint_snapshots c;
  copy_cursors := copy_cursors c; copy_intents := copy_intents c;
  checkpoint_intents := {[shard]} ∪ checkpoint_intents c; cluster_checkpoint_id := cluster_checkpoint_id c;
  copied_bytes := copied_bytes c; copied_rows := copied_rows c
|}.

Definition with_cluster_checkpoint (c : CopyProgress) (id : Z) : CopyProgress := {|
  donor_checkpoints := donor_checkpoints c; donor_checkpoint_snapshots := donor_checkpoint_snapshots c;
  copy_cursors := copy_cursors c; copy_intents := copy_intents c; checkpoint_intents := checkpoint_intents c;
  cluster_checkpoint_id := Some id; copied_bytes := copied_bytes c; copied_rows := copied_rows c
|}.

Definition with_checkpoint (c : CopyProgress) (shard : Z) (h : CheckpointHandle) : CopyProgress := {|
  donor_checkpoints := <[shard := handle_checkpoint_id h]> (donor_checkpoints c);
  donor_checkpoint_snapshots := <[shard := handle_snapshot_id h]> (donor_checkpoint_snapshots c);
  copy_cursors := copy_cursors c; copy_intents := copy_intents c;
  checkpoint_intents := checkpoint_intents c ∖ {[shard]}; cluster_checkpoint_id := cluster_checkpoint_id c;
  copied_bytes := copied_bytes c; copied_rows := copied_rows c
|}.

(** The loop of [drive_planned_to_copying] that takes a checkpoint per donor. *)
Fixpoint checkpoint_donors (durable : bool) (checkpoint_id : Z) (donors : list MigrationShard) : M unit :=
  match donors with
  | [] => mret tt
  | donor :: rest =>
      r ← get_rec;
      let shard := ms_shard_id donor in
      (match donor_checkpoints (copy r) !! shard, donor_checkpoint_snapshots (copy r) !! shard with
       | Some shard_checkpoint, Some snap =>
           coordinate (fun c => record_shard_checkpoint c shard
             {| psc_checkpoint_id := checkpoint_id; shard_checkpoint_id := shard_checkpoint;
                snapshot_id := Some snap |});;
           mret tt
       | _, _ =>
           save_record durable (set_copy r (with_intent (copy r) shard));;
           handle ← create_donor_checkpoint (ms_path donor);
           coordinate (fun c => record_shard_checkpoint c shard
             {| psc_checkpoint_id := checkpoint_id; shard_checkpoint_id := handle_checkpoint_id handle;
                snapshot_id := Some (handle_snapshot_id handle) |});;
           r ← get_rec;
           save_record durable (set_copy r (with_checkpoint (copy r) shard handle))
       end);;
      checkpoint_donors durable checkpoint_id rest
  end.

Record MigrationCopyStats : Type := {
  chunks : Z;
  stat_rows : Z;
  stat_bytes : Z;
  max_chunk_rows : Z;
  max_chunk_bytes : Z
}.

Definition no_stats : MigrationCopyStats :=
  {| chunks := 0; stat_rows := 0; stat_bytes := 0; max_chunk_rows := 0; max_chunk_bytes := 0 |}.

Definition add_chunk (st : MigrationCopyStats) (rows bytes : Z) : outcome MigrationCopyStats :=
  chunks' ← expect (checked 0 usize_max (chunks st + 1));
  rows' ← expect (checked_u64 (stat_rows st + rows));
  bytes' ← expect (checked_u64 (stat_bytes st + bytes));
  Done {| chunks := chunks'; stat_rows := rows'; stat_bytes := bytes';
          max_chunk_rows := Z.max (max_chunk_rows st) rows; max_chunk_bytes := Z.max (max_chunk_bytes st) bytes |}.

(** What is copied of a page. *)
Definition chunk_of (bs : gset Z) (entries : list (bytes * bytes)) : list (bytes * bytes) :=
  if existsb (fun e => starts_with e.1 (str_bytes "bucket/")) entries
  then base.filter (fun e => key_in_buckets bs e.1 = true) entries
  else entries.

Definition with_copy_intent (c : CopyProgress) (shard page : Z) : CopyProgress := {|
  donor_checkpoints := donor_checkpoints c; donor_checkpoint_snapshots := donor_checkpoint_snapshots c;
  copy_cursors := copy_cursors c; copy_intents := <[shard := page]> (copy_intents c);
  checkpoint_intents := checkpoint_intents c; cluster_checkpoint_id := cluster_checkpoint_id c;
  copied_bytes := copied_bytes c; copied_rows := copied_rows c
|}.

(** The page is done: the intent is removed, the cursor advanced and
    [record_progress] called. *)
Definition with_page_done (now : Z) (r : MigrationRecord) (shard page rows bytes : Z) : outcome MigrationRecord :=
  let c := copy r in
  copied_bytes' ← expect (checked_u64 (default 0 (copied_bytes c) + bytes));
  copied_rows' ← expect (checked_u64 (default 0 (copied_rows c) + rows));
  Done {| plan := plan r; state := state r;
    copy := {| donor_checkpoints := donor_checkpoints c; donor_checkpoint_snapshots := donor_checkpoint_snapshots c;
      copy_cursors := <[shard := page + 1]> (copy_cursors c); copy_intents := delete shard (copy_intents c);
      checkpoint_intents := checkpoint_intents c; cluster_checkpoint_id := cluster_checkpoint_id c;
      copied_bytes := progressed (copied_bytes c) (total_bytes (plan r)) copied_bytes';
      copied_rows := progressed (copied_rows c) (total_rows (plan r)) copied_rows' |};
    frontiers := frontiers r; cutover_epoch := cutover_epoch r; verification_progress := verification_progress r;
    cleanup_intent := cleanup_intent r; updated_at_ms := now |}.

Definition put_ops (entries : list (bytes * bytes)) : list BatchOp := (fun e => Put e.1 e.2) <$> entries.

Definition finish_page (durable : bool) (now : Z) (shard page_index chunk_rows chunk_bytes : Z) : M unit :=
  r ← get_rec;
  completed ← of_outcome (with_page_done now r shard page_index chunk_rows chunk_bytes);
  save_record durable completed.

(** One page that the cursor has not passed. *)
Definition copy_page (durable : bool) (now : Z) (shard : Z) (recipient : bytes) (entries : list (bytes * bytes))
    (page_index : Z) (st : MigrationCopyStats) : M MigrationCopyStats :=
  r ← get_rec;
  let entries := chunk_of (buckets (plan r)) entries in
  let chunk_rows := Z.of_nat (length entries) in
  let chunk_bytes := zsum entry_bytes entries in
  save_record durable (set_copy r (with_copy_intent (copy r) shard page_index));;
  st ← (if (length entries =? 0)%nat then mret st
        else write_and_flush_shard recipient (put_ops entries);; of_outcome (add_chunk st chunk_rows chunk_bytes));
  finish_page durable now shard page_index chunk_rows chunk_bytes;;
  mret st.

Fixpoint copy_pages (durable : bool) (now : Z) (shard : Z) (recipient : bytes) (completed_pages : Z)
    (pages : list (result StorageError (list (bytes * bytes)))) (page_index : Z) (st : MigrationCopyStats)
    : M MigrationCopyStats :=
  match pages with
  | [] => mret st
  | page :: rest =>
      entries ← storage page;
      if page_index <? completed_pages
      then copy_pages durable now shard recipient completed_pages rest (page_index + 1) st
      else
        st ← copy_page durable now shard recipient entries page_index st;
        copy_pages durable now shard recipient completed_pages rest (page_index + 1) st
  end.

(** The donor's checkpoint, or its latest state when none is recorded. *)
Definition donor_reader (donor : MigrationShard) : M ShardReader :=
  s ← ask;
  let store := db (dbs s (ms_path donor)) in
  storage (match donor_checkpoint_snapshots (copy (rec s)) !! ms_shard_id donor with
           | Some snap => open_with_snapshot_id store snap
           | None => reader_open store
           end).

Fixpoint copy_donors (durable : bool) (now : Z) (donors : list MigrationShard) (recipient : MigrationShard)
    (st : MigrationCopyStats) : M MigrationCopyStats :=
  match donors with
  | [] => mret st
  | donor :: rest =>
      r ← get_rec;
      let completed_pages := default 0 (copy_cursors (copy r) !! ms_shard_id donor) in
      reader ← donor_reader donor;
      st ← copy_pages durable now (ms_shard_id donor) (ms_path recipient) completed_pages
             (scan_prefix_pages reader [] MAX_COPY_CHUNK_ROWS MAX_COPY_CHUNK_BYTES) 0 st;
      copy_donors durable now rest recipient st
  end.

Definition copy_bounded_chunks (c : MigrationCoordinator) (now : Z) (donors : list MigrationShard)
    (recipient : MigrationShard) : M MigrationCopyStats :=
  copy_donors (has_store c) now donors recipient no_stats.

(** The donors' frontiers and their minimum. *)
Definition frontiers_of (donors : list MigrationShard) : gmap Z Epoch :=
  list_to_map (reverse ((fun d => (ms_shard_id d, ms_frontier d)) <$> donors)).

(** [instant] is the coordinator's reading of its own clock. *)
Definition drive_planned_to_copying (c : MigrationCoordinator) (now instant : Z) (donors : list MigrationShard)
    (recipient : MigrationShard) (snapshot_elapsed copy_elapsed : Z) : M ClusterCheckpoint :=
  r ← get_rec;
  save_record (has_store c)
    (match ms_frontier <$> donors with
     | [] => {| plan := plan r; state := state r; copy := copy r;
         frontiers := {| donor_frontiers := ∅; donor_frontier := donor_frontier (frontiers r);
           recipient_frontier := recipient_frontier (frontiers r); lag := lag (frontiers r) |};
         cutover_epoch := cutover_epoch r; verification_progress := verification_progress r;
         cleanup_intent := cleanup_intent r; updated_at_ms := updated_at_ms r |}
     | e :: rest => record_frontiers now r (frontiers_of donors) (foldr Z.min e rest) (ms_frontier recipient)
     end);;
  transition (has_store c) now Snapshotting;;
  abort_on_timeout c now Snapshotting snapshot_elapsed (snapshotting_timeout c);;
  checkpoint_id ← coordinate (fun k => begin_checkpoint k instant);
  r ← get_rec;
  save_record (has_store c) (set_copy r (with_cluster_checkpoint (copy r) checkpoint_id));;
  checkpoint_donors (has_store c) checkpoint_id donors;;
  s ← ask;
  cluster ← match latest_committed (rounds (ckpt s)) with
            | Some m => mret m
            | None => throw (MigrationCheckpoint None)
            end;
  transition (has_store c) now Copying;;
  abort_on_timeout c now Copying copy_elapsed (copying_timeout c);;
  copy_bounded_chunks c now donors recipient;;
  mret cluster.

Definition begin_dual_writing (c : MigrationCoordinator) (now : Z) : M unit :=
  transition (has_store c) now DualWriting;; mret tt.

Definition advance_to_catching_up (c : MigrationCoordinator) (now : Z) : M unit :=
  transition (has_store c) now CatchingUp;; mret tt.

Definition advance_to_fencing_old_if_caught_up (c : MigrationCoordinator) (now : Z)
    (donor_frontier recipient_frontier : Epoch) : M bool :=
  if cutover_lag_budget c <? saturating_sub donor_frontier recipient_frontier then mret false
  else
    r ← get_rec;
    save_record (has_store c)
      (record_frontiers now r (list_to_map ((fun d => (d, donor_frontier)) <$> donor_shards (plan r)))
         donor_frontier recipient_frontier);;
    transition (has_store c) now FencingOld;;
    mret true.

Definition await_cutover_readiness_at_frontier (c : MigrationCoordinator) (now : Z) (observed : gmap string Z)
    (required : list string) (committed_frontier : Epoch) (elapsed : Z) : M bool :=
  r ← get_rec;
  if committed_frontier <? planned_frontier (plan r) then mret false
  else
    (if bool_decide (state r = FencingOld) then transition (has_store c) now Cutover;; mret tt else mret tt);;
    r ← get_rec;
    all ← (fun s => Done (s, all_observed observed (target_bucket_map_version (plan r)) required));
    if (all : bool) then
      save_record (has_store c) (set_cutover r (Some committed_frontier));;
      mret true
    else
      (if cutover_timeout c <? elapsed then abort_on_timeout c now Cutover elapsed (cutover_timeout c) else mret tt);;
      mret false.

Definition await_cutover_readiness (c : MigrationCoordinator) (now : Z) (observed : gmap string Z)
    (required : list string) (elapsed : Z) : M bool :=
  r ← get_rec;
  await_cutover_readiness_at_frontier c now observed required (planned_frontier (plan r)) elapsed.

(** A scan of one bucket: its pages as [filtered_entries] and
    [cleanup_donor_buckets] receive them. *)
Definition bucket_pages (path : bytes) (bucket : Z) : M (list (result StorageError (list (bytes * bytes)))) :=
  s ← ask;
  r ← storage (reader_open (db (dbs s path)));
  mret (scan_prefix_pages r (bucket_key_prefix bucket) MAX_COPY_CHUNK_ROWS MAX_COPY_CHUNK_BYTES).

Fixpoint collect_pages (pages : list (result StorageError (list (bytes * bytes)))) (filtered : list (bytes * bytes))
    : M (list (bytes * bytes)) :=
  match pages with
  | [] => mret filtered
  | page :: rest =>
      entries ← storage page;
      if (MAX_VERIFY_SCAN_KEYS <? length filtered + length entries)%nat
      then throw (VerifyWindowFull (MAX_VERIFY_SCAN_KEYS + 1) MAX_VERIFY_SCAN_KEYS)
      else collect_pages rest (filtered ++ entries)
  end.

Fixpoint collect_buckets (path : bytes) (bs : list Z) (filtered : list (bytes * bytes)) : M (list (bytes * bytes)) :=
  match bs with
  | [] => mret filtered
  | bucket :: rest =>
      pages ← bucket_pages path bucket;
      filtered ← collect_pages pages filtered;
      collect_buckets path rest filtered
  end.

Definition filtered_entries (path : bytes) (bs : gset Z) : M (list (bytes * bytes)) :=
  filtered ← collect_buckets path (bucket_list bs) [];
  mret (sort_entries filtered).

(** The key named in a divergence report. *)
Fixpoint first_difference (l l' : list (bytes * bytes)) : option bytes :=
  match l, l' with
  | e :: l, e' :: l' => if bool_decide (e = e') then first_difference l l' else Some (hex_key e.1)
  | _, _ => None
  end.

Definition diverging_key (donor recipient : list (bytes * bytes)) : bytes :=
  default (str_bytes "none")
    (opt_or (opt_or (first_difference donor recipient) ((fun e => hex_key e.1) <$> head donor))
       ((fun e => hex_key e.1) <$> head recipient)).

Definition compare_sides (c : MigrationCoordinator) (now : Z) (donor recipient : MigrationShard) : M unit :=
  r ← get_rec;
  save_record (has_store c) (record_verification_progress now r 0);;
  donor_entries ← filtered_entries (ms_path donor) (buckets (plan r));
  recipient_entries ← filtered_entries (ms_path recipient) (buckets (plan r));
  let scanned := Nat.max (length donor_entries) (length recipient_entries) in
  if (MAX_VERIFY_SCAN_KEYS <? scanned)%nat then throw (VerifyWindowFull scanned MAX_VERIFY_SCAN_KEYS)
  else if negb (bool_decide (donor_entries = recipient_entries)) then
    transition (has_store c) now DualWriting;;
    throw (VerificationDiverged (diverging_key donor_entries recipient_entries))
  else
    r ← get_rec;
    save_record (has_store c) (record_verification_progress now r 100).

Definition verify_or_rollback (c : MigrationCoordinator) (now : Z) (donor recipient : MigrationShard) : M unit :=
  r ← get_rec;
  (if bool_decide (state r = Cutover) then transition (has_store c) now Verifying;; mret tt else mret tt);;
  compare_sides c now donor recipient.

Definition maybe_enter_gc_eligible (c : MigrationCoordinator) (now : Z) (consumers : gmap string Z) : M bool :=
  r ← get_rec;
  match cutover_epoch r, minimum_frontier consumers with
  | Some cutover, Some min =>
      if min <? cutover then mret false
      else transition (has_store c) now GcEligible;; mret true
  | _, _ => mret false
  end.

(** The rows of each page are deleted and flushed. *)
Fixpoint cleanup_pages (path : bytes) (pages : list (result StorageError (list (bytes * bytes)))) (deleted : Z) : M Z :=
  match pages with
  | [] => mret deleted
  | page :: rest =>
      entries ← storage page;
      if (length entries =? 0)%nat then cleanup_pages path rest deleted
      else
        write_and_flush_shard path (Delete <$> entries.*1);;
        cleanup_pages path rest (deleted + Z.of_nat (length entries))
  end.

Fixpoint cleanup_buckets (path : bytes) (bs : list Z) (deleted : Z) : M Z :=
  match bs with
  | [] => mret deleted
  | bucket :: rest =>
      pages ← bucket_pages path bucket;
      deleted ← cleanup_pages path pages deleted;
      cleanup_buckets path rest deleted
  end.

Definition cleanup_donor_buckets (path : bytes) (bs : gset Z) : M Z := cleanup_buckets path (bucket_list bs) 0.

(** [durable]: a store was given or the coordinator has one.  Returns the
    number of deleted keys. *)
Definition finish_done (durable : bool) (now : Z) (donor : MigrationShard) : M Z :=
  r ← get_rec;
  if bool_decide (state r = Done_) then
    (if durable then archive else mret tt);;
    mret 0
  else if negb (bool_decide (state r = GcEligible)) then throw (ReclamationNotReady (state r))
  else
    save_record durable (set_cleanup_intent r);;
    deleted ← cleanup_donor_buckets (ms_path donor) (buckets (plan r));
    transition durable now Done_;;
    (if durable then archive else mret tt);;
    mret deleted.

(* ------------------------------------------------------------------ *)
(** ** Recovery when the control plane starts *)

Inductive MigrationRecoveryBlockReason : Type :=
| NeedsOnlineDriver | CleanupNotStarted | MissingCutoverEpoch | VerificationNotComplete | UnsupportedDonorSet
| MissingRecipientLease | MissingDonorHandle.

Inductive MigrationStartupStatus : Type :=
| ArchivedDone
| ReplayedCleanup (deleted_keys : Z)
| Blocked (why : MigrationRecoveryBlockReason).

Inductive MigrationStartupError : Type :=
| LoadError (e : MigrationLoadError)
| CleanupError (e : MigrationError).

Record MigrationRecovery : Type := {
  recovered : MigrationRecord;
  current_leases : gmap Z (option ShardLease)
}.

Definition recover_active (o : Objects) (leases_now : Z -> option ShardLease)
    : result MigrationLoadError (list MigrationRecovery) :=
  match load_active o with
  | Err e => Err e
  | Ok records =>
      Ok ((fun r => {| recovered := r;
        current_leases := list_to_map ((fun d => (d, leases_now d)) <$>
          (donor_shards (plan r) ++ [recipient_shard (plan r)])) |}) <$> records)
  end.

(** What is done with one record: its status, or the donor on which its cleanup
    is to be replayed. *)
Definition startup_decision (rec : MigrationRecovery) (handles : gmap Z MigrationShard)
    : MigrationStartupStatus + MigrationShard :=
  let r := recovered rec in
  match state r with
  | Done_ => if cleanup_intent r then inl ArchivedDone else inl (Blocked CleanupNotStarted)
  | GcEligible =>
      if negb (cleanup_intent r) then inl (Blocked CleanupNotStarted)
      else if bool_decide (cutover_epoch r = None) then inl (Blocked MissingCutoverEpoch)
      else if negb (bool_decide (verification_progress r = Some 100)) then inl (Blocked VerificationNotComplete)
      else
        match donor_shards (plan r) with
        | [d] =>
            if d =? recipient_shard (plan r) then inl (Blocked UnsupportedDonorSet)
            else
              match current_leases rec !! recipient_shard (plan r) with
              | Some (Some _) =>
                  match handles !! d with
                  | Some donor => inr donor
                  | None => inl (Blocked MissingDonorHandle)
                  end
              | _ => inl (Blocked MissingRecipientLease)
              end
        | _ => inl (Blocked UnsupportedDonorSet)
        end
  | _ => inl (Blocked NeedsOnlineDriver)
  end.

Definition recover_one (now : Z) (handles : gmap Z MigrationShard) (rec : MigrationRecovery)
    : M MigrationStartupStatus :=
  match startup_decision rec handles with
  | inl ArchivedDone => set_rec (recovered rec);; archive;; mret ArchivedDone
  | inl status => mret status
  | inr donor =>
      set_rec (recovered rec);;
      deleted ← finish_done true now donor;
      mret (ReplayedCleanup deleted)
  end.

Fixpoint recover_all (now : Z) (handles : gmap Z MigrationShard) (recs : list MigrationRecovery)
    (outcomes : list (MigrationRecovery * MigrationStartupStatus)) : M (list (MigrationRecovery * MigrationStartupStatus)) :=
  match recs with
  | [] => mret outcomes
  | rec :: rest =>
      status ← recover_one now handles rec;
      recover_all now handles rest (outcomes ++ [(rec, status)])
  end.

Definition recover_on_start (now : Z) (g : ShardManagerInner) (handles : gmap Z MigrationShard) (s : Cluster)
    : outcome (Cluster * result MigrationStartupError (list (MigrationRecovery * MigrationStartupStatus))) :=
  match recover_active (objs s) (fun d => leases g !! d) with
  | Err e => Done (s, Err (LoadError e))
  | Ok recs =>
      '(s', r) ← recover_all now handles recs [] s;
      Done (s', match r with Ok l => Ok l | Err e => Err (CleanupError e) end)
  end.

(* ------------------------------------------------------------------ *)
(** ** Routing of writes ([DualWriteRouter]) *)

Record RoutedWrite : Type := { bucket : Z; bucket_map_version : Z; w_key : bytes; w_value : bytes }.

(** [Err expected] is the version mismatch; a missing first donor is an index
    out of range. *)
Definition route_targets_at_epoch (r : MigrationRecord) (bucket version : Z) (epoch : Epoch)
    : outcome (result Z (list Z)) :=
  let migrating := bool_decide (bucket ∈ buckets (plan r)) in
  let routed := match state r with
                | DualWriting | CatchingUp | FencingOld | Cutover | Verifying | GcEligible | Done_ => true
                | _ => false
                end in
  if migrating && routed && negb (version =? target_bucket_map_version (plan r))
  then Done (Err (target_bucket_map_version (plan r)))
  else
    match state r with
    | DualWriting | CatchingUp | FencingOld =>
        donor ← expect (head (donor_shards (plan r)));
        Done (Ok (if migrating && (migration_epoch (plan r) <=? epoch)
                  then [donor; recipient_shard (plan r)] else [donor]))
    | Cutover | Verifying | GcEligible | Done_ =>
        if migrating && (default (migration_epoch (plan r)) (cutover_epoch r) <=? epoch)
        then Done (Ok [recipient_shard (plan r)])
        else donor ← expect (head (donor_shards (plan r))); Done (Ok [donor])
    | _ => donor ← expect (head (donor_shards (plan r))); Done (Ok [donor])
    end.

(** Each write is [expect]ed to succeed. *)
Fixpoint apply_targets (r : MigrationRecord) (w : RoutedWrite) (targets : list Z) (donor recipient : ShardDb)
    : outcome (ShardDb * ShardDb) :=
  match targets with
  | [] => Done (donor, recipient)
  | target :: rest =>
      if target =? recipient_shard (plan r) then
        '(d, res) ← put recipient (w_key w) (w_value w);
        match res with Err _ => Panic | Ok _ => apply_targets r w rest donor d end
      else
        '(d, res) ← put donor (w_key w) (w_value w);
        match res with Err _ => Panic | Ok _ => apply_targets r w rest d recipient end
  end.

Definition apply_write_at_epoch (r : MigrationRecord) (w : RoutedWrite) (epoch : Epoch) (donor recipient : ShardDb)
    : outcome (ShardDb * ShardDb * result Z nat) :=
  targets ← route_targets_at_epoch r (bucket w) (bucket_map_version w) epoch;
  match targets with
  | Err expected => Done (donor, recipient, Err expected)
  | Ok targets =>
      '(donor, recipient) ← apply_targets r w targets donor recipient;
      Done (donor, recipient, Ok (length targets))
  end.
End handoff.
