(* ===== verification/HandoffSafety.v ===== *)
(** * Safety of the bucket handoff

    Weakest preconditions for the programs of the handoff, what verification
    establishes, what reclamation deletes, what start-up recovery may touch, and
    two schedules in which rows are lost. *)
From Stdlib Require Import Ascii String.
From stdpp Require Import base tactics list gmap numbers option fin_maps sorting functions.
From Stdlib Require Import ZArith Lia ZifyBool.
From stdpp Require Import list.
From S2P Require Import Progress ShardLeases Checkpoints LeaseStore Prelude Kernels Laws MergeOps Keys Store ShardDb Paging Reader Handoff.
Local Open Scope Z_scope.

(* ------------------------------------------------------------------ *)
(** ** Weakest preconditions *)

Section wp.
Context `{SlateReader, RecordStore}.

(** Of the runs that do not panic. *)
Definition wp {A} (m : M A) (s : Cluster) (Q : Cluster -> result MigrationError A -> Prop) : Prop :=
  match m s with Done (s', r) => Q s' r | Panic => True end.

Lemma wp_bind {A B} (m : M A) (f : A -> M B) s Q :
  wp m s (fun s' r => match r with Ok a => wp (f a) s' Q | Err e => Q s' (Err e) end) -> wp (m ≫= f) s Q.
Proof. unfold wp, mbind, M_bind. by destruct (m s) as [[s' [a|e]]|]. Qed.

Lemma wp_mono {A} (m : M A) s (Q Q' : Cluster -> result MigrationError A -> Prop) :
  wp m s Q -> (forall s' r, Q s' r -> Q' s' r) -> wp m s Q'.
Proof. unfold wp. destruct (m s) as [[s' r]|]; auto. Qed.

Lemma wp_ret {A} (a : A) s Q : Q s (Ok a) -> wp (mret a) s Q.
Proof. done. Qed.
Lemma wp_throw {A} e s (Q : Cluster -> result MigrationError A -> Prop) : Q s (Err e) -> wp (throw e) s Q.
Proof. done. Qed.
Lemma wp_get_rec s Q : Q s (Ok (rec s)) -> wp get_rec s Q.
Proof. done. Qed.
Lemma wp_ask s Q : Q s (Ok s) -> wp ask s Q.
Proof. done. Qed.
Lemma wp_set_rec r s Q : Q (with_rec s r) (Ok tt) -> wp (set_rec r) s Q.
Proof. done. Qed.
Lemma wp_storage {E A} (r : result E A) s Q :
  (forall a, r = Ok a -> Q s (Ok a)) -> ((exists e, r = Err e) -> Q s (Err MigrationStorage)) -> wp (storage r) s Q.
Proof. intros Ha He. unfold wp, storage. destruct r; eauto. Qed.
Lemma wp_of_outcome {A} (o : outcome A) s Q : (forall a, o = Done a -> Q s (Ok a)) -> wp (of_outcome o) s Q.
Proof. intros Ha. unfold wp, of_outcome. destruct o; cbn; eauto. Qed.

Lemma wp_done {A} (m : M A) s s' r Q : wp m s Q -> m s = Done (s', r) -> Q s' r.
Proof. unfold wp. intros Hw E. by rewrite E in Hw. Qed.
End wp.

(** Take a bind apart and run the primitives in front. *)
Ltac wp_step :=
  match goal with
  | |- wp (mbind _ _) _ _ => apply wp_bind
  | |- wp (mret _) _ _ => apply wp_ret
  | |- wp (throw _) _ _ => apply wp_throw
  | |- wp get_rec _ _ => apply wp_get_rec
  | |- wp ask _ _ => apply wp_ask
  | |- wp (set_rec _) _ _ => apply wp_set_rec
  end; cbn beta iota.
Ltac wp_steps := repeat wp_step.

(* ------------------------------------------------------------------ *)
(** ** The calls *)

Section calls.
Context `{SlateReader, RecordStore, !SlateDbLaws, !SlateReaderLaws, !RecordStoreLaws}.
Implicit Types (d : ShardDb) (s : Cluster).

(** Saving changes the store only. *)
Definition saved (r : MigrationRecord) s s' (ok : Prop) : Prop :=
  dbs s' = dbs s /\ ckpt s' = ckpt s /\
  (stored (objs s') = <[ActivePath (migration_id (plan r)) := to_vec r]> (stored (objs s)) \/
   (stored (objs s') = stored (objs s) /\ ~ ok)).

Lemma wp_save r s Q :
  (forall s' res, saved r s s' (res = Ok tt) -> rec s' = rec s -> Q s' res) -> wp (save r) s Q.
Proof.
  intros HQ. unfold wp, save. destruct (object_put _ _ _) as [o res] eqn:E. apply HQ; [|done].
  split; [done|]. split; [done|]. apply object_put_spec in E as [E|[E [e ->]]]; [by left|right]. done.
Qed.

Lemma wp_save_record durable r s (Q : Cluster -> result MigrationError unit -> Prop) :
  (forall s', saved r s s' True \/ (durable = false /\ objs s' = objs s /\ dbs s' = dbs s /\ ckpt s' = ckpt s) ->
     rec s' = r -> Q s' (Ok tt)) ->
  (forall s' e, saved r s s' False -> rec s' = rec s -> Q s' (Err e)) ->
  wp (save_record durable r) s Q.
Proof.
  intros Hok Herr. unfold save_record. destruct durable; wp_steps.
  - apply wp_save. intros s' [[]|e] Hs Hr.
    + wp_steps. apply Hok; [|done]. left. destruct Hs as (E1 & E2 & [E3|[_ E3]]); [|done]. split; [done|]. split; [done|by left].
    + apply Herr; [|done]. destruct Hs as (E1 & E2 & [E3|[E3 _]]); split; [done|split; [done|by left]|done|split; [done|by right; split; [|intros []]]].
  - apply Hok; [by right|done].
Qed.

(** Only the objects of one migration change. *)
Definition frame_objs (r : MigrationRecord) s s' : Prop :=
  forall p, p <> ActivePath (migration_id (plan r)) -> p <> HistoryPath (migration_id (plan r)) ->
    stored (objs s') !! p = stored (objs s) !! p.

Lemma saved_frame r s s' ok : saved r s s' ok -> frame_objs r s s'.
Proof. intros (_ & _ & [E|[E _]]) p N1 N2; rewrite E; [by rewrite lookup_insert_ne|done]. Qed.

Lemma apply_transition_plan now r st r' ch : apply_transition now r st = Some (r', ch) ->
  plan r' = plan r /\ state r' = st /\ copy r' = copy r /\ cleanup_intent r' = cleanup_intent r /\
  can_transition_to (state r) st = true.
Proof.
  unfold apply_transition. destruct (can_transition_to (state r) st); [|done]. cbn [negb].
  case_bool_decide; intros [= <- <-]; done.
Qed.

(** Transitions keep the shards; they change the record to the next state when
    they succeed. *)
Lemma wp_transition durable now next s (Q : Cluster -> result MigrationError bool -> Prop) :
  (forall s' ch r', apply_transition now (rec s) next = Some (r', ch) -> dbs s' = dbs s -> frame_objs (rec s) s s' ->
     rec s' = r' -> Q s' (Ok ch)) ->
  (forall s' e, dbs s' = dbs s -> frame_objs (rec s) s s' -> rec s' = rec s -> Q s' (Err e)) ->
  wp (transition durable now next) s Q.
Proof.
  intros Hok Herr. unfold transition. wp_steps.
  destruct (apply_transition now (rec s) next) as [[r' ch]|] eqn:E; [|wp_steps; by apply Herr].
  destruct (apply_transition_plan _ _ _ _ _ E) as (P & _).
  wp_steps. unfold assert_single_authoritative. destruct (negb _); [|done]. wp_steps. destruct durable; wp_steps.
  - apply wp_save. intros s' res HS Hr. pose proof (saved_frame _ _ _ _ HS) as Hf. unfold frame_objs in *. rewrite P in Hf.
    destruct HS as (E1 & _), res as [[]|e]; wp_steps; [by eapply Hok|by apply Herr].
  - by eapply Hok.
Qed.

(** A batch of point writes: the shard keeps its format and its checkpoints,
    and takes all of the batch or, when an error is reported, possibly none. *)
Record batch_step d (ops : list BatchOp) d' (ok : Prop) : Prop := {
  bs_format : format_version d' = format_version d;
  bs_pending : migration_pending d' = migration_pending d;
  bs_scans : fail_scans d' = fail_scans d;
  bs_snapshots : keeps_snapshots (db d) (db d');
  bs_contents : (contents (db d') = apply_ops (contents (db d)) (physical_op d <$> ops) /\ migration_pending d = false) \/
    (contents (db d') = contents (db d) /\ ~ ok)
}.

Lemma batch_step_refl d ops : batch_step d ops d False.
Proof. split; try done; [by intros u m|right; by split; [|intros []]]. Qed.

Lemma wp_write_and_flush path ops s (Q : Cluster -> result MigrationError unit -> Prop) :
  point_writes ops ->
  (forall d' res, batch_step (dbs s path) ops d' (res = Ok tt) -> Q (with_db s path d') res) ->
  wp (write_and_flush_shard path ops) s Q.
Proof.
  intros Hpt HQ. unfold wp, write_and_flush_shard, write_batch. set (d := dbs s path) in *.
  destruct (migration_pending d) eqn:Ep; cbn [orb].
  { apply HQ. destruct (batch_step_refl d ops) as [? ? ? ? Hc]. split; try done. right. split; [done|discriminate]. }
  destruct (fail_writes d); cbn [orb].
  { apply HQ. destruct (batch_step_refl d ops) as [? ? ? ? Hc]. split; try done. right. split; [done|discriminate]. }
  destruct (check_frontier_puts _ _ _) as [wf|]; [|done]. cbn [mbind outcome_bind].
  destruct (slate_write (db d) _) as [db1 [[]|e]] eqn:Ew.
  - pose proof (slate_write_ok _ _ _ (physical_op_points d ops Hpt) Ew) as Hc.
    pose proof (slate_write_snapshots _ _ _ _ Ew) as Hs.
    set (d1 := match wf with Some epoch => advance_epoch (set_db d db1) epoch | None => set_db d db1 end).
    assert (format_version d1 = format_version d /\ migration_pending d1 = false /\ fail_scans d1 = fail_scans d /\
      db d1 = db1) as (E1 & E2 & E3 & E4) by (by subst d1; destruct wf). clearbody d1.
    unfold flush. destruct (fail_flushes d1).
    { apply HQ. split; [congruence|congruence|congruence|by rewrite E4|left; by rewrite E4]. }
    destruct (slate_flush (db d1)) as [db2 r2] eqn:Ef. apply HQ. rewrite E4 in Ef.
    split; cbn; [congruence|congruence|congruence| |left; by rewrite (slate_flush_spec _ _ _ Ef)].
    intros u m Hu. eapply slate_flush_snapshots; [done|]. by apply Hs.
  - apply HQ. pose proof (slate_write_snapshots _ _ _ _ Ew) as Hs. split; try done.
    destruct (slate_write_err _ _ _ _ (physical_op_points d ops Hpt) Ew) as [Hc|Hc]; [right|left; done].
    split; [done|discriminate].
Qed.
End calls.

(* ------------------------------------------------------------------ *)
(** ** Bucket keys *)

Lemma bucket_prefix_cons b : exists rest, bucket_key_prefix b = 0x62 :: rest.
Proof. by eexists. Qed.

Lemma bucket_prefix_ordinary b : ordinary (bucket_key_prefix b).
Proof. destruct (bucket_prefix_cons b) as [rest ->]. by exists 0x62, rest. Qed.

Lemma elem_of_bucket_list b bs : b ∈ bucket_list bs <-> b ∈ bs.
Proof. unfold bucket_list. rewrite merge_sort_Permutation. apply elem_of_elements. Qed.

Lemma key_in_buckets_spec bs k :
  key_in_buckets bs k = true <-> exists b, b ∈ bucket_list bs /\ starts_with k (bucket_key_prefix b) = true.
Proof.
  unfold key_in_buckets. rewrite existsb_exists. by setoid_rewrite <-list_elem_of_In.
Qed.

Lemma bucket_key_ordinary bs k : key_in_buckets bs k = true -> ordinary k /\ is_meta k = false.
Proof.
  intros (b & _ & Hst)%key_in_buckets_spec. destruct (ordinary_extend _ _ (bucket_prefix_ordinary b) Hst) as [Ho Hm].
  split; [done|]. rewrite Hm. done.
Qed.

Lemma bucket_key_not_meta `{SlateDb} bs d k pk :
  key_in_buckets bs k = true -> is_meta pk = true -> pk <> physical_key d k.
Proof.
  intros Hk Hm ->. destruct (bucket_key_ordinary _ _ Hk) as [Ho Hn]. rewrite physical_magic, Hn in Hm by done.
  unfold magic in Hm. destruct (_ =? 3); [done|]. destruct (_ =? 2); [done|]. cbn in Hm. congruence.
Qed.

Lemma good_copy_budget : good_budget MAX_COPY_CHUNK_ROWS MAX_COPY_CHUNK_BYTES.
Proof. unfold good_budget, MAX_COPY_CHUNK_ROWS, MAX_COPY_CHUNK_BYTES, MAX_SCAN_PAGE_ROWS, MAX_SCAN_PAGE_BYTES. lia. Qed.

(* ------------------------------------------------------------------ *)
(** ** What verification sees *)

Section verification.
Context `{SlateReader, RecordStore, !SlateDbLaws, !SlateReaderLaws, !RecordStoreLaws}.
Implicit Types (d : ShardDb) (s : Cluster).

(** A shard whose pages show all of its rows. *)
Definition settled d : Prop := marked d /\ migration_pending d = false.

Lemma reader_open_reads d r : marked d -> reader_open (db d) = Ok r -> reads r d.
Proof.
  intros Hm E. unfold reader_open, open_with_supported_format_range in E.
  destruct (open_latest (db d)) as [rd|e] eqn:Eo; [|done]. cbn [lift mbind result_bind] in E.
  by destruct (from_reader_reads d rd r Hm (open_latest_spec _ _ Eo) E).
Qed.

Lemma wp_bucket_pages path b s (Q : Cluster -> result MigrationError _ -> Prop) :
  (forall r, reader_open (db (dbs s path)) = Ok r ->
     Q s (Ok (scan_prefix_pages r (bucket_key_prefix b) MAX_COPY_CHUNK_ROWS MAX_COPY_CHUNK_BYTES))) ->
  Q s (Err MigrationStorage) -> wp (bucket_pages path b) s Q.
Proof. intros Hok Herr. unfold bucket_pages. wp_steps. apply wp_storage; [|done]. intros r E. wp_steps. by apply Hok. Qed.

Lemma wp_collect_pages pages filtered s :
  wp (collect_pages pages filtered) s (fun s' r => s' = s /\
    match r with Ok l => exists ps, pages = Ok <$> ps /\ l = filtered ++ mjoin ps | Err _ => True end).
Proof.
  revert filtered. induction pages as [|page pages IH]; intros filtered; cbn [collect_pages].
  { wp_steps. split; [done|]. exists []. by rewrite app_nil_r. }
  wp_steps. apply wp_storage; [|by split]. intros entries ->. destruct (_ <? _)%nat; [by wp_steps|].
  eapply wp_mono; [apply IH|]. intros s' [l|e] [-> Hl]; (split; [done|]); [|done].
  destruct Hl as (ps & -> & ->). exists (entries :: ps). rewrite fmap_cons. split; [done|].
  change (mjoin (entries :: ps)) with (entries ++ mjoin ps). by rewrite app_assoc.
Qed.

Lemma wp_collect_buckets path bs filtered s : settled (dbs s path) ->
  wp (collect_buckets path bs filtered) s (fun s' r => s' = s /\
    match r with
    | Ok l => forall k v, (k, v) ∈ l <-> (k, v) ∈ filtered \/
        (view (dbs s path) k = Some v /\ exists b, b ∈ bs /\ starts_with k (bucket_key_prefix b) = true)
    | Err _ => True
    end).
Proof.
  intros [Hm Hp]. revert filtered. induction bs as [|b bs IH]; intros filtered; cbn [collect_buckets].
  { wp_steps. split; [done|]. intros k v. split; [by left|]. intros [?|(_ & b & Hb & _)]; [done|by apply not_elem_of_nil in Hb]. }
  wp_steps. apply wp_bucket_pages; [|by split]. intros r Er. wp_steps.
  eapply wp_mono; [apply wp_collect_pages|]. intros s' [l|e] [-> Hl]; [|by split].
  destruct Hl as (ps & E & ->). eapply wp_mono; [apply IH|]. intros s' [l|e] [-> Hl]; (split; [done|]); [|done].
  intros k v. rewrite Hl, elem_of_app.
  rewrite (scan_pages_view r _ _ _ _ ps (reader_open_reads _ _ Hm Er) Hp (bucket_prefix_ordinary b) good_copy_budget E).
  setoid_rewrite elem_of_cons. split.
  - intros [[?|[? ?]]|(? & b' & ? & ?)]; [by left|right..]; eauto 6.
  - intros [?|(? & b' & [->|?] & ?)]; [by left; left|by left; right|by right; eauto].
Qed.

Lemma wp_filtered_entries path bs s : settled (dbs s path) ->
  wp (filtered_entries path bs) s (fun s' r => s' = s /\
    match r with
    | Ok l => forall k v, (k, v) ∈ l <-> view (dbs s path) k = Some v /\ key_in_buckets bs k = true
    | Err _ => True
    end).
Proof.
  intros Hset. unfold filtered_entries. wp_steps. eapply wp_mono; [by apply wp_collect_buckets|].
  intros s' [l|e] [-> Hl]; [|by split]. wp_steps. split; [done|]. intros k v. unfold sort_entries.
  rewrite merge_sort_Permutation, Hl, key_in_buckets_spec. split; [|by right].
  intros [Hn|?]; [by apply not_elem_of_nil in Hn|done].
Qed.

(** The donor and the recipient agree on the rows of the buckets. *)
Definition agree (bs : gset Z) d d' : Prop := forall k, key_in_buckets bs k = true -> view d k = view d' k.

Definition compared (donor recipient : MigrationShard) s s' (r : result MigrationError unit) : Prop :=
  dbs s' = dbs s /\ plan (rec s') = plan (rec s) /\
  match r with
  | Ok _ => agree (buckets (plan (rec s))) (dbs s (ms_path donor)) (dbs s (ms_path recipient)) /\
      verification_progress (rec s') = Some 100
  | Err _ => True
  end.

Lemma wp_compare c now donor recipient s :
  settled (dbs s (ms_path donor)) -> settled (dbs s (ms_path recipient)) ->
  wp (compare_sides c now donor recipient) s (compared donor recipient s).
Proof.
  intros Hd Hr. unfold compare_sides, compared. wp_steps.
  apply wp_save_record; [|intros s2 e (E2 & _) R2; rewrite R2; by rewrite E2].
  intros s2 HS R2. assert (dbs s2 = dbs s) as E2 by (by destruct HS as [(-> & _)|(_ & _ & -> & _)]).
  assert (plan (rec s2) = plan (rec s)) as P2 by (by rewrite R2). clear HS. wp_steps.
  eapply wp_mono; [apply wp_filtered_entries; by rewrite E2|]. intros s3 [ld|e] [-> Hld]; [|by wp_steps]. wp_steps.
  eapply wp_mono; [apply wp_filtered_entries; by rewrite E2|]. intros s3 [lr|e] [-> Hlr]; [|by wp_steps].
  cbn zeta. destruct (_ <? _)%nat; [by wp_steps|].
  case_bool_decide as Eq; cbn [negb]; wp_steps.
  - rewrite E2 in Hld, Hlr. subst lr. apply wp_save_record.
    + intros s4 HS R4. assert (dbs s4 = dbs s) as E4 by (rewrite <-E2; by destruct HS as [(-> & _)|(_ & _ & -> & _)]).
      rewrite R4. split; [done|]. split; [done|]. split; [|done]. intros k Hk.
      apply option_eq. intros v. specialize (Hld k v). specialize (Hlr k v). tauto.
    + intros s4 e (E4 & _) R4. rewrite R4. split; [congruence|done].
  - apply wp_transition.
    + intros s4 ch r' (P4 & _)%apply_transition_plan E4 _ R4. wp_steps. rewrite R4, P4. split; [congruence|done].
    + intros s4 e E4 _ R4. rewrite R4. split; [congruence|done].
Qed.

Lemma wp_verify c now donor recipient s :
  settled (dbs s (ms_path donor)) -> settled (dbs s (ms_path recipient)) ->
  wp (verify_or_rollback c now donor recipient) s (compared donor recipient s).
Proof.
  intros Hd Hr. unfold verify_or_rollback. wp_steps.
  case_bool_decide; wp_steps; [|by apply wp_compare]. apply wp_transition.
  - intros s1 ch r' (P1 & _)%apply_transition_plan E1 _ R1. wp_steps.
    eapply wp_mono; [apply wp_compare; by rewrite E1|]. intros s2 r (E2 & P2 & Hres).
    split; [congruence|]. split; [by rewrite P2, R1|]. destruct r; [|done]. by rewrite E1, R1, P1 in Hres.
  - intros s1 e E1 _ R1. split; [done|]. split; [by rewrite R1|done].
Qed.
End verification.

(* ------------------------------------------------------------------ *)
(** ** What reclamation deletes *)

Section reclamation.
Context `{SlateReader, RecordStore, !SlateDbLaws, !SlateReaderLaws, !RecordStoreLaws}.
Implicit Types (d : ShardDb) (s : Cluster).

(** Only rows of the buckets are gone. *)
Record reclaimed (bs : gset Z) d d' : Prop := {
  rc_format : format_version d' = format_version d;
  rc_pending : migration_pending d' = migration_pending d;
  rc_contents : forall pk, contents (db d') !! pk = contents (db d) !! pk \/
    (contents (db d') !! pk = None /\ exists k, pk = physical_key d k /\ key_in_buckets bs k = true)
}.

Lemma reclaimed_refl bs d : reclaimed bs d d.
Proof. split; auto. Qed.

Lemma reclaimed_trans bs d1 d2 d3 : reclaimed bs d1 d2 -> reclaimed bs d2 d3 -> reclaimed bs d1 d3.
Proof.
  intros [F1 P1 C1] [F2 P2 C2]. split; [congruence|congruence|]. intros pk.
  destruct (C2 pk) as [->|(-> & k & -> & Hk)]; [apply C1|]. right. split; [done|]. exists k. split; [|done].
  unfold physical_key. by rewrite F1.
Qed.

Lemma reclaimed_marked bs d d' : reclaimed bs d d' -> marked d -> marked d'.
Proof.
  intros [F P C] [Hm Hp].
  assert (forall pk, is_meta pk = true -> contents (db d') !! pk = contents (db d) !! pk) as Hmeta.
  { intros pk Hpk. destruct (C pk) as [->|(_ & k & E & Hk)]; [done|]. by destruct (bucket_key_not_meta bs d k pk). }
  split; rewrite Hmeta by done; [by rewrite F|by rewrite P, F].
Qed.

Lemma reclaimed_view bs d d' k : reclaimed bs d d' -> ordinary k ->
  view d' k = view d k \/ (view d' k = None /\ key_in_buckets bs k = true).
Proof.
  intros [F P C] Ho. unfold view. replace (physical_key d' k) with (physical_key d k) by (unfold physical_key; by rewrite F).
  destruct (C (physical_key d k)) as [->|(-> & k' & E & Hk)]; [by left|right]. split; [done|].
  destruct (bucket_key_ordinary _ _ Hk) as [Ho' _]. rewrite !physical_magic in E by done.
  by apply magic_inj in E as ->.
Qed.

Lemma deletes_physical d (keys : list bytes) (pk : bytes) (m : gmap bytes bytes) :
  apply_ops m (physical_op d <$> (Delete <$> keys)) !! pk =
  if bool_decide (pk ∈ physical_key d <$> keys) then None else m !! pk.
Proof. rewrite <-apply_deletes. f_equal. f_equal. rewrite <-!list_fmap_compose. done. Qed.

(** The effect of a cleanup on the cluster. *)
Record cleaned (path : bytes) (bs : gset Z) s s' : Prop := {
  cl_others p : p <> path -> dbs s' p = dbs s p;
  cl_donor : reclaimed bs (dbs s path) (dbs s' path);
  cl_rec : rec s' = rec s;
  cl_objs : objs s' = objs s
}.

Lemma cleaned_refl path bs s : cleaned path bs s s.
Proof. split; auto using reclaimed_refl. Qed.

Lemma cleaned_trans path bs s1 s2 s3 : cleaned path bs s1 s2 -> cleaned path bs s2 s3 -> cleaned path bs s1 s3.
Proof.
  intros [O1 D1 R1 B1] [O2 D2 R2 B2]. split; [|by eapply reclaimed_trans|congruence|congruence].
  intros p Hp. by rewrite O2, O1.
Qed.

(** Pages of rows of the buckets: all gone when the call succeeds. *)
Lemma wp_cleanup_pages path bs pages n s :
  (forall page, Ok page ∈ pages -> Forall (fun e => key_in_buckets bs e.1 = true) page) ->
  wp (cleanup_pages path pages n) s (fun s' r => cleaned path bs s s' /\
    match r with
    | Ok _ => exists ps, pages = Ok <$> ps /\
        forall k v, (k, v) ∈ mjoin ps -> contents (db (dbs s' path)) !! physical_key (dbs s path) k = None
    | Err _ => True
    end).
Proof.
  revert n s. induction pages as [|page pages IH]; intros n s Hpg; cbn [cleanup_pages].
  { wp_steps. split; [apply cleaned_refl|]. exists []. split; [done|]. intros k v Hin. by apply not_elem_of_nil in Hin. }
  wp_steps. apply wp_storage; [|intros _; split; [apply cleaned_refl|done]]. intros entries ->.
  assert (forall page, Ok page ∈ pages -> Forall (fun e => key_in_buckets bs e.1 = true) page) as Hpg'
    by (intros page Hin; apply Hpg; by right).
  specialize (Hpg entries ltac:(left)). destruct (length entries =? 0)%nat eqn:El.
  { eapply wp_mono; [by apply IH|]. intros s' r [Hcl Hr]. split; [done|]. destruct r; [|done].
    destruct Hr as (ps & -> & Hps). exists (entries :: ps). rewrite fmap_cons. split; [done|].
    destruct entries; [|done]. exact Hps. }
  wp_steps. apply wp_write_and_flush; [apply Forall_fmap, Forall_forall; done|].
  intros d' res Hb. set (d := dbs s path) in *.
  assert (cleaned path bs s (with_db s path d')) as Hcl.
  { split; [intros p Hp; cbn; by rewrite fn_lookup_insert_ne by done| |done|done].
    cbn. rewrite fn_lookup_insert. destruct Hb as [F P _ _ C]. split; [done|done|]. intros pk.
    destruct C as [[-> _]|[-> _]]; [|by left]. rewrite deletes_physical. case_bool_decide as Hin; [|by left].
    right. split; [done|]. apply list_elem_of_fmap in Hin as (k & -> & Hk). exists k. split; [done|].
    rewrite Forall_forall in Hpg. apply list_elem_of_fmap in Hk as (e & -> & He). exact (Hpg _ He). }
  destruct res as [[]|e]; [|by split]. eapply wp_mono; [by apply IH|]. intros s' r [Hcl' Hr].
  split; [by eapply cleaned_trans|]. destruct r as [n'|]; [|done]. destruct Hr as (ps & -> & Hps).
  exists (entries :: ps). rewrite fmap_cons. split; [done|]. intros k v [Hin|Hin]%elem_of_app.
  - destruct (cl_donor _ _ _ _ Hcl') as [_ _ C]. cbn in C. rewrite fn_lookup_insert in C.
    destruct (C (physical_key d k)) as [->|[-> _]]; [|done]. destruct (bs_contents _ _ _ _ Hb) as [[-> _]|[_ []]]; [|done].
    rewrite deletes_physical, bool_decide_eq_true_2; [done|]. apply list_elem_of_fmap. exists k. split; [done|].
    apply list_elem_of_fmap. by exists (k, v).
  - apply Hps in Hin. cbn in Hin. rewrite fn_lookup_insert in Hin.
    replace (physical_key d' k) with (physical_key d k) in Hin; [done|]. unfold physical_key. by rewrite (bs_format _ _ _ _ Hb).
Qed.

Lemma wp_cleanup_buckets path bs bl n s :
  (forall b, b ∈ bl -> b ∈ bucket_list bs) ->
  wp (cleanup_buckets path bl n) s (fun s' r => cleaned path bs s s' /\
    match r with
    | Ok _ => settled (dbs s path) -> forall b k, b ∈ bl -> starts_with k (bucket_key_prefix b) = true ->
        view (dbs s' path) k = None
    | Err _ => True
    end).
Proof.
  revert n s. induction bl as [|b bl IH]; intros n s Hbl; cbn [cleanup_buckets].
  { wp_steps. split; [apply cleaned_refl|]. intros _ b k Hb. by apply not_elem_of_nil in Hb. }
  wp_steps. apply wp_bucket_pages; [|split; [apply cleaned_refl|done]]. intros r Er. wp_steps.
  eapply wp_mono; [apply (wp_cleanup_pages path bs)|].
  { intros page Hpg%scan_pages_prefix. eapply Forall_impl; [exact Hpg|]. intros e He.
    apply key_in_buckets_spec. exists b. split; [apply Hbl; by left|done]. }
  intros s1 [n1|e] [Hcl1 Hr1]; [|by split]. destruct Hr1 as (ps & E & Hps).
  eapply wp_mono; [apply IH; intros b' Hb'; apply Hbl; by right|]. intros s2 [n2|e] [Hcl2 Hr2];
    (split; [by eapply cleaned_trans|]); [|done].
  intros [Hm Hp] b' k Hb' Hst. pose proof (cl_donor _ _ _ _ Hcl1) as Hc1. pose proof (cl_donor _ _ _ _ Hcl2) as Hc2.
  apply elem_of_cons in Hb' as [->|Hb'].
  2:{ eapply Hr2; [|done|done]. split; [by eapply reclaimed_marked|by rewrite (rc_pending _ _ _ Hc1)]. }
  destruct (ordinary_extend _ _ (bucket_prefix_ordinary b) Hst) as [Ho _].
  destruct (reclaimed_view _ _ _ _ Hc2 Ho) as [->|[-> _]]; [|done].
  destruct (view (dbs s1 path) k) as [v|] eqn:Ev; [|done]. exfalso.
  assert (view (dbs s path) k = Some v) as Hv.
  { destruct (reclaimed_view _ _ _ _ Hc1 Ho) as [E1|[E1 _]]; congruence. }
  assert ((k, v) ∈ mjoin ps) as Hin
    by (by apply (scan_pages_view r _ _ _ _ ps (reader_open_reads _ _ Hm Er) Hp (bucket_prefix_ordinary b) good_copy_budget E)).
  apply Hps in Hin. unfold view in Ev. replace (physical_key (dbs s1 path) k) with (physical_key (dbs s path) k) in Ev
    by (unfold physical_key; by rewrite (rc_format _ _ _ Hc1)). congruence.
Qed.

(** The record is filed under its history and no longer active. *)
Definition archived s : Prop :=
  stored (objs s) !! HistoryPath (migration_id (plan (rec s))) = Some (to_vec (rec s)) /\
  stored (objs s) !! ActivePath (migration_id (plan (rec s))) = None.

Lemma wp_archive s (Q : Cluster -> result MigrationError unit -> Prop) :
  (forall s' res, dbs s' = dbs s -> rec s' = rec s -> (res = Ok tt -> archived s') ->
     (forall p, p <> HistoryPath (migration_id (plan (rec s))) -> p <> ActivePath (migration_id (plan (rec s))) ->
        stored (objs s') !! p = stored (objs s) !! p) -> Q s' res) -> wp archive s Q.
Proof.
  intros HQ. unfold wp, archive. set (i := migration_id (plan (rec s))) in *.
  destruct (object_put _ _ _) as [o1 [[]|e]] eqn:E1.
  - assert (stored o1 = <[HistoryPath i := to_vec (rec s)]> (stored (objs s))) as S1
      by (apply object_put_spec in E1 as [?|[_ [e ?]]]; done).
    destruct (object_delete o1 _) as [o2 res] eqn:E2. apply HQ; [done|done| |].
    + intros Hok. assert (stored o2 !! ActivePath i = None /\ stored o2 !! HistoryPath i = stored o1 !! HistoryPath i) as [A1 A2].
      { destruct (object_delete_spec _ _ _ _ E2) as [->|[E [e ->]]].
        - split; [apply lookup_delete_eq|by rewrite lookup_delete_ne].
        - destruct (is_not_found e) eqn:En; [|done]. split; [by eapply object_delete_missing|by rewrite E]. }
      split; cbn; fold i; [|done]. rewrite A2, S1. apply lookup_insert_eq.
    + intros p N1 N2. cbn. destruct (object_delete_spec _ _ _ _ E2) as [->|[-> _]];
        rewrite ?lookup_delete_ne, S1, lookup_insert_ne by done; done.
  - apply HQ; [done|done|done|]. intros p N1 N2. cbn.
    destruct (object_put_spec _ _ _ _ _ E1) as [->|[-> _]]; [by rewrite lookup_insert_ne|done].
Qed.

(** What [finish_done] may have done, whatever it returns. *)
Record finished (path : bytes) (durable : bool) s s' (r : result MigrationError Z) : Prop := {
  fin_others p : p <> path -> dbs s' p = dbs s p;
  fin_donor : reclaimed (buckets (plan (rec s))) (dbs s path) (dbs s' path);
  fin_plan : plan (rec s') = plan (rec s);
  fin_objs : frame_objs (rec s) s s';
  fin_idle : state (rec s) <> GcEligible -> dbs s' = dbs s;
  fin_rows n : r = Ok n -> state (rec s) = GcEligible -> settled (dbs s path) ->
    forall k, key_in_buckets (buckets (plan (rec s))) k = true -> view (dbs s' path) k = None;
  fin_archived n : r = Ok n -> durable = true -> state (rec s') = Done_ /\ archived s'
}.

Lemma frame_objs_trans r s1 s2 s3 : frame_objs r s1 s2 -> frame_objs r s2 s3 -> frame_objs r s1 s3.
Proof. intros F1 F2 p N1 N2. by rewrite F2, F1. Qed.

Lemma finished_noop path durable s s' e : dbs s' = dbs s -> plan (rec s') = plan (rec s) -> frame_objs (rec s) s s' ->
  finished path durable s s' (Err e).
Proof. intros E P F. split; try done; [by rewrite E|rewrite E; apply reclaimed_refl]. Qed.

Lemma wp_archive_if (durable : bool) s (Q : Cluster -> result MigrationError unit -> Prop) :
  (forall s' res, dbs s' = dbs s -> rec s' = rec s -> (res = Ok tt -> durable = true -> archived s') ->
     frame_objs (rec s) s s' -> Q s' res) -> wp (if durable then archive else mret tt) s Q.
Proof.
  intros HQ. destruct durable; [|wp_steps; by apply HQ]. apply wp_archive. intros s' res E R Ha Hf.
  apply HQ; [done|done|by intros ? _; apply Ha|]. intros p N1 N2. by apply Hf.
Qed.

Lemma wp_finish_done durable now donor s :
  wp (finish_done durable now donor) s (fun s' r => finished (ms_path donor) durable s s' r).
Proof.
  unfold finish_done. wp_steps. case_bool_decide as Est.
  { wp_steps. apply wp_archive_if. intros s1 [[]|e] E R Ha Hf; [|by apply finished_noop; rewrite ?R].
    wp_steps. split; [by rewrite E|rewrite E; apply reclaimed_refl|by rewrite R|done|done|congruence|].
    intros n _ Hd. split; [by rewrite R|by apply Ha]. }
  case_bool_decide as Eg; cbn [negb]; wp_steps; [|by apply finished_noop].
  apply wp_save_record; [|intros s1 e HS R; apply finished_noop; [apply HS|by rewrite R|exact (saved_frame _ _ _ _ HS)]].
  intros s1 HS R1. assert (dbs s1 = dbs s /\ frame_objs (rec s) s s1) as [E1 F1].
  { destruct HS as [HS|(_ & Eo & -> & _)]; [split; [apply HS|exact (saved_frame _ _ _ _ HS)]|].
    split; [done|]. intros p _ _. by rewrite Eo. }
  wp_steps. unfold cleanup_donor_buckets. eapply wp_mono; [by apply (wp_cleanup_buckets _ (buckets (plan (rec s))))|].
  intros s2 res [[O2 D2 R2 B2] Hrows]. rewrite E1 in O2, D2.
  assert (frame_objs (rec s) s s2) as F2 by (intros p N1 N2; rewrite B2; by apply F1).
  assert (plan (rec s2) = plan (rec s)) as P2 by (by rewrite R2, R1).
  assert (forall s' r, dbs s' = dbs s2 -> plan (rec s') = plan (rec s) -> frame_objs (rec s) s2 s' ->
    (forall n, r = Ok n -> exists n2, res = Ok n2) ->
    (forall n, r = Ok n -> durable = true -> state (rec s') = Done_ /\ archived s') ->
    finished (ms_path donor) durable s s' r) as Hfin.
  { intros s' r E P F Hr Ha. split; [intros p Hp; rewrite E; by apply O2|by rewrite E|done|by eapply frame_objs_trans|done| |done].
    intros n Hn _ Hset k Hk. destruct (Hr n Hn) as [n2 ->]. rewrite E1, E in *. apply key_in_buckets_spec in Hk as (b & Hb & Hst).
    by apply (Hrows Hset b k). }
  destruct res as [n2|e]; [|by apply Hfin]. wp_steps. apply wp_transition.
  - intros s3 ch r3 (P3 & St3 & _)%apply_transition_plan E3 F3 R3. wp_steps. unfold frame_objs in F3. rewrite P2 in F3.
    apply wp_archive_if. intros s4 [[]|e] E4 R4 Ha F4; unfold frame_objs in F4; rewrite R3, P3, P2 in F4; wp_steps;
      (apply Hfin; [congruence|by rewrite R4, R3, P3|by eapply frame_objs_trans|by eauto|]); [|done].
    intros n _ Hd. split; [by rewrite R4, R3|by apply Ha].
  - intros s3 e E3 F3 R3. unfold frame_objs in F3. rewrite P2 in F3. apply Hfin; [done|by rewrite R3|done|done|done].
Qed.

Lemma wp_gc_eligible c now consumers s :
  wp (maybe_enter_gc_eligible c now consumers) s (fun s' r => dbs s' = dbs s /\ plan (rec s') = plan (rec s) /\
    (r = Ok true -> state (rec s') = GcEligible /\ exists e m, cutover_epoch (rec s) = Some e /\
       minimum_frontier consumers = Some m /\ e <= m)).
Proof.
  unfold maybe_enter_gc_eligible. wp_steps. destruct (cutover_epoch (rec s)) as [e|]; [|by wp_steps].
  destruct (minimum_frontier consumers) as [m|]; [|by wp_steps]. destruct (Z.ltb_spec m e); [by wp_steps|]. wp_steps.
  apply wp_transition.
  - intros s' ch r' (P & St & _)%apply_transition_plan E _ R. wp_steps. rewrite R. split; [done|]. split; [done|].
    intros _. split; [done|]. eauto.
  - intros s' e' E _ R. rewrite R. by split.
Qed.

(** C6: Reclamation never loses a verified row.  Let the comparison of the two
    sides succeed, the consumers pass the cutover frontier, and the donor be
    cleaned up, the cleanup ending in any way, errors of the storage engine and
    of the record store included.  Then the recipient holds every row of the
    migrated buckets exactly as the donor held it when the sides were compared;
    no other row of the donor has changed; a row of the buckets is at the donor
    as before or gone.  When the cleanup succeeds no row of the buckets is left
    at the donor, and with a store the record is filed in the history as done
    and no longer active.  Neither shard is being migrated to another format,
    and no write reaches them in between. *)
Theorem verified_handoff_keeps_rows c now1 now2 now3 donor recipient consumers durable s s1 s2 s3 r :
  settled (dbs s (ms_path donor)) -> settled (dbs s (ms_path recipient)) -> ms_path donor <> ms_path recipient ->
  verify_or_rollback c now1 donor recipient s = Done (s1, Ok tt) ->
  maybe_enter_gc_eligible c now2 consumers s1 = Done (s2, Ok true) ->
  finish_done durable now3 donor s2 = Done (s3, r) ->
  let bs := buckets (plan (rec s)) in
  (forall k, key_in_buckets bs k = true -> view (dbs s3 (ms_path recipient)) k = view (dbs s (ms_path donor)) k) /\
  (forall k, ordinary k -> view (dbs s3 (ms_path donor)) k = view (dbs s (ms_path donor)) k \/
     (view (dbs s3 (ms_path donor)) k = None /\ key_in_buckets bs k = true)) /\
  (forall n, r = Ok n ->
     (forall k, key_in_buckets bs k = true -> view (dbs s3 (ms_path donor)) k = None) /\
     (durable = true -> state (rec s3) = Done_ /\ archived s3)).
Proof.
  intros Hd Hr Hne E1 E2 E3 bs.
  destruct (wp_done _ _ _ _ _ (wp_verify c now1 donor recipient s Hd Hr) E1) as (D1 & P1 & Hagree & _).
  destruct (wp_done _ _ _ _ _ (wp_gc_eligible c now2 consumers s1) E2) as (D2 & P2 & Hgc).
  destruct (Hgc eq_refl) as [Hst _]. assert (dbs s2 = dbs s) as D by congruence.
  assert (buckets (plan (rec s2)) = bs) as Hbs by (by rewrite P2, P1).
  destruct (wp_done _ _ _ _ _ (wp_finish_done durable now3 donor s2) E3) as [Ho Hdn _ _ _ Hrows Har].
  rewrite Hbs in Hdn, Hrows. rewrite D in Ho, Hdn, Hrows. split; [|split].
  - intros k Hk. rewrite Ho by done. symmetry. by apply Hagree.
  - intros k Hk. by eapply reclaimed_view.
  - intros n Hn. split; [intros k Hk; by eapply Hrows|by eapply Har].
Qed.

(* ------------------------------------------------------------------ *)
(** ** Start-up recovery *)

(** The records whose cleanup may be replayed. *)
Definition reclaimable (rc : MigrationRecovery) (handles : gmap Z MigrationShard) (donor : MigrationShard) : Prop :=
  let r := recovered rc in
  state r = GcEligible /\ cleanup_intent r = true /\ is_Some (cutover_epoch r) /\
  verification_progress r = Some 100 /\
  exists x l, donor_shards (plan r) = [x] /\ x <> recipient_shard (plan r) /\
    current_leases rc !! recipient_shard (plan r) = Some (Some l) /\ handles !! x = Some donor.

Lemma startup_decision_replay rc handles donor :
  startup_decision rc handles = inr donor -> reclaimable rc handles donor.
Proof.
  unfold startup_decision, reclaimable. destruct (state (recovered rc)); try done; [|by destruct (cleanup_intent _)].
  destruct (cleanup_intent (recovered rc)); [|done]. cbn [negb]. case_bool_decide as Ec; [done|].
  case_bool_decide as Ev; [|done]. cbn [negb]. destruct (donor_shards _) as [|d [|? ?]]; [done| |done].
  destruct (Z.eqb_spec d (recipient_shard (plan (recovered rc)))) as [|Hne]; [done|].
  destruct (current_leases rc !! _) as [[l|]|]; [|done|done]. destruct (handles !! d) as [x|] eqn:Eh; [|done].
  intros [= ->]. split_and!; [done|done|by destruct (cutover_epoch _)|done|]. by exists d, l.
Qed.

Definition rc_id (rc : MigrationRecovery) : bytes := migration_id (plan (recovered rc)).

Definition acts_on (handles : gmap Z MigrationShard) (rc : MigrationRecovery) : bool :=
  match startup_decision rc handles with inl (Blocked _) => false | _ => true end.

(** A view of a shard after recovery: rows of reclaimable migrations may be gone. *)
Definition recovered_views (handles : gmap Z MigrationShard) (recs : list MigrationRecovery) s s' : Prop :=
  forall path k, ordinary k -> view (dbs s' path) k = view (dbs s path) k \/
    (view (dbs s' path) k = None /\ exists rc donor, rc ∈ recs /\ reclaimable rc handles donor /\
       ms_path donor = path /\ key_in_buckets (buckets (plan (recovered rc))) k = true).

Definition recovered_objs (handles : gmap Z MigrationShard) (recs : list MigrationRecovery) s s' : Prop :=
  forall p, (forall rc, rc ∈ recs -> acts_on handles rc = true -> p <> ActivePath (rc_id rc) /\ p <> HistoryPath (rc_id rc)) ->
    stored (objs s') !! p = stored (objs s) !! p.

Definition status_ok (handles : gmap Z MigrationShard) (e : MigrationRecovery * MigrationStartupStatus) : Prop :=
  match startup_decision e.1 handles with inl st => e.2 = st | inr _ => exists n, e.2 = ReplayedCleanup n end.

Lemma wp_recover_one now handles rc s :
  wp (recover_one now handles rc) s (fun s' r => recovered_views handles [rc] s s' /\ recovered_objs handles [rc] s s' /\
    match r with Ok st => status_ok handles (rc, st) | Err _ => True end).
Proof.
  unfold recover_one, status_ok. cbn [fst snd].
  assert (forall s', dbs s' = dbs s -> (acts_on handles rc = true -> frame_objs (recovered rc) s s') ->
    (acts_on handles rc = false -> stored (objs s') = stored (objs s)) ->
    recovered_views handles [rc] s s' /\ recovered_objs handles [rc] s s') as Hnoop.
  { intros s' E F N. split; [intros path k _; left; by rewrite E|]. intros p Hp. destruct (acts_on handles rc) eqn:Ea.
    - destruct (Hp rc) as [N1 N2]; [by left|done|]. by apply F.
    - by rewrite N. }
  destruct (startup_decision rc handles) as [[| n|why]|donor] eqn:Ed.
  - wp_steps. apply wp_archive. intros s' res E R Ha F.
    assert (recovered_views handles [rc] s s' /\ recovered_objs handles [rc] s s') as [HV HO].
    { apply Hnoop; [done|by intros _ p N1 N2; apply F|unfold acts_on; by rewrite Ed]. }
    destruct res; wp_steps; by split_and!.
  - wp_steps. destruct (Hnoop s) as [HV HO]; by try split_and!.
  - wp_steps. destruct (Hnoop s) as [HV HO]; by try split_and!.
  - wp_steps. eapply wp_mono; [apply wp_finish_done|]. intros s' r [Ho Hdn _ Hf _ _ _]. cbn in Ho, Hdn, Hf.
    assert (recovered_views handles [rc] s s' /\ recovered_objs handles [rc] s s') as [HV HO].
    { split.
      - intros path k Hk. destruct (decide (path = ms_path donor)) as [->|Hne]; [|left; by rewrite Ho].
        destruct (reclaimed_view _ _ _ _ Hdn Hk) as [E|[E Hb]]; [by left|right]. split; [done|].
        exists rc, donor. split; [by left|]. split; [by apply startup_decision_replay|done].
      - intros p Hp. destruct (Hp rc) as [N1 N2]; [by left|unfold acts_on; by rewrite Ed|]. by apply Hf. }
    destruct r; wp_steps; split_and!; eauto.
Qed.

Lemma wp_recover_all now handles recs outs s :
  wp (recover_all now handles recs outs) s (fun s' r => recovered_views handles recs s s' /\ recovered_objs handles recs s s' /\
    match r with
    | Ok l => exists new, l = outs ++ new /\ new.*1 = recs /\ Forall (status_ok handles) new
    | Err _ => True
    end).
Proof.
  revert outs s. induction recs as [|rc recs IH]; intros outs s; cbn [recover_all].
  { wp_steps. split; [by intros path k _; left|]. split; [done|]. exists []. by rewrite app_nil_r. }
  wp_steps. eapply wp_mono; [apply wp_recover_one|]. intros s1 r (V1 & O1 & Hst).
  assert (forall s2, recovered_views handles recs s1 s2 -> recovered_objs handles recs s1 s2 ->
    recovered_views handles (rc :: recs) s s2 /\ recovered_objs handles (rc :: recs) s s2) as Hcomp.
  { intros s2 V2 O2. split.
    - intros path k Hk. destruct (V2 path k Hk) as [->|(E & rc' & donor & Hin & Hrest)].
      + destruct (V1 path k Hk) as [->|(E & rc' & donor & Hin & Hrest)]; [by left|right]. split; [done|].
        exists rc', donor. split; [|done]. apply list_elem_of_singleton in Hin as ->. by left.
      + right. split; [done|]. exists rc', donor. split; [by right|done].
    - intros p Hp. rewrite O2 by (intros rc' Hin; apply Hp; by right). apply O1. intros rc' Hin%list_elem_of_singleton.
      subst. apply Hp. by left. }
  destruct r as [st|e].
  - eapply wp_mono; [apply IH|]. intros s2 r2 (V2 & O2 & Hr). destruct (Hcomp s2 V2 O2) as [V O].
    split; [done|]. split; [done|]. destruct r2; [|done]. destruct Hr as (new & -> & Hn & Hall).
    exists ((rc, st) :: new). rewrite <-app_assoc, fmap_cons, Hn. split; [done|]. split; [done|]. by constructor.
  - destruct (Hcomp s1) as [V O]; [by intros path k _; left|done|]. by split_and!.
Qed.

(** C18: Recovery at start-up deletes rows only of migrations that are safe to
    finish.  However the recovery of the active migrations ends: a row of any
    shard is unchanged unless it belongs to a bucket of an active record in the
    state GC-eligible whose cleanup was durably requested, whose cutover epoch is
    known, whose verification completed, which has exactly one donor that is not
    the recipient, whose recipient is leased, and whose donor is the given open
    shard.  When the recovery succeeds every record is reported in order with the
    status decided for it, and with distinct ids the stored record of every
    blocked migration is exactly as before. *)
Theorem startup_reclaims_only_verified now g handles s s' r recs :
  recover_active (objs s) (fun x => leases g !! x) = Ok recs ->
  recover_on_start now g handles s = Done (s', r) ->
  recovered_views handles recs s s' /\
  (forall outs, r = Ok outs -> outs.*1 = recs /\ Forall (status_ok handles) outs) /\
  (NoDup (rc_id <$> recs) -> forall rc why, rc ∈ recs -> startup_decision rc handles = inl (Blocked why) ->
     stored (objs s') !! ActivePath (rc_id rc) = stored (objs s) !! ActivePath (rc_id rc)).
Proof.
  intros Er E. unfold recover_on_start in E. rewrite Er in E.
  destruct (recover_all now handles recs [] s) as [[s1 r1]|] eqn:Ea; [|done]. cbn [mbind outcome_bind] in E.
  injection E as <- <-.
  destruct (wp_done _ _ _ _ _ (wp_recover_all now handles recs [] s) Ea) as (HV & HO & Hr).
  split; [done|]. split.
  - intros outs Ho. destruct r1 as [l|e]; [|done]. injection Ho as <-. by destruct Hr as (new & -> & ? & ?).
  - intros Hnd rc why Hin Hd. apply HO. intros rc' Hin' Ha. split; [|done]. intros [= Eid].
    assert (rc' = rc) as ->; [|unfold acts_on in Ha; by rewrite Hd in Ha].
    apply list_elem_of_lookup in Hin as [i Hi], Hin' as [j Hj].
    assert (i = j) as ->; [|congruence]. apply (NoDup_lookup _ _ _ (rc_id rc) Hnd); rewrite list_lookup_fmap.
    + by rewrite Hi.
    + rewrite Hj. cbn. by rewrite Eid.
Qed.
End reclamation.

(* ------------------------------------------------------------------ *)
(** ** A concrete cluster *)

Module FileStore.
#[export] Instance file_store : RecordStore := {|
  Objects := gmap RecordPath MigrationRecord;
  Json := MigrationRecord;
  ObjectError := unit;
  is_not_found _ := true;
  stored o := o;
  object_get o p := match o !! p with Some j => Ok j | None => Err tt end;
  object_put o p j := (<[p := j]> o, Ok tt);
  object_delete o p := match o !! p with Some _ => (delete p o, Ok tt) | None => (o, Err tt) end;
  object_list o := omap (fun e => match e.1 with ActivePath i => Some (Ok i) | HistoryPath _ => None end) (map_to_list o);
  to_vec r := r;
  from_slice j := Some j
|}.

#[export] Instance file_store_laws : RecordStoreLaws.
Proof.
  split; simpl.
  - done.
  - intros o p j. destruct (o !! p); [|done]. by intros [= ->].
  - intros o p e. by destruct (o !! p).
  - intros o p j o' r [= <- <-]. by left.
  - intros o p o' r. destruct (o !! p) eqn:E; intros [= <- <-]; [by left|]. left. symmetry. by apply delete_id.
  - intros o p o' e. destruct (o !! p) eqn:E; intros [= <-]. done.
Qed.

#[export] Instance file_store_up : RecordStoreUp.
Proof. split. intros o p j. by eexists. Qed.
End FileStore.
Import SnapStore FileStore.

Definition final {A} (m : M A) (s : Cluster) : Cluster := match m s with Done (s', _) => s' | Panic => s end.

Lemma run_final {A} (m : M A) s r : (match m s with Done (_, r') => r' = r | Panic => False end) -> m s = Done (final m s, r).
Proof. unfold final. destruct (m s) as [[s' r']|]; [by intros ->|done]. Qed.

(** A shard with the given rows, in storage format 1 or 3. *)
Definition shard_with (fv : Z) (rows : list (bytes * bytes)) : ShardDb :=
  {| db := {| live := <[format_version_key := [fv]]>
                (list_to_map ((fun e => (if fv =? 3 then format_v3_key e.1 else e.1, e.2)) <$> rows)); taken := [] |};
     last_epoch := 0; allocated_epoch := 0; format_version := fv; migration_pending := false;
     fail_writes := false; fail_flushes := false; fail_scans := false |}.

Definition donor_shard : MigrationShard := {| ms_shard_id := 1; ms_path := [1]; ms_frontier := 42 |}.
Definition recipient_shard_2 : MigrationShard := {| ms_shard_id := 2; ms_path := [2]; ms_frontier := 42 |}.
Definition row_a : bytes := bucket_key_prefix 7 ++ [0x61].
Definition row_b : bytes := bucket_key_prefix 7 ++ [0x62].

(** Bucket 7 moves from shard 1 to shard 2 and has been cut over. *)
Definition at_cutover : MigrationRecord :=
  let r := record_new 0 [0x6D] [1] 2 {[7]} 42 9 in
  {| plan := plan r; state := Cutover; copy := copy r; frontiers := frontiers r; cutover_epoch := Some 42;
     verification_progress := None; cleanup_intent := false; updated_at_ms := 0 |}.

Definition cluster_of (donor recipient : ShardDb) : Cluster :=
  {| objs := (∅ : gmap RecordPath MigrationRecord);
     dbs := fun p => if bool_decide (p = [1]) then donor else recipient;
     ckpt := {| rounds := with_config [1] 10; used_credits := 0; all_credits := 8 |}; rec := at_cutover |}.

Definition durable_coordinator : MigrationCoordinator :=
  {| has_store := true; snapshotting_timeout := 30000; copying_timeout := 300000; cutover_timeout := 60000;
     cutover_lag_budget := 100 |}.

Definition caught_up : gmap string Z := {[ "sink"%string := 50 ]}.

Definition agreeing : Cluster := cluster_of (shard_with 1 [(row_a, [10])]) (shard_with 1 [(row_a, [10])]).
Definition agreeing_1 : Cluster := final (verify_or_rollback durable_coordinator 1 donor_shard recipient_shard_2) agreeing.
Definition agreeing_2 : Cluster := final (maybe_enter_gc_eligible durable_coordinator 2 caught_up) agreeing_1.
Definition agreeing_3 : Cluster := final (finish_done true 3 donor_shard) agreeing_2.

Lemma verified_handoff_keeps_rows_witness :
  view (dbs agreeing_3 [2]) row_a = Some [10] /\ view (dbs agreeing_3 [1]) row_a = None.
Proof.
  destruct (verified_handoff_keeps_rows durable_coordinator 1 2 3 donor_shard recipient_shard_2 caught_up true
    agreeing agreeing_1 agreeing_2 agreeing_3 (Ok 1)) as (Hr & _ & Hd).
  - split; [split; vm_compute; reflexivity|reflexivity].
  - split; [split; vm_compute; reflexivity|reflexivity].
  - discriminate.
  - apply (run_final (verify_or_rollback durable_coordinator 1 donor_shard recipient_shard_2)). vm_compute. reflexivity.
  - apply (run_final (maybe_enter_gc_eligible durable_coordinator 2 caught_up)). vm_compute. reflexivity.
  - apply (run_final (finish_done true 3 donor_shard)). vm_compute. reflexivity.
  - split.
    + rewrite Hr by (vm_compute; reflexivity). vm_compute. reflexivity.
    + apply (proj1 (Hd 1 eq_refl)). vm_compute. reflexivity.
Defined.

(** Two active migrations at start-up: one whose cleanup was interrupted, one
    whose comparison was. *)
Definition interrupted_cleanup : MigrationRecord :=
  {| plan := plan at_cutover; state := GcEligible; copy := copy at_cutover; frontiers := frontiers at_cutover;
     cutover_epoch := Some 42; verification_progress := Some 100; cleanup_intent := true; updated_at_ms := 0 |}.
Definition interrupted_verification : MigrationRecord :=
  let r := record_new 0 [0x6E] [1] 2 {[8]} 42 9 in
  {| plan := plan r; state := Verifying; copy := copy r; frontiers := frontiers r; cutover_epoch := Some 42;
     verification_progress := Some 0; cleanup_intent := false; updated_at_ms := 0 |}.

Definition restarting : Cluster :=
  {| objs := <[ActivePath [0x6D] := interrupted_cleanup]> (<[ActivePath [0x6E] := interrupted_verification]> ∅)
       : gmap RecordPath MigrationRecord;
     dbs := dbs agreeing; ckpt := ckpt agreeing; rec := at_cutover |}.

Definition leases_after_restart : ShardManagerInner :=
  {| leases := {[2 := new_lease 0 2 5 1 default_heat]}; ShardLeases.next_token := 2; leader_epoch := 0 |}.
Definition open_donors : gmap Z MigrationShard := {[1 := donor_shard]}.

Definition restarted : Cluster :=
  match recover_on_start 4 leases_after_restart open_donors restarting with Done (s, _) => s | Panic => restarting end.

Definition active_records : list MigrationRecovery :=
  match recover_active (objs restarting) (fun x => leases leases_after_restart !! x) with Ok l => l | Err _ => [] end.

Lemma startup_reclaims_only_verified_witness :
  view (dbs restarted [2]) row_a = Some [10] /\
  forall rc why, rc ∈ active_records -> startup_decision rc open_donors = inl (Blocked why) ->
    stored (objs restarted) !! ActivePath (rc_id rc) = stored (objs restarting) !! ActivePath (rc_id rc).
Proof.
  destruct (startup_reclaims_only_verified 4 leases_after_restart open_donors restarting restarted
    (match recover_on_start 4 leases_after_restart open_donors restarting with Done (_, r) => r | Panic => Ok [] end)
    active_records) as (HV & _ & HB).
  - vm_compute. reflexivity.
  - unfold restarted. destruct (recover_on_start 4 leases_after_restart open_donors restarting) as [[s r]|] eqn:E; [reflexivity|].
    exfalso. apply (f_equal (fun o => match o with Done _ => true | Panic => false end)) in E. vm_compute in E. discriminate.
  - split; [|apply HB; apply (bool_decide_unpack _); vm_compute; exact I].
    destruct (HV [2] row_a) as [E|(E & rc & donor & _ & (_ & _ & _ & _ & x & l & _ & _ & _ & Hh) & Hp & _)].
    + eexists _, _. split; [reflexivity|discriminate].
    + rewrite E. vm_compute. reflexivity.
    + unfold open_donors in Hh. apply lookup_singleton_Some in Hh as [_ <-]. discriminate.
Defined.

(** C35: Reclamation does not wait for verification.  A migration is cut over
    while one row of its bucket has reached the donor only.  The comparison
    cannot read the recipient, which is in storage format 3, and fails, leaving
    the verification at 0 percent; the migration can enter the GC-eligible state
    all the same, and finishing it deletes the donor's row, which no shard holds
    any more.  Recovery at start-up would have refused the same record. *)
Theorem unverified_reclamation_loses_rows :
  exists (s s1 s2 s3 : Cluster) e n,
    state (rec s) = Cutover /\
    verify_or_rollback durable_coordinator 1 donor_shard recipient_shard_2 s = Done (s1, Err e) /\
    verification_progress (rec s1) = Some 0 /\
    maybe_enter_gc_eligible durable_coordinator 2 caught_up s1 = Done (s2, Ok true) /\
    finish_done true 3 donor_shard s2 = Done (s3, Ok n) /\
    view (dbs s [1]) row_a = Some [10] /\ view (dbs s3 [1]) row_a = None /\ view (dbs s3 [2]) row_a = None /\
    startup_decision {| recovered := set_cleanup_intent (rec s2);
      current_leases := list_to_map [(1, None); (2, Some (new_lease 0 2 5 1 default_heat))] |} open_donors
      = inl (Blocked VerificationNotComplete).
Proof.
  set (s := cluster_of (shard_with 1 [(row_a, [10])]) (shard_with 3 [])).
  set (m1 := verify_or_rollback durable_coordinator 1 donor_shard recipient_shard_2).
  set (m2 := maybe_enter_gc_eligible durable_coordinator 2 caught_up). set (m3 := finish_done true 3 donor_shard).
  exists s, (final m1 s), (final m2 (final m1 s)), (final m3 (final m2 (final m1 s))), MigrationStorage, 1.
  split; [reflexivity|]. split; [apply run_final; vm_compute; reflexivity|]. split; [vm_compute; reflexivity|].
  split; [apply run_final; vm_compute; reflexivity|]. split; [apply run_final; vm_compute; reflexivity|].
  split; [vm_compute; reflexivity|]. split; [vm_compute; reflexivity|]. split; vm_compute; reflexivity.
Qed.

(** C36: A write accepted after the cutover undoes the cutover and is lost to the
    donor.  The two sides agree and the migration is cut over, so the recipient
    is authoritative.  A write of the cutover epoch is routed to the recipient
    alone and acknowledged.  The comparison now finds the sides different and
    rolls the migration back to dual writing, where the donor is authoritative
    again; the donor does not have the acknowledged row. *)
Theorem cutover_write_rolled_back :
  exists (s s' : Cluster) (w : RoutedWrite) d' key,
    agree {[7]} (dbs s [1]) (dbs s [2]) /\ recipient_authoritative (state (rec s)) = true /\
    apply_write_at_epoch (rec s) w 42 (dbs s [1]) (dbs s [2]) = Done (dbs s [1], d', Ok 1%nat) /\
    verify_or_rollback durable_coordinator 1 donor_shard recipient_shard_2 (with_db s [2] d')
      = Done (s', Err (VerificationDiverged key)) /\
    donor_authoritative (state (rec s')) = true /\
    view (dbs s' [1]) (w_key w) = None /\ view (dbs s' [2]) (w_key w) = Some (w_value w).
Proof.
  set (w := {| bucket := 7; bucket_map_version := 9; w_key := row_b; w_value := [20] |}).
  set (d' := match apply_write_at_epoch at_cutover w 42 (dbs agreeing [1]) (dbs agreeing [2]) with
             | Done (_, d', _) => d' | Panic => dbs agreeing [2] end).
  set (m := verify_or_rollback durable_coordinator 1 donor_shard recipient_shard_2).
  exists agreeing, (final m (with_db agreeing [2] d')), w, d', (hex_key row_a).
  split; [done|]. split; [reflexivity|]. split; [vm_compute; reflexivity|].
  split; [apply run_final; vm_compute; reflexivity|].
  split; [vm_compute; reflexivity|]. split; vm_compute; reflexivity.
Qed.
