(* ===== verification/HandoffCopy.v ===== *)
(** * The copy of a bucket handoff

    [copy_bounded_chunks] writes the pages of the donors' checkpoints to the
    recipient and advances a persisted cursor per donor.  The copy can fail at
    any call and be tried again, from the record in memory or from the stored
    one after a restart. *)
From Stdlib Require Import Ascii String.
From stdpp Require Import base tactics list gmap numbers option fin_maps sorting functions relations.
From Stdlib Require Import ZArith Lia ZifyBool.
From stdpp Require Import list.
From S2P Require Import Progress ShardLeases Checkpoints LeaseStore Prelude Kernels Laws MergeOps Keys Store ShardDb Paging Reader Handoff HandoffSafety.
Local Open Scope Z_scope.

(* ------------------------------------------------------------------ *)
(** ** The checkpoints that are copied *)

(** The storage format written in the contents of a checkpoint. *)
Definition content_format (m : gmap bytes bytes) : Z :=
  match m !! format_version_key with None => 1 | Some [b] => b | Some _ => 0 end.

Definition strip_of (m : gmap bytes bytes) : bool := content_format m =? 2.

(** A checkpoint holds a row under a logical key. *)
Definition holds (m : gmap bytes bytes) (k v : bytes) : Prop := m !! physical_prefix (strip_of m) k = Some v.

Section copying.
Context `{SlateReader, RecordStore, !SlateDbLaws, !SlateReaderLaws, !RecordStoreLaws}.
Context (P : MigrationPlan) (SN : gmap Z bytes) (content : Z -> gmap bytes bytes).
Context (donors : list MigrationShard) (recipient : MigrationShard).
Implicit Types (d : ShardDb) (s : Cluster).

(** Keys are such as the key encoders build, and no two donors hold different
    values for one key of the buckets. *)
Record sources_ok : Prop := {
  src_ordinary donor k v : donor ∈ donors -> holds (content (ms_shard_id donor)) k v -> ordinary k;
  src_agree donor donor' k v v' : donor ∈ donors -> donor' ∈ donors -> key_in_buckets (buckets P) k = true ->
    holds (content (ms_shard_id donor)) k v -> holds (content (ms_shard_id donor')) k v' -> v = v'
}.

Definition pages_at (x : Z) : list (result StorageError (list (bytes * bytes))) :=
  pages_of (content x) (strip_of (content x)) [] MAX_COPY_CHUNK_ROWS MAX_COPY_CHUNK_BYTES.

Definition recipient_view s : bytes -> option bytes := view (dbs s (ms_path recipient)).

(** The rows of the buckets on the first [c] pages have reached the recipient. *)
Definition copied_upto (x c : Z) (V : bytes -> option bytes) : Prop :=
  forall i page k v, pages_at x !! i = Some (Ok page) -> Z.of_nat i < c -> (k, v) ∈ page ->
    key_in_buckets (buckets P) k = true -> V k = Some v.

(** A record whose cursors are right. *)
Record good_record (V : bytes -> option bytes) (r : MigrationRecord) : Prop := {
  gr_plan : plan r = P;
  gr_snapshots : donor_checkpoint_snapshots (copy r) = SN;
  gr_cursors donor : donor ∈ donors ->
    copied_upto (ms_shard_id donor) (default 0 (copy_cursors (copy r) !! ms_shard_id donor)) V
}.

Record copy_inv s : Prop := {
  ci_rec : good_record (recipient_view s) (rec s);
  ci_stored j r : stored (objs s) !! ActivePath (migration_id P) = Some j -> from_slice j = Some r ->
    good_record (recipient_view s) r;
  ci_snapshots donor : donor ∈ donors -> exists sid u, SN !! ms_shard_id donor = Some sid /\ parse_str sid = Some u /\
    snapshot_of (db (dbs s (ms_path donor))) u = Some (content (ms_shard_id donor))
}.

(** What has been copied stays. *)
Definition keeps_copied (V V' : bytes -> option bytes) : Prop :=
  forall donor k v, donor ∈ donors -> key_in_buckets (buckets P) k = true ->
    holds (content (ms_shard_id donor)) k v -> V k = Some v -> V' k = Some v.

Lemma keeps_copied_refl V : keeps_copied V V.
Proof. by intros donor k v. Qed.

Lemma keeps_trans V1 V2 V3 : keeps_copied V1 V2 -> keeps_copied V2 V3 -> keeps_copied V1 V3.
Proof. intros K1 K2 donor k v Hd Hk Hh HV. eapply K2; [done..|]. by eapply K1. Qed.

Lemma pages_at_holds x i page k v : pages_at x !! i = Some (Ok page) -> (k, v) ∈ page -> holds (content x) k v.
Proof.
  intros Hi Hin. apply list_elem_of_lookup_2, pages_of_entries in Hi. rewrite Forall_forall in Hi. exact (Hi _ Hin).
Qed.

Lemma copied_mono donor c V V' : donor ∈ donors -> keeps_copied V V' ->
  copied_upto (ms_shard_id donor) c V -> copied_upto (ms_shard_id donor) c V'.
Proof. intros Hd Hk Hc i page k v Hi Hlt Hin Hb. eapply Hk; [done|done|by eapply pages_at_holds|by eapply Hc]. Qed.

Lemma good_mono V V' r : keeps_copied V V' -> good_record V r -> good_record V' r.
Proof. intros Hk [Hp Hs Hc]. split; [done|done|]. intros donor Hd. by eapply copied_mono, Hc. Qed.

(** The last put of a key counts. *)
Lemma puts_effect k (l : list (bytes * bytes)) acc :
  (exists v, (k, v) ∈ l /\ foldl (op_effect k) acc (put_ops l) = Some v) \/
  ((forall v, (k, v) ∉ l) /\ foldl (op_effect k) acc (put_ops l) = acc).
Proof.
  revert acc. induction l as [|[k' v'] l IH]; intros acc.
  { right. split; [|done]. intros v Hin. by apply not_elem_of_nil in Hin. }
  unfold put_ops in *. rewrite fmap_cons. cbn [foldl fst snd].
  change (op_effect k acc (Put k' v')) with (if bool_decide (k' = k) then Some v' else acc).
  destruct (IH (if bool_decide (k' = k) then Some v' else acc)) as [(v & Hin & E)|[Hn E]].
  - left. exists v. split; [by right|done].
  - case_bool_decide as Ek.
    + left. exists v'. subst k'. split; [by left|done].
    + right. split; [|done]. intros v [E'|Hin]%elem_of_cons; [congruence|by apply (Hn v)].
Qed.

(** The effect of writing a chunk on the recipient's view. *)
Lemma chunk_written d d' (ok : Prop) l k : batch_step d (put_ops l) d' ok -> Forall (fun e => ordinary e.1) l -> ordinary k ->
  (exists v, (k, v) ∈ l /\ view d' k = Some v) \/ (view d' k = view d k /\ (ok -> forall v, (k, v) ∉ l)).
Proof.
  intros Hb Hl Hk. assert (physical_key d' k = physical_key d k) as Ep
    by (unfold physical_key; by rewrite (bs_format _ _ _ _ Hb)).
  unfold view. rewrite Ep. destruct (bs_contents _ _ _ _ Hb) as [[-> _]|[-> Hn]]; [|right; by split].
  rewrite apply_ops_view. unfold view_after. rewrite view_after_physical by (try done; by apply Forall_fmap).
  destruct (puts_effect k l (contents (db d) !! physical_key d k)) as [(v & Hin & E)|[Hno E]]; [left; by exists v|].
  right. rewrite E. by split.
Qed.

Lemma chunk_of_spec bs (l : list (bytes * bytes)) e : e ∈ chunk_of bs l -> e ∈ l.
Proof. unfold chunk_of. destruct (existsb _ _); [by intros [_ ?]%list_elem_of_filter|done]. Qed.

Lemma chunk_of_keeps bs (l : list (bytes * bytes)) k v : (k, v) ∈ l -> key_in_buckets bs k = true -> (k, v) ∈ chunk_of bs l.
Proof. intros Hin Hb. unfold chunk_of. destruct (existsb _ _); [|done]. by apply list_elem_of_filter. Qed.

(** Saving a good record. *)
Lemma wp_save_good durable r s (Q : Cluster -> result MigrationError unit -> Prop) :
  copy_inv s -> good_record (recipient_view s) r ->
  (forall s', copy_inv s' -> dbs s' = dbs s -> rec s' = r -> Q s' (Ok tt)) ->
  (forall s' e, copy_inv s' -> dbs s' = dbs s -> Q s' (Err e)) -> wp (save_record durable r) s Q.
Proof.
  intros [Hr Hst Hsn] Hg Hok Herr.
  assert (forall s' ok, saved r s s' ok -> rec s' = r \/ rec s' = rec s -> copy_inv s') as Hinv.
  { intros s' ok (E & _ & Ho) Hrec. unfold recipient_view in *. split; unfold recipient_view; rewrite E.
    - by destruct Hrec as [-> | ->].
    - intros j r0 Hj Hfs. destruct Ho as [Ho|[Ho _]]; rewrite Ho in Hj; [|by eapply Hst].
      rewrite (gr_plan _ _ Hg), lookup_insert_eq in Hj. injection Hj as <-. rewrite from_slice_to_vec in Hfs. by injection Hfs as <-.
    - done. }
  apply wp_save_record.
  - intros s' HS R. assert (dbs s' = dbs s) as E by (by destruct HS as [(-> & _)|(_ & _ & -> & _)]).
    apply Hok; [|done|done]. destruct HS as [HS|(_ & Eo & _ & _)]; [by eapply Hinv; [done|left]|].
    unfold recipient_view in *. split; unfold recipient_view; rewrite E; [by rewrite R|by rewrite Eo|done].
  - intros s' e HS R. apply Herr; [by eapply Hinv; [done|right]|apply HS].
Qed.

Context (Hsrc : sources_ok).

(** Writing a chunk of a donor keeps the invariant and brings its rows. *)
Lemma write_chunk_inv donor i page d' ok s : donor ∈ donors -> pages_at (ms_shard_id donor) !! i = Some (Ok page) ->
  copy_inv s -> batch_step (dbs s (ms_path recipient)) (put_ops (chunk_of (buckets P) page)) d' ok ->
  let s' := with_db s (ms_path recipient) d' in
  copy_inv s' /\ keeps_copied (recipient_view s) (recipient_view s') /\
  (ok -> forall k v, (k, v) ∈ page -> key_in_buckets (buckets P) k = true -> recipient_view s' k = Some v).
Proof.
  intros Hd Hi Hinv Hb s'.
  assert (Forall (fun e => ordinary e.1) (chunk_of (buckets P) page)) as Hord.
  { apply Forall_forall. intros [k v] Hin%chunk_of_spec. eapply (src_ordinary Hsrc donor); [done|by eapply pages_at_holds]. }
  assert (recipient_view s' = view d') as EV by (unfold recipient_view; cbn; by rewrite fn_lookup_insert).
  assert (keeps_copied (recipient_view s) (recipient_view s')) as Hkeep.
  { intros donor' k v Hd' Hk Hh HV. rewrite EV.
    destruct (chunk_written _ _ _ _ k Hb Hord (proj1 (bucket_key_ordinary _ _ Hk))) as [(v' & Hin & ->)|[-> _]]; [|done].
    f_equal. apply chunk_of_spec in Hin. eapply (src_agree Hsrc donor donor' k); [done|done|done|by eapply pages_at_holds|done]. }
  split; [|split; [done|]].
  - destruct Hinv as [Hr Hst Hsn]. split; [by eapply good_mono|intros j r Hj Hfs; by eapply good_mono, Hst|].
    intros donor' Hd'. destruct (Hsn donor' Hd') as (sid & u & E1 & E2 & E3). exists sid, u. split; [done|]. split; [done|].
    cbn. destruct (decide (ms_path donor' = ms_path recipient)) as [E|Hne];
      [rewrite E, fn_lookup_insert; rewrite E in E3; by apply (bs_snapshots _ _ _ _ Hb)|by rewrite fn_lookup_insert_ne].
  - intros Hok k v Hin Hk. rewrite EV. pose proof (chunk_of_keeps _ _ _ _ Hin Hk) as Hc.
    destruct (chunk_written _ _ _ _ k Hb Hord (proj1 (bucket_key_ordinary _ _ Hk))) as [(v' & Hin' & ->)|[_ Hno]];
      [|by destruct (Hno Hok v)].
    f_equal. apply chunk_of_spec in Hin'. eapply (src_agree Hsrc donor donor k);
      [done|done|done|by eapply pages_at_holds|by eapply pages_at_holds].
Qed.

Lemma with_page_done_good now r x i rows bytes r' V donor :
  with_page_done now r x (Z.of_nat i) rows bytes = Done r' -> donor ∈ donors -> ms_shard_id donor = x ->
  good_record V r -> copied_upto x (Z.of_nat i + 1) V ->
  good_record V r' /\ default 0 (copy_cursors (copy r') !! x) = Z.of_nat i + 1.
Proof.
  intros E Hd Hx [Hp Hs Hc] Hup. unfold with_page_done in E. cbn zeta in E.
  destruct (expect (checked_u64 (_ + bytes))) as [cb|]; cbn [mbind outcome_bind] in E; [|done].
  destruct (expect _) as [cr|]; cbn [mbind outcome_bind] in E; [|done]. injection E as <-. cbn [copy copy_cursors].
  split; [|by rewrite lookup_insert_eq]. split; [done|done|]. cbn [copy copy_cursors]. intros donor' Hd'.
  destruct (decide (ms_shard_id donor' = x)) as [->|Hne]; [by rewrite lookup_insert_eq|]. rewrite lookup_insert_ne by done. by apply Hc.
Qed.

(** What a page of a donor leads to. *)
Definition page_copied {A} (donor : MigrationShard) (i : nat) s s' (r : result MigrationError A) : Prop :=
  copy_inv s' /\ keeps_copied (recipient_view s) (recipient_view s') /\
  match r with
  | Ok _ => copied_upto (ms_shard_id donor) (Z.of_nat i + 1) (recipient_view s') /\
      default 0 (copy_cursors (copy (rec s')) !! ms_shard_id donor) = Z.of_nat i + 1
  | Err _ => True
  end.

Lemma wp_finish_page durable now donor i rows bytes s : donor ∈ donors -> copy_inv s ->
  copied_upto (ms_shard_id donor) (Z.of_nat i + 1) (recipient_view s) ->
  wp (finish_page durable now (ms_shard_id donor) (Z.of_nat i) rows bytes) s (page_copied donor i s).
Proof.
  intros Hd Hinv Hup. unfold finish_page. wp_steps. apply wp_of_outcome. intros r' Er. wp_steps.
  destruct (with_page_done_good _ _ _ _ _ _ _ _ donor Er Hd eq_refl (ci_rec _ Hinv) Hup) as [Hg Hcur].
  apply wp_save_good; [done|done| |].
  - intros s3 I3 E3 R3. assert (recipient_view s3 = recipient_view s) as EV by (unfold recipient_view; by rewrite E3).
    split; [done|]. rewrite EV. split; [apply keeps_copied_refl|]. by rewrite R3.
  - intros s3 e I3 E3. assert (recipient_view s3 = recipient_view s) as EV by (unfold recipient_view; by rewrite E3).
    split; [done|]. rewrite EV. split; [apply keeps_copied_refl|done].
Qed.

Lemma copied_next donor i page V : pages_at (ms_shard_id donor) !! i = Some (Ok page) ->
  copied_upto (ms_shard_id donor) (Z.of_nat i) V ->
  (forall k v, (k, v) ∈ page -> key_in_buckets (buckets P) k = true -> V k = Some v) ->
  copied_upto (ms_shard_id donor) (Z.of_nat i + 1) V.
Proof.
  intros Hi Hv Hpg j pg k v Hj Hlt Hin Hb. destruct (decide (j = i)) as [->|Hne]; [|eapply Hv; [done|lia|done|done]].
  apply Hpg; [congruence|done].
Qed.

(** One page: the cursor moves only when the page has been written. *)
Lemma wp_copy_page durable now donor i page st s :
  donor ∈ donors -> pages_at (ms_shard_id donor) !! i = Some (Ok page) -> copy_inv s ->
  copied_upto (ms_shard_id donor) (Z.of_nat i) (recipient_view s) ->
  wp (copy_page durable now (ms_shard_id donor) (ms_path recipient) page (Z.of_nat i) st) s (page_copied donor i s).
Proof.
  intros Hd Hi Hinv Hup. unfold copy_page. wp_steps. cbn zeta.
  assert (forall s1, dbs s1 = dbs s -> recipient_view s1 = recipient_view s) as Hsame by (intros s1 E; unfold recipient_view; by rewrite E).
  rewrite (gr_plan _ _ (ci_rec _ Hinv)). apply wp_save_good; [done| | |].
  { destruct (ci_rec _ Hinv) as [Hp Hs Hc]. by split. }
  2:{ intros s1 e I1 E1. split; [done|]. rewrite (Hsame _ E1). split; [apply keeps_copied_refl|done]. }
  intros s1 I1 E1 R1. wp_steps. pose proof (Hsame _ E1) as EV.
  assert (forall s2 (st' : MigrationCopyStats) rows bytes, copy_inv s2 -> keeps_copied (recipient_view s1) (recipient_view s2) ->
    copied_upto (ms_shard_id donor) (Z.of_nat i + 1) (recipient_view s2) ->
    wp (finish_page durable now (ms_shard_id donor) (Z.of_nat i) rows bytes;; mret st') s2 (page_copied donor i s)) as Hdone.
  { intros s2 st' rows bytes I2 K2 U2. rewrite EV in K2. wp_steps. eapply wp_mono; [by apply wp_finish_page|].
    intros s3 [[]|e] (I3 & K3 & Hr3); wp_steps; (split; [done|]); (split; [by eapply keeps_trans|done]). }
  destruct (length _ =? 0)%nat eqn:El.
  - wp_step. apply (Hdone s1 st _ _ I1); [apply keeps_copied_refl|].
    apply (copied_next donor i page); [done|by rewrite EV|]. intros k v Hin Hb.
    pose proof (chunk_of_keeps _ _ _ _ Hin Hb) as Hc. destruct (chunk_of _ _); [by apply not_elem_of_nil in Hc|done].
  - wp_step. apply wp_write_and_flush; [apply Forall_fmap, Forall_forall; done|]. intros d' res Hb.
    destruct (write_chunk_inv donor i page d' _ s1 Hd Hi I1 Hb) as (I2 & K2 & Hok2).
    destruct res as [[]|e]; [|split; [done|]; rewrite <-EV; by split].
    apply wp_of_outcome. intros st' _. apply (Hdone _ st' _ _ I2 K2). apply (copied_next donor i page); [done| |by apply Hok2].
    eapply copied_mono; [done|exact K2|]. by rewrite EV.
Qed.

Lemma wp_copy_pages durable now donor completed rest i st s : donor ∈ donors -> copy_inv s ->
  (forall n pg, rest !! n = Some (Ok pg) -> pages_at (ms_shard_id donor) !! (i + n)%nat = Some (Ok pg)) ->
  copied_upto (ms_shard_id donor) (Z.of_nat i) (recipient_view s) ->
  copied_upto (ms_shard_id donor) completed (recipient_view s) ->
  wp (copy_pages durable now (ms_shard_id donor) (ms_path recipient) completed rest (Z.of_nat i) st) s (fun s' r =>
    copy_inv s' /\ keeps_copied (recipient_view s) (recipient_view s') /\
    match r with
    | Ok _ => (exists ps, rest = Ok <$> ps) /\
        copied_upto (ms_shard_id donor) (Z.of_nat (i + length rest)) (recipient_view s')
    | Err _ => True
    end).
Proof.
  intros Hd. revert i st s. induction rest as [|page rest IH]; intros i st s Hinv Hrest Hup Hdone; cbn [copy_pages].
  { wp_steps. split; [done|]. split; [apply keeps_copied_refl|]. split; [by exists []|]. cbn [length]. by rewrite Nat.add_0_r. }
  wp_steps. apply wp_storage; [|intros _; split; [done|]; split; [apply keeps_copied_refl|done]]. intros entries ->.
  assert (pages_at (ms_shard_id donor) !! i = Some (Ok entries)) as Hi
    by (rewrite <-(Nat.add_0_r i); by apply Hrest).
  assert (forall n pg, rest !! n = Some (Ok pg) -> pages_at (ms_shard_id donor) !! (S i + n)%nat = Some (Ok pg)) as Hrest'
    by (intros n pg Hn; rewrite Nat.add_succ_comm; by apply Hrest).
  replace (Z.of_nat i + 1) with (Z.of_nat (S i)) by lia.
  assert (forall s1 r, copy_inv s1 -> keeps_copied (recipient_view s) (recipient_view s1) ->
    copied_upto (ms_shard_id donor) (Z.of_nat (S i)) (recipient_view s1) ->
    wp (copy_pages durable now (ms_shard_id donor) (ms_path recipient) completed rest (Z.of_nat (S i)) r) s1 (fun s' r =>
      copy_inv s' /\ keeps_copied (recipient_view s) (recipient_view s') /\
      match r with
      | Ok _ => (exists ps, Ok entries :: rest = Ok <$> ps) /\
          copied_upto (ms_shard_id donor) (Z.of_nat (i + length (Ok entries :: rest))) (recipient_view s')
      | Err _ => True
      end)) as Hnext.
  { intros s1 r I1 K1 U1. eapply wp_mono; [apply IH; [done|done|done|by eapply copied_mono]|].
    intros s2 [st2|e] (I2 & K2 & Hr2); (split; [done|]); (split; [by eapply keeps_trans|]); [|done].
    destruct Hr2 as [[ps ->] U2]. split; [by exists (entries :: ps)|]. cbn [length]. by rewrite <-Nat.add_succ_comm. }
  destruct (Z.ltb_spec (Z.of_nat i) completed) as [Hlt|Hge].
  - apply Hnext; [done|apply keeps_copied_refl|]. intros j pg k v Hj Hlt' Hin Hb.
    eapply Hdone; [done|lia|done|done].
  - wp_steps. eapply wp_mono; [by apply wp_copy_page|]. intros s1 [st1|e] (I1 & K1 & Hr1); [|by split_and!].
    apply Hnext; [done|done|]. replace (Z.of_nat (S i)) with (Z.of_nat i + 1) by lia. apply Hr1.
Qed.

Lemma from_reader_format rd r : from_reader rd v1_through_v2 = Ok r ->
  reader r = rd /\ reader_format r = content_format (contents rd).
Proof.
  unfold from_reader, content_format. destruct (slate_get rd format_version_key) as [v|e] eqn:Eg; [|done].
  apply slate_get_spec in Eg. subst v. cbn [lift mbind result_bind].
  destruct (contents rd !! format_version_key) as [[|b [|? ?]]|]; cbn [mbind result_bind]; try done;
    destruct (negb _); try done; match goal with |- (if ?c then _ else _) ≫= _ = _ -> _ => destruct c end;
    try (destruct (slate_get rd (migration_progress_key V1 V2)); cbn [lift mbind result_bind]; [|done]);
    cbn [mbind result_bind]; by intros [= <-].
Qed.

(** The pages a donor sends are those of its checkpoint, up to an error. *)
Lemma wp_donor_reader donor s (Q : Cluster -> result MigrationError ShardReader -> Prop) : donor ∈ donors -> copy_inv s ->
  (forall r, contents (reader r) = content (ms_shard_id donor) -> use_v2 r [] = strip_of (content (ms_shard_id donor)) ->
     Q s (Ok r)) ->
  Q s (Err MigrationStorage) -> wp (donor_reader donor) s Q.
Proof.
  intros Hd [[_ Hsn _] _ Hs] Hok Herr. destruct (Hs donor Hd) as (sid & u & E1 & E2 & E3).
  unfold donor_reader. wp_steps. rewrite Hsn, E1. apply wp_storage; [|done]. intros r Er.
  unfold open_with_snapshot_id in Er. rewrite E2 in Er. cbn [ok_or mbind result_bind] in Er.
  destruct (open_checkpoint _ u) as [rd|e] eqn:Eo; [|done]. cbn [lift mbind result_bind] in Er.
  apply open_checkpoint_spec in Eo. rewrite E3 in Eo. injection Eo as Eo.
  apply from_reader_format in Er as [<- Ef]. apply Hok; [done|]. unfold use_v2, strip_of. rewrite Ef, <-Eo. by rewrite andb_true_r.
Qed.

Definition complete (donor : MigrationShard) (V : bytes -> option bytes) : Prop :=
  exists ps, pages_at (ms_shard_id donor) = Ok <$> ps /\
    copied_upto (ms_shard_id donor) (Z.of_nat (length (pages_at (ms_shard_id donor)))) V.

Lemma wp_copy_donors durable now todo st s : (forall donor, donor ∈ todo -> donor ∈ donors) -> copy_inv s ->
  wp (copy_donors durable now todo recipient st) s (fun s' r =>
    copy_inv s' /\ keeps_copied (recipient_view s) (recipient_view s') /\
    match r with Ok _ => forall donor, donor ∈ todo -> complete donor (recipient_view s') | Err _ => True end).
Proof.
  revert st s. induction todo as [|donor todo IH]; intros st s Htodo Hinv; cbn [copy_donors].
  { wp_steps. split; [done|]. split; [apply keeps_copied_refl|]. intros donor Hd. by apply not_elem_of_nil in Hd. }
  assert (donor ∈ donors) as Hd by (apply Htodo; by left).
  wp_steps. apply wp_donor_reader; [done|done| |split; [done|]; split; [apply keeps_copied_refl|done]].
  intros r Hc Hv. wp_steps. change 0 with (Z.of_nat 0).
  pose proof (scan_pages_spec r [] MAX_COPY_CHUNK_ROWS MAX_COPY_CHUNK_BYTES good_copy_budget) as Hpages.
  rewrite Hc, Hv in Hpages. fold (pages_at (ms_shard_id donor)) in Hpages.
  eapply wp_mono; [apply (wp_copy_pages durable now donor); [done|done| | |]|].
  - intros n pg Hn. cbn. destruct Hpages as [E|(j & e & E)]; rewrite E in Hn; [done|].
    apply lookup_app_Some in Hn as [Hn|[_ Hn]]; [by apply lookup_take_Some in Hn as [? _]|].
    apply list_lookup_singleton_Some in Hn as [_ ?]. done.
  - intros j pg k v _ Hlt. lia.
  - apply (ci_rec _ Hinv). done.
  - intros s1 [st1|e] (I1 & K1 & Hr1); [|by split_and!]. destruct Hr1 as [[ps Eps] U1].
    assert (pages_at (ms_shard_id donor) = Ok <$> ps) as Eat.
    { rewrite <-Eps. destruct Hpages as [E|(j & e & E)]; [done|]. exfalso. rewrite Eps in E.
      assert (Err e ∈ (Ok <$> ps : list (result StorageError (list (bytes * bytes))))) as Hin
        by (rewrite E; apply elem_of_app; right; by left).
      by apply list_elem_of_fmap in Hin as (? & ? & ?). }
    rewrite Eps, <-Eat in U1. eapply wp_mono; [apply IH; [intros d' Hd'; apply Htodo; by right|done]|].
    intros s2 [st2|e] (I2 & K2 & Hr2); (split; [done|]); (split; [by eapply keeps_trans|]); [|done].
    intros donor' [->|Hd']%elem_of_cons; [|by apply Hr2]. exists ps. split; [done|]. by eapply copied_mono.
Qed.

Lemma complete_rows donor V k v : complete donor V -> holds (content (ms_shard_id donor)) k v ->
  key_in_buckets (buckets P) k = true -> V k = Some v.
Proof.
  intros (ps & E & Hup) Hh Hb. assert ((k, v) ∈ mjoin ps) as Hin by (by apply (pages_of_all _ _ _ _ _ _ E)).
  apply list_elem_of_join in Hin as (page & Hin & Hpg). apply list_elem_of_lookup in Hpg as [i Hi].
  assert (pages_at (ms_shard_id donor) !! i = Some (Ok page)) as Hat by (rewrite E, list_lookup_fmap; by rewrite Hi).
  eapply Hup; [done| |done|done]. apply lookup_lt_Some in Hat. lia.
Qed.

(* ------------------------------------------------------------------ *)
(** ** Attempts *)

(** A run of the copy, however it ends, or a restart of the driver from the stored
    record; the shard handles stay open. *)
Inductive attempt : Cluster -> Cluster -> Prop :=
| A_copy c now s s' r : copy_bounded_chunks c now donors recipient s = Done (s', r) -> attempt s s'
| A_restart s r : load (objs s) (migration_id P) = Ok r -> attempt s (with_rec s r).

Lemma attempt_inv s s' : attempt s s' -> copy_inv s -> copy_inv s'.
Proof.
  intros [c now s1 s2 r E|s1 r E] Hinv.
  - by destruct (wp_done _ _ _ _ _ (wp_copy_donors _ now donors no_stats s1 (fun _ Hd => Hd) Hinv) E).
  - unfold load, load_path in E. destruct (object_get _ _) as [j|e] eqn:Eg; [|done].
    destruct (from_slice j) as [r'|] eqn:Ef; [|done]. cbn [ok_or mbind result_bind] in E. destruct (negb _); [done|].
    injection E as ->. apply object_get_ok in Eg. destruct Hinv as [Hr Hs Hsn]. split; [by eapply Hs|done|done].
Qed.

(** The checkpoints are taken and nothing is copied yet. *)
Definition fresh_record (r : MigrationRecord) : Prop :=
  plan r = P /\ donor_checkpoint_snapshots (copy r) = SN /\ copy_cursors (copy r) = ∅.

Record ready_to_copy s : Prop := {
  rc_fresh : fresh_record (rec s);
  rc_stored j r : stored (objs s) !! ActivePath (migration_id P) = Some j -> from_slice j = Some r -> fresh_record r;
  rc_snapshots donor : donor ∈ donors -> exists sid u, SN !! ms_shard_id donor = Some sid /\ parse_str sid = Some u /\
    snapshot_of (db (dbs s (ms_path donor))) u = Some (content (ms_shard_id donor))
}.

Lemma fresh_good V r : fresh_record r -> good_record V r.
Proof.
  intros (E1 & E2 & E3). split; [done|done|]. intros donor _ i page k v _ Hlt. rewrite E3, lookup_empty in Hlt. cbn in Hlt. lia.
Qed.

(** C7: The copy survives any number of failures and restarts.  Start with the
    donors' checkpoints taken and nothing copied, let the copy be attempted any
    number of times, each attempt ending anywhere, with an error of the storage
    engine or of the record store whether or not the call took effect, and let
    the process restart from the stored record in between.  Then the cursors of
    the record in memory and of the stored one never run ahead of the rows, and
    as soon as one attempt succeeds the recipient holds every row that a donor's
    checkpoint has in the migrated buckets, with its value. *)
Theorem copy_resumes s s1 s2 c now st :
  ready_to_copy s -> rtc attempt s s1 ->
  copy_inv s1 /\
  (copy_bounded_chunks c now donors recipient s1 = Done (s2, Ok st) ->
   forall donor k v, donor ∈ donors -> holds (content (ms_shard_id donor)) k v ->
     key_in_buckets (buckets P) k = true -> view (dbs s2 (ms_path recipient)) k = Some v).
Proof.
  intros [Hf Hs Hsn] Hrtc. assert (copy_inv s1) as Hinv.
  { assert (copy_inv s) as H0' by (split; [by apply fresh_good|intros; by eapply fresh_good, Hs|done]).
    clear Hf Hs Hsn. induction Hrtc as [|x y z Hstep _ IH]; [done|]. by eapply IH, attempt_inv. }
  split; [done|]. intros E donor k v Hd Hh Hb.
  destruct (wp_done _ _ _ _ _ (wp_copy_donors _ now donors no_stats s1 (fun _ Hd => Hd) Hinv) E) as (_ & _ & Hc).
  exact (complete_rows donor _ k v (Hc donor Hd) Hh Hb).
Qed.

(* ------------------------------------------------------------------ *)
(** ** Runs in which no call fails *)

Context {HSU : SlateDbUp} {HRU : SlateReaderUp} {HOU : RecordStoreUp}.

Definition runs {A} (m : M A) s (Q : Cluster -> A -> Prop) : Prop := exists s' a, m s = Done (s', Ok a) /\ Q s' a.

Lemma runs_bind {A B} (m : M A) (f : A -> M B) s Q : runs m s (fun s' a => runs (f a) s' Q) -> runs (m ≫= f) s Q.
Proof. intros (s' & a & E & s'' & b & E' & HQ). exists s'', b. split; [|done]. unfold mbind, M_bind. by rewrite E. Qed.
Lemma runs_ret {A} (a : A) s (Q : Cluster -> A -> Prop) : Q s a -> runs (mret a) s Q.
Proof. intros HQ. by exists s, a. Qed.
Lemma runs_mono {A} (m : M A) s (Q Q' : Cluster -> A -> Prop) : runs m s Q -> (forall s' a, Q s' a -> Q' s' a) -> runs m s Q'.
Proof. intros (s' & a & E & HQ) Himp. exists s', a. auto. Qed.
Lemma runs_get_rec s (Q : Cluster -> MigrationRecord -> Prop) : Q s (rec s) -> runs get_rec s Q.
Proof. intros HQ. by exists s, (rec s). Qed.

Lemma runs_save_record durable r s (Q : Cluster -> unit -> Prop) :
  (forall s', rec s' = r -> dbs s' = dbs s -> Q s' tt) -> runs (save_record durable r) s Q.
Proof.
  intros HQ. unfold save_record. apply runs_bind. destruct durable.
  - destruct (up_put (objs s) (ActivePath (migration_id (plan r))) (to_vec r)) as [o E].
    exists (with_objs s o), tt. split; [unfold save; by rewrite E|]. exists (with_rec (with_objs s o) r), tt. split; [done|]. by apply HQ.
  - exists s, tt. split; [done|]. exists (with_rec s r), tt. split; [done|]. by apply HQ.
Qed.

Lemma runs_write path ops s (Q : Cluster -> unit -> Prop) : open_shard (dbs s path) ->
  Forall (fun op => op_key op <> frontier_key) ops -> point_writes ops ->
  (forall d', open_shard d' -> batch_step (dbs s path) ops d' True -> Q (with_db s path d') tt) ->
  runs (write_and_flush_shard path ops) s Q.
Proof.
  intros Hopen Hf Hpt HQ. destruct (write_batch_up (dbs s path) ops Hopen Hf) as (d1 & E & Hd1).
  destruct (write_and_flush_shard path ops s) as [[s' r]|] eqn:Ew.
  2:{ unfold write_and_flush_shard in Ew. rewrite E in Ew. by destruct (flush d1). }
  pose proof Ew as Ew'. unfold write_and_flush_shard in Ew'. rewrite E in Ew'. unfold flush in Ew'.
  destruct Hd1 as (O1 & O2 & O3 & O4). rewrite O4 in Ew'. destruct (up_flush (db d1)) as [db2 Ef]. rewrite Ef in Ew'.
  injection Ew' as <- <-. eexists _, tt. split; [exact Ew|]. apply HQ; [done|].
  assert (wp (write_and_flush_shard path ops) s (fun s' res => exists d', s' = with_db s path d' /\ batch_step (dbs s path) ops d' (res = Ok tt))) as Hw
    by (apply wp_write_and_flush; [done|]; eauto).
  destruct (wp_done _ _ _ _ _ Hw Ew) as (d' & Ed & Hb). apply (f_equal (fun s => dbs s path)) in Ed. cbn in Ed.
  rewrite !fn_lookup_insert in Ed. subst d'. destruct Hb as [? ? ? ? [Hc|[_ Hc]]]; [|done]. split; auto.
Qed.

(** Counters stay below a bound that grows with the pages. *)
Definition page_cost (page : result StorageError (list (bytes * bytes))) : Z :=
  match page with Ok page => zsum entry_bytes page + Z.of_nat (length page) + 1 | Err _ => 0 end.

Record stats_below (K : Z) (st : MigrationCopyStats) : Prop := {
  sb_chunks : 0 <= chunks st <= K;
  sb_rows : 0 <= stat_rows st <= K;
  sb_bytes : 0 <= stat_bytes st <= K
}.

Record copied_below (K : Z) (r : MigrationRecord) : Prop := {
  cb_bytes : 0 <= default 0 (copied_bytes (copy r)) <= K;
  cb_rows : 0 <= default 0 (copied_rows (copy r)) <= K;
  cb_totals : 0 <= default 0 (total_bytes (plan r)) /\ 0 <= default 0 (total_rows (plan r))
}.

Lemma progressed_below cur total b K : 0 <= default 0 cur <= K -> 0 <= default 0 total -> 0 <= b ->
  0 <= default 0 (progressed cur total (default 0 cur + b)) <= K + b.
Proof. intros Hc Ht Hb. unfold progressed. cbn. destruct total; cbn in *; unfold u64_max; lia. Qed.
Lemma chunk_cost bs (l : list (bytes * bytes)) :
  0 <= zsum entry_bytes (chunk_of bs l) <= zsum entry_bytes l /\ (length (chunk_of bs l) <= length l)%nat.
Proof.
  assert (forall l, 0 <= zsum entry_bytes l) as Hnn by (intros; apply zsum_nonneg, Forall_forall; intros; apply page_entry_bytes_nonneg).
  split; [split; [apply Hnn|]|]; unfold chunk_of; destruct (existsb _ _); try done; [|apply length_filter].
  induction l as [|e l IH]; [done|]. rewrite filter_cons. destruct (decide _); rewrite ?zsum_cons; [lia|].
  pose proof (page_entry_bytes_nonneg e). lia.
Qed.

Definition cursor s (x : Z) : Z := default 0 (copy_cursors (copy (rec s)) !! x).

(** What copying donor [x] leaves alone. *)
Record copy_frame (x : Z) s s' : Prop := {
  cf_plan : plan (rec s') = plan (rec s);
  cf_snaps : donor_checkpoint_snapshots (copy (rec s')) = donor_checkpoint_snapshots (copy (rec s));
  cf_cursors y : y <> x -> cursor s' y = cursor s y;
  cf_open : open_shard (dbs s (ms_path recipient)) -> open_shard (dbs s' (ms_path recipient));
  cf_kept p : keeps_snapshots (db (dbs s p)) (db (dbs s' p))
}.

Lemma copy_frame_refl x s : copy_frame x s s.
Proof. split; auto. by intros p u m. Qed.

Lemma copy_frame_trans x s1 s2 s3 : copy_frame x s1 s2 -> copy_frame x s2 s3 -> copy_frame x s1 s3.
Proof.
  intros [A1 A2 A3 A4 A5] [B1 B2 B3 B4 B5]. split; [congruence|congruence| |auto|].
  - intros y Hy. by rewrite B3, A3.
  - intros p u m Hu. by apply B5, A5.
Qed.

Lemma runs_finish_page durable now x i rows bytes s K : copied_below K (rec s) -> 0 <= rows -> 0 <= bytes ->
  K + rows + bytes <= u64_max ->
  runs (finish_page durable now x i rows bytes) s (fun s' _ => copy_frame x s s' /\
    copied_below (K + rows + bytes) (rec s') /\ cursor s' x = i + 1).
Proof.
  intros [C4 C5 [C6 C7]] Hr Hb HK. unfold finish_page. apply runs_bind, runs_get_rec, runs_bind.
  unfold with_page_done. cbn zeta.
  rewrite (checked_in 0 u64_max (default 0 (copied_bytes (copy (rec s))) + bytes)) by lia.
  rewrite (checked_in 0 u64_max (default 0 (copied_rows (copy (rec s))) + rows)) by lia.
  eexists s, _. split; [done|]. apply runs_save_record. intros s' R E.
  pose proof (progressed_below _ _ bytes K C4 C6 Hb). pose proof (progressed_below _ _ rows K C5 C7 Hr).
  split; [|split].
  - split; rewrite ?R; [done|done| |rewrite E; auto|rewrite E; by intros p u m]. intros y Hy. unfold cursor. rewrite R. cbn. by rewrite lookup_insert_ne.
  - rewrite R. split; cbn -[progressed]; [lia|lia|done].
  - unfold cursor. rewrite R. cbn. by rewrite lookup_insert_eq.
Qed.

Lemma add_chunk_below st rows bytes K : stats_below K st -> 0 <= rows -> 0 <= bytes -> K + rows + bytes + 1 <= u64_max ->
  exists st', add_chunk st rows bytes = Done st' /\ stats_below (K + rows + bytes + 1) st'.
Proof.
  intros [S1 S2 S3] Hr Hb HK. unfold add_chunk.
  rewrite (checked_in 0 usize_max (chunks st + 1)) by (unfold usize_max, u64_max in *; lia).
  rewrite (checked_in 0 u64_max (stat_rows st + rows)) by lia. rewrite (checked_in 0 u64_max (stat_bytes st + bytes)) by lia.
  eexists. split; [done|]. split; cbn; lia.
Qed.

Lemma copied_below_mono K K' r : copied_below K r -> K <= K' -> copied_below K' r.
Proof. intros [? ? ?] ?. split; [lia|lia|done]. Qed.
Lemma stats_below_mono K K' st : stats_below K st -> K <= K' -> stats_below K' st.
Proof. intros [? ? ?] ?. split; lia. Qed.

Lemma runs_copy_page durable now x page i st s K : open_shard (dbs s (ms_path recipient)) ->
  Forall (fun e => e.1 <> frontier_key) page -> copied_below K (rec s) -> stats_below K st ->
  K + page_cost (Ok page) <= u64_max ->
  runs (copy_page durable now x (ms_path recipient) page i st) s (fun s' st' => copy_frame x s s' /\
    copied_below (K + page_cost (Ok page)) (rec s') /\ stats_below (K + page_cost (Ok page)) st' /\ cursor s' x = i + 1).
Proof.
  intros Hopen Hkeys HC HS HK. unfold copy_page, page_cost in *. apply runs_bind, runs_get_rec. cbn zeta. apply runs_bind.
  destruct (chunk_cost (buckets (plan (rec s))) page) as [Hby Hro].
  set (l := chunk_of (buckets (plan (rec s))) page) in *.
  apply runs_save_record. intros s1 R1 E1. apply runs_bind.
  assert (copy_frame x s s1) as F1. { split; rewrite ?R1; [done|done| |rewrite E1; auto|rewrite E1; by intros p u m]. intros y _. unfold cursor. by rewrite R1. }
  assert (forall s2 st', copy_frame x s s2 -> copied_below K (rec s2) ->
    stats_below (K + Z.of_nat (length l) + zsum entry_bytes l + 1) st' ->
    runs (finish_page durable now x i (Z.of_nat (length l)) (zsum entry_bytes l);; mret st') s2 (fun s' st' => copy_frame x s s' /\
      copied_below (K + (zsum entry_bytes page + Z.of_nat (length page) + 1)) (rec s') /\
      stats_below (K + (zsum entry_bytes page + Z.of_nat (length page) + 1)) st' /\ cursor s' x = i + 1)) as Hdone.
  { intros s2 st' F2 C2 S2. apply runs_bind. eapply runs_mono; [apply (runs_finish_page durable now x i _ _ s2 K); [done|lia|lia|lia]|].
    intros s3 [] (F3 & C3 & Hcur). apply runs_ret. split; [by eapply copy_frame_trans|].
    split; [eapply copied_below_mono; [done|lia]|]. split; [eapply stats_below_mono; [done|lia]|done]. }
  assert (copied_below K (rec s1)) as C1 by (rewrite R1; by destruct HC; split).
  destruct (length l =? 0)%nat eqn:El.
  - apply runs_ret. apply Hdone; [done|done|]. eapply stats_below_mono; [done|lia].
  - apply runs_bind. apply runs_write; [by rewrite E1| |apply Forall_fmap, Forall_forall; done|].
    { apply Forall_fmap, Forall_forall. intros e He%chunk_of_spec. rewrite Forall_forall in Hkeys. by apply Hkeys. }
    intros d' Hd' Hb. destruct (add_chunk_below st (Z.of_nat (length l)) (zsum entry_bytes l) K) as (st' & Es & Hs'); [done|lia|lia|lia|].
    eexists _, st'. split; [unfold of_outcome; by rewrite Es|]. apply Hdone; [|done|done].
    eapply copy_frame_trans; [exact F1|]. split; [done|done|done|intros _; cbn; by rewrite fn_lookup_insert|]. intros p. cbn.
    destruct (decide (p = ms_path recipient)) as [->|Hne]; [rewrite fn_lookup_insert; by apply (bs_snapshots _ _ _ _ Hb)|].
    rewrite fn_lookup_insert_ne by done. by intros u m.
Qed.

Lemma page_cost_nonneg page : 0 <= page_cost page.
Proof.
  destruct page as [l|]; cbn; [|lia]. pose proof (zsum_nonneg entry_bytes l ltac:(apply Forall_forall; intros; apply page_entry_bytes_nonneg)). lia.
Qed.

Lemma runs_copy_pages durable now x completed ps i st s K : open_shard (dbs s (ms_path recipient)) ->
  Forall (Forall (fun e => e.1 <> frontier_key)) ps -> copied_below K (rec s) -> stats_below K st ->
  K + zsum page_cost (Ok <$> ps) <= u64_max -> i <= cursor s x -> completed <= Z.max (cursor s x) i ->
  runs (copy_pages durable now x (ms_path recipient) completed (Ok <$> ps) i st) s (fun s' st' => copy_frame x s s' /\
    copied_below (K + zsum page_cost (Ok <$> ps)) (rec s') /\ stats_below (K + zsum page_cost (Ok <$> ps)) st' /\
    i + Z.of_nat (length ps) <= cursor s' x).
Proof.
  revert i st s K. induction ps as [|page ps IH]; intros i st s K Ho Hk HC HS HK Hi Hc.
  { apply runs_ret. cbn. change (zsum page_cost []) with 0. rewrite !Z.add_0_r. split; [apply copy_frame_refl|]. by split_and!. }
  apply Forall_cons in Hk as [Hpg Hk]. rewrite fmap_cons, zsum_cons in *. cbn [copy_pages]. apply runs_bind.
  pose proof (page_cost_nonneg (Ok page)) as Hnn.
  assert (0 <= zsum page_cost (Ok <$> ps)) as Hnn' by (apply zsum_nonneg, Forall_forall; intros; apply page_cost_nonneg).
  exists s, page. split; [done|]. destruct (Z.ltb_spec i completed) as [Hlt|Hge].
  - eapply runs_mono; [apply (IH (i + 1) st s K); [done|done|done|done|lia|lia|lia]|].
    intros s' st' (F & C & S & Hcur). split; [done|]. split; [eapply copied_below_mono; [done|lia]|].
    split; [eapply stats_below_mono; [done|lia]|]. cbn [length]. lia.
  - apply runs_bind. eapply runs_mono; [apply (runs_copy_page durable now x page i st s K); [done|done|done|done|lia]|].
    intros s1 st1 (F1 & C1 & S1 & Hcur1).
    eapply runs_mono; [apply (IH (i + 1) st1 s1 (K + page_cost (Ok page))); [by apply F1|done|done|done|lia|lia|lia]|].
    intros s' st' (F & C & S & Hcur). split; [by eapply copy_frame_trans|].
    split; [eapply copied_below_mono; [done|lia]|]. split; [eapply stats_below_mono; [done|lia]|]. cbn [length]. lia.
Qed.

(** With the cursor past the pages nothing happens. *)
Lemma copy_pages_skip durable now x completed ps i st s : i + Z.of_nat (length ps) <= completed ->
  copy_pages durable now x (ms_path recipient) completed (Ok <$> ps) i st s = Done (s, Ok st).
Proof.
  revert i. induction ps as [|page ps IH]; intros i Hc; [done|]. rewrite fmap_cons. cbn [copy_pages length] in *.
  unfold mbind, M_bind, storage. rewrite (proj2 (Z.ltb_lt _ _)) by lia. apply IH. lia.
Qed.

(** The checkpoints can be read: known formats, no oversized row, and no
    frontier among the rows. *)
Record readable (x : Z) (ps : list (list (bytes * bytes))) : Prop := {
  rd_format : content_format (content x) = 1 \/ content_format (content x) = 2;
  rd_pages : pages_at x = Ok <$> ps;
  rd_frontier : Forall (Forall (fun e => e.1 <> frontier_key)) ps
}.

Lemma donor_reader_up donor s : donor ∈ donors -> donor_checkpoint_snapshots (copy (rec s)) = SN ->
  (exists sid u, SN !! ms_shard_id donor = Some sid /\ parse_str sid = Some u /\
    snapshot_of (db (dbs s (ms_path donor))) u = Some (content (ms_shard_id donor))) ->
  (content_format (content (ms_shard_id donor)) = 1 \/ content_format (content (ms_shard_id donor)) = 2) ->
  exists r, donor_reader donor s = Done (s, Ok r) /\
    scan_prefix_pages r [] MAX_COPY_CHUNK_ROWS MAX_COPY_CHUNK_BYTES = pages_at (ms_shard_id donor).
Proof.
  intros Hd Hsn (sid & u & E1 & E2 & E3) Hf. destruct (up_open_checkpoint _ _ _ E3) as [rd Eo].
  pose proof (open_checkpoint_spec _ _ _ Eo) as Ec. rewrite E3 in Ec. injection Ec as Ec.
  assert (exists r, from_reader rd v1_through_v2 = Ok r) as [r Er].
  { unfold from_reader. rewrite !slate_get_contents, <-Ec. cbn [lift mbind result_bind].
    unfold content_format in Hf. destruct (content _ !! format_version_key) as [[|b [|? ?]]|]; cbn [mbind result_bind];
      [lia| |lia|]; [destruct Hf as [-> | ->]|]; cbn; eauto. }
  destruct (from_reader_format _ _ Er) as [Hr Hfm]. exists r. split.
  - unfold donor_reader, mbind, M_bind, ask, storage. rewrite Hsn, E1. unfold open_with_snapshot_id. rewrite E2.
    cbn [ok_or mbind result_bind]. rewrite Eo. cbn [lift mbind result_bind]. by rewrite Er.
  - unfold scan_prefix_pages, pages_at, pages_of. rewrite Hr, Ec.
    assert (use_v2 r [] = strip_of (contents rd)) as ->. { unfold use_v2, strip_of. rewrite Hfm. by rewrite andb_true_r. }
    destruct (up_scan_exact rd (if strip_of (contents rd) then format_v2_prefix [] else []) None) as (l & -> & Hl).
    by rewrite (scan_result_unique _ _ _ _ _ Hl (MapStore.scan_spec _ _ _)).
Qed.

Definition donor_cost (donor : MigrationShard) : Z := zsum page_cost (pages_at (ms_shard_id donor)).

(** The checkpoints are where the record says. *)
Definition located s : Prop :=
  donor_checkpoint_snapshots (copy (rec s)) = SN /\
  forall donor, donor ∈ donors -> exists sid u, SN !! ms_shard_id donor = Some sid /\ parse_str sid = Some u /\
    snapshot_of (db (dbs s (ms_path donor))) u = Some (content (ms_shard_id donor)).

Lemma located_frame x s s' : copy_frame x s s' -> located s -> located s'.
Proof.
  intros F [Hs Hl]. split; [by rewrite (cf_snaps _ _ _ F)|]. intros donor Hd. destruct (Hl donor Hd) as (sid & u & E1 & E2 & E3).
  exists sid, u. split; [done|]. split; [done|]. by apply (cf_kept _ _ _ F).
Qed.

Context (pages : Z -> list (list (bytes * bytes))).
Context (Hreadable : forall donor, donor ∈ donors -> readable (ms_shard_id donor) (pages (ms_shard_id donor))).

Lemma runs_copy_donors durable now todo st s K :
  (forall donor, donor ∈ todo -> donor ∈ donors) -> NoDup (ms_shard_id <$> todo) -> located s ->
  open_shard (dbs s (ms_path recipient)) -> copied_below K (rec s) -> stats_below K st ->
  K + zsum donor_cost todo <= u64_max -> (forall donor, donor ∈ todo -> 0 <= cursor s (ms_shard_id donor)) ->
  runs (copy_donors durable now todo recipient st) s (fun s' _ => located s' /\
    (forall y, y ∉ ms_shard_id <$> todo -> cursor s' y = cursor s y) /\
    forall donor, donor ∈ todo -> Z.of_nat (length (pages (ms_shard_id donor))) <= cursor s' (ms_shard_id donor)).
Proof.
  revert st s K. induction todo as [|donor todo IH]; intros st s K Htodo Hnd Hloc Ho HC HS HK Hcur; cbn [copy_donors].
  { apply runs_ret. split; [done|]. split; [done|]. intros donor Hd. by apply not_elem_of_nil in Hd. }
  assert (donor ∈ donors) as Hd by (apply Htodo; by left). set (x := ms_shard_id donor) in *.
  rewrite fmap_cons in Hnd. apply NoDup_cons in Hnd as [Hx Hnd]. rewrite zsum_cons in HK.
  destruct (Hreadable donor Hd) as [Hf Hpg Hfr]. fold x in Hf, Hpg, Hfr.
  destruct Hloc as [Hsn Hl]. destruct (donor_reader_up donor s Hd Hsn (Hl donor Hd) Hf) as (r & Er & Es). fold x in Es.
  apply runs_bind, runs_get_rec, runs_bind. exists s, r. split; [done|]. apply runs_bind. rewrite Es, Hpg.
  assert (donor_cost donor = zsum page_cost (Ok <$> pages x)) as Ec by (unfold donor_cost; fold x; by rewrite Hpg).
  assert (forall l, 0 <= zsum donor_cost l) as Hnn.
  { intros l. apply zsum_nonneg, Forall_forall. intros d _. apply zsum_nonneg, Forall_forall. intros; apply page_cost_nonneg. }
  pose proof (Hcur donor ltac:(left)) as Hc0. fold x in Hc0. specialize (Hnn todo) as Hnn1.
  eapply runs_mono; [apply (runs_copy_pages durable now x _ (pages x) 0 st s K); [done|done|done|done|lia|done|]|].
  { unfold cursor in *. lia. }
  intros s1 st1 (F1 & C1 & S1 & Hcur1). rewrite <-Ec in C1, S1.
  eapply runs_mono; [apply (IH st1 s1 (K + donor_cost donor)); [intros d Hd'; apply Htodo; by right|done| | |done|done|lia|]|].
  - eapply located_frame; [exact F1|by split].
  - by apply F1.
  - intros d Hd'. rewrite (cf_cursors _ _ _ F1); [apply Hcur; by right|]. intros E. apply Hx, list_elem_of_fmap. by exists d.
  - intros s2 st2 (L2 & O2 & H2'). split; [done|]. split.
    + intros y Hy. rewrite fmap_cons in Hy. apply not_elem_of_cons in Hy as [Hy1 Hy2]. rewrite O2 by done. by apply (cf_cursors _ _ _ F1).
    + intros d [->|Hd']%elem_of_cons; [|by apply H2']. fold x. rewrite O2 by done. lia.
Qed.

Lemma copy_donors_skip durable now todo st s : (forall donor, donor ∈ todo -> donor ∈ donors) -> located s ->
  (forall donor, donor ∈ todo -> Z.of_nat (length (pages (ms_shard_id donor))) <= cursor s (ms_shard_id donor)) ->
  copy_donors durable now todo recipient st s = Done (s, Ok st).
Proof.
  intros Htodo [Hsn Hl] Hcur. induction todo as [|donor todo IH]; [done|]. cbn [copy_donors].
  assert (donor ∈ donors) as Hd by (apply Htodo; by left). destruct (Hreadable donor Hd) as [Hf Hpg _].
  destruct (donor_reader_up donor s Hd Hsn (Hl donor Hd) Hf) as (r & Er & Es).
  unfold mbind, M_bind. cbn [get_rec]. unfold get_rec. rewrite Er, Es, Hpg.
  rewrite copy_pages_skip by (apply Hcur; by left). apply IH; intros d Hd'; [apply Htodo|apply Hcur]; by right.
Qed.

(** C24: An undisturbed copy completes, and then copying again does nothing.  Let
    no call fail, let the recipient be open, the donors distinct, their
    checkpoints readable (format 1 or 2, no row above one mebibyte, the frontier
    key not among the rows), and the counters far from their limits.  From any
    state that attempts can reach, the copy returns successfully with every row
    of the buckets at the recipient.  Any later run of the copy on the same
    record succeeds, copies no chunk and changes nothing: it cannot bring rows
    that reached a donor after its checkpoint, which is what a failed
    verification asks the operator to do. *)
Theorem copy_completes_once c now s K :
  copy_inv s -> NoDup (ms_shard_id <$> donors) -> open_shard (dbs s (ms_path recipient)) ->
  copied_below K (rec s) -> K + zsum donor_cost donors <= u64_max ->
  (forall donor, donor ∈ donors -> 0 <= cursor s (ms_shard_id donor)) ->
  exists s' st, copy_bounded_chunks c now donors recipient s = Done (s', Ok st) /\
    (forall donor k v, donor ∈ donors -> holds (content (ms_shard_id donor)) k v ->
       key_in_buckets (buckets P) k = true -> view (dbs s' (ms_path recipient)) k = Some v) /\
    (forall c' now', copy_bounded_chunks c' now' donors recipient s' = Done (s', Ok no_stats)).
Proof.
  intros Hinv Hnd Ho HC HK Hcur. destruct HC as [C1 C2 C3] eqn:EC. clear EC.
  assert (located s) as Hloc by (split; [apply Hinv|apply (ci_snapshots _ Hinv)]).
  destruct (runs_copy_donors (has_store c) now donors no_stats s K) as (s' & st & E & L' & _ & Hdone); try done.
  { split; cbn; lia. }
  exists s', st. split; [done|]. split.
  - intros donor k v Hd Hh Hb.
    destruct (wp_done _ _ _ _ _ (wp_copy_donors _ now donors no_stats s (fun _ Hd => Hd) Hinv) E) as (_ & _ & Hc).
    exact (complete_rows donor _ k v (Hc donor Hd) Hh Hb).
  - intros c' now'. by apply copy_donors_skip.
Qed.
End copying.

(* ------------------------------------------------------------------ *)
(** ** A concrete copy *)

Import SnapStore FileStore.

Definition donor_rows : gmap bytes bytes := <[row_a := [10]]> {[format_version_key := [1]]}.
Definition donor_db : ShardDb :=
  {| db := {| live := donor_rows; taken := [donor_rows] |}; last_epoch := 0; allocated_epoch := 0; format_version := 1;
     migration_pending := false; fail_writes := false; fail_flushes := false; fail_scans := false |}.

Definition copying_record : MigrationRecord :=
  let r := record_new 0 [0x6D] [1] 2 {[7]} 42 9 in
  {| plan := plan r; state := Copying;
     copy := {| donor_checkpoints := {[1 := 0]}; donor_checkpoint_snapshots := {[1 := [0]]}; copy_cursors := ∅;
       copy_intents := ∅; checkpoint_intents := ∅; cluster_checkpoint_id := Some 1; copied_bytes := None; copied_rows := None |};
     frontiers := frontiers r; cutover_epoch := None; verification_progress := None; cleanup_intent := false; updated_at_ms := 0 |}.

Definition before_copy : Cluster :=
  {| objs := (∅ : gmap RecordPath MigrationRecord);
     dbs := fun p => if bool_decide (p = [1]) then donor_db else shard_with 1 [];
     ckpt := {| rounds := with_config [1] 10; used_credits := 0; all_credits := 8 |}; rec := copying_record |}.

Definition first_copy : M MigrationCopyStats := copy_bounded_chunks durable_coordinator 5 [donor_shard] recipient_shard_2.

Lemma donor_row_cases k v : holds donor_rows k v -> k = format_version_key \/ k = row_a.
Proof.
  change (donor_rows !! k = Some v -> k = format_version_key \/ k = row_a). intros E.
  unfold donor_rows in E. apply lookup_insert_Some in E as [[<- _]|[_ E]]; [by right|].
  apply lookup_singleton_Some in E as [<- _]. by left.
Qed.

Lemma one_donor_ok : sources_ok (plan copying_record) (fun _ => donor_rows) [donor_shard].
Proof.
  split.
  - intros donor k v _ [-> | ->]%donor_row_cases; eexists _, _; (split; [reflexivity|discriminate]).
  - intros donor donor' k v v' _ _ _ E1 E2. unfold holds in *. congruence.
Qed.

Lemma before_copy_located donor : donor ∈ [donor_shard] -> exists sid u,
  ({[1 := [0]]} : gmap Z bytes) !! ms_shard_id donor = Some sid /\ parse_str sid = Some u /\
  snapshot_of (db (dbs before_copy (ms_path donor))) u = Some donor_rows.
Proof. intros ->%list_elem_of_singleton. exists [0], 0%nat. repeat split. Qed.

Lemma copy_resumes_witness : view (dbs (final first_copy before_copy) [2]) row_a = Some [10].
Proof.
  eapply (copy_resumes (plan copying_record) {[1 := [0]]} (fun _ => donor_rows) [donor_shard] recipient_shard_2 one_donor_ok
    before_copy before_copy (final first_copy before_copy) durable_coordinator 5).
  - split; [by repeat split|by intros j r Hj|exact before_copy_located].
  - apply rtc_refl.
  - apply (run_final first_copy). vm_compute. reflexivity.
  - apply list_elem_of_singleton. reflexivity.
  - reflexivity.
  - vm_compute. reflexivity.
Defined.

Lemma copy_completes_once_witness :
  exists s' st, first_copy before_copy = Done (s', Ok st) /\ first_copy s' = Done (s', Ok no_stats).
Proof.
  destruct (copy_completes_once (plan copying_record) {[1 := [0]]} (fun _ => donor_rows) [donor_shard] recipient_shard_2
    one_donor_ok (fun _ => [[(format_version_key, [1]); (row_a, [10])]])) with (c := durable_coordinator) (now := 5)
    (s := before_copy) (K := 0) as (s' & st & E & _ & Hagain).
  - intros donor _. split; [left; reflexivity|vm_compute; reflexivity|]. constructor; [|constructor].
    constructor; [discriminate|]. constructor; [discriminate|constructor].
  - split; [apply fresh_good; by repeat split|by intros j r Hj|exact before_copy_located].
  - apply NoDup_singleton.
  - repeat split.
  - split; cbn; lia.
  - vm_compute. discriminate.
  - intros donor _. unfold cursor. cbn [rec before_copy copying_record copy copy_cursors]. rewrite lookup_empty. cbn. lia.
  - exists s', st. split; [exact E|]. apply Hagain.
Defined.

Definition state_rows : gmap bytes bytes :=
  <[[1; 7; 1] := [10]]> (<[frontier_key := be_bytes 8 9]> {[format_version_key := [1]]}).
Definition format_2_rows : gmap bytes bytes :=
  <[format_v2_key [1; 9; 1] := [30]]> (<[frontier_key := be_bytes 8 5]> {[format_version_key := [2]]}).

Definition format_1_donor : ShardDb :=
  {| db := {| live := state_rows; taken := [state_rows] |}; last_epoch := 9; allocated_epoch := 9; format_version := 1;
     migration_pending := false; fail_writes := false; fail_flushes := false; fail_scans := false |}.
Definition format_2_recipient : ShardDb :=
  {| db := {| live := format_2_rows; taken := [] |}; last_epoch := 5; allocated_epoch := 5; format_version := 2;
     migration_pending := false; fail_writes := false; fail_flushes := false; fail_scans := false |}.

Definition mixed_formats : Cluster :=
  {| objs := (∅ : gmap RecordPath MigrationRecord);
     dbs := fun p => if bool_decide (p = [1]) then format_1_donor else format_2_recipient;
     ckpt := ckpt before_copy; rec := copying_record |}.

(** C37: The copy can overwrite the recipient's own metadata.  A donor in storage
    format 1 has operator state and a committed frontier but no key of a bucket,
    so its page is copied whole, metadata included.  The recipient is in storage
    format 2 with a committed frontier of its own.  The copy succeeds; the
    recipient's committed epoch jumps to the donor's, its format marker now says
    1, and when it is opened again the row it held before cannot be read. *)
Theorem copy_overwrites_recipient_metadata :
  exists (s s' : Cluster) st db' d,
    first_copy s = Done (s', Ok st) /\
    last_epoch (dbs s [2]) = 5 /\ last_epoch (dbs s' [2]) = 9 /\
    view (dbs s [2]) [1; 9; 1] = Some [30] /\
    shard_open (db (dbs s' [2])) v1_through_v3 = (db', Ok d) /\ format_version d = 1 /\ view d [1; 9; 1] = None.
Proof.
  eexists mixed_formats, (final first_copy mixed_formats), _, _, _. split; [apply (run_final first_copy); vm_compute; reflexivity|].
  split; [reflexivity|]. split; [vm_compute; reflexivity|]. split; [vm_compute; reflexivity|].
  split; [vm_compute; reflexivity|]. split; vm_compute; reflexivity.
Qed.
