(* ===== verification/HandoffDrive.v ===== *)
(** * The first phase of a bucket handoff

    [drive_planned_to_copying] takes a checkpoint of every donor, enters the
    copying state and copies.  It can fail at any call.  Its run is composed with
    the copy: whatever record it leaves in memory or in the store, a record in the
    copying state names checkpoints with the donors' rows. *)
From Stdlib Require Import Ascii String.
From stdpp Require Import base tactics list gmap numbers option fin_maps sorting functions relations.
From Stdlib Require Import ZArith Lia ZifyBool.
From stdpp Require Import list.
From S2P Require Import Progress ShardLeases Checkpoints LeaseStore Prelude Kernels Laws MergeOps Keys Store ShardDb Paging Reader Handoff HandoffSafety HandoffCopy.
Local Open Scope Z_scope.

Section driving.
Context `{SlateReader, RecordStore, !SlateDbLaws, !SlateReaderLaws, !RecordStoreLaws}.
Context (P : MigrationPlan) (content : Z -> gmap bytes bytes).
Context (donors : list MigrationShard) (recipient : MigrationShard) (durable : bool).
Implicit Types (d : ShardDb) (s : Cluster).

Definition stored_record s : option Json := stored (objs s) !! ActivePath (migration_id P).

(** Neither the record in memory nor the stored one is in the copying state. *)
Definition idle s : Prop :=
  state (rec s) <> Copying /\ forall j r, stored_record s = Some j -> from_slice j = Some r -> state r <> Copying.

(** The stored record is the one in memory; without a store there is none. *)
Definition synced s : Prop := stored_record s = if durable then Some (to_vec (rec s)) else None.

(** A record in memory or in the store from which the copy can go on. *)
Definition resumable s : Prop :=
  forall r, (r = rec s \/ exists j, stored_record s = Some j /\ from_slice j = Some r) -> state r = Copying ->
    exists SN, copy_inv P SN content donors recipient (with_rec s r).

(** A recorded checkpoint of the donor holds its rows; without one the donor
    itself holds them. *)
Definition source_ok (c : CopyProgress) (D : bytes -> ShardDb) (donor : MigrationShard) : Prop :=
  match donor_checkpoints c !! ms_shard_id donor, donor_checkpoint_snapshots c !! ms_shard_id donor with
  | Some _, Some sid => exists u, parse_str sid = Some u /\
      snapshot_of (db (D (ms_path donor))) u = Some (content (ms_shard_id donor))
  | _, _ => contents (db (D (ms_path donor))) = content (ms_shard_id donor)
  end.

Definition recorded s (donor : MigrationShard) : Prop :=
  is_Some (donor_checkpoints (copy (rec s)) !! ms_shard_id donor) /\
  is_Some (donor_checkpoint_snapshots (copy (rec s)) !! ms_shard_id donor).

(** A record that nothing has been copied for. *)
Record snapshotting s : Prop := {
  sn_plan : plan (rec s) = P;
  sn_state : state (rec s) <> Copying;
  sn_cursors : copy_cursors (copy (rec s)) = ∅;
  sn_sources donor : donor ∈ donors -> source_ok (copy (rec s)) (dbs s) donor
}.

Lemma idle_resumable s : idle s -> resumable s.
Proof. intros [H1' H2'] r [->|(j & Hj & Hr)] E; [done|]. by destruct (H2' _ _ Hj Hr). Qed.

Lemma synced_idle s : synced s -> state (rec s) <> Copying -> idle s.
Proof.
  intros Hs Hne. split; [done|]. unfold synced in Hs. rewrite Hs. intros j r Hj Hr. destruct durable; [|done].
  injection Hj as <-. rewrite from_slice_to_vec in Hr. by injection Hr as <-.
Qed.

Lemma copy_inv_resumable SN s : copy_inv P SN content donors recipient s -> resumable s.
Proof. intros [Hr Hs Hsn] r [->|(j & Hj & Hf)] _; exists SN; split; try done. by eapply Hs. Qed.

(** Writing a record: it takes effect when it succeeds, and may when it fails. *)
Lemma wp_put r s (Q : Cluster -> result MigrationError unit -> Prop) : plan r = P ->
  (durable = false -> stored_record s = None) ->
  (forall s', stored_record s' = (if durable then Some (to_vec r) else None) -> dbs s' = dbs s -> rec s' = rec s ->
     Q s' (Ok tt)) ->
  (forall s' e, stored_record s' = Some (to_vec r) \/ stored_record s' = stored_record s -> dbs s' = dbs s ->
     rec s' = rec s -> Q s' (Err e)) ->
  wp (if durable then save r else mret tt) s Q.
Proof.
  intros EP Hn Hok Herr. unfold stored_record in *. destruct durable; [|apply wp_ret, Hok; auto].
  apply wp_save. intros s' [[]|e] (E1 & _ & HS) R; rewrite EP in HS.
  - apply Hok; [|done|done]. destruct HS as [->|[_ []]]; [by rewrite lookup_insert_eq|done].
  - apply Herr; [|done|done]. destruct HS as [->|[-> _]]; [left; by rewrite lookup_insert_eq|by right].
Qed.

(** Saving a record that is not in the copying state. *)
Lemma wp_save_idle r s (Q : Cluster -> result MigrationError unit -> Prop) :
  plan r = P -> state r <> Copying -> idle s -> (durable = false -> stored_record s = None) ->
  (forall s', synced s' -> dbs s' = dbs s -> rec s' = r -> Q s' (Ok tt)) ->
  (forall s' e, idle s' -> Q s' (Err e)) -> wp (save_record durable r) s Q.
Proof.
  intros EP Hr [I1 I2] Hn Hok Herr. unfold save_record. wp_steps. apply wp_put; [done|done| |].
  - intros s' E1 E2 E3. wp_steps. by apply Hok.
  - intros s' e E1 E2 E3. apply Herr. split; [by rewrite E3|]. intros j r' Hj Hf. destruct E1 as [E1|E1]; rewrite E1 in Hj;
      [|by eapply I2]. injection Hj as <-. rewrite from_slice_to_vec in Hf. by injection Hf as <-.
Qed.

Lemma synced_nostore s : synced s -> durable = false -> stored_record s = None.
Proof. unfold synced. intros Hs Hd. by rewrite Hd in Hs. Qed.

Lemma wp_transition_idle now next s (Q : Cluster -> result MigrationError bool -> Prop) :
  plan (rec s) = P -> next <> Copying -> state (rec s) <> Copying -> synced s ->
  (forall s' ch, synced s' -> dbs s' = dbs s -> plan (rec s') = P -> copy (rec s') = copy (rec s) ->
     state (rec s') = next -> Q s' (Ok ch)) ->
  (forall s' e, idle s' -> Q s' (Err e)) -> wp (transition durable now next) s Q.
Proof.
  intros EP Hn Hst Hs Hok Herr. unfold transition. wp_steps. pose proof (synced_idle _ Hs Hst) as I.
  destruct (apply_transition now (rec s) next) as [[r' ch]|] eqn:E; [|wp_steps; by apply Herr].
  destruct (apply_transition_plan _ _ _ _ _ E) as (P1 & P2 & P3 & _). wp_steps.
  unfold assert_single_authoritative. destruct (negb _); [|done]. wp_steps. apply wp_put; [congruence|by apply synced_nostore| |].
  - intros s' E1 E2 E3. wp_steps. apply Hok; cbn; [done|done|congruence|congruence|done].
  - intros s' e E1 E2 E3. apply Herr. split; [by rewrite E3|]. intros j r1 Hj Hf. destruct E1 as [E1|E1]; rewrite E1 in Hj;
      [|by eapply I]. injection Hj as <-. rewrite from_slice_to_vec in Hf. injection Hf as <-. by rewrite P2.
Qed.

(** Once the copy invariant holds a transition keeps it. *)
Lemma wp_transition_copying SN now next s (Q : Cluster -> result MigrationError bool -> Prop) :
  copy_inv P SN content donors recipient s -> (durable = false -> stored_record s = None) ->
  (forall s' ch, copy_inv P SN content donors recipient s' -> state (rec s') = next -> dbs s' = dbs s ->
     (durable = false -> stored_record s' = None) -> Q s' (Ok ch)) ->
  (forall s' e, copy_inv P SN content donors recipient s' -> Q s' (Err e)) -> wp (transition durable now next) s Q.
Proof.
  intros Hinv Hn Hok Herr. unfold transition. wp_steps.
  destruct (apply_transition now (rec s) next) as [[r' ch]|] eqn:E; [|wp_steps; by apply Herr].
  destruct (apply_transition_plan _ _ _ _ _ E) as (P1 & P2 & P3 & _). destruct Hinv as [Hr Hs Hsn]. wp_steps.
  assert (good_record P SN content donors (recipient_view recipient s) r') as Hg
    by (destruct Hr as [G1 G2 G3]; split; [congruence|congruence|by rewrite P3]).
  assert (forall s' r0, dbs s' = dbs s -> good_record P SN content donors (recipient_view recipient s) r0 ->
    (stored_record s' = Some (to_vec r') \/ stored_record s' = stored_record s) ->
    copy_inv P SN content donors recipient (with_rec s' r0)) as Hinv.
  { intros s' r0 E2 Hg0 E1. assert (recipient_view recipient s' = recipient_view recipient s) as EV
      by (unfold recipient_view; by rewrite E2).
    split; [by change (good_record P SN content donors (recipient_view recipient s') r0); rewrite EV| |cbn; by rewrite E2].
    change (recipient_view recipient (with_rec s' r0)) with (recipient_view recipient s'). rewrite EV.
    change (forall j r, stored_record s' = Some j -> from_slice j = Some r ->
      good_record P SN content donors (recipient_view recipient s) r).
    intros j r Hj Hf. destruct E1 as [E1|E1]; rewrite E1 in Hj; [|by eapply Hs].
    injection Hj as <-. rewrite from_slice_to_vec in Hf. by injection Hf as <-. }
  unfold assert_single_authoritative. destruct (negb _); [|done]. wp_steps. apply wp_put;
    [rewrite P1; apply Hr|done| |].
  - intros s' E1 E2 E3. wp_steps. apply Hok; cbn; [apply Hinv; [done|done|]|done|done|intros Hd; change (stored_record s' = None); by rewrite E1, Hd].
    destruct durable; [by left|right; rewrite E1; symmetry; by apply Hn].
  - intros s' e E1 E2 E3. apply Herr. replace s' with (with_rec s' (rec s)) by (destruct s'; cbn in *; by rewrite E3).
    by apply Hinv.
Qed.
(* ------------------------------------------------------------------ *)
(** ** The donors' checkpoints *)

Lemma wp_coordinate {A} (f : Coordinator -> Coordinator * result CoordinatorError A) s
    (Q : Cluster -> result MigrationError A -> Prop) : (forall k r, Q (with_ckpt s k) r) -> wp (coordinate f) s Q.
Proof. intros HQ. unfold wp, coordinate. by destruct (f (ckpt s)) as [k [a|e]]. Qed.

Lemma wp_create_checkpoint path s (Q : Cluster -> result MigrationError CheckpointHandle -> Prop) :
  (forall d' r, contents (db d') = contents (db (dbs s path)) -> keeps_snapshots (db (dbs s path)) (db d') ->
     match r with
     | Ok h => exists u, parse_str (handle_snapshot_id h) = Some u /\
         snapshot_of (db d') u = Some (contents (db (dbs s path)))
     | Err _ => True
     end -> Q (with_db s path d') r) ->
  wp (create_donor_checkpoint path) s Q.
Proof.
  intros HQ. unfold wp, create_donor_checkpoint, create_checkpoint.
  destruct (slate_checkpoint _) as [db' r] eqn:E. apply slate_checkpoint_spec in E as (E1 & E2 & E3).
  destruct r as [[id u]|e]; apply HQ; try done. exists u. split; [apply parse_uuid_string|done].
Qed.

(** Taking a checkpoint of a shard keeps the sources. *)
Lemma source_ok_checkpoint c D path d' donor : contents (db d') = contents (db (D path)) ->
  keeps_snapshots (db (D path)) (db d') -> source_ok c D donor -> source_ok c (<[path := d']> D) donor.
Proof.
  intros Ec Ek. unfold source_ok. destruct (decide (ms_path donor = path)) as [->|Hne];
    [rewrite !fn_lookup_insert|by rewrite !fn_lookup_insert_ne].
  destruct (donor_checkpoints c !! ms_shard_id donor), (donor_checkpoint_snapshots c !! ms_shard_id donor); try by rewrite Ec.
  intros (u & E1 & E2). exists u. split; [done|by apply Ek].
Qed.

Context (Hids : NoDup (ms_shard_id <$> donors)).

Lemma same_donor donor donor' : donor ∈ donors -> donor' ∈ donors -> ms_shard_id donor = ms_shard_id donor' -> donor = donor'.
Proof.
  intros [i Hi]%list_elem_of_lookup [j Hj]%list_elem_of_lookup E.
  assert (i = j) as ->; [|congruence]. eapply (NoDup_lookup _ i j); [exact Hids|by rewrite list_lookup_fmap, Hi|].
  rewrite list_lookup_fmap, Hj. cbn. by rewrite E.
Qed.

Lemma source_ok_recorded c D donor donor' h u : donor ∈ donors -> donor' ∈ donors ->
  parse_str (handle_snapshot_id h) = Some u ->
  snapshot_of (db (D (ms_path donor))) u = Some (content (ms_shard_id donor)) ->
  source_ok c D donor' -> source_ok (with_checkpoint c (ms_shard_id donor) h) D donor'.
Proof.
  intros Hd Hd' E1 E2. unfold source_ok. cbn [with_checkpoint donor_checkpoints donor_checkpoint_snapshots].
  destruct (decide (ms_shard_id donor = ms_shard_id donor')) as [E|Hne]; [|by rewrite !lookup_insert_ne].
  rewrite (same_donor _ _ Hd Hd' E) in *. rewrite !lookup_insert_eq. eauto.
Qed.

Definition checkpointed (todo : list MigrationShard) s s' (r : result MigrationError unit) : Prop :=
  match r with
  | Ok _ => snapshotting s' /\ synced s' /\ forall donor, donor ∈ todo \/ recorded s donor -> recorded s' donor
  | Err _ => idle s'
  end.

(** One donor without a recorded checkpoint. *)
Lemma wp_checkpoint_donor id donor s : donor ∈ donors -> snapshotting s -> synced s ->
  contents (db (dbs s (ms_path donor))) = content (ms_shard_id donor) ->
  wp (save_record durable (set_copy (rec s) (with_intent (copy (rec s)) (ms_shard_id donor)));;
      handle ← create_donor_checkpoint (ms_path donor);
      coordinate (fun c => record_shard_checkpoint c (ms_shard_id donor)
        {| psc_checkpoint_id := id; shard_checkpoint_id := handle_checkpoint_id handle;
           snapshot_id := Some (handle_snapshot_id handle) |});;
      r ← get_rec;
      save_record durable (set_copy r (with_checkpoint (copy r) (ms_shard_id donor) handle))) s (checkpointed [donor] s).
Proof.
  intros Hd [S1 S2 S3 S4] Hs Hc. wp_steps. apply wp_save_idle; [done|done|by apply synced_idle|by apply synced_nostore| |done].
  intros s1 Y1 D1 R1. wp_steps. apply wp_create_checkpoint. intros d' r Ec Ek Er. destruct r as [h|e].
  2:{ apply (synced_idle s1); [done|by rewrite R1]. }
  wp_steps. apply wp_coordinate. intros k [m|e]; [|apply (synced_idle s1); [done|by rewrite R1]].
  wp_steps. cbn [rec with_ckpt with_db dbs]. rewrite R1. destruct Er as (u & E1 & E2). rewrite D1 in *. rewrite Hc in E2.
  apply wp_save_idle; [done|done|apply (synced_idle s1); [done|by rewrite R1]|by apply (synced_nostore s1)| |done].
  intros s2 Y2 D2 R2. cbn [dbs with_ckpt with_db] in D2. split; [|split; [done|]].
  - split; rewrite R2; cbn [set_copy plan state copy with_checkpoint with_intent copy_cursors]; [done|done|done|].
    intros donor' Hd'. rewrite D2. eapply (source_ok_recorded _ _ donor donor'); [done|done|done|by rewrite fn_lookup_insert|].
    apply source_ok_checkpoint; rewrite ?D1; [done|done|]. exact (S4 _ Hd').
  - intros donor' Hor. unfold recorded. rewrite R2. cbn [set_copy copy with_checkpoint donor_checkpoints donor_checkpoint_snapshots].
    destruct (decide (ms_shard_id donor = ms_shard_id donor')) as [->|Hne]; [by rewrite !lookup_insert_eq|].
    rewrite !lookup_insert_ne by done. destruct Hor as [->%list_elem_of_singleton|[? ?]]; [done|by split].
Qed.

Lemma wp_checkpoint_donors id todo s : (forall donor, donor ∈ todo -> donor ∈ donors) -> snapshotting s -> synced s ->
  wp (checkpoint_donors durable id todo) s (checkpointed todo s).
Proof.
  revert s. induction todo as [|donor todo IH]; intros s Htodo Hsn Hs; cbn [checkpoint_donors].
  { wp_steps. split; [done|]. split; [done|]. intros donor [Hn|Hr]; [by apply not_elem_of_nil in Hn|done]. }
  assert (donor ∈ donors) as Hd by (apply Htodo; by left).
  assert (forall s1 r, checkpointed [donor] s s1 r -> match r with
    | Ok _ => wp (checkpoint_donors durable id todo) s1 (checkpointed (donor :: todo) s)
    | Err e => checkpointed (donor :: todo) s s1 (Err e) end) as Hnext.
  { intros s1 [[]|e] Hr; [|done]. destruct Hr as (N1 & Y1 & Hrec).
    eapply wp_mono; [apply IH; [intros d' Hd'; apply Htodo; by right|done|done]|].
    intros s2 [[]|e]; [|done]. intros (N2 & Y2 & Hrec2). split; [done|]. split; [done|].
    intros d' [[->|Hin]%elem_of_cons|Hin]; apply Hrec2; [right; apply Hrec; left; by left|by left|right; apply Hrec; by right]. }
  wp_steps. cbn zeta. pose proof (sn_sources _ Hsn _ Hd) as Hsrc. unfold source_ok in Hsrc.
  destruct (donor_checkpoints (copy (rec s)) !! ms_shard_id donor) as [cp|] eqn:Ecp;
    [destruct (donor_checkpoint_snapshots (copy (rec s)) !! ms_shard_id donor) as [sid|] eqn:Esid|];
    [|eapply wp_mono; [by apply wp_checkpoint_donor|exact Hnext]..].
  wp_steps. apply wp_coordinate. intros k [m|e]; wp_steps; [|by apply (synced_idle s), Hsn].
  apply (Hnext (with_ckpt s k) (Ok tt)). split; [destruct Hsn; by split|]. split; [done|].
  intros donor' [->%list_elem_of_singleton|Hr]; [|done]. unfold recorded. cbn [with_ckpt rec]. by rewrite Ecp, Esid.
Qed.
(* ------------------------------------------------------------------ *)
(** ** The whole phase *)

Lemma start_copying s : snapshotting s -> synced s -> (forall donor, donor ∈ donors -> recorded s donor) ->
  copy_inv P (donor_checkpoint_snapshots (copy (rec s))) content donors recipient s.
Proof.
  intros [S1 S2 S3 S4] Hs Hrec. assert (forall V, good_record P (donor_checkpoint_snapshots (copy (rec s))) content donors V (rec s)) as Hg
    by (intros V; by apply fresh_good).
  split; [apply Hg| |].
  - intros j r Hj Hf. change (stored_record s = Some j) in Hj. unfold synced in Hs. rewrite Hs in Hj. destruct durable; [|done].
    injection Hj as <-. rewrite from_slice_to_vec in Hf. injection Hf as <-. apply Hg.
  - intros donor Hd. destruct (Hrec _ Hd) as [[cp E1] [sid E2]]. pose proof (S4 _ Hd) as Hsrc. unfold source_ok in Hsrc.
    rewrite E1, E2 in Hsrc. destruct Hsrc as (u & E3 & E4). by exists sid, u.
Qed.

Lemma wp_abort_idle c now st elapsed budget s : has_store c = durable -> snapshotting s -> synced s ->
  wp (abort_on_timeout c now st elapsed budget) s (fun s' r => match r with Ok _ => s' = s | Err _ => idle s' end).
Proof.
  intros Ec Hsn Hs. unfold abort_on_timeout. rewrite Ec. destruct (elapsed <=? budget); [done|]. wp_steps.
  apply wp_transition_idle; [apply Hsn|done|apply Hsn|done| |done].
  intros s' ch Y _ _ _ E. wp_steps. apply synced_idle; [done|by rewrite E].
Qed.

Lemma wp_abort_copying SN c now st elapsed budget s : has_store c = durable -> copy_inv P SN content donors recipient s ->
  (durable = false -> stored_record s = None) ->
  wp (abort_on_timeout c now st elapsed budget) s (fun s' r => copy_inv P SN content donors recipient s').
Proof.
  intros Ec Hinv Hn. unfold abort_on_timeout. rewrite Ec. destruct (elapsed <=? budget); [done|]. wp_steps.
  apply (wp_transition_copying SN); [done|done| |done]. intros s' ch I _ _ _. by wp_steps.
Qed.

Context (Hsrc : sources_ok P content donors).

(** What the phase leads to, however it ends. *)
Definition driven s' (r : result MigrationError ClusterCheckpoint) : Prop :=
  resumable s' /\
  match r with
  | Ok _ => forall donor, donor ∈ donors -> complete P content donor (recipient_view recipient s')
  | Err _ => True
  end.

Lemma driven_idle s e : idle s -> driven s (Err e).
Proof. split; [by apply idle_resumable|done]. Qed.

Lemma wp_enter_copying c now elapsed m s : has_store c = durable -> snapshotting s -> synced s ->
  (forall donor, donor ∈ donors -> recorded s donor) ->
  wp (transition durable now Copying;; abort_on_timeout c now Copying elapsed (copying_timeout c);;
      copy_bounded_chunks c now donors recipient;; mret m) s driven.
Proof.
  intros Hc Hsn Hs Hrec. pose proof (start_copying s Hsn Hs Hrec) as I0. set (SN := donor_checkpoint_snapshots _) in I0.
  assert (forall s' e, copy_inv P SN content donors recipient s' -> driven s' (Err e)) as Herr
    by (intros s' e I; split; [by eapply copy_inv_resumable|done]).
  wp_steps. apply (wp_transition_copying SN); [done|by apply synced_nostore| |exact Herr]. intros s1 ch I1 T1 D1 Hn1.
  wp_steps. eapply wp_mono; [by apply (wp_abort_copying SN)|]. intros s2 [[]|e] I2; [|by apply Herr].
  wp_steps. eapply wp_mono; [apply (wp_copy_donors P SN content donors recipient Hsrc _ now donors no_stats s2); done|].
  intros s3 [st|e] (I3 & _ & Hdone); [|by apply Herr]. wp_steps. split; [by eapply copy_inv_resumable|done].
Qed.

Lemma wp_drive c now instant e1 e2 s : has_store c = durable -> snapshotting s -> idle s ->
  (durable = false -> stored_record s = None) ->
  wp (drive_planned_to_copying c now instant donors recipient e1 e2) s driven.
Proof.
  intros Hc Hsn Hi Hn. unfold drive_planned_to_copying. rewrite Hc. wp_steps.
  apply wp_save_idle; [by destruct donors; apply Hsn|by destruct donors; apply Hsn|done|done| |intros; by apply driven_idle].
  intros s1 Y1 D1 R1. assert (snapshotting s1) as N1
    by (destruct Hsn; split; rewrite R1, ?D1; by destruct (ms_frontier <$> donors)).
  wp_steps. apply wp_transition_idle; [apply N1|done|apply N1|done| |intros; by apply driven_idle].
  intros s2 ch Y2 D2 P2 C2 T2. assert (snapshotting s2) as N2
    by (destruct N1; split; rewrite ?C2, ?D2; [done|by rewrite T2|done..]).
  wp_steps. eapply wp_mono; [by apply wp_abort_idle|]. intros s' [[]|e] Hr; [subst s'|by apply driven_idle].
  assert (idle s2) as I2 by (apply synced_idle, N2; done).
  wp_steps. apply wp_coordinate. intros k [id|e]; [|by apply driven_idle].
  wp_steps. apply wp_save_idle; [apply N2|apply N2|done|by apply (synced_nostore s2)| |intros; by apply driven_idle].
  intros s3 Y3 D3 R3. assert (snapshotting s3) as N3 by (destruct N2; split; rewrite R3, ?D3; done).
  wp_steps. eapply wp_mono; [by apply wp_checkpoint_donors|]. intros s4 [[]|e] E4; [|by apply driven_idle].
  destruct E4 as (N4 & Y4 & Hrec). wp_step. apply wp_ask. apply wp_bind.
  destruct (latest_committed _) as [m|]; [apply wp_ret|apply wp_throw, driven_idle, synced_idle, N4; done].
  apply wp_enter_copying; [done|done|done|]. intros donor Hd. apply Hrec. by left.
Qed.
(** Every row of the migrated buckets is at the recipient. *)
Definition rows_arrived s : Prop :=
  forall donor k v, donor ∈ donors -> holds (content (ms_shard_id donor)) k v -> key_in_buckets (buckets P) k = true ->
    view (dbs s (ms_path recipient)) k = Some v.

Lemma attempts_arrive SN c now s s1 s2 st : copy_inv P SN content donors recipient s ->
  rtc (attempt P donors recipient) s s1 -> copy_bounded_chunks c now donors recipient s1 = Done (s2, Ok st) -> rows_arrived s2.
Proof.
  intros Hinv Hrtc E. assert (copy_inv P SN content donors recipient s1) as I1.
  { clear E. induction Hrtc as [|x y z Hstep _ IH]; [done|]. eapply IH, attempt_inv; done. }
  destruct (wp_done _ _ _ _ _ (wp_copy_donors P SN content donors recipient Hsrc _ now donors no_stats s1 (fun _ Hd => Hd) I1) E)
    as (_ & _ & Hc).
  intros donor k v Hd Hh Hb. exact (complete_rows P content donor _ k v (Hc donor Hd) Hh Hb).
Qed.
End driving.

(** C8: The snapshot phase of a handoff hands every row to the copy, wherever it
    fails.  Let each donor hold its rows or have a recorded checkpoint that holds
    them, let nothing be copied yet, and run the phase that checkpoints the donors
    and copies, ending in any way.  When it succeeds every row the donors hold in
    the migrated buckets is at the recipient.  Whatever record in the copying
    state it leaves, in memory or in the store, the copy can go on from it: after
    any number of further failed attempts and restarts a copy that succeeds has
    brought every such row. *)
Theorem drive_loses_no_row `{SlateReader, RecordStore, !SlateDbLaws, !SlateReaderLaws, !RecordStoreLaws}
    P content donors recipient c now instant e1 e2 (s s' : Cluster) r :
  NoDup (ms_shard_id <$> donors) -> sources_ok P content donors -> snapshotting P content donors s -> idle P s ->
  (has_store c = false -> stored_record P s = None) ->
  drive_planned_to_copying c now instant donors recipient e1 e2 s = Done (s', r) ->
  (forall m, r = Ok m -> rows_arrived P content donors recipient s') /\
  (forall r0, (r0 = rec s' \/ exists j, stored_record P s' = Some j /\ from_slice j = Some r0) -> state r0 = Copying ->
     forall c' now' s1 s2 st, rtc (attempt P donors recipient) (with_rec s' r0) s1 ->
       copy_bounded_chunks c' now' donors recipient s1 = Done (s2, Ok st) -> rows_arrived P content donors recipient s2).
Proof.
  intros Hids Hsrc Hsn Hi Hn E.
  destruct (wp_done _ _ _ _ _ (wp_drive P content donors recipient (has_store c) Hids Hsrc c now instant e1 e2 s eq_refl Hsn Hi Hn) E)
    as [Hres Hok].
  split.
  - intros m -> donor k v Hd Hh Hb. exact (complete_rows P content donor _ k v (Hok donor Hd) Hh Hb).
  - intros r0 Hr0 Hst c' now' s1 s2 st Hrtc Hcopy. destruct (Hres r0 Hr0 Hst) as [SN Hinv]. by eapply attempts_arrive.
Qed.

(* ------------------------------------------------------------------ *)
(** ** A concrete run *)

Import SnapStore FileStore.

Definition planned : Cluster := with_rec before_copy (record_new 0 [0x6D] [1] 2 {[7]} 42 9).

Definition first_drive : M ClusterCheckpoint :=
  drive_planned_to_copying durable_coordinator 5 0 [donor_shard] recipient_shard_2 10 20.

Lemma drive_loses_no_row_witness : view (dbs (final first_drive planned) [2]) row_a = Some [10].
Proof.
  edestruct (drive_loses_no_row (plan copying_record) (fun _ => donor_rows) [donor_shard] recipient_shard_2
    durable_coordinator 5 0 10 20 planned (final first_drive planned)) as [Hok _].
  - apply NoDup_singleton.
  - exact one_donor_ok.
  - split; [reflexivity|discriminate|reflexivity|]. intros donor ->%list_elem_of_singleton. reflexivity.
  - split; [discriminate|]. by intros j r Hj.
  - discriminate.
  - apply (run_final first_drive). vm_compute. reflexivity.
  - apply (Hok _ eq_refl donor_shard row_a [10]); [|reflexivity|vm_compute; reflexivity].
    apply list_elem_of_singleton. reflexivity.
Defined.
